(* ===== verification/_CoqProject ===== *)
-Q . S2P
Prelude.v
Incremental.v
Datagram.v
H3Error.v
Capsule.v
Huffman.v
Qpack.v
Frame.v
FrameFacts.v
FrameBudget.v
FrameSettings.v
Policy.v
Utf8.v
Message.v
RequestStream.v
RequestFacts.v
Logfmt.v
Auth.v
Connection.v
ConnectionFacts.v
Peer.v
Exchange.v
ExchangeFacts.v
Tokio.v
Quota.v
Status.v
StatusFacts.v
Gate.v
GateFacts.v
GateStream.v
GateVerdict.v
Target.v
Net.v
Context.v
UdpSession.v
UdpFacts.v
TcpTunnel.v
TcpFacts.v
Roster.v
Reload.v
ReloadAtomic.v
Congestion.v
CongestionFacts.v
Conn.v
ConnFacts.v
EndToEnd.v
Server.v
Config.v
ConfigText.v
ConfigFacts.v
Shutdown.v
Tls.v
Endpoint.v
Diagnostics.v
Process.v
Main.v
Fuzz.v
FuzzAuth.v
FuzzRequest.v
DebugText.v
FuzzGate.v
CloseLog.v
Sockets.v
