(* ===== verification/Prelude.v ===== *)
(** * Volto: a verification library for the proxy server

    Volto is a MASQUE proxy: an HTTP/3 server on QUIC that turns CONNECT and
    CONNECT-UDP requests into TCP and UDP tunnels.  This library models what it
    decides (wire formats, protocol state machines, request validation,
    authentication, destination policy, tunnels, limits, configuration, shutdown)
    as executable functions and step relations translated from src/src, with the
    fuzz targets of src/fuzz that state what the decoders promise, and proves what
    makes them correct.  quinn, rustls, tokio, the operating system and the
    clock are not modelled: what they deliver (chunks, ends, resets, timeouts, the
    outcome of a write) is an input, and what they are told to do is an output.

    ** The program and the files that model it

    The path of a request through the server, with the file for each stage:

    - a received datagram: [Gate] (gate.rs: the SNI filter under the endpoint),
      with [GateFacts] (what is read of a ClientHello), [GateStream] (the CRYPTO
      stream of an Initial packet) and [GateVerdict] (the verdict on a datagram);
    - a connection: [Server] (quic/mod.rs: the accept loop and a connection's
      task), [Roster] (quic/roster.rs: the cap on connections and the eviction),
      [Reload] (quic/reload.rs: configuration and certificate replaced together)
      with [ReloadAtomic] (the abstract machine its threads refine),
      [Endpoint] (quic/transport.rs, quic/socket.rs: transport parameters,
      descriptors, socket buffers), [Tls] (tls.rs: which certificate is presented
      to whom), [Congestion] and [CongestionFacts] (congestion.rs);
    - bytes of a stream or datagram: [Datagram] (datagram.rs: varints, HTTP
      datagrams) and [Capsule] (capsule.rs: the capsule decoder of CONNECT-UDP);
    - frames: [Frame] (h3/frame.rs and the constants of h3/mod.rs: the decoder's
      state machine, the verdict on each frame's type and length, the budget for
      unfinished frames, SETTINGS, the reader over a stream), with its facts in
      [FrameFacts] (chunking, frame sequences), [FrameBudget] (all decoders of a
      connection and their one counter, as a transition system) and
      [FrameSettings] (SETTINGS payloads, the end of a stream);
    - field sections: [Huffman] (h3/huffman.rs) and [Qpack] (h3/qpack.rs);
    - messages: [Message] (h3/message.rs), [RequestStream] (h3/stream.rs,
      build_request and its checks) and [RequestFacts] (the declarative reading of
      RFC 9114 and RFC 8441 that it implements);
    - the request stream: [Exchange] and [ExchangeFacts] (h3/stream.rs: resolve,
      the response under a deadline, the two halves of a tunnel);
    - the HTTP/3 connection: [Connection] and [ConnectionFacts] (h3/connection.rs:
      the control and QPACK streams, datagram sessions, violations, accept, GOAWAY)
      on [H3Error] (h3/error.rs), and [Peer] (the handshake, the task that serves
      the peer's other streams, the waits on the peer's signals);
    - the requests of a connection: [Conn] and [ConnFacts] (conn.rs, h3api.rs:
      handle_request in the order of the source, the connection loop), on
      [Context] (tunnel/mod.rs: what the requests share, the guesses counted, the
      admission of a target), and [EndToEnd], which composes the stages above and
      below from the bytes of a HEADERS frame to the tunnel or the refusal;
    - who may pass: [Auth] (auth.rs);
    - where to: [Target] (tunnel/mod.rs, tcp.rs, udp.rs: how a request names its
      target), [Net] (net.rs: the order of addresses, literals, the budget for
      lookups) and [Policy] (policy.rs);
    - how many: [Quota] (tunnel/quota.rs), a step relation over the tasks of a
      connection and the drain;
    - the tunnel: [TcpTunnel] and [TcpFacts] (tunnel/tcp.rs), [UdpSession] and
      [UdpFacts] (tunnel/udp.rs);
    - the refusal: [Status] and [StatusFacts] (tunnel/status.rs);
    - what is logged: [Logfmt] (logfmt.rs), [DebugText] (how a peer's text is
      printed, on the interface of the standard library's escapes) and [CloseLog]
      (h3/error.rs, quic/mod.rs: the text of the errors and the lines of a
      connection's task);
    - the host's sockets: [Sockets] (net.rs: the address probe, the descriptor
      limits and the fragmentation option, and what the socket of a UDP session is);
    - the settings: [Config] (config.rs: defaults, accessors, validation,
      warnings), [ConfigText] (the report of a parse failure) and [ConfigFacts]
      (what a validated configuration guarantees to the rest);
    - the process: [Main] (main.rs: the flags, the set-up and the run),
      [Process] (Config::load, the endpoint's set-up, a reload and the life of the
      process under its signals) and [Diagnostics] (the support bundle of main.rs);
    - the end: [Shutdown] (shutdown.rs and the drain of quic/mod.rs);
    - the fuzz targets: [Fuzz] (fuzz/fuzz_targets: datagram.rs, capsule.rs,
      frame.rs, qpack.rs, authority.rs), [FuzzAuth] (auth.rs), [FuzzRequest]
      (request.rs) and [FuzzGate] (gate.rs), each target a function that is [None]
      where the target would panic.

    [Prelude] (this file) holds machine integers, bytes, results, loops and the
    lemmas shared; [Incremental] the contract ([IncrementalDecoder]) that the
    capsule and the frame decoder both implement and that the readers rely on;
    [Utf8] what the standard library decides about UTF-8; [Tokio] the interfaces
    of tokio's semaphore, notification and watch channel.

    ** How code becomes definitions

    A struct is a record, an enum an inductive type, and an operation one
    definition with the source's name (a prefix or suffix tells apart names that
    several types share, and [set_x] is the assignment to a field).  A method that
    changes its receiver returns the new one.  [Result] is [result], with [let?]
    for the question mark; where a definition says so, [None] is a panic.  An
    unsigned integer is a [Z] with its wrap-around or saturation written out; a
    length that indexes a buffer is a [nat], a duration or an instant a number of
    nanoseconds.  A [str] is its bytes.  State behind an [Arc], a mutex or an
    atomic ([Shared] of a connection, the counter of the buffer budget, the quota,
    the live configuration) is passed explicitly, and where the interleaving of
    tasks matters it is a step relation whose steps are the single atomic accesses
    ([FrameBudget.conn_step], [Quota.step], [Net.conn_step], [Reload.process_step],
    the steps of [Shutdown]) or the turns of the tasks ([TcpTunnel.tunnel_step]).
    A [select!] is a turn whose input says what was found ready, with the order of
    the arms where it is biased.  Actions on quinn, on sockets and on the log are
    returned as lists, in order.

    Other crates are interfaces where the code relies on how they behave:
    [Tokio.Semaphore], [Tokio.Notify] and [Tokio.Watch] with their documented
    laws, [Gate.ServerConfig] for quinn's Initial keys, [Target.PercentDecode],
    [TcpTunnel.BytesMut], [Congestion.Controller] for quinn's BBR,
    [Endpoint.IdleTimeout], [Tls.Pki] for rustls and the files it reads,
    [Process.Host] for the parser of the configuration file and the machine the
    process starts on, [DebugText.DebugChar] for the standard library's escapes,
    [CloseLog.QuinnDisplay] for the text of quinn's errors and [Sockets.Kernel] for
    Linux's calls on UDP sockets.  They are arguments where it only passes
    values on (quinn's errors, libc's numbers, the answers of sockets, resolver
    and clock).  Each theorem that relies on an interface has a witness at a
    concrete instance of it.  [GateVerdict.Seals] is the one hypothesis on Initial
    keys: a client's protection of a long header and its sealing are undone by the
    server's.  [GateVerdict.rfc_seals] proves it of the header protection of RFC 9001
    5.4, whatever the cipher that makes the mask and whatever AEAD opens what it
    sealed.

    ** Loops and bounds

    No theorem depends on an amount of fuel.  A loop of the source is a step
    function with an instance of [Loop], the measure that makes it terminate;
    [run] is total, evaluates, and satisfies the loop's equation ([run_unfold]).
    Measures are the bytes left to read, the connections left to evict, or the
    logarithm of what is left to write.  A loop that ends only when the outside
    says so (accept, the session of a UDP tunnel, a pump) is a recursion over the
    sequence of what happens, of any length.  The one bounded recursion,
    [Status.digits], is bounded by the number of digits of the integer type it
    prints.

    ** What the theorems show

    - Wire formats: exact characterisations of what each decoder accepts (Qpack,
      Huffman, SETTINGS, base64, targets, the ClientHello), round trips with the
      writers, error classes, and independence of chunk boundaries (Capsule,
      Frame, the CRYPTO fragments of the gate).
    - From the wire to the request: a HEADERS frame in any chunks, behind frames
      to skip, reads as what its block means; a field section becomes a request
      exactly when the RFCs' rules hold, and is otherwise one stream's
      H3_MESSAGE_ERROR; responses and tunnel bytes arrive as they were written.
    - The composition: a request that does not authenticate is handled the same
      whatever resolver, sockets and clock would do; every request is answered
      once; an admitted target has only addresses the policy allows; a connection
      that never authenticates ends at its deadline.
    - End to end: the bytes of an authenticated CONNECT or CONNECT-UDP request, in
      any chunks, become a tunnel to an address the policy allows and one response
      the client reads as 200; those of an unauthenticated CONNECT reach nothing, and
      the client reads the challenge or finds the connection closed.
    - Tunnels: each side of a TCP tunnel has been handed a prefix of what the other
      sent, a clean end is passed on behind all of it, any other ending reaches
      both halves with its code and within two steps; a UDP session keeps packets
      to silent targets within its two budgets, relays capsules in any chunking,
      ends once and ends when idle.
    - Resources: the memory of unfinished frames and capsules is bounded whatever
      the peer sends; the quota, the cap on connections, the guesses at passwords
      and the lookups stay within their limits; datagram queues are bounded and
      never mix sessions; log lines are bounded and sampled.  The threads of the
      resolver stay within the pool, with one for every lookup as long as none
      outlives its connection; those that do can take the whole pool.
    - The log: a peer that closes with prose of its own puts no control character
      on a line and a bounded number of octets, a connection leaves two lines above
      DEBUG and a failed handshake none, and the last is a warning exactly for an
      error.
    - The fuzz targets: no assertion of any of them fails on any input (the capsule
      round trip up to 64 KiB, past which its own encoder makes a capsule the
      decoder is right to refuse), the debug assertions they reach included, but one:
      that a refused datagram is let through once its connection id is changed
      fails only where the gate opens the packet under both ids, which no theorem
      about the gate excludes.
    - Sockets: the socket of a session is bound in its target's family, asked not to
      fragment before it is connected, and absent only if binding or connecting
      failed for every address.
    - Interleavings: a drain loses no wake-up; the shutdown latch never un-fires and
      wakes every waiter; a connection gets its configuration and its certificate
      from the same reload, and the threads that read and replace them refine a
      machine that does each at once; the whole shutdown takes a bounded time.
    - The process: whatever signals arrive and whatever the file holds then, it
      serves the last configuration that loaded; [--check-config] refuses a file
      exactly as a start would, and after it a start fails only for the host or the
      certificate; the reporting flags only print, and the bundle holds no password.
    - The HTTP/3 connection: the languages of the control and QPACK streams, one
      violation reported per connection, the GOAWAY discipline.
    - Policy, authentication, gate: the address matchers equal a registry of
      prefixes, transition addresses are no way around it, a request passes exactly
      when it presents a configured pair, and a sealed Initial packet passes
      exactly when the name in it is listed.
    - Configuration: validation accepts exactly the well-formed configurations; one
      that also draws no warning is no open proxy; its transport parameters are in
      the ranges QUIC and the limits allow; the report of a parse failure always
      comes and depends on the position and on what is outside quotes alone, which
      hides every value spelled as Debug does, and one displayed between backticks
      exactly when it holds no backtick.
    - Congestion: the bandwidth estimate is a windowed maximum, the startup ends,
      and the wrapper only lowers quinn's window and not below its floor.
    - Refusals: they never fail, and only those about reaching a hop name it.

    ** What is not modelled

    lib.rs declares modules.  In main.rs, the reading of the arguments is clap's,
    and the installation of the tracing subscriber and of the signal handlers is
    only its outcome here.  The kernel's calls and the contents of /proc are
    interfaces or arguments; reading PEM and TOML is done by rustls and the toml
    crate.  The methods of the gate, of a request stream and of the congestion
    wrapper that only pass a call on to quinn, accessors, the DEBUG lines outside
    [Server::serve], and the constant time of the password comparison are outside
    the model, and so are the unit tests and the integration tests. *)

From Stdlib Require Export Sorting.Sorted.
From stdpp Require Export base list numbers strings pretty gmap fin_maps.

#[global] Open Scope Z_scope.

(** ** Machine integers

    An unsigned [w]-bit integer is a [Z] in [0, 2^w); every operation of the
    source that can leave the range is written with its wrap-around. *)

Definition wrap (w x : Z) : Z := x mod 2 ^ w.

Definition u64_max : Z := 2 ^ 64 - 1.

(** [is_uint w x]: [x] is a value of the unsigned [w]-bit type. *)
Definition is_uint (w x : Z) : Prop := 0 <= x < 2 ^ w.

(** A shift left of an unsigned [w]-bit integer: the high bits fall off. *)
Definition shl (w x n : Z) : Z := wrap w (Z.shiftl x n).

(** [saturating_add] and [saturating_sub] of an unsigned type of [w] bits. *)
Definition saturating_add (w x y : Z) : Z := Z.min (x + y) (2 ^ w - 1).
Definition saturating_sub (x y : Z) : Z := Z.max (x - y) 0.

(** ** Bytes

    A [u8] is a [Byte.byte]; a byte buffer ([Bytes], [BytesMut], [&[u8]],
    [Vec<u8>]) is a list of them.  [u8] is the number a byte stands for and
    [as_u8] the truncating cast [as u8]. *)

Abbreviation byte := Byte.byte (only parsing).
Abbreviation bytes := (list Byte.byte) (only parsing).

Definition u8 (x : byte) : Z := Z.of_N (Byte.to_N x).

Definition as_u8 (z : Z) : byte :=
  default Byte.x00 (Byte.of_N (Z.to_N (wrap 8 z))).

#[export] Instance byte_eq_dec : EqDecision byte := Byte.byte_eq_dec.

(** The length of a buffer as a [u64]/[usize] value. *)
Definition blen {A} (l : list A) : Z := Z.of_nat (length l).

(** The bytes of a byte-string literal of the source. *)
Definition lit (s : string) : bytes := String.list_byte_of_string s.

(** ** Results and panics

    Rust's [Result]; [option] is Rust's [Option], and where a definition
    documents it, [None] is a panic. *)

Inductive result (A E : Type) : Type :=
  | Ok (a : A)
  | Err (e : E).
Arguments Ok {A E} _.
Arguments Err {A E} _.

Definition result_bind {A B E} (r : result A E) (k : A → result B E) : result B E :=
  match r with
  | Ok a => k a
  | Err e => Err e
  end.

Definition result_map {A B E} (f : A → B) (r : result A E) : result B E :=
  match r with
  | Ok a => Ok (f a)
  | Err e => Err e
  end.

Definition ok_or {A E} (o : option A) (e : E) : result A E :=
  match o with
  | Some a => Ok a
  | None => Err e
  end.

Definition is_ok {A E} (r : result A E) : bool :=
  match r with Ok _ => true | Err _ => false end.

Declare Scope result_scope.
Delimit Scope result_scope with result.
Notation "'let?' x := r 'in' k" := (result_bind r (λ x, k))
  (at level 10, x pattern, r at level 100, k at level 200,
   format "'let?'  x  :=  r  'in' '//' k") : result_scope.
#[global] Open Scope result_scope.

#[export] Instance result_eq_dec `{EqDecision A, EqDecision E} : EqDecision (result A E).
Proof. solve_decision. Defined.

Lemma result_bind_ok {A B E} (r : result A E) (k : A → result B E) y :
  result_bind r k = Ok y ↔ ∃ x, r = Ok x ∧ k x = Ok y.
Proof. destruct r; simpl; naive_solver. Qed.

Lemma result_bind_err {A B E} (r : result A E) (k : A → result B E) e :
  result_bind r k = Err e ↔ r = Err e ∨ ∃ x, r = Ok x ∧ k x = Err e.
Proof. destruct r; simpl; naive_solver. Qed.

Lemma ok_or_ok {A E} (o : option A) (e : E) x : ok_or o e = Ok x ↔ o = Some x.
Proof. destruct o; naive_solver. Qed.

Lemma ok_or_err {A E} (o : option A) (e e' : E) : ok_or o e = Err e' ↔ o = None ∧ e = e'.
Proof. destruct o; naive_solver. Qed.

(** ** Loops

    A [loop] or [while] of the source is a step function to [inl] of the next
    state or [inr] of the value returned, and an instance of [Loop]: the measure
    that makes it terminate.  [run] is then the total, executable function the
    loop computes, with no fuel left in its type. *)

Section Loops.
Context {S R : Type}.
Implicit Types (step : S → S + R).

Fixpoint run_fuel step (fuel : nat) (s : S) : option R :=
  match fuel with
  | O => None
  | Datatypes.S fuel =>
      match step s with
      | inl s' => run_fuel step fuel s'
      | inr r => Some r
      end
  end.

Class Loop step := {
  loop_measure : S → nat;
  loop_decreases s s' : step s = inl s' → (loop_measure s' < loop_measure s)%nat;
}.

Lemma run_fuel_enough step `{!Loop step} fuel s :
  (loop_measure s < fuel)%nat → run_fuel step fuel s ≠ None.
Proof.
  revert s; induction fuel as [|fuel IH]; intros s Hlt; [lia|]; simpl.
  destruct (step s) as [s'|r] eqn:E; [|done].
  apply IH. pose proof (loop_decreases s s' E). lia.
Qed.

Lemma run_fuel_mono step fuel fuel' s r :
  (fuel ≤ fuel')%nat → run_fuel step fuel s = Some r → run_fuel step fuel' s = Some r.
Proof.
  revert fuel' s; induction fuel as [|fuel IH]; intros fuel' s Hle; [done|].
  destruct fuel' as [|fuel']; [lia|]; simpl.
  destruct (step s); [|done]. apply IH. lia.
Qed.

Definition run step `{!Loop step} (s : S) : R :=
  match run_fuel step (Datatypes.S (loop_measure s)) s as o
        return run_fuel step (Datatypes.S (loop_measure s)) s = o → R with
  | Some r => λ _, r
  | None => λ E, False_rect R (run_fuel_enough step _ s (Nat.lt_succ_diag_r _) E)
  end eq_refl.

Lemma run_fuel_run step `{!Loop step} s :
  run_fuel step (Datatypes.S (loop_measure s)) s = Some (run step s).
Proof.
  unfold run. generalize (run_fuel_enough step (Datatypes.S (loop_measure s)) s
    (Nat.lt_succ_diag_r _)).
  destruct (run_fuel step _ s); [done|]. intros n. by destruct (n eq_refl).
Qed.

(** The equation of the loop: one step, then the rest. *)
Lemma run_unfold step `{!Loop step} s :
  run step s = match step s with inl s' => run step s' | inr r => r end.
Proof.
  pose proof (run_fuel_run step s) as Hrun. simpl in Hrun.
  destruct (step s) as [s'|r] eqn:E; [|congruence].
  pose proof (run_fuel_run step s') as Hrun'.
  eapply run_fuel_mono in Hrun'; [rewrite Hrun in Hrun'; congruence|].
  pose proof (loop_decreases s s' E). lia.
Qed.

(** Rule of the loop: a relation between states and results that each step
    establishes, given it for the state the step goes to, holds of [run]. *)
Lemma run_ind step `{!Loop step} (P : S → R → Prop) :
  (∀ s r, step s = inr r → P s r) →
  (∀ s s', step s = inl s' → P s' (run step s') → P s (run step s')) →
  ∀ s, P s (run step s).
Proof.
  intros Hret Hcont s.
  induction s as [s IH] using (induction_ltof1 _ loop_measure).
  rewrite run_unfold. destruct (step s) as [s'|r] eqn:E; [|by apply Hret].
  apply Hcont; [done|]. apply IH, loop_decreases, E.
Qed.

(** An invariant of the states and what it makes of the result. *)
Lemma run_invariant step `{!Loop step} (I : S → Prop) (Q : R → Prop) :
  (∀ s, I s → match step s with inl s' => I s' | inr r => Q r end) →
  ∀ s, I s → Q (run step s).
Proof.
  intros Hstep. apply (run_ind step (λ s r, I s → Q r)).
  - intros s r E HI. specialize (Hstep s HI). by rewrite E in Hstep.
  - intros s s' E IH HI. specialize (Hstep s HI). rewrite E in Hstep. auto.
Qed.
End Loops.

(** [fold] with an early return: the source's [for] with [?] in its body. *)
Section Folds.
Context {A B E : Type} (f : B → A → result B E).

Fixpoint try_fold (l : list A) (acc : B) : result B E :=
  match l with
  | [] => Ok acc
  | x :: l' => let? acc' := f acc x in try_fold l' acc'
  end.

Lemma try_fold_app l1 l2 acc :
  try_fold (l1 ++ l2) acc = result_bind (try_fold l1 acc) (try_fold l2).
Proof.
  revert acc; induction l1 as [|x l1 IH]; intros acc; simpl; [done|].
  destruct (f acc x); simpl; auto.
Qed.

(** An invariant relating the consumed elements to the accumulator. *)
Lemma try_fold_inv (P : list A → B → Prop) l acc acc' :
  (∀ done x a a', P done a → f a x = Ok a' → P (done ++ [x]) a') →
  P [] acc → try_fold l acc = Ok acc' → P l acc'.
Proof.
  intros Hstep Hinit.
  assert (∀ pre, P pre acc → try_fold l acc = Ok acc' → P (pre ++ l) acc') as Hgen.
  { clear Hinit. revert acc; induction l as [|x l IH]; intros acc pre Hpre; simpl.
    - intros [= <-]. by rewrite app_nil_r.
    - destruct (f acc x) as [a|e] eqn:Ef; simpl; [|done]. intros Hrest.
      rewrite (cons_middle x pre l), app_assoc. eauto. }
  by apply (Hgen []).
Qed.
End Folds.

(** [slice.sort_by_key], which is stable. *)
Section SortByKey.
Context {A : Type} (key : A → Z).
Implicit Types l : list A.

Fixpoint insert_by_key (x : A) (l : list A) : list A :=
  match l with
  | [] => [x]
  | y :: l' => if key x <=? key y then x :: l else y :: insert_by_key x l'
  end.

Definition sort_by_key (l : list A) : list A := foldr insert_by_key [] l.
Abbreviation sorted := (StronglySorted (λ x y, key x ≤ key y)).

Lemma insert_by_key_perm x l : insert_by_key x l ≡ₚ x :: l.
Proof.
  induction l as [|y l IH]; simpl; [done|]. case_match; [done|].
  rewrite IH. apply Permutation_swap.
Qed.

Lemma sort_by_key_perm l : sort_by_key l ≡ₚ l.
Proof.
  unfold sort_by_key. induction l as [|x l IH]; simpl; [done|]. by rewrite insert_by_key_perm, IH.
Qed.

Lemma insert_by_key_sorted x l : sorted l → sorted (insert_by_key x l).
Proof.
  induction 1 as [|y l Hl IH Hy]; simpl; [by repeat constructor|].
  destruct (Z.leb_spec (key x) (key y)).
  - repeat constructor; [done..|]. eapply Forall_impl; [exact Hy|]. simpl. lia.
  - constructor; [done|]. rewrite insert_by_key_perm. constructor; [lia|done].
Qed.

Lemma sort_by_key_sorted l : sorted (sort_by_key l).
Proof. induction l; simpl; [constructor|]. by apply insert_by_key_sorted. Qed.

(** Stability: the elements of one key keep their order. *)
Lemma insert_by_key_filter k x l :
  List.filter (λ y, key y =? k) (insert_by_key x l) =
  List.filter (λ y, key y =? k) (x :: l).
Proof.
  induction l as [|y l IH]; cbn [insert_by_key]; [done|].
  destruct (Z.leb_spec (key x) (key y)); [done|]. cbn [List.filter] in *. rewrite IH.
  destruct (Z.eqb_spec (key x) k), (Z.eqb_spec (key y) k); [lia|done..].
Qed.

Lemma sort_by_key_stable k l :
  List.filter (λ y, key y =? k) (sort_by_key l) = List.filter (λ y, key y =? k) l.
Proof.
  unfold sort_by_key. induction l as [|x l IH]; cbn [foldr]; [done|].
  rewrite insert_by_key_filter. cbn [List.filter]. by rewrite IH.
Qed.
End SortByKey.

(** ** Generic lemmas on buffers *)

Create HintDb volto.
Create Rewrite HintDb volto.

Lemma wrap_id w x : is_uint w x → wrap w x = x.
Proof. intros. by apply Z.mod_small. Qed.

Lemma wrap_uint w x : 0 ≤ w → is_uint w (wrap w x).
Proof. intros. apply Z.mod_pos_bound. lia. Qed.

Lemma wrap_bit w x i : 0 ≤ w → 0 ≤ i →
  Z.testbit (wrap w x) i = (i <? w) && Z.testbit x i.
Proof.
  intros Hw Hi. unfold wrap. destruct (Z.ltb_spec i w); simpl.
  - by apply Z.mod_pow2_bits_low.
  - by apply Z.mod_pow2_bits_high.
Qed.

Lemma u8_range x : 0 ≤ u8 x < 256.
Proof. unfold u8. pose proof (Byte.to_N_bounded x). lia. Qed.

Lemma u8_as_u8 z : u8 (as_u8 z) = wrap 8 z.
Proof.
  unfold u8, as_u8. pose proof (wrap_uint 8 z ltac:(lia)) as Hz. unfold is_uint in Hz.
  destruct (Byte.of_N (Z.to_N (wrap 8 z))) as [x|] eqn:E; simpl.
  - apply Byte.to_of_N in E. rewrite E. lia.
  - apply Byte.of_N_None_iff in E. lia.
Qed.

Lemma u8_inj x y : u8 x = u8 y → x = y.
Proof.
  unfold u8. intros H. apply N2Z.inj in H.
  pose proof (Byte.of_to_N x) as E1. pose proof (Byte.of_to_N y) as E2.
  rewrite H in E1. congruence.
Qed.

Lemma as_u8_u8 x : as_u8 (u8 x) = x.
Proof. apply u8_inj. rewrite u8_as_u8. apply wrap_id, u8_range. Qed.

Lemma blen_app {A} (l1 l2 : list A) : blen (l1 ++ l2) = blen l1 + blen l2.
Proof. unfold blen. rewrite length_app. lia. Qed.

Lemma blen_nonneg {A} (l : list A) : 0 ≤ blen l.
Proof. unfold blen. lia. Qed.

#[export] Hint Resolve blen_nonneg u8_range : volto.
#[export] Hint Rewrite @blen_app u8_as_u8 as_u8_u8 : volto.

(** Linear arithmetic with quotients and remainders by constants. *)
Ltac div_lia := Z.to_euclidean_division_equations; lia.

(** A decidable fact about small integers, byte values among them, is checked by
    evaluation. *)
Lemma forall_below (n : nat) (P : Z → bool) :
  forallb (λ k, P (Z.of_nat k)) (seq 0 n) = true → ∀ x, 0 ≤ x < Z.of_nat n → P x = true.
Proof.
  rewrite forallb_forall. intros H x Hx. rewrite <- (Z2Nat.id x) by lia.
  apply H, in_seq. lia.
Qed.

(** A disjoint [lor] is an addition. *)
Lemma lor_add_low x y n : 0 ≤ n → 0 ≤ y < 2 ^ n → Z.lor (Z.shiftl x n) y = x * 2 ^ n + y.
Proof.
  intros Hn Hy. rewrite <- Z.shiftl_mul_pow2 by done.
  assert (Z.land (Z.shiftl x n) y = 0) as Hland.
  { apply Z.bits_inj'; intros i Hi. rewrite Z.land_spec, Z.bits_0, Z.shiftl_spec by done.
    destruct (Z.ltb_spec i n).
    - by rewrite Z.testbit_neg_r by lia.
    - destruct (decide (y = 0)) as [->|]; [by rewrite Z.bits_0, andb_false_r|].
      rewrite (Z.bits_above_log2 y i), andb_false_r; [done|lia|].
      apply Z.log2_lt_pow2; [lia|]. eapply Z.lt_le_trans; [apply Hy|].
      apply Z.pow_le_mono_r; lia. }
  rewrite Z.add_nocarry_lxor, Z.lxor_lor; done.
Qed.
