(* ===== verification/Incremental.v ===== *)
(** * Incremental decoders

    The contract both stream decoders of the server ([capsule::CapsuleDecoder]
    and [h3::frame::FrameDecoder]) make to the code that feeds them: bytes are
    pushed in the chunks the QUIC layer delivers them in, the decoder is drained
    after each, and where the chunk boundaries fall does not change what comes
    out.  A decoder is an instance of [IncrementalDecoder]; the theorem about
    arbitrary chunkings is proved here once, from the two-chunk law alone. *)

From S2P Require Import Prelude.

(** What draining yields: the items, and the decoder waiting for more bytes or
    the error that ended the stream. *)
Definition drained (D I E : Type) : Type := list I * result D E.

(** Sequencing of two drains. *)
Definition then_drain {D I E} (x : drained D I E) (k : D → drained D I E) : drained D I E :=
  match x with
  | (items, Ok d) => let '(items', r) := k d in (items ++ items', r)
  | (items, Err e) => (items, Err e)
  end.

(** ** Draining

    [next] yields an item, asks for more bytes or fails; the reading loops of the
    server call it until it no longer yields. *)
Section Draining.
Context {D I E : Type} (next : D → D * result (option I) E).

Class Shrinks := {
  size_of : D → nat;
  next_shrinks d d' i : next d = (d', Ok (Some i)) → (size_of d' < size_of d)%nat;
}.

Definition drain_step (x : list I * D) : (list I * D) + drained D I E :=
  match next x.2 with
  | (d', Ok (Some i)) => inl (x.1 ++ [i], d')
  | (d', Ok None) => inr (x.1, Ok d')
  | (_, Err e) => inr (x.1, Err e)
  end.

Lemma drain_step_next items d d' r :
  next d = (d', r) →
  drain_step (items, d) =
  match r with
  | Ok (Some i) => inl (items ++ [i], d')
  | Ok None => inr (items, Ok d')
  | Err e => inr (items, Err e)
  end.
Proof. unfold drain_step; simpl. intros ->. by destruct r as [[i|]|e]. Qed.

Context `{!Shrinks}.

#[export] Program Instance drain_loop : Loop drain_step :=
  {| loop_measure x := size_of x.2 |}.
Next Obligation.
  intros [items d] s'. unfold drain_step; simpl.
  destruct (next d) as [d' [[i|]|e]] eqn:E1; try done.
  intros [= <-]; simpl. by eapply next_shrinks.
Qed.

Definition drain_all (d : D) : drained D I E := run drain_step ([], d).

Lemma drain_step_acc items d :
  run drain_step (items, d) = (items ++ (drain_all d).1, (drain_all d).2).
Proof.
  unfold drain_all. revert items.
  induction d as [d IH] using (induction_ltof1 _ size_of). intros items.
  rewrite (run_unfold _ (items, d)), (run_unfold _ ([], d)).
  destruct (next d) as [d' r] eqn:E1. rewrite !(drain_step_next _ _ _ _ E1).
  destruct r as [[i|]|e]; simpl; rewrite ?app_nil_r; try done.
  pose proof (next_shrinks _ _ _ E1) as Hlt.
  rewrite (IH _ Hlt (items ++ [i])), (IH _ Hlt [i]). simpl. by rewrite <- app_assoc.
Qed.

Lemma drain_all_unfold d :
  drain_all d =
  match next d with
  | (d', Ok (Some i)) => (i :: (drain_all d').1, (drain_all d').2)
  | (d', Ok None) => ([], Ok d')
  | (_, Err e) => ([], Err e)
  end.
Proof.
  unfold drain_all at 1. rewrite run_unfold.
  destruct (next d) as [d' r] eqn:E1. rewrite (drain_step_next _ _ _ _ E1).
  destruct r as [[i|]|e]; try done. by rewrite drain_step_acc.
Qed.
End Draining.
Arguments Shrinks {D I E} next.

(** ** The contract *)

(** Items are compared up to an equivalence, since a decoder may be free to cut
    one unit of output at the boundaries of its chunks. *)
Class IncrementalDecoder (D I E : Type) := {
  push : D → bytes → D;
  drain : D → drained D I E;
  ready : D → Prop;
  items_equiv : relation (list I);
  items_equivalence :: Equivalence items_equiv;
  items_equiv_app :: Proper (items_equiv ==> items_equiv ==> items_equiv) app;
  ready_push_nil d : ready d → items_equiv (drain (push d [])).1 [] ∧ (drain (push d [])).2 = Ok d;
  drain_ready d x d' : ready d → (drain (push d x)).2 = Ok d' → ready d';
  drain_app d x y : ready d →
    let whole := drain (push d (x ++ y)) in
    let split := then_drain (drain (push d x)) (λ d', drain (push d' y)) in
    items_equiv whole.1 split.1 ∧ whole.2 = split.2;
}.

Section Feeding.
Context {D I E : Type} `{!IncrementalDecoder D I E}.

(** The reading loop of the server: push a chunk, drain, until the stream ends or
    an error does. *)
Fixpoint feed (d : D) (chunks : list bytes) : drained D I E :=
  match chunks with
  | [] => ([], Ok d)
  | c :: chunks => then_drain (drain (push d c)) (λ d', feed d' chunks)
  end.

Definition same_output (x y : drained D I E) : Prop :=
  items_equiv x.1 y.1 ∧ x.2 = y.2.

#[export] Instance same_output_equivalence : Equivalence same_output.
Proof.
  split.
  - intros x. split; reflexivity.
  - intros x y [H1 H2]. split; by symmetry.
  - intros x y z [H1 H2] [H3 H4]. split; etrans; eauto.
Qed.

Lemma then_drain_same x k k' :
  (∀ d, x.2 = Ok d → same_output (k d) (k' d)) →
  same_output (then_drain x k) (then_drain x k').
Proof.
  destruct x as [items [d|e]]; simpl; intros Hk; [|reflexivity].
  destruct (Hk d eq_refl) as [H1 H2]. destruct (k d), (k' d). simpl in *.
  split; simpl; [by rewrite H1|done].
Qed.

(** However the bytes are cut into chunks, the output is that of one chunk. *)
Lemma feed_concat d chunks :
  ready d → same_output (feed d chunks) (drain (push d (concat chunks))).
Proof.
  revert d. induction chunks as [|c chunks IH]; intros d Hd; simpl.
  { destruct (ready_push_nil d Hd) as [H1 H2]. split; simpl; by symmetry. }
  pose proof (drain_app d c (concat chunks) Hd) as Hsplit. simpl in Hsplit.
  assert (same_output (drain (push d (c ++ concat chunks)))
    (then_drain (drain (push d c)) (λ d', drain (push d' (concat chunks))))) as Hs by done.
  rewrite Hs. apply then_drain_same. intros d' Hd'. apply IH.
  by eapply drain_ready.
Qed.

Lemma feed_chunking d chunks1 chunks2 :
  ready d → concat chunks1 = concat chunks2 →
  same_output (feed d chunks1) (feed d chunks2).
Proof. intros Hd Heq. by rewrite !feed_concat, Heq. Qed.
End Feeding.
