(* ===== verification/Datagram.v ===== *)
(** * HTTP Datagram payloads and QUIC varints (src/src/datagram.rs)

    The varint codec every wire format of the server is built on
    ([varint_len], [put_varint], [peek_varint], [take_varint]) and the HTTP/3
    datagram codec ([encode], [decode]).  [None] of [put_varint] and [encode] is
    the panic of the source's [assert!]; [None] of [peek_varint] is "need more
    bytes". *)

From S2P Require Import Prelude.

(** ** Constants *)

Definition CONTEXT_ID_UDP_PAYLOAD : Z := 0.
Definition MAX_UDP_PAYLOAD : Z := 65527.
Definition VARINT_MAX : Z := Z.shiftl 1 62 - 1.
Definition MAX_QUARTER_STREAM_ID : Z := Z.shiftl 1 60 - 1.

(** ** Varints *)

Definition varint_len (value : Z) : nat :=
  if value <=? 0x3f then 1
  else if value <=? 0x3fff then 2
  else if value <=? 0x3fffffff then 4
  else 8.

(** [BufMut::put_u8], [put_u16], [put_u32] and [put_u64]: [n] bytes, big end first. *)
Fixpoint be_bytes (n : nat) (v : Z) : bytes :=
  match n with
  | O => []
  | S n => as_u8 (Z.shiftr v (8 * Z.of_nat n)) :: be_bytes n v
  end.

Definition put_varint (buf : bytes) (value : Z) : option bytes :=
  if value <=? VARINT_MAX then
    Some (buf ++
      match varint_len value with
      | 1%nat => be_bytes 1 (wrap 8 value)
      | 2%nat => be_bytes 2 (Z.lor 0x4000 (wrap 16 value))
      | 4%nat => be_bytes 4 (Z.lor 0x80000000 (wrap 32 value))
      | _ => be_bytes 8 (Z.lor 0xc000000000000000 value)
      end)
  else None.

(** The loop of [peek_varint] over the bytes after the first. *)
Definition be_fold (value : Z) (l : bytes) : Z :=
  foldl (λ value byte, Z.lor (shl 64 value 8) (u8 byte)) value l.

Definition peek_varint (buf : bytes) : option (Z * nat) :=
  match buf with
  | [] => None
  | first :: rest =>
      let length_ := Z.to_nat (Z.shiftl 1 (Z.shiftr (u8 first) 6)) in
      if decide (length buf < length_)%nat then None
      else Some (be_fold (Z.land (u8 first) 0x3f) (take (length_ - 1) rest), length_)
  end.

Definition take_varint (buf : bytes) : option (Z * bytes) :=
  match peek_varint buf with
  | Some (value, length_) => Some (value, drop length_ buf)
  | None => None
  end.

(** ** Datagrams *)

Inductive DecodeError :=
  | MissingQuarterStreamId
  | QuarterStreamIdTooLarge (value : Z)
  | MissingContextId.

#[export] Instance DecodeError_eq_dec : EqDecision DecodeError.
Proof. solve_decision. Defined.

Definition is_connection_error (e : DecodeError) : bool :=
  match e with
  | MissingQuarterStreamId | QuarterStreamIdTooLarge _ => true
  | MissingContextId => false
  end.

Record Datagram := {
  quarter_stream_id_of : Z;
  context_id : Z;
  payload : bytes;
}.

Definition quarter_stream_id (stream_id : Z) : Z := Z.shiftr stream_id 2.

Definition encode (quarter_stream_id context_id : Z) (payload : bytes) : option bytes :=
  buf ← put_varint [] quarter_stream_id;
  buf ← put_varint buf context_id;
  Some (buf ++ payload).

Definition encode_udp_payload (quarter_stream_id : Z) (payload : bytes) : option bytes :=
  encode quarter_stream_id CONTEXT_ID_UDP_PAYLOAD payload.

Definition encoded_len (quarter_stream_id context_id : Z) (payload_len : nat) : nat :=
  varint_len quarter_stream_id + varint_len context_id + payload_len.

Definition decode (datagram : bytes) : result Datagram DecodeError :=
  let? (quarter_stream_id, datagram) := ok_or (take_varint datagram) MissingQuarterStreamId in
  if MAX_QUARTER_STREAM_ID <? quarter_stream_id then
    Err (QuarterStreamIdTooLarge quarter_stream_id)
  else
    let? (context_id, datagram) := ok_or (take_varint datagram) MissingContextId in
    Ok {| quarter_stream_id_of := quarter_stream_id; context_id := context_id;
          payload := datagram |}.

(** ** Lemmas on the big-endian writer and reader *)

Lemma length_be_bytes n v : length (be_bytes n v) = n.
Proof. induction n; simpl; auto. Qed.

Lemma be_fold_cons acc x l :
  be_fold acc (x :: l) = be_fold (Z.lor (shl 64 acc 8) (u8 x)) l.
Proof. done. Qed.

Lemma be_fold_step acc x :
  0 ≤ acc < 2 ^ 56 → Z.lor (shl 64 acc 8) (u8 x) = acc * 256 + u8 x.
Proof.
  intros Hacc. unfold shl. rewrite wrap_id.
  - rewrite lor_add_low by (pose proof (u8_range x); lia). done.
  - unfold is_uint. rewrite Z.shiftl_mul_pow2 by lia. lia.
Qed.

Lemma be_fold_be_bytes n v acc :
  0 ≤ acc → acc * 2 ^ (8 * Z.of_nat n) + 2 ^ (8 * Z.of_nat n) ≤ 2 ^ 64 →
  be_fold acc (be_bytes n v) = acc * 2 ^ (8 * Z.of_nat n) + v mod 2 ^ (8 * Z.of_nat n).
Proof.
  revert acc. induction n as [|n IH]; intros acc Hacc Hle; simpl be_bytes.
  { unfold be_fold; simpl. rewrite Z.mod_1_r. lia. }
  assert (2 ^ (8 * Z.of_nat (S n)) = 256 * 2 ^ (8 * Z.of_nat n)) as Hpow.
  { rewrite <- (Z.pow_add_r 2 8) by lia. f_equal. lia. }
  set (p := 2 ^ (8 * Z.of_nat n)) in *.
  assert (0 < p) by (apply Z.pow_pos_nonneg; lia).
  rewrite Hpow in *. rewrite be_fold_cons, be_fold_step, u8_as_u8 by nia.
  pose proof (wrap_uint 8 (Z.shiftr v (8 * Z.of_nat n)) ltac:(lia)) as Hb.
  unfold is_uint in Hb.
  rewrite IH by nia. unfold wrap in *. rewrite Z.shiftr_div_pow2 in * by lia.
  fold p in Hb |- *. change (2 ^ 8) with 256 in *.
  rewrite (Z.mul_comm 256 p), (Z.rem_mul_r v p 256) by lia. lia.
Qed.

Lemma be_fold_bound l acc k :
  0 ≤ acc < 2 ^ k → 0 ≤ k → k + 8 * blen l ≤ 64 →
  0 ≤ be_fold acc l < 2 ^ (k + 8 * blen l).
Proof.
  unfold blen. revert acc k. induction l as [|x l IH]; intros acc k Hacc Hk Hle.
  { simpl. by replace (k + 8 * Z.of_nat 0) with k by lia. }
  rewrite be_fold_cons. simpl length in *. pose proof (u8_range x).
  rewrite be_fold_step; [|split; [lia|]].
  - replace (k + 8 * Z.of_nat (S (length l))) with (k + 8 + 8 * Z.of_nat (length l)) by lia.
    apply IH; [|lia|lia]. rewrite Z.pow_add_r by lia. lia.
  - eapply Z.lt_le_trans; [apply Hacc|]. apply Z.pow_le_mono_r; lia.
Qed.

(** The bytes [put_varint] appends. *)
Definition varint_bytes (v : Z) : bytes := default [] (put_varint [] v).

Lemma peek_varint_length buf v n :
  peek_varint buf = Some (v, n) → (1 ≤ n ≤ length buf)%nat.
Proof.
  destruct buf as [|x l]; [done|]. cbn [peek_varint].
  case_decide; [done|]. intros [= _ <-]. split; [|lia].
  rewrite Z.shiftl_1_l. pose proof (u8_range x).
  assert (0 ≤ Z.shiftr (u8 x) 6) by (apply Z.shiftr_nonneg; lia).
  pose proof (Z.pow_pos_nonneg 2 (Z.shiftr (u8 x) 6)). lia.
Qed.

(** A varint once whole is not changed by the bytes that follow it. *)
Lemma peek_varint_app buf more v n :
  peek_varint buf = Some (v, n) → peek_varint (buf ++ more) = Some (v, n).
Proof.
  destruct buf as [|x l]; [done|]. cbn [peek_varint app].
  set (n' := Z.to_nat _). simpl length. rewrite length_app.
  case_decide; [done|]. intros [= <- <-]. rewrite decide_False by lia.
  by rewrite take_app_le by lia.
Qed.

Lemma peek_varint_take buf v n :
  peek_varint buf = Some (v, n) → peek_varint (take n buf) = Some (v, n).
Proof.
  intros H. pose proof (peek_varint_length _ _ _ H) as Hn.
  destruct buf as [|x l]; [done|]. destruct n as [|n]; [lia|].
  revert H. cbn [take peek_varint length]. set (n' := Z.to_nat _).
  case_decide as H1; [done|]. intros [= Hv Hn'].
  rewrite length_take. cbn [length] in *. rewrite decide_False by lia.
  rewrite <- Hv, Hn'. f_equal. f_equal. f_equal. rewrite take_take. f_equal. lia.
Qed.

Lemma peek_tagged (k m : nat) v rest :
  (k ≤ 3)%nat → S m = Nat.pow 2 k → 0 ≤ v < 2 ^ (8 * Z.of_nat m + 6) →
  peek_varint (be_bytes (S m) (Z.of_nat k * 2 ^ (8 * Z.of_nat m + 6) + v) ++ rest)
  = Some (v, S m).
Proof.
  intros Hk Hm Hv. set (w := Z.of_nat k * 2 ^ (8 * Z.of_nat m + 6) + v).
  set (p := 2 ^ (8 * Z.of_nat m)). assert (0 < p) by (apply Z.pow_pos_nonneg; lia).
  assert (2 ^ (8 * Z.of_nat m + 6) = p * 64) as Hp6 by (unfold p; by rewrite Z.pow_add_r by lia).
  assert (u8 (as_u8 (Z.shiftr w (8 * Z.of_nat m))) = Z.of_nat k * 64 + v / p) as Hfirst.
  { rewrite u8_as_u8. unfold wrap. rewrite Z.shiftr_div_pow2 by lia. fold p. unfold w.
    rewrite Hp6.
    replace (Z.of_nat k * (p * 64) + v) with (v + (Z.of_nat k * 64) * p) by lia.
    rewrite Z.div_add by lia. rewrite Z.mod_small; [lia|].
    assert (v / p < 64) by (apply Z.div_lt_upper_bound; lia).
    assert (0 ≤ v / p) by (apply Z.div_pos; lia). lia. }
  cbn [be_bytes app peek_varint]. rewrite Hfirst.
  assert (0 ≤ v / p < 64) as Hhi.
  { split; [apply Z.div_pos; lia|apply Z.div_lt_upper_bound; lia]. }
  assert (Z.shiftr (Z.of_nat k * 64 + v / p) 6 = Z.of_nat k) as ->.
  { rewrite Z.shiftr_div_pow2 by lia. change (2 ^ 6) with 64.
    rewrite Z.add_comm, Z.div_add, Z.div_small by lia. lia. }
  assert (Z.to_nat (Z.shiftl 1 (Z.of_nat k)) = S m) as ->.
  { rewrite Z.shiftl_1_l, Hm. rewrite <- (Nat2Z.id (2 ^ k)). f_equal.
    by rewrite Nat2Z.inj_pow. }
  rewrite decide_False by (simpl; rewrite length_app, length_be_bytes; lia).
  replace (S m - 1)%nat with m by lia.
  rewrite take_app_le, take_ge by (rewrite length_be_bytes; lia).
  assert (Z.land (Z.of_nat k * 64 + v / p) 0x3f = v / p) as ->.
  { change 0x3f with (Z.ones 6). rewrite Z.land_ones by lia. change (2 ^ 6) with 64.
    rewrite Z.add_comm, Z.mod_add, Z.mod_small by lia. done. }
  assert (p * 64 ≤ 2 ^ 64).
  { rewrite <- Hp6. apply Z.pow_le_mono_r; [lia|].
    assert (2 ^ k ≤ 2 ^ 3)%nat by (apply Nat.pow_le_mono_r; lia). simpl in *. lia. }
  rewrite be_fold_be_bytes by (fold p; nia). fold p. do 2 f_equal.
  assert (w mod p = v mod p) as ->.
  { unfold w. rewrite Hp6. replace (_ + v) with (v + (Z.of_nat k * 64) * p) by lia.
    by apply Z.mod_add; lia. }
  pose proof (Z.div_mod v p). lia.
Qed.

(** The four widths of [put_varint] in one form: a two-bit tag above the value. *)
Lemma varint_bytes_tagged v :
  0 ≤ v ≤ VARINT_MAX →
  ∃ k m : nat, (k ≤ 3)%nat ∧ S m = Nat.pow 2 k ∧ varint_len v = S m ∧
    0 ≤ v < 2 ^ (8 * Z.of_nat m + 6) ∧
    varint_bytes v = be_bytes (S m) (Z.of_nat k * 2 ^ (8 * Z.of_nat m + 6) + v).
Proof.
  intros Hv. change VARINT_MAX with 4611686018427387903 in Hv.
  unfold varint_bytes, put_varint. change VARINT_MAX with 4611686018427387903.
  rewrite (proj2 (Z.leb_le v _)) by lia. cbn [default id app]. unfold varint_len.
  destruct (Z.leb_spec v 0x3f); [|destruct (Z.leb_spec v 0x3fff);
    [|destruct (Z.leb_spec v 0x3fffffff)]].
  - exists 0%nat, 0%nat. cbn [Z.of_nat Z.mul]. rewrite wrap_id by (unfold is_uint; lia).
    repeat split; try lia; done.
  - exists 1%nat, 1%nat. rewrite wrap_id by (unfold is_uint; lia).
    change 0x4000 with (Z.shiftl 1 14). rewrite lor_add_low by lia.
    repeat split; try lia; done.
  - exists 2%nat, 3%nat. rewrite wrap_id by (unfold is_uint; lia).
    change 0x80000000 with (Z.shiftl 2 30). rewrite lor_add_low by lia.
    repeat split; try lia; done.
  - exists 3%nat, 7%nat. change 0xc000000000000000 with (Z.shiftl 3 62).
    rewrite lor_add_low by lia. repeat split; try lia; done.
Qed.

Lemma put_varint_eq buf v :
  v ≤ VARINT_MAX → put_varint buf v = Some (buf ++ varint_bytes v).
Proof.
  intros Hv. unfold varint_bytes, put_varint.
  by rewrite (proj2 (Z.leb_le v VARINT_MAX)) by done.
Qed.

Lemma put_varint_panic buf v : put_varint buf v = None ↔ VARINT_MAX < v.
Proof. unfold put_varint. destruct (Z.leb_spec v VARINT_MAX); split; [done|lia|lia|done]. Qed.

Lemma length_varint_bytes v :
  0 ≤ v ≤ VARINT_MAX → length (varint_bytes v) = varint_len v.
Proof.
  intros (k & m & _ & _ & -> & _ & ->)%varint_bytes_tagged. apply length_be_bytes.
Qed.

Lemma peek_varint_bytes v rest :
  0 ≤ v ≤ VARINT_MAX → peek_varint (varint_bytes v ++ rest) = Some (v, varint_len v).
Proof.
  intros (k & m & Hk & Hm & -> & Hv & ->)%varint_bytes_tagged. by apply peek_tagged.
Qed.

Lemma take_varint_bytes v rest :
  0 ≤ v ≤ VARINT_MAX → take_varint (varint_bytes v ++ rest) = Some (v, rest).
Proof.
  intros Hv. unfold take_varint. rewrite peek_varint_bytes by done.
  rewrite <- length_varint_bytes by done. by rewrite drop_app_length.
Qed.

Lemma peek_varint_prefix_none v p :
  0 ≤ v ≤ VARINT_MAX → p `prefix_of` varint_bytes v → p ≠ varint_bytes v →
  peek_varint p = None.
Proof.
  intros Hv [q Hq] Hne. destruct (peek_varint p) as [[v' n]|] eqn:E; [|done].
  pose proof (peek_varint_length _ _ _ E) as Hlen.
  apply (peek_varint_app _ q) in E. rewrite <- Hq in E.
  pose proof (peek_varint_bytes v [] Hv) as E'. rewrite app_nil_r, E in E'.
  injection E' as -> ->. rewrite <- length_varint_bytes, Hq, length_app in Hlen by done.
  destruct q; [|simpl in Hlen; lia]. rewrite app_nil_r in Hq. by rewrite Hq in Hne.
Qed.

Lemma peek_varint_bound buf v n :
  peek_varint buf = Some (v, n) → 0 ≤ v ≤ VARINT_MAX ∧ n ∈ [1; 2; 4; 8]%nat.
Proof.
  destruct buf as [|x l]; [done|]. cbn [peek_varint]. case_decide as Hlen; [done|].
  intros [= <- <-]. pose proof (u8_range x).
  assert (Z.shiftr (u8 x) 6 = 0 ∨ Z.shiftr (u8 x) 6 = 1 ∨
          Z.shiftr (u8 x) 6 = 2 ∨ Z.shiftr (u8 x) 6 = 3) as Htag.
  { rewrite Z.shiftr_div_pow2 by lia. change (2 ^ 6) with 64.
    assert (u8 x / 64 < 4) by (apply Z.div_lt_upper_bound; lia).
    assert (0 ≤ u8 x / 64) by (apply Z.div_pos; lia). lia. }
  assert (0 ≤ Z.land (u8 x) 0x3f < 2 ^ 6) as Hlow.
  { change 0x3f with (Z.ones 6). rewrite Z.land_ones by lia. apply Z.mod_pos_bound. lia. }
  set (len := Z.to_nat _) in *.
  assert (len ∈ [1; 2; 4; 8]%nat ∧ (len ≤ 8)%nat) as [Hin Hle].
  { unfold len. destruct Htag as [->|[->|[->| ->]]]; split; vm_compute; set_solver || lia. }
  split; [|done]. change VARINT_MAX with (2 ^ 62 - 1).
  pose proof (be_fold_bound (take (len - 1) l) _ 6 Hlow ltac:(lia)) as Hb.
  assert (blen (take (len - 1) l) ≤ 7) by (unfold blen; rewrite length_take; lia).
  assert (2 ^ (6 + 8 * blen (take (len - 1) l)) ≤ 2 ^ 62) by (apply Z.pow_le_mono_r; lia).
  lia.
Qed.

Lemma peek_varint_le8 buf v n : peek_varint buf = Some (v, n) → (n ≤ 8)%nat.
Proof.
  intros [_ Hin]%peek_varint_bound. rewrite !elem_of_cons, elem_of_nil in Hin.
  naive_solver lia.
Qed.

(** A buffer with no whole varint in it is shorter than the longest one. *)
Lemma peek_varint_none_short buf : peek_varint buf = None → (length buf < 8)%nat.
Proof.
  destruct buf as [|x l]; simpl; [lia|]. case_decide as Hd; [|done]. intros _.
  eapply Nat.lt_le_trans; [exact Hd|].
  pose proof (u8_range x). rewrite Z.shiftl_1_l, Z.shiftr_div_pow2 by lia.
  assert (2 ^ (u8 x / 2 ^ 6) ≤ 2 ^ 3); [|lia].
  apply Z.pow_le_mono_r; [lia|]. enough (u8 x / 2 ^ 6 < 4) by lia.
  apply Z.div_lt_upper_bound; lia.
Qed.

Lemma take_varint_some buf v rest :
  take_varint buf = Some (v, rest) →
  0 ≤ v ≤ VARINT_MAX ∧ ∃ n, (1 ≤ n ≤ length buf)%nat ∧ peek_varint buf = Some (v, n) ∧
    rest = drop n buf.
Proof.
  unfold take_varint. destruct (peek_varint buf) as [[v' n]|] eqn:E; [|done].
  intros [= -> <-]. split; [by eapply peek_varint_bound|].
  eauto using peek_varint_length.
Qed.

(** [is_varint w v]: [w] is an encoding of [v], the shortest or not. *)
Definition is_varint (w : bytes) (v : Z) : Prop := peek_varint w = Some (v, length w).

Lemma is_varint_peek w v rest :
  is_varint w v → peek_varint (w ++ rest) = Some (v, length w).
Proof. apply peek_varint_app. Qed.

Lemma is_varint_take l v n :
  peek_varint l = Some (v, n) → is_varint (take n l) v.
Proof.
  intros H. pose proof (peek_varint_length _ _ _ H) as [_ Hn].
  unfold is_varint. rewrite length_take_le by done.
  by apply peek_varint_take.
Qed.

Lemma is_varint_cons w v : is_varint w v → ∃ x w', w = x :: w'.
Proof. destruct w; [discriminate|eauto]. Qed.

Lemma is_varint_bytes v : 0 ≤ v ≤ VARINT_MAX → is_varint (varint_bytes v) v.
Proof.
  intros Hv. unfold is_varint. pose proof (peek_varint_bytes v [] Hv) as H.
  rewrite app_nil_r in H. by rewrite H, length_varint_bytes.
Qed.

(** A datagram of a legal Quarter Stream ID: what [encode] writes, [decode] reads. *)
Lemma encode_decode q ctx payload :
  0 ≤ q ≤ MAX_QUARTER_STREAM_ID → 0 ≤ ctx ≤ VARINT_MAX →
  ∃ wire, encode q ctx payload = Some wire ∧
    length wire = encoded_len q ctx (length payload) ∧
    decode wire = Ok {| quarter_stream_id_of := q; context_id := ctx; payload := payload |}.
Proof.
  intros Hq Hctx. assert (q ≤ VARINT_MAX).
  { change VARINT_MAX with (2 ^ 62 - 1). change MAX_QUARTER_STREAM_ID with (2 ^ 60 - 1) in Hq. lia. }
  exists (varint_bytes q ++ varint_bytes ctx ++ payload).
  unfold encode. rewrite put_varint_eq by done. cbn [app mbind option_bind].
  rewrite put_varint_eq by lia. cbn [mbind option_bind]. rewrite <- app_assoc.
  split; [done|]. split.
  - unfold encoded_len. rewrite !length_app, !length_varint_bytes by lia. lia.
  - unfold decode. rewrite take_varint_bytes by lia. cbn [ok_or result_bind].
    destruct (Z.ltb_spec MAX_QUARTER_STREAM_ID q); [lia|].
    by rewrite take_varint_bytes by lia.
Qed.

(** ** Properties *)

(** The varint codec.  Every value up to [VARINT_MAX] is written by
    [put_varint] as [varint_len] bytes after what the buffer held, [peek_varint]
    reads it back whatever follows, and no strict prefix of it reads as a
    varint, so an incremental reader waits exactly until it is whole; every
    larger value panics. *)
Theorem varint_roundtrip buf v rest :
  0 ≤ v →
  (put_varint buf v = None ∧ VARINT_MAX < v) ∨
  ∃ e, put_varint buf v = Some (buf ++ e) ∧ length e = varint_len v ∧
    peek_varint (e ++ rest) = Some (v, varint_len v) ∧
    take_varint (e ++ rest) = Some (v, rest) ∧
    ∀ p, p `prefix_of` e → p ≠ e → peek_varint p = None.
Proof.
  intros Hpos. destruct (Z.leb_spec v VARINT_MAX) as [Hle|Hlt].
  - right. exists (varint_bytes v).
    split_and!; [by apply put_varint_eq|by apply length_varint_bytes|
      by apply peek_varint_bytes|by apply take_varint_bytes|].
    intros p. by apply peek_varint_prefix_none.
  - left. by rewrite put_varint_panic.
Qed.

Lemma varint_roundtrip_witness :
  put_varint [] 494878333 = Some (lit "" ++ map as_u8 [0x9d; 0x7f; 0x3e; 0x7d]) ∧
  peek_varint (map as_u8 [0x9d; 0x7f; 0x3e; 0x7d; 0xff]) = Some (494878333, 4%nat).
Proof.
  destruct (varint_roundtrip [] 494878333 [as_u8 0xff] ltac:(lia))
    as [[H _]|(e & He & _ & Hpeek & _)]; [discriminate|].
  vm_compute in He. injection He as <-. split; [reflexivity|exact Hpeek].
Defined.

(** What [peek_varint] reports is always usable: a value of the varint
    range, a length of one, two, four or eight bytes that the buffer holds, and
    the same answer whatever bytes arrive later. *)
Theorem peek_varint_sound buf more v n :
  peek_varint buf = Some (v, n) →
  0 ≤ v ≤ VARINT_MAX ∧ n ∈ [1; 2; 4; 8]%nat ∧ (n ≤ length buf)%nat ∧
  peek_varint (buf ++ more) = Some (v, n).
Proof.
  intros H. pose proof (peek_varint_length _ _ _ H). pose proof (peek_varint_bound _ _ _ H).
  destruct_and!. eauto using peek_varint_app with lia.
Qed.

Lemma peek_varint_sound_witness :
  peek_varint (map as_u8 [0x40; 0x25] ++ [as_u8 7]) = Some (37, 2%nat).
Proof. by apply (peek_varint_sound (map as_u8 [0x40; 0x25]) [as_u8 7] 37 2). Defined.

(** The datagram codec.  A datagram encoded for a request stream decodes to
    the same Quarter Stream ID, Context ID and payload; its length is the one
    [encoded_len] predicts; and the Quarter Stream ID determines the request
    stream (a client-initiated bidirectional stream, whose id is a multiple of
    four). *)
Theorem datagram_roundtrip stream_id ctx payload :
  0 ≤ stream_id < 2 ^ 62 → stream_id mod 4 = 0 → 0 ≤ ctx ≤ VARINT_MAX →
  ∃ wire, encode (quarter_stream_id stream_id) ctx payload = Some wire ∧
    length wire = encoded_len (quarter_stream_id stream_id) ctx (length payload) ∧
    decode wire = Ok {| quarter_stream_id_of := quarter_stream_id stream_id;
                        context_id := ctx; payload := payload |} ∧
    4 * quarter_stream_id stream_id = stream_id.
Proof.
  intros Hid Hmod Hctx.
  assert (quarter_stream_id stream_id = stream_id / 4) as Hq.
  { unfold quarter_stream_id. by rewrite Z.shiftr_div_pow2 by lia. }
  pose proof (Z.div_mod stream_id 4 ltac:(lia)) as Hdm.
  destruct (encode_decode (stream_id / 4) ctx payload) as (wire & He & Hl & Hd); [|done|].
  { change MAX_QUARTER_STREAM_ID with (2 ^ 60 - 1). lia. }
  rewrite Hq. exists wire. split_and!; [done..|lia].
Qed.

Lemma datagram_roundtrip_witness :
  ∃ wire, encode (quarter_stream_id 44) 0 (lit "hi") = Some wire ∧
    decode wire = Ok {| quarter_stream_id_of := 11; context_id := 0; payload := lit "hi" |}.
Proof.
  destruct (datagram_roundtrip 44 0 (lit "hi")) as (w & Hw & _ & Hd & _);
    [lia|reflexivity|vm_compute; split; discriminate|].
  exists w. split; [exact Hw|exact Hd].
Defined.

(** Why a datagram fails to decode.  The two failures RFC 9297 makes a
    connection error are exactly a Quarter Stream ID that is not all there or
    above 2^60-1; a Context ID that is cut short, after a legal Quarter Stream
    ID, is the only other failure and never closes the connection. *)
Theorem datagram_decode_errors wire e :
  decode wire = Err e →
  (is_connection_error e = true ∧
     (take_varint wire = None ∧ e = MissingQuarterStreamId ∨
      ∃ q rest, take_varint wire = Some (q, rest) ∧ MAX_QUARTER_STREAM_ID < q ∧
        e = QuarterStreamIdTooLarge q)) ∨
  (is_connection_error e = false ∧ e = MissingContextId ∧
     ∃ q rest, take_varint wire = Some (q, rest) ∧ 0 ≤ q ≤ MAX_QUARTER_STREAM_ID ∧
       take_varint rest = None).
Proof.
  unfold decode. destruct (take_varint wire) as [[q rest]|] eqn:Eq; simpl; [|naive_solver].
  apply take_varint_some in Eq as Hq.
  destruct (Z.ltb_spec MAX_QUARTER_STREAM_ID q); [naive_solver|].
  destruct (take_varint rest) as [[c rest']|] eqn:Ec; simpl; [done|].
  intros [= <-]. right. split_and!; [done..|]. exists q, rest. naive_solver lia.
Qed.

Lemma datagram_decode_errors_witness :
  decode (map as_u8 [0x05; 0x40]) = Err MissingContextId ∧
  is_connection_error MissingContextId = false.
Proof.
  split; [reflexivity|].
  destruct (datagram_decode_errors (map as_u8 [0x05; 0x40]) MissingContextId eq_refl)
    as [[_ [[_ H]|(q & r & _ & _ & H)]]|[H _]]; [discriminate|discriminate|exact H].
Defined.
