(* ===== verification/H3Error.v ===== *)
(** * HTTP/3 error codes and violations (src/src/h3/error.rs)

    [Code] is the open registry of application error codes, [Violation] a broken
    protocol rule with the two halves of its answer: the code, and whether it
    ends the stream or the connection.  [ConnectionError] and [StreamError] are
    the endings the rest of the crate sees, with the conversions from what the
    QUIC layer (quinn, not under src/) reports. *)

From Stdlib Require Import HexString.
From S2P Require Import Prelude.

#[local] Open Scope string_scope.

Record Code := mkCode { value : Z }.

#[export] Instance Code_eq_dec : EqDecision Code.
Proof. solve_decision. Defined.

Definition H3_DATAGRAM_ERROR := mkCode 0x33.
Definition H3_NO_ERROR := mkCode 0x100.
Definition H3_GENERAL_PROTOCOL_ERROR := mkCode 0x101.
Definition H3_INTERNAL_ERROR := mkCode 0x102.
Definition H3_STREAM_CREATION_ERROR := mkCode 0x103.
Definition H3_CLOSED_CRITICAL_STREAM := mkCode 0x104.
Definition H3_FRAME_UNEXPECTED := mkCode 0x105.
Definition H3_FRAME_ERROR := mkCode 0x106.
Definition H3_EXCESSIVE_LOAD := mkCode 0x107.
Definition H3_ID_ERROR := mkCode 0x108.
Definition H3_SETTINGS_ERROR := mkCode 0x109.
Definition H3_MISSING_SETTINGS := mkCode 0x10a.
Definition H3_REQUEST_REJECTED := mkCode 0x10b.
Definition H3_REQUEST_CANCELLED := mkCode 0x10c.
Definition H3_REQUEST_INCOMPLETE := mkCode 0x10d.
Definition H3_MESSAGE_ERROR := mkCode 0x10e.
Definition H3_CONNECT_ERROR := mkCode 0x10f.
Definition H3_VERSION_FALLBACK := mkCode 0x110.
Definition QPACK_DECOMPRESSION_FAILED := mkCode 0x200.
Definition QPACK_ENCODER_STREAM_ERROR := mkCode 0x201.
Definition QPACK_DECODER_STREAM_ERROR := mkCode 0x202.

(** The table of the [codes!] macro: registered values and their names. *)
Definition registered : list (Code * string) := [
  (H3_DATAGRAM_ERROR, "H3_DATAGRAM_ERROR");
  (H3_NO_ERROR, "H3_NO_ERROR");
  (H3_GENERAL_PROTOCOL_ERROR, "H3_GENERAL_PROTOCOL_ERROR");
  (H3_INTERNAL_ERROR, "H3_INTERNAL_ERROR");
  (H3_STREAM_CREATION_ERROR, "H3_STREAM_CREATION_ERROR");
  (H3_CLOSED_CRITICAL_STREAM, "H3_CLOSED_CRITICAL_STREAM");
  (H3_FRAME_UNEXPECTED, "H3_FRAME_UNEXPECTED");
  (H3_FRAME_ERROR, "H3_FRAME_ERROR");
  (H3_EXCESSIVE_LOAD, "H3_EXCESSIVE_LOAD");
  (H3_ID_ERROR, "H3_ID_ERROR");
  (H3_SETTINGS_ERROR, "H3_SETTINGS_ERROR");
  (H3_MISSING_SETTINGS, "H3_MISSING_SETTINGS");
  (H3_REQUEST_REJECTED, "H3_REQUEST_REJECTED");
  (H3_REQUEST_CANCELLED, "H3_REQUEST_CANCELLED");
  (H3_REQUEST_INCOMPLETE, "H3_REQUEST_INCOMPLETE");
  (H3_MESSAGE_ERROR, "H3_MESSAGE_ERROR");
  (H3_CONNECT_ERROR, "H3_CONNECT_ERROR");
  (H3_VERSION_FALLBACK, "H3_VERSION_FALLBACK");
  (QPACK_DECOMPRESSION_FAILED, "QPACK_DECOMPRESSION_FAILED");
  (QPACK_ENCODER_STREAM_ERROR, "QPACK_ENCODER_STREAM_ERROR");
  (QPACK_DECODER_STREAM_ERROR, "QPACK_DECODER_STREAM_ERROR")].

(** [{:#x}] of the source. *)
Definition hex (v : Z) : string := HexString.of_Z v.

(** [Display] (and [Debug]) of a code. *)
Definition code_display (c : Code) : string :=
  match list_find (λ p, p.1 = c) registered with
  | Some (_, (_, name)) => name
  | None => hex (value c)
  end.

(** ** Violations *)

Record Violation := mkViolation {
  code : Code;
  fatal : bool;
  field_section : bool;
  detail : string;
}.

#[export] Instance Violation_eq_dec : EqDecision Violation.
Proof. solve_decision. Defined.

Definition stream_violation (c : Code) (d : string) : Violation :=
  {| code := c; fatal := false; field_section := false; detail := d |}.

Definition connection_violation (c : Code) (d : string) : Violation :=
  {| code := c; fatal := true; field_section := false; detail := d |}.

Definition field_section_too_large (d : string) : Violation :=
  {| code := H3_EXCESSIVE_LOAD; fatal := false; field_section := true; detail := d |}.

Definition is_connection_error (v : Violation) : bool := fatal v.

Definition is_field_section_too_large (v : Violation) : bool := field_section v.

Definition into_fatal (v : Violation) : Violation :=
  {| code := code v; fatal := true; field_section := field_section v; detail := detail v |}.

Definition violation_display (v : Violation) : string :=
  code_display (code v) +:+ ": " +:+ detail v.

(** ** Endings of connections and streams

    What quinn reports, with the variants the source matches on; the variants it
    does not match on carry only their text. *)

Section Endings.
(** What quinn's connection error carries in the variants the source does not take
    apart. *)
Context {QuinnError : Type}.

(** A close by the peer carries a code and a reason phrase of the peer's own. *)
Inductive quinn_ConnectionError :=
  | ConnectionClosed (error_code : Z) (reason : bytes)
  | ApplicationClosed (error_code : Z) (reason : bytes)
  | TimedOut
  | LocallyClosed
  | OtherConnectionError (e : QuinnError).

Inductive ConnectionError :=
  | ApplicationClose (code : Code)
  | Timeout
  | ConnLocal (v : Violation)
  | Transport (e : quinn_ConnectionError).

(** The scrubbing of the peer's reason phrase ([logfmt::peer_error]). *)
Context (peer_error : quinn_ConnectionError → quinn_ConnectionError).

Definition connection_error_from (e : quinn_ConnectionError) : ConnectionError :=
  match e with
  | ApplicationClosed error_code _ => ApplicationClose (mkCode error_code)
  | TimedOut => Timeout
  | other => Transport (peer_error other)
  end.

Inductive StreamError :=
  | RemoteTerminate (code : Code)
  | Connection (e : ConnectionError)
  | StreamLocal (v : Violation).

(** [quinn::ReadError] and [quinn::WriteError], each with its two variants that
    are the peer's doing and the text of the others. *)
Inductive quinn_ReadError :=
  | Reset (code : Z)
  | ReadConnectionLost (e : quinn_ConnectionError)
  | OtherReadError (text : string).

Inductive quinn_WriteError :=
  | Stopped (code : Z)
  | WriteConnectionLost (e : quinn_ConnectionError)
  | OtherWriteError (text : string).

Definition internal (text : string) : StreamError :=
  StreamLocal (stream_violation H3_INTERNAL_ERROR text).

Definition stream_error_from_read (e : quinn_ReadError) : StreamError :=
  match e with
  | Reset code => RemoteTerminate (mkCode code)
  | ReadConnectionLost e => Connection (connection_error_from e)
  | OtherReadError text => internal text
  end.

Definition stream_error_from_write (e : quinn_WriteError) : StreamError :=
  match e with
  | Stopped code => RemoteTerminate (mkCode code)
  | WriteConnectionLost e => Connection (connection_error_from e)
  | OtherWriteError text => internal text
  end.
End Endings.

(** ** Properties *)

(** The registry is a bijection between its codes and names, so a code's
    name on a log line identifies it, and a code outside the registry is printed
    as the hexadecimal number it is rather than under any registered name. *)
Theorem code_display_registry :
  NoDup (map fst registered) ∧ NoDup (map snd registered) ∧
  (∀ c name, (c, name) ∈ registered → code_display c = name) ∧
  (∀ c, c ∉ map fst registered → code_display c = hex (value c)).
Proof.
  split; [|split; [|split]].
  - apply (bool_decide_unpack _). vm_compute. done.
  - apply (bool_decide_unpack _). vm_compute. done.
  - intros c name Hin.
    assert (Forall (λ p, code_display p.1 = p.2) registered) as Hall.
    { repeat (constructor; [reflexivity|]). constructor. }
    by apply (proj1 (Forall_forall _ _) Hall (c, name)).
  - intros c Hc. unfold code_display.
    destruct (list_find _ registered) as [[i [c' n]]|] eqn:E; [|done].
    apply list_find_Some in E as (Hl & Heq & _). simpl in Heq. subst c'.
    destruct Hc. apply list_elem_of_fmap. exists (c, n). split; [done|].
    by eapply list_elem_of_lookup_2.
Qed.
