(* ===== verification/Capsule.v ===== *)
(** * The Capsule Protocol decoder (src/src/capsule.rs)

    [CapsuleDecoder] is the source's buffer and [State]; [next_capsule] is its
    loop, step by step ([capsule_step]); [encode_datagram] is the writer.  The
    decoder is shown to be an [IncrementalDecoder], to yield exactly the
    DATAGRAM capsules of a well-formed sequence, and never to hold more than one
    capsule's worth of bytes. *)

From S2P Require Import Prelude Datagram Incremental.

Definition CAPSULE_TYPE_DATAGRAM : Z := 0x00.
Definition MAX_DATAGRAM_CAPSULE_VALUE : Z := 8 + MAX_UDP_PAYLOAD.

Inductive Error :=
  | Truncated
  | DatagramTooLarge (length : Z)
  | MalformedDatagram.

#[export] Instance capsule_Error_eq_dec : EqDecision Error.
Proof. solve_decision. Defined.

Inductive Capsule :=
  | CapsuleDatagram (context_id : Z) (payload : bytes).

Inductive State :=
  | Header
  | Value (length : nat)
  | Skip (remaining : N).

Record CapsuleDecoder := mkDecoder {
  buffer : bytes;
  state : State;
}.

Definition new : CapsuleDecoder := {| buffer := []; state := Header |}.

Definition push_chunk (d : CapsuleDecoder) (chunk : bytes) : CapsuleDecoder :=
  {| buffer := buffer d ++ chunk; state := state d |}.

Definition at_capsule_boundary (d : CapsuleDecoder) : bool :=
  match state d with
  | Header => bool_decide (buffer d = [])
  | Skip remaining => (remaining =? 0)%N && bool_decide (buffer d = [])
  | Value _ => false
  end.

(** One turn of the [loop] of [next_capsule]: [inl] is [continue], [inr] a
    [return] with the decoder as it is left. *)
Definition capsule_step (d : CapsuleDecoder)
    : CapsuleDecoder + (CapsuleDecoder * result (option Capsule) Error) :=
  match state d with
  | Skip remaining =>
      if (remaining =? 0)%N then inl {| buffer := buffer d; state := Header |}
      else if decide (buffer d = []) then inr (d, Ok None)
      else
        let discard := N.min remaining (N.of_nat (List.length (buffer d))) in
        inl {| buffer := drop (N.to_nat discard) (buffer d);
               state := Skip (remaining - discard) |}
  | Header =>
      match peek_varint (buffer d) with
      | None => inr (d, Ok None)
      | Some (capsule_type, type_len) =>
          match peek_varint (drop type_len (buffer d)) with
          | None => inr (d, Ok None)
          | Some (length, length_len) =>
              let rest := drop (type_len + length_len) (buffer d) in
              if capsule_type =? CAPSULE_TYPE_DATAGRAM then
                if MAX_DATAGRAM_CAPSULE_VALUE <? length then
                  inr ({| buffer := rest; state := Header |}, Err (DatagramTooLarge length))
                else inl {| buffer := rest; state := Value (Z.to_nat length) |}
              else inl {| buffer := rest; state := Skip (Z.to_N length) |}
          end
      end
  | Value length =>
      if decide (List.length (buffer d) < length)%nat then inr (d, Ok None)
      else
        let value := take length (buffer d) in
        let d' := {| buffer := drop length (buffer d); state := Header |} in
        match take_varint value with
        | None => inr (d', Err MalformedDatagram)
        | Some (context_id, payload) =>
            inr (d', Ok (Some (CapsuleDatagram context_id payload)))
        end
  end.

Definition capsule_measure (d : CapsuleDecoder) : nat :=
  2 * length (buffer d) + match state d with Skip _ => 1 | _ => 0 end.

#[export] Program Instance capsule_loop : Loop capsule_step :=
  {| loop_measure := capsule_measure |}.
Next Obligation.
  intros [buf st] s'. unfold capsule_step, capsule_measure. simpl.
  destruct st as [|len|rem].
  - destruct (peek_varint buf) as [[ty n1]|] eqn:E1; [|done].
    destruct (peek_varint (drop n1 buf)) as [[len n2]|] eqn:E2; [|done].
    apply peek_varint_length in E1, E2. rewrite length_drop in E2.
    repeat case_match; intros [= <-]; simpl; rewrite length_drop; lia.
  - repeat case_match; done.
  - destruct (N.eqb_spec rem 0); [intros [= <-]; simpl; lia|].
    case_decide as Hne; [done|]. intros [= <-]. simpl. rewrite length_drop.
    destruct buf; [done|]. simpl. lia.
Qed.

Definition next_capsule (d : CapsuleDecoder) : CapsuleDecoder * result (option Capsule) Error :=
  run capsule_step d.

Definition encode_datagram (context_id : Z) (payload : bytes) : option bytes :=
  let value_len := (varint_len context_id + length payload)%nat in
  let wire_len := Z.of_nat value_len in
  buf ← put_varint [] CAPSULE_TYPE_DATAGRAM;
  buf ← put_varint buf wire_len;
  buf ← put_varint buf context_id;
  Some (buf ++ payload).

Lemma next_capsule_unfold d :
  next_capsule d = match capsule_step d with inl d' => next_capsule d' | inr r => r end.
Proof. apply run_unfold. Qed.

Lemma next_capsule_shrinks d d' c :
  next_capsule d = (d', Ok (Some c)) → (capsule_measure d' < capsule_measure d)%nat.
Proof.
  unfold next_capsule. revert d' c.
  apply (run_ind capsule_step (λ d r, ∀ d' c, r = (d', Ok (Some c)) →
    (capsule_measure d' < capsule_measure d)%nat)); clear d.
  - intros [buf st] r E d' c ->. unfold capsule_step in E. simpl in E.
    destruct st as [|len|rem]; repeat case_match; simplify_eq.
    unfold capsule_measure; simpl. rewrite length_drop.
    match goal with H : take_varint _ = Some _ |- _ =>
      apply take_varint_some in H as (_ & k & Hk & _) end.
    rewrite length_take in Hk. lia.
  - intros d d1 E IH d' c Er. specialize (IH d' c Er).
    pose proof (loop_decreases d d1 E). simpl in *. lia.
Qed.

#[export] Instance capsule_shrinks : Shrinks next_capsule :=
  {| size_of := capsule_measure; next_shrinks := next_capsule_shrinks |}.

(** ** Chunk boundaries do not matter *)

(** Draining, one turn of the loop at a time. *)
Lemma drain_capsules_unfold d :
  drain_all next_capsule d =
  match capsule_step d with
  | inl d' => drain_all next_capsule d'
  | inr (d', Ok (Some c)) =>
      (c :: (drain_all next_capsule d').1, (drain_all next_capsule d').2)
  | inr (d', Ok None) => ([], Ok d')
  | inr (_, Err e) => ([], Err e)
  end.
Proof.
  rewrite (drain_all_unfold next_capsule d), next_capsule_unfold.
  destruct (capsule_step d) as [d'|[d' [[c|]|e]]]; try done.
  by rewrite (drain_all_unfold next_capsule d').
Qed.

(** A decoder that has yielded everything it can: its next turn asks for bytes. *)
Definition capsule_ready (d : CapsuleDecoder) : Prop := capsule_step d = inr (d, Ok None).

Lemma capsule_step_none d d' : capsule_step d = inr (d', Ok None) → d' = d.
Proof.
  destruct d as [buf st]. unfold capsule_step; simpl.
  repeat case_match; naive_solver.
Qed.

Lemma drain_capsules_ready d d' :
  (drain_all next_capsule d).2 = Ok d' → capsule_ready d'.
Proof.
  induction d as [d IH] using (induction_ltof1 _ capsule_measure).
  rewrite drain_capsules_unfold.
  destruct (capsule_step d) as [d1|[d1 [[c|]|e]]] eqn:E; simpl; try done.
  - apply IH. exact (loop_decreases d d1 E).
  - apply IH. unfold ltof. apply (next_capsule_shrinks d d1 c).
    by rewrite next_capsule_unfold, E.
  - intros [= <-]. pose proof (capsule_step_none _ _ E). by subst.
Qed.

Lemma push_chunk_nil d : push_chunk d [] = d.
Proof. destruct d. unfold push_chunk; simpl. by rewrite app_nil_r. Qed.

Lemma skip_step rem buf :
  rem ≠ 0%N → buf ≠ [] →
  capsule_step {| buffer := buf; state := Skip rem |} =
  inl {| buffer := drop (N.to_nat (N.min rem (N.of_nat (length buf)))) buf;
         state := Skip (rem - N.min rem (N.of_nat (length buf))) |}.
Proof.
  intros H1 H2. unfold capsule_step; simpl.
  rewrite (proj2 (N.eqb_neq rem 0)) by done. by rewrite decide_False.
Qed.

(** A skipped value: the bytes at hand and the bytes to come are discarded as one. *)
Lemma drain_skip_app rem buf more :
  (N.of_nat (length buf) ≤ rem)%N →
  drain_all next_capsule {| buffer := buf ++ more; state := Skip rem |} =
  drain_all next_capsule
    {| buffer := more; state := Skip (rem - N.of_nat (length buf)) |}.
Proof.
  intros Hle. destruct (decide (buf = [])) as [->|Hb].
  { simpl. by rewrite N.sub_0_r. }
  assert (rem ≠ 0%N) by (destruct buf; simpl in *; [done|lia]).
  rewrite (drain_capsules_unfold {| buffer := buf ++ more; state := Skip rem |}).
  rewrite skip_step by (destruct buf; done).
  rewrite length_app.
  destruct (decide (more = [])) as [->|Hm].
  { simpl. rewrite app_nil_r, Nat.add_0_r.
    replace (N.min rem (N.of_nat (length buf))) with (N.of_nat (length buf)) by lia.
    by rewrite Nat2N.id, drop_all. }
  destruct (decide (rem = N.of_nat (length buf))) as [->|Hne].
  { replace (N.min _ _) with (N.of_nat (length buf)) by lia.
    by rewrite Nat2N.id, drop_app_length. }
  rewrite (drain_capsules_unfold {| buffer := more; state := _ |}).
  rewrite skip_step by (done || lia).
  f_equal. f_equal; [|f_equal; lia].
  rewrite drop_app_ge by lia. f_equal. lia.
Qed.

(** A turn that continues or returns something does so whatever follows; only a
    value being skipped may swallow the bytes that follow. *)
Definition skip_settled (d : CapsuleDecoder) : bool :=
  match state d with Skip rem => (rem <=? N.of_nat (length (buffer d)))%N | _ => true end.

Lemma capsule_step_app d more :
  skip_settled d = true →
  match capsule_step d with
  | inl d' => capsule_step (push_chunk d more) = inl (push_chunk d' more)
  | inr (d', Ok None) => d' = d
  | inr (d', r) => capsule_step (push_chunk d more) = inr (push_chunk d' more, r)
  end.
Proof.
  destruct d as [buf [|len|rem]]; unfold push_chunk, capsule_step, skip_settled; simpl;
    intros Hs.
  - destruct (peek_varint buf) as [[ty n1]|] eqn:E1; [|done].
    rewrite (peek_varint_app _ more _ _ E1). apply peek_varint_length in E1.
    rewrite drop_app_le by lia.
    destruct (peek_varint (drop n1 buf)) as [[len n2]|] eqn:E2; [|done].
    rewrite (peek_varint_app _ more _ _ E2). apply peek_varint_length in E2.
    rewrite length_drop in E2. rewrite drop_app_le by lia.
    repeat case_match; simplify_eq; done.
  - case_decide; [done|]. rewrite length_app. rewrite decide_False by lia.
    rewrite take_app_le, drop_app_le by lia. by destruct (take_varint _) as [[??]|].
  - destruct (N.eqb_spec rem 0); [done|].
    case_decide; [done|]. rewrite decide_False by (destruct buf; done).
    apply N.leb_le in Hs. rewrite length_app. rewrite !N.min_l by lia.
    by rewrite drop_app_le by lia.
Qed.

(** The two-chunk law. *)
Lemma drain_capsules_app d more :
  drain_all next_capsule (push_chunk d more) =
  then_drain (drain_all next_capsule d) (λ d', drain_all next_capsule (push_chunk d' more)).
Proof.
  induction d as [d IH] using (induction_ltof1 _ capsule_measure).
  destruct (skip_settled d) eqn:Hs.
  - pose proof (capsule_step_app d more Hs) as Hstep.
    rewrite (drain_capsules_unfold d).
    destruct (capsule_step d) as [d1|[d1 [[c|]|e]]] eqn:E; simpl.
    + rewrite drain_capsules_unfold, Hstep. apply IH. exact (loop_decreases d d1 E).
    + rewrite drain_capsules_unfold, Hstep.
      rewrite IH by (apply (next_capsule_shrinks d d1 c); by rewrite next_capsule_unfold, E).
      destruct (drain_all next_capsule d1) as [items [d2|e]]; simpl; [|done].
      by destruct (drain_all next_capsule (push_chunk d2 more)).
    + subst d1. by destruct (drain_all next_capsule (push_chunk d more)).
    + by rewrite drain_capsules_unfold, Hstep.
  - destruct d as [buf [|len|rem]]; [done..|]. apply N.leb_gt in Hs; simpl in Hs.
    unfold push_chunk at 1; simpl. rewrite drain_skip_app by lia.
    rewrite <- (app_nil_r buf) at 2. rewrite drain_skip_app by lia.
    rewrite (drain_capsules_unfold {| buffer := []; state := _ |}).
    unfold capsule_step; simpl. rewrite (proj2 (N.eqb_neq _ 0)) by lia. simpl.
    unfold push_chunk; simpl. by destruct (drain_all next_capsule _).
Qed.

#[export] Program Instance capsule_incremental :
    IncrementalDecoder CapsuleDecoder Capsule Error := {|
  push := push_chunk;
  drain := drain_all next_capsule;
  ready := capsule_ready;
  items_equiv := eq;
|}.
Next Obligation.
  intros d Hd. rewrite push_chunk_nil, drain_capsules_unfold, Hd. done.
Qed.
Next Obligation. intros d x d' _. apply drain_capsules_ready. Qed.
Next Obligation.
  intros d x y _. simpl.
  assert (push_chunk d (x ++ y) = push_chunk (push_chunk d x) y) as ->.
  { unfold push_chunk; simpl. by rewrite app_assoc. }
  by rewrite drain_capsules_app.
Qed.

(** ** Well-formed sequences

    The reference a decoder is held to: a capsule on the wire is a type and a
    length, each in any varint encoding, and a value of that length. *)

Inductive capsule_wire : Z → bytes → bytes → Prop :=
  | capsule_wire_intro ty value wt wl :
      is_varint wt ty → is_varint wl (blen value) →
      capsule_wire ty value (wt ++ wl ++ value).

(** A sequence of capsules, with the DATAGRAM capsules it carries: a DATAGRAM
    value is a Context ID and a payload within the bound, any other type is
    anything at all. *)
Inductive capsule_sequence : bytes → list Capsule → Prop :=
  | capsule_sequence_nil : capsule_sequence [] []
  | capsule_sequence_datagram value ctx payload w ws cs :
      capsule_wire CAPSULE_TYPE_DATAGRAM value w →
      blen value ≤ MAX_DATAGRAM_CAPSULE_VALUE →
      take_varint value = Some (ctx, payload) →
      capsule_sequence ws cs →
      capsule_sequence (w ++ ws) (CapsuleDatagram ctx payload :: cs)
  | capsule_sequence_unknown ty value w ws cs :
      capsule_wire ty value w → ty ≠ CAPSULE_TYPE_DATAGRAM →
      capsule_sequence ws cs →
      capsule_sequence (w ++ ws) cs.

Lemma header_step ty value w rest :
  capsule_wire ty value w →
  capsule_step {| buffer := w ++ rest; state := Header |} =
  if ty =? CAPSULE_TYPE_DATAGRAM then
    if MAX_DATAGRAM_CAPSULE_VALUE <? blen value then
      inr ({| buffer := value ++ rest; state := Header |}, Err (DatagramTooLarge (blen value)))
    else inl {| buffer := value ++ rest; state := Value (length value) |}
  else inl {| buffer := value ++ rest; state := Skip (N.of_nat (length value)) |}.
Proof.
  intros [ty' value' wt wl Ht Hl]. unfold capsule_step; simpl. rewrite <- !app_assoc.
  rewrite (is_varint_peek wt ty'), drop_app_length by done.
  rewrite (is_varint_peek wl (blen value')) by done.
  rewrite <- drop_drop, drop_app_length, drop_app_length.
  unfold blen. by rewrite Nat2Z.id, <- nat_N_Z, N2Z.id.
Qed.

Lemma drain_sequence ws cs :
  capsule_sequence ws cs →
  drain_all next_capsule {| buffer := ws; state := Header |} =
  (cs, Ok {| buffer := []; state := Header |}).
Proof.
  induction 1 as [|value ctx payload w ws cs Hw Hle Htake _ IH|ty value w ws cs Hw Hty _ IH].
  - done.
  - rewrite drain_capsules_unfold, (header_step _ value) by done. simpl.
    destruct (Z.ltb_spec MAX_DATAGRAM_CAPSULE_VALUE (blen value)); [lia|].
    rewrite drain_capsules_unfold. unfold capsule_step; simpl.
    rewrite length_app, decide_False by lia.
    rewrite take_app_length, drop_app_length, Htake. simpl. by rewrite IH.
  - rewrite drain_capsules_unfold, (header_step _ value) by done.
    rewrite (proj2 (Z.eqb_neq ty _)) by done.
    rewrite drain_skip_app, N.sub_diag by done.
    by rewrite drain_capsules_unfold.
Qed.

(** The bytes a drained decoder keeps: at most a header it cannot read yet, or a
    value one byte short of whole. *)
Lemma ready_buffer_bound d :
  capsule_ready d →
  match state d with Value len => Z.of_nat len ≤ MAX_DATAGRAM_CAPSULE_VALUE | _ => True end →
  blen (buffer d) < MAX_DATAGRAM_CAPSULE_VALUE.
Proof.
  destruct d as [buf [|len|rem]]; unfold capsule_ready, capsule_step, blen; simpl.
  - intros Hr _. change MAX_DATAGRAM_CAPSULE_VALUE with 65535.
    assert (length buf < 16)%nat; [|lia].
    destruct (peek_varint buf) as [[ty n1]|] eqn:E1.
    + apply peek_varint_le8 in E1.
      destruct (peek_varint (drop n1 buf)) as [[l n2]|] eqn:E2.
      * repeat case_match; discriminate.
      * apply peek_varint_none_short in E2. rewrite length_drop in E2. lia.
    + apply peek_varint_none_short in E1. lia.
  - case_decide; [lia|]. destruct (take_varint _) as [[??]|]; discriminate.
  - destruct (N.eqb_spec rem 0); [discriminate|]. case_decide; [|discriminate].
    intros _ _. subst. done.
Qed.

(** The invariant of the decoder: a value being buffered is within the bound. *)
Definition decoder_ok (d : CapsuleDecoder) : Prop :=
  match state d with Value len => Z.of_nat len ≤ MAX_DATAGRAM_CAPSULE_VALUE | _ => True end.

Lemma capsule_step_ok d :
  decoder_ok d →
  match capsule_step d with inl d' | inr (d', _) => decoder_ok d' end.
Proof.
  destruct d as [buf [|len|rem]]; unfold decoder_ok, capsule_step; simpl; intros Hok.
  - destruct (peek_varint buf) as [[ty n1]|]; [|done].
    destruct (peek_varint (drop n1 buf)) as [[len n2]|] eqn:E2; [|done].
    apply peek_varint_bound in E2 as [? _].
    destruct (ty =? _); [|done]. destruct (Z.ltb_spec MAX_DATAGRAM_CAPSULE_VALUE len); simpl; [done|lia].
  - case_decide; [done|]. by destruct (take_varint _) as [[??]|].
  - repeat case_match; simplify_eq; done.
Qed.

Lemma drain_capsules_ok d d' :
  decoder_ok d → (drain_all next_capsule d).2 = Ok d' → decoder_ok d'.
Proof.
  induction d as [d IH] using (induction_ltof1 _ capsule_measure). intros Hok.
  rewrite drain_capsules_unfold. pose proof (capsule_step_ok d Hok) as Hstep.
  destruct (capsule_step d) as [d1|[d1 [[c|]|e]]] eqn:E; simpl; [| |by intros [= <-]|done].
  - apply IH; [exact (loop_decreases d d1 E)|done].
  - apply IH; [|done]. apply (next_capsule_shrinks d d1 c). by rewrite next_capsule_unfold, E.
Qed.

Lemma feed_capsules_ok d chunks d' :
  capsule_ready d → decoder_ok d → (feed d chunks).2 = Ok d' →
  capsule_ready d' ∧ decoder_ok d'.
Proof.
  intros Hr Hok Hfeed. assert (ready d) as Hr' by exact Hr.
  destruct (feed_concat d chunks Hr') as [_ Heq].
  rewrite Hfeed in Heq. symmetry in Heq. simpl in Heq. split.
  - by eapply drain_capsules_ready.
  - eapply drain_capsules_ok; [|done]. done.
Qed.

(** What draining a well-formed sequence yields, in whatever chunks it arrives. *)
Lemma feed_sequence chunks cs :
  capsule_sequence (concat chunks) cs →
  ∃ d, feed new chunks = (cs, Ok d) ∧ at_capsule_boundary d = true.
Proof.
  intros Hseq. assert (ready new) as Hr by reflexivity.
  destruct (feed_concat new chunks Hr) as [H1 H2].
  pose proof (drain_sequence _ _ Hseq) as Hd.
  change {| buffer := concat chunks; state := Header |} with (push new (concat chunks)) in Hd.
  unfold drain in *. simpl in *. unfold push_chunk in *. simpl in *.
  rewrite Hd in H1, H2. simpl in *. destruct (feed new chunks) as [items r]. simpl in *.
  subst. eexists. split; [done|]. done.
Qed.

(** ** Properties *)

(** Chunk boundaries do not matter.  However the bytes of a request stream
    are cut into chunks, the decoder yields the same capsules, ends in the same
    state or fails with the same error. *)
Theorem capsule_chunking chunks1 chunks2 :
  concat chunks1 = concat chunks2 → feed new chunks1 = feed new chunks2.
Proof.
  intros Heq. assert (ready new) as Hr by reflexivity.
  destruct (feed_chunking new chunks1 chunks2 Hr Heq) as [H1 H2].
  destruct (feed new chunks1), (feed new chunks2). simpl in *. by subst.
Qed.

Lemma capsule_chunking_witness :
  feed new (map (λ x, [x]) (map as_u8 [0; 3; 0; 1; 2; 9; 1; 7])) =
  feed new [map as_u8 [0; 3; 0; 1; 2; 9; 1; 7]].
Proof. apply capsule_chunking. reflexivity. Defined.

(** A well-formed capsule sequence, in whatever chunks it arrives, yields
    exactly its DATAGRAM capsules in order, skips every capsule of an unknown
    type whatever its value, and leaves the decoder at a capsule boundary. *)
Theorem capsule_sequence_decoded chunks cs :
  capsule_sequence (concat chunks) cs →
  ∃ d, feed new chunks = (cs, Ok d) ∧ at_capsule_boundary d = true.
Proof. apply feed_sequence. Qed.

Lemma capsule_sequence_decoded_witness :
  ∃ d, feed new [map as_u8 [0x21; 2; 0xff]; map as_u8 [0xff; 0; 3; 0; 104; 105]]
       = ([CapsuleDatagram 0 (lit "hi")], Ok d) ∧ at_capsule_boundary d = true.
Proof.
  apply capsule_sequence_decoded. simpl.
  apply (capsule_sequence_unknown 0x21 (map as_u8 [0xff; 0xff]) (map as_u8 [0x21; 2; 0xff; 0xff])
    (map as_u8 [0; 3; 0; 104; 105])); [|discriminate|].
  { apply (capsule_wire_intro 0x21 (map as_u8 [0xff; 0xff]) [as_u8 0x21] [as_u8 2]); reflexivity. }
  apply (capsule_sequence_datagram (map as_u8 [0; 104; 105]) 0 (lit "hi")
    (map as_u8 [0; 3; 0; 104; 105]) []); [|vm_compute; discriminate|reflexivity|constructor].
  apply (capsule_wire_intro 0 (map as_u8 [0; 104; 105]) [as_u8 0] [as_u8 3]); reflexivity.
Defined.

(** What [encode_datagram] writes is a one-capsule sequence the decoder
    reads back: the DATAGRAM capsule round trip. *)
Theorem capsule_roundtrip ctx payload :
  0 ≤ ctx ≤ VARINT_MAX → blen payload ≤ MAX_UDP_PAYLOAD →
  ∃ wire, encode_datagram ctx payload = Some wire ∧
    drain_all next_capsule (push_chunk new wire) = ([CapsuleDatagram ctx payload], Ok new).
Proof.
  intros Hctx Hlen. unfold encode_datagram.
  set (value := varint_bytes ctx ++ payload).
  assert (Z.of_nat (varint_len ctx + length payload) = blen value) as ->.
  { unfold value, blen. by rewrite length_app, length_varint_bytes by done. }
  assert (varint_len ctx ≤ 8)%nat by (unfold varint_len; repeat case_match; lia).
  assert (blen value ≤ MAX_DATAGRAM_CAPSULE_VALUE) as Hv.
  { unfold value, blen, MAX_DATAGRAM_CAPSULE_VALUE in *.
    rewrite length_app, length_varint_bytes by done. unfold blen in Hlen. lia. }
  assert (blen value ≤ VARINT_MAX).
  { eapply Z.le_trans; [exact Hv|]. vm_compute. discriminate. }
  pose proof is_varint_bytes as Hvar.
  rewrite put_varint_eq by (vm_compute; discriminate). cbn [mbind option_bind app].
  rewrite put_varint_eq by done. cbn [mbind option_bind].
  rewrite put_varint_eq by lia. cbn [mbind option_bind].
  eexists. split; [done|]. unfold push_chunk, new; simpl buffer; simpl state.
  rewrite <- !app_assoc. fold value. rewrite app_nil_l. apply drain_sequence.
  pose proof (blen_nonneg value).
  rewrite <- (app_nil_r (_ ++ _ ++ value)). econstructor.
  - constructor; apply Hvar; [vm_compute; split; discriminate|lia].
  - done.
  - unfold value. by apply take_varint_bytes.
  - constructor.
Qed.

Lemma capsule_roundtrip_witness :
  ∃ wire, encode_datagram 0 (lit "hello") = Some wire ∧
    drain_all next_capsule (push_chunk new wire) = ([CapsuleDatagram 0 (lit "hello")], Ok new).
Proof. apply capsule_roundtrip; vm_compute; repeat split; discriminate. Defined.

(** The memory bound.  Whatever a peer sends, in whatever chunks, a decoder
    waiting for more bytes holds fewer than [MAX_DATAGRAM_CAPSULE_VALUE] of them,
    however large the lengths it has been told. *)
Theorem capsule_memory_bound chunks d :
  (feed new chunks).2 = Ok d → blen (buffer d) < MAX_DATAGRAM_CAPSULE_VALUE.
Proof.
  intros Hfeed. destruct (feed_capsules_ok new chunks d) as [Hr Hok]; [done..|].
  by apply ready_buffer_bound.
Qed.

Lemma capsule_memory_bound_witness :
  ∃ d, (feed new [map as_u8 [0; 0x40; 0xc8; 1; 2; 3]]).2 = Ok d ∧
    blen (buffer d) < MAX_DATAGRAM_CAPSULE_VALUE.
Proof.
  eexists. split; [vm_compute; reflexivity|].
  apply (capsule_memory_bound [map as_u8 [0; 0x40; 0xc8; 1; 2; 3]]).
  vm_compute. reflexivity.
Defined.
