(* ===== verification/Huffman.v ===== *)
(** * Huffman decoding of string literals (src/src/h3/huffman.rs)

    The RFC 7541 Appendix B code table ([CODES]), the canonical decoding tables
    the source derives from it ([table]), and the bit-by-bit decoder ([decode]).
    The decoder is proved to accept exactly the encodings of the code table
    followed by fewer than eight one-bits of padding. *)

From S2P Require Import Prelude H3Error.

#[local] Open Scope string_scope.
#[local] Open Scope list_scope.
#[local] Open Scope Z_scope.

Definition MAX_CODE_BITS : nat := 30.
Definition EOS : Z := 256.

Definition CODES : list (Z * nat) := [
  (0x1ff8, 13%nat); (0x7fffd8, 23%nat); (0xfffffe2, 28%nat); (0xfffffe3, 28%nat);
  (0xfffffe4, 28%nat); (0xfffffe5, 28%nat); (0xfffffe6, 28%nat); (0xfffffe7, 28%nat);
  (0xfffffe8, 28%nat); (0xffffea, 24%nat); (0x3ffffffc, 30%nat); (0xfffffe9, 28%nat);
  (0xfffffea, 28%nat); (0x3ffffffd, 30%nat); (0xfffffeb, 28%nat); (0xfffffec, 28%nat);
  (0xfffffed, 28%nat); (0xfffffee, 28%nat); (0xfffffef, 28%nat); (0xffffff0, 28%nat);
  (0xffffff1, 28%nat); (0xffffff2, 28%nat); (0x3ffffffe, 30%nat); (0xffffff3, 28%nat);
  (0xffffff4, 28%nat); (0xffffff5, 28%nat); (0xffffff6, 28%nat); (0xffffff7, 28%nat);
  (0xffffff8, 28%nat); (0xffffff9, 28%nat); (0xffffffa, 28%nat); (0xffffffb, 28%nat);
  (0x14, 6%nat); (0x3f8, 10%nat); (0x3f9, 10%nat); (0xffa, 12%nat);
  (0x1ff9, 13%nat); (0x15, 6%nat); (0xf8, 8%nat); (0x7fa, 11%nat);
  (0x3fa, 10%nat); (0x3fb, 10%nat); (0xf9, 8%nat); (0x7fb, 11%nat);
  (0xfa, 8%nat); (0x16, 6%nat); (0x17, 6%nat); (0x18, 6%nat);
  (0x0, 5%nat); (0x1, 5%nat); (0x2, 5%nat); (0x19, 6%nat);
  (0x1a, 6%nat); (0x1b, 6%nat); (0x1c, 6%nat); (0x1d, 6%nat);
  (0x1e, 6%nat); (0x1f, 6%nat); (0x5c, 7%nat); (0xfb, 8%nat);
  (0x7ffc, 15%nat); (0x20, 6%nat); (0xffb, 12%nat); (0x3fc, 10%nat);
  (0x1ffa, 13%nat); (0x21, 6%nat); (0x5d, 7%nat); (0x5e, 7%nat);
  (0x5f, 7%nat); (0x60, 7%nat); (0x61, 7%nat); (0x62, 7%nat);
  (0x63, 7%nat); (0x64, 7%nat); (0x65, 7%nat); (0x66, 7%nat);
  (0x67, 7%nat); (0x68, 7%nat); (0x69, 7%nat); (0x6a, 7%nat);
  (0x6b, 7%nat); (0x6c, 7%nat); (0x6d, 7%nat); (0x6e, 7%nat);
  (0x6f, 7%nat); (0x70, 7%nat); (0x71, 7%nat); (0x72, 7%nat);
  (0xfc, 8%nat); (0x73, 7%nat); (0xfd, 8%nat); (0x1ffb, 13%nat);
  (0x7fff0, 19%nat); (0x1ffc, 13%nat); (0x3ffc, 14%nat); (0x22, 6%nat);
  (0x7ffd, 15%nat); (0x3, 5%nat); (0x23, 6%nat); (0x4, 5%nat);
  (0x24, 6%nat); (0x5, 5%nat); (0x25, 6%nat); (0x26, 6%nat);
  (0x27, 6%nat); (0x6, 5%nat); (0x74, 7%nat); (0x75, 7%nat);
  (0x28, 6%nat); (0x29, 6%nat); (0x2a, 6%nat); (0x7, 5%nat);
  (0x2b, 6%nat); (0x76, 7%nat); (0x2c, 6%nat); (0x8, 5%nat);
  (0x9, 5%nat); (0x2d, 6%nat); (0x77, 7%nat); (0x78, 7%nat);
  (0x79, 7%nat); (0x7a, 7%nat); (0x7b, 7%nat); (0x7ffe, 15%nat);
  (0x7fc, 11%nat); (0x3ffd, 14%nat); (0x1ffd, 13%nat); (0xffffffc, 28%nat);
  (0xfffe6, 20%nat); (0x3fffd2, 22%nat); (0xfffe7, 20%nat); (0xfffe8, 20%nat);
  (0x3fffd3, 22%nat); (0x3fffd4, 22%nat); (0x3fffd5, 22%nat); (0x7fffd9, 23%nat);
  (0x3fffd6, 22%nat); (0x7fffda, 23%nat); (0x7fffdb, 23%nat); (0x7fffdc, 23%nat);
  (0x7fffdd, 23%nat); (0x7fffde, 23%nat); (0xffffeb, 24%nat); (0x7fffdf, 23%nat);
  (0xffffec, 24%nat); (0xffffed, 24%nat); (0x3fffd7, 22%nat); (0x7fffe0, 23%nat);
  (0xffffee, 24%nat); (0x7fffe1, 23%nat); (0x7fffe2, 23%nat); (0x7fffe3, 23%nat);
  (0x7fffe4, 23%nat); (0x1fffdc, 21%nat); (0x3fffd8, 22%nat); (0x7fffe5, 23%nat);
  (0x3fffd9, 22%nat); (0x7fffe6, 23%nat); (0x7fffe7, 23%nat); (0xffffef, 24%nat);
  (0x3fffda, 22%nat); (0x1fffdd, 21%nat); (0xfffe9, 20%nat); (0x3fffdb, 22%nat);
  (0x3fffdc, 22%nat); (0x7fffe8, 23%nat); (0x7fffe9, 23%nat); (0x1fffde, 21%nat);
  (0x7fffea, 23%nat); (0x3fffdd, 22%nat); (0x3fffde, 22%nat); (0xfffff0, 24%nat);
  (0x1fffdf, 21%nat); (0x3fffdf, 22%nat); (0x7fffeb, 23%nat); (0x7fffec, 23%nat);
  (0x1fffe0, 21%nat); (0x1fffe1, 21%nat); (0x3fffe0, 22%nat); (0x1fffe2, 21%nat);
  (0x7fffed, 23%nat); (0x3fffe1, 22%nat); (0x7fffee, 23%nat); (0x7fffef, 23%nat);
  (0xfffea, 20%nat); (0x3fffe2, 22%nat); (0x3fffe3, 22%nat); (0x3fffe4, 22%nat);
  (0x7ffff0, 23%nat); (0x3fffe5, 22%nat); (0x3fffe6, 22%nat); (0x7ffff1, 23%nat);
  (0x3ffffe0, 26%nat); (0x3ffffe1, 26%nat); (0xfffeb, 20%nat); (0x7fff1, 19%nat);
  (0x3fffe7, 22%nat); (0x7ffff2, 23%nat); (0x3fffe8, 22%nat); (0x1ffffec, 25%nat);
  (0x3ffffe2, 26%nat); (0x3ffffe3, 26%nat); (0x3ffffe4, 26%nat); (0x7ffffde, 27%nat);
  (0x7ffffdf, 27%nat); (0x3ffffe5, 26%nat); (0xfffff1, 24%nat); (0x1ffffed, 25%nat);
  (0x7fff2, 19%nat); (0x1fffe3, 21%nat); (0x3ffffe6, 26%nat); (0x7ffffe0, 27%nat);
  (0x7ffffe1, 27%nat); (0x3ffffe7, 26%nat); (0x7ffffe2, 27%nat); (0xfffff2, 24%nat);
  (0x1fffe4, 21%nat); (0x1fffe5, 21%nat); (0x3ffffe8, 26%nat); (0x3ffffe9, 26%nat);
  (0xffffffd, 28%nat); (0x7ffffe3, 27%nat); (0x7ffffe4, 27%nat); (0x7ffffe5, 27%nat);
  (0xfffec, 20%nat); (0xfffff3, 24%nat); (0xfffed, 20%nat); (0x1fffe6, 21%nat);
  (0x3fffe9, 22%nat); (0x1fffe7, 21%nat); (0x1fffe8, 21%nat); (0x7ffff3, 23%nat);
  (0x3fffea, 22%nat); (0x3fffeb, 22%nat); (0x1ffffee, 25%nat); (0x1ffffef, 25%nat);
  (0xfffff4, 24%nat); (0xfffff5, 24%nat); (0x3ffffea, 26%nat); (0x7ffff4, 23%nat);
  (0x3ffffeb, 26%nat); (0x7ffffe6, 27%nat); (0x3ffffec, 26%nat); (0x3ffffed, 26%nat);
  (0x7ffffe7, 27%nat); (0x7ffffe8, 27%nat); (0x7ffffe9, 27%nat); (0x7ffffea, 27%nat);
  (0x7ffffeb, 27%nat); (0xffffffe, 28%nat); (0x7ffffec, 27%nat); (0x7ffffed, 27%nat);
  (0x7ffffee, 27%nat); (0x7ffffef, 27%nat); (0x7fffff0, 27%nat); (0x3ffffee, 26%nat);
  (0x3fffffff, 30%nat)].

Record Table := {
  count : list Z;
  first_code : list Z;
  first_index : list Z;
  symbols : list Z;
}.

(** The three loops of [table()]: arrays are lists, an element of which is read
    with a total lookup and updated in place. *)

Definition build_count : list Z :=
  foldl (λ count '(_, bits), <[bits := (count !!! bits) + 1]> count)
    (replicate (MAX_CODE_BITS + 1) 0) CODES.

Definition build_first (count : list Z) : list Z * list Z :=
  let '(_, _, first_code, first_index) :=
    foldl (λ '(code, index, first_code, first_index) bits,
        let code := shl 32 (code + (count !!! (bits - 1)%nat)) 1 in
        (code, index + (count !!! bits),
         <[bits := code]> first_code, <[bits := index]> first_index))
      (0, 0, replicate (MAX_CODE_BITS + 1) 0, replicate (MAX_CODE_BITS + 1) 0)
      (seq 1 MAX_CODE_BITS) in
  (first_code, first_index).

Definition build_symbols (first_index : list Z) : list Z :=
  (foldl (λ '(symbols, next) '(symbol, (_, bits)),
      let slot := next !!! bits in
      (<[Z.to_nat slot := Z.of_nat symbol]> symbols, <[bits := slot + 1]> next))
    (replicate (length CODES) 0, first_index)
    (zip (seq 0 (length CODES)) CODES)).1.

Definition table : Table :=
  let count := build_count in
  let '(first_code, first_index) := build_first count in
  {| count := count; first_code := first_code; first_index := first_index;
     symbols := build_symbols first_index |}.

Definition failed (detail : string) : Violation :=
  stream_violation QPACK_DECOMPRESSION_FAILED detail.

(** The decoder's locals: the bits since the last whole symbol, how many they
    are, and the output. *)
Definition locals : Type := Z * nat * bytes.

(** The body of the inner loop of [decode]. *)
Definition decode_bit (t : Table) (st : locals) (bit : Z) : result locals Violation :=
  let '(code, bits, out) := st in
  let code := Z.lor (shl 32 code 1) bit in
  let bits := S bits in
  if decide (MAX_CODE_BITS < bits)%nat then
    Err (failed "no Huffman code matches these bits")
  else
    let offset := code - (first_code t !!! bits) in
    if (0 <=? offset) && (offset <? count t !!! bits) then
      let symbol := symbols t !!! Z.to_nat ((first_index t !!! bits) + offset) in
      if symbol =? EOS then Err (failed "the EOS symbol appeared in a string literal")
      else Ok (0, 0%nat, out ++ [as_u8 symbol])
    else Ok (code, bits, out).

(** The bits the inner loop takes from a byte, [(byte >> shift) & 1] for [shift]
    from 7 down to 0. *)
Definition byte_bits (byte : byte) : list Z :=
  map (λ shift, Z.land (Z.shiftr (u8 byte) shift) 1) [7; 6; 5; 4; 3; 2; 1; 0].

Definition decode_byte (t : Table) (st : locals) (byte : byte) : result locals Violation :=
  try_fold (decode_bit t) (byte_bits byte) st.

Definition decode (encoded : bytes) : result bytes Violation :=
  let? (code, bits, out) := try_fold (decode_byte table) encoded (0, 0%nat, []) in
  if decide (8 ≤ bits)%nat then Err (failed "Huffman padding is longer than seven bits")
  else if negb (code =? Z.shiftl 1 (Z.of_nat bits) - 1) then
    Err (failed "Huffman padding is not all ones")
  else Ok out.

(** ** The code as a specification *)

(** The [n] low bits of a code, most significant first. *)
Fixpoint bits_of (n : nat) (code : Z) : list Z :=
  match n with
  | O => []
  | S n => bits_of n (Z.shiftr code 1) ++ [Z.land code 1]
  end.

(** The code of a symbol and of a string. *)
Definition symbol_bits (x : byte) : list Z :=
  match CODES !! Z.to_nat (u8 x) with
  | Some (code, bits) => bits_of bits code
  | None => []
  end.

Definition huff_bits (s : bytes) : list Z := concat (map symbol_bits s).

(** The bits of an encoded literal in wire order. *)
Definition wire_bits (encoded : bytes) : list Z := concat (map byte_bits encoded).

Definition all_symbols : list byte := map (λ n, as_u8 (Z.of_nat n)) (seq 0 256).

Lemma elem_of_all_symbols x : x ∈ all_symbols.
Proof.
  apply list_elem_of_fmap. exists (Z.to_nat (u8 x)). pose proof (u8_range x). split.
  - by rewrite Z2Nat.id, as_u8_u8 by lia.
  - apply elem_of_seq. lia.
Qed.

(** ** The derived tables agree with the code table

    Each check is an evaluation of the source's construction. *)

(** Every entry of the decoding tables leads to the symbol whose code it is. *)
Definition table_entry_ok (bits : nat) (offset : nat) : bool :=
  let symbol := symbols table !!! Z.to_nat ((first_index table !!! bits) + Z.of_nat offset) in
  bool_decide (CODES !! Z.to_nat symbol =
    Some ((first_code table !!! bits) + Z.of_nat offset, bits)) &&
  (0 <=? symbol) && (symbol <=? 256).

Lemma table_entries :
  forallb (λ bits, forallb (table_entry_ok bits) (seq 0 (Z.to_nat (count table !!! bits))))
    (seq 1 MAX_CODE_BITS) = true.
Proof. vm_compute. reflexivity. Qed.

Lemma table_entry bits offset :
  (1 ≤ bits ≤ MAX_CODE_BITS)%nat → 0 ≤ offset < count table !!! bits →
  table_entry_ok bits (Z.to_nat offset) = true.
Proof.
  intros Hb Ho. pose proof table_entries as H. rewrite forallb_forall in H.
  specialize (H bits). rewrite forallb_forall in H. apply H; apply in_seq; lia.
Qed.

Lemma codes_short : forallb (λ '(_, bits), bool_decide (5 ≤ bits ≤ 30)%nat) CODES = true.
Proof. vm_compute. reflexivity. Qed.

(** Feeding the code of each byte value to a fresh decoder yields that byte. *)
Lemma symbols_decode_all :
  forallb (λ x, bool_decide (try_fold (decode_bit table) (symbol_bits x) (0, 0%nat, []) =
    Ok (0, 0%nat, [x]))) all_symbols = true.
Proof. vm_compute. reflexivity. Qed.

(** Up to seven one-bits complete no code. *)
Lemma padding_all :
  forallb (λ k, bool_decide (try_fold (decode_bit table) (replicate k 1) (0, 0%nat, []) =
    Ok (Z.shiftl 1 (Z.of_nat k) - 1, k, []))) (seq 0 8) = true.
Proof. vm_compute. reflexivity. Qed.

(** ** The output is only ever appended to *)

Definition with_out (pre : bytes) (st : locals) : locals :=
  (st.1.1, st.1.2, pre ++ st.2).

Lemma decode_bit_out t pre st bit :
  decode_bit t (with_out pre st) bit = result_map (with_out pre) (decode_bit t st bit).
Proof.
  destruct st as [[code bits] out]. unfold decode_bit, with_out; simpl.
  repeat case_match; simpl; rewrite ?app_assoc; done.
Qed.

Lemma decode_bits_out t pre l st :
  try_fold (decode_bit t) l (with_out pre st) =
  result_map (with_out pre) (try_fold (decode_bit t) l st).
Proof.
  revert st. induction l as [|bit l IH]; intros st; cbn [try_fold]; [done|].
  rewrite decode_bit_out. destruct (decode_bit t st bit); cbn [result_bind result_map]; [apply IH|done].
Qed.

Lemma symbol_decode x out :
  try_fold (decode_bit table) (symbol_bits x) (0, 0%nat, out) = Ok (0, 0%nat, out ++ [x]).
Proof.
  pose proof symbols_decode_all as H. rewrite forallb_forall in H.
  specialize (H x (proj1 (list_elem_of_In _ _) (elem_of_all_symbols x))).
  apply bool_decide_eq_true in H.
  rewrite <- (app_nil_r out) at 1.
  change (0, 0%nat, out ++ []) with (with_out out (0, 0%nat, [])).
  by rewrite decode_bits_out, H.
Qed.

Lemma padding_decode k out :
  (k < 8)%nat →
  try_fold (decode_bit table) (replicate k 1) (0, 0%nat, out) =
  Ok (Z.shiftl 1 (Z.of_nat k) - 1, k, out).
Proof.
  intros Hk. pose proof padding_all as H. rewrite forallb_forall in H.
  specialize (H k ltac:(apply in_seq; lia)). apply bool_decide_eq_true in H.
  rewrite <- (app_nil_r out) at 1.
  change (0, 0%nat, out ++ []) with (with_out out (0, 0%nat, [])).
  rewrite decode_bits_out, H. simpl. unfold with_out; simpl. by rewrite app_nil_r.
Qed.

Lemma huff_bits_decode s out :
  try_fold (decode_bit table) (huff_bits s) (0, 0%nat, out) = Ok (0, 0%nat, out ++ s).
Proof.
  revert out. induction s as [|x s IH]; intros out; simpl.
  { by rewrite app_nil_r. }
  unfold huff_bits in *. simpl. rewrite try_fold_app, symbol_decode. simpl.
  rewrite IH. by rewrite <- app_assoc.
Qed.

Lemma decode_bytes_bits t encoded st :
  try_fold (decode_byte t) encoded st = try_fold (decode_bit t) (wire_bits encoded) st.
Proof.
  revert st. induction encoded as [|x l IH]; intros st; [done|].
  unfold wire_bits in *. cbn [map concat try_fold]. rewrite try_fold_app.
  unfold decode_byte at 1. by destruct (try_fold (decode_bit t) (byte_bits x) st); simpl.
Qed.

(** ** Soundness: what has been consumed is the output's code and the bits held *)

Lemma length_bits_of n c : length (bits_of n c) = n.
Proof. revert c. induction n; intros c; simpl; [done|]. rewrite length_app, IHn. simpl. lia. Qed.

Lemma bits_of_shift n code bit :
  0 ≤ bit < 2 → bits_of (S n) (2 * code + bit) = bits_of n code ++ [bit].
Proof.
  intros Hbit. simpl. f_equal.
  - f_equal. rewrite Z.shiftr_div_pow2 by lia. change (2 ^ 1) with 2.
    rewrite Z.mul_comm, Z.add_comm, Z.div_add, Z.div_small by lia. lia.
  - f_equal. change 1 with (Z.ones 1). rewrite Z.land_ones by lia. change (2 ^ 1) with 2.
    rewrite Z.mul_comm, Z.add_comm, Z.mod_add, Z.mod_small by lia. done.
Qed.

Lemma bits_of_ones n : bits_of n (Z.shiftl 1 (Z.of_nat n) - 1) = replicate n 1.
Proof.
  induction n as [|n IH]; [done|].
  replace (Z.shiftl 1 (Z.of_nat (S n)) - 1) with (2 * (Z.shiftl 1 (Z.of_nat n) - 1) + 1).
  - rewrite bits_of_shift, IH by lia. by rewrite <- replicate_S_end.
  - rewrite !Z.shiftl_1_l, Nat2Z.inj_succ, Z.pow_succ_r by lia. lia.
Qed.

Definition decode_inv (consumed : list Z) (st : locals) : Prop :=
  let '(code, bits, out) := st in
  consumed = huff_bits out ++ bits_of bits code ∧
  0 ≤ code < 2 ^ Z.of_nat bits ∧ (bits ≤ MAX_CODE_BITS)%nat.

Lemma huff_bits_snoc s x : huff_bits (s ++ [x]) = huff_bits s ++ symbol_bits x.
Proof. unfold huff_bits. rewrite map_app, concat_app. simpl. by rewrite app_nil_r. Qed.

Lemma decode_bit_inv consumed bit st st' :
  0 ≤ bit < 2 → decode_inv consumed st → decode_bit table st bit = Ok st' →
  decode_inv (consumed ++ [bit]) st'.
Proof.
  destruct st as [[code bits] out]. intros Hbit (-> & Hcode & Hbits).
  unfold decode_bit.
  assert (Z.lor (shl 32 code 1) bit = 2 * code + bit) as ->.
  { assert (2 ^ Z.of_nat bits ≤ 2 ^ 30).
    { apply Z.pow_le_mono_r; unfold MAX_CODE_BITS in *; lia. }
    unfold shl. rewrite wrap_id by (unfold is_uint; rewrite Z.shiftl_mul_pow2; lia).
    rewrite lor_add_low by lia. lia. }
  case_decide as Hmax; [done|].
  assert (0 ≤ 2 * code + bit < 2 ^ Z.of_nat (S bits)) as Hnew.
  { rewrite Nat2Z.inj_succ, Z.pow_succ_r by lia. lia. }
  destruct (_ && _) eqn:Hoff.
  - apply andb_true_iff in Hoff as [H0 H1]. apply Z.leb_le in H0. apply Z.ltb_lt in H1.
    set (offset := 2 * code + bit - _) in *.
    pose proof (table_entry (S bits) offset ltac:(lia) ltac:(lia)) as He.
    unfold table_entry_ok in He. rewrite Z2Nat.id in He by lia.
    set (symbol := symbols table !!! _) in *.
    rewrite !andb_true_iff, bool_decide_eq_true, !Z.leb_le in He.
    destruct He as [[Hcodes Hlo] Hhi].
    destruct (Z.eqb_spec symbol EOS) as [|Hne]; [done|]. intros [= <-].
    unfold decode_inv. split; [|split; [simpl; lia|lia]].
    rewrite huff_bits_snoc, <- !app_assoc. f_equal. simpl bits_of.
    rewrite app_nil_r. unfold symbol_bits.
    rewrite u8_as_u8, wrap_id by (unfold is_uint, EOS in *; lia).
    rewrite Hcodes. replace (_ + offset) with (2 * code + bit) by lia.
    by rewrite bits_of_shift.
  - intros [= <-]. unfold decode_inv. split; [|split; [done|lia]].
    by rewrite bits_of_shift, app_assoc.
Qed.

Lemma byte_bits_range x bit : bit ∈ byte_bits x → 0 ≤ bit < 2.
Proof.
  intros (i & -> & _)%list_elem_of_fmap.
  change 1 with (Z.ones 1). rewrite Z.land_ones by lia. apply Z.mod_pos_bound. lia.
Qed.

Lemma wire_bits_range e bit : bit ∈ wire_bits e → 0 ≤ bit < 2.
Proof.
  unfold wire_bits. induction e as [|x e IH]; cbn [map concat]; [by intros ?%elem_of_nil|].
  intros [H|H]%elem_of_app; eauto using byte_bits_range.
Qed.

Lemma decode_bits_inv l consumed st st' :
  (∀ bit, bit ∈ l → 0 ≤ bit < 2) → decode_inv consumed st →
  try_fold (decode_bit table) l st = Ok st' → decode_inv (consumed ++ l) st'.
Proof.
  revert consumed st. induction l as [|bit l IH]; intros consumed st Hl Hinv; simpl.
  { intros [= <-]. by rewrite app_nil_r. }
  destruct (decode_bit table st bit) as [st1|] eqn:E; simpl; [|done]. intros Hrest.
  rewrite (cons_middle bit consumed l), app_assoc. eapply IH; [| |done].
  - intros b Hb. apply Hl. by right.
  - eapply decode_bit_inv; [|done|done]. apply Hl. by left.
Qed.

Lemma decode_spec encoded s :
  decode encoded = Ok s ↔
  ∃ k, (k < 8)%nat ∧ wire_bits encoded = huff_bits s ++ replicate k 1.
Proof.
  unfold decode. rewrite decode_bytes_bits. split.
  - destruct (try_fold _ (wire_bits encoded) _) as [[[code bits] out]|] eqn:E; [|done].
    cbn [result_bind].
    eapply (decode_bits_inv _ []) in E as (Hw & Hc & _);
      [|apply wire_bits_range|unfold decode_inv; simpl; split; [done|lia]].
    case_decide; [done|].
    destruct (Z.eqb_spec code (Z.shiftl 1 (Z.of_nat bits) - 1)) as [->|]; simpl; [|done].
    intros [= ->]. exists bits. split; [lia|]. by rewrite bits_of_ones in Hw.
  - intros (k & Hk & ->). rewrite try_fold_app, huff_bits_decode. cbn [result_bind].
    rewrite padding_decode by done. cbn [result_bind].
    rewrite decide_False by lia. by rewrite Z.eqb_refl.
Qed.

(** ** Every string has an encoding *)

(** Packs bits into bytes, eight at a time. *)
Definition byte_of_bits (l : list Z) : byte := as_u8 (foldl (λ a bit, 2 * a + bit) 0 l).

Lemma byte_bits_of_bits l :
  length l = 8%nat → Forall (λ bit, 0 ≤ bit < 2) l → byte_bits (byte_of_bits l) = l.
Proof.
  intros Hlen Hl. do 8 (destruct l as [|? l]; [done|]). destruct l; [|done].
  rewrite !Forall_cons in Hl. destruct_and!.
  repeat match goal with
  | Hlo : 0 ≤ ?x, Hhi : ?x < 2 |- _ =>
      let H' := fresh in
      assert (x = 0 ∨ x = 1) as H' by lia; clear Hlo Hhi; destruct H'; subst x
  end; vm_compute; reflexivity.
Qed.

Lemma wire_bits_pack n l :
  length l = (8 * n)%nat → Forall (λ bit, 0 ≤ bit < 2) l →
  ∃ e, length e = n ∧ wire_bits e = l.
Proof.
  revert l. induction n as [|n IH]; intros l Hlen Hl.
  { exists []. destruct l; [done|simpl in Hlen; lia]. }
  destruct (IH (drop 8 l)) as (e & He & Hw).
  - rewrite length_drop. lia.
  - by apply Forall_drop.
  - exists (byte_of_bits (take 8 l) :: e). split; [simpl; lia|].
    unfold wire_bits in *. cbn [map concat]. rewrite Hw, byte_bits_of_bits.
    + apply take_drop.
    + rewrite length_take. lia.
    + by apply Forall_take.
Qed.

Lemma bits_of_range n c : Forall (λ bit, 0 ≤ bit < 2) (bits_of n c).
Proof.
  revert c. induction n as [|n IH]; intros c; simpl; [constructor|].
  apply Forall_app. split; [apply IH|]. constructor; [|constructor].
  change 1 with (Z.ones 1). rewrite Z.land_ones by lia. apply Z.mod_pos_bound. lia.
Qed.

Lemma huff_bits_range s : Forall (λ bit, 0 ≤ bit < 2) (huff_bits s).
Proof.
  unfold huff_bits. induction s as [|x s IH]; simpl; [constructor|].
  apply Forall_app. split; [|done]. unfold symbol_bits. case_match; [|constructor].
  case_match. apply bits_of_range.
Qed.

Lemma symbol_bits_length x : (5 ≤ length (symbol_bits x) ≤ 30)%nat.
Proof.
  unfold symbol_bits. pose proof (u8_range x).
  destruct (CODES !! Z.to_nat (u8 x)) as [[c n]|] eqn:E.
  - rewrite length_bits_of. pose proof codes_short as H0. rewrite forallb_forall in H0.
    specialize (H0 (c, n)). apply list_elem_of_lookup_2, list_elem_of_In in E.
    apply H0 in E. by apply bool_decide_eq_true in E.
  - apply lookup_ge_None in E. change (length CODES) with 257%nat in E. lia.
Qed.

Lemma huff_bits_length s :
  (5 * length s ≤ length (huff_bits s) ≤ 30 * length s)%nat.
Proof.
  unfold huff_bits. induction s as [|x s IH]; simpl; [lia|].
  rewrite length_app. pose proof (symbol_bits_length x). lia.
Qed.

Lemma length_wire_bits e : length (wire_bits e) = (8 * length e)%nat.
Proof.
  unfold wire_bits. induction e as [|x e IH]; [done|].
  cbn [map concat]. rewrite length_app, IH. unfold byte_bits. rewrite length_map. simpl. lia.
Qed.

(** Every failure of this module is the same stream error. *)
Lemma decode_bit_err t st bit v :
  decode_bit t st bit = Err v → ∃ d, v = failed d.
Proof.
  destruct st as [[c n] o]. unfold decode_bit. repeat case_match; naive_solver.
Qed.

Lemma decode_err encoded v : decode encoded = Err v → ∃ d, v = failed d.
Proof.
  unfold decode. rewrite decode_bytes_bits.
  assert (∀ l st, try_fold (decode_bit table) l st = Err v → ∃ d, v = failed d) as Hfold.
  { intros l. induction l as [|x l IH]; intros st; cbn [try_fold]; [done|].
    destruct (decode_bit table st x) eqn:E; cbn [result_bind]; [apply IH|].
    intros [= <-]. by eapply decode_bit_err. }
  destruct (try_fold _ _ _) as [[[c n] o]|] eqn:E; cbn [result_bind].
  - repeat case_match; naive_solver.
  - intros [= <-]. by eapply Hfold.
Qed.

(** ** Properties *)

(** The decoder implements the code table.  A literal decodes to a string
    exactly when its bits are the table's codes of the string's bytes, in order,
    followed by fewer than eight one-bits; anything else (an EOS, a padding that
    is too long or not all ones, bits no code matches) is refused with the one
    stream error QPACK_DECOMPRESSION_FAILED. *)
Theorem huffman_decode_exact encoded :
  (∀ s, decode encoded = Ok s ↔
     ∃ k, (k < 8)%nat ∧ wire_bits encoded = huff_bits s ++ replicate k 1) ∧
  (∀ v, decode encoded = Err v →
     code v = QPACK_DECOMPRESSION_FAILED ∧ is_connection_error v = false ∧
     is_field_section_too_large v = false).
Proof.
  split; [intros s; apply decode_spec|].
  intros v (d & ->)%decode_err. done.
Qed.

(** Every byte string has an encoding the decoder reads back, and what is
    decoded is tied to what arrived: the output never outgrows the capacity the
    source reserves for it ([encoded.len() * 8 / 5 + 1]), and a literal is never
    more than 3.75 times as long as the string it carries, padding aside. *)
Theorem huffman_roundtrip :
  (∀ s, ∃ encoded, decode encoded = Ok s) ∧
  (∀ encoded s, decode encoded = Ok s →
     (length s < length encoded * 8 / 5 + 1 ∧ 8 * length encoded < 30 * length s + 8)%nat).
Proof.
  split.
  - intros s. set (n := length (huff_bits s)). set (m := ((n + 7) / 8)%nat).
    assert (n ≤ 8 * m ∧ 8 * m < n + 8)%nat as Hm.
    { unfold m. pose proof (Nat.div_mod (n + 7) 8 ltac:(lia)).
      pose proof (Nat.mod_upper_bound (n + 7) 8 ltac:(lia)). lia. }
    destruct (wire_bits_pack m (huff_bits s ++ replicate (8 * m - n) 1)) as (e & He & Hw).
    { rewrite length_app, length_replicate. unfold n in *. lia. }
    { apply Forall_app. split; [apply huff_bits_range|]. apply Forall_replicate. lia. }
    exists e. apply decode_spec. exists (8 * m - n)%nat. split; [lia|done].
  - intros e s (k & Hk & Hw)%decode_spec. apply (f_equal length) in Hw.
    rewrite length_wire_bits, length_app, length_replicate in Hw.
    pose proof (huff_bits_length s). split; [|lia].
    assert (length s ≤ length e * 8 / 5)%nat; [|lia]. apply Nat.div_le_lower_bound; lia.
Qed.
