(* ===== verification/Qpack.v ===== *)
(** * QPACK field sections (src/src/h3/qpack.rs)

    Prefixed integers and string literals ([take_int], [put_int], [take_string],
    [put_string]), the static table ([STATIC_TABLE], [find], [static_entry]), and
    the field section codec ([decode], [encode]).  A [Reader] is the buffer it
    has left. *)

From S2P Require Import Prelude H3Error Huffman.

#[local] Open Scope string_scope.
#[local] Open Scope list_scope.
#[local] Open Scope Z_scope.

Definition FIELD_OVERHEAD : Z := 32.

Record Field := mkField { name : bytes; value : bytes }.

#[export] Instance Field_eq_dec : EqDecision Field.
Proof. solve_decision. Defined.

Definition field_size (f : Field) : Z := blen (name f) + blen (value f) + FIELD_OVERHEAD.

Definition STATIC_TABLE : list (bytes * bytes) := [
  (lit ":authority", lit "");
  (lit ":path", lit "/");
  (lit "age", lit "0");
  (lit "content-disposition", lit "");
  (lit "content-length", lit "0");
  (lit "cookie", lit "");
  (lit "date", lit "");
  (lit "etag", lit "");
  (lit "if-modified-since", lit "");
  (lit "if-none-match", lit "");
  (lit "last-modified", lit "");
  (lit "link", lit "");
  (lit "location", lit "");
  (lit "referer", lit "");
  (lit "set-cookie", lit "");
  (lit ":method", lit "CONNECT");
  (lit ":method", lit "DELETE");
  (lit ":method", lit "GET");
  (lit ":method", lit "HEAD");
  (lit ":method", lit "OPTIONS");
  (lit ":method", lit "POST");
  (lit ":method", lit "PUT");
  (lit ":scheme", lit "http");
  (lit ":scheme", lit "https");
  (lit ":status", lit "103");
  (lit ":status", lit "200");
  (lit ":status", lit "304");
  (lit ":status", lit "404");
  (lit ":status", lit "503");
  (lit "accept", lit "*/*");
  (lit "accept", lit "application/dns-message");
  (lit "accept-encoding", lit "gzip, deflate, br");
  (lit "accept-ranges", lit "bytes");
  (lit "access-control-allow-headers", lit "cache-control");
  (lit "access-control-allow-headers", lit "content-type");
  (lit "access-control-allow-origin", lit "*");
  (lit "cache-control", lit "max-age=0");
  (lit "cache-control", lit "max-age=2592000");
  (lit "cache-control", lit "max-age=604800");
  (lit "cache-control", lit "no-cache");
  (lit "cache-control", lit "no-store");
  (lit "cache-control", lit "public, max-age=31536000");
  (lit "content-encoding", lit "br");
  (lit "content-encoding", lit "gzip");
  (lit "content-type", lit "application/dns-message");
  (lit "content-type", lit "application/javascript");
  (lit "content-type", lit "application/json");
  (lit "content-type", lit "application/x-www-form-urlencoded");
  (lit "content-type", lit "image/gif");
  (lit "content-type", lit "image/jpeg");
  (lit "content-type", lit "image/png");
  (lit "content-type", lit "text/css");
  (lit "content-type", lit "text/html; charset=utf-8");
  (lit "content-type", lit "text/plain");
  (lit "content-type", lit "text/plain;charset=utf-8");
  (lit "range", lit "bytes=0-");
  (lit "strict-transport-security", lit "max-age=31536000");
  (lit "strict-transport-security", lit "max-age=31536000; includesubdomains");
  (lit "strict-transport-security", lit "max-age=31536000; includesubdomains; preload");
  (lit "vary", lit "accept-encoding");
  (lit "vary", lit "origin");
  (lit "x-content-type-options", lit "nosniff");
  (lit "x-xss-protection", lit "1; mode=block");
  (lit ":status", lit "100");
  (lit ":status", lit "204");
  (lit ":status", lit "206");
  (lit ":status", lit "302");
  (lit ":status", lit "400");
  (lit ":status", lit "403");
  (lit ":status", lit "421");
  (lit ":status", lit "425");
  (lit ":status", lit "500");
  (lit "accept-language", lit "");
  (lit "access-control-allow-credentials", lit "FALSE");
  (lit "access-control-allow-credentials", lit "TRUE");
  (lit "access-control-allow-headers", lit "*");
  (lit "access-control-allow-methods", lit "get");
  (lit "access-control-allow-methods", lit "get, post, options");
  (lit "access-control-allow-methods", lit "options");
  (lit "access-control-expose-headers", lit "content-length");
  (lit "access-control-request-headers", lit "content-type");
  (lit "access-control-request-method", lit "get");
  (lit "access-control-request-method", lit "post");
  (lit "alt-svc", lit "clear");
  (lit "authorization", lit "");
  (lit "content-security-policy", lit "script-src 'none'; object-src 'none'; base-uri 'none'");
  (lit "early-data", lit "1");
  (lit "expect-ct", lit "");
  (lit "forwarded", lit "");
  (lit "if-range", lit "");
  (lit "origin", lit "");
  (lit "purpose", lit "prefetch");
  (lit "server", lit "");
  (lit "timing-allow-origin", lit "*");
  (lit "upgrade-insecure-requests", lit "1");
  (lit "user-agent", lit "");
  (lit "x-forwarded-for", lit "");
  (lit "x-frame-options", lit "deny");
  (lit "x-frame-options", lit "sameorigin")].

(** ** Violations *)

Definition connection_error (detail : string) : Violation :=
  connection_violation QPACK_DECOMPRESSION_FAILED detail.

Definition stream_error (detail : string) : Violation :=
  stream_violation QPACK_DECOMPRESSION_FAILED detail.

Definition truncated : Violation :=
  stream_error "the field section ended mid-representation".

Definition dynamic_reference : Violation :=
  connection_error "a dynamic table reference with a zero table capacity".

Definition static_entry (index : Z) : result (bytes * bytes) Violation :=
  ok_or (if index <? blen STATIC_TABLE then STATIC_TABLE !! Z.to_nat index else None)
    (connection_error "static table index out of range").

(** ** Reading *)

(** [u64::checked_shl] and [u64::checked_add]. *)
Definition checked_shl (x shift : Z) : option Z :=
  if shift <? 64 then Some (shl 64 x shift) else None.

Definition checked_add (x y : Z) : option Z :=
  if x + y <=? u64_max then Some (x + y) else None.

(** The chain of checks on one continuation byte's seven bits. *)
Definition add_continuation (value low shift : Z) : option Z :=
  added ← checked_shl low shift;
  added ← (if Z.shiftr added shift =? low then Some added else None);
  checked_add value added.

(** The [loop] of [take_int]: continuation bytes, seven bits each. *)
Fixpoint take_int_cont (value shift : Z) (buf : bytes) : result (Z * bytes) Violation :=
  match buf with
  | [] => Err truncated
  | byte :: rest =>
      let? value := ok_or (add_continuation value (Z.land (u8 byte) 0x7f) shift)
        (stream_error "prefixed integer overflows") in
      if Z.land (u8 byte) 0x80 =? 0 then Ok (value, rest)
      else take_int_cont value (shift + 7) rest
  end.

(** [Reader::take_int]: the flags above the prefix, the value, and what is left. *)
Definition take_int (prefix_bits : Z) (buf : bytes) : result (Z * Z * bytes) Violation :=
  match buf with
  | [] => Err truncated
  | first :: rest =>
      let mask := wrap 8 (shl 16 1 prefix_bits - 1) in
      let flags := wrap 8 (Z.shiftr (u8 first) prefix_bits) in
      let value := Z.land (u8 first) mask in
      if value <? mask then Ok (flags, value, rest)
      else
        let? (value, rest) := take_int_cont value 0 rest in
        Ok (flags, value, rest)
  end.

Definition take_string (prefix_bits : Z) (buf : bytes) : result (bytes * bytes) Violation :=
  let? (flags, length, buf) := take_int prefix_bits buf in
  if blen buf <? length then Err truncated
  else
    let literal := take (Z.to_nat length) buf in
    let rest := drop (Z.to_nat length) buf in
    if Z.land flags 1 =? 0 then Ok (literal, rest)
    else let? s := Huffman.decode literal in Ok (s, rest).

(** One field line, [first] being the byte the reader is at. *)
Definition decode_line (first : byte) (buf : bytes) : result (Field * bytes) Violation :=
  if negb (Z.land (u8 first) 128 =? 0) then
    let? (_, index, buf) := take_int 6 buf in
    if Z.land (u8 first) 64 =? 0 then Err dynamic_reference
    else
      let? (name, value) := static_entry index in
      Ok (mkField name value, buf)
  else if Z.land (u8 first) 192 =? 64 then
    let? (_, index, buf) := take_int 4 buf in
    if Z.land (u8 first) 16 =? 0 then Err dynamic_reference
    else
      let? (name, _) := static_entry index in
      let? (value, buf) := take_string 7 buf in
      Ok (mkField name value, buf)
  else if Z.land (u8 first) 224 =? 32 then
    let? (name, buf) := take_string 3 buf in
    let? (value, buf) := take_string 7 buf in
    Ok (mkField name value, buf)
  else Err dynamic_reference.

Definition section_too_large (max_section_size : Z) : Violation :=
  field_section_too_large
    ("field section exceeds the advertised " +:+ pretty max_section_size +:+ " bytes").

(** The [while let] of [decode]: the reader, the fields so far and their size.  The size
    is a [u64] in the source: it is at most [max_section_size], the advertised limit,
    before every addition, and a field is as long as what the block in memory spells, so
    the sum is far below [2^64] and is kept as an integer here. *)
Definition decode_lines_step (max_section_size : Z) (st : bytes * list Field * Z)
    : (bytes * list Field * Z) + result (list Field) Violation :=
  let '(buf, fields, size) := st in
  match buf with
  | [] => inr (Ok fields)
  | first :: _ =>
      match decode_line first buf with
      | Err v => inr (Err v)
      | Ok (field, buf) =>
          let size := size + field_size field in
          if max_section_size <? size then inr (Err (section_too_large max_section_size))
          else inl (buf, fields ++ [field], size)
      end
  end.

(** ** The reader consumes a prefix *)

(** [reads f buf x rest]: [f] reads [x] from the front of [buf], leaving [rest],
    and what it reads does not depend on what follows. *)
Definition reads {A} (f : bytes → result (A * bytes) Violation) (buf : bytes) (x : A)
    (rest : bytes) : Prop :=
  ∃ w, buf = w ++ rest ∧ (0 < length w)%nat ∧ ∀ more, f (w ++ more) = Ok (x, more).

Lemma reads_shrinks {A} f buf (x : A) rest :
  reads f buf x rest → (length rest < length buf)%nat.
Proof. intros (w & -> & Hw & _). rewrite length_app. lia. Qed.

Lemma take_int_cont_reads v0 shift buf v rest :
  take_int_cont v0 shift buf = Ok (v, rest) → reads (take_int_cont v0 shift) buf v rest.
Proof.
  revert v0 shift. induction buf as [|x buf IH]; intros v0 shift; [done|].
  cbn [take_int_cont]. intros (v1 & H1 & H2)%result_bind_ok.
  destruct (Z.land (u8 x) 0x80 =? 0) eqn:Elast.
  - injection H2 as -> ->. exists [x]. split; [done|]. split; [simpl; lia|].
    intros more. cbn [app take_int_cont]. rewrite H1. cbn [result_bind]. by rewrite Elast.
  - destruct (IH _ _ H2) as (w & -> & Hw & Hmore). exists (x :: w).
    split; [done|]. split; [simpl; lia|]. intros more. cbn [app take_int_cont].
    rewrite H1. cbn [result_bind]. rewrite Elast. apply Hmore.
Qed.

Lemma take_int_reads p buf x rest :
  take_int p buf = Ok (x, rest) → reads (take_int p) buf x rest.
Proof.
  destruct buf as [|b buf]; [done|]. unfold take_int. destruct (_ <? _) eqn:E.
  - intros [= <- <-]. exists [b]. split; [done|]. split; [simpl; lia|].
    intros more. cbn [app]. by rewrite E.
  - intros ([v r] & H1 & [= <- <-])%result_bind_ok.
    apply take_int_cont_reads in H1 as (w & -> & Hw & Hmore).
    exists (b :: w). split; [done|]. split; [simpl; lia|].
    intros more. cbn [app]. rewrite E, Hmore. done.
Qed.

Lemma take_string_reads p buf x rest :
  take_string p buf = Ok (x, rest) → reads (take_string p) buf x rest.
Proof.
  unfold take_string. intros ([[flags len] b1] & H1 & H2)%result_bind_ok.
  apply take_int_reads in H1 as (w & -> & Hw & Hmore).
  destruct (Z.ltb_spec (blen b1) len) as [|Hlen]; [done|].
  set (n := Z.to_nat len) in *.
  assert (n ≤ length b1)%nat as Hn by (unfold blen in Hlen; lia).
  assert (rest = drop n b1 ∧
    (if Z.land flags 1 =? 0 then Ok (take n b1) else Huffman.decode (take n b1)) = Ok x)
    as [-> Hx].
  { destruct (Z.land flags 1 =? 0); [naive_solver|].
    apply result_bind_ok in H2 as (? & ? & ?). naive_solver. }
  exists (w ++ take n b1). split; [by rewrite <- app_assoc, take_drop|].
  split; [rewrite length_app; lia|]. intros more. rewrite <- app_assoc, Hmore.
  cbn [result_bind]. destruct (Z.ltb_spec (blen (take n b1 ++ more)) len) as [Hlt|_].
  { unfold blen in Hlt. rewrite length_app, length_take in Hlt. lia. }
  fold n. rewrite take_app_le, take_ge, drop_app_le, drop_ge by (rewrite length_take; lia).
  destruct (Z.land flags 1 =? 0); [naive_solver|]. by rewrite Hx.
Qed.

Lemma decode_line_reads first buf x rest :
  buf = first :: tail buf → decode_line first buf = Ok (x, rest) →
  reads (decode_line first) buf x rest ∧
  ∃ w, buf = first :: w ++ rest ∧ ∀ more, decode_line first (first :: w ++ more) = Ok (x, more).
Proof.
  intros Hbuf Hdec.
  assert (reads (decode_line first) buf x rest) as Hr; [|split; [done|]].
  - clear Hbuf. revert Hdec. unfold decode_line.
    destruct (negb _); [|destruct (_ =? 64); [|destruct (_ =? 32); [|done]]].
    + intros ([[fl ix] b1] & H1 & H2)%result_bind_ok.
      apply take_int_reads in H1 as (w & -> & Hw & Hmore).
      destruct (_ =? 0) eqn:E; [done|].
      apply result_bind_ok in H2 as ([n v] & H2 & [= <- <-]).
      exists w. split; [done|]. split; [done|]. intros more. rewrite Hmore. cbn [result_bind].
      by rewrite H2.
    + intros ([[fl ix] b1] & H1 & H2)%result_bind_ok.
      apply take_int_reads in H1 as (w & -> & Hw & Hmore).
      destruct (_ =? 0) eqn:E; [done|].
      apply result_bind_ok in H2 as ([n v] & H2 & H3).
      apply result_bind_ok in H3 as ([v' b2] & H3 & [= <- <-]).
      apply take_string_reads in H3 as (w2 & -> & Hw2 & Hmore2).
      exists (w ++ w2). split; [by rewrite app_assoc|]. split; [rewrite length_app; lia|].
      intros more. rewrite <- app_assoc, Hmore. cbn [result_bind].
      rewrite H2. cbn [result_bind]. by rewrite Hmore2.
    + intros ([n b1] & H1 & H2)%result_bind_ok.
      apply result_bind_ok in H2 as ([v b2] & H2 & [= <- <-]).
      apply take_string_reads in H1 as (w & -> & Hw & Hmore).
      apply take_string_reads in H2 as (w2 & -> & Hw2 & Hmore2).
      exists (w ++ w2). split; [by rewrite app_assoc|]. split; [rewrite length_app; lia|].
      intros more. rewrite <- app_assoc, Hmore. cbn [result_bind]. by rewrite Hmore2.
  - destruct Hr as (w & -> & Hw & Hmore). destruct w as [|y w]; [simpl in Hw; lia|].
    simpl in Hbuf. injection Hbuf as ->. exists w. split; [done|]. intros more.
    apply (Hmore more).
Qed.

#[export] Program Instance decode_lines_loop max : Loop (decode_lines_step max) :=
  {| loop_measure st := length st.1.1 |}.
Next Obligation.
  intros max [[buf fields] size] s'. unfold decode_lines_step.
  destruct buf as [|first buf]; [done|].
  destruct (decode_line first (first :: buf)) as [[f rest]|] eqn:E; [|done].
  case_match; [done|]. intros [= <-]. cbn [fst].
  apply (decode_line_reads first (first :: buf)) in E as [E _]; [|done].
  by eapply reads_shrinks.
Qed.

Definition decode (block : bytes) (max_section_size : Z) : result (list Field) Violation :=
  let? (_, required_insert_count, buf) := take_int 8 block in
  if negb (required_insert_count =? 0) then
    Err (connection_error "a non-zero Required Insert Count with no dynamic table")
  else
    let? (flags, _delta_base, buf) := take_int 7 buf in
    if Z.land flags 1 =? 1 then
      Err (connection_error "a Sign bit of 1 with a zero Required Insert Count")
    else run (decode_lines_step max_section_size) (buf, [], 0).

(** ** Writing *)

(** The [while remaining >= 0x80] of [put_int]. *)
Definition put_int_step (st : bytes * Z) : (bytes * Z) + bytes :=
  let '(out, remaining) := st in
  if 0x80 <=? remaining then
    inl (out ++ [as_u8 (Z.lor (Z.land (wrap 8 remaining) 0x7f) 0x80)], Z.shiftr remaining 7)
  else inr (out ++ [as_u8 remaining]).

#[export] Program Instance put_int_loop : Loop put_int_step :=
  {| loop_measure st := Z.to_nat (Z.log2 st.2) |}.
Next Obligation.
  intros [out r] s'. unfold put_int_step. destruct (Z.leb_spec 0x80 r); [|done].
  intros [= <-]. simpl. rewrite Z.log2_shiftr by lia.
  pose proof (Z.log2_le_mono 0x80 r ltac:(lia)) as Hl. change (Z.log2 0x80) with 7 in Hl. lia.
Qed.

Definition put_int (out : bytes) (prefix_bits flags value : Z) : bytes :=
  let mask := shl 16 1 prefix_bits - 1 in
  let flags := Z.land (shl 16 flags prefix_bits) 0xff in
  if value <? mask then out ++ [as_u8 (Z.lor flags (wrap 8 value))]
  else run put_int_step (out ++ [as_u8 (Z.lor flags (wrap 8 mask))], value - mask).

Definition put_string (out : bytes) (prefix_bits flags : Z) (value : bytes) : bytes :=
  put_int out prefix_bits (shl 8 flags 1) (blen value) ++ value.

Inductive Found :=
  | Entry (index : Z)
  | Name (index : Z)
  | Nothing.

(** The loop of [find], with the first entry that matches the name alone. *)
Fixpoint find_from (index : Z) (table : list (bytes * bytes)) (name_only : option Z)
    (name value : bytes) : Found :=
  match table with
  | [] => match name_only with Some i => Name i | None => Nothing end
  | (entry_name, entry_value) :: table =>
      if decide (entry_name ≠ name) then find_from (index + 1) table name_only name value
      else if decide (entry_value = value) then Entry index
      else
        let name_only := match name_only with Some i => Some i | None => Some index end in
        find_from (index + 1) table name_only name value
  end.

Definition find (name value : bytes) : Found := find_from 0 STATIC_TABLE None name value.

Definition encode_line (out : bytes) (f : Field) : bytes :=
  match find (name f) (value f) with
  | Entry index => put_int out 6 3 index
  | Name index => put_string (put_int out 4 5 index) 7 0 (value f)
  | Nothing => put_string (put_string out 3 2 (name f)) 7 0 (value f)
  end.

Definition encode (out : bytes) (fields : list Field) : bytes :=
  foldl encode_line (out ++ [as_u8 0] ++ [as_u8 0]) fields.

(** ** Prefixed integers *)

Lemma add_continuation_spec value low shift v :
  0 ≤ value → 0 ≤ low < 128 → 0 ≤ shift →
  add_continuation value low shift = Some v ↔
  shift < 64 ∧ v = value + low * 2 ^ shift ∧ v ≤ u64_max.
Proof.
  intros Hv Hl Hs. unfold add_continuation, checked_shl.
  destruct (Z.ltb_spec shift 64) as [Hlt|]; cbn [mbind option_bind]; [|naive_solver lia].
  set (p := 2 ^ shift). assert (0 < p) by (apply Z.pow_pos_nonneg; lia).
  set (q := 2 ^ (64 - shift)). assert (0 < q) by (apply Z.pow_pos_nonneg; lia).
  assert (2 ^ 64 = q * p) as H64 by (unfold p, q; rewrite <- Z.pow_add_r by lia; f_equal; lia).
  assert (shl 64 low shift = (low mod q) * p) as ->.
  { unfold shl, wrap. rewrite Z.shiftl_mul_pow2 by lia. fold p. rewrite H64.
    by rewrite Z.mul_mod_distr_r by lia. }
  rewrite Z.shiftr_div_pow2 by lia. fold p. rewrite Z.div_mul by lia.
  pose proof (Z.mod_pos_bound low q ltac:(lia)) as Hmod.
  assert (u64_max = q * p - 1) as Hmax by (unfold u64_max; lia).
  destruct (Z.eqb_spec (low mod q) low) as [->|Hne]; cbn [mbind option_bind].
  - unfold checked_add. destruct (Z.leb_spec (value + low * p) u64_max); naive_solver lia.
  - split; [done|]. intros (_ & -> & Hle). exfalso. apply Hne, Z.mod_small.
    split; [lia|]. apply Z.nle_gt. intros Hge. nia.
Qed.

Lemma low_bits_mod x : Z.land x 0x7f = x mod 128.
Proof. change 0x7f with (Z.ones 7). by rewrite Z.land_ones by lia. Qed.

Lemma high_bit_clear x : 0 ≤ x < 256 → (Z.land x 0x80 =? 0) = (x <? 128).
Proof.
  intros Hx. apply eqb_prop.
  by apply (forall_below 256 (λ x, eqb (Z.land x 0x80 =? 0) (x <? 128))).
Qed.

(** The value of a run of continuation bytes, as RFC 7541 §5.1 defines it. *)
Fixpoint cont_value (w : bytes) : Z :=
  match w with
  | [] => 0
  | x :: w => u8 x mod 128 + 128 * cont_value w
  end.

Lemma cont_value_nonneg w : 0 ≤ cont_value w.
Proof. induction w; simpl; [lia|]. pose proof (Z.mod_pos_bound (u8 a) 128). lia. Qed.

Lemma take_int_cont_value v0 shift buf v rest :
  0 ≤ v0 → 0 ≤ shift → take_int_cont v0 shift buf = Ok (v, rest) →
  ∃ w, buf = w ++ rest ∧ v = v0 + 2 ^ shift * cont_value w ∧ v ≤ u64_max ∧
    7 * blen w + shift < 64 + 7.
Proof.
  revert v0 shift. induction buf as [|x buf IH]; intros v0 shift Hv0 Hs; [done|].
  cbn [take_int_cont]. rewrite low_bits_mod. intros (v1 & H1 & H2)%result_bind_ok.
  apply ok_or_ok in H1. pose proof (Z.mod_pos_bound (u8 x) 128 ltac:(lia)).
  apply add_continuation_spec in H1 as (Hlt & -> & Hmax); [|lia..].
  assert (0 < 2 ^ shift) by (apply Z.pow_pos_nonneg; lia).
  rewrite high_bit_clear in H2 by apply u8_range.
  destruct (u8 x <? 128).
  - injection H2 as <- <-. exists [x]. cbn [app cont_value]. unfold blen. simpl length.
    repeat split; lia.
  - apply IH in H2 as (w & -> & -> & Hle & Hlen); [|nia|lia].
    exists (x :: w). cbn [app cont_value]. unfold blen in *. simpl length.
    assert (2 ^ (shift + 7) = 128 * 2 ^ shift) as Hp by (rewrite Z.pow_add_r by lia; lia).
    repeat split; [|done|lia]. rewrite Hp. lia.
Qed.

(** What [put_int] appends: continuation bytes, and the whole integer. *)
Definition cont_bytes (r : Z) : bytes := run put_int_step ([], r).
Definition int_bytes (p flags v : Z) : bytes := put_int [] p flags v.

Lemma put_int_step_out out pre r :
  put_int_step (pre ++ out, r) =
  match put_int_step (out, r) with
  | inl (out', r') => inl (pre ++ out', r')
  | inr out' => inr (pre ++ out')
  end.
Proof. unfold put_int_step. case_match; by rewrite app_assoc. Qed.

Lemma run_put_int out r : run put_int_step (out, r) = out ++ cont_bytes r.
Proof.
  unfold cont_bytes. rewrite <- (app_nil_r out) at 1. generalize (@nil byte) as o.
  induction r as [r IH] using (induction_ltof1 _ (λ r, Z.to_nat (Z.log2 r))). intros o.
  rewrite (run_unfold _ (out ++ o, r)), (run_unfold _ (o, r)), put_int_step_out.
  destruct (put_int_step (o, r)) as [[o' r']|] eqn:E; [|done].
  apply IH. exact (loop_decreases (o, r) (o', r') E).
Qed.

Lemma cont_bytes_unfold r :
  cont_bytes r =
  if 0x80 <=? r then as_u8 (Z.lor (Z.land (wrap 8 r) 0x7f) 0x80) :: cont_bytes (Z.shiftr r 7)
  else [as_u8 r].
Proof.
  unfold cont_bytes at 1. rewrite run_unfold. unfold put_int_step at 1.
  destruct (0x80 <=? r); [|done]. by rewrite run_put_int.
Qed.

Lemma put_int_app out p flags v : put_int out p flags v = out ++ int_bytes p flags v.
Proof.
  unfold int_bytes, put_int. destruct (_ <? _); [done|].
  rewrite !run_put_int. by rewrite <- app_assoc.
Qed.

(** A continuation byte: the low seven bits of the value under a set high bit. *)
Lemma cont_byte r :
  0 ≤ r → u8 (as_u8 (Z.lor (Z.land (wrap 8 r) 0x7f) 0x80)) = r mod 128 + 128.
Proof.
  intros Hr. rewrite low_bits_mod. unfold wrap. change (2 ^ 8) with 256.
  assert ((r mod 256) mod 128 = r mod 128) as ->.
  { Z.div_mod_to_equations. lia. }
  pose proof (Z.mod_pos_bound r 128 ltac:(lia)).
  assert (Z.lor (r mod 128) 0x80 = r mod 128 + 128) as ->.
  { rewrite Z.lor_comm. etrans; [apply (lor_add_low 1 (r mod 128) 7); lia|lia]. }
  rewrite u8_as_u8, wrap_id by (unfold is_uint; lia). lia.
Qed.

Lemma take_int_cont_bytes r value shift rest :
  0 ≤ r → 0 ≤ value → 0 ≤ shift → (shift = 0 ∨ 1 ≤ r) →
  value + r * 2 ^ shift ≤ u64_max →
  take_int_cont value shift (cont_bytes r ++ rest) = Ok (value + r * 2 ^ shift, rest).
Proof.
  revert value shift.
  induction r as [r IH] using (induction_ltof1 _ Z.to_nat).
  intros value shift Hr Hv Hs Hor Hle. rewrite cont_bytes_unfold.
  assert (0 < 2 ^ shift) by (apply Z.pow_pos_nonneg; lia).
  assert (shift < 64).
  { destruct Hor as [->|H1]; [lia|]. apply Z.nle_gt. intros Hge.
    assert (2 ^ 64 ≤ 2 ^ shift) by (apply Z.pow_le_mono_r; lia). unfold u64_max in Hle. nia. }
  destruct (Z.leb_spec 0x80 r) as [Hbig|Hsmall]; cbn [app take_int_cont].
  - rewrite low_bits_mod, high_bit_clear, cont_byte by (apply u8_range || lia).
    pose proof (Z.mod_pos_bound r 128 ltac:(lia)).
    destruct (Z.ltb_spec (r mod 128 + 128) 128); [lia|].
    replace ((r mod 128 + 128) mod 128) with (r mod 128)
      by (Z.div_mod_to_equations; lia).
    pose proof (Z.div_mod r 128 ltac:(lia)) as Hdm.
    assert (1 ≤ r / 128) by (apply Z.div_le_lower_bound; lia).
    assert (add_continuation value (r mod 128) shift = Some (value + r mod 128 * 2 ^ shift)) as ->.
    { apply add_continuation_spec; [lia..|]. repeat split; nia. }
    cbn [ok_or result_bind]. rewrite Z.shiftr_div_pow2 by lia. change (2 ^ 7) with 128.
    assert (2 ^ (shift + 7) = 128 * 2 ^ shift) as Hp by (rewrite Z.pow_add_r by lia; lia).
    rewrite IH; [| unfold ltof; lia | lia | nia | lia | lia | rewrite Hp; nia].
    do 2 f_equal. rewrite Hp. nia.
  - rewrite low_bits_mod, high_bit_clear, u8_as_u8, wrap_id
      by (apply u8_range || unfold is_uint; lia).
    rewrite Z.mod_small by lia. destruct (Z.ltb_spec r 128); [|lia].
    assert (add_continuation value r shift = Some (value + r * 2 ^ shift)) as ->; [|done].
    by apply add_continuation_spec; [lia..|].
Qed.

(** The first byte of an integer: flags above the prefix, and the value or the
    full prefix below. *)
Lemma int_bytes_first p flags v :
  1 ≤ p ≤ 8 → 0 ≤ flags < 2 ^ (8 - p) → 0 ≤ v →
  let mask := 2 ^ p - 1 in
  int_bytes p flags v =
    as_u8 (flags * 2 ^ p + Z.min v mask) :: (if v <? mask then [] else cont_bytes (v - mask)).
Proof.
  intros Hp Hf Hv mask.
  assert (2 ^ p ≤ 2 ^ 8) by (apply Z.pow_le_mono_r; lia).
  assert (0 < 2 ^ p) by (apply Z.pow_pos_nonneg; lia).
  assert (2 ^ 8 = 2 ^ (8 - p) * 2 ^ p) as H8.
  { rewrite <- Z.pow_add_r by lia. f_equal. lia. }
  assert (shl 16 1 p - 1 = mask) as Hmask.
  { unfold shl, mask. rewrite Z.shiftl_1_l, wrap_id; [lia|]. unfold is_uint. lia. }
  assert (Z.land (shl 16 flags p) 0xff = Z.shiftl flags p) as Hflags.
  { change 0xff with (Z.ones 8). rewrite Z.land_ones by lia. unfold shl.
    rewrite Z.shiftl_mul_pow2 by lia.
    rewrite wrap_id by (unfold is_uint; change (2 ^ 8) with 256 in *; nia).
    apply Z.mod_small. nia. }
  assert (∀ low, 0 ≤ low ≤ mask →
    Z.lor (Z.shiftl flags p) (wrap 8 low) = flags * 2 ^ p + low) as Hlor.
  { intros low Hlow. rewrite wrap_id by (unfold is_uint, mask in *; lia).
    apply lor_add_low; unfold mask in *; lia. }
  unfold int_bytes, put_int. rewrite Hmask, Hflags.
  destruct (Z.ltb_spec v mask).
  - rewrite Hlor, Z.min_l by lia. done.
  - rewrite Hlor, Z.min_r by (unfold mask in *; lia). by rewrite run_put_int.
Qed.

Lemma take_int_bytes p flags v rest :
  1 ≤ p ≤ 8 → 0 ≤ flags < 2 ^ (8 - p) → 0 ≤ v ≤ u64_max →
  take_int p (int_bytes p flags v ++ rest) = Ok (flags, v, rest).
Proof.
  intros Hp Hf Hv. rewrite int_bytes_first by lia. cbn zeta. set (mask := 2 ^ p - 1).
  assert (2 ^ p ≤ 2 ^ 8) by (apply Z.pow_le_mono_r; lia).
  assert (2 ≤ 2 ^ p).
  { replace 2 with (2 ^ 1) at 1 by done. apply Z.pow_le_mono_r; lia. }
  assert (2 ^ 8 = 2 ^ (8 - p) * 2 ^ p) as H8.
  { rewrite <- Z.pow_add_r by lia. f_equal. lia. }
  set (low := Z.min v mask). assert (0 ≤ low < 2 ^ p) by (unfold low, mask; lia).
  cbn [app take_int].
  assert (wrap 8 (shl 16 1 p - 1) = mask) as ->.
  { unfold shl. rewrite Z.shiftl_1_l, !wrap_id; [done|..]; unfold is_uint, wrap, mask;
      rewrite ?Z.mod_small; lia. }
  rewrite u8_as_u8, (wrap_id 8 (flags * 2 ^ p + low)) by (unfold is_uint; nia).
  assert (wrap 8 (Z.shiftr (flags * 2 ^ p + low) p) = flags) as ->.
  { rewrite Z.shiftr_div_pow2 by lia. rewrite Z.add_comm, Z.div_add, Z.div_small by lia.
    apply wrap_id. unfold is_uint. nia. }
  assert (Z.land (flags * 2 ^ p + low) mask = low) as ->.
  { unfold mask. replace (2 ^ p - 1) with (Z.ones p) by (rewrite Z.ones_equiv; lia).
    rewrite Z.land_ones by lia. rewrite Z.add_comm, Z.mod_add, Z.mod_small by lia. done. }
  unfold low. destruct (Z.ltb_spec v mask) as [Hlt|Hge].
  - rewrite Z.min_l by lia. destruct (Z.ltb_spec v mask); [done|lia].
  - rewrite Z.min_r by lia. rewrite Z.ltb_irrefl.
    rewrite take_int_cont_bytes by (unfold mask in *; lia). cbn [result_bind].
    do 3 f_equal. lia.
Qed.
(** ** The grammar of a field section

    What the decoder is held to: RFC 9204's representations over a static table
    alone, with integers and strings in any of their encodings. *)

Definition is_int (p : Z) (w : bytes) (flags v : Z) : Prop := take_int p w = Ok (flags, v, []).

Inductive is_string (p : Z) : bytes → bytes → Prop :=
  | string_plain w flags s :
      is_int p w flags (blen s) → Z.land flags 1 = 0 → is_string p (w ++ s) s
  | string_huffman w flags e s :
      is_int p w flags (blen e) → Z.land flags 1 ≠ 0 → Huffman.decode e = Ok s →
      is_string p (w ++ e) s.

Inductive field_line : bytes → Field → Prop :=
  | line_indexed w index n v :
      is_int 6 w 3 index → STATIC_TABLE !! Z.to_nat index = Some (n, v) →
      field_line w (mkField n v)
  | line_name_reference w index flags n v' wv v :
      is_int 4 w flags index → flags = 5 ∨ flags = 7 →
      STATIC_TABLE !! Z.to_nat index = Some (n, v') → is_string 7 wv v →
      field_line (w ++ wv) (mkField n v)
  | line_literal first t n wv v :
      is_string 3 (first :: t) n → Z.shiftr (u8 first) 5 = 1 → is_string 7 wv v →
      field_line ((first :: t) ++ wv) (mkField n v).

Definition section_size (fields : list Field) : Z := foldr (λ f n, field_size f + n) 0 fields.

Lemma field_size_pos f : 0 < field_size f.
Proof. unfold field_size, FIELD_OVERHEAD, blen. lia. Qed.

Lemma section_size_nonneg fs : 0 ≤ section_size fs.
Proof. induction fs; simpl; [lia|]. pose proof (field_size_pos a). lia. Qed.

(** *** Reading integers and strings of the grammar *)

Lemma take_int_nonneg p buf flags v rest :
  take_int p buf = Ok (flags, v, rest) → 0 ≤ v ≤ u64_max ∧ 0 ≤ flags < 256.
Proof.
  destruct buf as [|x buf]; [done|]. unfold take_int.
  set (mask := wrap 8 _). pose proof (u8_range x).
  assert (0 ≤ mask < 256) as Hmask by (apply (wrap_uint 8); lia).
  assert (0 ≤ wrap 8 (Z.shiftr (u8 x) p) < 256) by (apply (wrap_uint 8); lia).
  assert (0 ≤ Z.land (u8 x) mask ≤ u64_max) as Hland.
  { split; [apply Z.land_nonneg; lia|]. etrans; [|unfold u64_max; instantiate (1 := 255); lia].
    destruct (decide (Z.land (u8 x) mask = 0)); [lia|].
    assert (Z.land (u8 x) mask < 2 ^ 8); [|lia].
    apply Z.log2_lt_pow2; [pose proof (proj2 (Z.land_nonneg (u8 x) mask)); lia|].
    eapply Z.le_lt_trans; [apply Z.log2_land; lia|].
    eapply Z.le_lt_trans; [apply Z.le_min_l|].
    destruct (decide (u8 x = 0)) as [->|]; [simpl; lia|]. apply Z.log2_lt_pow2; lia. }
  destruct (_ <? _); [naive_solver|].
  intros ([v1 r] & Hc & [= <- <- <-])%result_bind_ok.
  apply take_int_cont_value in Hc as (w & _ & -> & Hmax & _); [|lia..].
  pose proof (cont_value_nonneg w). lia.
Qed.

Lemma is_int_more p w flags v more :
  is_int p w flags v → take_int p (w ++ more) = Ok (flags, v, more).
Proof.
  intros (w' & Hw & _ & Hmore)%take_int_reads. rewrite app_nil_r in Hw. by subst.
Qed.

Lemma take_int_is_int p buf flags v rest :
  take_int p buf = Ok (flags, v, rest) → ∃ w, buf = w ++ rest ∧ is_int p w flags v.
Proof.
  intros (w & -> & _ & Hmore)%take_int_reads. exists w. split; [done|].
  unfold is_int. rewrite <- (app_nil_r w) at 1. apply Hmore.
Qed.

Lemma take_string_is_string p w s rest :
  is_string p w s → take_string p (w ++ rest) = Ok (s, rest).
Proof.
  intros Hw. unfold take_string.
  assert (∀ l : bytes, (blen (l ++ rest) <? blen l) = false) as Hlen.
  { intros l. apply Z.ltb_ge. rewrite blen_app. pose proof (blen_nonneg rest). lia. }
  destruct Hw as [w flags s Hi Hf|w flags e s Hi Hf Hd];
    rewrite <- app_assoc, (is_int_more _ _ _ _ _ Hi); cbn [result_bind]; rewrite Hlen;
    unfold blen; rewrite Nat2Z.id, take_app_length, drop_app_length.
  - by rewrite Hf.
  - rewrite (proj2 (Z.eqb_neq _ 0)) by done. by rewrite Hd.
Qed.

Lemma is_string_take_string p buf s rest :
  take_string p buf = Ok (s, rest) → ∃ w, buf = w ++ rest ∧ is_string p w s.
Proof.
  unfold take_string. intros ([[flags len] b1] & H1 & H2)%result_bind_ok.
  pose proof (take_int_nonneg _ _ _ _ _ H1).
  apply take_int_is_int in H1 as (w & -> & Hi).
  destruct (Z.ltb_spec (blen b1) len) as [|Hlen]; [done|].
  assert (len = blen (take (Z.to_nat len) b1)) as Hl.
  { unfold blen in *. rewrite length_take. lia. }
  set (n := Z.to_nat len) in *. clearbody n. subst len.
  exists (w ++ take n b1). destruct (Z.eqb_spec (Z.land flags 1) 0).
  - injection H2 as <- <-. rewrite <- app_assoc, take_drop. split; [done|]. by econstructor.
  - apply result_bind_ok in H2 as (s' & Hd & [= <- <-]).
    rewrite <- app_assoc, take_drop. split; [done|]. by econstructor.
Qed.

(** *** Lines *)

Lemma take_int_flags p first buf flags v rest :
  take_int p (first :: buf) = Ok (flags, v, rest) → flags = wrap 8 (Z.shiftr (u8 first) p).
Proof.
  unfold take_int. destruct (_ <? _); [naive_solver|].
  intros ([v1 r] & _ & [= <- _ _])%result_bind_ok. done.
Qed.

(** The opcode tests of [decode_line], as the value of the bits above the prefix. *)
Definition opcode_check (x : Z) : bool :=
  eqb (negb (Z.land x 128 =? 0)) (2 <=? wrap 8 (Z.shiftr x 6)) &&
  (eqb (Z.land x 64 =? 0) (Z.even (wrap 8 (Z.shiftr x 6))) &&
  (eqb (Z.land x 192 =? 64) ((4 <=? wrap 8 (Z.shiftr x 4)) && (wrap 8 (Z.shiftr x 4) <=? 7)) &&
  (eqb (Z.land x 16 =? 0) (Z.even (wrap 8 (Z.shiftr x 4))) &&
  (eqb (Z.land x 224 =? 32) (Z.shiftr x 5 =? 1) &&
  ((wrap 8 (Z.shiftr x 6) <=? 3) &&
  (eqb (2 <=? wrap 8 (Z.shiftr x 6)) (8 <=? wrap 8 (Z.shiftr x 4)) &&
  (implb (Z.shiftr x 5 =? 1) (wrap 8 (Z.shiftr x 4) <=? 3)))))))).

Lemma opcodes x :
  let a := wrap 8 (Z.shiftr (u8 x) 6) in
  let b := wrap 8 (Z.shiftr (u8 x) 4) in
  (negb (Z.land (u8 x) 128 =? 0) = (2 <=? a)) ∧
  ((Z.land (u8 x) 64 =? 0) = Z.even a) ∧
  ((Z.land (u8 x) 192 =? 64) = (4 <=? b) && (b <=? 7)) ∧
  ((Z.land (u8 x) 16 =? 0) = Z.even b) ∧
  ((Z.land (u8 x) 224 =? 32) = (Z.shiftr (u8 x) 5 =? 1)) ∧
  a ≤ 3 ∧ (2 ≤ a ↔ 8 ≤ b) ∧ (Z.shiftr (u8 x) 5 = 1 → b ≤ 3).
Proof.
  intros a c. pose proof (u8_range x) as Hx.
  assert (opcode_check (u8 x) = true) as H.
  { apply (forall_below 256 opcode_check); [vm_compute; reflexivity|done]. }
  unfold opcode_check in H. fold a c in H.
  rewrite !andb_true_iff, !eqb_true_iff in H.
  destruct H as (E1 & E2 & E3 & E4 & E5 & E6 & E7 & E8).
  split_and!; [done..|lia| |].
  - destruct (Z.leb_spec 2 a), (Z.leb_spec 8 c); naive_solver lia.
  - intros E. rewrite E in E8. by apply Z.leb_le.
Qed.

Lemma static_entry_ok index e :
  0 ≤ index → static_entry index = Ok e ↔ STATIC_TABLE !! Z.to_nat index = Some e.
Proof.
  intros Hi. unfold static_entry. rewrite ok_or_ok.
  destruct (Z.ltb_spec index (blen STATIC_TABLE)) as [|Hge]; [done|].
  split; [done|]. intros Hl%lookup_lt_Some. unfold blen in Hge. lia.
Qed.

Lemma decode_line_complete first w f rest :
  field_line (first :: w) f → decode_line first (first :: w ++ rest) = Ok (f, rest).
Proof.
  pose proof (opcodes first) as Hop. cbn zeta in Hop.
  destruct Hop as (H128 & H64 & H192 & H16 & H224 & Ha & Hab & Hlit).
  intros Hf. unfold decode_line. rewrite H128, H64, H192, H16, H224.
  change (first :: w ++ rest) with ((first :: w) ++ rest).
  remember (first :: w) as fw eqn:Efw. destruct Hf as
    [w' index n v Hi Hl|w' index flags n v' wv v Hi Hfl Hl Hv|first' t n wv v Hn Hfirst Hv].
  - subst w'. pose proof (take_int_flags _ _ _ _ _ _ Hi) as Hfl.
    pose proof (take_int_nonneg _ _ _ _ _ Hi). rewrite <- Hfl. cbn [Z.leb Z.compare].
    rewrite (is_int_more _ _ _ _ _ Hi). cbn.
    by rewrite (proj2 (static_entry_ok index (n, v) ltac:(lia)) Hl).
  - destruct w' as [|x t]; [done|]. injection Efw as -> <-.
    pose proof (take_int_flags _ _ _ _ _ _ Hi) as Hb.
    pose proof (take_int_nonneg _ _ _ _ _ Hi). rewrite <- Hb in *.
    rewrite (proj2 (Z.leb_gt 2 _)) by lia. rewrite (proj2 (Z.leb_le 4 flags)) by lia.
    rewrite (proj2 (Z.leb_le flags 7)) by lia. cbn [andb].
    rewrite <- app_assoc, (is_int_more _ _ _ _ _ Hi). cbn [result_bind].
    assert (Z.even flags = false) as -> by (destruct Hfl; by subst).
    rewrite (proj2 (static_entry_ok index (n, v') ltac:(lia)) Hl). cbn [result_bind].
    by rewrite (take_string_is_string _ _ _ _ Hv).
  - injection Efw as -> <-. specialize (Hlit Hfirst).
    rewrite (proj2 (Z.leb_gt 2 _)) by lia. rewrite (proj2 (Z.leb_gt 4 _)) by lia.
    cbn [andb]. rewrite Hfirst. cbn [Z.eqb Pos.eqb].
    rewrite <- app_assoc, (take_string_is_string _ _ _ _ Hn). cbn [result_bind].
    by rewrite (take_string_is_string _ _ _ _ Hv).
Qed.

Lemma decode_line_sound first buf f rest :
  decode_line first (first :: buf) = Ok (f, rest) →
  ∃ w, first :: buf = w ++ rest ∧ field_line w f ∧ w ≠ [].
Proof.
  pose proof (opcodes first) as Hop. cbn zeta in Hop.
  destruct Hop as (H128 & H64 & H192 & H16 & H224 & Ha & Hab & _).
  unfold decode_line. rewrite H128, H64, H192, H16, H224. clear H128 H64 H192 H16 H224.
  destruct (Z.leb_spec 2 (wrap 8 (Z.shiftr (u8 first) 6))) as [H2|H2];
    [|destruct (_ && _) eqn:H47;
      [|destruct (Z.eqb_spec (Z.shiftr (u8 first) 5) 1) as [H5|]; [|done]]].
  - intros ([[fl ix] b1] & H1 & H3)%result_bind_ok.
    pose proof (take_int_nonneg _ _ _ _ _ H1).
    apply take_int_flags in H1 as Hfl. rewrite <- Hfl in *.
    destruct (Z.even fl) eqn:Ee; [done|].
    apply result_bind_ok in H3 as ([n v] & Hl & [= <- <-]).
    apply static_entry_ok in Hl; [|lia].
    apply take_int_is_int in H1 as (w & Hw & Hi). exists w. split; [done|]. split.
    + econstructor; [|done]. replace 3 with fl; [done|].
      assert (fl = 2 ∨ fl = 3) as [->| ->] by lia; done.
    + intros ->. done.
  - apply andb_true_iff in H47 as [H4 H7]. apply Z.leb_le in H4, H7.
    intros ([[fl ix] b1] & H1 & H3)%result_bind_ok.
    pose proof (take_int_nonneg _ _ _ _ _ H1).
    apply take_int_flags in H1 as Hfl. rewrite <- Hfl in *.
    destruct (Z.even fl) eqn:Ee; [done|].
    apply result_bind_ok in H3 as ([n v'] & Hl & H3).
    apply result_bind_ok in H3 as ([v b2] & Hv & [= <- <-]).
    apply static_entry_ok in Hl; [|lia].
    apply take_int_is_int in H1 as (w & Hw & Hi).
    apply is_string_take_string in Hv as (wv & -> & Hv).
    exists (w ++ wv). split; [by rewrite Hw, app_assoc|]. split.
    + econstructor; [done| |done|done].
      assert (fl = 4 ∨ fl = 5 ∨ fl = 6 ∨ fl = 7) as [->|[->|[->| ->]]] by lia; auto; done.
    + destruct w; done.
  - intros ([n b1] & Hn & H3)%result_bind_ok.
    apply result_bind_ok in H3 as ([v b2] & Hv & [= <- <-]).
    apply is_string_take_string in Hn as (wn & Hw & Hn).
    apply is_string_take_string in Hv as (wv & -> & Hv).
    destruct wn as [|x t].
    { inversion Hn as [w flags s0 Hi Hf E|w flags e s0 Hi Hf Hd E]; destruct w; done. }
    injection Hw as <- ->. exists ((first :: t) ++ wv).
    split; [by rewrite <- app_assoc|]. split; [by econstructor|done].
Qed.
(** *** Sections *)

Lemma field_line_nonempty w f : field_line w f → ∃ first t, w = first :: t.
Proof.
  intros [w' ? ? ? Hi|w' ? ? ? ? ? ? Hi|]; [..|eauto].
  - destruct w'; [done|eauto].
  - destruct w'; [done|]. simpl. eauto.
Qed.

Lemma decode_lines_spec max buf acc size fs :
  0 ≤ size ≤ max →
  run (decode_lines_step max) (buf, acc, size) = Ok fs ↔
  ∃ lines fs', buf = concat lines ∧ Forall2 field_line lines fs' ∧ fs = acc ++ fs' ∧
    size + section_size fs' ≤ max.
Proof.
  revert acc size.
  induction buf as [buf IH] using (induction_ltof1 _ length). intros acc size Hsize.
  rewrite run_unfold. unfold decode_lines_step at 1. destruct buf as [|first buf].
  { split.
    - intros [= <-]. exists [], []. simpl. rewrite app_nil_r.
      split_and!; [done|constructor|done|lia].
    - intros (lines & fs' & Hl & Hf & -> & _). destruct Hf as [|w f ws fs' Hw]; [by rewrite app_nil_r|].
      apply field_line_nonempty in Hw as (x & t & ->). done. }
  destruct (decode_line first (first :: buf)) as [[f rest]|v] eqn:E.
  - apply decode_line_sound in E as Hs. destruct Hs as (w & Hw & Hline & Hne).
    assert (length rest < length (first :: buf))%nat as Hlt.
    { rewrite Hw, length_app. destruct w; [done|]. simpl. lia. }
    pose proof (field_size_pos f).
    assert (∀ lines fs', first :: buf = concat lines → Forall2 field_line lines fs' →
      ∃ lines' fs'', fs' = f :: fs'' ∧ rest = concat lines' ∧ Forall2 field_line lines' fs'')
      as Hsplit.
    { intros lines fs' Hc Hf. destruct Hf as [|w1 f1 ws fs1 Hw1 Hf]; [done|].
      apply field_line_nonempty in Hw1 as Hx. destruct Hx as (x & t & ->).
      simpl in Hc. injection Hc as <- ->.
      rewrite (decode_line_complete first t f1 (concat ws) Hw1) in E. injection E as <- <-.
      eauto. }
    destruct (Z.ltb_spec max (size + field_size f)) as [Hbig|Hsmall].
    + split; [done|]. intros (lines & fs' & Hc & Hf & _ & Hle).
      destruct (Hsplit _ _ Hc Hf) as (? & fs'' & -> & _). simpl in Hle.
      pose proof (section_size_nonneg fs''). lia.
    + rewrite IH by (unfold ltof; lia). split.
      * intros (lines & fs' & -> & Hf & -> & Hle). exists (w :: lines), (f :: fs').
        simpl. rewrite <- app_assoc. split_and!; [done|by constructor|done|lia].
      * intros (lines & fs' & Hc & Hf & -> & Hle).
        destruct (Hsplit _ _ Hc Hf) as (lines' & fs'' & -> & -> & Hf').
        exists lines', fs''. simpl in Hle. rewrite <- app_assoc. split_and!; [done..|lia].
  - split; [done|]. intros (lines & fs' & Hc & Hf & _).
    destruct Hf as [|w1 f1 ws fs1 Hw1 Hf]; [done|].
    apply field_line_nonempty in Hw1 as Hx. destruct Hx as (x & t & ->).
    simpl in Hc. injection Hc as <- ->.
    by rewrite (decode_line_complete first t f1 (concat ws) Hw1) in E.
Qed.

(** The prefix of a section: a zero Required Insert Count and a clear Sign bit. *)
Definition section_prefix (w : bytes) : Prop :=
  ∃ w1 w2 f1 f2 delta, w = w1 ++ w2 ∧ is_int 8 w1 f1 0 ∧ is_int 7 w2 f2 delta ∧
    Z.land f2 1 ≠ 1.

Lemma decode_exact block max fs :
  0 ≤ max →
  decode block max = Ok fs ↔
  ∃ prefix lines, block = prefix ++ concat lines ∧ section_prefix prefix ∧
    Forall2 field_line lines fs ∧ section_size fs ≤ max.
Proof.
  intros Hmax. unfold decode. split.
  - intros ([[f1 ric] b1] & H1 & H2)%result_bind_ok.
    apply take_int_is_int in H1 as (w1 & -> & H1).
    destruct (Z.eqb_spec ric 0) as [->|]; [|done]. cbn [negb] in H2.
    apply result_bind_ok in H2 as ([[f2 delta] b2] & H2 & H3).
    apply take_int_is_int in H2 as (w2 & -> & H2).
    destruct (Z.eqb_spec (Z.land f2 1) 1); [done|].
    apply decode_lines_spec in H3 as (lines & fs' & -> & Hf & -> & Hle); [|lia].
    cbn [app]. exists (w1 ++ w2), lines.
    split; [by rewrite app_assoc|]. split; [|split; [done|lia]].
    exists w1, w2, f1, f2, delta. done.
  - intros (prefix & lines & -> & (w1 & w2 & f1 & f2 & delta & -> & H1 & H2 & Hs) & Hf & Hle).
    rewrite <- app_assoc, (is_int_more _ _ _ _ _ H1). cbn [result_bind Z.eqb negb].
    rewrite (is_int_more _ _ _ _ _ H2). cbn [result_bind].
    rewrite (proj2 (Z.eqb_neq _ 1)) by done.
    apply decode_lines_spec; [lia|]. exists lines, fs. split_and!; [done..|lia].
Qed.

(** ** The writer stays inside the grammar *)

Lemma find_from_spec index table name_only n v pre :
  Z.of_nat (length pre) = index → 0 ≤ index →
  (∀ i, name_only = Some i → ∃ v', (pre ++ table) !! Z.to_nat i = Some (n, v') ∧ 0 ≤ i) →
  match find_from index table name_only n v with
  | Entry i => (pre ++ table) !! Z.to_nat i = Some (n, v) ∧ 0 ≤ i
  | Name i => ∃ v', (pre ++ table) !! Z.to_nat i = Some (n, v') ∧ 0 ≤ i
  | Nothing => name_only = None
  end.
Proof.
  revert index name_only pre. induction table as [|[en ev] table IH];
    intros index name_only pre Hlen Hpos Hno; cbn [find_from].
  { destruct name_only as [i|]; [|done]. by apply Hno. }
  assert ((pre ++ (en, ev) :: table) !! Z.to_nat index = Some (en, ev)) as Hhere.
  { rewrite lookup_app_r by lia. by replace (Z.to_nat index - length pre)%nat with 0%nat by lia. }
  rewrite (cons_middle (en, ev) pre table), app_assoc in *.
  assert (Z.of_nat (length (pre ++ [(en, ev)])) = index + 1) as Hlen'.
  { rewrite length_app. simpl. lia. }
  destruct (decide (en ≠ n)) as [Hne|Heq].
  - specialize (IH (index + 1) name_only (pre ++ [(en, ev)]) Hlen' ltac:(lia) Hno). done.
  - apply dec_stable in Heq as ->. destruct (decide (ev = v)) as [->|]; [done|].
    specialize (IH (index + 1) (match name_only with Some i => Some i | None => Some index end)
      (pre ++ [(n, ev)]) Hlen' ltac:(lia)).
    assert (∀ i, (match name_only with Some i => Some i | None => Some index end) = Some i →
      ∃ v', ((pre ++ [(n, ev)]) ++ table) !! Z.to_nat i = Some (n, v') ∧ 0 ≤ i) as Hno'.
    { intros i. destruct name_only; [apply Hno|]. intros [= <-]. eauto. }
    specialize (IH Hno'). destruct (find_from _ _ _ _ _); [done..|].
    by destruct name_only.
Qed.

Lemma find_spec n v :
  match find n v with
  | Entry i => STATIC_TABLE !! Z.to_nat i = Some (n, v) ∧ 0 ≤ i
  | Name i => ∃ v', STATIC_TABLE !! Z.to_nat i = Some (n, v') ∧ 0 ≤ i
  | Nothing => True
  end.
Proof.
  pose proof (find_from_spec 0 STATIC_TABLE None n v [] eq_refl ltac:(lia) ltac:(done)) as H.
  unfold find. destruct (find_from _ _ _ _ _); done.
Qed.

Lemma int_bytes_is_int p flags v :
  1 ≤ p ≤ 8 → 0 ≤ flags < 2 ^ (8 - p) → 0 ≤ v ≤ u64_max →
  is_int p (int_bytes p flags v) flags v.
Proof.
  intros. unfold is_int. rewrite <- (app_nil_r (int_bytes p flags v)). by apply take_int_bytes.
Qed.

Definition string_bytes (p flags : Z) (s : bytes) : bytes := put_string [] p flags s.

Lemma put_string_app out p flags s : put_string out p flags s = out ++ string_bytes p flags s.
Proof. unfold string_bytes, put_string. rewrite put_int_app. by rewrite <- app_assoc. Qed.

Lemma string_bytes_is_string p flags s :
  1 ≤ p ≤ 7 → 0 ≤ flags < 2 ^ (7 - p) → blen s ≤ u64_max →
  is_string p (string_bytes p flags s) s.
Proof.
  intros Hp Hf Hs. unfold string_bytes, put_string.
  assert (2 ^ (7 - p) ≤ 2 ^ 7) by (apply Z.pow_le_mono_r; lia).
  assert (shl 8 flags 1 = 2 * flags) as ->.
  { unfold shl. rewrite wrap_id; rewrite Z.shiftl_mul_pow2 by lia; [lia|].
    unfold is_uint. change (2 ^ 8) with (2 ^ 7 * 2). lia. }
  apply (string_plain p (int_bytes p (2 * flags) (blen s)) (2 * flags)).
  - apply int_bytes_is_int; [lia| |split; [apply blen_nonneg|done]].
    replace (8 - p) with (Z.succ (7 - p)) by lia. rewrite Z.pow_succ_r by lia. lia.
  - change 1 with (Z.ones 1). rewrite Z.land_ones by lia. rewrite Z.mul_comm.
    by apply Z.mod_mul.
Qed.

Definition line_bytes (f : Field) : bytes := encode_line [] f.

Lemma encode_line_app out f : encode_line out f = out ++ line_bytes f.
Proof.
  unfold line_bytes, encode_line. destruct (find _ _).
  - by rewrite put_int_app.
  - rewrite put_string_app, put_int_app, (put_string_app (put_int [] _ _ _)).
    by rewrite <- app_assoc.
  - rewrite !put_string_app. by rewrite <- app_assoc.
Qed.

Lemma static_index_bound i e : STATIC_TABLE !! Z.to_nat i = Some e → i < 99.
Proof. intros H%lookup_lt_Some. change (length STATIC_TABLE) with 99%nat in H. lia. Qed.

Lemma line_bytes_field_line f : field_size f ≤ u64_max → field_line (line_bytes f) f.
Proof.
  intros Hf. destruct f as [n v]. unfold field_size, FIELD_OVERHEAD in Hf. simpl in Hf.
  pose proof (blen_nonneg n). pose proof (blen_nonneg v).
  unfold line_bytes, encode_line. pose proof (find_spec n v) as Hs. simpl name. simpl value.
  destruct (find n v) as [i|i|].
  - destruct Hs as [Hl Hi]. apply static_index_bound in Hl as Hb.
    eapply line_indexed; [|done]. apply int_bytes_is_int; unfold u64_max; lia.
  - destruct Hs as (v' & Hl & Hi). apply static_index_bound in Hl as Hb.
    rewrite put_string_app. eapply (line_name_reference _ i 5); [|auto|done|].
    + apply int_bytes_is_int; unfold u64_max; lia.
    + apply string_bytes_is_string; lia.
  - rewrite put_string_app. fold (string_bytes 3 2 n).
    assert (is_string 3 (string_bytes 3 2 n) n) as Hn by (apply string_bytes_is_string; lia).
    pose proof (int_bytes_first 3 4 (blen n) ltac:(lia) ltac:(lia) ltac:(lia)) as Hfirst.
    cbn zeta in Hfirst. unfold string_bytes in *. unfold put_string at 1 in Hn.
    unfold put_string at 1. change (shl 8 2 1) with 4 in *.
    change (put_int [] 3 4 (blen n)) with (int_bytes 3 4 (blen n)) in *.
    rewrite Hfirst in *. cbn [app] in *.
    eapply (line_literal _ _ n); [exact Hn| |apply string_bytes_is_string; lia].
    rewrite u8_as_u8, wrap_id by (unfold is_uint; lia).
    rewrite Z.shiftr_div_pow2 by lia.
    symmetry. apply (Z.div_unique _ (2 ^ 5) 1 (Z.min (blen n) 7)); lia.
Qed.

Lemma encode_eq out fs :
  encode out fs = out ++ map as_u8 [0; 0] ++ concat (map line_bytes fs).
Proof.
  unfold encode. change (map as_u8 [0; 0]) with ([as_u8 0] ++ [as_u8 0]).
  rewrite (app_assoc out ([as_u8 0] ++ [as_u8 0])). generalize (out ++ [as_u8 0] ++ [as_u8 0]) as o.
  induction fs as [|f fs IH]; intros o; cbn [foldl map concat]; [by rewrite app_nil_r|].
  rewrite IH, encode_line_app. by rewrite <- app_assoc.
Qed.
(** ** Errors *)

(** A violation of this module: QPACK_DECOMPRESSION_FAILED of either class, or
    the one that answers an oversized section. *)
Definition qpack_violation (v : Violation) : Prop :=
  (code v = QPACK_DECOMPRESSION_FAILED ∧ is_field_section_too_large v = false) ∨
  (code v = H3_EXCESSIVE_LOAD ∧ is_connection_error v = false ∧
   is_field_section_too_large v = true).

Lemma take_int_cont_err v0 s buf v :
  take_int_cont v0 s buf = Err v → code v = QPACK_DECOMPRESSION_FAILED ∧ fatal v = false ∧
    field_section v = false.
Proof.
  revert v0 s. induction buf as [|x buf IH]; intros v0 s; cbn [take_int_cont].
  { by intros [= <-]. }
  intros [H|(v1 & _ & H)]%result_bind_err.
  - apply ok_or_err in H as [_ <-]. done.
  - destruct (_ =? 0); [done|]. by eapply IH.
Qed.

Lemma take_int_err p buf v :
  take_int p buf = Err v → code v = QPACK_DECOMPRESSION_FAILED ∧ fatal v = false ∧
    field_section v = false.
Proof.
  destruct buf as [|x buf]; unfold take_int; [by intros [= <-]|].
  destruct (_ <? _); [done|]. intros [H|(v1 & _ & H)]%result_bind_err.
  - by eapply take_int_cont_err.
  - by destruct v1.
Qed.

Lemma take_string_err p buf v :
  take_string p buf = Err v → code v = QPACK_DECOMPRESSION_FAILED ∧ fatal v = false ∧
    field_section v = false.
Proof.
  unfold take_string. intros [H|([[f l] b1] & _ & H)]%result_bind_err; [by eapply take_int_err|].
  destruct (_ <? _); [by injection H as <-|]. destruct (_ =? 0); [done|].
  apply result_bind_err in H as [H|(s & _ & H)]; [|done].
  apply Huffman.decode_err in H as (d & ->). done.
Qed.

Definition dynamic_or_range (v : Violation) : Prop :=
  v = dynamic_reference ∨ v = connection_error "static table index out of range".

Definition line_violation (v : Violation) : Prop :=
  code v = QPACK_DECOMPRESSION_FAILED ∧ field_section v = false ∧
  (fatal v = true → dynamic_or_range v).

Lemma stream_line_violation v :
  code v = QPACK_DECOMPRESSION_FAILED ∧ fatal v = false ∧ field_section v = false →
  line_violation v.
Proof. intros (H1 & H2 & H3). unfold line_violation. rewrite H2. done. Qed.

Lemma dynamic_line_violation v : dynamic_or_range v → line_violation v.
Proof. intros H. split_and!; [by destruct H; subst..|done]. Qed.

Lemma static_entry_err i v : static_entry i = Err v → dynamic_or_range v.
Proof. unfold static_entry. intros [_ <-]%ok_or_err. by right. Qed.

Lemma decode_line_err first buf v : decode_line first buf = Err v → line_violation v.
Proof.
  unfold decode_line. destruct (negb _); [|destruct (_ =? 64); [|destruct (_ =? 32)]].
  - intros [H|([[f i] b1] & _ & H)]%result_bind_err;
      [by eapply stream_line_violation, take_int_err|].
    destruct (_ =? 0); [injection H as <-; apply dynamic_line_violation; by left|].
    apply result_bind_err in H as [H|([n x] & _ & H)]; [|done].
    by eapply dynamic_line_violation, static_entry_err.
  - intros [H|([[f i] b1] & _ & H)]%result_bind_err;
      [by eapply stream_line_violation, take_int_err|].
    destruct (_ =? 0); [injection H as <-; apply dynamic_line_violation; by left|].
    apply result_bind_err in H as [H|([n x] & _ & H)];
      [by eapply dynamic_line_violation, static_entry_err|].
    apply result_bind_err in H as [H|([s b2] & _ & H)]; [|done].
    by eapply stream_line_violation, take_string_err.
  - intros [H|([n b1] & _ & H)]%result_bind_err;
      [by eapply stream_line_violation, take_string_err|].
    apply result_bind_err in H as [H|([s b2] & _ & H)]; [|done].
    by eapply stream_line_violation, take_string_err.
  - intros [= <-]. apply dynamic_line_violation. by left.
Qed.

Lemma decode_lines_err max st v :
  run (decode_lines_step max) st = Err v → line_violation v ∨ v = section_too_large max.
Proof.
  revert v. apply (run_ind (decode_lines_step max) (λ _ r, ∀ v, r = Err v →
    line_violation v ∨ v = section_too_large max)); [|naive_solver].
  intros [[buf fields] size] r. unfold decode_lines_step.
  destruct buf as [|first buf]; [intros [= <-]; done|].
  destruct (decode_line first (first :: buf)) as [[f rest]|e] eqn:E.
  - destruct (_ <? _); [|done]. intros [= <-] v [= <-]. by right.
  - intros [= <-] v [= <-]. left. by eapply decode_line_err.
Qed.

(** What is known of every violation a section can earn. *)
Definition section_answer (max : Z) (v : Violation) : Prop :=
  qpack_violation v ∧
  (is_connection_error v = true →
     dynamic_or_range v ∨
     v = connection_error "a non-zero Required Insert Count with no dynamic table" ∨
     v = connection_error "a Sign bit of 1 with a zero Required Insert Count") ∧
  (is_field_section_too_large v = true ↔ v = section_too_large max).

Lemma failed_not_large max v :
  field_section v = false → is_field_section_too_large v = true ↔ v = section_too_large max.
Proof.
  intros H. unfold is_field_section_too_large. rewrite H. split; [done|].
  intros ->. discriminate H.
Qed.

Lemma line_violation_answer max v : line_violation v → section_answer max v.
Proof.
  intros (Hc & Hs & Hf). split; [by left|]. split; [|by apply failed_not_large].
  intros H. left. by apply Hf.
Qed.

(** ** Properties *)

(** Prefixed integers.  Every [u64] is read back from what [put_int] writes,
    whatever the flags above the prefix and whatever follows. *)
Theorem qpack_int_roundtrip out p flags v rest :
  1 ≤ p ≤ 8 → 0 ≤ flags < 2 ^ (8 - p) → 0 ≤ v ≤ u64_max →
  ∃ w, put_int out p flags v = out ++ w ∧ take_int p (w ++ rest) = Ok (flags, v, rest).
Proof.
  intros Hp Hf Hv. exists (int_bytes p flags v). split; [apply put_int_app|].
  by apply take_int_bytes.
Qed.

Lemma qpack_int_roundtrip_witness :
  ∃ w, put_int [] 5 0 1337 = [] ++ w ∧ take_int 5 (w ++ [as_u8 7]) = Ok (0, 1337, [as_u8 7]).
Proof. apply qpack_int_roundtrip; unfold u64_max; lia. Defined.

(** The integer reader never wraps around.  What it returns after the prefix
    byte is the exact value the continuation bytes encode, it fits a [u64], and it
    took at most ten of them: a longer or larger integer is refused. *)
Theorem qpack_int_exact v0 buf v rest :
  0 ≤ v0 → take_int_cont v0 0 buf = Ok (v, rest) →
  ∃ w, buf = w ++ rest ∧ v = v0 + cont_value w ∧ v ≤ u64_max ∧ (length w ≤ 10)%nat.
Proof.
  intros H0 (w & Hw & -> & Hmax & Hlen)%take_int_cont_value; [|done..].
  exists w. unfold blen in Hlen. split_and!; [done|lia|done|lia].
Qed.

Lemma qpack_int_exact_witness :
  ∃ w, map as_u8 [0x9a; 0x0a; 0xff] = w ++ [as_u8 0xff] ∧ 1337 = 31 + cont_value w ∧
    1337 ≤ u64_max ∧ (length w ≤ 10)%nat.
Proof. apply (qpack_int_exact 31 (map as_u8 [0x9a; 0x0a; 0xff])); [lia|reflexivity]. Defined.

(** C26: the decoder accepts exactly the field sections of the grammar whose size,
    by the formula of RFC 9114 §4.2.2, is within the advertised limit, and yields
    their fields in order. *)
Theorem qpack_decode_exact block max fs :
  0 ≤ max →
  decode block max = Ok fs ↔
  ∃ prefix lines, block = prefix ++ concat lines ∧ section_prefix prefix ∧
    Forall2 field_line lines fs ∧ section_size fs ≤ max.
Proof. apply decode_exact. Qed.

Lemma qpack_decode_exact_witness :
  ∃ prefix lines, map as_u8 [0; 0; 0xcf] = prefix ++ concat lines ∧ section_prefix prefix ∧
    Forall2 field_line lines [mkField (lit ":method") (lit "CONNECT")] ∧
    section_size [mkField (lit ":method") (lit "CONNECT")] ≤ 65536.
Proof. apply qpack_decode_exact; [lia|vm_compute; reflexivity]. Defined.

Lemma qpack_decode_encode fs max :
  section_size fs ≤ max ≤ u64_max → decode (encode [] fs) max = Ok fs.
Proof.
  intros Hmax. pose proof (section_size_nonneg fs).
  apply decode_exact; [lia|]. exists (map as_u8 [0; 0]), (map line_bytes fs).
  split; [by rewrite encode_eq|]. split.
  { exists [as_u8 0], [as_u8 0], 0, 0, 0. vm_compute. naive_solver. }
  split; [|lia]. assert (section_size fs ≤ u64_max) as Hle by lia. clear Hmax H.
  induction fs as [|f fs IH]; simpl in *; [constructor|].
  pose proof (section_size_nonneg fs). pose proof (field_size_pos f).
  constructor; [apply line_bytes_field_line; lia|apply IH; lia].
Qed.

(** The field section round trip.  Whatever fields the server encodes, the
    decoder reads them back, provided their size is within the limit. *)
Theorem qpack_roundtrip fs max :
  section_size fs ≤ max ≤ u64_max → decode (encode [] fs) max = Ok fs.
Proof. apply qpack_decode_encode. Qed.

Lemma qpack_roundtrip_witness :
  decode (encode [] [mkField (lit ":status") (lit "407"); mkField (lit "via") (lit "volto")]) 65536
  = Ok [mkField (lit ":status") (lit "407"); mkField (lit "via") (lit "volto")].
Proof. apply qpack_roundtrip. vm_compute. split; discriminate. Defined.

(** How a field section fails.  A connection error is always
    QPACK_DECOMPRESSION_FAILED and only for a dynamic table reference, an index
    past the static table, a non-zero Required Insert Count or a set Sign bit; an
    oversized section is the one failure answered with a 431; every other failure
    ends the one stream. *)
Theorem qpack_decode_errors block max v :
  decode block max = Err v →
  qpack_violation v ∧
  (is_connection_error v = true →
     dynamic_or_range v ∨
     v = connection_error "a non-zero Required Insert Count with no dynamic table" ∨
     v = connection_error "a Sign bit of 1 with a zero Required Insert Count") ∧
  (is_field_section_too_large v = true ↔ v = section_too_large max).
Proof.
  change (decode block max = Err v → section_answer max v). unfold decode.
  intros [H|([[f1 ric] b1] & _ & H)]%result_bind_err.
  { by eapply line_violation_answer, stream_line_violation, take_int_err. }
  destruct (negb _).
  { injection H as <-. split; [by left|]. split; [auto|by apply failed_not_large]. }
  apply result_bind_err in H as [H|([[f2 db] b2] & _ & H)].
  { by eapply line_violation_answer, stream_line_violation, take_int_err. }
  destruct (_ =? 1).
  { injection H as <-. split; [by left|]. split; [auto|by apply failed_not_large]. }
  apply decode_lines_err in H as [H| ->].
  - by apply line_violation_answer.
  - split; [by right|]. done.
Qed.

Lemma qpack_decode_errors_witness :
  decode (map as_u8 [0; 0; 0x80]) 65536 = Err dynamic_reference ∧
  (is_connection_error dynamic_reference = true → qpack_violation dynamic_reference).
Proof.
  split; [reflexivity|].
  destruct (qpack_decode_errors (map as_u8 [0; 0; 0x80]) 65536 dynamic_reference eq_refl)
    as [H _].
  intros _. exact H.
Defined.
