(* ===== verification/Frame.v ===== *)
(** * The HTTP/3 frame layer (src/src/h3/frame.rs)

    The frame decoder ([FrameDecoder], [next_item]) with the verdict on a frame's
    type and length ([begin], [misplaced]), the parsers of buffered frames
    ([parse], [parse_settings]), the connection's buffering budget ([charge],
    [release]) and the writers.  The budget is a counter shared by the decoders
    of a connection: every operation that touches it takes the counter's value
    and returns the new one. *)

From S2P Require Import Prelude Incremental Datagram H3Error.

#[local] Open Scope string_scope.
#[local] Open Scope list_scope.
#[local] Open Scope Z_scope.

(** ** Constants (frame.rs and h3/mod.rs) *)

Definition DATA : Z := 0x00.
Definition HEADERS : Z := 0x01.
Definition CANCEL_PUSH : Z := 0x03.
Definition SETTINGS : Z := 0x04.
Definition PUSH_PROMISE : Z := 0x05.
Definition GOAWAY : Z := 0x07.
Definition MAX_PUSH_ID : Z := 0x0d.

Definition RESERVED_HTTP2_TYPES : list Z := [0x02; 0x06; 0x08; 0x09].

Definition SETTING_QPACK_MAX_TABLE_CAPACITY : Z := 0x01.
Definition SETTING_MAX_FIELD_SECTION_SIZE : Z := 0x06.
Definition SETTING_QPACK_BLOCKED_STREAMS : Z := 0x07.
Definition SETTING_ENABLE_CONNECT_PROTOCOL : Z := 0x08.
Definition SETTING_H3_DATAGRAM : Z := 0x33.

Definition RESERVED_HTTP2_SETTINGS : list Z := [0x00; 0x02; 0x03; 0x04; 0x05].

Definition VARINT_MAX_LEN : nat := 8.
Definition MAX_FIELD_SECTION_SIZE : Z := 64 * 1024.
Definition HEADERS_BUFFER_BUDGET : Z := 1024 * 1024.
Definition MAX_BUFFERED_FRAME : Z := MAX_FIELD_SECTION_SIZE.
Definition MAX_FRAME_HEADER : nat := 2 * VARINT_MAX_LEN.
Definition MAX_SKIPPED_FRAMES : Z := 4096.

Definition NON_DATA_FRAME_ON_A_TUNNEL : string :=
  "a frame other than DATA once the CONNECT method had completed".

(** ** Data *)

Inductive BufferedKind :=
  | KHeaders | KSettings | KGoaway | KCancelPush | KMaxPushId | KPushPromise.

#[export] Instance BufferedKind_eq_dec : EqDecision BufferedKind.
Proof. solve_decision. Defined.

Definition from_type (kind : Z) : option BufferedKind :=
  if kind =? HEADERS then Some KHeaders
  else if kind =? SETTINGS then Some KSettings
  else if kind =? GOAWAY then Some KGoaway
  else if kind =? CANCEL_PUSH then Some KCancelPush
  else if kind =? MAX_PUSH_ID then Some KMaxPushId
  else if kind =? PUSH_PROMISE then Some KPushPromise
  else None.

Definition frame_type (k : BufferedKind) : Z :=
  match k with
  | KHeaders => HEADERS
  | KSettings => SETTINGS
  | KGoaway => GOAWAY
  | KCancelPush => CANCEL_PUSH
  | KMaxPushId => MAX_PUSH_ID
  | KPushPromise => PUSH_PROMISE
  end.

Record Settings := mkSettings { datagrams : bool }.

Inductive Frame :=
  | Headers (section : bytes)
  | SettingsFrame (s : Settings)
  | Goaway (id : Z)
  | CancelPush (id : Z)
  | MaxPushId (id : Z)
  | PushPromise.

Inductive Item :=
  | Data (bytes : bytes)
  | FrameItem (f : Frame)
  | Skipped (kind : Z).

Inductive StreamKind := Control | Request | Tunnel.

#[export] Instance StreamKind_eq_dec : EqDecision StreamKind.
Proof. solve_decision. Defined.

Inductive State :=
  | StHeader
  | StData (remaining : N)
  | StBuffering (kind : BufferedKind) (remaining : nat)
  | StSkipping (kind : Z) (remaining : N).

Record FrameDecoder := mkDecoder {
  chunk : bytes;
  header : bytes;
  payload : bytes;
  charged : Z;
  stream : StreamKind;
  skipped : Z;
  state : State;
}.

(** Field updates. *)
Definition set_state (st : State) (d : FrameDecoder) : FrameDecoder :=
  {| chunk := chunk d; header := header d; payload := payload d; charged := charged d;
     stream := stream d; skipped := skipped d; state := st |}.
Definition set_chunk (c : bytes) (d : FrameDecoder) : FrameDecoder :=
  {| chunk := c; header := header d; payload := payload d; charged := charged d;
     stream := stream d; skipped := skipped d; state := state d |}.
Definition set_header (h : bytes) (d : FrameDecoder) : FrameDecoder :=
  {| chunk := chunk d; header := h; payload := payload d; charged := charged d;
     stream := stream d; skipped := skipped d; state := state d |}.
Definition set_payload (p : bytes) (d : FrameDecoder) : FrameDecoder :=
  {| chunk := chunk d; header := header d; payload := p; charged := charged d;
     stream := stream d; skipped := skipped d; state := state d |}.
Definition set_charged (n : Z) (d : FrameDecoder) : FrameDecoder :=
  {| chunk := chunk d; header := header d; payload := payload d; charged := n;
     stream := stream d; skipped := skipped d; state := state d |}.
Definition set_stream (k : StreamKind) (d : FrameDecoder) : FrameDecoder :=
  {| chunk := chunk d; header := header d; payload := payload d; charged := charged d;
     stream := k; skipped := skipped d; state := state d |}.
Definition set_skipped (n : Z) (d : FrameDecoder) : FrameDecoder :=
  {| chunk := chunk d; header := header d; payload := payload d; charged := charged d;
     stream := stream d; skipped := n; state := state d |}.

(** ** The buffering budget *)

Definition charge (held bytes : Z) : result Z Violation :=
  let wanted := saturating_add 64 held bytes in
  if wanted <=? HEADERS_BUFFER_BUDGET then Ok wanted
  else Err (field_section_too_large
    ("buffering another " +:+ pretty bytes +:+ " bytes would put this connection past the " +:+
     pretty HEADERS_BUFFER_BUDGET +:+ " it may hold in unfinished frames, of which " +:+
     pretty held +:+ " are already held")).

Definition release_bytes (held bytes : Z) : Z :=
  if 0 <? bytes then saturating_sub held bytes else held.

(** ** Parsing buffered payloads *)

Definition single_varint (kind : Z) (payload : bytes) : result Z Violation :=
  match peek_varint payload with
  | Some (value, used) =>
      if decide (used = length payload) then Ok value
      else Err (connection_violation H3_FRAME_ERROR
        ("frame type " +:+ hex kind +:+ " does not carry exactly one varint"))
  | None => Err (connection_violation H3_FRAME_ERROR
        ("frame type " +:+ hex kind +:+ " does not carry exactly one varint"))
  end.

Definition settings_error (detail : string) : Violation :=
  connection_violation H3_SETTINGS_ERROR detail.

Definition truncated_settings : Violation :=
  connection_violation H3_FRAME_ERROR "the SETTINGS payload ends mid-pair".

Definition boolean (identifier value : Z) : result bool Violation :=
  if value =? 0 then Ok false
  else if value =? 1 then Ok true
  else Err (settings_error
    ("setting " +:+ hex identifier +:+ " must be 0 or 1, not " +:+ pretty value)).

(** One pair of a SETTINGS payload, once both varints are read. *)
Definition apply_setting (settings : Settings) (seen : gset Z) (identifier value : Z)
    : result (Settings * gset Z) Violation :=
  if decide (identifier ∈ RESERVED_HTTP2_SETTINGS) then
    Err (settings_error ("setting " +:+ hex identifier +:+ " is reserved for HTTP/2"))
  else if decide (identifier ∈ seen) then
    Err (settings_error ("setting " +:+ hex identifier +:+ " occurs more than once"))
  else
    let seen := {[identifier]} ∪ seen in
    if identifier =? SETTING_H3_DATAGRAM then
      let? datagrams := boolean identifier value in
      Ok (mkSettings datagrams, seen)
    else Ok (settings, seen).

(** The [while !payload.is_empty()] of [parse_settings]. *)
Definition parse_settings_step (st : bytes * Settings * gset Z)
    : (bytes * Settings * gset Z) + result Settings Violation :=
  let '(payload, settings, seen) := st in
  match payload with
  | [] => inr (Ok settings)
  | _ =>
      match peek_varint payload with
      | None => inr (Err truncated_settings)
      | Some (identifier, used) =>
          let payload := drop used payload in
          match peek_varint payload with
          | None => inr (Err truncated_settings)
          | Some (value, used) =>
              let payload := drop used payload in
              match apply_setting settings seen identifier value with
              | Err v => inr (Err v)
              | Ok (settings, seen) => inl (payload, settings, seen)
              end
          end
      end
  end.

#[export] Program Instance parse_settings_loop : Loop parse_settings_step :=
  {| loop_measure st := length st.1.1 |}.
Next Obligation.
  intros [[p s] seen] st'. unfold parse_settings_step. destruct p as [|x p]; [done|].
  destruct (peek_varint (x :: p)) as [[i n1]|] eqn:E1; [|done].
  destruct (peek_varint (drop n1 (x :: p))) as [[v n2]|] eqn:E2; [|done].
  apply peek_varint_length in E1, E2. rewrite length_drop in E2.
  destruct (apply_setting s seen i v) as [[s' seen']|]; [|done].
  intros [= <-]. cbn [fst]. rewrite !length_drop. lia.
Qed.

Definition parse_settings (payload : bytes) : result Settings Violation :=
  run parse_settings_step (payload, mkSettings false, ∅).

Definition parse (kind : BufferedKind) (payload : bytes) : result Frame Violation :=
  match kind with
  | KHeaders => Ok (Headers payload)
  | KSettings => result_map SettingsFrame (parse_settings payload)
  | KGoaway => result_map Goaway (single_varint (frame_type kind) payload)
  | KCancelPush => result_map CancelPush (single_varint (frame_type kind) payload)
  | KMaxPushId => result_map MaxPushId (single_varint (frame_type kind) payload)
  | KPushPromise => Ok PushPromise
  end.

(** ** The verdict on an announced frame *)

Definition misplaced (stream : StreamKind) (kind : Z) : option string :=
  match stream with
  | Control => None
  | Request =>
      if kind =? SETTINGS then Some "a SETTINGS frame on a request stream"
      else if kind =? CANCEL_PUSH then Some "a CANCEL_PUSH frame on a request stream"
      else if kind =? MAX_PUSH_ID then Some "a MAX_PUSH_ID frame on a request stream"
      else if kind =? PUSH_PROMISE then
        Some "a PUSH_PROMISE frame, which only a server may send"
      else if kind =? GOAWAY then Some "a GOAWAY frame on a request stream"
      else None
  | Tunnel =>
      if kind =? DATA then None
      else match from_type kind with
           | Some _ => Some NON_DATA_FRAME_ON_A_TUNNEL
           | None => None
           end
  end.

Definition begin (stream : StreamKind) (kind length : Z) : result State Violation :=
  if decide (kind ∈ RESERVED_HTTP2_TYPES) then
    Err (connection_violation H3_FRAME_UNEXPECTED
      ("frame type " +:+ hex kind +:+ " is reserved for HTTP/2"))
  else match misplaced stream kind with
  | Some detail => Err (connection_violation H3_FRAME_UNEXPECTED detail)
  | None =>
      if kind =? DATA then Ok (StData (Z.to_N length))
      else match from_type kind with
      | None => Ok (StSkipping kind (Z.to_N length))
      | Some buffered =>
          if MAX_BUFFERED_FRAME <? length then
            Err (field_section_too_large
              ("a " +:+ pretty length +:+ "-byte frame is past what this server buffers"))
          else Ok (StBuffering buffered (Z.to_nat length))
      end
  end.

(** ** The decoder *)

Definition new (stream : StreamKind) : FrameDecoder :=
  {| chunk := []; header := []; payload := []; charged := 0; stream := stream;
     skipped := 0; state := StHeader |}.

(** [FrameDecoder::push], legal once the previous chunk is spent. *)
Definition push_bytes (d : FrameDecoder) (c : bytes) : FrameDecoder := set_chunk c d.

Definition connect_completed (d : FrameDecoder) : FrameDecoder := set_stream Tunnel d.

Definition at_frame_boundary (d : FrameDecoder) : bool :=
  match state d with
  | StHeader => bool_decide (header d = [])
  | _ => false
  end.

Definition take_from (remaining : N) (chunk_len : nat) : nat * N :=
  let take := N.min remaining (N.of_nat chunk_len) in
  (N.to_nat take, (remaining - take)%N).

(** The test [take_frame_header] makes before each byte. *)
Definition header_complete (header : bytes) : option (Z * Z) :=
  match peek_varint header with
  | Some (kind, used) =>
      match peek_varint (drop used header) with
      | Some (length, _) => Some (kind, length)
      | None => None
      end
  | None => None
  end.

(** Its loop: the header found if whole, the header bytes held and the chunk left. *)
Fixpoint take_frame_header (header chunk : bytes) : option (Z * Z) * bytes * bytes :=
  match header_complete header with
  | Some found => (Some found, [], chunk)
  | None =>
      match chunk with
      | [] => (None, header, [])
      | byte :: chunk => take_frame_header (header ++ [byte]) chunk
      end
  end.

Definition count_skip (d : FrameDecoder) : FrameDecoder * result unit Violation :=
  if decide (stream d = Request) then
    let skipped := saturating_add 32 (skipped d) 1 in
    let d := set_skipped skipped d in
    if MAX_SKIPPED_FRAMES <? skipped then
      (d, Err (stream_violation H3_EXCESSIVE_LOAD
        ("more than " +:+ pretty MAX_SKIPPED_FRAMES +:+
         " reserved or unknown frames were skipped on this request stream before a request arrived")))
    else (d, Ok tt)
  else (d, Ok tt).

(** [FrameDecoder::release], also what [Drop] does. *)
Definition release (d : FrameDecoder) (held : Z) : FrameDecoder * Z :=
  (set_charged 0 d, release_bytes held (charged d)).

Definition drop_decoder (d : FrameDecoder) (held : Z) : Z := (release d held).2.

(** One turn of the [loop] of [next_item], on the decoder and the budget. *)
Definition item_step (x : FrameDecoder * Z)
    : (FrameDecoder * Z) + ((FrameDecoder * Z) * result (option Item) Violation) :=
  let '(d, held) := x in
  match state d with
  | StHeader =>
      let '(found, header, chunk) := take_frame_header (header d) (chunk d) in
      let d := set_header header (set_chunk chunk d) in
      match found with
      | None => inr ((d, held), Ok None)
      | Some (kind, length) =>
          match begin (stream d) kind length with
          | Err v => inr ((d, held), Err v)
          | Ok (StBuffering k remaining) =>
              match charge held (Z.of_nat remaining) with
              | Err v => inr ((d, held), Err v)
              | Ok held =>
                  inl (set_state (StBuffering k remaining)
                         (set_charged (Z.of_nat remaining) d), held)
              end
          | Ok next => inl (set_state next d, held)
          end
      end
  | StData remaining =>
      if (remaining =? 0)%N then inr ((set_state StHeader d, held), Ok (Some (Data [])))
      else
        let '(take_, left_) := take_from remaining (List.length (chunk d)) in
        if decide (take_ = 0%nat) then inr ((d, held), Ok None)
        else
          let data := take take_ (chunk d) in
          let d := set_chunk (drop take_ (chunk d)) d in
          let d := set_state (if (left_ =? 0)%N then StHeader else StData left_) d in
          inr ((d, held), Ok (Some (Data data)))
  | StBuffering kind remaining =>
      let take_ := Nat.min remaining (List.length (chunk d)) in
      let d := set_payload (payload d ++ take take_ (chunk d)) d in
      let d := set_chunk (drop take_ (chunk d)) d in
      if decide (take_ < remaining)%nat then
        inr ((set_state (StBuffering kind (remaining - take_)) d, held), Ok None)
      else
        let d := set_state StHeader d in
        let whole := payload d in
        let d := set_payload [] d in
        let '(d, held) := release d held in
        inr ((d, held), result_map (λ f, Some (FrameItem f)) (parse kind whole))
  | StSkipping kind remaining =>
      let '(take_, left_) := take_from remaining (List.length (chunk d)) in
      let d := set_chunk (drop take_ (chunk d)) d in
      if (left_ =? 0)%N then
        let '(d, counted) := count_skip (set_state StHeader d) in
        inr ((d, held), result_map (λ _, Some (Skipped kind)) counted)
      else inr ((set_state (StSkipping kind left_) d, held), Ok None)
  end.

Definition in_frame (d : FrameDecoder) : nat :=
  match state d with StHeader => 0 | _ => 1 end.

Lemma begin_in_frame s kind len st : begin s kind len = Ok st → st ≠ StHeader.
Proof.
  unfold begin. repeat (case_match; try done); by intros [= <-].
Qed.

(** Only a frame header makes the loop turn again. *)
Lemma item_step_turn x y :
  item_step x = inl y → state x.1 = StHeader ∧ state y.1 ≠ StHeader.
Proof.
  destruct x as [d held]. unfold item_step.
  destruct (state d) as [|r|k r|k r] eqn:Est.
  - destruct (take_frame_header (header d) (chunk d)) as [[found h] c].
    destruct found as [[kind len]|]; [|done].
    destruct (begin _ kind len) as [st|] eqn:Eb; [|done]. apply begin_in_frame in Eb.
    destruct st as [|r|k r|k r]; [done|intros [= <-]; done| |intros [= <-]; done].
    destruct (charge _ _); [|done]. intros [= <-]. done.
  - destruct (take_from _ _). repeat case_match; done.
  - case_decide; [done|]. destruct (release _ _). done.
  - destruct (take_from _ _). destruct (_ =? 0)%N; [|done]. by destruct (count_skip _).
Qed.

#[export] Program Instance item_loop : Loop item_step :=
  {| loop_measure x := (1 - in_frame x.1)%nat |}.
Next Obligation.
  intros x y [H1 H2]%item_step_turn. unfold in_frame. rewrite H1.
  destruct (state y.1); [done|lia..].
Qed.

Definition next_item (x : FrameDecoder * Z)
    : (FrameDecoder * Z) * result (option Item) Violation := run item_step x.

(** ** Writers *)

Definition put_header (out : bytes) (kind length : Z) : option bytes :=
  out ← put_varint out kind;
  put_varint out length.

Definition GREASE : Z := 0x1f * 8 + 0x21.

Definition server_settings : list (Z * Z) := [
  (SETTING_QPACK_MAX_TABLE_CAPACITY, 0);
  (SETTING_QPACK_BLOCKED_STREAMS, 0);
  (SETTING_MAX_FIELD_SECTION_SIZE, MAX_FIELD_SECTION_SIZE);
  (SETTING_ENABLE_CONNECT_PROTOCOL, 1);
  (SETTING_H3_DATAGRAM, 1);
  (GREASE, 0)].

Definition settings_payload : option bytes :=
  foldl (λ payload '(identifier, value),
      payload ← payload; payload ← put_varint payload identifier; put_varint payload value)
    (Some []) server_settings.

(** ** The reader

    What [quinn::RecvStream::read_chunk] hands out, in order: chunks, the end of
    the stream, or an error.  A reader whose events are exhausted is waiting. *)

Section Reader.
Context {QuinnError : Type}
  (peer_error : @quinn_ConnectionError QuinnError → @quinn_ConnectionError QuinnError).

Inductive ReadEvent :=
  | ChunkRead (bytes : bytes)
  | Finished
  | ReadFailed (e : quinn_ReadError (QuinnError := QuinnError)).

Inductive Error :=
  | Stream (e : StreamError (QuinnError := QuinnError))
  | Protocol (v : Violation).

Record FrameReader := mkReader {
  recv : list ReadEvent;
  decoder : FrameDecoder;
  finished : bool;
}.

Inductive ReadOutcome :=
  | Ready (r : result (option Item) Error)
  | Pending.

(** [FrameReader::next]: the loop runs over the events the stream delivers. *)
Fixpoint reader_next_on (events : list ReadEvent) (d : FrameDecoder) (held : Z) (fin : bool)
    : FrameReader * Z * ReadOutcome :=
  let '(d, held, r) := next_item (d, held) in
  match r with
  | Err v => (mkReader events d fin, held, Ready (Err (Protocol v)))
  | Ok (Some item) => (mkReader events d fin, held, Ready (Ok (Some item)))
  | Ok None =>
      if fin then (mkReader events d fin, held, Ready (Ok None))
      else
        match events with
        | [] => (mkReader [] d fin, held, Pending)
        | ReadFailed e :: events =>
            (mkReader events d fin, held,
             Ready (Err (Stream (stream_error_from_read peer_error e))))
        | ChunkRead c :: events => reader_next_on events (push_bytes d c) held fin
        | Finished :: events =>
            (mkReader events d true, held,
             if at_frame_boundary d then Ready (Ok None)
             else Ready (Err (Protocol (connection_violation H3_FRAME_ERROR
                    "the stream ended part-way through a frame"))))
        end
  end.

Definition reader_next (r : FrameReader) (held : Z) : FrameReader * Z * ReadOutcome :=
  reader_next_on (recv r) (decoder r) held (finished r).
End Reader.
