(* ===== verification/FrameFacts.v ===== *)
(** * The frame decoder as an incremental decoder

    Facts about [Frame.next_item]: draining terminates, where the chunk boundaries
    fall changes at most how DATA is cut into items, and a well-formed frame
    sequence yields exactly its frames. *)

From S2P Require Import Prelude Incremental Datagram H3Error Frame.

#[local] Open Scope Z_scope.

(** ** Frame headers *)

Lemma header_complete_length h k l : header_complete h = Some (k, l) → (2 ≤ length h)%nat.
Proof.
  unfold header_complete. destruct (peek_varint h) as [[k' n]|] eqn:E1; [|done].
  destruct (peek_varint (drop n h)) as [[l' m]|] eqn:E2; [|done]. intros _.
  apply peek_varint_length in E1, E2. rewrite length_drop in E2. lia.
Qed.

(** A header is read whatever follows it, and one not whole yet is carried over. *)
Lemma take_frame_header_app h c more :
  match take_frame_header h c with
  | (None, h', c') => c' = [] ∧ take_frame_header h (c ++ more) = take_frame_header h' more
  | (Some f, h', c') => h' = [] ∧ take_frame_header h (c ++ more) = (Some f, [], c' ++ more) ∧
      (2 + length c' ≤ length h + length c)%nat
  end.
Proof.
  revert h. induction c as [|x c IH]; intros h.
  - unfold take_frame_header at 1. destruct (header_complete h) as [[k l]|] eqn:E; [|done].
    split; [done|]. split; [|apply header_complete_length in E; simpl; lia].
    destruct more; simpl; by rewrite E.
  - cbn [take_frame_header app]. destruct (header_complete h) as [[k l]|] eqn:E.
    + apply header_complete_length in E. simpl. split_and!; [done|done|lia].
    + specialize (IH (h ++ [x])). rewrite length_app in IH. simpl length in *.
      destruct (take_frame_header (h ++ [x]) c) as [[[f|] h'] c']; [|done].
      destruct IH as (? & ? & ?). split_and!; [done|done|lia].
Qed.

(** ** Draining terminates *)

Definition frame_size (x : FrameDecoder * Z) : nat :=
  2 * (length (chunk x.1) + length (header x.1)) + in_frame x.1.

Lemma take_from_spec r n :
  take_from r n = (N.to_nat (N.min r (N.of_nat n)), (r - N.min r (N.of_nat n))%N).
Proof. done. Qed.

(** [count_skip] touches nothing but its count. *)
Lemma count_skip_fields d :
  (count_skip d).1 = set_skipped (skipped (count_skip d).1) d.
Proof.
  unfold count_skip. case_decide; [case_match; by destruct d|by destruct d].
Qed.

Lemma item_step_size x :
  match item_step x with
  | inl y => (frame_size y < frame_size x)%nat
  | inr (y, Ok (Some _)) => (frame_size y < frame_size x)%nat
  | _ => True
  end.
Proof.
  destruct x as [d held]. unfold item_step, frame_size, in_frame. cbn [fst].
  destruct (state d) as [|r|k r|k r] eqn:Est.
  - pose proof (take_frame_header_app (header d) (chunk d) []) as Hh.
    destruct (take_frame_header (header d) (chunk d)) as [[[[kind len]|] h] c]; [|done].
    destruct Hh as (-> & _ & Hlen).
    destruct (begin _ kind len) as [st|]; [|done].
    destruct st; try (simpl; lia). destruct (charge _ _); [simpl; lia|done].
  - destruct (N.eqb_spec r 0); [simpl; lia|]. rewrite take_from_spec.
    case_decide as Ht; [done|]. cbn. rewrite length_drop.
    case_match; simpl; lia.
  - case_decide; [done|]. destruct (release _ _) as [d' h'] eqn:Er.
    injection Er as <- <-. destruct (parse _ _); simpl; [|done]. rewrite length_drop. lia.
  - destruct (take_from _ _) as [t l]. destruct (_ =? 0)%N; [|done].
    rewrite (surjective_pairing (count_skip _)).
    destruct (count_skip _).2; cbn; [|done]. rewrite count_skip_fields. cbn.
    rewrite length_drop. lia.
Qed.

Lemma next_item_unfold x :
  next_item x = match item_step x with inl y => next_item y | inr r => r end.
Proof. apply run_unfold. Qed.

Lemma next_item_shrinks x y i :
  next_item x = (y, Ok (Some i)) → (frame_size y < frame_size x)%nat.
Proof.
  unfold next_item. revert y i.
  apply (run_ind item_step (λ x r, ∀ y i, r = (y, Ok (Some i)) → (frame_size y < frame_size x)%nat)).
  - intros x' r E y i ->. pose proof (item_step_size x') as H. by rewrite E in H.
  - intros x' y' E IH y i Hr. pose proof (item_step_size x') as H. rewrite E in H.
    specialize (IH _ _ Hr). lia.
Qed.

#[export] Instance frame_shrinks : Shrinks next_item :=
  {| size_of := frame_size; next_shrinks := next_item_shrinks |}.

(** Draining, one turn of the loop at a time. *)
Lemma drain_items_unfold x :
  drain_all next_item x =
  match item_step x with
  | inl y => drain_all next_item y
  | inr (y, Ok (Some i)) => (i :: (drain_all next_item y).1, (drain_all next_item y).2)
  | inr (y, Ok None) => ([], Ok y)
  | inr (_, Err e) => ([], Err e)
  end.
Proof.
  rewrite (drain_all_unfold next_item x), next_item_unfold.
  destruct (item_step x) as [y|[y [[i|]|e]]]; try done.
  by rewrite (drain_all_unfold next_item y).
Qed.

(** ** Output up to how DATA is cut

    The chunk boundaries decide how a DATA frame's payload is cut into items, and
    nothing else: an empty DATA frame, every other frame and every skipped frame
    is one item wherever the boundaries fall. *)

Inductive Atom :=
  | DataByte (x : byte)
  | EmptyData
  | WholeFrame (f : Frame)
  | SkippedFrame (kind : Z).

Definition atoms (i : Item) : list Atom :=
  match i with
  | Data [] => [EmptyData]
  | Data l => map DataByte l
  | FrameItem f => [WholeFrame f]
  | Skipped kind => [SkippedFrame kind]
  end.

Definition output (items : list Item) : list Atom := concat (map atoms items).

Definition same_items (l1 l2 : list Item) : Prop := output l1 = output l2.

#[export] Instance same_items_equivalence : Equivalence same_items.
Proof. unfold same_items. split; [done|congruence|congruence]. Qed.

Lemma output_app l1 l2 : output (l1 ++ l2) = output l1 ++ output l2.
Proof. unfold output. by rewrite map_app, concat_app. Qed.

#[export] Instance same_items_app : Proper (same_items ==> same_items ==> same_items) app.
Proof. intros l1 l1' H1 l2 l2' H2. unfold same_items in *. by rewrite !output_app, H1, H2. Qed.

Lemma atoms_data l : l ≠ [] → atoms (Data l) = map DataByte l.
Proof. by destruct l. Qed.

(** ** More bytes after the chunk *)

Definition extend (more : bytes) (x : FrameDecoder * Z) : FrameDecoder * Z :=
  (set_chunk (chunk x.1 ++ more) x.1, x.2).

(** A drained decoder has spent its chunk and asks for more. *)
Definition frame_ready (x : FrameDecoder * Z) : Prop := item_step x = inr (x, Ok None).

Lemma set_chunk_id d : set_chunk (chunk d) d = d.
Proof. by destruct d. Qed.

Lemma extend_nil x : extend [] x = x.
Proof. destruct x as [d h]. unfold extend; simpl. by rewrite app_nil_r, set_chunk_id. Qed.

(** The three ways a turn of the loop relates to the turn with more bytes at hand. *)
Inductive turn_with (more : bytes) (x : FrameDecoder * Z) : Prop :=
  | turn_same :
      (match item_step x with
       | inl y => item_step (extend more x) = inl (extend more y)
       | inr (y, Ok (Some i)) => item_step (extend more x) = inr (extend more y, Ok (Some i))
       | inr (y, Ok None) => False
       | inr (y, Err v) => ∃ y', item_step (extend more x) = inr (y', Err v)
       end) → turn_with more x
  | turn_waits y :
      item_step x = inr (y, Ok None) → chunk y.1 = [] → frame_ready y →
      item_step (extend more x) = item_step (extend more y) → turn_with more x
  | turn_partial_data d held r :
      x = (d, held) → state d = StData r → chunk d ≠ [] →
      (N.of_nat (length (chunk d)) < r)%N → turn_with more x.

#[local] Arguments take_frame_header : simpl never.
#[local] Arguments begin : simpl never.
#[local] Arguments charge : simpl never.
#[local] Arguments take : simpl never.
#[local] Arguments drop : simpl never.

Lemma turn_header more d held : state d = StHeader → turn_with more (d, held).
Proof.
  intros Hst. pose proof (take_frame_header_app (header d) (chunk d) more) as Hm.
  pose proof (take_frame_header_app (header d) (chunk d) []) as Hn.
  rewrite app_nil_r in Hn.
  destruct (take_frame_header (header d) (chunk d)) as [[[[kind len]|] h] c] eqn:Eh.
  - apply turn_same. destruct Hm as (-> & Hm & _). unfold extend, item_step; cbn.
    rewrite Hst, Eh, Hm. cbn.
    destruct (begin (stream d) kind len) as [st|v]; [|eauto].
    destruct st as [|r|k r|k r]; try done. destruct (charge _ _); [done|eauto].
  - destruct Hm as (-> & Hm). destruct Hn as (_ & Hn).
    apply (turn_waits _ _ (set_header h (set_chunk [] d), held)).
    + unfold item_step. by rewrite Hst, Eh.
    + done.
    + unfold frame_ready, item_step; cbn. rewrite Hst, <- Hn. done.
    + unfold extend, item_step; cbn. rewrite Hst, Hm. done.
Qed.

Lemma turn_data more d held r : state d = StData r → turn_with more (d, held).
Proof.
  intros Hst. destruct (N.eqb_spec r 0) as [->|Hr].
  { apply turn_same. unfold extend, item_step; cbn. by rewrite Hst. }
  destruct (decide (chunk d = [])) as [Hc|Hc].
  { apply (turn_waits _ _ (d, held)); [|done| |done];
      unfold frame_ready, item_step; rewrite Hst, Hc;
      rewrite (proj2 (N.eqb_neq r 0)) by done; unfold take_from;
      rewrite N.min_0_r; done. }
  assert (0 < length (chunk d))%nat by (destruct (chunk d); [done|simpl; lia]).
  destruct (N.ltb_spec (N.of_nat (length (chunk d))) r) as [Hlt|Hge].
  { by eapply (turn_partial_data _ _ d held r). }
  apply turn_same. unfold extend, item_step; cbn. rewrite Hst.
  rewrite (proj2 (N.eqb_neq r 0)) by done. unfold take_from. rewrite length_app.
  rewrite !N.min_l by lia. rewrite N.sub_diag. cbn.
  rewrite !decide_False by lia. rewrite take_app_le, drop_app_le by lia. done.
Qed.

Lemma turn_buffering more d held k r : state d = StBuffering k r → turn_with more (d, held).
Proof.
  intros Hst. destruct (Nat.ltb_spec (length (chunk d)) r) as [Hlt|Hge].
  - apply (turn_waits _ _ (set_state (StBuffering k (r - length (chunk d)))
      (set_payload (payload d ++ chunk d) (set_chunk [] d)), held)).
    + unfold item_step. rewrite Hst. rewrite Nat.min_r by lia.
      rewrite decide_True by lia. cbn. by rewrite take_ge, drop_ge by lia.
    + done.
    + unfold frame_ready, item_step; cbn. rewrite Nat.min_0_r, decide_True by lia.
      cbn. rewrite app_nil_r, Nat.sub_0_r. done.
    + unfold extend, item_step; cbn. rewrite Hst. rewrite length_app.
      destruct (decide (length (chunk d) + length more < r)%nat) as [Hl|Hl].
      * rewrite !Nat.min_r by lia. rewrite !decide_True by lia.
        rewrite (take_ge (chunk d ++ more)), (drop_ge (chunk d ++ more)) by (rewrite length_app; lia).
        rewrite (take_ge more), (drop_ge more) by lia.
        unfold set_state, set_payload, set_chunk; cbn. rewrite app_assoc.
        by replace (r - length (chunk d) - length more)%nat
          with (r - (length (chunk d) + length more))%nat by lia.
      * rewrite !Nat.min_l by lia. rewrite !decide_False by lia. cbn.
        rewrite take_app_ge, drop_app_ge by lia. by rewrite app_assoc.
  - apply turn_same. unfold extend, item_step; cbn. rewrite Hst.
    rewrite length_app, !Nat.min_l by lia. rewrite !decide_False by lia. cbn.
    rewrite take_app_le, drop_app_le by lia.
    destruct (parse k _); cbn; [done|eauto].
Qed.

Lemma count_skip_set_chunk d c :
  count_skip (set_chunk c d) = (set_chunk c (count_skip d).1, (count_skip d).2).
Proof. unfold count_skip. cbn. case_decide; [case_match|]; done. Qed.

Lemma turn_skipping more d held k r : state d = StSkipping k r → turn_with more (d, held).
Proof.
  intros Hst. destruct (N.ltb_spec (N.of_nat (length (chunk d))) r) as [Hlt|Hge].
  - apply (turn_waits _ _ (set_state (StSkipping k (r - N.of_nat (length (chunk d))))
      (set_chunk [] d), held)).
    + unfold item_step. rewrite Hst. unfold take_from. rewrite N.min_r by lia.
      rewrite (proj2 (N.eqb_neq _ 0)) by lia. rewrite Nat2N.id, drop_all. done.
    + done.
    + unfold frame_ready, item_step; cbn. unfold take_from. rewrite N.min_0_r, N.sub_0_r.
      rewrite (proj2 (N.eqb_neq _ 0)) by lia. done.
    + unfold extend, item_step; cbn. rewrite Hst. unfold take_from. rewrite length_app.
      destruct (N.ltb_spec (N.of_nat (length (chunk d) + length more)) r) as [Hl|Hl].
      * rewrite !N.min_r by lia. rewrite !(proj2 (N.eqb_neq _ 0)) by lia.
        rewrite !Nat2N.id, drop_all.
        rewrite (drop_ge (chunk d ++ more)) by (rewrite length_app; lia).
        unfold set_state, set_chunk; cbn. do 5 f_equal. lia.
      * rewrite !N.min_l by lia. rewrite !N.sub_diag. cbn [N.eqb].
        rewrite drop_app_ge by lia.
        replace (N.to_nat (r - N.of_nat (length (chunk d))))
          with (N.to_nat r - length (chunk d))%nat by lia. done.
  - apply turn_same. unfold extend, item_step; cbn. rewrite Hst.
    unfold take_from. rewrite length_app, !N.min_l by lia. rewrite !N.sub_diag. cbn [N.eqb].
    rewrite drop_app_le by lia. unfold set_state, set_chunk; cbn.
    set (d1 := mkDecoder _ _ _ _ _ _ StHeader).
    set (d2 := mkDecoder _ _ _ _ _ _ StHeader).
    assert (d2 = set_chunk (drop (N.to_nat r) (chunk d) ++ more) d1) as -> by done.
    rewrite count_skip_set_chunk. rewrite (surjective_pairing (count_skip d1)).
    destruct (count_skip d1).2; cbn; [|eauto]. rewrite count_skip_fields. done.
Qed.

Lemma turn_cases more x : turn_with more x.
Proof.
  destruct x as [d held]. destruct (state d) as [|r|k r|k r] eqn:Hst.
  - by apply turn_header.
  - by eapply turn_data.
  - by eapply turn_buffering.
  - by eapply turn_skipping.
Qed.

(** ** The two-chunk law *)

Definition same_drained (a b : drained (FrameDecoder * Z) Item Violation) : Prop :=
  same_items a.1 b.1 ∧ a.2 = b.2.

#[export] Instance same_drained_equivalence : Equivalence same_drained.
Proof.
  split.
  - intros x. split; reflexivity.
  - intros x y [H1 H2]. split; by symmetry.
  - intros x y z [H1 H2] [H3 H4]. split; etrans; eauto.
Qed.

(** A DATA payload cut short by the end of the chunk: what is left of it comes out
    of the next chunk. *)
Lemma drain_partial_data d held r more :
  state d = StData r → chunk d ≠ [] → (N.of_nat (length (chunk d)) < r)%N →
  let rest := (set_state (StData (r - N.of_nat (length (chunk d)))) (set_chunk [] d), held) in
  drain_all next_item (d, held) = ([Data (chunk d)], Ok rest) ∧
  same_drained (drain_all next_item (extend more (d, held)))
    (then_drain ([Data (chunk d)], Ok rest) (λ y, drain_all next_item (extend more y))).
Proof.
  intros Hst Hc Hlt rest.
  assert (0 < length (chunk d))%nat by (destruct (chunk d); [done|simpl; lia]).
  assert (drain_all next_item rest = ([], Ok rest)) as Hrest.
  { rewrite drain_items_unfold. unfold item_step; cbn.
    rewrite (proj2 (N.eqb_neq _ 0)) by lia. unfold take_from. rewrite N.min_0_r. done. }
  assert (drain_all next_item (d, held) = ([Data (chunk d)], Ok rest)) as Hd.
  { rewrite drain_items_unfold. unfold item_step. rewrite Hst.
    rewrite (proj2 (N.eqb_neq r 0)) by lia. unfold take_from. rewrite N.min_r by lia.
    rewrite Nat2N.id, decide_False by lia. rewrite (proj2 (N.eqb_neq _ 0)) by lia.
    rewrite take_ge, drop_all by lia. fold rest. by rewrite Hrest. }
  split; [done|]. cbn [then_drain].
  destruct (decide (more = [])) as [->|Hm].
  { rewrite !extend_nil, Hd, Hrest. done. }
  assert (0 < length more)%nat by (destruct more; [done|simpl; lia]).
  rewrite (drain_items_unfold (extend more (d, held))), (drain_items_unfold (extend more rest)).
  unfold extend, item_step; cbn. rewrite Hst.
  rewrite (proj2 (N.eqb_neq r 0)), 
    (proj2 (N.eqb_neq (r - N.of_nat (length (chunk d))) 0)) by lia.
  unfold take_from. rewrite length_app.
  set (t := N.to_nat (N.min (r - N.of_nat (length (chunk d))) (N.of_nat (length more)))).
  replace (N.to_nat (N.min r (N.of_nat (length (chunk d) + length more))))
    with (length (chunk d) + t)%nat by (unfold t; lia).
  rewrite !decide_False by (unfold t; lia).
  rewrite take_app_ge, drop_app_ge by lia.
  replace (length (chunk d) + t - length (chunk d))%nat with t by lia.
  replace (r - N.min r (N.of_nat (length (chunk d) + length more)))%N
    with (r - N.of_nat (length (chunk d)) -
          N.min (r - N.of_nat (length (chunk d))) (N.of_nat (length more)))%N by lia.
  set (next := (set_state _ _, held)) at 1 2.
  change (set_state _ _, held) with next.
  split; cbn; [|done]. unfold same_items, output. cbn [map concat app].
  assert (take t more ≠ []) as Ht.
  { destruct more; [done|]. unfold t. destruct (N.to_nat _) eqn:Et; [simpl in *; lia|done]. }
  rewrite !atoms_data by (done || (destruct (chunk d); done)).
  by rewrite map_app, app_assoc.
Qed.

Lemma drain_items_app x more :
  same_drained (drain_all next_item (extend more x))
    (then_drain (drain_all next_item x) (λ y, drain_all next_item (extend more y))).
Proof.
  induction x as [x IH] using (induction_ltof1 _ frame_size).
  destruct (turn_cases more x) as [Hs|y Hy Hc Hr He|d held r -> Hst Hc Hlt].
  - pose proof (item_step_size x) as Hsize.
    rewrite (drain_items_unfold x), (drain_items_unfold (extend more x)).
    destruct (item_step x) as [y|[y [[i|]|v]]]; [| |done|].
    + rewrite Hs. by apply IH.
    + rewrite Hs. destruct (IH y Hsize) as [H1 H2].
      destruct (drain_all next_item y) as [items [z|e]]; cbn in *.
      * destruct (drain_all next_item (extend more z)) as [items' r']. cbn in *.
        split; [|done]. unfold same_items, output in *. cbn in *. by rewrite H1.
      * split; [|done]. unfold same_items, output in *. cbn in *. by rewrite H1.
    + destruct Hs as (y' & ->). done.
  - rewrite (drain_items_unfold x), Hy. cbn [then_drain].
    rewrite (drain_items_unfold (extend more x)), He, <- drain_items_unfold.
    by destruct (drain_all next_item (extend more y)).
  - destruct (drain_partial_data d held r more Hst Hc Hlt) as [-> H]. exact H.
Qed.

Lemma drain_items_ready x y :
  (drain_all next_item x).2 = Ok y → frame_ready y ∧ chunk y.1 = [].
Proof.
  induction x as [x IH] using (induction_ltof1 _ frame_size).
  pose proof (item_step_size x) as Hsize.
  destruct (turn_cases [] x) as [Hs|z Hy Hc Hr He|d held r -> Hst Hc Hlt].
  - rewrite drain_items_unfold. destruct (item_step x) as [z|[z [[i|]|v]]]; try done; by apply IH.
  - rewrite drain_items_unfold, Hy. cbn. intros [= <-]. done.
  - destruct (drain_partial_data d held r [] Hst Hc Hlt) as [-> _]. cbn. intros [= <-].
    split; [|done]. unfold frame_ready, item_step; cbn.
    rewrite (proj2 (N.eqb_neq _ 0)) by lia. unfold take_from. by rewrite N.min_0_r.
Qed.

(** The decoder with the budget it draws on, as a decoder fed in chunks. *)
#[export] Program Instance frame_incremental :
    IncrementalDecoder (FrameDecoder * Z) Item Violation := {|
  push x c := (push_bytes x.1 c, x.2);
  drain := drain_all next_item;
  ready x := frame_ready x ∧ chunk x.1 = [];
  items_equiv := same_items;
|}.
Next Obligation.
  intros [d h] [Hr Hc]. cbn in *. unfold push_bytes.
  rewrite <- Hc, set_chunk_id, drain_items_unfold, Hr. done.
Qed.
Next Obligation. intros x c y _. apply drain_items_ready. Qed.
Next Obligation.
  intros [d h] c more [Hr Hc]. cbn.
  assert (push_bytes d (c ++ more) = (extend more (push_bytes d c, h)).1) as -> by done.
  change ((extend more (push_bytes d c, h)).1, h) with (extend more (push_bytes d c, h)).
  pose proof (drain_items_app (push_bytes d c, h) more) as [H1 H2].
  pose proof (drain_items_ready (push_bytes d c, h)) as Hready.
  destruct (drain_all next_item (push_bytes d c, h)) as [items [y|e]]; [|done].
  destruct (Hready y eq_refl) as [_ Hcy].
  assert (extend more y = (push_bytes y.1 more, y.2)) as Hy.
  { unfold extend. by rewrite Hcy. }
  cbn in *. rewrite Hy in H1, H2. done.
Qed.

(** ** Well-formed frame sequences *)

(** A frame on the wire: a type and a length in any varint encoding, and that many
    bytes of payload. *)
Inductive frame_wire : Z → bytes → bytes → Prop :=
  | frame_wire_intro kind payload wk wl :
      is_varint wk kind → is_varint wl (blen payload) →
      frame_wire kind payload (wk ++ wl ++ payload).

(** What one frame means on a stream: nothing but its own item, and whether it is
    one that is skipped. *)
Inductive frame_event (s : StreamKind) (kind : Z) (payload : bytes) : list Atom → Z → Prop :=
  | event_data :
      kind = DATA → payload ≠ [] → frame_event s kind payload (map DataByte payload) 0
  | event_empty_data :
      kind = DATA → payload = [] → frame_event s kind payload [EmptyData] 0
  | event_frame k f :
      misplaced s kind = None → from_type kind = Some k →
      blen payload ≤ MAX_BUFFERED_FRAME → parse k payload = Ok f →
      frame_event s kind payload [WholeFrame f] 0
  | event_skipped :
      kind ∉ RESERVED_HTTP2_TYPES → kind ≠ DATA → from_type kind = None →
      frame_event s kind payload [SkippedFrame kind] 1.

Inductive frame_sequence (s : StreamKind) : bytes → list Atom → Z → Prop :=
  | frame_sequence_nil : frame_sequence s [] [] 0
  | frame_sequence_cons kind payload w out k ws outs n :
      frame_wire kind payload w → frame_event s kind payload out k →
      frame_sequence s ws outs n →
      frame_sequence s (w ++ ws) (out ++ outs) (k + n).

Lemma frame_sequence_skips s ws outs n : frame_sequence s ws outs n → 0 ≤ n.
Proof. induction 1 as [|? ? ? ? ? ? ? ? _ Hev]; [lia|]. destruct Hev; lia. Qed.

(** A whole header at the front of a chunk is taken, however long the varints. *)
Lemma take_frame_header_whole wk wl kind len rest :
  is_varint wk kind → is_varint wl len →
  take_frame_header [] (wk ++ wl ++ rest) = (Some (kind, len), [], rest).
Proof.
  intros Hk Hl.
  assert (header_complete (wk ++ wl) = Some (kind, len)) as Hwhole.
  { unfold header_complete. rewrite (peek_varint_app _ wl _ _ Hk), drop_app_length. by rewrite Hl. }
  assert (∀ p q, p ++ q = wk ++ wl → q ≠ [] → header_complete p = None) as Hpart.
  { intros p q Hpq Hq. unfold header_complete.
    destruct (peek_varint p) as [[k1 n1]|] eqn:E1; [|done].
    pose proof (peek_varint_length _ _ _ E1) as Hn1.
    apply (peek_varint_app _ q) in E1. rewrite Hpq, (peek_varint_app _ wl _ _ Hk) in E1.
    injection E1 as <- <-.
    destruct (peek_varint (drop (length wk) p)) as [[l1 n2]|] eqn:E2; [|done].
    pose proof (peek_varint_length _ _ _ E2) as Hn2. rewrite length_drop in Hn2.
    assert (drop (length wk) p ++ q = wl) as Hwl.
    { rewrite <- drop_app_le by lia. rewrite Hpq. apply drop_app_length. }
    apply (peek_varint_app _ q) in E2. rewrite Hwl, Hl in E2. injection E2 as _ E2.
    apply (f_equal length) in Hwl. rewrite length_app, length_drop in Hwl.
    destruct q; [done|simpl in Hwl; lia]. }
  assert (∀ q p, p ++ q = wk ++ wl →
    take_frame_header p (q ++ rest) = (Some (kind, len), [], rest)) as Hgen.
  { induction q as [|x q IH]; intros p Hpq.
    - rewrite app_nil_r in Hpq. subst p. cbn [app]. unfold take_frame_header.
      destruct rest; by rewrite Hwhole.
    - cbn [app]. unfold take_frame_header. rewrite (Hpart p (x :: q) Hpq ltac:(done)).
      apply IH. by rewrite <- app_assoc. }
  rewrite app_assoc. by apply Hgen.
Qed.

(** A decoder between frames, with the frames to come in its chunk. *)
Definition idle (s : StreamKind) (ws : bytes) (sk : Z) : FrameDecoder :=
  mkDecoder ws [] [] 0 s sk StHeader.

Lemma from_type_not_reserved kind k :
  from_type kind = Some k → (kind ∉ RESERVED_HTTP2_TYPES) ∧ kind ≠ DATA.
Proof.
  unfold from_type. intros H.
  assert (kind = HEADERS ∨ kind = SETTINGS ∨ kind = GOAWAY ∨ kind = CANCEL_PUSH ∨
    kind = MAX_PUSH_ID ∨ kind = PUSH_PROMISE) as Hk.
  { repeat (case_match; [match goal with H : (_ =? _) = true |- _ => apply Z.eqb_eq in H end; auto 10|]).
    done. }
  destruct Hk as [->|[->|[->|[->|[->| ->]]]]]; (split; [|done]);
    apply (bool_decide_unpack _); vm_compute; done.
Qed.

Lemma from_type_none_misplaced s kind : from_type kind = None → misplaced s kind = None.
Proof.
  unfold from_type, misplaced. intros H. destruct s; [done| |].
  - repeat (case_match; try done).
  - destruct (kind =? DATA); [done|]. unfold from_type. by rewrite H.
Qed.

Lemma begin_event s kind payload out n :
  frame_event s kind payload out n →
  begin s kind (blen payload) =
  Ok (if kind =? DATA then StData (N.of_nat (length payload))
      else match from_type kind with
           | Some k => StBuffering k (length payload)
           | None => StSkipping kind (N.of_nat (length payload))
           end).
Proof.
  assert (Z.to_N (blen payload) = N.of_nat (length payload)) as HN by (unfold blen; lia).
  assert (∀ s, begin s DATA (blen payload) = Ok (StData (N.of_nat (length payload)))) as Hdata.
  { intros []; unfold begin; cbn; by rewrite HN. }
  intros [-> _| -> _|k f Hm Hk Hle Hp|Hr Hd Hk].
  - apply Hdata.
  - apply Hdata.
  - destruct (from_type_not_reserved _ _ Hk) as [Hr Hd].
    unfold begin. rewrite decide_False by done. rewrite Hm, Hk.
    rewrite (proj2 (Z.eqb_neq kind DATA)) by done.
    destruct (Z.ltb_spec MAX_BUFFERED_FRAME (blen payload)); [lia|].
    unfold blen. by rewrite Nat2Z.id.
  - unfold begin. rewrite decide_False by done.
    rewrite (from_type_none_misplaced s kind Hk), Hk.
    by rewrite (proj2 (Z.eqb_neq kind DATA)), HN by done.
Qed.

Lemma item_step_header s kind payload w ws sk held :
  frame_wire kind payload w →
  item_step (idle s (w ++ ws) sk, held) =
  match begin s kind (blen payload) with
  | Err v => inr ((idle s (payload ++ ws) sk, held), Err v)
  | Ok (StBuffering k remaining) =>
      match charge held (Z.of_nat remaining) with
      | Err v => inr ((idle s (payload ++ ws) sk, held), Err v)
      | Ok held =>
          inl (set_state (StBuffering k remaining)
                 (set_charged (Z.of_nat remaining) (idle s (payload ++ ws) sk)), held)
      end
  | Ok next => inl (set_state next (idle s (payload ++ ws) sk), held)
  end.
Proof.
  intros [kind' payload' wk wl Hk Hl]. unfold item_step, idle; cbn [state header chunk].
  rewrite <- !app_assoc, (take_frame_header_whole wk wl kind' (blen payload')) by done. done.
Qed.

(** One frame of a sequence: its atoms, and the decoder between frames again. *)
Lemma drain_one_frame s kind payload w out k ws sk held :
  frame_wire kind payload w → frame_event s kind payload out k →
  0 ≤ held → held + MAX_BUFFERED_FRAME ≤ HEADERS_BUFFER_BUDGET →
  0 ≤ sk → (s = Request → sk + k ≤ MAX_SKIPPED_FRAMES) →
  let sk' := if decide (s = Request) then sk + k else sk in
  ∃ i, output [i] = out ∧
    drain_all next_item (idle s (w ++ ws) sk, held) =
    (i :: (drain_all next_item (idle s ws sk', held)).1,
     (drain_all next_item (idle s ws sk', held)).2).
Proof.
  intros Hw Hev Hh Hbudget Hsk Hskip sk'.
  rewrite (drain_items_unfold (idle s (w ++ ws) sk, held)), (item_step_header _ _ _ _ _ _ _ Hw).
  rewrite (begin_event _ _ _ _ _ Hev). destruct Hev as [-> Hp| -> ->|k f Hm Hk Hle Hp|Hr Hd Hk].
  - assert (sk' = sk) as -> by (unfold sk'; case_decide; lia).
    exists (Data payload). split; [destruct payload; [done|]; unfold output; cbn; by rewrite app_nil_r|].
    cbn [Z.eqb DATA]. rewrite drain_items_unfold. unfold item_step; cbn.
    assert (0 < length payload)%nat by (destruct payload; [done|simpl; lia]).
    rewrite (proj2 (N.eqb_neq _ 0)) by lia. unfold take_from. rewrite length_app.
    rewrite N.min_l by lia. rewrite Nat2N.id, N.sub_diag, decide_False by lia. cbn.
    by rewrite take_app_length, drop_app_length.
  - assert (sk' = sk) as -> by (unfold sk'; case_decide; lia).
    exists (Data []). split; [done|]. cbn [Z.eqb DATA]. by rewrite drain_items_unfold.
  - assert (sk' = sk) as -> by (unfold sk'; case_decide; lia).
    destruct (from_type_not_reserved _ _ Hk) as [_ Hd].
    rewrite (proj2 (Z.eqb_neq kind DATA)), Hk by done.
    exists (FrameItem f). split; [done|].
    assert (charge held (Z.of_nat (length payload)) = Ok (held + blen payload)) as ->.
    { unfold charge, saturating_add, blen in *. change HEADERS_BUFFER_BUDGET with 1048576 in *.
      change MAX_BUFFERED_FRAME with 65536 in *. rewrite Z.min_l by lia.
      rewrite (proj2 (Z.leb_le _ _)) by lia. done. }
    rewrite drain_items_unfold. unfold item_step; cbn.
    rewrite length_app, Nat.min_l, decide_False by lia.
    rewrite take_app_length, drop_app_length, Hp. cbn.
    assert (release_bytes (held + blen payload) (Z.of_nat (length payload)) = held) as ->.
    { unfold release_bytes, saturating_sub, blen. case_match; lia. }
    done.
  - rewrite (proj2 (Z.eqb_neq kind DATA)), Hk by done.
    exists (Skipped kind). split; [done|]. rewrite drain_items_unfold. unfold item_step; cbn.
    unfold take_from. rewrite length_app, N.min_l, N.sub_diag, Nat2N.id by lia. cbn.
    rewrite drop_app_length. unfold count_skip, sk'; cbn.
    destruct (decide (s = Request)) as [->|Hs]; [|done].
    specialize (Hskip eq_refl). unfold saturating_add. change MAX_SKIPPED_FRAMES with 4096 in *.
    rewrite Z.min_l by lia. destruct (Z.ltb_spec 4096 (sk + 1)); [lia|]. done.
Qed.

Lemma drain_frame_sequence s ws outs n sk held :
  frame_sequence s ws outs n →
  0 ≤ held → held + MAX_BUFFERED_FRAME ≤ HEADERS_BUFFER_BUDGET →
  0 ≤ sk → (s = Request → sk + n ≤ MAX_SKIPPED_FRAMES) →
  output (drain_all next_item (idle s ws sk, held)).1 = outs ∧
  (drain_all next_item (idle s ws sk, held)).2 =
    Ok (idle s [] (if decide (s = Request) then sk + n else sk), held).
Proof.
  intros Hseq Hh Hb. revert sk.
  induction Hseq as [|kind payload w out k ws outs n Hw Hev Hseq IH]; intros sk Hsk Hskip.
  - rewrite drain_items_unfold. cbn. split; [done|]. case_decide; by rewrite ?Z.add_0_r.
  - assert (0 ≤ k) by (destruct Hev; lia). pose proof (frame_sequence_skips _ _ _ _ Hseq).
    destruct (drain_one_frame s kind payload w out k ws sk held) as (i & Hi & ->);
      [done..|intros Hs; specialize (Hskip Hs); lia|].
    set (sk' := if decide (s = Request) then sk + k else sk) in *.
    destruct (IH sk') as [H1 H2].
    + unfold sk'. case_decide; lia.
    + intros Hs. specialize (Hskip Hs). unfold sk'. rewrite decide_True by done. lia.
    + cbn. change (output (i :: ?l)) with (output ([i] ++ l)).
      split; [|rewrite H2; unfold sk'; case_decide; by rewrite ?Z.add_assoc].
      rewrite <- H1, <- Hi. by rewrite <- output_app.
Qed.

(** ** Properties *)

(** C27: where the chunk boundaries fall changes only how DATA payload is cut into
    items.  A frame decoder, on whatever stream, in whatever state of the
    connection's budget, yields the same bytes of DATA, the same frames and the
    same skipped frames in the same order, and fails with the same violation or
    ends in the same state, however the stream's bytes are cut into chunks. *)
Theorem frame_chunking s held chunks1 chunks2 :
  concat chunks1 = concat chunks2 →
  let r1 := feed (new s, held) chunks1 in
  let r2 := feed (new s, held) chunks2 in
  output r1.1 = output r2.1 ∧ r1.2 = r2.2.
Proof.
  intros Heq. assert (ready (new s, held)) as Hr by done.
  exact (feed_chunking (new s, held) chunks1 chunks2 Hr Heq).
Qed.

Lemma frame_chunking_witness :
  let r1 := feed (new Request, 0) (map (λ x, [x]) (map as_u8 [0; 2; 7; 8; 0x21; 1; 9])) in
  let r2 := feed (new Request, 0) [map as_u8 [0; 2; 7; 8; 0x21; 1; 9]] in
  output r1.1 = output r2.1 ∧ r1.2 = r2.2.
Proof. apply frame_chunking. reflexivity. Defined.

(** A well-formed frame sequence, in whatever chunks it arrives, yields
    exactly its frames in order (DATA payload byte for byte), skips the types this
    server does not know, returns to the budget everything it took, and leaves
    the decoder at a frame boundary, where the stream may end. *)
Theorem frame_sequence_decoded s chunks outs n held :
  frame_sequence s (concat chunks) outs n →
  0 ≤ held → held + MAX_BUFFERED_FRAME ≤ HEADERS_BUFFER_BUDGET →
  (s = Request → n ≤ MAX_SKIPPED_FRAMES) →
  ∃ items d, feed (new s, held) chunks = (items, Ok (d, held)) ∧ output items = outs ∧
    at_frame_boundary d = true ∧ charged d = 0.
Proof.
  intros Hseq Hh Hb Hn. assert (ready (new s, held)) as Hr by done.
  destruct (feed_concat (new s, held) chunks Hr) as [H1 H2]. cbn in H1, H2.
  change (push_bytes (new s) (concat chunks)) with (idle s (concat chunks) 0) in H1, H2.
  destruct (drain_frame_sequence s (concat chunks) outs n 0 held) as [H3 H4]; [done..|].
  rewrite H4 in H2. destruct (feed (new s, held) chunks) as [items r]. cbn in *. subst r.
  eexists items, _. split; [done|]. split; [by rewrite <- H3|]. done.
Qed.

Lemma frame_sequence_decoded_witness :
  ∃ items d, feed (new Request, 0) [map as_u8 [1; 2; 0]; map as_u8 [0; 0; 1; 5]] =
      (items, Ok (d, 0)) ∧
    output items = [WholeFrame (Headers (map as_u8 [0; 0])); DataByte (as_u8 5)] ∧
    at_frame_boundary d = true ∧ charged d = 0.
Proof.
  apply (frame_sequence_decoded Request _ _ 0); [|lia|vm_compute; discriminate|discriminate].
  cbn [concat app map].
  apply (frame_sequence_cons Request HEADERS (map as_u8 [0; 0]) (map as_u8 [1; 2; 0; 0])
    [WholeFrame (Headers (map as_u8 [0; 0]))] 0 (map as_u8 [0; 1; 5]) [DataByte (as_u8 5)] 0).
  - apply (frame_wire_intro HEADERS (map as_u8 [0; 0]) [as_u8 1] [as_u8 2]); reflexivity.
  - apply (event_frame Request HEADERS (map as_u8 [0; 0]) KHeaders);
      [reflexivity|reflexivity|vm_compute; discriminate|reflexivity].
  - apply (frame_sequence_cons Request DATA (map as_u8 [5]) (map as_u8 [0; 1; 5])
      [DataByte (as_u8 5)] 0 [] [] 0).
    + apply (frame_wire_intro DATA (map as_u8 [5]) [as_u8 0] [as_u8 1]); reflexivity.
    + apply (event_data Request DATA (map as_u8 [5])); [reflexivity|discriminate].
    + constructor.
Defined.
