(* ===== verification/FrameBudget.v ===== *)
(** * The buffering budget of a connection (src/src/h3/frame.rs, BufferBudget)

    The decoders of one connection share one counter of bytes held in unfinished
    frames.  This file models the connection as the map of its decoders and that
    counter, with every operation that reaches either as a step, and shows that
    the counter is exact, that it never passes the budget, and that the memory a
    peer can make the decoders hold is bounded by it whatever it sends and on
    however many streams. *)

From S2P Require Import Prelude Incremental Datagram H3Error Frame.

#[local] Open Scope Z_scope.

(** ** The connection *)

Record Conn := mkConn {
  decoders : gmap nat FrameDecoder;
  held : Z;
}.

Definition conn_new : Conn := mkConn ∅ 0.

(** What the tasks of a connection do with its decoders.  A stream is read by one
    task, so each operation names the stream; the counter is updated atomically,
    so operations on different streams interleave as whole steps. *)
Inductive Op :=
  | OpOpen (id : nat) (s : StreamKind)
  | OpPush (id : nat) (c : bytes)
  | OpNext (id : nat)
  | OpConnectCompleted (id : nat)
  | OpDrop (id : nat).

Definition conn_step (c : Conn) (op : Op) : option Conn :=
  match op with
  | OpOpen id s =>
      match decoders c !! id with
      | Some _ => None
      | None => Some (mkConn (<[id := new s]> (decoders c)) (held c))
      end
  | OpPush id bytes =>
      match decoders c !! id with
      | Some d =>
          match chunk d with
          | [] => Some (mkConn (<[id := push_bytes d bytes]> (decoders c)) (held c))
          | _ => None
          end
      | None => None
      end
  | OpNext id =>
      match decoders c !! id with
      | Some d =>
          let '((d, h), _) := next_item (d, held c) in
          Some (mkConn (<[id := d]> (decoders c)) h)
      | None => None
      end
  | OpConnectCompleted id =>
      match decoders c !! id with
      | Some d => Some (mkConn (<[id := connect_completed d]> (decoders c)) (held c))
      | None => None
      end
  | OpDrop id =>
      match decoders c !! id with
      | Some d => Some (mkConn (delete id (decoders c)) (drop_decoder d (held c)))
      | None => None
      end
  end.

Inductive reachable : Conn → Prop :=
  | reachable_new : reachable conn_new
  | reachable_step c op c' : reachable c → conn_step c op = Some c' → reachable c'.

(** ** Sums over the decoders *)

Definition total (f : FrameDecoder → Z) (m : gmap nat FrameDecoder) : Z :=
  map_fold (λ _ d acc, f d + acc) 0 m.

Lemma total_empty f : total f ∅ = 0.
Proof. apply map_fold_empty. Qed.

Lemma total_insert f m i d :
  m !! i = None → total f (<[i := d]> m) = f d + total f m.
Proof.
  intros Hi. unfold total. rewrite map_fold_insert_L; [done| |done].
  intros. lia.
Qed.

Lemma total_delete f m i d :
  m !! i = Some d → total f m = f d + total f (delete i m).
Proof.
  intros Hi. rewrite <- (total_insert f (delete i m) i d) by apply lookup_delete_eq.
  by rewrite insert_delete_id.
Qed.

Lemma total_update f m i d d' :
  m !! i = Some d → total f (<[i := d']> m) = total f m - f d + f d'.
Proof.
  intros Hi. rewrite (total_delete f m i d Hi), <- insert_delete_eq.
  rewrite total_insert by apply lookup_delete_eq. lia.
Qed.

Lemma total_le f g m :
  (∀ i d, m !! i = Some d → f d ≤ g d) → total f m ≤ total g m.
Proof.
  induction m as [|i d m Hi IH] using map_ind; intros Hle; [by rewrite !total_empty|].
  rewrite !total_insert by done.
  assert (f d ≤ g d) by (apply (Hle i); apply lookup_insert_eq).
  assert (total f m ≤ total g m); [|lia].
  apply IH. intros j e Hj. apply (Hle j). rewrite lookup_insert_ne; [done|].
  intros ->. congruence.
Qed.

(** ** The invariant of one decoder

    A decoder has in the counter exactly the length its unfinished frame
    announced, of which [payload] has arrived and the rest is to come; outside a
    buffered frame it holds nothing. *)

Definition decoder_ok (d : FrameDecoder) : Prop :=
  match state d with
  | StBuffering _ remaining =>
      charged d = blen (payload d) + Z.of_nat remaining ∧ charged d ≤ MAX_BUFFERED_FRAME
  | _ => payload d = [] ∧ charged d = 0
  end.

Definition held_ok (h : Z) : Prop := 0 ≤ h ≤ HEADERS_BUFFER_BUDGET.

Lemma decoder_ok_new s : decoder_ok (new s).
Proof. done. Qed.

Lemma decoder_ok_charged d : decoder_ok d → 0 ≤ blen (payload d) ≤ charged d.
Proof.
  unfold decoder_ok. pose proof (blen_nonneg (payload d)).
  destruct (state d); intros [H1 H2]; first [lia | rewrite H1, H2; done].
Qed.

Lemma charge_ok h n h' :
  held_ok h → 0 ≤ n → charge h n = Ok h' → h' = h + n ∧ held_ok h'.
Proof.
  unfold charge, held_ok, saturating_add. change HEADERS_BUFFER_BUDGET with 1048576.
  intros Hh Hn. destruct (Z.leb_spec (Z.min (h + n) (2 ^ 64 - 1)) 1048576); [|done].
  intros [= <-]. lia.
Qed.

Lemma release_bytes_ok h n : 0 ≤ n ≤ h → release_bytes h n = h - n.
Proof. unfold release_bytes, saturating_sub. destruct (Z.ltb_spec 0 n); lia. Qed.

(** What an operation on one decoder must do to the pair of it and the counter:
    keep its invariant, keep the counter in the budget, and move the counter by
    exactly what the decoder's own charge moved. *)
Definition accounted (d : FrameDecoder) (h : Z) (d' : FrameDecoder) (h' : Z) : Prop :=
  decoder_ok d' ∧ held_ok h' ∧ h' - charged d' = h - charged d.

Lemma item_step_accounted d h :
  decoder_ok d → held_ok h → charged d ≤ h →
  match item_step (d, h) with
  | inl (d', h') => accounted d h d' h'
  | inr ((d', h'), _) => accounted d h d' h'
  end.
Proof.
  unfold accounted. intros Hd Hh Hle. unfold item_step, decoder_ok in *.
  destruct (state d) as [|r|k r|k r] eqn:Est.
  - destruct Hd as [Hp Hc].
    destruct (take_frame_header (header d) (chunk d)) as [[[[kind len]|] hd] ch]; cbn [stream];
      [|cbn; rewrite Est; auto].
    destruct (begin _ kind len) as [st|v] eqn:Eb; [|cbn; rewrite Est; auto].
    pose proof (begin_in_frame _ _ _ _ Eb) as Hne.
    destruct st as [|r|k r|k r]; [done|cbn; auto| |cbn; auto].
    destruct (charge h (Z.of_nat r)) as [h'|v] eqn:Ec; [|cbn; rewrite Est; auto].
    apply charge_ok in Ec as [-> Hh']; [|done|lia]. cbn. rewrite Hp, Hc. cbn.
    assert (Z.of_nat r ≤ MAX_BUFFERED_FRAME); [|repeat split; try apply Hh'; lia].
    revert Eb. unfold begin. repeat (case_match; try done).
    intros [= <- <-]. change MAX_BUFFERED_FRAME with 65536 in *. lia.
  - destruct (take_from _ _) as [t l]. destruct (r =? 0)%N; [cbn; auto|].
    case_decide; [cbn; rewrite Est; auto|]. cbn. destruct (l =? 0)%N; auto.
  - destruct Hd as [Hc Hmax]. cbn [set_payload set_chunk payload].
    case_decide as Hlt; cbn.
    + rewrite blen_app. unfold blen in *. rewrite length_take. repeat split; try apply Hh; lia.
    + rewrite release_bytes_ok by (unfold blen in *; lia).
      split; [done|]. unfold held_ok in *. unfold blen in *. lia.
  - destruct (take_from _ _) as [t l]. destruct (l =? 0)%N; [|cbn; auto].
    unfold count_skip; cbn. destruct (decide (stream d = Request)); [|cbn; auto].
    destruct (_ <? _); cbn; auto.
Qed.

Lemma next_item_accounted d h d' h' r :
  decoder_ok d → held_ok h → charged d ≤ h →
  next_item (d, h) = ((d', h'), r) → accounted d h d' h'.
Proof.
  intros Hd Hh Hle Hn. unfold next_item in Hn. rewrite run_unfold in Hn.
  pose proof (item_step_accounted d h Hd Hh Hle) as Hs.
  destruct (item_step (d, h)) as [[d1 h1]|[[d1 h1] r1]] eqn:E1; [|injection Hn as -> -> ->; done].
  destruct Hs as (Hd1 & Hh1 & Heq1).
  rewrite run_unfold in Hn. pose proof (item_step_accounted d1 h1 Hd1 Hh1 ltac:(lia)) as Hs.
  destruct (item_step (d1, h1)) as [[d2 h2]|[[d2 h2] r2]] eqn:E2.
  - apply item_step_turn in E1 as [_ E1], E2 as [E2 _]. cbn in *. congruence.
  - injection Hn as -> -> ->. destruct Hs as (? & ? & ?). split; [done|split; [done|lia]].
Qed.

(** ** The invariant of the connection *)

Record conn_ok (c : Conn) : Prop := {
  conn_decoders : ∀ id d, decoders c !! id = Some d → decoder_ok d;
  conn_exact : held c = total charged (decoders c);
  conn_budget : held_ok (held c);
}.

Lemma total_charged_nonneg m :
  (∀ id d, m !! id = Some d → decoder_ok d) → 0 ≤ total charged m.
Proof.
  intros Hok. assert (total (λ _, 0) m = 0) as <-; [|apply total_le].
  - clear Hok. induction m as [|i d m Hi IH] using map_ind; [done|].
    rewrite total_insert by done. lia.
  - intros i d Hi. pose proof (decoder_ok_charged d (Hok i d Hi)). lia.
Qed.

(** One decoder's charge is part of what the connection holds. *)
Lemma charged_le_held c id d : conn_ok c → decoders c !! id = Some d → charged d ≤ held c.
Proof.
  intros [Hd Hex _] Hid. rewrite Hex, (total_delete _ _ id d Hid).
  assert (0 ≤ total charged (delete id (decoders c))); [|lia].
  apply total_charged_nonneg. intros i e [_ Hi]%lookup_delete_Some. eauto.
Qed.

(** Replacing one decoder by one that is accounted for. *)
Lemma conn_ok_update c id d d' h' :
  conn_ok c → decoders c !! id = Some d → accounted d (held c) d' h' →
  conn_ok (mkConn (<[id := d']> (decoders c)) h').
Proof.
  intros [Hd Hex Hb] Hid (Hd' & Hh' & Heq). split; cbn.
  - intros i e [[<- <-]|[_ Hi]]%lookup_insert_Some; eauto.
  - rewrite (total_update _ _ _ d) by done. lia.
  - done.
Qed.

Lemma conn_step_ok c op c' : conn_ok c → conn_step c op = Some c' → conn_ok c'.
Proof.
  intros Hok. destruct op as [id s|id b|id|id|id]; cbn [conn_step];
    destruct (decoders c !! id) as [d|] eqn:Hid; try done.
  - intros [= <-]. destruct Hok as [Hd Hex Hb]. split; cbn; [|by rewrite total_insert|done].
    intros i e [[<- <-]|[_ Hi]]%lookup_insert_Some; [apply decoder_ok_new|eauto].
  - destruct (chunk d); [|done]. intros [= <-]. eapply conn_ok_update; [done..|].
    pose proof (conn_decoders c Hok _ _ Hid). pose proof (conn_budget c Hok).
    split; [|done]. by destruct d.
  - destruct (next_item (d, held c)) as [[d' h'] r] eqn:En. intros [= <-].
    eapply conn_ok_update; [done..|].
    eapply next_item_accounted; [by eapply conn_decoders|by apply conn_budget| |done].
    by eapply charged_le_held.
  - intros [= <-]. eapply conn_ok_update; [done..|].
    pose proof (conn_decoders c Hok _ _ Hid). pose proof (conn_budget c Hok).
    split; [|done]. by destruct d.
  - intros [= <-]. pose proof (charged_le_held c id d Hok Hid) as Hle.
    destruct Hok as [Hd Hex Hb]. pose proof (decoder_ok_charged d (Hd _ _ Hid)).
    unfold drop_decoder, release; cbn. rewrite release_bytes_ok by lia.
    split; cbn; [| |unfold held_ok in *; lia].
    + intros i e [_ Hi]%lookup_delete_Some. eauto.
    + rewrite Hex, (total_delete _ _ id d Hid). lia.
Qed.

Lemma reachable_ok c : reachable c → conn_ok c.
Proof.
  induction 1 as [|c op c' _ IH Hstep]; [|by eapply conn_step_ok].
  by split.
Qed.

(** ** Properties *)

(** C14: whatever frames the peer announces, on however many streams, in whatever
    order the tasks of the connection read, drop or promote them, the counter is
    exactly the sum of what the live decoders have charged, it never passes
    HEADERS_BUFFER_BUDGET, and the payload bytes the decoders buffer are at most
    the counter; no decoder buffers more than MAX_BUFFERED_FRAME.  When the last
    decoder is gone the counter is back to zero. *)
Theorem buffer_budget c :
  reachable c →
  held c = total charged (decoders c) ∧
  0 ≤ held c ≤ HEADERS_BUFFER_BUDGET ∧
  total (λ d, blen (payload d)) (decoders c) ≤ held c ∧
  (∀ id d, decoders c !! id = Some d → blen (payload d) ≤ MAX_BUFFERED_FRAME) ∧
  (decoders c = ∅ → held c = 0).
Proof.
  intros Hok%reachable_ok. destruct Hok as [Hd Hex Hb].
  split; [done|]. split; [done|]. split; [|split].
  - rewrite Hex. apply total_le. intros i d Hi. apply decoder_ok_charged. eauto.
  - intros id d Hid. specialize (Hd _ _ Hid). revert Hd. unfold decoder_ok.
    destruct (state d); [intros [-> _]; done|intros [-> _]; done|lia|intros [-> _]; done].
  - intros Hempty. by rewrite Hex, Hempty.
Qed.

(** A reachable connection with a half-received HEADERS frame on one stream. *)
Definition example_conn : option Conn :=
  c ← conn_step conn_new (OpOpen 0 Request);
  c ← conn_step c (OpOpen 1 Request);
  c ← conn_step c (OpPush 0 (map as_u8 [1; 5; 7; 8]));
  conn_step c (OpNext 0).

Lemma buffer_budget_witness :
  ∃ c, example_conn = Some c ∧ held c = 5 ∧ held c = total charged (decoders c) ∧
       0 ≤ held c ≤ HEADERS_BUFFER_BUDGET ∧
       total (λ d, blen (payload d)) (decoders c) = 2.
Proof.
  destruct example_conn as [c|] eqn:E; [|vm_compute in E; discriminate].
  exists c. assert (reachable c) as Hr.
  { unfold example_conn in E.
    repeat match type of E with
    | (?o ≫= _) = Some _ =>
        let c := fresh "c" in let E1 := fresh "E" in
        destruct o as [c|] eqn:E1; [cbn [mbind option_bind] in E|discriminate]
    end.
    repeat (eapply reachable_step; [|eassumption]). constructor. }
  destruct (buffer_budget c Hr) as (H1 & H2 & _).
  vm_compute in E. injection E as <-.
  split; [reflexivity|]. split; [reflexivity|]. split; [exact H1|]. split; [exact H2|].
  reflexivity.
Defined.
