(* ===== verification/FrameSettings.v ===== *)
(** * SETTINGS payloads and the frame reader (src/src/h3/frame.rs)

    Which SETTINGS payloads [parse_settings] accepts and what it takes from them,
    and how [FrameReader::next] over a stream's chunks relates to the decoder fed
    with them, the end of the stream included. *)

From S2P Require Import Prelude Incremental Datagram H3Error Frame FrameFacts.

#[local] Open Scope Z_scope.

(** ** SETTINGS *)

(** The identifier-value pairs a payload encodes, each varint in any length. *)
Inductive settings_wire : bytes → list (Z * Z) → Prop :=
  | settings_wire_nil : settings_wire [] []
  | settings_wire_cons i v wi wv ws pairs :
      is_varint wi i → is_varint wv v → settings_wire ws pairs →
      settings_wire (wi ++ wv ++ ws) ((i, v) :: pairs).

(** RFC 9114, section 7.2.4: no identifier twice, none of HTTP/2's; RFC 9297,
    section 2.1.1: the value of H3_DATAGRAM is 0 or 1. *)
Definition settings_valid (pairs : list (Z * Z)) : Prop :=
  NoDup pairs.*1 ∧
  Forall (λ i, i ∉ RESERVED_HTTP2_SETTINGS) pairs.*1 ∧
  ∀ v, (SETTING_H3_DATAGRAM, v) ∈ pairs → v = 0 ∨ v = 1.

Definition apply_pair (acc : Settings * gset Z) (pair : Z * Z) :=
  apply_setting acc.1 acc.2 pair.1 pair.2.

(** The loop over the payload is the fold over the pairs it encodes. *)
Lemma parse_settings_fold payload acc s :
  run parse_settings_step (payload, acc.1, acc.2) = Ok s ↔
  ∃ pairs seen, settings_wire payload pairs ∧ try_fold apply_pair pairs acc = Ok (s, seen).
Proof.
  split.
  - change acc.1 with (payload, acc.1, acc.2).1.2.
    assert (∀ st s, run parse_settings_step st = Ok s →
      ∃ pairs seen, settings_wire st.1.1 pairs ∧
        try_fold apply_pair pairs (st.1.2, st.2) = Ok (s, seen)) as Hgen.
    { intros st. apply (run_ind parse_settings_step (λ st r, ∀ s, r = Ok s →
        ∃ pairs seen, settings_wire st.1.1 pairs ∧
          try_fold apply_pair pairs (st.1.2, st.2) = Ok (s, seen))); clear.
      - intros [[p acc] seen] r. unfold parse_settings_step. destruct p as [|x p].
        + intros [= <-] s [= <-]. exists [], seen. split; [constructor|done].
        + repeat (case_match; try done); by intros [= <-].
      - intros [[p acc] seen] st'. unfold parse_settings_step. destruct p as [|x p]; [done|].
        set (q := x :: p). destruct (peek_varint q) as [[i n1]|] eqn:E1; [|done].
        destruct (peek_varint (drop n1 q)) as [[v n2]|] eqn:E2; [|done].
        destruct (apply_setting acc seen i v) as [[acc' seen']|] eqn:Ea; [|done].
        intros [= <-] IH s Hs. destruct (IH s Hs) as (pairs & seen'' & Hw & Hf).
        exists ((i, v) :: pairs), seen''. cbn [fst snd] in *. split.
        + rewrite <- (take_drop n1 q), <- (take_drop n2 (drop n1 q)).
          constructor; [by apply is_varint_take..|done].
        + cbn [try_fold]. unfold apply_pair at 1; cbn [fst snd]. by rewrite Ea. }
    intros H. specialize (Hgen _ _ H). cbn [fst snd] in Hgen. by destruct acc.
  - intros (pairs & seen & Hw & Hf). revert acc Hf.
    induction Hw as [|i v wi wv ws pairs Hi Hv Hw IH]; intros [acc sn] Hf; rewrite run_unfold.
    + cbn in *. congruence.
    + cbn [try_fold] in Hf. unfold apply_pair in Hf at 1. cbn [fst snd] in Hf.
      apply result_bind_ok in Hf as ([acc' seen'] & Ha & Hf). cbn [fst snd parse_settings_step].
      destruct (is_varint_cons _ _ Hi) as (x & wi' & ->). cbn [app].
      change (x :: wi' ++ wv ++ ws) with ((x :: wi') ++ wv ++ ws).
      rewrite (is_varint_peek _ _ _ Hi), drop_app_length.
      rewrite (is_varint_peek _ _ _ Hv), drop_app_length, Ha.
      apply (IH (acc', seen')). done.
Qed.

Definition settings_of (s : Settings) (pairs : list (Z * Z)) : Settings :=
  foldl (λ s p, if p.1 =? SETTING_H3_DATAGRAM then mkSettings (p.2 =? 1) else s) s pairs.

Lemma apply_setting_ok s seen i v s' seen' :
  apply_setting s seen i v = Ok (s', seen') ↔
  (i ∉ RESERVED_HTTP2_SETTINGS) ∧ (i ∉ seen) ∧ (i = SETTING_H3_DATAGRAM → v = 0 ∨ v = 1) ∧
  s' = (settings_of s [(i, v)]) ∧ seen' = {[i]} ∪ seen.
Proof.
  unfold apply_setting, settings_of; cbn [foldl fst snd].
  case_decide; [by split; [|tauto]|]. case_decide; [by split; [|tauto]|].
  destruct (Z.eqb_spec i SETTING_H3_DATAGRAM) as [->|Hi].
  - rewrite result_bind_ok. unfold boolean.
    destruct (Z.eqb_spec v 0) as [->|]; [|destruct (Z.eqb_spec v 1) as [->|]].
    + split; [intros (b & [= <-] & [= <- <-]); auto 10|].
      intros (_ & _ & _ & -> & ->). by exists false.
    + split; [intros (? & [= <-] & [= <- <-]); auto 10|].
      intros (_ & _ & _ & -> & ->). by exists true.
    + split; [intros (? & ? & _); done|]. intros (_ & _ & H2 & _). lia.
  - split; [intros [= <- <-]; by auto 10|]. by intros (_ & _ & _ & -> & ->).
Qed.

Lemma fold_pairs_ok pairs s seen s' :
  (∃ seen', try_fold apply_pair pairs (s, seen) = Ok (s', seen')) ↔
  settings_valid pairs ∧ (∀ i, i ∈ pairs.*1 → i ∉ seen) ∧ s' = settings_of s pairs.
Proof.
  revert s seen; induction pairs as [|[i v] pairs IH]; intros s seen.
  - unfold settings_valid; cbn. split.
    + intros (? & [= <- <-]). split; [split_and!; [apply NoDup_nil_2|apply Forall_nil_2|]|split; [|done]];
        by intros ? ?%elem_of_nil.
    + intros (_ & _ & ->). eauto.
  - trans (∃ s1 seen1, apply_setting s seen i v = Ok (s1, seen1) ∧
      ∃ seen', try_fold apply_pair pairs (s1, seen1) = Ok (s', seen')).
    { cbn [try_fold]. unfold apply_pair at 1; cbn [fst snd].
      setoid_rewrite result_bind_ok. split.
      - intros (? & [s1 seen1] & ? & ?). eauto 10.
      - intros (s1 & seen1 & ? & ? & ?). eexists _, (s1, seen1). eauto. }
    setoid_rewrite IH. setoid_rewrite apply_setting_ok.
    unfold settings_valid. rewrite fmap_cons, NoDup_cons, Forall_cons; cbn [fst].
    setoid_rewrite elem_of_cons. split.
    + intros (? & ? & (Hr & Hs & Hv & -> & ->) & (Hnd & Hf & Hd) & Hfresh & ->).
      split; [split; [split; [|done]|split; [done|]]|split; [|done]].
      * intros Hin. apply (Hfresh i Hin). set_solver.
      * intros v' [[= <- ->]|Hin]; eauto.
      * intros j [->|Hj]; [done|]. specialize (Hfresh j Hj). set_solver.
    + intros (((Hni & Hnd) & (Hr & Hf) & Hd) & Hfresh & ->).
      eexists _, _. split; [split; [done|split; [by apply Hfresh; left|split; [|done]]]|].
      * intros ->. apply Hd. by left.
      * split; [split; [done|split; [done|]]|split; [|done]].
        -- intros v' Hv'. apply Hd. by right.
        -- intros j Hj Hin. apply elem_of_union in Hin as [->%elem_of_singleton|Hin]; [done|].
           apply (Hfresh j); [by right|done].
Qed.

Lemma settings_of_valid s pairs :
  settings_valid pairs →
  datagrams (settings_of s pairs) =
  if decide (SETTING_H3_DATAGRAM ∈ pairs.*1) then bool_decide ((SETTING_H3_DATAGRAM, 1) ∈ pairs)
  else datagrams s.
Proof.
  unfold settings_valid. revert s; induction pairs as [|[i v] pairs IH]; intros s; [done|].
  rewrite fmap_cons, NoDup_cons, Forall_cons; cbn [fst].
  intros ((Hni & Hnd) & (Hr & Hf) & Hd). unfold settings_of; cbn [foldl fst snd].
  fold (settings_of (if i =? SETTING_H3_DATAGRAM then mkSettings (v =? 1) else s) pairs).
  rewrite IH; [|split; [done|split; [done|]]; intros v' Hv'; apply Hd; by right].
  destruct (Z.eqb_spec i SETTING_H3_DATAGRAM) as [->|Hi].
  - rewrite decide_False, decide_True by (done || by left). cbn.
    assert ((SETTING_H3_DATAGRAM, 1) ∉ pairs) as Hn1.
    { intros Hin. apply Hni. by apply (list_elem_of_fmap_2 fst) in Hin. }
    destruct (Z.eqb_spec v 1) as [->|Hv]; symmetry.
    + apply bool_decide_eq_true. by left.
    + apply bool_decide_eq_false. intros [[= Hv1]|]%elem_of_cons; [by symmetry in Hv1|done].
  - assert (SETTING_H3_DATAGRAM ∈ i :: pairs.*1 ↔ SETTING_H3_DATAGRAM ∈ pairs.*1) as Heq.
    { rewrite elem_of_cons. naive_solver. }
    case_decide as H1; [rewrite decide_True by tauto|by rewrite decide_False by tauto].
    apply bool_decide_ext. rewrite elem_of_cons. naive_solver.
Qed.

(** [parse_settings] accepts exactly the payloads that encode a list of whole
    identifier-value pairs with no identifier twice, none of those reserved for
    HTTP/2, and H3_DATAGRAM (when there) 0 or 1; identifiers it does not know are
    ignored; and what it reports is whether the peer set H3_DATAGRAM to 1. *)
Theorem parse_settings_exact payload s :
  parse_settings payload = Ok s ↔
  ∃ pairs, settings_wire payload pairs ∧ settings_valid pairs ∧
    s = mkSettings (bool_decide ((SETTING_H3_DATAGRAM, 1) ∈ pairs)).
Proof.
  pose proof (parse_settings_fold payload (mkSettings false, ∅) s) as Hfold.
  cbn [fst snd] in Hfold. unfold parse_settings. rewrite Hfold. clear Hfold.
  assert (∀ pairs, settings_valid pairs → settings_of (mkSettings false) pairs =
    mkSettings (bool_decide ((SETTING_H3_DATAGRAM, 1) ∈ pairs))) as Hmeaning.
  { intros pairs Hv. pose proof (settings_of_valid (mkSettings false) pairs Hv) as H.
    destruct (settings_of _ pairs) as [b]; cbn in H; rewrite H. f_equal.
    case_decide as Hin; [done|]. symmetry. apply bool_decide_eq_false. contradict Hin.
    by apply (list_elem_of_fmap_2 fst) in Hin. }
  split.
  - intros (pairs & seen & Hw & Hf). exists pairs. split; [done|].
    destruct (proj1 (fold_pairs_ok pairs (mkSettings false) ∅ s)) as (Hv & _ & ->); [eauto|].
    auto.
  - intros (pairs & Hw & Hv & ->). exists pairs.
    destruct (proj2 (fold_pairs_ok pairs (mkSettings false) ∅
      (settings_of (mkSettings false) pairs))) as (seen & Hf).
    { split; [done|]. split; [set_solver|done]. }
    exists seen. rewrite <- Hmeaning by done. done.
Qed.

(** ** The reader over the stream's chunks *)

Section Reader.
Context {QuinnError : Type}
  (peer_error : @quinn_ConnectionError QuinnError → @quinn_ConnectionError QuinnError).

(** The calls of [FrameReader::next] until it returns something other than an
    item: the items in order, and what ended them. *)
Inductive reads : FrameReader (QuinnError := QuinnError) → Z → list Item → FrameReader → Z →
    ReadOutcome (QuinnError := QuinnError) → Prop :=
  | reads_end r h r' h' o :
      reader_next peer_error r h = (r', h', o) →
      (∀ i, o ≠ Ready (Ok (Some i))) →
      reads r h [] r' h' o
  | reads_item r h r1 h1 i items r' h' o :
      reader_next peer_error r h = (r1, h1, Ready (Ok (Some i))) →
      reads r1 h1 items r' h' o →
      reads r h (i :: items) r' h' o.

Definition mid_frame : Violation :=
  connection_violation H3_FRAME_ERROR "the stream ended part-way through a frame".

(** What the end of the stream means, given how feeding its bytes went. *)
Definition end_outcome (r : result (FrameDecoder * Z) Violation)
    : ReadOutcome (QuinnError := QuinnError) :=
  match r with
  | Ok (d, _) =>
      if at_frame_boundary d then Ready (Ok None) else Ready (Err (Protocol mid_frame))
  | Err v => Ready (Err (Protocol v))
  end.

Lemma reads_congr r1 h1 r2 h2 items r' h' o :
  reader_next peer_error r1 h1 = reader_next peer_error r2 h2 →
  reads r1 h1 items r' h' o → reads r2 h2 items r' h' o.
Proof.
  intros Heq Hr. destruct Hr as [? ? ? ? ? H Ho|? ? ? ? ? ? ? ? ? H Hrest];
    rewrite Heq in H; [by constructor|by econstructor].
Qed.

(** Once the decoder asks for more, the reader goes on from where it stopped. *)
Lemma reader_next_none ev d h d1 h1 fin :
  next_item (d, h) = ((d1, h1), Ok None) → frame_ready (d1, h1) →
  reader_next_on peer_error ev d h fin = reader_next_on peer_error ev d1 h1 fin.
Proof.
  intros H1 H2. assert (next_item (d1, h1) = ((d1, h1), Ok None)) as H3.
  { unfold next_item. rewrite run_unfold. by rewrite H2. }
  destruct ev as [|[] ev]; cbn [reader_next_on]; by rewrite H1, H3.
Qed.

(** The items of one chunk come out before the reader asks for the next. *)
Lemma reads_drain ev x items r :
  drain_all next_item x = (items, r) →
  match r with
  | Ok y => ∀ items' r' h' o,
      reads (mkReader ev y.1 false) y.2 items' r' h' o →
      reads (mkReader ev x.1 false) x.2 (items ++ items') r' h' o
  | Err v => ∃ r' h', reads (mkReader ev x.1 false) x.2 items r' h' (Ready (Err (Protocol v)))
  end.
Proof.
  revert items r. induction x as [x IH] using (induction_ltof1 _ frame_size). intros items r.
  pose proof (drain_items_ready x) as Hready. rewrite drain_all_unfold in Hready |- *.
  destruct x as [d h]. cbn [fst snd].
  assert (∀ ev, reader_next peer_error (mkReader ev d false) h =
    reader_next_on peer_error ev d h false) as Hdef by done.
  destruct (next_item (d, h)) as [[d1 h1] [[i|]|v]] eqn:En.
  - pose proof (next_item_shrinks _ _ _ En) as Hlt.
    destruct (drain_all next_item (d1, h1)) as [items1 r1] eqn:Ed. cbn [fst snd].
    intros [= <- <-]. specialize (IH _ Hlt _ _ Ed). cbn [fst snd] in IH.
    assert (reader_next peer_error (mkReader ev d false) h =
      (mkReader ev d1 false, h1, Ready (Ok (Some i)))) as Hnext.
    { rewrite Hdef. destruct ev; cbn [reader_next_on]; by rewrite En. }
    destruct r1 as [y|v].
    + intros. cbn [app]. econstructor; [done|]. by apply IH.
    + destruct IH as (r' & h' & IH). exists r', h'. by econstructor.
  - intros [= <- <-]. cbn [fst snd app]. intros items' r' h' o. apply reads_congr. symmetry.
    rewrite Hdef. unfold reader_next; cbn [recv decoder finished].
    apply reader_next_none; [done|]. by destruct (Hready (d1, h1) eq_refl).
  - intros [= <- <-]. eexists _, _. apply reads_end; [|by intros].
    rewrite Hdef. destruct ev; cbn [reader_next_on]; by rewrite En.
Qed.

Lemma reads_feed chunks rest x :
  frame_ready x →
  ∃ r' h', reads (mkReader (map ChunkRead chunks ++ Finished :: rest) x.1 false) x.2
    (feed x chunks).1 r' h' (end_outcome (feed x chunks).2).
Proof.
  revert x; induction chunks as [|c chunks IH]; intros [d h] Hx;
    assert (next_item (d, h) = ((d, h), Ok None)) as Hn
      by (unfold next_item; rewrite run_unfold; by rewrite Hx); cbn [fst snd].
  - eexists _, _. cbn. apply reads_end; [|by destruct (at_frame_boundary d)].
    unfold reader_next; cbn [recv decoder finished reader_next_on map app]. rewrite Hn.
    reflexivity.
  - assert (reader_next peer_error (mkReader (map ChunkRead (c :: chunks) ++ Finished :: rest)
        d false) h =
      reader_next peer_error (mkReader (map ChunkRead chunks ++ Finished :: rest)
        (push_bytes d c) false) h) as Hpush.
    { unfold reader_next at 1; cbn [recv decoder finished reader_next_on map app]. by rewrite Hn. }
    cbn [feed]. change (drain (push (d, h) c)) with (drain_all next_item (push_bytes d c, h)).
    destruct (drain_all next_item (push_bytes d c, h)) as [items r] eqn:Ed.
    pose proof (reads_drain (map ChunkRead chunks ++ Finished :: rest) _ _ _ Ed) as Hd.
    cbn [fst snd] in Hd. destruct r as [y|v]; cbn [then_drain].
    + destruct (IH y) as (r' & h' & IHr).
      { apply (drain_items_ready (push_bytes d c, h)). by rewrite Ed. }
      destruct (feed y chunks) as [items' out]. cbn [fst snd] in *. exists r', h'.
      eapply reads_congr; [symmetry; exact Hpush|]. by apply Hd.
    + destruct Hd as (r' & h' & Hd). exists r', h'.
      by eapply reads_congr; [symmetry; exact Hpush|].
Qed.

(** A stream read to its end through [FrameReader::next] yields exactly the
    items the decoder yields when fed with the stream's chunks; the end of the
    stream is a clean end where it falls between two frames and the connection
    error H3_FRAME_ERROR anywhere else, and a violation ends the reading where
    the decoder met it. *)
Theorem reader_end_of_stream s held chunks rest :
  let out := feed (new s, held) chunks in
  ∃ r' held',
    reads (mkReader (map ChunkRead chunks ++ Finished :: rest) (new s) false) held
      out.1 r' held' (end_outcome out.2).
Proof. exact (reads_feed chunks rest (new s, held) eq_refl). Qed.
End Reader.

(** The SETTINGS payload the server sends is one a peer with the same rules
    accepts, and it tells that peer HTTP datagrams are on. *)
Theorem server_settings_accepted :
  ∃ payload, settings_payload = Some payload ∧ parse_settings payload = Ok (mkSettings true) ∧
    blen payload ≤ MAX_BUFFERED_FRAME.
Proof.
  eexists. split; [vm_compute; reflexivity|]. split; [vm_compute; reflexivity|].
  vm_compute. discriminate.
Qed.
