(* ===== verification/Utf8.v ===== *)
(** * UTF-8, as the standard library decides it

    [str::from_utf8] and [String::from_utf8_lossy], which the message, auth and
    log layers apply to a peer's bytes.  A [&str] of the source is modelled as
    its bytes.  [scan] classifies the sequence at the front of a buffer: a whole
    character, or the longest prefix of an ill-formed one, which the lossy
    conversion replaces by U+FFFD as a unit. *)

From S2P Require Import Prelude.

#[local] Open Scope Z_scope.

Definition between (lo hi : Z) (x : byte) : bool := (lo <=? u8 x) && (u8 x <=? hi).

Definition continuation (x : byte) : bool := between 0x80 0xbf x.

(** The range a second byte may have after a given first one. *)
Definition second_ok (x y : byte) : bool :=
  if u8 x =? 0xe0 then between 0xa0 0xbf y
  else if u8 x =? 0xed then between 0x80 0x9f y
  else if u8 x =? 0xf0 then between 0x90 0xbf y
  else if u8 x =? 0xf4 then between 0x80 0x8f y
  else continuation y.

Definition width (x : byte) : nat :=
  if between 0x00 0x7f x then 1
  else if between 0xc2 0xdf x then 2
  else if between 0xe0 0xef x then 3
  else if between 0xf0 0xf4 x then 4
  else 0.

Inductive Scan := Char (n : nat) | Broken (n : nat).

Definition at_byte (p : byte → bool) (l : bytes) : bool :=
  match l with
  | x :: _ => p x
  | [] => false
  end.

Definition scan (l : bytes) : Scan :=
  match l with
  | [] => Broken 1
  | x :: rest =>
      match width x with
      | 1%nat => Char 1
      | 2%nat => if at_byte continuation rest then Char 2 else Broken 1
      | 3%nat =>
          if at_byte (second_ok x) rest then
            if at_byte continuation (drop 1 rest) then Char 3 else Broken 2
          else Broken 1
      | 4%nat =>
          if at_byte (second_ok x) rest then
            if at_byte continuation (drop 1 rest) then
              if at_byte continuation (drop 2 rest) then Char 4 else Broken 3
            else Broken 2
          else Broken 1
      | _ => Broken 1
      end
  end.

Definition scanned (s : Scan) : nat := match s with Char n | Broken n => n end.

Lemma scan_positive l : (1 ≤ scanned (scan l))%nat.
Proof. destruct l as [|x l]; cbn; [lia|]. repeat case_match; cbn; lia. Qed.

(** ** [from_utf8] *)

Definition valid_step (l : bytes) : bytes + bool :=
  match l with
  | [] => inr true
  | _ => match scan l with Char n => inl (drop n l) | Broken _ => inr false end
  end.

#[export] Program Instance valid_loop : Loop valid_step := {| loop_measure l := length l |}.
Next Obligation.
  intros l l'. unfold valid_step. destruct l as [|x l]; [done|].
  pose proof (scan_positive (x :: l)). destruct (scan (x :: l)); [|done].
  intros [= <-]. rewrite length_drop. cbn in *. lia.
Qed.

Definition valid_utf8 (l : bytes) : bool := run valid_step l.

(** [std::str::from_utf8(bytes).ok()]. *)
Definition from_utf8 (l : bytes) : option bytes := if valid_utf8 l then Some l else None.

(** ** [from_utf8_lossy] *)

Definition REPLACEMENT : bytes := map as_u8 [0xef; 0xbf; 0xbd].

Definition lossy_step (x : bytes * bytes) : (bytes * bytes) + bytes :=
  let '(out, l) := x in
  match l with
  | [] => inr out
  | _ =>
      match scan l with
      | Char n => inl (out ++ take n l, drop n l)
      | Broken n => inl (out ++ REPLACEMENT, drop n l)
      end
  end.

#[export] Program Instance lossy_loop : Loop lossy_step := {| loop_measure x := length x.2 |}.
Next Obligation.
  intros [out l] s'. unfold lossy_step. destruct l as [|x l]; [done|].
  pose proof (scan_positive (x :: l)).
  destruct (scan (x :: l)); intros [= <-]; cbn [snd]; rewrite length_drop; cbn in *; lia.
Qed.

Definition from_utf8_lossy (l : bytes) : bytes := run lossy_step ([], l).

(** ** Facts *)

Lemma valid_unfold l :
  valid_utf8 l = match l with
                 | [] => true
                 | _ => match scan l with Char n => valid_utf8 (drop n l) | Broken _ => false end
                 end.
Proof.
  unfold valid_utf8. rewrite run_unfold. destruct l; cbn [valid_step]; [done|].
  by destruct (scan _).
Qed.

Lemma lossy_acc out l : run lossy_step (out, l) = out ++ from_utf8_lossy l.
Proof.
  unfold from_utf8_lossy. revert out. induction l as [l IH] using (induction_ltof1 _ length).
  intros out. rewrite (run_unfold _ (out, l)), (run_unfold _ ([], l)).
  destruct l as [|x l]; cbn [lossy_step]; [by rewrite app_nil_r|].
  pose proof (scan_positive (x :: l)).
  assert (ltof _ length (drop (scanned (scan (x :: l))) (x :: l)) (x :: l)) as Hlt.
  { unfold ltof. rewrite length_drop. cbn in *. lia. }
  destruct (scan (x :: l)) as [n|n]; cbn [scanned app] in *; specialize (IH _ Hlt).
  - by rewrite (IH (out ++ take n (x :: l))), (IH (take n (x :: l))), app_assoc.
  - by rewrite (IH (out ++ REPLACEMENT)), (IH REPLACEMENT), app_assoc.
Qed.

Lemma lossy_unfold l :
  from_utf8_lossy l =
  match l with
  | [] => []
  | _ => match scan l with
         | Char n => take n l ++ from_utf8_lossy (drop n l)
         | Broken n => REPLACEMENT ++ from_utf8_lossy (drop n l)
         end
  end.
Proof.
  unfold from_utf8_lossy at 1. rewrite run_unfold. destruct l; cbn [lossy_step]; [done|].
  destruct (scan _); by rewrite lossy_acc.
Qed.

(** What is already UTF-8 is left as it is. *)
Lemma lossy_valid l : valid_utf8 l = true → from_utf8_lossy l = l.
Proof.
  induction l as [l IH] using (induction_ltof1 _ length).
  rewrite valid_unfold, lossy_unfold. destruct l as [|x l]; [done|].
  pose proof (scan_positive (x :: l)). destruct (scan (x :: l)) as [n|n]; [|done].
  intros Hv. rewrite IH; [by rewrite take_drop| |done].
  unfold ltof. rewrite length_drop. cbn in *. lia.
Qed.

(** The front of a buffer decides whether a whole character is there. *)
Lemma at_byte_app p l r : at_byte p l = true → at_byte p (l ++ r) = true.
Proof. by destruct l. Qed.

Lemma at_byte_drop_app p k l r :
  at_byte p (drop k l) = true → at_byte p (drop k (l ++ r)) = true.
Proof.
  intros H. destruct (le_lt_dec (length l) k) as [Hle|Hlt].
  - by rewrite drop_ge in H by done.
  - rewrite drop_app_le by lia. by apply at_byte_app.
Qed.

Lemma scan_char_app l r n : scan l = Char n → scan (l ++ r) = Char n.
Proof.
  destruct l as [|x l]; [done|]. cbn [scan app].
  destruct (width x) as [|[|[|[|[|w]]]]]; try done.
  - destruct (at_byte continuation l) eqn:E; [|done]. by rewrite (at_byte_app _ _ r E).
  - destruct (at_byte (second_ok x) l) eqn:E; [|done]. rewrite (at_byte_app _ _ r E).
    destruct (at_byte continuation (drop 1 l)) eqn:E1; [|done].
    by rewrite (at_byte_drop_app _ _ _ r E1).
  - destruct (at_byte (second_ok x) l) eqn:E; [|done]. rewrite (at_byte_app _ _ r E).
    destruct (at_byte continuation (drop 1 l)) eqn:E1; [|done].
    rewrite (at_byte_drop_app _ _ _ r E1).
    destruct (at_byte continuation (drop 2 l)) eqn:E2; [|done].
    by rewrite (at_byte_drop_app _ _ _ r E2).
Qed.

Lemma scan_char_le l n : scan l = Char n → (n ≤ length l)%nat.
Proof.
  assert (∀ p k l, at_byte p (drop k l) = true → (k < length l)%nat) as Hlt.
  { intros p k l' H. destruct (le_lt_dec (length l') k); [|done]. by rewrite drop_ge in H. }
  destruct l as [|x l]; [done|]. cbn [scan length].
  destruct (width x) as [|[|[|[|[|w]]]]]; try done.
  - intros [= <-]. lia.
  - destruct (at_byte continuation l) eqn:E; [|done]. intros [= <-].
    specialize (Hlt _ 0%nat l E). lia.
  - destruct (at_byte (second_ok x) l); [|done].
    destruct (at_byte continuation (drop 1 l)) eqn:E; [|done]. intros [= <-].
    specialize (Hlt _ _ _ E). lia.
  - destruct (at_byte (second_ok x) l); [|done].
    destruct (at_byte continuation (drop 1 l)); [|done].
    destruct (at_byte continuation (drop 2 l)) eqn:E; [|done]. intros [= <-].
    specialize (Hlt _ _ _ E). lia.
Qed.

Lemma scan_char_take l n : scan l = Char n → scan (take n l) = Char n.
Proof.
  destruct l as [|x l]; [done|]. cbn [scan].
  destruct (width x) as [|[|[|[|[|w]]]]] eqn:Ew; try done.
  - intros [= <-]. cbn. by rewrite Ew.
  - destruct l as [|y l]; cbn; [done|]. destruct (continuation y) eqn:E; [|done].
    intros [= <-]. cbn. by rewrite Ew, E.
  - destruct l as [|y l]; cbn; [done|]. destruct (second_ok x y) eqn:E; [|done].
    destruct l as [|z l]; cbn; [done|]. destruct (continuation z) eqn:E1; [|done].
    intros [= <-]. cbn. by rewrite Ew, E, E1.
  - destruct l as [|y l]; cbn; [done|]. destruct (second_ok x y) eqn:E; [|done].
    destruct l as [|z l]; cbn; [done|]. destruct (continuation z) eqn:E1; [|done].
    destruct l as [|t l]; cbn; [done|]. destruct (continuation t) eqn:E2; [|done].
    intros [= <-]. cbn. by rewrite Ew, E, E1, E2.
Qed.

(** Validity is compositional, and the lossy conversion always yields it. *)
Lemma valid_app l r : valid_utf8 l = true → valid_utf8 (l ++ r) = valid_utf8 r.
Proof.
  induction l as [l IH] using (induction_ltof1 _ length).
  destruct l as [|x l]; [done|]. rewrite (valid_unfold (x :: l)), (valid_unfold ((x :: l) ++ r)).
  destruct (scan (x :: l)) as [n|] eqn:E; [|done]. intros Hv. cbn [app].
  change (x :: l ++ r) with ((x :: l) ++ r). rewrite (scan_char_app _ _ _ E).
  pose proof (scan_char_le _ _ E). pose proof (scan_positive (x :: l)) as Hp. rewrite E in Hp.
  rewrite drop_app_le by done. apply IH; [|done].
  unfold ltof. rewrite length_drop. cbn [length scanned] in *. lia.
Qed.

Lemma valid_char l n : scan l = Char n → valid_utf8 (take n l) = true.
Proof.
  intros E. pose proof (scan_char_take _ _ E) as Et. rewrite valid_unfold.
  destruct (take n l) as [|x t] eqn:El; [done|]. rewrite Et, drop_ge; [done|].
  rewrite <- El, length_take. lia.
Qed.

Lemma lossy_is_valid l : valid_utf8 (from_utf8_lossy l) = true.
Proof.
  induction l as [l IH] using (induction_ltof1 _ length). rewrite lossy_unfold.
  destruct l as [|x l]; [done|]. pose proof (scan_positive (x :: l)).
  assert (ltof _ length (drop (scanned (scan (x :: l))) (x :: l)) (x :: l)).
  { unfold ltof. rewrite length_drop. cbn in *. lia. }
  destruct (scan (x :: l)) as [n|n] eqn:E; cbn [scanned] in *; rewrite valid_app; auto.
  by apply valid_char.
Qed.

(** At worst every byte is replaced by the three of U+FFFD. *)
Lemma lossy_length l : (length (from_utf8_lossy l) ≤ 3 * length l)%nat.
Proof.
  induction l as [l IH] using (induction_ltof1 _ length). rewrite lossy_unfold.
  destruct l as [|x l]; [done|]. pose proof (scan_positive (x :: l)) as Hp.
  assert (ltof _ length (drop (scanned (scan (x :: l))) (x :: l)) (x :: l)) as Hlt.
  { unfold ltof. rewrite length_drop. cbn in *. lia. }
  specialize (IH _ Hlt). rewrite length_drop in IH.
  destruct (scan (x :: l)) as [n|n]; cbn [scanned] in *; rewrite length_app, ?length_take;
    cbn [length] in *; [lia|]. change (length REPLACEMENT) with 3%nat. lia.
Qed.

(** ASCII is UTF-8. *)
Lemma valid_ascii l : Forall (λ x, u8 x < 128) l → valid_utf8 l = true.
Proof.
  induction 1 as [|x l Hx _ IH]; [done|]. rewrite valid_unfold.
  pose proof (u8_range x).
  assert (scan (x :: l) = Char 1) as ->; [|done].
  cbn [scan]. unfold width, between.
  destruct (Z.leb_spec 0 (u8 x)); [|lia]. destruct (Z.leb_spec (u8 x) 0x7f); [done|lia].
Qed.
