(* ===== verification/Message.v ===== *)
(** * Messages (src/src/h3/message.rs)

    Statuses, methods, field names and values, and the field lines of a request
    or response.  A [&str] or [Box<str>] is its bytes. *)

From S2P Require Import Prelude Utf8.

#[local] Open Scope Z_scope.

(** ** Octet classes (std) *)

Definition is_ascii_digit (x : byte) : bool := between 0x30 0x39 x.
Definition is_ascii_uppercase (x : byte) : bool := between 0x41 0x5a x.
Definition is_ascii_lowercase (x : byte) : bool := between 0x61 0x7a x.
Definition is_ascii_alphabetic (x : byte) : bool := is_ascii_uppercase x || is_ascii_lowercase x.
Definition is_ascii_alphanumeric (x : byte) : bool := is_ascii_alphabetic x || is_ascii_digit x.

Definition to_ascii_lowercase (x : byte) : byte :=
  if is_ascii_uppercase x then as_u8 (u8 x + 32) else x.

Definition eq_ignore_ascii_case (a b : bytes) : bool :=
  bool_decide (map to_ascii_lowercase a = map to_ascii_lowercase b).

(** [slice.contains(&x)]. *)
Definition contains_byte (l : bytes) (x : byte) : bool := existsb (λ y, bool_decide (y = x)) l.

(** ** Statuses *)

Definition Status : Type := bytes.

Definition OK : Status := lit "200".
Definition BAD_REQUEST : Status := lit "400".
Definition FORBIDDEN : Status := lit "403".
Definition PROXY_AUTHENTICATION_REQUIRED : Status := lit "407".
Definition REQUEST_HEADER_FIELDS_TOO_LARGE : Status := lit "431".
Definition INTERNAL_SERVER_ERROR : Status := lit "500".
Definition NOT_IMPLEMENTED : Status := lit "501".
Definition BAD_GATEWAY : Status := lit "502".
Definition SERVICE_UNAVAILABLE : Status := lit "503".
Definition GATEWAY_TIMEOUT : Status := lit "504".

Definition status_parse (l : bytes) : option Status :=
  match l with
  | [a; b; c] =>
      if bool_decide (a = as_u8 0x30) || negb (forallb is_ascii_digit l) then None else Some l
  | _ => None
  end.

(** [Status::as_str]; the [expect] is the [None]. *)
Definition status_as_str (s : Status) : option bytes := from_utf8 s.

(** ** Tokens, names and values *)

Definition is_tchar (x : byte) : bool :=
  is_ascii_alphanumeric x || contains_byte (lit "!#$%&'*+-.^_`|~") x.

Definition token (l : bytes) : option bytes :=
  if bool_decide (l = []) || negb (forallb is_tchar l) then None else from_utf8 l.

Definition field_name (l : bytes) : option bytes :=
  match token l with
  | Some name => if existsb is_ascii_uppercase name then None else Some name
  | None => None
  end.

Definition is_field_value (l : bytes) : bool :=
  forallb (λ x, between 0x21 0x7e x || between 0x80 0xff x || (u8 x =? 0x20) || (u8 x =? 0x09)) l.

Definition FieldValue : Type := bytes.

(** [None] is the panic of the assertion. *)
Definition from_static (value : bytes) : option FieldValue :=
  if is_field_value value then Some value else None.

Definition value_parse (value : bytes) : option FieldValue :=
  if is_field_value value then Some value else None.

Definition to_str (v : FieldValue) : option bytes := from_utf8 v.

(** ** Methods *)

Inductive Method := Connect | Other (token : bytes).

#[export] Instance Method_eq_dec : EqDecision Method.
Proof. solve_decision. Defined.

Definition method_parse (l : bytes) : option Method :=
  match token l with
  | Some t => Some (if bool_decide (t = lit "CONNECT") then Connect else Other t)
  | None => None
  end.

Definition method_as_str (m : Method) : bytes :=
  match m with
  | Connect => lit "CONNECT"
  | Other t => t
  end.

(** ** Field lines *)

Definition Fields : Type := list (bytes * FieldValue).

Definition fields_new : Fields := [].

(** The release build's [append]: the name check is a debug assertion. *)
Definition append (fields : Fields) (name : bytes) (value : FieldValue) : Fields :=
  fields ++ [(name, value)].

Definition get_all (fields : Fields) (name : bytes) : list FieldValue :=
  map snd (List.filter (λ field, eq_ignore_ascii_case field.1 name) fields).

Definition get (fields : Fields) (name : bytes) : option FieldValue :=
  option_map snd (List.find (λ field, eq_ignore_ascii_case field.1 name) fields).

Definition contains (fields : Fields) (name : bytes) : bool :=
  match get fields name with Some _ => true | None => false end.

Record Request := mkRequest {
  method : Method;
  scheme : option bytes;
  authority : option bytes;
  path : option bytes;
  query : option bytes;
  protocol : option bytes;
  fields : Fields;
}.

Definition request_new (m : Method) : Request := mkRequest m None None None None None fields_new.

(** ** Facts *)

Lemma contains_byte_spec l x : contains_byte l x = true ↔ x ∈ l.
Proof.
  unfold contains_byte. rewrite existsb_exists. setoid_rewrite <- list_elem_of_In. split.
  - intros (y & Hy & ->%bool_decide_eq_true). done.
  - intros H. exists x. by rewrite bool_decide_eq_true.
Qed.

(** Every octet test below is decided on the 256 octets. *)
Lemma forall_octet (P : byte → bool) :
  forallb (λ k, P (as_u8 (Z.of_nat k))) (seq 0 256) = true → ∀ x, P x = true.
Proof.
  intros H x. rewrite <- (as_u8_u8 x).
  apply (forall_below 256 (λ k, P (as_u8 k)) H), u8_range.
Qed.

Ltac octet_test x :=
  match goal with |- ?P = true =>
    let f := (eval pattern x in P) in
    match f with ?f _ => refine (forall_octet f _ x); vm_compute; reflexivity end
  end.

Lemma tchar_ascii x : is_tchar x = true → u8 x < 128.
Proof.
  intros H. assert (implb (is_tchar x) (u8 x <? 128) = true) as Hx by octet_test x.
  rewrite H in Hx. cbn in Hx. by apply Z.ltb_lt.
Qed.

Lemma ascii_valid (p : byte → bool) l :
  (∀ x, p x = true → u8 x < 128) → forallb p l = true → from_utf8 l = Some l.
Proof.
  intros Hp Hl. unfold from_utf8. rewrite valid_ascii; [done|].
  apply Forall_forall. intros x Hx. rewrite forallb_forall in Hl.
  apply Hp, Hl. by apply list_elem_of_In.
Qed.

Lemma token_spec l t :
  token l = Some t ↔ t = l ∧ l ≠ [] ∧ forallb is_tchar l = true.
Proof.
  unfold token. destruct (bool_decide_reflect (l = [])) as [->|Hl]; cbn [orb negb].
  { split; [done|]. by intros (_ & ? & _). }
  destruct (forallb is_tchar l) eqn:E; cbn [negb].
  - rewrite (ascii_valid _ _ tchar_ascii E). naive_solver.
  - split; [done|]. by intros (_ & _ & ?).
Qed.

Lemma field_name_spec l t :
  field_name l = Some t ↔
  t = l ∧ l ≠ [] ∧ forallb (λ x, is_tchar x && negb (is_ascii_uppercase x)) l = true.
Proof.
  unfold field_name.
  assert (forallb (λ x, is_tchar x && negb (is_ascii_uppercase x)) l =
    forallb is_tchar l && negb (existsb is_ascii_uppercase l)) as ->.
  { induction l as [|x l IH]; [done|]. cbn [forallb existsb]. rewrite IH.
    by destruct (is_tchar x), (is_ascii_uppercase x), (forallb is_tchar l), (existsb _ l). }
  rewrite andb_true_iff, negb_true_iff.
  pose proof (token_spec l) as Ht. destruct (token l) as [t'|].
  - destruct (proj1 (Ht t') eq_refl) as (-> & Hne & Hall).
    destruct (existsb is_ascii_uppercase l); naive_solver.
  - split; [done|]. intros (-> & Hne & Hall & _). destruct (Ht l) as [_ H].
    by specialize (H (conj eq_refl (conj Hne Hall))).
Qed.

(** ** Properties *)

(** The delimiters of RFC 9110, section 5.6.2. *)
Definition DELIMITERS : list Z :=
  [0x22; 0x28; 0x29; 0x2c; 0x2f; 0x3a; 0x3b; 0x3c; 0x3d; 0x3e; 0x3f; 0x40; 0x5b; 0x5c; 0x5d;
   0x7b; 0x7d].

(** What the message layer accepts as a name or a value is what the RFCs say.
    A token is a non-empty string of visible ASCII characters other than the
    delimiters, a field name is a token with no uppercase letter, a method is any
    token (CONNECT told apart by case), and a field value has no control
    character: no CR, LF, NUL or DEL, whatever else it holds. *)
Theorem message_syntax l :
  (token l = Some l ↔
     l ≠ [] ∧ ∀ x, x ∈ l → 0x21 ≤ u8 x ≤ 0x7e ∧ u8 x ∉ DELIMITERS) ∧
  (field_name l = Some l ↔
     token l = Some l ∧ ∀ x, x ∈ l → ¬ (0x41 ≤ u8 x ≤ 0x5a)) ∧
  (option_map method_as_str (method_parse l) = token l) ∧
  (value_parse l = Some l ↔
     ∀ x, x ∈ l → u8 x = 0x09 ∨ (0x20 ≤ u8 x ∧ u8 x ≠ 0x7f)).
Proof.
  assert (∀ x, is_tchar x = true ↔ 0x21 ≤ u8 x ≤ 0x7e ∧ u8 x ∉ DELIMITERS) as Htchar.
  { intros x. assert (eqb (is_tchar x) (between 0x21 0x7e x
      && negb (existsb (Z.eqb (u8 x)) DELIMITERS)) = true) as Hx by octet_test x.
    apply eqb_prop in Hx. rewrite Hx, andb_true_iff, negb_true_iff. unfold between.
    assert (existsb (Z.eqb (u8 x)) DELIMITERS = false ↔ (u8 x ∉ DELIMITERS)) as ->; [|rewrite andb_true_iff, !Z.leb_le; tauto].
    rewrite <- not_true_iff_false, existsb_exists. setoid_rewrite <- list_elem_of_In.
    split; intros H ?; apply H; [exists (u8 x); by rewrite Z.eqb_refl|].
    destruct H0 as (y & Hy & ->%Z.eqb_eq). done. }
  assert (∀ p, forallb p l = true ↔ ∀ x, x ∈ l → p x = true) as Hall.
  { intros p. rewrite forallb_forall. by setoid_rewrite list_elem_of_In. }
  split; [|split; [|split]].
  - rewrite token_spec, Hall. setoid_rewrite Htchar. tauto.
  - rewrite field_name_spec, token_spec, !Hall.
    assert (∀ x, is_tchar x && negb (is_ascii_uppercase x) = true ↔
      is_tchar x = true ∧ ¬ (0x41 ≤ u8 x ≤ 0x5a)) as Hup.
    { intros x. rewrite andb_true_iff, negb_true_iff. unfold is_ascii_uppercase, between.
      rewrite andb_false_iff, !Z.leb_gt. intuition lia. }
    setoid_rewrite Hup. naive_solver.
  - unfold method_parse. destruct (token l) as [t|]; [|done]. cbn.
    by case_bool_decide; [subst|].
  - unfold value_parse, is_field_value.
    assert (∀ x, between 0x21 0x7e x || between 0x80 0xff x || (u8 x =? 0x20) || (u8 x =? 0x09) =
      true ↔ u8 x = 0x09 ∨ (0x20 ≤ u8 x ∧ u8 x ≠ 0x7f)) as Hv.
    { intros x. pose proof (u8_range x). unfold between.
      rewrite !orb_true_iff, !andb_true_iff, !Z.leb_le, !Z.eqb_eq. lia. }
    setoid_rewrite <- Hv. rewrite <- Hall. by destruct (forallb _ l).
Qed.
