(* ===== verification/RequestStream.v ===== *)
(** * Request validation (src/src/h3/stream.rs)

    How a decoded field section becomes a [Request] or is refused as malformed:
    [build_request] and the checks it is made of.  The loop over the section
    fills the locals of the source, [Parts]; what follows the loop is
    [finish_request]. *)

From S2P Require Import Prelude Utf8 Datagram H3Error Qpack Frame Message.

#[local] Open Scope string_scope.
#[local] Open Scope list_scope.
#[local] Open Scope Z_scope.

Definition malformed (detail : string) : Violation := stream_violation H3_MESSAGE_ERROR detail.

(** The quotation mark of a message. *)
Definition DQUOTE : string := String (Ascii.ascii_of_nat 34) EmptyString.

(** ** The checks on each part *)

(** [ascii]: bytes an ASCII check has accepted, as a [&str]. *)
Definition ascii (l : bytes) (invalid : Violation) : result bytes Violation :=
  ok_or (from_utf8 l) invalid.

Definition connect_protocol (protocol : bytes) : result bytes Violation :=
  ok_or (token protocol) (malformed "a :protocol that is not a token").

Definition uri_scheme (scheme : bytes) : result bytes Violation :=
  let invalid := malformed "a :scheme that is not a URI scheme" in
  if negb (at_byte is_ascii_alphabetic scheme)
     || negb (forallb (λ x, is_ascii_alphanumeric x || contains_byte (lit "+-.") x) scheme)
  then Err invalid
  else ascii scheme invalid.

Definition AUTHORITY_PUNCTUATION : bytes := lit "-._~%!$&'()*+,;=:@[]".

Definition uri_authority (authority : bytes) : result bytes Violation :=
  let invalid := malformed "an :authority that is not an authority" in
  if bool_decide (authority = []) then Err (malformed "an empty :authority")
  else if negb (forallb (λ x, is_ascii_alphanumeric x || contains_byte AUTHORITY_PUNCTUATION x)
                  authority)
  then Err invalid
  else ascii authority invalid.

Definition is_pchar (x : byte) : bool :=
  is_ascii_alphanumeric x || contains_byte (lit "-._~%!$&'()*+,;=:@") x.

(** [iter().position(..)] and the two slices around it. *)
Fixpoint split_at_byte (mark : byte) (l : bytes) : bytes * option bytes :=
  match l with
  | [] => ([], None)
  | x :: l =>
      if bool_decide (x = mark) then ([], Some l)
      else let '(before, after) := split_at_byte mark l in (x :: before, after)
  end.

Definition SLASH : byte := as_u8 0x2f.
Definition QUESTION : byte := as_u8 0x3f.

Definition split_target (target : bytes) (extended : bool)
    : result (bytes * option bytes) Violation :=
  if bool_decide (target = lit "*") && negb extended then Ok (lit "*", None)
  else if negb (at_byte (λ x, bool_decide (x = SLASH)) target) then
    Err (malformed "a :path that is not an absolute path")
  else
    let '(path, query) := split_at_byte QUESTION target in
    if negb (forallb (λ x, is_pchar x || bool_decide (x = SLASH)) path) then
      Err (malformed "a :path with a character no path may contain")
    else if negb (match query with
                  | None => true
                  | Some q => forallb (λ x, is_pchar x || contains_byte (lit "/?") x) q
                  end) then
      Err (malformed "a :path with a character no query may contain")
    else
      let invalid := malformed "a :path that is not valid UTF-8" in
      let? path := ascii path invalid in
      match query with
      | None => Ok (path, None)
      | Some q => let? q := ascii q invalid in Ok (path, Some q)
      end.

Definition is_ows (x : byte) : bool := (u8 x =? 0x20) || (u8 x =? 0x09).

Fixpoint trim_start (l : bytes) : bytes :=
  match l with
  | x :: rest => if is_ows x then trim_start rest else l
  | [] => []
  end.

(** [trim_optional_whitespace]: from the front, then from the back. *)
Definition trim_optional_whitespace (l : bytes) : bytes :=
  rev (trim_start (rev (trim_start l))).

Definition add_field (fields : Fields) (name value : bytes) : result Fields Violation :=
  let? name := ok_or (field_name name) (malformed "a field name that is uppercase or not a token") in
  let? value := ok_or (value_parse (trim_optional_whitespace value))
                  (malformed "a field value with a forbidden character") in
  if bool_decide (name = lit "connection") then
    Err (malformed "the Connection field, which HTTP/3 has no use for")
  else if bool_decide (name = lit "te") && negb (bool_decide (value = lit "trailers")) then
    Err (malformed ("a TE field with a value other than " +:+ DQUOTE +:+ "trailers" +:+ DQUOTE))
  else if bool_decide (name = lit "host") && contains fields (lit "host") then
    Err (malformed "more than one Host field")
  else Ok (append fields name value).

(** ** [build_request] *)

(** The locals of the loop over the section. *)
Record Parts := mkParts {
  p_method : option bytes;
  p_scheme : option bytes;
  p_authority : option bytes;
  p_target : option bytes;
  p_protocol : option bytes;
  p_fields : Fields;
  regular_field_seen : bool;
}.

Definition no_parts : Parts := mkParts None None None None None fields_new false.

Definition repeated : Violation := malformed "a repeated pseudo-header field".

(** [slot.replace(value).is_some()] on one of the five slots. *)
Definition add_pseudo (p : Parts) (name value : bytes) : result Parts Violation :=
  let put {A} (slot : option bytes) (k : A) : result A Violation :=
    match slot with Some _ => Err repeated | None => Ok k end in
  if bool_decide (name = lit ":method") then
    put (p_method p) (mkParts (Some value) (p_scheme p) (p_authority p) (p_target p)
                        (p_protocol p) (p_fields p) (regular_field_seen p))
  else if bool_decide (name = lit ":scheme") then
    put (p_scheme p) (mkParts (p_method p) (Some value) (p_authority p) (p_target p)
                        (p_protocol p) (p_fields p) (regular_field_seen p))
  else if bool_decide (name = lit ":authority") then
    put (p_authority p) (mkParts (p_method p) (p_scheme p) (Some value) (p_target p)
                           (p_protocol p) (p_fields p) (regular_field_seen p))
  else if bool_decide (name = lit ":path") then
    put (p_target p) (mkParts (p_method p) (p_scheme p) (p_authority p) (Some value)
                        (p_protocol p) (p_fields p) (regular_field_seen p))
  else if bool_decide (name = lit ":protocol") then
    put (p_protocol p) (mkParts (p_method p) (p_scheme p) (p_authority p) (p_target p)
                          (Some value) (p_fields p) (regular_field_seen p))
  else Err (malformed "an undefined pseudo-header field").

Definition is_pseudo (name : bytes) : bool := at_byte (λ x, bool_decide (x = as_u8 0x3a)) name.

Definition add_line (p : Parts) (f : Field) : result Parts Violation :=
  if negb (is_pseudo (Qpack.name f)) then
    let? fields := add_field (p_fields p) (Qpack.name f) (Qpack.value f) in
    Ok (mkParts (p_method p) (p_scheme p) (p_authority p) (p_target p) (p_protocol p) fields true)
  else if regular_field_seen p then
    Err (malformed "a pseudo-header field after a regular field")
  else add_pseudo p (Qpack.name f) (Qpack.value f).

(** The authority a request other than a plain CONNECT names. *)
Definition named_authority (authority host : option bytes) (extended : bool)
    : result bytes Violation :=
  match authority, host with
  | Some a, Some h =>
      if bool_decide (a = h) then Ok a else Err (malformed ":authority and Host disagree")
  | Some a, None => Ok a
  | None, h =>
      if extended then Err (malformed "an extended CONNECT request without :authority")
      else match h with
           | Some h => Ok h
           | None => Err (malformed "a request with neither :authority nor Host")
           end
  end.

Definition is_some {A} (o : option A) : bool := match o with Some _ => true | None => false end.

(** What follows the loop. *)
Definition finish_request (p : Parts) : result Request Violation :=
  let? method := ok_or (p_method p) (malformed "a request without :method") in
  let? method := ok_or (method_parse method) (malformed "an invalid :method") in
  if is_some (p_protocol p) && negb (bool_decide (method = Connect)) then
    Err (malformed ":protocol on a request that is not CONNECT")
  else
    let? (scheme, authority, path, query) :=
      (if bool_decide (method = Connect) && negb (is_some (p_protocol p)) then
         if is_some (p_scheme p) || is_some (p_target p) then
           Err (malformed "a CONNECT request carrying :scheme or :path")
         else
           let? authority := ok_or (p_authority p)
                               (malformed "a CONNECT request without :authority") in
           let? authority := uri_authority authority in
           Ok (None, Some authority, None, None)
       else
         let? scheme := ok_or (p_scheme p) (malformed "a request without :scheme") in
         let? target := ok_or (p_target p) (malformed "a request without :path") in
         let? named := named_authority (p_authority p) (get (p_fields p) (lit "host"))
                         (is_some (p_protocol p)) in
         let? (path, query) := split_target target (is_some (p_protocol p)) in
         let? scheme := uri_scheme scheme in
         let? authority := uri_authority named in
         Ok (Some scheme, Some authority, Some path, query)) in
    let? protocol :=
      match p_protocol p with
      | Some v => let? v := connect_protocol v in Ok (Some v)
      | None => Ok None
      end in
    Ok (mkRequest method scheme authority path query protocol (p_fields p)).

Definition build_request (section : list Field) : result Request Violation :=
  let? parts := try_fold add_line section no_parts in
  finish_request parts.

(** ** Splitting at a byte *)

Lemma split_at_byte_spec mark l :
  match split_at_byte mark l with
  | (before, None) => before = l ∧ mark ∉ l
  | (before, Some after) => l = before ++ mark :: after ∧ mark ∉ before
  end.
Proof.
  induction l as [|x l IH]; cbn [split_at_byte].
  - split; [done|]. by intros ?%elem_of_nil.
  - case_bool_decide as Hx; [subst; split; [done|by intros ?%elem_of_nil]|].
    destruct (split_at_byte mark l) as [before [after|]]; destruct IH as [-> Hn];
      (split; [done|]); apply not_elem_of_cons; done.
Qed.

Lemma split_at_byte_app mark l r :
  mark ∉ l → split_at_byte mark (l ++ mark :: r) = (l, Some r).
Proof.
  induction l as [|x l IH]; cbn [split_at_byte app].
  - by rewrite bool_decide_eq_true_2.
  - intros [Hx Hl]%not_elem_of_cons. rewrite bool_decide_eq_false_2 by congruence. by rewrite IH.
Qed.

Lemma split_at_byte_none mark l : mark ∉ l → split_at_byte mark l = (l, None).
Proof.
  induction l as [|x l IH]; cbn [split_at_byte]; [done|].
  intros [Hx Hl]%not_elem_of_cons. rewrite bool_decide_eq_false_2 by congruence. by rewrite IH.
Qed.
