(* ===== verification/RequestFacts.v ===== *)
(** * Which requests are well-formed (src/src/h3/stream.rs)

    A declarative reading of RFC 9114, sections 4.1 to 4.4, and RFC 8441: what a
    field section must be to be a request, and the theorem that [build_request]
    accepts exactly those and builds exactly that request. *)

From S2P Require Import Prelude Utf8 Datagram H3Error Qpack Frame Message RequestStream.

#[local] Open Scope string_scope.
#[local] Open Scope list_scope.
#[local] Open Scope Z_scope.

#[local] Abbreviation fname := Qpack.name.
#[local] Abbreviation fvalue := Qpack.value.

(** ** Well-formed field sections *)

Definition PSEUDO : list bytes :=
  [lit ":method"; lit ":scheme"; lit ":authority"; lit ":path"; lit ":protocol"].

Definition lookup_name (n : bytes) (l : list Field) : option bytes :=
  option_map fvalue (List.find (λ f, bool_decide (fname f = n)) l).

(** A regular field line and what it becomes: a lowercase token, and the value
    with the optional whitespace around it gone. *)
Record line_ok (f : Field) (line : bytes * FieldValue) : Prop := {
  line_name : line.1 = fname f;
  line_token : field_name (fname f) = Some (fname f);
  line_value : line.2 = trim_optional_whitespace (fvalue f);
  line_octets : is_field_value line.2 = true;
  line_connection : fname f ≠ lit "connection";
  line_te : fname f = lit "te" → line.2 = lit "trailers";
}.

Definition hosts (l : list bytes) : list bytes := List.filter (λ n, bool_decide (n = lit "host")) l.

(** Pseudo-header fields first, each known and none twice; then regular ones, with
    at most one Host. *)
Record section_ok (section pseudo regular : list Field) (fields : Fields) : Prop := {
  sec_split : section = pseudo ++ regular;
  sec_pseudo : Forall (λ f, fname f ∈ PSEUDO) pseudo;
  sec_once : NoDup (map fname pseudo);
  sec_regular : Forall (λ f, is_pseudo (fname f) = false) regular;
  sec_lines : Forall2 line_ok regular fields;
  sec_host : (length (hosts (map fst fields)) ≤ 1)%nat;
}.

Definition parts_of (pseudo : list Field) (fields : Fields) (seen : bool) : Parts :=
  mkParts (lookup_name (lit ":method") pseudo) (lookup_name (lit ":scheme") pseudo)
    (lookup_name (lit ":authority") pseudo) (lookup_name (lit ":path") pseudo)
    (lookup_name (lit ":protocol") pseudo) fields seen.

Lemma lookup_name_app n l f :
  lookup_name n (l ++ [f]) =
  match lookup_name n l with
  | Some v => Some v
  | None => if bool_decide (fname f = n) then Some (fvalue f) else None
  end.
Proof.
  unfold lookup_name. induction l as [|g l IH]; cbn [List.find app].
  - by destruct (bool_decide (fname f = n)).
  - destruct (bool_decide (fname g = n)); [done|]. apply IH.
Qed.

Lemma lookup_name_none n l : lookup_name n l = None ↔ n ∉ map fname l.
Proof.
  unfold lookup_name. induction l as [|g l IH]; cbn [List.find map].
  - split; [by intros _ ?%elem_of_nil|done].
  - rewrite not_elem_of_cons. case_bool_decide; [naive_solver|]. rewrite IH. naive_solver.
Qed.

(** The five names, one at a time. *)
Lemma pseudo_cases (n : bytes) :
  n ∈ PSEUDO ↔ n = lit ":method" ∨ n = lit ":scheme" ∨ n = lit ":authority" ∨ n = lit ":path" ∨
    n = lit ":protocol".
Proof. unfold PSEUDO. rewrite !elem_of_cons, elem_of_nil. tauto. Qed.

Lemma add_pseudo_ok l fs n v p :
  add_pseudo (parts_of l fs false) n v = Ok p ↔
  n ∈ PSEUDO ∧ (n ∉ map fname l) ∧ p = parts_of (l ++ [mkField n v]) fs false.
Proof.
  rewrite pseudo_cases, <- lookup_name_none. unfold parts_of. rewrite !lookup_name_app.
  unfold add_pseudo; cbn [Qpack.name Qpack.value].
  destruct (bool_decide_reflect (n = lit ":method")) as [->|N1];
  [|destruct (bool_decide_reflect (n = lit ":scheme")) as [->|N2];
  [|destruct (bool_decide_reflect (n = lit ":authority")) as [->|N3];
  [|destruct (bool_decide_reflect (n = lit ":path")) as [->|N4];
  [|destruct (bool_decide_reflect (n = lit ":protocol")) as [->|N5]; [|naive_solver]]]]];
  cbn [p_method p_scheme p_authority p_target p_protocol p_fields regular_field_seen];
  match goal with |- context [lookup_name ?n l = None] => 
    destruct (lookup_name n l) eqn:E; [split; [done|by intros (_ & ? & _)]|] end;
  cbn; repeat (match goal with |- context [match lookup_name ?n l with _ => _ end] =>
    destruct (lookup_name n l) end); (split; [intros [= <-]; auto 10|by intros (_ & _ & ->)]).
Qed.

(** ** Regular lines *)

Lemma lowercase_id l :
  forallb (λ x, is_tchar x && negb (is_ascii_uppercase x)) l = true →
  map to_ascii_lowercase l = l.
Proof.
  induction l as [|x l IH]; [done|]. cbn [forallb map].
  intros [[_ Hx]%andb_prop Hl]%andb_prop. rewrite IH by done. f_equal.
  unfold to_ascii_lowercase. by destruct (is_ascii_uppercase x).
Qed.

Lemma ignore_case_host n :
  field_name n = Some n → eq_ignore_ascii_case n (lit "host") = bool_decide (n = lit "host").
Proof.
  intros (_ & _ & Hn)%field_name_spec. unfold eq_ignore_ascii_case. by rewrite lowercase_id.
Qed.

Lemma contains_host regular fields :
  Forall2 line_ok regular fields →
  contains fields (lit "host") = negb (length (hosts (map fst fields)) =? 0)%nat.
Proof.
  unfold contains, get, hosts.
  induction 1 as [|f line regular fields Hl _ IH]; [done|].
  cbn [List.find List.filter map]. destruct Hl as [Hn Ht _ _ _ _].
  rewrite ignore_case_host by (by rewrite Hn). by destruct (bool_decide (line.1 = lit "host")).
Qed.

Lemma hosts_app l n :
  length (hosts (l ++ [n])) = (length (hosts l) + if bool_decide (n = lit "host") then 1 else 0)%nat.
Proof.
  unfold hosts. rewrite List.filter_app, length_app. cbn. by destruct (bool_decide _).
Qed.

Lemma add_field_ok regular fields f fields' :
  Forall2 line_ok regular fields → (length (hosts (map fst fields)) ≤ 1)%nat →
  add_field fields (fname f) (fvalue f) = Ok fields' ↔
  ∃ line, line_ok f line ∧ fields' = fields ++ [line] ∧
    (length (hosts (map fst (fields ++ [line]))) ≤ 1)%nat.
Proof.
  intros Hlines Hh. unfold add_field.
  setoid_rewrite map_app. cbn [map]. setoid_rewrite hosts_app.
  rewrite (contains_host _ _ Hlines). split.
  - intros (n & Hn & H)%result_bind_ok. apply ok_or_ok in Hn.
    pose proof (proj1 (field_name_spec _ _) Hn) as (-> & _).
    apply result_bind_ok in H as (v & Hv & H). apply ok_or_ok in Hv.
    unfold value_parse in Hv. destruct (is_field_value _) eqn:Ev; [|done].
    injection Hv as <-.
    destruct (bool_decide_reflect (fname f = lit "connection")) as [|Hc]; [done|].
    destruct (bool_decide_reflect (fname f = lit "te")) as [Hte|Hte]; cbn [andb] in H.
    + destruct (bool_decide_reflect (@eq FieldValue (trim_optional_whitespace (fvalue f))
        (lit "trailers"))) as [Hv|]; [|done]. cbn [negb] in H.
      assert (fname f ≠ lit "host") as Hnh by (by rewrite Hte).
      rewrite (bool_decide_eq_false_2 (fname f = lit "host")) in H by done. injection H as <-.
      exists (fname f, trim_optional_whitespace (fvalue f)). split; [by constructor|]. split; [done|]. cbn.
      rewrite bool_decide_eq_false_2 by done. lia.
    + destruct (bool_decide_reflect (fname f = lit "host")) as [Hhost|Hhost]; cbn [andb] in H.
      * destruct (length (hosts _) =? 0)%nat eqn:E0; [|done]. apply Nat.eqb_eq in E0.
        injection H as <-. exists (fname f, trim_optional_whitespace (fvalue f)). split; [by constructor|]. split; [done|]. rewrite E0.
        destruct (bool_decide _); lia.
      * injection H as <-. exists (fname f, trim_optional_whitespace (fvalue f)). split; [by constructor|]. split; [done|]. cbn.
        rewrite bool_decide_eq_false_2 by done. lia.
  - intros ([n v] & Hl & -> & Hcount). destruct Hl as [Hn Ht Hv Hoct Hc Hte].
    cbn [fst snd] in *. subst n v.
    rewrite Ht. cbn [ok_or result_bind]. unfold value_parse. rewrite Hoct. cbn [ok_or result_bind].
    rewrite bool_decide_eq_false_2 by done.
    destruct (bool_decide_reflect (fname f = lit "te")) as [E|E]; cbn [andb].
    + rewrite (bool_decide_eq_true_2 _ (Hte E)). cbn [negb].
      rewrite (bool_decide_eq_false_2 (fname f = lit "host")); [done|]. rewrite E. done.
    + destruct (bool_decide_reflect (fname f = lit "host")) as [E1|E1]; [|done]. cbn [andb].
      destruct (length (hosts _) =? 0)%nat eqn:E0; [done|]. apply Nat.eqb_neq in E0. lia.
Qed.

(** ** The loop over the section *)

Definition seen (regular : list Field) : bool := negb (bool_decide (regular = [])).

Lemma seen_app regular f : seen (regular ++ [f]) = true.
Proof. unfold seen. rewrite bool_decide_eq_false_2; [done|]. by destruct regular. Qed.

Lemma pseudo_is_pseudo n : n ∈ PSEUDO → is_pseudo n = true.
Proof. rewrite pseudo_cases. by intros [->|[->|[->|[->| ->]]]]. Qed.

Lemma add_line_ok section pseudo regular fields f p :
  section_ok section pseudo regular fields →
  add_line (parts_of pseudo fields (seen regular)) f = Ok p →
  ∃ pseudo' regular' fields', section_ok (section ++ [f]) pseudo' regular' fields' ∧
    p = parts_of pseudo' fields' (seen regular').
Proof.
  intros [-> Hp Hnd Hr Hl Hh] Hadd. unfold add_line in Hadd.
  destruct (is_pseudo (fname f)) eqn:Ef; cbn [negb] in Hadd.
  - cbn [regular_field_seen parts_of] in Hadd. unfold seen in *.
    case_bool_decide as Hreg; cbn [negb] in Hadd; [subst regular|done].
    apply Forall2_nil_inv_l in Hl. subst fields.
    apply add_pseudo_ok in Hadd as (Hin & Hfresh & ->).
    exists (pseudo ++ [f]), [], [].
    split; [|by destruct f]. split; try done; try by rewrite !app_nil_r.
    + apply Forall_app_2; [done|]. by apply Forall_singleton.
    + rewrite map_app, NoDup_app. split; [done|]. split; [|apply NoDup_singleton].
      intros n Hn Hn'. apply list_elem_of_singleton in Hn'. by subst n.
  - cbn [p_fields parts_of] in Hadd. apply result_bind_ok in Hadd as (fields' & Hadd & Heq).
    apply (add_field_ok regular) in Hadd as (line & Hline & -> & Hcount); [|done..].
    injection Heq as <-. exists pseudo, (regular ++ [f]), (fields ++ [line]).
    rewrite seen_app. split; [|done]. split; try done.
    + by rewrite app_assoc.
    + apply Forall_app_2; [done|]. by apply Forall_singleton.
    + apply Forall2_app; [done|]. constructor; [done|constructor].
Qed.

Lemma fold_pseudo pseudo2 pseudo1 :
  Forall (λ f, fname f ∈ PSEUDO) pseudo2 → NoDup (map fname (pseudo1 ++ pseudo2)) →
  try_fold add_line pseudo2 (parts_of pseudo1 [] false) =
  Ok (parts_of (pseudo1 ++ pseudo2) [] false).
Proof.
  revert pseudo1; induction pseudo2 as [|f l IH]; intros pseudo1 Hp Hnd.
  { by rewrite app_nil_r. }
  apply Forall_cons in Hp as [Hf Hp]. cbn [try_fold]. unfold add_line at 1.
  rewrite (pseudo_is_pseudo _ Hf). cbn [negb regular_field_seen parts_of].
  fold (parts_of pseudo1 [] false).
  rewrite (proj2 (add_pseudo_ok pseudo1 [] (fname f) (fvalue f)
    (parts_of (pseudo1 ++ [mkField (fname f) (fvalue f)]) [] false))).
  - cbn [result_bind]. rewrite IH; [|done|]; destruct f; by rewrite <- app_assoc.
  - split; [done|]. split; [|done]. rewrite map_app, NoDup_app in Hnd.
    destruct Hnd as (_ & Hdisj & _). intros Hin. apply (Hdisj _ Hin). by left.
Qed.

Lemma hosts_mono l1 l2 : (length (hosts l1) ≤ length (hosts (l1 ++ l2)))%nat.
Proof. unfold hosts. rewrite List.filter_app, length_app. lia. Qed.

Lemma fold_regular pseudo r2 f2 r1 f1 :
  Forall (λ f, is_pseudo (fname f) = false) r2 →
  Forall2 line_ok r1 f1 → Forall2 line_ok r2 f2 →
  (length (hosts (map fst (f1 ++ f2))) ≤ 1)%nat →
  try_fold add_line r2 (parts_of pseudo f1 (seen r1)) =
  Ok (parts_of pseudo (f1 ++ f2) (seen (r1 ++ r2))).
Proof.
  intros Hp Hl1 Hl2. revert r1 f1 Hl1.
  induction Hl2 as [|f line r2 f2 Hline Hl2 IH]; intros r1 f1 Hl1 Hh.
  { by rewrite !app_nil_r. }
  apply Forall_cons in Hp as [Hf Hp]. cbn [try_fold]. unfold add_line at 1.
  rewrite Hf. cbn [negb]. cbn [p_fields parts_of].
  rewrite map_app in Hh. cbn [map] in Hh.
  rewrite (proj2 (add_field_ok r1 f1 f (f1 ++ [line]) Hl1
    ltac:(pose proof (hosts_mono (map fst f1) (line.1 :: map fst f2)); lia))).
  - cbn [result_bind]. rewrite <- (seen_app r1 f).
    specialize (IH Hp (r1 ++ [f]) (f1 ++ [line])).
    rewrite <- !app_assoc in IH. apply IH.
    + apply Forall2_app; [done|]. constructor; [done|constructor].
    + by rewrite map_app.
  - exists line. split; [done|]. split; [done|]. rewrite map_app. cbn [map].
    pose proof (hosts_mono (map fst f1 ++ [line.1]) (map fst f2)) as Hm.
    rewrite <- app_assoc in Hm. cbn [app] in Hm. lia.
Qed.

Lemma fold_lines_ok section p :
  try_fold add_line section no_parts = Ok p ↔
  ∃ pseudo regular fields, section_ok section pseudo regular fields ∧
    p = parts_of pseudo fields (seen regular).
Proof.
  split.
  - apply (try_fold_inv _ (λ section p, ∃ pseudo regular fields,
      section_ok section pseudo regular fields ∧ p = parts_of pseudo fields (seen regular))).
    + intros done f a a' (pseudo & regular & fields & Hok & ->) Ha. by eapply add_line_ok.
    + exists [], [], []. split; [|done]. split; try done; [constructor..|]. cbn. lia.
  - intros (pseudo & regular & fields & [-> Hp Hnd Hr Hl Hh] & ->).
    rewrite try_fold_app. change no_parts with (parts_of [] [] false).
    rewrite (fold_pseudo pseudo []) by done. cbn [result_bind app].
    by apply (fold_regular pseudo regular fields [] []).
Qed.

(** ** The shape of the request *)

Definition scheme_octets (l : bytes) : Prop :=
  at_byte is_ascii_alphabetic l = true ∧
  forallb (λ x, is_ascii_alphanumeric x || contains_byte (lit "+-.") x) l = true.

Definition authority_octets (l : bytes) : Prop :=
  l ≠ [] ∧ forallb (λ x, is_ascii_alphanumeric x || contains_byte AUTHORITY_PUNCTUATION x) l = true.

(** [target_parts target path query]: the path is what precedes the first question
    mark of an absolute path, the query what follows it. *)
Inductive target_parts : bytes → bytes → option bytes → Prop :=
  | target_path path :
      at_byte (λ x, bool_decide (x = SLASH)) path = true →
      forallb (λ x, is_pchar x || bool_decide (x = SLASH)) path = true →
      target_parts path path None
  | target_query path query :
      at_byte (λ x, bool_decide (x = SLASH)) path = true →
      forallb (λ x, is_pchar x || bool_decide (x = SLASH)) path = true →
      forallb (λ x, is_pchar x || contains_byte (lit "/?") x) query = true →
      target_parts (path ++ QUESTION :: query) path (Some query).

Lemma scheme_ascii l : scheme_octets l → from_utf8 l = Some l.
Proof.
  intros [_ H]. eapply ascii_valid; [|exact H]. intros x Hx.
  assert (implb (is_ascii_alphanumeric x || contains_byte (lit "+-.") x) (u8 x <? 128) = true)
    as Ht by octet_test x.
  rewrite Hx in Ht. by apply Z.ltb_lt.
Qed.

Lemma authority_ascii l : authority_octets l → from_utf8 l = Some l.
Proof.
  intros [_ H]. eapply ascii_valid; [|exact H]. intros x Hx.
  assert (implb (is_ascii_alphanumeric x || contains_byte AUTHORITY_PUNCTUATION x) (u8 x <? 128)
    = true) as Ht by octet_test x.
  rewrite Hx in Ht. by apply Z.ltb_lt.
Qed.

Lemma path_ascii l :
  forallb (λ x, is_pchar x || bool_decide (x = SLASH)) l = true → from_utf8 l = Some l.
Proof.
  apply ascii_valid. intros x Hx.
  assert (implb (is_pchar x || bool_decide (x = SLASH)) (u8 x <? 128) = true) as Ht by octet_test x.
  rewrite Hx in Ht. by apply Z.ltb_lt.
Qed.

Lemma query_ascii l :
  forallb (λ x, is_pchar x || contains_byte (lit "/?") x) l = true → from_utf8 l = Some l.
Proof.
  apply ascii_valid. intros x Hx.
  assert (implb (is_pchar x || contains_byte (lit "/?") x) (u8 x <? 128) = true) as Ht
    by octet_test x.
  rewrite Hx in Ht. by apply Z.ltb_lt.
Qed.

Lemma uri_scheme_ok l s : uri_scheme l = Ok s ↔ s = l ∧ scheme_octets l.
Proof.
  unfold uri_scheme, ascii. pose proof (scheme_ascii l) as Ha. unfold scheme_octets in *.
  destruct (at_byte is_ascii_alphabetic l), (forallb _ l); cbn [negb orb];
    try (split; [done|by intros (_ & ? & ?)]).
  rewrite Ha by done. cbn [ok_or]. naive_solver.
Qed.

Lemma uri_authority_ok l s : uri_authority l = Ok s ↔ s = l ∧ authority_octets l.
Proof.
  unfold uri_authority, ascii. pose proof (authority_ascii l) as Ha. unfold authority_octets in *.
  destruct (bool_decide_reflect (l = [])) as [->|Hl]; [split; [done|by intros (_ & ? & _)]|].
  destruct (forallb _ l); cbn [negb]; [|split; [done|by intros (_ & _ & ?)]].
  rewrite Ha by done. cbn [ok_or]. naive_solver.
Qed.

Lemma connect_protocol_ok l s : connect_protocol l = Ok s ↔ s = l ∧ token l = Some l.
Proof.
  unfold connect_protocol. rewrite ok_or_ok, !token_spec. naive_solver.
Qed.

Lemma path_no_question l :
  forallb (λ x, is_pchar x || bool_decide (x = SLASH)) l = true → QUESTION ∉ l.
Proof.
  intros H Hin. rewrite forallb_forall in H. apply list_elem_of_In in Hin.
  specialize (H _ Hin). by vm_compute in H.
Qed.

Lemma split_target_ok t extended p q :
  split_target t extended = Ok (p, q) ↔
  (t = lit "*" ∧ extended = false ∧ p = lit "*" ∧ q = None) ∨ target_parts t p q.
Proof.
  assert (∀ p q, target_parts t p q → t ≠ lit "*") as Hstar.
  { intros p' q' [path H1 _|path q0 H1 _ _] Heq; [by rewrite Heq in H1|].
    apply (f_equal length) in Heq. rewrite length_app in Heq.
    destruct path; [done|]. cbn in Heq. lia. }
  unfold split_target. destruct (bool_decide (t = lit "*") && negb extended) eqn:E1.
  { apply andb_prop in E1 as [->%bool_decide_eq_true ->%negb_true_iff].
    split; [intros [= <- <-]; auto|]. intros [(_ & _ & -> & ->)|Ht]; [done|].
    by destruct (Hstar _ _ Ht). }
  assert (¬ (t = lit "*" ∧ extended = false)) as Hnot.
  { intros [-> ->]. by rewrite bool_decide_eq_true_2 in E1. }
  destruct (at_byte _ t) eqn:E2; cbn [negb].
  2: { split; [done|]. intros [(? & ? & _)|Ht]; [tauto|]. exfalso.
       destruct Ht as [path H1|path q' H1]; [congruence|].
       destruct path; [done|]. cbn in *. congruence. }
  pose proof (split_at_byte_spec QUESTION t) as Hsplit.
  assert (∀ path q, target_parts t path q → split_at_byte QUESTION t = (path, q)) as Hpq.
  { intros path q' Ht. destruct Ht as [path _ Hp|path q' _ Hp _].
    - by apply split_at_byte_none, path_no_question.
    - by apply split_at_byte_app, path_no_question. }
  destruct (split_at_byte QUESTION t) as [path query].
  destruct (forallb _ path) eqn:E3; cbn [negb].
  2: { split; [done|]. intros [(? & ? & _)|Ht]; [tauto|]. exfalso.
       specialize (Hpq _ _ Ht). injection Hpq as -> ->. destruct Ht; congruence. }
  unfold ascii. rewrite (path_ascii path E3). cbn [ok_or result_bind].
  destruct query as [query|]; destruct Hsplit as [-> _].
  - destruct (forallb _ query) eqn:E4; cbn [negb].
    2: { split; [done|]. intros [(? & ? & _)|Ht]; [tauto|]. exfalso.
         specialize (Hpq _ _ Ht). injection Hpq as <- <-. inversion Ht; congruence. }
    rewrite (query_ascii query E4). cbn [ok_or result_bind]. split.
    + intros [= <- <-]. right. constructor; [|done..]. destruct path; [by vm_compute in E2|done].
    + intros [(? & ? & _)|Ht]; [tauto|]. specialize (Hpq _ _ Ht). by injection Hpq as <- <-.
  - cbn [negb]. split.
    + intros [= <- <-]. right. by constructor.
    + intros [(? & ? & _)|Ht]; [tauto|]. specialize (Hpq _ _ Ht). by injection Hpq as <- <-.
Qed.

(** ** Well-formed requests *)

(** A CONNECT without :protocol names the target by :authority alone. *)
Record plain_connect_ok (pseudo : list Field) (r : Request) : Prop := {
  plain_scheme : lookup_name (lit ":scheme") pseudo = None ∧ scheme r = None;
  plain_path : lookup_name (lit ":path") pseudo = None ∧ path r = None ∧ query r = None;
  plain_authority : ∃ a, lookup_name (lit ":authority") pseudo = Some a ∧
    authority_octets a ∧ authority r = Some a;
}.

(** Every other request has a scheme, a target and an authority; Host may stand in
    for :authority unless :protocol is there, and must agree with it. *)
Record target_ok (pseudo : list Field) (r : Request) : Prop := {
  target_scheme : ∃ s, lookup_name (lit ":scheme") pseudo = Some s ∧ scheme_octets s ∧
    scheme r = Some s;
  target_target : ∃ t p, lookup_name (lit ":path") pseudo = Some t ∧ path r = Some p ∧
    ((t = lit "*" ∧ protocol r = None ∧ p = lit "*" ∧ query r = None) ∨
     target_parts t p (query r));
  target_authority : ∃ a, authority r = Some a ∧ authority_octets a ∧
    (∀ h, get (fields r) (lit "host") = Some h → h = a) ∧
    match lookup_name (lit ":authority") pseudo with
    | Some a' => a' = a
    | None => protocol r = None ∧ get (fields r) (lit "host") = Some a
    end;
}.

Record request_ok (section : list Field) (r : Request) : Prop := {
  req_section : ∃ pseudo regular,
    section_ok section pseudo regular (fields r) ∧
    (∃ m, lookup_name (lit ":method") pseudo = Some m ∧ method_parse m = Some (method r)) ∧
    lookup_name (lit ":protocol") pseudo = protocol r ∧
    (∀ t, protocol r = Some t → method r = Connect ∧ token t = Some t) ∧
    if decide (method r = Connect ∧ protocol r = None) then plain_connect_ok pseudo r
    else target_ok pseudo r;
}.

Lemma named_authority_ok authority host extended a :
  named_authority authority host extended = Ok a ↔
  (∀ h, host = Some h → h = a) ∧
  match authority with
  | Some a' => a' = a
  | None => extended = false ∧ host = Some a
  end.
Proof.
  unfold named_authority. destruct authority as [a'|], host as [h|].
  - case_bool_decide; [subst|]; naive_solver.
  - naive_solver.
  - destruct extended; naive_solver.
  - destruct extended; naive_solver.
Qed.

#[local] Arguments lit : simpl never.

(** What follows the loop, on each of the two shapes. *)
Lemma finish_plain pseudo fs b m r :
  lookup_name (lit ":method") pseudo = Some m → method_parse m = Some Connect →
  lookup_name (lit ":protocol") pseudo = None →
  finish_request (parts_of pseudo fs b) = Ok r ↔
  plain_connect_ok pseudo r ∧ method r = Connect ∧ protocol r = None ∧ fields r = fs.
Proof.
  intros Hm Hparse Hp. unfold finish_request, parts_of.
  cbn [p_method p_scheme p_authority p_target p_protocol p_fields].
  rewrite Hm, Hp. cbn [ok_or result_bind]. rewrite Hparse. cbn [ok_or result_bind is_some andb negb].
  rewrite bool_decide_eq_true_2 by done. cbn [andb].
  destruct (lookup_name (lit ":scheme") pseudo) eqn:Es;
    [split; [done|]; by intros [[[? _] _ _] _]; congruence|].
  destruct (lookup_name (lit ":path") pseudo) eqn:Et;
    [split; [done|]; by intros [[_ [? _] _] _]; congruence|].
  cbn [is_some orb]. destruct (lookup_name (lit ":authority") pseudo) as [a|] eqn:Ea.
  2: { split; [done|]. intros [[_ _ (a & ? & _)] _]. congruence. }
  cbn [ok_or result_bind]. destruct (uri_authority a) as [a'|] eqn:Eu.
  - apply uri_authority_ok in Eu as [-> Hoct]. cbn [result_bind]. split.
    + intros [= <-]. cbn. split; [|done]. split; [done|done|]. eauto.
    + intros [[[_ H1] [_ [H2 H3]] (a' & [= <-] & _ & H4)] (H5 & H6 & H7)].
      destruct r; cbn in *; congruence.
  - split; [done|]. intros [[_ _ (a' & Ha' & Hoct & _)] _]. rewrite Ea in Ha'.
    injection Ha' as <-. rewrite (proj2 (uri_authority_ok a a)) in Eu by done. done.
Qed.

Lemma finish_target pseudo fs b m mt r :
  lookup_name (lit ":method") pseudo = Some m → method_parse m = Some mt →
  ¬ (mt = Connect ∧ lookup_name (lit ":protocol") pseudo = None) →
  finish_request (parts_of pseudo fs b) = Ok r ↔
  target_ok pseudo r ∧ method r = mt ∧ protocol r = lookup_name (lit ":protocol") pseudo ∧
  fields r = fs ∧ (∀ t, protocol r = Some t → method r = Connect ∧ token t = Some t).
Proof.
  intros Hm Hparse Hnp. unfold finish_request, parts_of.
  cbn [p_method p_scheme p_authority p_target p_protocol p_fields].
  rewrite Hm. cbn [ok_or result_bind]. rewrite Hparse. cbn [ok_or result_bind].
  destruct (is_some (lookup_name (lit ":protocol") pseudo) && negb (bool_decide (mt = Connect)))
    eqn:E1.
  { split; [done|]. intros (_ & H1 & H2 & _ & H3). exfalso.
    destruct (lookup_name (lit ":protocol") pseudo) as [t|]; [|done].
    destruct (H3 t H2) as [H4 _]. rewrite bool_decide_eq_true_2 in E1 by congruence. done. }
  assert (bool_decide (mt = Connect) && negb (is_some (lookup_name (lit ":protocol") pseudo)) = false)
    as ->.
  { destruct (lookup_name (lit ":protocol") pseudo); [by rewrite andb_false_r|].
    rewrite bool_decide_eq_false_2; [done|]. tauto. }
  split.
  - intros H. apply result_bind_ok in H as ([[[s a] p] q] & H & Hrest).
    repeat (apply result_bind_ok in H as (? & ?%ok_or_ok & H)).
    apply result_bind_ok in H as (named & Hnamed%named_authority_ok & H).
    apply result_bind_ok in H as ([p' q'] & Hsplit%split_target_ok & H).
    apply result_bind_ok in H as (s' & [-> Hs]%uri_scheme_ok & H).
    apply result_bind_ok in H as (a' & [-> Ha]%uri_authority_ok & [= <- <- <- <-]).
    apply result_bind_ok in Hrest as (pr & Hpr & [= <-]).
    assert (pr = lookup_name (lit ":protocol") pseudo ∧
      ∀ t, pr = Some t → token t = Some t) as [-> Htok].
    { destruct (lookup_name (lit ":protocol") pseudo) as [t|]; [|by injection Hpr as <-].
      apply result_bind_ok in Hpr as (t' & [-> Ht]%connect_protocol_ok & [= <-]). naive_solver. }
    cbn. split; [split; cbn|].
    + eauto.
    + eexists _, _. split; [done|]. split; [done|].
      destruct Hsplit as [(G1 & G2 & G3 & G4)|Hsplit]; [left|by right].
      split_and!; try done. by destruct (lookup_name (lit ":protocol") pseudo).
    + exists named. destruct Hnamed as [Hh Hn]. split; [done|]. split; [done|]. split; [done|].
      destruct (lookup_name (lit ":authority") pseudo); [done|]. destruct Hn as [Hx ?].
      split; [|done]. by destruct (lookup_name (lit ":protocol") pseudo).
    + split_and!; try done. intros t Ht. split; [|by apply Htok]. rewrite Ht in E1. cbn in E1.
      by case_bool_decide.
  - intros ([(s & Hs & Hso & Hrs) (t & p & Ht & Hrp & Hparts) (a & Hra & Hao & Hh & Hau)] &
      Hrm & Hrp' & Hrf & Hproto).
    rewrite Hs, Ht. cbn [ok_or result_bind]. rewrite <- Hrp'. subst fs.
    rewrite (proj2 (named_authority_ok _ _ _ a)).
    2: { split; [done|]. destruct (lookup_name (lit ":authority") pseudo); [done|].
         destruct Hau as [-> ?]. done. }
    cbn [result_bind]. rewrite (proj2 (split_target_ok _ _ p (query r))).
    2: { destruct Hparts as [(? & -> & ?)|?]; [left|by right]. done. }
    cbn [result_bind]. rewrite (proj2 (uri_scheme_ok s s)) by done. cbn [result_bind].
    rewrite (proj2 (uri_authority_ok a a)) by done. cbn [result_bind].
    destruct (protocol r) as [v|] eqn:Ev.
    + destruct (Hproto v eq_refl) as [_ Hv].
      rewrite (proj2 (connect_protocol_ok v v)) by done. cbn [result_bind].
      destruct r; cbn in *; congruence.
    + cbn [result_bind]. destruct r; cbn in *; congruence.
Qed.

(** Every refusal of the builder is RFC 9114's "malformed". *)
Definition malformed_class (v : Violation) : Prop :=
  H3Error.code v = H3_MESSAGE_ERROR ∧ H3Error.is_connection_error v = false ∧
  is_field_section_too_large v = false.

(** ** Properties *)

Lemma build_request_ok section r :
  build_request section = Ok r ↔ request_ok section r.
Proof.
  unfold build_request. rewrite result_bind_ok. split.
  - intros (parts & (pseudo & regular & fs & Hsec & ->)%fold_lines_ok & Hfin).
    destruct (lookup_name (lit ":method") pseudo) as [m|] eqn:Em.
    2: { unfold finish_request, parts_of in Hfin. cbn [p_method] in Hfin. by rewrite Em in Hfin. }
    destruct (method_parse m) as [mt|] eqn:Ep.
    2: { unfold finish_request, parts_of in Hfin. cbn [p_method] in Hfin. rewrite Em in Hfin.
         cbn [ok_or result_bind] in Hfin. by rewrite Ep in Hfin. }
    split. exists pseudo, regular.
    destruct (decide (mt = Connect ∧ lookup_name (lit ":protocol") pseudo = None)) as [[-> Hp]|Hn].
    + apply (finish_plain _ _ _ m) in Hfin as (Hok & Hrm & Hrp & <-); [|done..].
      rewrite Hrm, Hrp, decide_True by done. split_and!; [done|by exists m|done|done|done].
    + apply (finish_target _ _ _ m mt) in Hfin as (Hok & Hrm & Hrp & <- & Hproto); [|done..].
      rewrite decide_False by (rewrite Hrm, Hrp; done). subst mt.
      split_and!; [done|by exists m|done|done|done].
  - intros [(pseudo & regular & Hsec & (m & Hm & Hp) & Hproto & Htok & Hshape)].
    eexists. split; [apply fold_lines_ok; eexists _, _, _; split; [done|reflexivity]|].
    case_decide as Hc.
    + destruct Hc as [Hc1 Hc2]. apply (finish_plain _ _ _ m); [done|congruence|congruence|done].
    + apply (finish_target _ _ _ m (method r)); [done|done|by rewrite Hproto|]. done.
Qed.

(** C13: a field section becomes a request exactly when it is well-formed by the
    rules of RFC 9114, sections 4.2 to 4.4, and RFC 8441 (pseudo-header fields
    first, known and not repeated; regular fields lowercase tokens with legal
    values, no Connection, TE only as trailers, one Host; a plain CONNECT with an
    authority and neither scheme nor path; any other request with a scheme, a
    target and an authority that Host does not contradict; :protocol a token and
    only on CONNECT), and the request built is the one the section describes. *)
Theorem build_request_exact section r :
  build_request section = Ok r ↔ request_ok section r.
Proof. apply build_request_ok. Qed.

Lemma build_request_exact_witness :
  ∃ r, build_request [mkField (lit ":method") (lit "CONNECT");
                      mkField (lit ":authority") (lit "example.com:443");
                      mkField (lit "user-agent") (lit " x ")] = Ok r ∧
    request_ok [mkField (lit ":method") (lit "CONNECT");
                mkField (lit ":authority") (lit "example.com:443");
                mkField (lit "user-agent") (lit " x ")] r ∧
    fields r = [(lit "user-agent", lit "x")].
Proof.
  eexists. split; [vm_compute; reflexivity|]. split; [|reflexivity].
  apply build_request_exact. vm_compute. reflexivity.
Defined.

(** ** Refusals *)

(** A step whose every error is a malformed request. *)
Definition refuses_malformed {A} (r : result A Violation) : Prop :=
  ∀ v, r = Err v → malformed_class v.

Create HintDb malformed.

Lemma refuses_ok {A} (a : A) : refuses_malformed (Ok a).
Proof. done. Qed.

Lemma refuses_err {A} d : refuses_malformed (A := A) (Err (malformed d)).
Proof. by intros v [= <-]. Qed.

Lemma refuses_ok_or {A} (o : option A) d : refuses_malformed (ok_or o (malformed d)).
Proof. intros v [_ <-]%ok_or_err. done. Qed.

Lemma refuses_bind {A B} (r : result A Violation) (k : A → result B Violation) :
  refuses_malformed r → (∀ a, refuses_malformed (k a)) → refuses_malformed (result_bind r k).
Proof. intros Hr Hk v [H|(a & _ & H)]%result_bind_err; [by apply Hr|by eapply Hk]. Qed.

Lemma refuses_fold {A B} (f : B → A → result B Violation) l b :
  (∀ b a, refuses_malformed (f b a)) → refuses_malformed (try_fold f l b).
Proof.
  intros Hf. revert b. induction l as [|a l IH]; intros b; cbn [try_fold]; [apply refuses_ok|].
  by apply refuses_bind.
Qed.

#[export] Hint Resolve refuses_ok refuses_err refuses_ok_or refuses_bind : malformed.

Ltac refuses :=
  repeat first
    [ progress intros
    | apply refuses_ok | apply refuses_err | apply refuses_ok_or | apply refuses_bind
    | case_match ].

Lemma refuses_add_field fs n v : refuses_malformed (add_field fs n v).
Proof. unfold add_field. refuses. Qed.

Lemma refuses_add_pseudo p n v : refuses_malformed (add_pseudo p n v).
Proof. unfold add_pseudo, repeated. refuses. Qed.

Lemma refuses_add_line p f : refuses_malformed (add_line p f).
Proof.
  unfold add_line. refuses; auto using refuses_add_field, refuses_add_pseudo with malformed.
Qed.

Lemma refuses_authority l : refuses_malformed (uri_authority l).
Proof. unfold uri_authority, ascii. refuses. Qed.

Lemma refuses_target t e : refuses_malformed (split_target t e).
Proof. unfold split_target, ascii. refuses. Qed.

Lemma refuses_scheme l : refuses_malformed (uri_scheme l).
Proof. unfold uri_scheme, ascii. refuses. Qed.

Lemma refuses_named a h e : refuses_malformed (named_authority a h e).
Proof. unfold named_authority. refuses. Qed.

Lemma refuses_finish p : refuses_malformed (finish_request p).
Proof.
  unfold finish_request, connect_protocol.
  repeat first
    [ progress intros
    | apply refuses_authority | apply refuses_target | apply refuses_scheme | apply refuses_named
    | apply refuses_ok | apply refuses_err | apply refuses_ok_or | apply refuses_bind
    | case_match ].
Qed.

(** Whatever the peer sends as a field section, a refusal of it is one stream's
    problem: a stream error H3_MESSAGE_ERROR, never a connection error and never
    the answer to an oversized section, so no request a client can write closes
    the connection its other requests are on. *)
Theorem build_request_refusals section v :
  build_request section = Err v → malformed_class v.
Proof.
  revert v. apply refuses_bind; [|apply refuses_finish].
  apply refuses_fold. apply refuses_add_line.
Qed.

Lemma build_request_refusals_witness :
  malformed_class (malformed "a request without :method").
Proof. apply (build_request_refusals []). reflexivity. Defined.
