(* ===== verification/Logfmt.v ===== *)
(** * Log fields (src/src/logfmt.rs)

    The bound on what a peer's bytes may write into a log line, and the doubling
    schedule of repeated warnings.  The [Debug] escaping of a string is the
    standard library's Unicode tables and is an argument here. *)

From S2P Require Import Prelude Utf8 H3Error.

#[local] Open Scope Z_scope.

Definition ABSENT : bytes := lit "-".

Definition MAX_TOKEN : nat := 32.

Definition truncated (head : bytes) (whole : Z) : bytes :=
  head ++ lit "... <truncated from " ++ lit (pretty whole) ++ lit " bytes>".

(** [str::is_char_boundary] and [str::floor_char_boundary]. *)
Definition is_char_boundary (l : bytes) (i : nat) : bool :=
  (i =? 0)%nat || (i =? length l)%nat ||
  match l !! i with
  | Some x => negb (continuation x)
  | None => false
  end.

Fixpoint boundary_at_or_below (l : bytes) (i : nat) : nat :=
  match i with
  | O => O
  | S j => if is_char_boundary l i then i else boundary_at_or_below l j
  end.

Definition floor_char_boundary (l : bytes) (i : nat) : nat :=
  if (length l <=? i)%nat then length l else boundary_at_or_below l i.

Definition bounded (token : bytes) : bytes :=
  if (length token <=? MAX_TOKEN)%nat then token
  else truncated (take (floor_char_boundary token MAX_TOKEN) token) (blen token).

Definition bounded_bytes (token : bytes) : bytes :=
  if (length token <=? MAX_TOKEN)%nat then from_utf8_lossy token
  else truncated (from_utf8_lossy (take MAX_TOKEN token)) (blen token).

(** [or_dash] with the value already displayed. *)
Definition or_dash (value : option bytes) : bytes := default ABSENT value.

Section Escaping.
Context {QuinnError : Type} (debug_str : bytes → bytes).

Definition escaped_bytes (token : bytes) : bytes := debug_str (bounded_bytes token).

Definition peer_error (e : @quinn_ConnectionError QuinnError) : @quinn_ConnectionError QuinnError :=
  match e with
  | ConnectionClosed code reason => ConnectionClosed code (escaped_bytes reason)
  | ApplicationClosed code reason => ApplicationClosed code (escaped_bytes reason)
  | other => other
  end.
End Escaping.

(** ** The sampler: its counter, and what [record] returns *)

Definition Sampler : Type := Z.

Definition sampler_new : Sampler := 0.

Definition is_power_of_two (x : Z) : bool := (0 <? x) && (x =? 2 ^ Z.log2 x).

Definition record (s : Sampler) : Sampler * option Z :=
  let total := wrap 64 (s + 1) in
  (total, if is_power_of_two total then Some total else None).

(** [n] occurrences in a row: the totals reported, in order. *)
Fixpoint records (n : nat) (s : Sampler) : Sampler * list Z :=
  match n with
  | O => (s, [])
  | S n =>
      let '(s, reports) := records n s in
      let '(s, report) := record s in
      (s, reports ++ match report with Some total => [total] | None => [] end)
  end.

(** [addresses]: the head of a list and how many more there are, with each address
    already displayed. *)
Definition MAX_ADDRESSES : nat := 8.

Definition addresses (l : list bytes) : bytes :=
  let head := take MAX_ADDRESSES l in
  let rest := (length l - MAX_ADDRESSES)%nat in
  lit "[" ++ concat (imap (λ i a, (if (0 <? i)%nat then lit ", " else []) ++ a) head)
  ++ (if (0 <? rest)%nat then lit ", and " ++ lit (pretty (Z.of_nat rest)) ++ lit " more" else [])
  ++ lit "]".

(** ** Cutting at a character boundary *)

Lemma second_continuation x y : second_ok x y = true → continuation y = true.
Proof. unfold second_ok, continuation, between. repeat case_match; lia. Qed.

(** The octets of a character after its first are continuation octets. *)
Lemma char_continuation l n i x :
  scan l = Char n → (0 < i < n)%nat → l !! i = Some x → continuation x = true.
Proof.
  destruct l as [|a l]; [done|]. cbn [scan].
  assert (∀ p k, at_byte p (drop k l) = true → ∃ y, l !! k = Some y ∧ p y = true) as Hat.
  { intros p k. rewrite <- (Nat.add_0_r k), <- lookup_drop, Nat.add_0_r.
    destruct (drop k l); [done|]. eauto. }
  destruct i as [|i]; [lia|]. intros Hs Hi Hx.
  change ((a :: l) !! S i) with (l !! i) in Hx.
  destruct (width a) as [|[|[|[|[|w]]]]]; try done.
  - injection Hs as <-. lia.
  - destruct (at_byte continuation l) eqn:E; [|done]. injection Hs as <-.
    assert (i = 0%nat) as -> by lia. destruct (Hat _ 0%nat E) as (y & Hy & Hc). congruence.
  - destruct (at_byte (second_ok a) l) eqn:E1; [|done].
    destruct (at_byte continuation (drop 1 l)) eqn:E2; [|done]. injection Hs as <-.
    destruct (Hat _ 0%nat E1) as (y & Hy & Hc%second_continuation), (Hat _ _ E2) as (z & Hz & Hd).
    assert (i = 0 ∨ i = 1)%nat as [-> | ->] by lia; congruence.
  - destruct (at_byte (second_ok a) l) eqn:E1; [|done].
    destruct (at_byte continuation (drop 1 l)) eqn:E2; [|done].
    destruct (at_byte continuation (drop 2 l)) eqn:E3; [|done]. injection Hs as <-.
    destruct (Hat _ 0%nat E1) as (y & Hy & Hc%second_continuation), (Hat _ _ E2) as (z & Hz & Hd),
      (Hat _ _ E3) as (t & Ht & He).
    assert (i = 0 ∨ i = 1 ∨ i = 2)%nat as [-> |[-> | ->]] by lia; congruence.
Qed.

Lemma scan_char_bound l n : scan l = Char n → (1 ≤ n ≤ 4)%nat.
Proof.
  destruct l as [|a l]; [done|]. cbn [scan]. repeat case_match; try done; intros [= <-]; lia.
Qed.

Lemma boundary_drop l n i :
  (n ≤ i)%nat → (0 < n)%nat → (n ≤ length l)%nat →
  is_char_boundary l i = true → is_char_boundary (drop n l) (i - n) = true.
Proof.
  unfold is_char_boundary. rewrite length_drop, lookup_drop. intros H1 H2 H3.
  replace (n + (i - n))%nat with i by lia.
  rewrite !orb_true_iff, !Nat.eqb_eq. intros [[->|Hlen]|Hc]; [lia|left; right; lia|auto].
Qed.

(** A boundary cuts UTF-8 into UTF-8. *)
Lemma valid_take l i :
  valid_utf8 l = true → is_char_boundary l i = true → valid_utf8 (take i l) = true.
Proof.
  revert i. induction l as [l IH] using (induction_ltof1 _ length). intros i Hv Hi.
  destruct (decide (i = 0%nat)) as [->|Hi0]; [done|].
  destruct (decide (length l ≤ i)%nat) as [Hge|Hlt]; [by rewrite take_ge|].
  rewrite valid_unfold in Hv. destruct l as [|x l]; [by rewrite take_nil|].
  destruct (scan (x :: l)) as [n|] eqn:E; [|done].
  pose proof (scan_char_bound _ _ E). pose proof (scan_char_le _ _ E) as Hle.
  destruct (le_lt_dec n i) as [Hni|Hni].
  - replace i with (n + (i - n))%nat by lia.
    rewrite <- take_take_drop.
    rewrite valid_app by (by apply valid_char). apply IH; [|done|by apply boundary_drop; try lia].
    unfold ltof. rewrite length_drop. cbn [length] in *. lia.
  - exfalso. unfold is_char_boundary in Hi. rewrite !orb_true_iff, !Nat.eqb_eq in Hi.
    destruct Hi as [[?|?]|Hc]; [lia|lia|].
    destruct ((x :: l) !! i) as [y|] eqn:Ey; [|done].
    by rewrite (char_continuation (x :: l) n i y E ltac:(lia) Ey) in Hc.
Qed.

(** There is a boundary within the last four positions. *)
Lemma boundary_near l m :
  valid_utf8 l = true → (m ≤ length l)%nat →
  ∃ i, (m - 3 ≤ i ≤ m)%nat ∧ is_char_boundary l i = true.
Proof.
  revert m. induction l as [l IH] using (induction_ltof1 _ length). intros m Hv Hm.
  destruct (le_lt_dec m 3) as [H3|H3].
  { exists 0%nat. split; [lia|done]. }
  rewrite valid_unfold in Hv. destruct l as [|x l]; [cbn in Hm; lia|].
  destruct (scan (x :: l)) as [n|] eqn:E; [|done].
  pose proof (scan_char_bound _ _ E). pose proof (scan_char_le _ _ E) as Hle.
  destruct (IH (drop n (x :: l))) with (m := (m - n)%nat) as (i & Hi & Hb).
  { unfold ltof. rewrite length_drop. cbn [length] in *. lia. }
  { done. }
  { rewrite length_drop. lia. }
  exists (n + i)%nat. split; [lia|]. revert Hb. unfold is_char_boundary.
  rewrite length_drop, lookup_drop, !orb_true_iff, !Nat.eqb_eq.
  intros [[->|Hlen]|Hc]; [|left; right; lia|by right].
  rewrite Nat.add_0_r. destruct (decide (n = length (x :: l))) as [|Hne]; [by left; right|].
  right. destruct ((x :: l) !! n) as [y|] eqn:Ey; [|apply lookup_ge_None in Ey; lia].
  (* the octet after a character starts another *)
  destruct (continuation y) eqn:Ec; [|done]. exfalso.
  rewrite valid_unfold in Hv. assert (drop n (x :: l) = y :: drop (S n) (x :: l)) as Hd.
  { by rewrite (drop_S _ y). }
  rewrite Hd in Hv. assert (width y = 0%nat) as Hw.
  { unfold width, continuation, between in *. 
    repeat (match goal with |- context [(?a <=? ?b)] => destruct (Z.leb_spec a b) end; cbn);
      try done; unfold between in Ec; lia. }
  cbn [scan] in Hv. rewrite Hw in Hv. done.
Qed.

Lemma boundary_at_or_below_spec l i :
  is_char_boundary l (boundary_at_or_below l i) = true ∧ (boundary_at_or_below l i ≤ i)%nat ∧
  ∀ j, (j ≤ i)%nat → is_char_boundary l j = true → (j ≤ boundary_at_or_below l i)%nat.
Proof.
  induction i as [|i IH]; cbn [boundary_at_or_below]; [split_and!; [done|lia|auto]|].
  destruct (is_char_boundary l (S i)) eqn:E; [split_and!; [done|lia|auto]|].
  destruct IH as (H1 & H2 & H3). split_and!; [done|lia|].
  intros j Hj Hb. destruct (decide (j = S i)) as [->|]; [congruence|]. apply H3; [lia|done].
Qed.

(** ** How long a bounded token is *)

Lemma length_lit s : length (lit s) = String.length s.
Proof.
  unfold lit. induction s as [|a s IH]; [done|].
  change (String.list_byte_of_string (String.String a s)) with
    (Ascii.byte_of_ascii a :: String.list_byte_of_string s). cbn [length String.length]. by rewrite IH.
Qed.

Lemma pretty_N_length k x s :
  (x < 10 ^ N.of_nat k)%N → (String.length (pretty_N_go x s) ≤ k + String.length s)%nat.
Proof.
  revert x s; induction k as [|k IH]; intros x s Hx.
  - replace x with 0%N by (cbn in Hx; lia). by rewrite pretty_N_go_0.
  - destruct (N.eq_0_gt_0_cases x) as [->|Hpos]; [rewrite pretty_N_go_0; lia|].
    rewrite pretty_N_go_step by done. etrans; [apply IH|cbn [String.length]; lia].
    rewrite Nat2N.inj_succ, N.pow_succ_r' in Hx. apply N.Div0.div_lt_upper_bound. lia.
Qed.

Lemma pretty_length n : 0 ≤ n < 2 ^ 64 → (length (lit (pretty n)) ≤ 20)%nat.
Proof.
  intros Hn. rewrite length_lit. unfold pretty, pretty_Z.
  destruct n as [|p|p]; [cbn; lia| |lia]. unfold pretty_positive, pretty, pretty_N.
  rewrite decide_False by done. etrans; [apply (pretty_N_length 20)|cbn; lia]. cbn. lia.
Qed.

Lemma truncated_length head whole :
  0 ≤ whole < 2 ^ 64 → (length (truncated head whole) ≤ length head + 47)%nat.
Proof.
  intros Hw. unfold truncated. rewrite !length_app. pose proof (pretty_length whole Hw).
  change (length (lit "... <truncated from ")) with 20%nat. change (length (lit " bytes>")) with 7%nat. lia.
Qed.

Lemma bounded_length token : blen token < 2 ^ 64 → (length (bounded token) ≤ 79)%nat.
Proof.
  intros Ht. unfold bounded. destruct (Nat.leb_spec (length token) MAX_TOKEN); [unfold MAX_TOKEN in *; lia|].
  unfold floor_char_boundary. destruct (Nat.leb_spec (length token) MAX_TOKEN); [lia|].
  pose proof (boundary_at_or_below_spec token MAX_TOKEN) as (_ & Hle & _).
  etrans; [apply truncated_length; split; [auto with volto|done]|].
  rewrite length_take. unfold MAX_TOKEN in *. lia.
Qed.

Lemma bounded_bytes_length token : blen token < 2 ^ 64 → (length (bounded_bytes token) ≤ 143)%nat.
Proof.
  intros Ht. unfold bounded_bytes. destruct (Nat.leb_spec (length token) MAX_TOKEN).
  - pose proof (lossy_length token). unfold MAX_TOKEN in *. lia.
  - etrans; [apply truncated_length; split; [auto with volto|done]|].
    pose proof (lossy_length (take MAX_TOKEN token)) as Hl. rewrite length_take in Hl.
    unfold MAX_TOKEN in *. lia.
Qed.

(** ** Properties *)

(** A peer-chosen token on a log line.  A token of at most MAX_TOKEN bytes is
    printed whole.  A longer one is cut to a prefix of 29 to 32 bytes that is
    itself whole UTF-8, so the cut never splits a character and never panics, and
    is followed by the length it had. *)
Theorem bounded_cut token :
  valid_utf8 token = true →
  ((length token ≤ MAX_TOKEN)%nat ∧ bounded token = token) ∨
  ∃ head rest, token = head ++ rest ∧ (29 ≤ length head ≤ MAX_TOKEN)%nat ∧
    valid_utf8 head = true ∧ bounded token = truncated head (blen token).
Proof.
  intros Hv. unfold bounded. destruct (Nat.leb_spec (length token) MAX_TOKEN) as [Hle|Hgt].
  { by left. }
  right. unfold floor_char_boundary.
  destruct (Nat.leb_spec (length token) MAX_TOKEN) as [|_]; [lia|].
  destruct (boundary_at_or_below_spec token MAX_TOKEN) as (Hb & Hle & Hmax).
  destruct (boundary_near token MAX_TOKEN Hv ltac:(lia)) as (i & Hi & Hib).
  specialize (Hmax i ltac:(lia) Hib). set (e := boundary_at_or_below token MAX_TOKEN) in *.
  exists (take e token), (drop e token). rewrite take_drop, length_take.
  unfold MAX_TOKEN in *. split_and!; [done|lia|lia|by apply valid_take|done].
Qed.

Lemma bounded_cut_witness :
  let token := map as_u8 (0x41 :: concat (replicate 16 [0xc3; 0xa9])) in
  length token = 33%nat ∧
  ∃ head rest, token = head ++ rest ∧ (29 ≤ length head ≤ MAX_TOKEN)%nat ∧
    valid_utf8 head = true ∧ bounded token = truncated head (blen token).
Proof.
  intros token. split; [reflexivity|].
  destruct (bounded_cut token eq_refl) as [[H _]|H]; [vm_compute in H; lia|exact H].
Defined.

(** Bytes that need not be text are bounded before they are decoded: the
    decoded head is UTF-8 and at most three bytes for each of the MAX_TOKEN kept,
    whatever was sent, and a short token that is text is unchanged. *)
Theorem bounded_bytes_bound token :
  ∃ head, valid_utf8 head = true ∧ (length head ≤ 3 * MAX_TOKEN)%nat ∧
    bounded_bytes token =
      (if (length token <=? MAX_TOKEN)%nat then head else truncated head (blen token)) ∧
    (valid_utf8 (take MAX_TOKEN token) = true → head = take MAX_TOKEN token).
Proof.
  exists (from_utf8_lossy (take MAX_TOKEN token)). unfold bounded_bytes.
  pose proof (lossy_length (take MAX_TOKEN token)) as Hl. rewrite length_take in Hl.
  split; [apply lossy_is_valid|]. split; [lia|]. split; [|apply lossy_valid].
  destruct (Nat.leb_spec (length token) MAX_TOKEN); [by rewrite take_ge|done].
Qed.

Lemma bounded_bytes_bound_witness :
  ∃ head, (length head ≤ 96)%nat ∧ bounded_bytes (lit "user1") = head.
Proof.
  destruct (bounded_bytes_bound (lit "user1")) as (head & _ & Hl & Hb & _).
  exists head. split; [exact Hl|exact Hb].
Defined.

Lemma record_step s : 0 ≤ s < 2 ^ 64 - 1 → record s =
  (s + 1, if is_power_of_two (s + 1) then Some (s + 1) else None).
Proof. intros Hs. unfold record. by rewrite wrap_id by (unfold is_uint; lia). Qed.

Lemma log2_step n :
  0 < n → Z.log2 (n + 1) = if is_power_of_two (n + 1) then Z.log2 n + 1 else Z.log2 n.
Proof.
  intros Hn. unfold is_power_of_two. destruct (Z.ltb_spec 0 (n + 1)); [cbn [andb]|lia].
  destruct (Z.log2_spec n Hn) as [H1 H2]. rewrite Z.pow_succ_r in H2 by apply Z.log2_nonneg.
  destruct (Z.log2_spec (n + 1) ltac:(lia)) as [H3 H4].
  pose proof (Z.log2_nonneg n). pose proof (Z.log2_nonneg (n + 1)).
  destruct (Z.eq_dec (n + 1) (2 ^ (Z.log2 n + 1))) as [Heq|Hne].
  - rewrite Heq, Z.log2_pow2 by lia. by rewrite Z.eqb_refl.
  - assert (Z.log2 (n + 1) = Z.log2 n) as Hlog.
    { apply Z.log2_unique; [done|]. rewrite Z.pow_succ_r by done.
      rewrite Z.pow_add_r in Hne by lia. lia. }
    rewrite Hlog. destruct (Z.eqb_spec (n + 1) (2 ^ Z.log2 n)); lia.
Qed.

Lemma records_powers n :
  Z.of_nat n < 2 ^ 64 →
  records n sampler_new =
  (Z.of_nat n, if (n =? 0)%nat then []
               else map (λ k, 2 ^ Z.of_nat k) (seq 0 (S (Z.to_nat (Z.log2 (Z.of_nat n)))))).
Proof.
  induction n as [|n IH]; intros Hn; [done|].
  cbn [records]. rewrite IH by lia. rewrite record_step by lia.
  replace (Z.of_nat n + 1) with (Z.of_nat (S n)) by lia. f_equal.
  destruct n as [|n]; [done|]. change (S (S n) =? 0)%nat with false.
  change (S n =? 0)%nat with false. cbn match.
  pose proof (log2_step (Z.of_nat (S n)) ltac:(lia)) as Hlog.
  replace (Z.of_nat (S n) + 1) with (Z.of_nat (S (S n))) in Hlog by lia. rewrite Hlog.
  pose proof (Z.log2_nonneg (Z.of_nat (S n))).
  destruct (is_power_of_two (Z.of_nat (S (S n)))) eqn:E; [|by rewrite app_nil_r].
  unfold is_power_of_two in E. apply andb_prop in E as [_ E%Z.eqb_eq].
  rewrite E at 1. rewrite Hlog.
  replace (Z.to_nat (Z.log2 (Z.of_nat (S n)) + 1)) with (S (Z.to_nat (Z.log2 (Z.of_nat (S n)))))
    by lia.
  rewrite (seq_S _ 0 : seq 0 (S (S _)) = _), map_app. cbn [map]. f_equal. f_equal. f_equal. lia.
Qed.

(** The doubling schedule of a repeated warning: of [n] occurrences on a
    connection exactly those whose running total is a power of two are reported,
    in order, the first included, so [n] occurrences make floor(log2 n) + 1 lines
    and the last line is within a factor of two of the true count. *)
Theorem sampler_schedule n :
  (0 < n)%nat → Z.of_nat n < 2 ^ 64 →
  (records n sampler_new).2 =
    map (λ k, 2 ^ Z.of_nat k) (seq 0 (S (Z.to_nat (Z.log2 (Z.of_nat n))))) ∧
  ∃ last, List.last (records n sampler_new).2 0 = last ∧ last ≤ Z.of_nat n < 2 * last.
Proof.
  intros Hpos Hn. rewrite records_powers by done.
  destruct (Nat.eqb_spec n 0) as [|_]; [lia|]. cbn [snd]. split; [done|].
  exists (2 ^ Z.log2 (Z.of_nat n)). pose proof (Z.log2_nonneg (Z.of_nat n)). split.
  - rewrite (seq_S _ 0), map_app. cbn [map]. rewrite last_last. f_equal. lia.
  - pose proof (Z.log2_spec (Z.of_nat n) ltac:(lia)) as Hs.
    rewrite Z.pow_succ_r in Hs by done. lia.
Qed.

Lemma sampler_schedule_witness :
  (records 9 sampler_new).2 = [1; 2; 4; 8].
Proof. destruct (sampler_schedule 9 ltac:(lia) ltac:(lia)) as [H _]. exact H. Defined.
