(* ===== verification/Auth.v ===== *)
(** * Authentication (src/src/auth.rs)

    HTTP Basic credentials: the two fields they are read from, the base64
    decoder, the comparison against the configured users and the record of
    refusals that the failure budget counts.  [subtle]'s constant-time equality
    is equality of bytes. *)

From S2P Require Import Prelude Utf8 Datagram Message RequestStream Logfmt.

#[local] Open Scope string_scope.
#[local] Open Scope list_scope.
#[local] Open Scope Z_scope.

Definition PROXY_AUTHENTICATE : bytes := lit "proxy-authenticate".
Definition CREDENTIAL_FIELDS : list bytes := [lit "proxy-authorization"; lit "authorization"].
Definition MAX_CREDENTIAL_VALUES : nat := length CREDENTIAL_FIELDS.

Definition CHALLENGE : bytes :=
  lit "Basic realm=" ++ [as_u8 0x22] ++ lit "masque" ++ [as_u8 0x22].

(** [config::User] and [config::Auth]. *)
Record User := mkUser { username : bytes; password : bytes }.

#[export] Instance User_eq_dec : EqDecision User.
Proof. solve_decision. Defined.

Definition Authenticator : Type := list User.

Definition auth_new (users : list User) : Authenticator := users.

Inductive Denied :=
  | Missing
  | Malformed (reason : string)
  | Rejected (username : bytes).

Definition reason (d : Denied) : string :=
  match d with
  | Missing => "no credentials"
  | Malformed reason => reason
  | Rejected _ => "credentials rejected"
  end.

Definition denied_username (d : Denied) : option bytes :=
  match d with
  | Rejected username => Some username
  | _ => None
  end.

Record Denials := mkDenials { reported : Denied; others : list Denied }.

Definition claims (d : Denials) : list (option bytes) :=
  denied_username (reported d) :: map denied_username (others d).

Definition charged (d : Denials) : nat := 1 + length (others d).

Definition denials_push (d : Denials) (denied : Denied) : Denials :=
  mkDenials (reported d) (others d ++ [denied]).

Definition denials_from (denied : Denied) : Denials := mkDenials denied [].

(** ** Base64 *)

Definition sextet (x : byte) : option Z :=
  if between 0x41 0x5a x then Some (u8 x - 0x41)
  else if between 0x61 0x7a x then Some (u8 x - 0x61 + 26)
  else if between 0x30 0x39 x then Some (u8 x - 0x30 + 52)
  else if u8 x =? 0x2b then Some 62
  else if u8 x =? 0x2f then Some 63
  else None.

Definition PAD : byte := as_u8 0x3d.

(** One significant character: [bits = (bits << 6) | sextet]. *)
Definition add_sextet (bits : option Z) (x : byte) : option Z :=
  bits ← bits;
  s ← sextet x;
  Some (Z.lor (shl 32 bits 6) s).

(** One quantum of four characters; [last] is [index + 1 == quanta]. *)
Definition decode_quantum (last : bool) (quantum : bytes) : option bytes :=
  let padding := if last then length (List.filter (λ x, bool_decide (x = PAD)) quantum) else 0%nat in
  if (2 <? padding)%nat then None
  else
    bits ← foldl add_sextet (Some 0) (take (4 - padding) quantum);
    let bits := shl 32 bits (6 * Z.of_nat padding) in
    let group := be_bytes 4 bits in
    Some (take (4 - padding - 1) (drop 1 group)).

Fixpoint decode_quanta (input : bytes) : option bytes :=
  match input with
  | a :: b :: c :: d :: rest =>
      out ← decode_quantum (bool_decide (rest = [])) [a; b; c; d];
      more ← decode_quanta rest;
      Some (out ++ more)
  | _ => Some []
  end.

Definition decode_base64 (input : bytes) : option bytes :=
  if bool_decide (input = []) || negb (length input mod 4 =? 0)%nat then None
  else decode_quanta input.

(** ** Credentials *)

Definition is_disabled (a : Authenticator) : bool := bool_decide (a = []).

Definition is_configured (a : Authenticator) (name : bytes) : bool :=
  foldl (λ configured user, configured || bool_decide (username user = name)) false a.

Definition verify (a : Authenticator) (name pass : bytes) : option bytes :=
  foldl (λ matched user,
      if bool_decide (username user = name) && bool_decide (password user = pass)
      then Some (username user) else matched) None a.

Definition SPACE : byte := as_u8 0x20.
Definition COLON : byte := as_u8 0x3a.

(** [trim_start_matches(' ')]. *)
Fixpoint trim_spaces (l : bytes) : bytes :=
  match l with
  | x :: rest => if bool_decide (x = SPACE) then trim_spaces rest else l
  | [] => []
  end.

Definition basic_token (value : bytes) : result bytes Denied :=
  match split_at_byte SPACE value with
  | (_, None) => Err (Malformed "credentials have no auth scheme")
  | (scheme, Some token) =>
      if negb (eq_ignore_ascii_case scheme (lit "basic")) then
        Err (Malformed "auth scheme is not Basic")
      else Ok (trim_spaces token)
  end.

Definition check (a : Authenticator) (value : FieldValue) : result bytes Denied :=
  let? value := ok_or (to_str value) (Malformed "credentials are not valid UTF-8") in
  let? token := basic_token value in
  let? decoded := ok_or (decode_base64 token) (Malformed "credentials are not valid base64") in
  match split_at_byte COLON decoded with
  | (_, None) => Err (Malformed "credentials have no user-id/password colon")
  | (name, Some pass) => ok_or (verify a name pass) (Rejected (bounded_bytes name))
  end.

Definition credentials (fields : Fields) : list FieldValue :=
  concat (map (get_all fields) CREDENTIAL_FIELDS).

Definition credential_values (fields : Fields) : nat := length (credentials fields).

Definition is_credential_field (name : bytes) : bool :=
  existsb (λ field, eq_ignore_ascii_case name field) CREDENTIAL_FIELDS.

(** The loop of [authenticate] over the values left, with the refusals so far. *)
Fixpoint try_values (a : Authenticator) (values : list FieldValue) (denials : option Denials)
    : result (option bytes) Denials :=
  match values with
  | [] => Err (default (denials_from Missing) denials)
  | value :: values =>
      match check a value with
      | Ok username => Ok (Some username)
      | Err reason =>
          try_values a values
            (Some (match denials with
                   | Some denials => denials_push denials reason
                   | None => denials_from reason
                   end))
      end
  end.

Definition authenticate (a : Authenticator) (fields : Fields) : result (option bytes) Denials :=
  if is_disabled a then Ok None else try_values a (credentials fields) None.

(** [None] is the panic of [from_static]. *)
Definition challenge_fields : option Fields :=
  value ← from_static CHALLENGE;
  Some (append fields_new PROXY_AUTHENTICATE value).

(** ** A reference encoder *)

Definition ALPHABET : bytes :=
  lit "ABCDEFGHIJKLMNOPQRSTUVWXYZabcdefghijklmnopqrstuvwxyz0123456789+/".

Definition digit (k : Z) : byte := nth (Z.to_nat k) ALPHABET PAD.

(** RFC 4648, section 4. *)
Fixpoint encode_base64 (l : bytes) : bytes :=
  match l with
  | [] => []
  | [a] => [digit (u8 a / 4); digit (u8 a mod 4 * 16); PAD; PAD]
  | [a; b] =>
      [digit (u8 a / 4); digit (u8 a mod 4 * 16 + u8 b / 16); digit (u8 b mod 16 * 4); PAD]
  | a :: b :: c :: rest =>
      digit (u8 a / 4) :: digit (u8 a mod 4 * 16 + u8 b / 16) ::
      digit (u8 b mod 16 * 4 + u8 c / 64) :: digit (u8 c mod 64) :: encode_base64 rest
  end.

(** ** The decoder on one quantum *)

Lemma sextet_digit k : 0 ≤ k < 64 → sextet (digit k) = Some k ∧ digit k ≠ PAD.
Proof.
  intros Hk.
  assert ((match sextet (digit k) with Some s => s =? k | None => false end)
    && negb (bool_decide (digit k = PAD)) = true) as H.
  { refine (forall_below 64 (λ k, (match sextet (digit k) with Some s => s =? k | None => false end)
      && negb (bool_decide (digit k = PAD))) _ k Hk). vm_compute. reflexivity. }
  apply andb_prop in H as [H1 H2]. split.
  - destruct (sextet (digit k)) as [s|]; [|done]. by apply Z.eqb_eq in H1 as ->.
  - intros E. by rewrite E in H2.
Qed.

Lemma add_sextet_digit bits s :
  0 ≤ bits < 2 ^ 26 → 0 ≤ s < 64 → add_sextet (Some bits) (digit s) = Some (bits * 64 + s).
Proof.
  intros Hb Hs. unfold add_sextet. destruct (sextet_digit s Hs) as [-> _].
  cbn [mbind option_bind]. unfold shl. rewrite wrap_id; [by rewrite lor_add_low by lia|].
  unfold is_uint. rewrite Z.shiftl_mul_pow2 by lia. lia.
Qed.

Definition pads (l : bytes) : nat := length (List.filter (λ x, bool_decide (x = PAD)) l).

Lemma pads_digit s l : 0 ≤ s < 64 → pads (digit s :: l) = pads l.
Proof.
  intros Hs. unfold pads. cbn [List.filter].
  destruct (sextet_digit s Hs) as [_ H]. by rewrite bool_decide_eq_false_2.
Qed.

(** The bytes of a 24-bit group. *)
Lemma group_bytes a b c :
  drop 1 (be_bytes 4 (u8 a * 65536 + u8 b * 256 + u8 c)) = [a; b; c].
Proof.
  pose proof (u8_range a). pose proof (u8_range b). pose proof (u8_range c).
  cbn [be_bytes drop]. 
  assert (∀ x z, u8 x = z mod 256 → as_u8 z = x) as Hx.
  { intros x z Hz. apply u8_inj. by rewrite u8_as_u8. }
  rewrite !Z.shiftr_div_pow2 by lia.
  change (2 ^ (8 * Z.of_nat 0)) with 1. change (2 ^ (8 * Z.of_nat 1)) with 256.
  change (2 ^ (8 * Z.of_nat 2)) with 65536.
  remember (u8 a * 65536 + u8 b * 256 + u8 c) as n eqn:Hn.
  rewrite (Hx a (n / 65536)), (Hx b (n / 256)), (Hx c (n / 1))
    by div_lia. done.
Qed.

Lemma quantum_full last s0 s1 s2 s3 a b c :
  0 ≤ s0 < 64 → 0 ≤ s1 < 64 → 0 ≤ s2 < 64 → 0 ≤ s3 < 64 →
  ((s0 * 64 + s1) * 64 + s2) * 64 + s3 = u8 a * 65536 + u8 b * 256 + u8 c →
  decode_quantum last [digit s0; digit s1; digit s2; digit s3] = Some [a; b; c].
Proof.
  intros H0 H1 H2 H3 Heq. unfold decode_quantum.
  fold (pads [digit s0; digit s1; digit s2; digit s3]). rewrite !pads_digit by done.
  change (pads []) with 0%nat. replace (if last then 0%nat else 0%nat) with 0%nat by (by destruct last).
  change (2 <? 0)%nat with false. cbn [Nat.sub take foldl]. cbn match.
  rewrite !add_sextet_digit by lia. cbn [mbind option_bind].
  change (6 * Z.of_nat 0) with 0. unfold shl. rewrite Z.shiftl_0_r, wrap_id by (unfold is_uint; lia).
  replace (0 * 64 + s0) with s0 by lia. rewrite Heq, group_bytes. done.
Qed.

Lemma quantum_one_pad s0 s1 s2 a b :
  0 ≤ s0 < 64 → 0 ≤ s1 < 64 → 0 ≤ s2 < 64 →
  (((s0 * 64 + s1) * 64 + s2) * 64) = u8 a * 65536 + u8 b * 256 →
  decode_quantum true [digit s0; digit s1; digit s2; PAD] = Some [a; b].
Proof.
  intros H0 H1 H2 Heq. unfold decode_quantum.
  fold (pads [digit s0; digit s1; digit s2; PAD]). rewrite !pads_digit by done.
  change (pads [PAD]) with 1%nat.
  change (2 <? 1)%nat with false. cbn [Nat.sub take foldl]. cbn match.
  rewrite !add_sextet_digit by lia. cbn [mbind option_bind].
  change (6 * Z.of_nat 1) with 6. unfold shl. rewrite Z.shiftl_mul_pow2 by lia.
  replace (0 * 64 + s0) with s0 by lia. change (2 ^ 6) with 64. rewrite Heq.
  pose proof (u8_range a). pose proof (u8_range b).
  rewrite wrap_id by (unfold is_uint; lia).
  pose proof (group_bytes a b (as_u8 0)) as Hg. rewrite u8_as_u8 in Hg.
  change (wrap 8 0) with 0 in Hg. rewrite Z.add_0_r in Hg. by rewrite Hg.
Qed.

Lemma quantum_two_pads s0 s1 a :
  0 ≤ s0 < 64 → 0 ≤ s1 < 64 →
  (s0 * 64 + s1) * 4096 = u8 a * 65536 →
  decode_quantum true [digit s0; digit s1; PAD; PAD] = Some [a].
Proof.
  intros H0 H1 Heq. unfold decode_quantum.
  fold (pads [digit s0; digit s1; PAD; PAD]). rewrite !pads_digit by done.
  change (pads [PAD; PAD]) with 2%nat.
  change (2 <? 2)%nat with false. cbn [Nat.sub take foldl]. cbn match.
  rewrite !add_sextet_digit by lia. cbn [mbind option_bind].
  change (6 * Z.of_nat 2) with 12. unfold shl. rewrite Z.shiftl_mul_pow2 by lia.
  replace (0 * 64 + s0) with s0 by lia. change (2 ^ 12) with 4096. rewrite Heq.
  pose proof (u8_range a). rewrite wrap_id by (unfold is_uint; lia).
  pose proof (group_bytes a (as_u8 0) (as_u8 0)) as Hg. rewrite u8_as_u8 in Hg.
  change (wrap 8 0) with 0 in Hg. rewrite Z.mul_0_l, !Z.add_0_r in Hg. by rewrite Hg.
Qed.

Lemma length_encode l : (length (encode_base64 l) mod 4 = 0)%nat.
Proof.
  induction l as [l IH] using (induction_ltof1 _ length).
  destruct l as [|a [|b [|c l]]]; try done. cbn [encode_base64 length].
  replace (S (S (S (S (length (encode_base64 l)))))) with (length (encode_base64 l) + 1 * 4)%nat by lia.
  rewrite Nat.Div0.mod_add. apply IH. unfold ltof; cbn; lia.
Qed.

Lemma encode_nonempty l : l ≠ [] → encode_base64 l ≠ [].
Proof. destruct l as [|a [|b [|c l]]]; done. Qed.

Lemma decode_encode l : decode_quanta (encode_base64 l) = Some l.
Proof.
  induction l as [l IH] using (induction_ltof1 _ length).
  destruct l as [|a [|b [|c l]]]; [done|..]; cbn [encode_base64 decode_quanta];
    pose proof (u8_range a); rewrite ?(bool_decide_eq_true_2 ([] = [])) by done.
  - rewrite (quantum_two_pads _ _ a) by div_lia. done.
  - pose proof (u8_range b). rewrite (quantum_one_pad _ _ _ a b) by div_lia. done.
  - pose proof (u8_range b). pose proof (u8_range c).
    rewrite (quantum_full _ _ _ _ _ a b c) by div_lia. cbn [mbind option_bind].
    rewrite IH by (unfold ltof; cbn; lia). done.
Qed.

Lemma base64_inverse l : l ≠ [] → decode_base64 (encode_base64 l) = Some l.
Proof.
  intros Hl. unfold decode_base64.
  rewrite bool_decide_eq_false_2 by (by apply encode_nonempty).
  rewrite length_encode. cbn [negb orb Nat.eqb]. apply decode_encode.
Qed.

(** ** What a value presents, and whether it is accepted *)

(** A credential field value presents a user-id and a password: Basic in any case,
    one or more spaces, and the base64 of the two with a colon between; the
    user-id has no colon, the password may. *)
Definition presents (v : FieldValue) (name pass : bytes) : Prop :=
  ∃ token, valid_utf8 v = true ∧ basic_token v = Ok token ∧
    decode_base64 token = Some (name ++ COLON :: pass) ∧ COLON ∉ name.

Lemma verify_acc (a : list User) n p acc :
  foldl (λ matched user,
      if bool_decide (username user = n) && bool_decide (password user = p)
      then Some (username user) else matched) acc a =
  if bool_decide (mkUser n p ∈ a) then Some n else acc.
Proof.
  revert acc; induction a as [|[n' p'] a IH]; intros acc; cbn [foldl].
  - by rewrite bool_decide_eq_false_2 by (by intros ?%elem_of_nil).
  - rewrite IH. cbn [username password].
    destruct (bool_decide_reflect (mkUser n p ∈ a)) as [Hin|Hni].
    + by rewrite bool_decide_eq_true_2 by (by right).
    + destruct (bool_decide_reflect (n' = n)) as [->|Hn]; cbn [andb].
      * destruct (bool_decide_reflect (p' = p)) as [->|Hp].
        -- by rewrite bool_decide_eq_true_2 by (by left).
        -- rewrite bool_decide_eq_false_2; [done|]. rewrite elem_of_cons. naive_solver.
      * rewrite bool_decide_eq_false_2; [done|]. rewrite elem_of_cons. naive_solver.
Qed.

Lemma verify_spec (a : list User) n p u : verify a n p = Some u ↔ u = n ∧ mkUser n p ∈ a.
Proof. unfold verify. rewrite verify_acc. case_bool_decide; naive_solver. Qed.

Lemma check_spec (a : list User) v u :
  check a v = Ok u ↔ ∃ pass, presents v u pass ∧ mkUser u pass ∈ a.
Proof.
  unfold check, presents. rewrite result_bind_ok. split.
  - intros (v' & Hv%ok_or_ok & H). unfold to_str, from_utf8 in Hv.
    destruct (valid_utf8 v) eqn:Eu; [|done]. injection Hv as <-.
    apply result_bind_ok in H as (token & Ht & H).
    apply result_bind_ok in H as (decoded & Hd%ok_or_ok & H).
    pose proof (split_at_byte_spec COLON decoded) as Hs.
    destruct (split_at_byte COLON decoded) as [name [pass|]]; [|done].
    destruct Hs as [-> Hn]. apply ok_or_ok, verify_spec in H as [-> Hin].
    exists pass. split; [|done]. by exists token.
  - intros (pass & (token & Hv & Ht & Hd & Hn) & Hin).
    exists v. unfold to_str, from_utf8. rewrite Hv. split; [done|].
    rewrite Ht. cbn [result_bind]. rewrite Hd. cbn [ok_or result_bind].
    rewrite split_at_byte_app by done. apply ok_or_ok, verify_spec. done.
Qed.

Lemma try_values_spec a values d0 :
  match try_values a values d0 with
  | Ok None => False
  | Ok (Some u) => ∃ pre v post, values = pre ++ v :: post ∧ check a v = Ok u ∧
      Forall (λ v, ∃ d, check a v = Err d) pre
  | Err d => Forall (λ v, ∃ d, check a v = Err d) values ∧
      charged d = Nat.max 1 (from_option charged 0 d0 + length values)
  end%nat.
Proof.
  revert d0; induction values as [|v values IH]; intros d0; cbn [try_values].
  - split; [constructor|]. destruct d0 as [d0|]; cbn; [|done]. unfold charged. lia.
  - destruct (check a v) as [u|d] eqn:E.
    + exists [], v, values. split; [done|]. split; [done|constructor].
    + set (d1 := match d0 with Some d0 => denials_push d0 d | None => denials_from d end).
      specialize (IH (Some d1)). destruct (try_values a values (Some d1)) as [[u|]|d'].
      * destruct IH as (pre & v' & post & -> & Hc & Hpre). exists (v :: pre), v', post.
        split; [done|]. split; [done|]. constructor; eauto.
      * done.
      * destruct IH as [Hall ->]. split; [constructor; eauto|].
        assert (charged d1 = S (from_option charged 0 d0)%nat) as Hd1.
        { unfold d1. destruct d0; cbn; [|done]. unfold charged; cbn. rewrite length_app. cbn. lia. }
        cbn [from_option length]. rewrite Hd1. lia.
Qed.

Lemma length_claims d : length (claims d) = charged d.
Proof. unfold claims, charged. cbn [length]. by rewrite length_map. Qed.

(** ** Strictness of the base64 decoder *)

Lemma sextet_pad : sextet PAD = None.
Proof. done. Qed.

Lemma add_sextet_some l acc n :
  foldl add_sextet acc l = Some n → Forall (λ x, is_Some (sextet x)) l.
Proof.
  revert acc; induction l as [|x l IH]; intros acc; cbn [foldl]; [constructor|].
  intros H. constructor; [|by eapply IH].
  destruct (sextet x) eqn:E; [by eexists|]. exfalso.
  assert (add_sextet acc x = None) as Hx.
  { unfold add_sextet. destruct acc; cbn; [by rewrite E|done]. }
  rewrite Hx in H. clear -H. induction l; cbn in H; [done|auto].
Qed.

Lemma pads_sextets l : Forall (λ x, is_Some (sextet x)) l → pads l = 0%nat.
Proof.
  unfold pads. induction 1 as [|x l Hx _ IH]; [done|]. cbn [List.filter].
  rewrite bool_decide_eq_false_2; [done|]. intros ->. rewrite sextet_pad in Hx.
  by destruct Hx.
Qed.

Lemma pads_all l : pads l = length l → l = replicate (length l) PAD.
Proof.
  unfold pads. induction l as [|x l IH]; [done|]. cbn [List.filter length replicate].
  pose proof (List.filter_length_le (λ x, bool_decide (x = PAD)) l).
  case_bool_decide as Hx; [subst x|lia]. cbn [length]. intros [= H1]. by rewrite <- IH.
Qed.

Lemma decode_quantum_shape last q out :
  length q = 4%nat → decode_quantum last q = Some out →
  ∃ k, (k ≤ 2)%nat ∧ (last = false → k = 0%nat) ∧ length out = (3 - k)%nat ∧
    Forall (λ x, is_Some (sextet x)) (take (4 - k) q) ∧ q = take (4 - k) q ++ replicate k PAD.
Proof.
  intros Hq. unfold decode_quantum.
  set (p := if last then _ else 0%nat). destruct (Nat.ltb_spec 2 p) as [|Hp]; [done|].
  destruct (foldl add_sextet (Some 0) (take (4 - p) q)) as [bits|] eqn:Ef; [|done].
  cbn [mbind option_bind]. intros [= <-]. apply add_sextet_some in Ef.
  exists p. split; [done|]. split; [unfold p; by intros ->|]. split.
  { rewrite length_take. cbn [length drop be_bytes]. lia. }
  split; [done|].
  assert (p = pads (drop (4 - p) q)) as Hpads.
  { destruct last; [|unfold p; by rewrite drop_ge by lia].
    assert (p = pads q) as Hpq by done. rewrite Hpq at 1.
    rewrite <- (take_drop (4 - p) q) at 1. unfold pads.
    rewrite List.filter_app, length_app. fold (pads (take (4 - p) q)). by rewrite pads_sextets. }
  rewrite <- (take_drop (4 - p) q) at 1. f_equal.
  rewrite (pads_all (drop (4 - p) q)); [|rewrite <- Hpads, length_drop; lia].
  f_equal. rewrite length_drop. lia.
Qed.

Lemma decode_quanta_shape l out :
  (length l mod 4 = 0)%nat → decode_quanta l = Some out →
  ∃ k body, (k ≤ 2)%nat ∧ l = body ++ replicate k PAD ∧
    Forall (λ x, is_Some (sextet x)) body ∧ (length out + k = 3 * (length l / 4))%nat ∧
    (l = [] → k = 0%nat).
Proof.
  revert out. induction l as [l IH] using (induction_ltof1 _ length). intros out Hlen.
  destruct l as [|a [|b [|c [|d l]]]]; try done.
  { intros [= <-]. exists 0%nat, []. split_and!; [lia|done|constructor|done|done]. }
  cbn [decode_quanta length] in *.
  assert (S (S (S (S (length l)))) = (length l + 1 * 4)%nat) as Hl4 by lia.
  rewrite Hl4, Nat.Div0.mod_add in Hlen. rewrite Hl4, Nat.div_add by lia.
  destruct (decode_quantum _ _) as [o|] eqn:Eq; [|done]. cbn [mbind option_bind].
  apply decode_quantum_shape in Eq as (k & Hk & Hlast & Ho & Hs & Hq); [|done].
  destruct (decode_quanta l) as [more|] eqn:Em; [|done]. cbn [mbind option_bind].
  intros [= <-]. rewrite length_app.
  destruct (IH l ltac:(unfold ltof; cbn; lia) more Hlen Em) as (k' & body & Hk' & Hb & Hs' & Hl' & He).
  destruct (bool_decide_reflect (l = [])) as [->|Hne].
  - rewrite He in Hl' by done. injection Em as <-.
    exists k, (take (4 - k) [a; b; c; d]). split_and!; [done|done|done|cbn in *; lia|done].
  - rewrite (Hlast eq_refl) in *. exists k', (a :: b :: c :: d :: body).
    cbn [Nat.sub take] in Hs. split_and!; [done|by rewrite Hb at 1| |lia|done].
    rewrite !Forall_cons in Hs |- *. destruct Hs as (?&?&?&?&_). done.
Qed.

(** ** A client's header *)

Lemma trim_spaces_token l :
  at_byte (λ x, bool_decide (x = SPACE)) l = false → trim_spaces l = l.
Proof. destruct l as [|x l]; [done|]. cbn. by intros ->. Qed.

Lemma digit_visible k : 0 ≤ k < 64 → between 0x21 0x7e (digit k) = true.
Proof.
  intros Hk. refine (forall_below 64 (λ k, between 0x21 0x7e (digit k)) _ k Hk). vm_compute. reflexivity.
Qed.

Lemma encode_visible l : Forall (λ x, between 0x21 0x7e x = true) (encode_base64 l).
Proof.
  assert (between 0x21 0x7e PAD = true) as Hpad by done.
  induction l as [l IH] using (induction_ltof1 _ length).
  destruct l as [|a [|b [|c l]]]; cbn [encode_base64]; [constructor|..];
    pose proof (u8_range a); repeat constructor; try done; try (apply digit_visible; div_lia);
    try (pose proof (u8_range b); apply digit_visible; div_lia);
    try (pose proof (u8_range b); pose proof (u8_range c); apply digit_visible; div_lia).
  apply IH. unfold ltof; cbn; lia.
Qed.

Lemma encode_ascii l : Forall (λ x, u8 x < 128 ∧ x ≠ SPACE) (encode_base64 l).
Proof.
  eapply Forall_impl; [apply encode_visible|]. intros x Hx. split; [unfold between in Hx; lia|].
  by intros ->.
Qed.

Lemma encode_no_space l : at_byte (λ x, bool_decide (x = SPACE)) (encode_base64 l) = false.
Proof.
  destruct (encode_base64 l) as [|x t] eqn:E; [done|]. cbn.
  pose proof (encode_ascii l) as H. rewrite E in H. apply Forall_cons in H as [[_ H] _].
  by apply bool_decide_eq_false_2.
Qed.

(** What RFC 7617 tells a client to send. *)
Definition basic_header (scheme name pass : bytes) : FieldValue :=
  scheme ++ SPACE :: encode_base64 (name ++ COLON :: pass).

Lemma lowercase_ascii x y : to_ascii_lowercase x = y → u8 y < 128 → u8 x < 128.
Proof.
  intros <- Hy. assert (implb (u8 (to_ascii_lowercase x) <? 128) (u8 x <? 128) = true) as H
    by octet_test x.
  destruct (Z.ltb_spec (u8 (to_ascii_lowercase x)) 128); [|lia]. by apply Z.ltb_lt.
Qed.

Lemma basic_scheme scheme :
  eq_ignore_ascii_case scheme (lit "basic") = true →
  Forall (λ x, u8 x < 128) scheme ∧ SPACE ∉ scheme.
Proof.
  unfold eq_ignore_ascii_case. intros H%bool_decide_eq_true.
  assert (Forall (λ y, u8 y < 128 ∧ y ≠ SPACE) (map to_ascii_lowercase scheme)) as Hall.
  { rewrite H. repeat constructor; done. }
  rewrite Forall_fmap in Hall. split.
  - eapply Forall_impl; [exact Hall|]. intros x [Hx _]. cbn in Hx. by eapply lowercase_ascii.
  - intros Hin. rewrite Forall_forall in Hall. destruct (Hall _ Hin) as [_ Hs]. by apply Hs.
Qed.

Lemma basic_header_presents scheme name pass :
  eq_ignore_ascii_case scheme (lit "basic") = true → COLON ∉ name →
  presents (basic_header scheme name pass) name pass.
Proof.
  intros Hs Hn. destruct (basic_scheme _ Hs) as [Ha Hsp]. unfold presents, basic_header.
  exists (encode_base64 (name ++ COLON :: pass)).
  pose proof (encode_ascii (name ++ COLON :: pass)) as He. split; [|split; [|split]].
  - apply valid_ascii. apply Forall_app_2; [done|]. constructor; [done|].
    eapply Forall_impl; [exact He|]. by intros x [? _].
  - unfold basic_token. rewrite split_at_byte_app by done. rewrite Hs. cbn [negb].
    by rewrite trim_spaces_token by apply encode_no_space.
  - apply base64_inverse. by destruct name.
  - done.
Qed.

Lemma trim_framed first middle last :
  is_ows first = false → is_ows last = false →
  trim_optional_whitespace (first :: middle ++ [last]) = first :: middle ++ [last].
Proof.
  intros Hf Hl. unfold trim_optional_whitespace. cbn [trim_start]. rewrite Hf.
  change (first :: middle ++ [last]) with ((first :: middle) ++ [last]). rewrite rev_app_distr.
  cbn [rev app trim_start]. rewrite Hl. cbn [rev]. by rewrite rev_app_distr, rev_involutive.
Qed.

Lemma basic_header_field user pass :
  trim_optional_whitespace (basic_header (lit "Basic") user pass) = basic_header (lit "Basic") user pass ∧
  is_field_value (basic_header (lit "Basic") user pass) = true.
Proof.
  unfold basic_header. pose proof (encode_visible (user ++ COLON :: pass)) as Hv.
  destruct (encode_base64 (user ++ COLON :: pass)) as [|x code _] eqn:E using rev_ind.
  { by apply encode_nonempty in E; destruct user. }
  apply Forall_app in Hv as [Hcode Hx]. apply Forall_cons in Hx as [Hx _]. split.
  - change (lit "Basic" ++ SPACE :: code ++ [x]) with (as_u8 0x42 :: (lit "asic" ++ SPACE :: code) ++ [x]).
    apply trim_framed; [done|]. unfold between, is_ows in *. lia.
  - unfold is_field_value. apply forallb_forall. intros y Hy%list_elem_of_In.
    apply elem_of_app in Hy as [Hy|Hy]; [by repeat (apply elem_of_cons in Hy as [->|Hy]; [done|]); apply elem_of_nil in Hy|].
    apply elem_of_cons in Hy as [->|Hy]; [done|].
    apply elem_of_app in Hy as [Hy|Hy]; [|apply list_elem_of_singleton in Hy as ->; by rewrite Hx].
    rewrite Forall_forall in Hcode. by rewrite (Hcode y Hy).
Qed.

(** ** Properties *)

(** The base64 decoder inverts the encoder of RFC 4648 on every non-empty
    input, and accepts nothing but whole quanta of the standard alphabet with at
    most two padding characters, all at the very end; the output is exactly three
    bytes a quantum less the padding. *)
Theorem base64_exact :
  (∀ l, l ≠ [] → decode_base64 (encode_base64 l) = Some l) ∧
  (∀ s out, decode_base64 s = Some out →
     s ≠ [] ∧ ∃ k body, (k ≤ 2)%nat ∧ s = body ++ replicate k PAD ∧
       Forall (λ x, is_Some (sextet x)) body ∧ (length s mod 4 = 0)%nat ∧
       (length out + k = 3 * (length s / 4))%nat).
Proof.
  split; [exact base64_inverse|]. intros s out. unfold decode_base64.
  destruct (bool_decide_reflect (s = [])) as [|Hne]; [done|]. cbn [orb].
  destruct (length s mod 4 =? 0)%nat eqn:E; [|done]. apply Nat.eqb_eq in E. cbn [negb].
  intros H. split; [done|].
  destruct (decode_quanta_shape s out E H) as (k & body & ? & ? & ? & ? & _).
  exists k, body. done.
Qed.

(** C1: with users configured, a request authenticates as [u] only if one of its
    credential values presents [u] with the password configured for it, and is
    refused only if none of its values presents a configured pair; a refusal is
    charged one failure per value tried, at least one, and names as many claims.
    With no users configured every request passes unauthenticated. *)
Theorem authenticate_exact (a : list User) fields :
  match authenticate a fields with
  | Ok None => a = []
  | Ok (Some u) => ∃ v pass, v ∈ credentials fields ∧ presents v u pass ∧ mkUser u pass ∈ a
  | Err d =>
      a ≠ [] ∧
      (∀ v u pass, v ∈ credentials fields → presents v u pass → mkUser u pass ∉ a) ∧
      charged d = Nat.max 1 (credential_values fields) ∧ length (claims d) = charged d
  end.
Proof.
  unfold authenticate, is_disabled. case_bool_decide as Ha; [done|].
  pose proof (try_values_spec a (credentials fields) None) as H.
  destruct (try_values a (credentials fields) None) as [[u|]|d]; [|done|].
  - destruct H as (pre & v & post & Hv & Hc & _).
    apply check_spec in Hc as (pass & Hp & Hin). exists v, pass. split; [|done].
    rewrite Hv. apply elem_of_app. right. by left.
  - destruct H as [Hall Hcharged]. split; [done|]. split; [|split; [done|apply length_claims]].
    intros v u pass Hv Hp Hin. rewrite Forall_forall in Hall. destruct (Hall v Hv) as [d' Hd'].
    assert (check a v = Ok u) as Hok by (apply check_spec; eauto). congruence.
Qed.

(** A client that sends the Basic header of a configured user in either of
    the two fields, the scheme in any case, is authenticated, whatever else the
    request carries before or after it. *)
Theorem basic_header_accepted (a : list User) fields scheme u :
  u ∈ a → COLON ∉ username u → eq_ignore_ascii_case scheme (lit "basic") = true →
  basic_header scheme (username u) (password u) ∈ credentials fields →
  ∃ name, authenticate a fields = Ok (Some name).
Proof.
  intros Hin Hc Hs Hcred. unfold authenticate, is_disabled.
  case_bool_decide as Ha; [subst a; by apply elem_of_nil in Hin|].
  pose proof (try_values_spec a (credentials fields) None) as H.
  destruct (try_values a (credentials fields) None) as [[n|]|d]; [by exists n|done|].
  destruct H as [Hall _]. rewrite Forall_forall in Hall. destruct (Hall _ Hcred) as [d' Hd'].
  assert (check a (basic_header scheme (username u) (password u)) = Ok (username u)) as Hok.
  { apply check_spec. exists (password u). split; [by apply basic_header_presents|].
    by destruct u. }
  congruence.
Qed.

Lemma basic_header_accepted_witness :
  ∃ name, authenticate [mkUser (lit "user1") (lit "pa:ss")]
    [(lit "host", lit "x"); (lit "authorization", lit "BaSiC dXNlcjE6cGE6c3M=")] = Ok (Some name).
Proof.
  apply (basic_header_accepted [mkUser (lit "user1") (lit "pa:ss")]
    [(lit "host", lit "x"); (lit "authorization", lit "BaSiC dXNlcjE6cGE6c3M=")]
    (lit "BaSiC") (mkUser (lit "user1") (lit "pa:ss"))).
  - by left.
  - apply (bool_decide_unpack _). vm_compute. reflexivity.
  - reflexivity.
  - vm_compute. by left.
Defined.
