(* ===== verification/Connection.v ===== *)
(** * The HTTP/3 connection (src/src/h3/connection.rs)

    The state the tasks of a connection share ([Shared]), the answer to a
    protocol violation ([fail]), the peer's unidirectional streams (control,
    QPACK, push and unknown ones), HTTP datagram routing, and the accept and
    GOAWAY logic.  What quinn is told to do is the list of [Action]s an operation
    returns, in order. *)

From S2P Require Import Prelude Datagram H3Error Frame Logfmt.

#[local] Open Scope string_scope.
#[local] Open Scope list_scope.
#[local] Open Scope Z_scope.

Definition STREAM_CONTROL : Z := 0x00.
Definition STREAM_PUSH : Z := 0x01.
Definition STREAM_QPACK_ENCODER : Z := 0x02.
Definition STREAM_QPACK_DECODER : Z := 0x03.
Definition REQUEST_STREAM_STEP : Z := 4.
Definition INBOUND_QUEUE_DEPTH : nat := 64.

(** What an operation tells the QUIC connection or one of its streams. *)
Inductive Action :=
  | CloseConnection (code : Code) (reason : string)
  | ResetSend (stream : Z) (code : Code)
  | StopRecv (stream : Z) (code : Code)
  | WriteBytes (stream : Z) (b : bytes).

Inductive DropKind := UnknownContext | Unroutable | QueueFull | MalformedDatagram.

#[export] Instance DropKind_eq_dec : EqDecision DropKind.
Proof. solve_decision. Defined.

(** The inbound queue of a session is what its channel holds.  The buffer budget,
    [buffered], is the counter the frame decoders are passed (see Frame). *)
Record Shared := mkShared {
  peer_datagrams : bool;
  sessions : gmap Z (list bytes);
  local_error : option Violation;
  control_seen : bool;
  encoder_seen : bool;
  decoder_seen : bool;
  dropped_datagrams : Z;
  unknown_context_drops : Sampler;
  unroutable_drops : Sampler;
  queue_full_drops : Sampler;
  malformed_drops : Sampler;
}.

Definition shared_default (dropped : Z) : Shared :=
  mkShared false ∅ None false false false dropped sampler_new sampler_new sampler_new sampler_new.

(** Field updates. *)
Definition set_peer_datagrams (b : bool) (s : Shared) : Shared :=
  mkShared b (sessions s) (local_error s) (control_seen s) (encoder_seen s) (decoder_seen s)
    (dropped_datagrams s) (unknown_context_drops s) (unroutable_drops s) (queue_full_drops s)
    (malformed_drops s).
Definition set_sessions (m : gmap Z (list bytes)) (s : Shared) : Shared :=
  mkShared (peer_datagrams s) m (local_error s) (control_seen s) (encoder_seen s)
    (decoder_seen s) (dropped_datagrams s) (unknown_context_drops s) (unroutable_drops s)
    (queue_full_drops s) (malformed_drops s).
Definition set_local_error (e : option Violation) (s : Shared) : Shared :=
  mkShared (peer_datagrams s) (sessions s) e (control_seen s) (encoder_seen s)
    (decoder_seen s) (dropped_datagrams s) (unknown_context_drops s) (unroutable_drops s)
    (queue_full_drops s) (malformed_drops s).
Definition set_seen (c e d : bool) (s : Shared) : Shared :=
  mkShared (peer_datagrams s) (sessions s) (local_error s) c e d
    (dropped_datagrams s) (unknown_context_drops s) (unroutable_drops s) (queue_full_drops s)
    (malformed_drops s).
Definition set_drops (n : Z) (a b c d : Sampler) (s : Shared) : Shared :=
  mkShared (peer_datagrams s) (sessions s) (local_error s) (control_seen s) (encoder_seen s)
    (decoder_seen s) n a b c d.

(** ** Violations *)

(** [Shared::record]: the first violation is the one kept, and the one returned. *)
Definition record_error (s : Shared) (v : Violation) : Shared * Violation :=
  match local_error s with
  | Some stored => (s, stored)
  | None => (set_local_error (Some v) s, v)
  end.

Section Handle.
Context {QuinnError : Type}
  (peer_error : @quinn_ConnectionError QuinnError → @quinn_ConnectionError QuinnError).
#[local] Abbreviation ConnErr := (@ConnectionError QuinnError).

Definition fail (s : Shared) (v : Violation) : Shared * list Action * ConnErr :=
  let '(s, stored) := record_error s v in
  (s, [CloseConnection (H3Error.code stored) (violation_display stored)], ConnLocal stored).

Definition interpret (s : Shared) (e : quinn_ConnectionError) : ConnErr :=
  match e, local_error s with
  | LocallyClosed, Some v => ConnLocal v
  | _, _ => connection_error_from peer_error e
  end.

(** [critical_write]; the text is the [Display] of the other write errors. *)
Definition critical_write (s : Shared) (e : quinn_WriteError) (text : string)
    : Shared * list Action * ConnErr :=
  match e with
  | WriteConnectionLost e => (s, [], connection_error_from peer_error e)
  | _ => fail s (connection_violation H3_CLOSED_CRITICAL_STREAM text)
  end.

(** ** Datagrams *)

(** The receiver handed out is the key of the session. *)
Definition register_datagrams (s : Shared) (quarter_stream_id : Z) : Shared * option Z :=
  match sessions s !! quarter_stream_id with
  | Some _ => (s, None)
  | None => (set_sessions (<[quarter_stream_id := []]> (sessions s)) s, Some quarter_stream_id)
  end.

(** [DatagramReceiver::recv] when the queue holds something, and its [Drop]. *)
Definition receive (s : Shared) (quarter_stream_id : Z) : option (Shared * bytes) :=
  match sessions s !! quarter_stream_id with
  | Some (payload :: rest) =>
      Some (set_sessions (<[quarter_stream_id := rest]> (sessions s)) s, payload)
  | _ => None
  end.

Definition drop_receiver (s : Shared) (quarter_stream_id : Z) : Shared :=
  set_sessions (delete quarter_stream_id (sessions s)) s.

Definition count_drop (s : Shared) (kind : DropKind) : Shared * option Z :=
  let n := wrap 64 (dropped_datagrams s + 1) in
  match kind with
  | UnknownContext =>
      let '(c, report) := record (unknown_context_drops s) in
      (set_drops n c (unroutable_drops s) (queue_full_drops s) (malformed_drops s) s, report)
  | Unroutable =>
      let '(c, report) := record (unroutable_drops s) in
      (set_drops n (unknown_context_drops s) c (queue_full_drops s) (malformed_drops s) s, report)
  | QueueFull =>
      let '(c, report) := record (queue_full_drops s) in
      (set_drops n (unknown_context_drops s) (unroutable_drops s) c (malformed_drops s) s, report)
  | MalformedDatagram =>
      let '(c, report) := record (malformed_drops s) in
      (set_drops n (unknown_context_drops s) (unroutable_drops s) (queue_full_drops s) c s, report)
  end.

Definition deliver (s : Shared) (d : Datagram) : Shared :=
  if negb (context_id d =? CONTEXT_ID_UDP_PAYLOAD) then (count_drop s UnknownContext).1
  else
    match sessions s !! quarter_stream_id_of d with
    | None => (count_drop s Unroutable).1
    | Some queue =>
        if (length queue <? INBOUND_QUEUE_DEPTH)%nat then
          set_sessions (<[quarter_stream_id_of d := queue ++ [Datagram.payload d]]> (sessions s)) s
        else (count_drop s QueueFull).1
    end.

(** [Display] of a datagram's decode error, which the close reason quotes. *)
Context (decode_error_display : DecodeError → string).

(** [route_datagram]; [false] is [ControlFlow::Break]. *)
Definition route_datagram (s : Shared) (datagram : bytes) : Shared * list Action * bool :=
  match decode datagram with
  | Ok decoded => (deliver s decoded, [], true)
  | Err error =>
      if Datagram.is_connection_error error then
        let '(s, actions, _) := fail s (connection_violation H3_DATAGRAM_ERROR
          ("an unusable HTTP datagram: " +:+ decode_error_display error)) in
        (s, actions, false)
      else ((count_drop s MalformedDatagram).1, [], true)
  end.

(** ** The control stream *)

Record Control := mkControl {
  settings_seen : bool;
  goaway : option Z;
  max_push_id : option Z;
  control_skipped : Sampler;
}.

Definition control_default : Control := mkControl false None None sampler_new.

Definition unexpected (detail : string) : Violation :=
  connection_violation H3_FRAME_UNEXPECTED detail.

Definition missing_settings : Violation :=
  connection_violation H3_MISSING_SETTINGS "the control stream did not begin with SETTINGS".

(** [Control::accept]: the new control state, and the peer's datagram setting. *)
Definition control_accept (c : Control) (item : Item) (s : Shared)
    : result (Control * Shared) Violation :=
  match item with
  | Data _ =>
      Err (if settings_seen c then unexpected "a DATA frame on the control stream"
           else missing_settings)
  | Skipped _ =>
      if negb (settings_seen c) then Err missing_settings
      else Ok (mkControl (settings_seen c) (goaway c) (max_push_id c)
                 (record (control_skipped c)).1, s)
  | FrameItem frame =>
      match frame, settings_seen c with
      | SettingsFrame settings, false =>
          Ok (mkControl true (goaway c) (max_push_id c) (control_skipped c),
              if datagrams settings then set_peer_datagrams true s else s)
      | SettingsFrame _, true => Err (unexpected "a second SETTINGS frame")
      | _, false => Err missing_settings
      | Goaway identifier, true =>
          if match goaway c with Some previous => previous <? identifier | None => false end then
            Err (connection_violation H3_ID_ERROR
              ("a GOAWAY identifier that grew to " +:+ pretty identifier))
          else Ok (mkControl true (Some identifier) (max_push_id c) (control_skipped c), s)
      | CancelPush push_id, true =>
          Err (connection_violation H3_ID_ERROR
            ("a CANCEL_PUSH for push ID " +:+ pretty push_id +:+ ", which was never promised"))
      | MaxPushId push_id, true =>
          if match max_push_id c with Some previous => push_id <? previous | None => false end then
            Err (connection_violation H3_ID_ERROR
              ("a MAX_PUSH_ID that shrank to " +:+ pretty push_id))
          else Ok (mkControl true (goaway c) (Some push_id) (control_skipped c), s)
      | PushPromise, true => Err (unexpected "a PUSH_PROMISE frame")
      | Headers _, true => Err (unexpected "a HEADERS frame on the control stream")
      end
  end.

Definition critical_stream_closed (detail : string) (closed : bool) : option Violation :=
  if closed then None else Some (connection_violation H3_CLOSED_CRITICAL_STREAM detail).

(** What the reading of the control stream yields, in order. *)
Inductive ControlEvent :=
  | ControlItem (item : Item)
  | ControlEnd
  | ControlViolation (v : Violation)
  | ControlConnectionLost
  | ControlReset (text : string).

(** [serve_control]: [closed] is whether the connection is already closed when
    the stream ends.  With no event left the task is still reading. *)
Fixpoint serve_control (events : list ControlEvent) (closed : bool) (c : Control) (s : Shared)
    : Shared * list Action :=
  let end_with (detail : string) : Shared * list Action :=
    match critical_stream_closed detail closed with
    | Some v => (fail s v).1
    | None => (s, [])
    end in
  match events with
  | [] => (s, [])
  | ControlEnd :: _ => end_with "the peer closed its control stream"
  | ControlViolation v :: _ => (fail s (into_fatal v)).1
  | ControlConnectionLost :: _ => (s, [])
  | ControlReset text :: _ => end_with ("the peer reset its control stream: " +:+ text)
  | ControlItem item :: events =>
      match control_accept c item s with
      | Err v => (fail s v).1
      | Ok (c, s) => serve_control events closed c s
      end
  end.

(** ** QPACK streams *)

Inductive QpackStream := Encoder | Decoder.

Definition qpack_code (k : QpackStream) : Code :=
  match k with
  | Encoder => QPACK_ENCODER_STREAM_ERROR
  | Decoder => QPACK_DECODER_STREAM_ERROR
  end.

Definition qpack_name (k : QpackStream) : string :=
  match k with Encoder => "encoder" | Decoder => "decoder" end.

Definition seen (k : QpackStream) (s : Shared) : bool :=
  match k with Encoder => encoder_seen s | Decoder => decoder_seen s end.

Definition mark_seen (k : QpackStream) (s : Shared) : Shared :=
  match k with
  | Encoder => set_seen (control_seen s) true (decoder_seen s) s
  | Decoder => set_seen (control_seen s) (encoder_seen s) true s
  end.

Definition MAX_INTEGER_CONTINUATION : Z := 9.

Record QpackProgress := mkProgress { continuing : bool; continuation : Z }.

Definition progress_default : QpackProgress := mkProgress false 0.

Definition bit_set (x : byte) (mask : Z) : bool := negb (Z.land (u8 x) mask =? 0).

Definition qpack_instruction (kind : QpackStream) (first : byte) : result bool Violation :=
  let refuse what := Err (connection_violation (qpack_code kind) what) in
  match kind with
  | Encoder =>
      if bit_set first 128 then refuse "an Insert with Name Reference with no dynamic table"
      else if bit_set first 64 then refuse "an Insert with Literal Name with no dynamic table"
      else if bit_set first 32 then
        if bit_set first 31 then
          refuse "a dynamic table capacity above the zero this server allows"
        else Ok false
      else refuse "a Duplicate with no dynamic table"
  | Decoder =>
      if bit_set first 128 then
        refuse "a Section Acknowledgment for a field section that needed none"
      else if bit_set first 64 then Ok (Z.land (u8 first) 63 =? 63)
      else refuse "an Insert Count Increment when nothing was inserted"
  end.

Definition progress_take (p : QpackProgress) (kind : QpackStream) (x : byte)
    : result QpackProgress Violation :=
  if continuing p then
    let continuation := continuation p + 1 in
    if MAX_INTEGER_CONTINUATION <? continuation then
      Err (connection_violation (qpack_code kind) "an integer past 62 bits")
    else Ok (mkProgress (bit_set x 128) continuation)
  else
    let? continuing := qpack_instruction kind x in
    Ok (mkProgress continuing 0).

Definition duplicate (detail : string) : Violation :=
  connection_violation H3_STREAM_CREATION_ERROR detail.

(** Each chunk, the end of the stream, or its reset. *)
Inductive QpackEvent := QpackChunk (b : bytes) | QpackEnd | QpackReset (text : string).

Fixpoint qpack_loop (events : list QpackEvent) (kind : QpackStream) (closed : bool)
    (p : QpackProgress) (s : Shared) : Shared * list Action :=
  let end_with (detail : string) : Shared * list Action :=
    match critical_stream_closed detail closed with
    | Some v => (fail s v).1
    | None => (s, [])
    end in
  match events with
  | [] => (s, [])
  | QpackEnd :: _ => end_with ("the peer closed its QPACK " +:+ qpack_name kind +:+ " stream")
  | QpackReset text :: _ =>
      end_with ("the peer reset its QPACK " +:+ qpack_name kind +:+ " stream: " +:+ text)
  | QpackChunk b :: events =>
      match try_fold (λ p x, progress_take p kind x) b p with
      | Err v => (fail s v).1
      | Ok p => qpack_loop events kind closed p s
      end
  end.

Definition serve_qpack (events : list QpackEvent) (kind : QpackStream) (closed : bool)
    (s : Shared) : Shared * list Action :=
  if seen kind s then (fail s (duplicate "a second QPACK stream of the same kind")).1
  else qpack_loop events kind closed progress_default (mark_seen kind s).

(** ** Unidirectional streams *)

(** [read_stream_type] on a stream that delivers [received] and then ends:
    [read_exact] of one byte, then of the rest of the varint. *)
Definition read_stream_type (received : bytes) : option Z :=
  match received with
  | [] => None
  | first :: _ =>
      let length_ := Z.to_nat (Z.shiftl 1 (Z.shiftr (u8 first) 6)) in
      if decide (length received < length_)%nat then None
      else option_map fst (peek_varint (take length_ received))
  end.

(** How reading the type ended: read, ended early, failed, or out of time. *)
Inductive TypeRead := TypeIs (stream_type : Z) | TypeEnded | TypeFailed | TypeElapsed.

Definition serve_stream (stream : Z) (typed : TypeRead) (control : list ControlEvent)
    (qpack : list QpackEvent) (closed : bool) (s : Shared) : Shared * list Action :=
  match typed with
  | TypeEnded | TypeFailed => (s, [])
  | TypeElapsed => (s, [StopRecv stream H3_STREAM_CREATION_ERROR])
  | TypeIs stream_type =>
      if stream_type =? STREAM_CONTROL then
        if control_seen s then (fail s (duplicate "a second control stream")).1
        else serve_control control closed control_default
               (set_seen true (encoder_seen s) (decoder_seen s) s)
      else if stream_type =? STREAM_PUSH then
        (fail s (connection_violation H3_STREAM_CREATION_ERROR "a client opened a push stream")).1
      else if stream_type =? STREAM_QPACK_ENCODER then serve_qpack qpack Encoder closed s
      else if stream_type =? STREAM_QPACK_DECODER then serve_qpack qpack Decoder closed s
      else (s, [StopRecv stream H3_STREAM_CREATION_ERROR])
  end.

(** What the server opens its own critical streams with. *)
Definition control_preface : option bytes :=
  settings ← settings_payload;
  out ← put_varint [] STREAM_CONTROL;
  out ← put_header out SETTINGS (blen settings);
  Some (out ++ settings).
End Handle.

(** ** Accepting requests and going away *)

Record Connection := mkConnection {
  last_accepted : option Z;
  going_away : option Z;
}.

Definition next_request_id (last_accepted : option Z) : Z :=
  match last_accepted with
  | None => 0
  | Some id => Z.min (saturating_add 64 id REQUEST_STREAM_STEP) VARINT_MAX
  end.

(** One turn of [accept]'s loop on the stream quinn hands out: rejected, or
    accepted. *)
Definition accept (c : Connection) (id : Z) : Connection * list Action * bool :=
  if match going_away c with Some first_rejected => first_rejected <=? id | None => false end then
    (c, [ResetSend id H3_REQUEST_REJECTED; StopRecv id H3_REQUEST_REJECTED], false)
  else (mkConnection (Some id) (going_away c), [], true).

Definition goaway_frame (identifier : Z) : option bytes :=
  out ← put_header [] GOAWAY (Z.of_nat (varint_len identifier));
  put_varint out identifier.

(** [shutdown]: the identifier sent, and the GOAWAY frame written. *)
Definition shutdown (c : Connection) : Connection * Z * option bytes :=
  let next := next_request_id (last_accepted c) in
  let identifier := match going_away c with Some sent => Z.min sent next | None => next end in
  (mkConnection (last_accepted c) (Some identifier), identifier, goaway_frame identifier).

Definition close_quietly (reason : string) : list Action * Violation :=
  ([CloseConnection H3_NO_ERROR reason], connection_violation H3_NO_ERROR reason).

(** Its [Drop]. *)
Definition drop_connection : list Action :=
  [CloseConnection H3_NO_ERROR "connection closed by the server"].
