(* ===== verification/ConnectionFacts.v ===== *)
(** * The HTTP/3 connection: properties (src/src/h3/connection.rs)

    The language of the control stream and of the QPACK streams, the routing of
    datagrams, the answer to violations, and the GOAWAY discipline. *)

From Stdlib Require Import Sorted.
From S2P Require Import Prelude Datagram H3Error Frame FrameFacts Logfmt Connection.

#[local] Open Scope Z_scope.

(** ** The control stream *)

(** The items of a control stream, one after the other. *)
Definition accept_item (x : Control * Shared) (i : Item) : result (Control * Shared) Violation :=
  control_accept x.1 i x.2.

Definition control_run (items : list Item) (x : Control * Shared) :=
  try_fold accept_item items x.

(** After SETTINGS: GOAWAY, MAX_PUSH_ID and the frames that are skipped. *)
Definition control_item (i : Item) : Prop :=
  match i with
  | FrameItem (Goaway _) | FrameItem (MaxPushId _) | Skipped _ => True
  | _ => False
  end.

Definition goaways (items : list Item) : list Z :=
  omap (λ i, match i with FrameItem (Goaway id) => Some id | _ => None end) items.

Definition max_push_ids (items : list Item) : list Z :=
  omap (λ i, match i with FrameItem (MaxPushId id) => Some id | _ => None end) items.

(** The sequences RFC 9114 allows. *)
Inductive control_sequence : list Item → Settings → Prop :=
  | control_sequence_intro settings rest :
      Forall control_item rest →
      Sorted (λ x y, y ≤ x) (goaways rest) →
      Sorted (λ x y, x ≤ y) (max_push_ids rest) →
      control_sequence (FrameItem (SettingsFrame settings) :: rest) settings.

Lemma sorted_cons2 (R : Z → Z → Prop) x y l :
  Sorted R (x :: y :: l) ↔ R x y ∧ Sorted R (y :: l).
Proof.
  split.
  - intros H. inversion H as [|? ? H1 H2]; subst. inversion H2; subst. done.
  - intros [H1 H2]. constructor; [done|]. by constructor.
Qed.

Lemma sorted_singleton (R : Z → Z → Prop) x : Sorted R [x].
Proof. repeat constructor. Qed.

(** Prepending the last value seen, if there was one. *)
Definition after (prev : option Z) (l : list Z) : list Z :=
  match prev with Some p => p :: l | None => l end.

Lemma sorted_after (R : Z → Z → Prop) prev x l :
  Sorted R (after prev (x :: l)) ↔ (∀ p, prev = Some p → R p x) ∧ Sorted R (x :: l).
Proof.
  destruct prev as [p|]; cbn [after]; [|naive_solver].
  rewrite sorted_cons2. naive_solver.
Qed.

Definition control_ok (c : Control) (items : list Item) : Prop :=
  Forall control_item items ∧
  Sorted (λ x y, y ≤ x) (after (goaway c) (goaways items)) ∧
  Sorted (λ x y, x ≤ y) (after (max_push_id c) (max_push_ids items)).

Lemma after_sorted_nil (R : Z → Z → Prop) prev : Sorted R (after prev []).
Proof. destruct prev; [apply sorted_singleton|constructor]. Qed.

(** Once SETTINGS has arrived. *)
Lemma control_run_rest items c s :
  settings_seen c = true →
  match control_run items (c, s) with
  | Ok (c', s') => control_ok c items ∧ s' = s
  | Err v => ¬ control_ok c items ∧ H3Error.is_connection_error v = true
  end.
Proof.
  unfold control_run. revert c. induction items as [|i items IH]; intros c Hc.
  { cbn. split; [|done]. split_and!; [constructor|apply after_sorted_nil..]. }
  cbn [try_fold]. unfold accept_item at 1. cbn [fst snd]. unfold control_accept. rewrite Hc.
  assert (∀ i' v, ¬ control_item i' →
    H3Error.is_connection_error v = true →
    ¬ control_ok c (i' :: items) ∧ H3Error.is_connection_error v = true) as Hbad.
  { intros i' v Hni Hv. split; [|done]. intros [H _]. by apply Forall_cons in H as [? _]. }
  destruct i as [b|f|k]; cbn [result_bind negb].
  - apply Hbad; [by intros []|done].
  - destruct f as [sec|st|id|id|id|]; cbn [result_bind];
      try (apply Hbad; [by intros []|done]).
    + (* GOAWAY *)
      destruct (match goaway c with Some p => p <? id | None => false end) eqn:Eg; cbn [result_bind].
      * split; [|done]. intros (_ & Hs & _). change (goaways (_ :: items)) with (id :: goaways items) in Hs.
        apply sorted_after in Hs as [Hs _]. destruct (goaway c) as [p|]; [|done].
        specialize (Hs p eq_refl). lia.
      * specialize (IH (mkControl true (Some id) (max_push_id c) (control_skipped c)) eq_refl).
        assert (control_ok c (FrameItem (Goaway id) :: items) ↔
          control_ok (mkControl true (Some id) (max_push_id c) (control_skipped c)) items) as Hiff.
        { unfold control_ok; cbn [goaway max_push_id].
          change (goaways (_ :: items)) with (id :: goaways items).
          change (max_push_ids (FrameItem (Goaway id) :: items)) with (max_push_ids items).
          rewrite Forall_cons, sorted_after. cbn [after control_item].
          destruct (goaway c) as [p|]; [|naive_solver]. naive_solver lia. }
        destruct (try_fold accept_item items _) as [[c' s']|v]; by rewrite Hiff.
    + (* MAX_PUSH_ID *)
      destruct (match max_push_id c with Some p => id <? p | None => false end) eqn:Eg;
        cbn [result_bind].
      * split; [|done]. intros (_ & _ & Hs).
        change (max_push_ids (_ :: items)) with (id :: max_push_ids items) in Hs.
        apply sorted_after in Hs as [Hs _]. destruct (max_push_id c) as [p|]; [|done].
        specialize (Hs p eq_refl). lia.
      * specialize (IH (mkControl true (goaway c) (Some id) (control_skipped c)) eq_refl).
        assert (control_ok c (FrameItem (MaxPushId id) :: items) ↔
          control_ok (mkControl true (goaway c) (Some id) (control_skipped c)) items) as Hiff.
        { unfold control_ok; cbn [goaway max_push_id].
          change (max_push_ids (_ :: items)) with (id :: max_push_ids items).
          change (goaways (FrameItem (MaxPushId id) :: items)) with (goaways items).
          rewrite Forall_cons, sorted_after. cbn [after control_item].
          destruct (max_push_id c) as [p|]; [|naive_solver]. naive_solver lia. }
        destruct (try_fold accept_item items _) as [[c' s']|v]; by rewrite Hiff.
  - specialize (IH (mkControl true (goaway c) (max_push_id c) (record (control_skipped c)).1) eq_refl).
    assert (control_ok c (Skipped k :: items) ↔ control_ok
      (mkControl true (goaway c) (max_push_id c) (record (control_skipped c)).1) items) as Hiff.
    { unfold control_ok; cbn [goaway max_push_id].
      change (max_push_ids (Skipped k :: items)) with (max_push_ids items).
      change (goaways (Skipped k :: items)) with (goaways items).
      rewrite Forall_cons. cbn [control_item]. tauto. }
    destruct (try_fold accept_item items _) as [[c' s']|v]; by rewrite Hiff.
Qed.

(** The control stream.  A sequence of items is accepted exactly when it is
    empty or begins with one SETTINGS frame and continues with GOAWAY frames of
    non-increasing identifier, MAX_PUSH_ID frames of non-decreasing identifier
    and frames of unknown type; the only thing it changes outside the stream's
    own state is that the peer has announced datagrams.  Anything else is a
    connection error. *)
Theorem control_stream_exact items s :
  match control_run items (control_default, s) with
  | Ok (_, s') =>
      (items = [] ∧ s' = s) ∨
      ∃ settings, control_sequence items settings ∧
        s' = (if datagrams settings then set_peer_datagrams true s else s)
  | Err v =>
      items ≠ [] ∧ (∀ settings, ¬ control_sequence items settings) ∧
      H3Error.is_connection_error v = true
  end.
Proof.
  unfold control_run. destruct items as [|i items]; [by left|].
  cbn [try_fold]. unfold accept_item at 1. cbn [fst snd control_accept settings_seen control_default].
  destruct i as [b|f|k]; cbn [result_bind negb];
    try (split; [done|]; split; [|done]; intros settings Hs; by inversion Hs).
  destruct f as [sec|st|id|id|id|]; cbn [result_bind];
    try (split; [done|]; split; [|done]; intros settings Hs; by inversion Hs).
  set (s1 := if datagrams st then set_peer_datagrams true s else s).
  pose proof (control_run_rest items (mkControl true None None sampler_new) s1 eq_refl) as H.
  unfold control_run in H.
  change (control_accept control_default (FrameItem (SettingsFrame st)) s)
    with (@Ok _ Violation (mkControl true None None sampler_new, s1)). cbn [result_bind].
  destruct (try_fold accept_item items _) as [[c' s']|v].
  - destruct H as [(H1 & H2 & H3) ->]. right. exists st. split; [by constructor|done].
  - destruct H as [Hn Hv]. split; [done|]. split; [|done]. intros settings Hs.
    apply Hn. inversion Hs; subst. done.
Qed.

(** ** QPACK streams *)

Definition qpack_run (kind : QpackStream) (b : bytes) (p : QpackProgress) :=
  try_fold (λ p x, progress_take p kind x) b p.

(** A Stream Cancellation (RFC 9204, section 4.4.2): a six-bit prefix integer of at
    most nine continuation bytes. *)
Inductive cancellation : bytes → Prop :=
  | cancellation_short x : 64 ≤ u8 x < 127 → cancellation [x]
  | cancellation_long x more y :
      u8 x = 127 → Forall (λ z, 128 ≤ u8 z) more → u8 y < 128 → (length more ≤ 8)%nat →
      cancellation (x :: more ++ [y]).

Lemma bit7 x : bit_set x 128 = (128 <=? u8 x).
Proof.
  unfold bit_set. pose proof (u8_range x).
  assert (eqb (negb (Z.land (u8 x) 128 =? 0)) (128 <=? u8 x) = true) as H1.
  { refine (forall_below 256 (λ k, eqb (negb (Z.land k 128 =? 0)) (128 <=? k)) _ (u8 x) ltac:(lia)).
    vm_compute. reflexivity. }
  by apply eqb_prop.
Qed.

Lemma decoder_instruction x :
  match qpack_instruction Decoder x with
  | Ok c => 64 ≤ u8 x < 128 ∧ c = (u8 x =? 127)
  | Err v => ¬ (64 ≤ u8 x < 128) ∧ H3Error.code v = QPACK_DECODER_STREAM_ERROR ∧
      H3Error.is_connection_error v = true
  end.
Proof.
  pose proof (u8_range x). unfold qpack_instruction, bit_set.
  assert (∀ k, 0 ≤ k < 256 → (Z.land k 128 =? 0) = (k <? 128) ∧
    (k < 128 → (Z.land k 64 =? 0) = (k <? 64)) ∧
    (64 ≤ k < 128 → (Z.land k 63 =? 63) = (k =? 127))) as Hbits.
  { intros k Hk.
    assert (eqb (Z.land k 128 =? 0) (k <? 128)
      && implb (k <? 128) (eqb (Z.land k 64 =? 0) (k <? 64))
      && implb ((64 <=? k) && (k <? 128)) (eqb (Z.land k 63 =? 63) (k =? 127)) = true) as Hb.
    { refine (forall_below 256 (λ k, eqb (Z.land k 128 =? 0) (k <? 128)
        && implb (k <? 128) (eqb (Z.land k 64 =? 0) (k <? 64))
        && implb ((64 <=? k) && (k <? 128)) (eqb (Z.land k 63 =? 63) (k =? 127))) _ k Hk).
      vm_compute. reflexivity. }
    apply andb_prop in Hb as [[H1 H2]%andb_prop H3]. split; [by apply eqb_prop|]. split.
    - intros Hlt. destruct (Z.ltb_spec k 128); [|lia]. by apply eqb_prop.
    - intros Hr. destruct (Z.leb_spec 64 k), (Z.ltb_spec k 128); try lia; by apply eqb_prop. }
  destruct (Hbits (u8 x)) as (-> & H64 & H63); [lia|].
  destruct (Z.ltb_spec (u8 x) 128) as [Hlt|]; cbn [negb]; [|split; [lia|done]].
  rewrite H64 by done. destruct (Z.ltb_spec (u8 x) 64); cbn [negb]; [split; [lia|done]|].
  rewrite H63 by lia. done.
Qed.

(** Inside a long integer with [n] continuation bytes read. *)
Lemma decoder_continues b n p' :
  0 ≤ n ≤ 9 → continuing p' = false →
  qpack_run Decoder b (mkProgress true n) = Ok p' →
  ∃ more y rest, b = more ++ y :: rest ∧ Forall (λ z, 128 ≤ u8 z) more ∧ u8 y < 128 ∧
    n + Z.of_nat (length more) + 1 ≤ 9 ∧
    qpack_run Decoder rest (mkProgress false (n + Z.of_nat (length more) + 1)) = Ok p'.
Proof.
  unfold qpack_run. revert n. induction b as [|x b IH]; intros n Hn Hp; cbn [try_fold].
  { intros [= <-]. done. }
  unfold progress_take at 1. cbn [continuing continuation].
  change MAX_INTEGER_CONTINUATION with 9.
  destruct (Z.ltb_spec 9 (n + 1)) as [|H9]; [done|]. cbn [result_bind]. rewrite bit7.
  destruct (Z.leb_spec 128 (u8 x)) as [Hx|Hx]; intros Hrun.
  - destruct (IH (n + 1) ltac:(lia) Hp Hrun) as (more & y & rest & -> & Hm & Hy & Hle & Hr).
    exists (x :: more), y, rest. cbn [length app].
    replace (n + Z.of_nat (S (length more)) + 1) with (n + 1 + Z.of_nat (length more) + 1) by lia.
    split_and!; [done|by constructor|done|lia|done].
  - exists [], x, b. cbn [length app]. rewrite Z.add_0_r. split_and!; [done|constructor|done|lia|done].
Qed.

Lemma decoder_continuing_run more y rest n p0 :
  Forall (λ z, 128 ≤ u8 z) more → u8 y < 128 → n + Z.of_nat (length more) + 1 ≤ 9 →
  p0 = mkProgress true n →
  qpack_run Decoder (more ++ y :: rest) p0 =
  qpack_run Decoder rest (mkProgress false (n + Z.of_nat (length more) + 1)).
Proof.
  unfold qpack_run. intros Hm Hy. revert n p0. induction Hm as [|z more Hz Hm IH];
    intros n p0 Hle ->; cbn [app try_fold]; unfold progress_take at 1; cbn [continuing continuation];
    change MAX_INTEGER_CONTINUATION with 9; cbn [length] in *;
    (destruct (Z.ltb_spec 9 (n + 1)); [lia|]); cbn [result_bind]; rewrite bit7.
  - destruct (Z.leb_spec 128 (u8 y)); [lia|]. cbn [length]. by rewrite Z.add_0_r.
  - destruct (Z.leb_spec 128 (u8 z)); [|lia]. rewrite (IH (n + 1)) by (done || lia).
    do 2 f_equal. lia.
Qed.

(** The state between instructions does not depend on the count left behind. *)
Lemma qpack_run_count kind b n m : 
  match qpack_run kind b (mkProgress false n), qpack_run kind b (mkProgress false m) with
  | Ok p, Ok q => continuing p = continuing q ∧ (b ≠ [] → p = q)
  | Err v, Err w => v = w
  | _, _ => False
  end.
Proof.
  unfold qpack_run. destruct b as [|x b]; [done|]. cbn [try_fold].
  change (progress_take (mkProgress false n) kind x) with (progress_take (mkProgress false m) kind x).
  destruct (progress_take (mkProgress false m) kind x); cbn [result_bind]; [|done].
  by destruct (try_fold _ b _).
Qed.

Lemma decoder_run_ok b n p :
  continuing p = false → qpack_run Decoder b (mkProgress false n) = Ok p →
  ∃ l, b = concat l ∧ Forall cancellation l.
Proof.
  revert n. induction b as [b IH] using (induction_ltof1 _ length). intros n Hp.
  destruct b as [|x b]; [by exists []|]. unfold qpack_run; cbn [try_fold].
  unfold progress_take at 1. cbn [continuing].
  pose proof (decoder_instruction x) as Hx.
  destruct (qpack_instruction Decoder x) as [c|]; [|done]. destruct Hx as [Hx ->].
  cbn [result_bind]. destruct (Z.eqb_spec (u8 x) 127) as [H127|Hne]; intros Hrun.
  - apply decoder_continues in Hrun as (more & y & rest & -> & Hm & Hy & Hle & Hr); [|lia|done].
    apply IH in Hr as (l & -> & Hl); [|unfold ltof; cbn; rewrite length_app; cbn; lia|done].
    exists ((x :: more ++ [y]) :: l). cbn [concat]. split; [cbn; by rewrite <- app_assoc|].
    constructor; [|done]. constructor; [done|done|done|lia].
  - apply IH in Hrun as (l & -> & Hl); [|unfold ltof; cbn; lia|done].
    exists ([x] :: l). split; [done|]. constructor; [|done]. constructor. lia.
Qed.

Lemma decoder_run_all l n :
  Forall cancellation l →
  ∃ p, qpack_run Decoder (concat l) (mkProgress false n) = Ok p ∧ continuing p = false.
Proof.
  intros Hl. revert n. induction Hl as [|w l Hw Hl IH]; intros n; [by eexists|].
  cbn [concat]. destruct Hw as [x Hx|x more y Hx Hm Hy Hle]; unfold qpack_run;
    cbn [app try_fold]; unfold progress_take at 1; cbn [continuing];
    pose proof (decoder_instruction x) as Hi;
    (destruct (qpack_instruction Decoder x) as [c|]; [destruct Hi as [_ ->]|lia]); cbn [result_bind].
  - rewrite (proj2 (Z.eqb_neq _ _)) by lia. apply IH.
  - rewrite (proj2 (Z.eqb_eq _ _)) by lia. rewrite <- app_assoc. cbn [app].
    fold (qpack_run Decoder (more ++ y :: concat l) (mkProgress true 0)).
    rewrite (decoder_continuing_run more y _ 0) by (done || lia). apply IH.
Qed.

(** The peer's QPACK streams, with no dynamic table.  The encoder stream may
    carry nothing but Set Dynamic Table Capacity to zero, byte 0x20; the decoder
    stream may carry nothing but Stream Cancellations, whose integers are read to
    at most nine continuation bytes.  The verdict does not depend on how the
    stream is cut into chunks, and a refusal is a connection error of the
    stream's own code. *)
Theorem qpack_streams_exact b :
  (qpack_run Encoder b progress_default = Ok progress_default ↔ Forall (λ x, u8 x = 0x20) b) ∧
  ((∃ p, qpack_run Decoder b progress_default = Ok p ∧ continuing p = false) ↔
   ∃ l, b = concat l ∧ Forall cancellation l) ∧
  (∀ kind b1 b2 p, b = b1 ++ b2 →
     qpack_run kind b p = result_bind (qpack_run kind b1 p) (qpack_run kind b2)) ∧
  (∀ kind p v, qpack_run kind b p = Err v →
     H3Error.code v = qpack_code kind ∧ H3Error.is_connection_error v = true).
Proof.
  split; [|split; [|split]].
  - assert (∀ x, match qpack_instruction Encoder x with
      | Ok c => u8 x = 0x20 ∧ c = false | Err _ => u8 x ≠ 0x20 end) as Hi.
    { intros x. pose proof (u8_range x).
      assert (match qpack_instruction Encoder (as_u8 (u8 x)) with
        | Ok c => (u8 x =? 0x20) && negb c | Err _ => negb (u8 x =? 0x20) end = true) as Hb.
      { refine (forall_below 256 (λ k, match qpack_instruction Encoder (as_u8 k) with
          | Ok c => (k =? 0x20) && negb c | Err _ => negb (k =? 0x20) end) _ (u8 x) ltac:(lia)).
        vm_compute. reflexivity. }
      rewrite as_u8_u8 in Hb. destruct (qpack_instruction Encoder x) as [c|].
      - apply andb_prop in Hb as [?%Z.eqb_eq ?]. by destruct c.
      - by destruct (Z.eqb_spec (u8 x) 0x20). }
    unfold qpack_run. induction b as [|x b IH]; [split; [constructor|done]|].
    cbn [try_fold]. unfold progress_take at 1. cbn [continuing progress_default].
    rewrite Forall_cons. specialize (Hi x). destruct (qpack_instruction Encoder x) as [c|].
    + destruct Hi as [Hx ->]. cbn [result_bind]. fold progress_default. rewrite IH. tauto.
    + cbn. split; [done|]. by intros [? _].
  - split.
    + intros (p & Hr & Hp). by apply (decoder_run_ok b 0 p).
    + intros (l & -> & Hl). by apply (decoder_run_all l 0).
  - intros kind b1 b2 p ->. apply try_fold_app.
  - intros kind p v. unfold qpack_run. revert p. induction b as [|x b IH]; intros p; [done|].
    cbn [try_fold]. intros [H|(p' & _ & H)]%result_bind_err; [|by eapply IH].
    unfold progress_take in H. destruct (continuing p).
    + destruct (_ <? _); [by injection H as <-|done].
    + apply result_bind_err in H as [H|(? & _ & ?)]; [|done].
      unfold qpack_instruction in H. destruct kind; repeat (case_match; try done);
        by injection H as <-.
Qed.

Lemma qpack_streams_exact_witness :
  qpack_run Decoder (map as_u8 [0x41; 0x7f; 0x80; 0x01]) progress_default =
  result_bind (qpack_run Decoder (map as_u8 [0x41; 0x7f]) progress_default)
    (qpack_run Decoder (map as_u8 [0x80; 0x01])).
Proof.
  destruct (qpack_streams_exact (map as_u8 [0x41; 0x7f; 0x80; 0x01])) as (_ & _ & H & _).
  apply H. reflexivity.
Defined.

(** ** Violations *)

Section Violations.
Context {QuinnError : Type}.

(** Several tasks of the connection failing it one after the other. *)
Definition fail_all (vs : list Violation) (s : Shared) : Shared * list Action :=
  foldl (λ '(s, actions) v,
      let '(s, more, _) := fail (QuinnError := QuinnError) s v in (s, actions ++ more))
    (s, []) vs.

Lemma fail_stored (s : Shared) v w :
  local_error s = Some v → fail (QuinnError := QuinnError) s w =
    (s, [CloseConnection (H3Error.code v) (violation_display v)], ConnLocal v).
Proof. unfold fail, record_error. by intros ->. Qed.

Lemma fail_first (s : Shared) v :
  local_error s = None → fail (QuinnError := QuinnError) s v =
    (set_local_error (Some v) s, [CloseConnection (H3Error.code v) (violation_display v)],
     ConnLocal v).
Proof. unfold fail, record_error. by intros ->. Qed.

(** A connection that several tasks find at fault is closed for one reason:
    the first violation recorded is the one kept, every close that follows
    carries its code and text whatever the later tasks found, and the error a
    later reader of the closed connection sees is that violation. *)
Theorem first_violation_wins peer_error s v vs :
  local_error s = None →
  let '(s', actions) := fail_all (v :: vs) s in
  local_error s' = Some v ∧
  actions = replicate (S (length vs))
    (CloseConnection (H3Error.code v) (violation_display v)) ∧
  interpret (QuinnError := QuinnError) peer_error s' LocallyClosed = ConnLocal v.
Proof.
  intros Hs. unfold fail_all. cbn [foldl]. rewrite (fail_first s v Hs).
  cbn [app]. set (s1 := set_local_error (Some v) s). assert (local_error s1 = Some v) as H1 by done.
  set (a := CloseConnection (H3Error.code v) (violation_display v)).
  assert (∀ n vs, foldl (λ '(s, actions) v,
      let '(s, more, _) := fail (QuinnError := QuinnError) s v in (s, actions ++ more))
    (s1, replicate n a) vs = (s1, replicate (n + length vs) a)) as Hfold.
  { intros n vs'. revert n. induction vs' as [|w vs' IH]; intros n; cbn [foldl length].
    - by rewrite Nat.add_0_r.
    - rewrite (fail_stored s1 v w H1). change [CloseConnection _ _] with (replicate 1 a).
      rewrite <- replicate_add, IH. f_equal. f_equal. lia. }
  change [a] with (replicate 1 a). rewrite Hfold. split; [done|]. split; [done|].
  unfold interpret. by rewrite H1.
Qed.
End Violations.

Lemma first_violation_wins_witness :
  let '(s', actions) := fail_all (QuinnError := unit)
      [missing_settings; unexpected "a second SETTINGS frame"] (shared_default 0) in
  local_error s' = Some missing_settings ∧ length actions = 2%nat.
Proof.
  pose proof (first_violation_wins (QuinnError := unit) (λ e, e) (shared_default 0) missing_settings
    [unexpected "a second SETTINGS frame"] eq_refl) as H.
  destruct (fail_all _ _) as [s' actions]. destruct H as (H1 & -> & _).
  split; [exact H1|reflexivity].
Defined.

(** ** Datagrams *)

Section Datagrams.
Context {QuinnError : Type} (decode_error_display : DecodeError → string).

Inductive DatagramOp :=
  | DRegister (q : Z)
  | DRoute (datagram : bytes)
  | DReceive (q : Z)
  | DDrop (q : Z).

(** One operation, and the payload it hands to a session. *)
Definition datagram_step (s : Shared) (op : DatagramOp) : Shared * option (Z * bytes) :=
  match op with
  | DRegister q => ((register_datagrams s q).1, None)
  | DRoute d => ((route_datagram (QuinnError := QuinnError) decode_error_display s d).1.1, None)
  | DReceive q =>
      match receive s q with
      | Some (s, payload) => (s, Some (q, payload))
      | None => (s, None)
      end
  | DDrop q => (drop_receiver s q, None)
  end.

Fixpoint datagram_run (s : Shared) (ops : list DatagramOp) : Shared * list (Z * bytes) :=
  match ops with
  | [] => (s, [])
  | op :: ops =>
      let '(s, out) := datagram_step s op in
      let '(s, outs) := datagram_run s ops in
      (s, match out with Some o => o :: outs | None => outs end)
  end.

(** The UDP payloads routed to session [q], and those it received. *)
Definition routed_to (q : Z) (op : DatagramOp) : option bytes :=
  match op with
  | DRoute d =>
      match decode d with
      | Ok dg => if (context_id dg =? CONTEXT_ID_UDP_PAYLOAD) && (quarter_stream_id_of dg =? q)
                 then Some (Datagram.payload dg) else None
      | Err _ => None
      end
  | _ => None
  end.

Definition sent_to (q : Z) (ops : list DatagramOp) : list bytes := omap (routed_to q) ops.

Definition received_by (q : Z) (outs : list (Z * bytes)) : list bytes :=
  omap (λ o, if o.1 =? q then Some o.2 else None) outs.

Lemma count_drop_sessions s kind : sessions (count_drop s kind).1 = sessions s.
Proof. unfold count_drop. destruct kind; by destruct (record _). Qed.

Lemma fail_sessions s v : sessions (fail (QuinnError := QuinnError) s v).1.1 = sessions s.
Proof. unfold fail, record_error. by destruct (local_error s). Qed.

(** Routing one datagram: into its session's queue, or nowhere. *)
Lemma route_sessions s d :
  let s' := (route_datagram (QuinnError := QuinnError) decode_error_display s d).1.1 in
  sessions s' = sessions s ∨
  ∃ dg queue, decode d = Ok dg ∧ context_id dg = CONTEXT_ID_UDP_PAYLOAD ∧
    sessions s !! quarter_stream_id_of dg = Some queue ∧ (length queue < INBOUND_QUEUE_DEPTH)%nat ∧
    sessions s' = <[quarter_stream_id_of dg := queue ++ [Datagram.payload dg]]> (sessions s).
Proof.
  unfold route_datagram. destruct (decode d) as [dg|e].
  - cbn [fst]. unfold deliver. destruct (Z.eqb_spec (context_id dg) CONTEXT_ID_UDP_PAYLOAD) as [Hc|];
      cbn [negb]; [|left; apply count_drop_sessions].
    destruct (sessions s !! quarter_stream_id_of dg) as [queue|] eqn:Eq;
      [|left; apply count_drop_sessions].
    destruct (Nat.ltb_spec (length queue) INBOUND_QUEUE_DEPTH); [|left; apply count_drop_sessions].
    right. by exists dg, queue.
  - left. destruct (Datagram.is_connection_error e).
    + set (v := connection_violation _ _). pose proof (fail_sessions s v) as H.
      by destruct (fail s v) as [[s' actions] r].
    + apply count_drop_sessions.
Qed.

Lemma received_by_some q q' x :
  received_by q (option_list (Some (q', x))) = if q' =? q then [x] else [].
Proof. unfold received_by. simpl. by destruct (q' =? q). Qed.

(** What one operation does to the queue of a session that is not dropped. *)
Lemma datagram_step_queue s op q queue :
  sessions s !! q = Some queue → op ≠ DDrop q → (length queue ≤ INBOUND_QUEUE_DEPTH)%nat →
  let '(s', out) := datagram_step s op in
  ∃ queue' got, sessions s' !! q = Some queue' ∧ (length queue' ≤ INBOUND_QUEUE_DEPTH)%nat ∧
    received_by q (option_list out) ++ queue' = queue ++ got ∧
    sublist got (option_list (routed_to q op)).
Proof.
  intros Hq Hop Hlen. destruct op as [q'|d|q'|q']; cbn [datagram_step].
  - exists queue, []. rewrite app_nil_r. split; [|split; [done|split; [done|constructor]]].
    unfold register_datagrams. destruct (sessions s !! q') eqn:Eq'; [done|]. cbn.
    rewrite lookup_insert_ne; [done|]. intros ->. congruence.
  - destruct (route_sessions s d) as [Hs|(dg & queue' & Hd & Hc & Hqs & Hlt & Hs)];
      cbn [option_list received_by omap list_omap app].
    + exists queue, []. rewrite Hs, app_nil_r.
      split; [done|]. split; [done|]. split; [done|]. apply sublist_nil_l.
    + rewrite Hs. destruct (decide (quarter_stream_id_of dg = q)) as [<-|Hne].
      * rewrite Hq in Hqs. injection Hqs as <-. exists (queue ++ [Datagram.payload dg]),
          [Datagram.payload dg]. rewrite lookup_insert_eq.
        split; [done|]. split; [rewrite length_app; cbn; lia|]. split; [done|].
        cbn [routed_to]. rewrite Hd, Hc, !Z.eqb_refl. done.
      * exists queue, []. rewrite lookup_insert_ne, app_nil_r by done.
        split; [done|]. split; [done|]. split; [done|]. apply sublist_nil_l.
  - unfold receive. destruct (decide (q' = q)) as [->|Hne].
    + rewrite Hq. destruct queue as [|x queue].
      * exists [], []. split; [done|]. split; [done|]. split; [done|constructor].
      * rewrite received_by_some, Z.eqb_refl. exists queue, []. rewrite app_nil_r. cbn.
        rewrite lookup_insert_eq. split; [done|]. split; [cbn in Hlen; lia|].
        split; [done|constructor].
    + destruct (sessions s !! q') as [[|x rest]|]; exists queue, []; rewrite app_nil_r;
        rewrite ?received_by_some, ?(proj2 (Z.eqb_neq q' q) Hne); cbn [sessions set_sessions];
        rewrite ?lookup_insert_ne by done; split_and!; try done; constructor.
  - exists queue, []. rewrite app_nil_r. cbn. rewrite lookup_delete_ne by congruence.
    split_and!; try done; constructor.
Qed.

Lemma received_by_app q l1 l2 : received_by q (l1 ++ l2) = received_by q l1 ++ received_by q l2.
Proof. apply omap_app. Qed.

Lemma sent_to_cons q op ops : sent_to q (op :: ops) = option_list (routed_to q op) ++ sent_to q ops.
Proof. unfold sent_to. cbn. by destruct (routed_to q op). Qed.

Lemma datagram_run_queue ops s q queue :
  sessions s !! q = Some queue → Forall (λ op, op ≠ DDrop q) ops →
  (length queue ≤ INBOUND_QUEUE_DEPTH)%nat →
  let '(s', outs) := datagram_run s ops in
  ∃ queue' got, sessions s' !! q = Some queue' ∧ (length queue' ≤ INBOUND_QUEUE_DEPTH)%nat ∧
    received_by q outs ++ queue' = queue ++ got ∧ sublist got (sent_to q ops).
Proof.
  intros Hq Hops. revert s queue Hq. induction Hops as [|op ops Hop Hops IH]; intros s queue Hq Hlen.
  { exists queue, []. rewrite app_nil_r. split_and!; try done; constructor. }
  cbn [datagram_run]. pose proof (datagram_step_queue s op q queue Hq Hop Hlen) as Hstep.
  destruct (datagram_step s op) as [s1 out]. destruct Hstep as (q1 & g1 & Hq1 & Hl1 & He1 & Hs1).
  specialize (IH s1 q1 Hq1 Hl1). destruct (datagram_run s1 ops) as [s2 outs].
  destruct IH as (q2 & g2 & Hq2 & Hl2 & He2 & Hs2).
  exists q2, (g1 ++ g2). split; [done|]. split; [done|]. split.
  - assert ((match out with Some o => o :: outs | None => outs end) = option_list out ++ outs) as ->
      by (by destruct out).
    rewrite received_by_app, <- app_assoc, He2, !app_assoc. f_equal. done.
  - rewrite sent_to_cons. by apply sublist_app.
Qed.

(** Routing of HTTP datagrams.  A session claims a Quarter Stream ID; from
    then until it is dropped, whatever other sessions come and go and whatever
    else the peer sends, what it receives, followed by what its queue still
    holds, is in order a sublist of the UDP payloads the peer sent for that ID:
    none of another session's, none twice, none reordered; and the queue never
    holds more than INBOUND_QUEUE_DEPTH. *)
Theorem datagram_session ops s q :
  sessions s !! q = Some [] → Forall (λ op, op ≠ DDrop q) ops →
  let '(s', outs) := datagram_run s ops in
  ∃ queue, sessions s' !! q = Some queue ∧ (length queue ≤ INBOUND_QUEUE_DEPTH)%nat ∧
    sublist (received_by q outs ++ queue) (sent_to q ops).
Proof.
  intros Hq Hops. pose proof (datagram_run_queue ops s q [] Hq Hops ltac:(cbn; lia)) as H.
  destruct (datagram_run s ops) as [s' outs]. destruct H as (queue & got & H1 & H2 & H3 & H4).
  exists queue. cbn [app] in H3. by rewrite H3.
Qed.
End Datagrams.

Lemma datagram_session_witness :
  let s := (register_datagrams (shared_default 0) 3).1 in
  let '(s', outs) := datagram_run (QuinnError := unit) (λ _, "") s
      [DRoute (map as_u8 [3; 0; 7]); DRoute (map as_u8 [4; 0; 9]); DReceive 3;
       DRoute (map as_u8 [3; 0; 8])] in
  received_by 3 outs = [[as_u8 7]] ∧
  ∃ queue, sessions s' !! 3 = Some queue ∧ (length queue ≤ INBOUND_QUEUE_DEPTH)%nat ∧
    sublist (received_by 3 outs ++ queue) [[as_u8 7]; [as_u8 8]].
Proof.
  intros s. pose proof (datagram_session (QuinnError := unit) (λ _, "")
    [DRoute (map as_u8 [3; 0; 7]); DRoute (map as_u8 [4; 0; 9]); DReceive 3;
     DRoute (map as_u8 [3; 0; 8])] s 3 eq_refl) as H.
  assert (Forall (λ op, op ≠ DDrop 3) [DRoute (map as_u8 [3; 0; 7]); DRoute (map as_u8 [4; 0; 9]);
    DReceive 3; DRoute (map as_u8 [3; 0; 8])]) as Hops by (repeat constructor; discriminate).
  specialize (H Hops).
  destruct (datagram_run _ _ _) as [s' outs] eqn:E.
  assert (received_by 3 outs = [[as_u8 7]]) as Hr.
  { change outs with ((s', outs).2). rewrite <- E. vm_compute. reflexivity. }
  split; [exact Hr|]. destruct H as (queue & H1 & H2 & H3). exists queue.
  split; [exact H1|]. split; [exact H2|]. exact H3.
Defined.

(** ** GOAWAY *)

(** A connection and what it has told the peer: the request streams quinn handed
    out, in order, and the GOAWAY identifiers sent. *)
Record History := mkHistory {
  conn : Connection;
  offered : list Z;
  accepted : list Z;
  sent : list Z;
}.

(** Request streams are handed out in increasing order of their ids, which are
    multiples of four below 2^62 (RFC 9000, section 2.1). *)
Inductive history : History → Prop :=
  | history_new : history (mkHistory (mkConnection None None) [] [] [])
  | history_accept h id :
      history h → 0 ≤ id ≤ 2 ^ 62 - 4 → Forall (λ x, x < id) (offered h) →
      history (let '(c, _, ok) := accept (conn h) id in
        mkHistory c (offered h ++ [id]) (if ok then accepted h ++ [id] else accepted h) (sent h))
  | history_shutdown h :
      history h →
      history (let '(c, identifier, _) := shutdown (conn h) in
        mkHistory c (offered h) (accepted h) (sent h ++ [identifier])).

Record history_ok (h : History) : Prop := {
  hist_last : match last_accepted (conn h) with
    | Some id => id ∈ accepted h ∧ Forall (λ x, x ≤ id) (accepted h) ∧ 0 ≤ id ≤ 2 ^ 62 - 4
    | None => accepted h = []
    end;
  hist_going : match going_away (conn h) with
    | Some i => Forall (λ x, x < i) (accepted h) ∧ Forall (λ j, i ≤ j) (sent h) ∧
        i ∈ sent h ∧ 0 ≤ i ≤ VARINT_MAX
    | None => sent h = []
    end;
  hist_sorted : StronglySorted (λ x y, y ≤ x) (sent h);
  hist_offered : ∀ x, x ∈ accepted h → x ∈ offered h;
  hist_refused : ∀ x, x ∈ offered h → x ∈ accepted h ∨ ∃ i, i ∈ sent h ∧ i ≤ x;
}.

Lemma strongly_sorted_snoc (l : list Z) x :
  StronglySorted (λ x y, y ≤ x) l → Forall (λ y, x ≤ y) l → StronglySorted (λ x y, y ≤ x) (l ++ [x]).
Proof.
  induction 1 as [|y l Hs IH Hy]; intros Hx; cbn; [repeat constructor|].
  apply Forall_cons in Hx as [Hxy Hx]. constructor; [by apply IH|].
  apply Forall_app_2; [done|]. by apply Forall_singleton.
Qed.

Lemma next_request_id_above (last : option Z) (l : list Z) :
  match last with
  | Some id => Forall (λ x, x ≤ id) l ∧ 0 ≤ id ≤ 2 ^ 62 - 4
  | None => l = []
  end → Forall (λ x, x < next_request_id last) l ∧ 0 ≤ next_request_id last ≤ VARINT_MAX.
Proof.
  change VARINT_MAX with (2 ^ 62 - 1). unfold next_request_id, saturating_add, REQUEST_STREAM_STEP.
  change VARINT_MAX with (2 ^ 62 - 1).
  destruct last as [id|]; [intros [Hl Hid]|intros ->; split; [constructor|lia]].
  split; [|lia]. eapply Forall_impl; [exact Hl|]. cbn. intros x Hx. lia.
Qed.

Lemma history_invariant h : history h → history_ok h.
Proof.
  induction 1 as [|h id _ IH Hid Hoff|h _ IH].
  - split; try done; [constructor|]. intros x Hx. by apply elem_of_nil in Hx.
  - destruct IH as [Hlast Hgo Hs Ho Hr]. unfold accept.
    destruct (match going_away (conn h) with Some r => r <=? id | None => false end) eqn:Eg.
    + split; cbn; try done.
      * intros x Hx. apply elem_of_app. left. auto.
      * destruct (going_away (conn h)) as [i|]; [|done]. destruct Hgo as (_ & _ & Hi & _).
        intros x [Hx| ->%list_elem_of_singleton]%elem_of_app; [by apply Hr|]. right. exists i. split; [done|lia].
    + split; cbn.
      * split; [apply elem_of_app; right; by left|]. split; [|done].
        apply Forall_app_2; [|by apply Forall_singleton].
        apply Forall_forall. intros x Hx. rewrite Forall_forall in Hoff.
        specialize (Hoff x (Ho x Hx)). lia.
      * destruct (going_away (conn h)) as [i|]; [|done]. destruct Hgo as (H1 & H2 & H3 & H4).
        split; [|done]. apply Forall_app_2; [done|]. apply Forall_singleton. lia.
      * done.
      * intros x [Hx|Hx]%elem_of_app; apply elem_of_app; [left; auto|by right].
      * intros x [Hx|Hx]%elem_of_app; rewrite elem_of_app; [|by auto].
        destruct (Hr x Hx) as [|]; [by auto|by right].
  - destruct IH as [Hlast Hgo Hs Ho Href]. unfold shutdown. cbn.
    destruct (next_request_id_above (last_accepted (conn h)) (accepted h)) as [Hnext Hr].
    { destruct (last_accepted (conn h)); [|done]. by destruct Hlast as (_ & ? & ?). }
    set (next := next_request_id (last_accepted (conn h))) in *.
    destruct (going_away (conn h)) as [i|].
    + destruct Hgo as (H1 & H2 & H3 & H4). split; cbn; try done;
        [| |intros x Hx; destruct (Href x Hx) as [|(j & Hj & Hle)]; [by left|right; exists j; split; [set_solver|done]]].
      * split; [|split; [|split]].
        -- apply Forall_forall. intros x Hx. rewrite Forall_forall in H1, Hnext.
           specialize (H1 x Hx). specialize (Hnext x Hx). lia.
        -- apply Forall_app_2; [|by apply Forall_singleton].
           eapply Forall_impl; [exact H2|]. cbn. intros; lia.
        -- apply elem_of_app. right. by left.
        -- lia.
      * apply strongly_sorted_snoc; [done|]. eapply Forall_impl; [exact H2|]. cbn. intros; lia.
    + rewrite Hgo in *. split; cbn; try done.
      * split; [done|]. split; [by apply Forall_singleton|]. split; [by left|done].
      * repeat constructor.
      * intros x Hx. destruct (Href x Hx) as [|(j & Hj & _)]; [by left|by apply elem_of_nil in Hj].
Qed.

(** C28: the GOAWAY discipline of RFC 9114, section 5.2.  However often the server
    goes away and whatever requests arrive in between, the identifiers it sends
    never increase and each fits a varint; every request it has accepted, before or
    after, is below every identifier sent, so a request at or above one was never
    served and may be retried; every request it has refused is at or above an
    identifier sent; and of the next one the same decides: it is refused, with both
    directions of its stream ended, exactly when an identifier sent is at or below it,
    and is otherwise served. *)
Theorem goaway_discipline h :
  history h →
  StronglySorted (λ x y, y ≤ x) (sent h) ∧
  (∀ id identifier, id ∈ accepted h → identifier ∈ sent h → id < identifier) ∧
  (∀ id, id ∈ offered h → (id ∉ accepted h) → ∃ identifier, identifier ∈ sent h ∧ identifier ≤ id) ∧
  (∀ identifier, going_away (conn h) = Some identifier → 0 ≤ identifier ≤ VARINT_MAX) ∧
  (∀ id, accept (conn h) id =
     (conn h, [ResetSend id H3_REQUEST_REJECTED; StopRecv id H3_REQUEST_REJECTED], false) ↔
     ∃ identifier, identifier ∈ sent h ∧ identifier ≤ id) ∧
  (∀ id, accept (conn h) id = (mkConnection (Some id) (going_away (conn h)), [], true) ↔
     ∀ identifier, identifier ∈ sent h → id < identifier).
Proof.
  intros Hh%history_invariant. destruct Hh as [Hlast Hgo Hs Ho Hr].
  assert (∀ id, match going_away (conn h) with Some r => r <=? id | None => false end = true ↔
    ∃ identifier, identifier ∈ sent h ∧ identifier ≤ id) as Hdec.
  { intros id. destruct (going_away (conn h)) as [g|]; [|rewrite Hgo; set_solver].
    destruct Hgo as (_ & H2 & Hi & _). rewrite Z.leb_le. split; [by exists g|].
    intros (i & Hin & Hle). rewrite Forall_forall in H2. specialize (H2 i Hin). lia. }
  split_and!; [done| | | | |].
  - intros id i Hid Hi. destruct (going_away (conn h)) as [g|]; [|rewrite Hgo in Hi; by apply elem_of_nil in Hi].
    destruct Hgo as (H1 & H2 & _ & _). rewrite Forall_forall in H1, H2.
    specialize (H1 id Hid). specialize (H2 i Hi). lia.
  - intros id Hid Hna. by destruct (Hr id Hid).
  - intros i Hi. rewrite Hi in Hgo. by destruct Hgo as (_ & _ & _ & ?).
  - intros id. rewrite <- Hdec. unfold accept. by destruct (match going_away _ with Some _ => _ | None => _ end).
  - intros id. unfold accept. specialize (Hdec id).
    destruct (match going_away _ with Some _ => _ | None => _ end); split; try done.
    + intros Hall. destruct (proj1 Hdec eq_refl) as (i & Hi & Hle). specialize (Hall i Hi). lia.
    + intros _ i Hi. apply Z.nle_gt. intros Hle. discriminate (proj2 Hdec (ex_intro _ i (conj Hi Hle))).
Qed.

Lemma goaway_discipline_witness :
  ∃ h, history h ∧ sent h = [8; 8] ∧ accepted h = [0; 4] ∧ offered h = [0; 4; 8] ∧
    accept (conn h) 8 =
      (conn h, [ResetSend 8 H3_REQUEST_REJECTED; StopRecv 8 H3_REQUEST_REJECTED], false) ∧
    accept (conn h) 5 = (mkConnection (Some 5) (Some 8), [], true).
Proof.
  pose proof history_new as Hh.
  apply (history_accept _ 0) in Hh; [|lia|constructor].
  apply (history_accept _ 4) in Hh; [|lia|vm_compute; repeat constructor].
  apply history_shutdown in Hh.
  apply (history_accept _ 8) in Hh; [|lia|vm_compute; repeat constructor].
  apply history_shutdown in Hh. vm_compute in Hh.
  eexists. split; [exact Hh|]. split; [reflexivity|]. split; [reflexivity|]. split; [reflexivity|].
  destruct (goaway_discipline _ Hh) as (_ & _ & _ & _ & H & H'). split.
  - apply H. exists 8. split; [left|lia].
  - apply H'. intros i Hi. cbn in Hi. rewrite !elem_of_cons, elem_of_nil in Hi. lia.
Defined.

(** ** What the server writes on its own control stream *)

Lemma put_header_eq out kind len :
  0 ≤ kind ≤ VARINT_MAX → 0 ≤ len ≤ VARINT_MAX →
  put_header out kind len = Some (out ++ varint_bytes kind ++ varint_bytes len).
Proof.
  intros Hk Hl. unfold put_header. rewrite put_varint_eq by lia. cbn [mbind option_bind].
  rewrite put_varint_eq by lia. by rewrite app_assoc.
Qed.

(** The GOAWAY frame the server writes for an identifier is one a peer's frame
    decoder reads back as exactly that GOAWAY, in whatever chunks it arrives. *)
Theorem goaway_frame_decoded identifier chunks w held :
  0 ≤ identifier ≤ VARINT_MAX → 0 ≤ held ≤ HEADERS_BUFFER_BUDGET - MAX_BUFFERED_FRAME →
  goaway_frame identifier = Some w → concat chunks = w →
  ∃ items d, Incremental.feed (Frame.new Frame.Control, held) chunks = (items, Ok (d, held)) ∧
    output items = [WholeFrame (Goaway identifier)] ∧ at_frame_boundary d = true.
Proof.
  intros Hi Hh Hw Hc. assert (0 ≤ Z.of_nat (varint_len identifier) ≤ 8) as Hlen.
  { unfold varint_len. repeat case_match; lia. }
  change VARINT_MAX with (2 ^ 62 - 1) in *.
  unfold goaway_frame in Hw.
  rewrite put_header_eq in Hw by (change VARINT_MAX with (2 ^ 62 - 1); change GOAWAY with 7; lia).
  cbn [mbind option_bind] in Hw. rewrite app_nil_l in Hw.
  rewrite put_varint_eq in Hw by (change VARINT_MAX with (2 ^ 62 - 1); lia).
  assert (w = (varint_bytes GOAWAY ++ varint_bytes (Z.of_nat (varint_len identifier))) ++
    varint_bytes identifier) as -> by congruence. clear Hw.
  pose proof (is_varint_bytes identifier Hi) as Hvi.
  assert (blen (varint_bytes identifier) = Z.of_nat (varint_len identifier)) as Hbl.
  { unfold blen. by rewrite length_varint_bytes. }
  assert (frame_sequence Frame.Control (concat chunks) ([WholeFrame (Goaway identifier)] ++ []) (0 + 0))
    as Hseq.
  { rewrite Hc, <- (app_nil_r (_ ++ varint_bytes identifier)).
    apply (frame_sequence_cons _ GOAWAY (varint_bytes identifier)).
    - rewrite <- app_assoc. apply frame_wire_intro; [by apply is_varint_bytes|].
      rewrite Hbl. apply is_varint_bytes. change VARINT_MAX with (2 ^ 62 - 1). lia.
    - apply (event_frame _ _ _ KGoaway); [done|done| |].
      + rewrite Hbl. change MAX_BUFFERED_FRAME with 65536. lia.
      + cbn [parse]. unfold single_varint. rewrite Hvi, decide_True by done. done.
    - constructor. }
  assert (Incremental.ready (Frame.new Frame.Control, held)) as Hr by done.
  destruct (Incremental.feed_concat (Frame.new Frame.Control, held) chunks Hr) as [H1 H2].
  cbn in H1, H2.
  change (push_bytes (Frame.new Frame.Control) (concat chunks))
    with (idle Frame.Control (concat chunks) 0) in H1, H2.
  destruct (drain_frame_sequence _ _ _ _ 0 held Hseq) as [H3 H4]; [lia|lia|lia|done|].
  rewrite H4 in H2. destruct (Incremental.feed _ _) as [items r]. cbn in *. subst r.
  eexists items, _. split; [done|]. split; [by rewrite <- H3|]. done.
Qed.

Lemma goaway_frame_decoded_witness :
  ∃ items d, Incremental.feed (Frame.new Frame.Control, 0) [map as_u8 [7; 2]; map as_u8 [0x40; 0x80]] =
      (items, Ok (d, 0)) ∧
    output items = [WholeFrame (Goaway 128)] ∧ at_frame_boundary d = true.
Proof.
  apply (goaway_frame_decoded 128 _ (map as_u8 [7; 2; 0x40; 0x80]));
    [vm_compute; split; discriminate|vm_compute; split; discriminate|reflexivity|reflexivity].
Defined.

(** The type of a unidirectional stream is read by two exact reads, one byte
    and then the rest its top bits announce; that is the varint at the front of
    the stream, and a stream that ends inside it has no type. *)
Theorem stream_type_exact received :
  read_stream_type received = option_map fst (peek_varint received).
Proof.
  unfold read_stream_type. destruct received as [|x l]; [done|].
  destruct (peek_varint (x :: l)) as [[v n]|] eqn:E.
  - pose proof (peek_varint_take _ _ _ E) as Ht. pose proof (peek_varint_length _ _ _ E) as [_ Hn].
    assert (Z.to_nat (Z.shiftl 1 (Z.shiftr (u8 x) 6)) = n) as ->.
    { revert E. cbn [peek_varint]. case_decide; [done|]. by intros [= _ <-]. }
    rewrite decide_False by lia. by rewrite Ht.
  - case_decide as Hlt; [done|]. exfalso. revert E. cbn [peek_varint].
    case_decide; [done|discriminate].
Qed.
