(* ===== verification/Peer.v ===== *)
(** * The HTTP/3 handshake and the peer's task (src/src/h3/connection.rs, h3/stream.rs)

    Opening the server's three critical streams under a deadline, the task that serves
    what the peer sends outside its requests, and the two waits on the peer's signals a
    tunnel makes ([Writer::stopped], [Reader::reset_by_peer]).  What quinn's futures
    yield is the input; an outer [None] is a panic of an encoder. *)

From S2P Require Import Prelude Datagram H3Error Frame Logfmt Connection ConnectionFacts.

#[local] Open Scope Z_scope.

Section Peer.
Context {QuinnError : Type}
  (peer_error : @quinn_ConnectionError QuinnError → @quinn_ConnectionError QuinnError)
  (decode_error_display : DecodeError → string).
#[local] Abbreviation ConnErr := (@ConnectionError QuinnError).
#[local] Abbreviation fail := (fail (QuinnError := QuinnError)).
#[local] Abbreviation route_datagram := (route_datagram (QuinnError := QuinnError) decode_error_display).

(** ** The handshake *)

(** How [open_uni] and the first [write_all] on the stream ended. *)
Inductive OpenOutcome :=
  | OpenLost (e : @quinn_ConnectionError QuinnError)
  | PrefaceFailed (e : @quinn_WriteError QuinnError) (text : string)
  | PrefaceWritten.

Definition open_with (preface : bytes) (o : OpenOutcome) (s : Shared)
    : Shared * list Action * result bytes ConnErr :=
  match o with
  | OpenLost e => (s, [], Err (connection_error_from peer_error e))
  | PrefaceFailed e text =>
      let '(s, actions, error) := critical_write peer_error s e text in (s, actions, Err error)
  | PrefaceWritten => (s, [], Ok preface)
  end.

Definition open_typed (stream_type : Z) (o : OpenOutcome) (s : Shared)
    : option (Shared * list Action * result bytes ConnErr) :=
  header ← put_varint [] stream_type;
  Some (open_with header o s).

(** What each of the three streams has been written, in the order they were opened. *)
Definition open_critical_streams (o1 o2 o3 : OpenOutcome) (s : Shared)
    : option (Shared * list Action * result (bytes * bytes * bytes) ConnErr) :=
  preface ← control_preface;
  match open_with preface o1 s with
  | (s, actions, Err e) => Some (s, actions, Err e)
  | (s, _, Ok control) =>
      '(s, actions, encoder) ← open_typed STREAM_QPACK_ENCODER o2 s;
      match encoder with
      | Err e => Some (s, actions, Err e)
      | Ok encoder =>
          '(s, actions, decoder) ← open_typed STREAM_QPACK_DECODER o3 s;
          Some (s, actions, match decoder with
                            | Err e => Err e
                            | Ok decoder => Ok (control, encoder, decoder)
                            end)
      end
  end.

(** [Connection::handshake]: [took] is how long opening the streams takes, if it ends. *)
Definition handshake (within : Z) (took : option Z) (o1 o2 o3 : OpenOutcome) (dropped : Z)
    : option (Shared * list Action * result (Connection * (bytes * bytes * bytes)) ConnErr) :=
  let s := shared_default dropped in
  if match took with Some t => t <=? within | None => false end then
    '(s, actions, opened) ← open_critical_streams o1 o2 o3 s;
    Some (s, actions, match opened with
                      | Ok streams => Ok (mkConnection None None, streams)
                      | Err e => Err e
                      end)
  else
    let '(s, actions, error) := fail s (connection_violation H3_STREAM_CREATION_ERROR
      "the HTTP/3 handshake did not complete within one idle timeout") in
    Some (s, actions, Err error).

(** ** The peer's task *)

(** What the [select!] of [serve_peer] finds ready; a stream is known by its id. *)
Inductive PeerEvent :=
  | UniAccepted (stream : Z)
  | UniFailed
  | DatagramRead (datagram : bytes)
  | DatagramFailed.

(** The loop: the shared state, what was done, the streams a handler was spawned for,
    and whether the task is over. *)
Fixpoint serve_peer (events : list PeerEvent) (s : Shared) (spawned : list Z)
    : Shared * list Action * list Z * bool :=
  match events with
  | [] => (s, [], spawned, false)
  | UniAccepted stream :: events => serve_peer events s (spawned ++ [stream])
  | UniFailed :: _ | DatagramFailed :: _ => (s, [], spawned, true)
  | DatagramRead datagram :: events =>
      match route_datagram s datagram with
      | (s, actions, true) =>
          let '(s, rest, spawned, over) := serve_peer events s spawned in
          (s, actions ++ rest, spawned, over)
      | (s, actions, false) => (s, actions, spawned, true)
      end
  end.

(** ** The peer's signals *)

(** [SendStream::stopped]: a code, a stream that is over, or an error. *)
Inductive StoppedOutcome :=
  | StoppedWith (code : Z)
  | StoppedDone
  | StoppedLost (e : @quinn_ConnectionError QuinnError)
  | StoppedOther (text : string).

Definition stopped (o : StoppedOutcome) : @StreamError QuinnError :=
  match o with
  | StoppedWith code => RemoteTerminate (mkCode code)
  | StoppedDone => StreamLocal (stream_violation H3_NO_ERROR "the response stream is over")
  | StoppedLost e => H3Error.Connection (connection_error_from peer_error e)
  | StoppedOther text => internal text
  end.

Definition RESET_PEEK_INTERVAL : Z := 250 * 10 ^ 6.

(** One turn of [reset_by_peer]: sleep and look again, wait for good, or return. *)
Inductive Peek := SleepThen (interval : Z) | PendForever | Reports (e : @StreamError QuinnError).

Definition reset_peek (readable : result bool (@quinn_ReadError QuinnError)) : Peek :=
  match readable with
  | Ok true => SleepThen RESET_PEEK_INTERVAL
  | Ok false => PendForever
  | Err (Reset code) => Reports (RemoteTerminate (mkCode code))
  | Err (ReadConnectionLost e) => Reports (H3Error.Connection (connection_error_from peer_error e))
  | Err (OtherReadError _) => PendForever
  end.

(** The loop over what [readable()] yields each time: what it returns, and after how long. *)
Fixpoint reset_by_peer (looks : list (result bool (@quinn_ReadError QuinnError))) (elapsed : Z)
    : option (Z * @StreamError QuinnError) :=
  match looks with
  | [] => None
  | look :: looks =>
      match reset_peek look with
      | SleepThen interval => reset_by_peer looks (elapsed + interval)
      | PendForever => None
      | Reports e => Some (elapsed, e)
      end
  end.

(** ** Facts *)

Lemma open_with_cases preface o s s' actions r :
  open_with preface o s = (s', actions, r) → local_error s = None →
  (r = Ok preface ∧ s' = s ∧ actions = [] ∧ o = PrefaceWritten) ∨
  (∃ e, r = Err (connection_error_from peer_error e) ∧ actions = []) ∨
  (∃ v, r = Err (ConnLocal v) ∧ actions = [CloseConnection (H3Error.code v) (violation_display v)] ∧
        H3Error.code v = H3_CLOSED_CRITICAL_STREAM).
Proof.
  intros H Hl. destruct o as [e|e text|]; cbn [open_with] in H.
  - simplify_eq. right. left. eauto.
  - destruct e as [code|e|t]; cbn [critical_write] in H; unfold Connection.fail, record_error in H;
      rewrite ?Hl in H; simplify_eq; eauto 10.
  - simplify_eq. auto.
Qed.

(** The handshake ends. It is given up at one idle timeout; when it succeeds, the
    three streams carry the control type with a SETTINGS frame, and the two QPACK types;
    and it never fails with the connection left open: the connection was lost, or it is
    closed with the violation reported. *)
Theorem handshake_ends within took o1 o2 o3 dropped :
  ∃ s actions r, handshake within took o1 o2 o3 dropped = Some (s, actions, r) ∧
    match r with
    | Ok (c, (control, encoder, decoder)) =>
        (∃ t, took = Some t ∧ t ≤ within) ∧ actions = [] ∧ local_error s = None ∧
        c = mkConnection None None ∧ Some control = control_preface ∧
        read_stream_type control = Some STREAM_CONTROL ∧
        read_stream_type encoder = Some STREAM_QPACK_ENCODER ∧ length encoder = 1%nat ∧
        read_stream_type decoder = Some STREAM_QPACK_DECODER ∧ length decoder = 1%nat
    | Err e =>
        (∃ q, e = connection_error_from peer_error q ∧ actions = []) ∨
        (∃ v, e = ConnLocal v ∧ actions = [CloseConnection (H3Error.code v) (violation_display v)])
    end.
Proof.
  unfold handshake. destruct (match took with Some t => t <=? within | None => false end) eqn:Et.
  - assert (∃ t, took = Some t ∧ t ≤ within) as Ht.
    { destruct took as [t|]; [|done]. exists t. split; [done|]. by apply Z.leb_le. }
    unfold open_critical_streams, open_typed.
    destruct control_preface as [preface|] eqn:Ep; [|by vm_compute in Ep].
    assert (read_stream_type preface = Some STREAM_CONTROL) as Htype.
    { vm_compute in Ep. injection Ep as <-. reflexivity. }
    change (put_varint [] STREAM_QPACK_ENCODER) with (Some [as_u8 2]).
    change (put_varint [] STREAM_QPACK_DECODER) with (Some [as_u8 3]). cbn [mbind option_bind].
    destruct (open_with preface o1 (shared_default dropped)) as [[s1 a1] r1] eqn:E1.
    destruct (open_with_cases _ _ _ _ _ _ E1 eq_refl) as [(-> & -> & -> & ->)|[(e & -> & ->)|(v & -> & -> & _)]];
      [|eexists _, _, _; split; [reflexivity|]; cbn; eauto..].
    destruct (open_with [as_u8 2] o2 (shared_default dropped)) as [[s2 a2] r2] eqn:E2.
    destruct (open_with_cases _ _ _ _ _ _ E2 eq_refl) as [(-> & -> & -> & ->)|[(e & -> & ->)|(v & -> & -> & _)]];
      [|eexists _, _, _; split; [reflexivity|]; cbn; eauto..].
    destruct (open_with [as_u8 3] o3 (shared_default dropped)) as [[s3 a3] r3] eqn:E3.
    destruct (open_with_cases _ _ _ _ _ _ E3 eq_refl) as [(-> & -> & -> & ->)|[(e & -> & ->)|(v & -> & -> & _)]];
      [|eexists _, _, _; split; [reflexivity|]; cbn; eauto..].
    eexists _, _, _. split; [reflexivity|]. cbv beta iota. split_and!; done.
  - eexists _, _, _. split; [reflexivity|]. right. eexists. split; reflexivity.
Qed.

(** A reset is seen within a peek interval, and only a reset or the loss of the
    connection is reported: data and a clean end are not. *)
Theorem reset_by_peer_exact looks t e :
  reset_by_peer looks 0 = Some (t, e) ↔
  ∃ n look rest, looks = replicate n (Ok true) ++ look :: rest ∧ t = Z.of_nat n * RESET_PEEK_INTERVAL ∧
    ((∃ code, look = Err (Reset code) ∧ e = RemoteTerminate (mkCode code)) ∨
     (∃ q, look = Err (ReadConnectionLost q) ∧ e = H3Error.Connection (connection_error_from peer_error q))).
Proof.
  assert (∀ t0, reset_by_peer looks t0 = Some (t, e) ↔
    ∃ n look rest, looks = replicate n (Ok true) ++ look :: rest ∧ t = t0 + Z.of_nat n * RESET_PEEK_INTERVAL ∧
    ((∃ code, look = Err (Reset code) ∧ e = RemoteTerminate (mkCode code)) ∨
     (∃ q, look = Err (ReadConnectionLost q) ∧ e = H3Error.Connection (connection_error_from peer_error q)))) as H;
    [|by rewrite (H 0)].
  induction looks as [|look looks IH]; intros t0; cbn [reset_by_peer].
  { split; [done|]. intros ([|n] & ? & ? & ? & _); discriminate. }
  destruct look as [[]|[code|q|text]]; cbn [reset_peek].
  - rewrite IH. split.
    + intros (n & look & rest & -> & -> & He). exists (S n), look, rest. split; [done|]. split; [lia|done].
    + intros ([|n] & look & rest & Heq & -> & He); cbn in Heq; simplify_eq; [naive_solver|].
      exists n, look, rest. split; [done|]. split; [lia|done].
  - split; [done|]. intros ([|n] & look & rest & Heq & _ & He); cbn in Heq; simplify_eq; naive_solver.
  - split; [intros [= <- <-]; exists 0%nat; eexists _, _; split; [done|]; split; [lia|eauto]|].
    intros ([|n] & look & rest & Heq & -> & He); cbn in Heq; simplify_eq.
    destruct He as [(c & [= <-] & ->)|(q & [=] & _)]. do 2 f_equal. lia.
  - split; [intros [= <- <-]; exists 0%nat; eexists _, _; split; [done|]; split; [lia|eauto]|].
    intros ([|n] & look & rest & Heq & -> & He); cbn in Heq; simplify_eq.
    destruct He as [(c & [=] & _)|(q' & [= <-] & ->)]. do 2 f_equal. lia.
  - split; [done|]. intros ([|n] & look & rest & Heq & _ & He); cbn in Heq; simplify_eq; naive_solver.
Qed.

(** ** No datagram unaccounted for *)

(** What waits in the queues of all sessions. *)
Definition queued (s : Shared) : Z := map_fold (λ _ queue n, blen queue + n) 0 (sessions s).

#[local] Abbreviation total m := (map_fold (λ (_ : Z) (queue : list bytes) n, blen queue + n) 0 m).

Lemma total_take (m : gmap Z (list bytes)) q queue :
  m !! q = Some queue → total m = blen queue + total (delete q m).
Proof.
  intros Hq. apply (map_fold_delete_L (λ (_ : Z) (queue : list bytes) n, blen queue + n) 0 q queue m);
    [intros; lia|done].
Qed.

Lemma queued_insert (m : gmap Z (list bytes)) q queue queue' :
  m !! q = Some queue → total (<[q := queue']> m) = total m + blen queue' - blen queue.
Proof.
  intros Hq. rewrite (total_take _ q queue') by apply lookup_insert_eq.
  rewrite delete_insert_eq, (total_take m q queue) by done. lia.
Qed.

Lemma count_drop_dropped s kind :
  dropped_datagrams (count_drop s kind).1 = wrap 64 (dropped_datagrams s + 1).
Proof. unfold count_drop. destruct kind; by destruct (record _). Qed.

Lemma counted_drop s kind :
  0 ≤ dropped_datagrams s < 2 ^ 64 - 1 →
  queued (count_drop s kind).1 + dropped_datagrams (count_drop s kind).1 =
    queued s + dropped_datagrams s + 1 ∧
  dropped_datagrams s ≤ dropped_datagrams (count_drop s kind).1 ≤ dropped_datagrams s + 1.
Proof.
  intros Hd. unfold queued. rewrite count_drop_sessions, count_drop_dropped.
  rewrite wrap_id by (unfold is_uint; lia). lia.
Qed.

(** One datagram: one more in a queue or one more dropped, or the end. *)
Lemma route_accounts s d :
  0 ≤ dropped_datagrams s < 2 ^ 64 - 1 →
  let '(s', actions, go) := route_datagram s d in
  dropped_datagrams s ≤ dropped_datagrams s' ≤ dropped_datagrams s + 1 ∧
  if go then actions = [] ∧ queued s' + dropped_datagrams s' = queued s + dropped_datagrams s + 1
  else queued s' + dropped_datagrams s' = queued s + dropped_datagrams s ∧
       ∃ v, actions = [CloseConnection (H3Error.code v) (violation_display v)].
Proof.
  intros Hd. unfold Connection.route_datagram. destruct (decode d) as [dg|e].
  - unfold deliver. destruct (negb _); [destruct (counted_drop s UnknownContext Hd); naive_solver|].
    destruct (sessions s !! quarter_stream_id_of dg) as [queue|] eqn:Eq;
      [|destruct (counted_drop s Unroutable Hd); naive_solver].
    destruct (length queue <? INBOUND_QUEUE_DEPTH)%nat;
      [|destruct (counted_drop s QueueFull Hd); naive_solver].
    cbn [dropped_datagrams set_sessions]. split; [lia|]. split; [done|].
    unfold queued. cbn [sessions set_sessions]. rewrite (queued_insert _ _ queue) by done.
    rewrite blen_app. unfold blen. cbn [length]. lia.
  - destruct (Datagram.is_connection_error e).
    + set (violation := connection_violation _ _). unfold Connection.fail, record_error.
      destruct (local_error s) as [v|]; cbv beta iota zeta.
      * split; [lia|]. split; [done|]. by exists v.
      * split; [cbn; lia|]. split; [done|]. by exists violation.
    + destruct (counted_drop s MalformedDatagram Hd). naive_solver.
Qed.

Definition uni_of (e : PeerEvent) : list Z := match e with UniAccepted stream => [stream] | _ => [] end.
Definition datagram_of (e : PeerEvent) : Z := match e with DatagramRead _ => 1 | _ => 0 end.
Definition datagrams_read (events : list PeerEvent) : Z := foldr (λ e n, datagram_of e + n) 0 events.

(** Nothing the peer sends outside its requests gets lost. Every stream it opens is
    handed to a handler once, in order, and every datagram read is in a session's queue or
    in the count of dropped ones, until the connection is gone or a datagram ends it;
    nothing else ends the task, and nothing else closes the connection from it. *)
Theorem peer_accounts events s spawned :
  0 ≤ dropped_datagrams s → dropped_datagrams s + blen events < 2 ^ 64 →
  let '(s', actions, spawned', over) := serve_peer events s spawned in
  ∃ served rest, events = served ++ rest ∧
    spawned' = spawned ++ concat (map uni_of served) ∧
    queued s' + dropped_datagrams s' = queued s + dropped_datagrams s + datagrams_read served ∧
    match rest with
    | [] => over = false ∧ actions = []
    | UniFailed :: _ | DatagramFailed :: _ => over = true ∧ actions = []
    | DatagramRead _ :: _ =>
        over = true ∧ ∃ v, actions = [CloseConnection (H3Error.code v) (violation_display v)]
    | UniAccepted _ :: _ => False
    end.
Proof.
  revert s spawned. induction events as [|e events IH]; intros s spawned H0 Hd; cbn [serve_peer].
  { exists [], []. unfold datagrams_read. cbn [map concat foldr]. rewrite !app_nil_r. split_and!; try done; lia. }
  unfold blen in *. cbn [length] in Hd.
  destruct e as [stream| |d|].
  - specialize (IH s (spawned ++ [stream]) H0 ltac:(lia)).
    destruct (serve_peer events s (spawned ++ [stream])) as [[[s' actions] spawned'] over].
    destruct IH as (served & rest & -> & -> & Hq & Hrest). exists (UniAccepted stream :: served), rest.
    split; [done|]. split; [by rewrite <- app_assoc|]. split; [exact Hq|done].
  - exists [], (UniFailed :: events). unfold datagrams_read. cbn [map concat foldr]. rewrite !app_nil_r. split_and!; try done; lia.
  - pose proof (route_accounts s d ltac:(lia)) as Hr.
    destruct (route_datagram s d) as [[s1 a1] go]. destruct Hr as [Hd1 Hr]. destruct go.
    + destruct Hr as [-> Hr]. specialize (IH s1 spawned ltac:(lia) ltac:(lia)).
      destruct (serve_peer events s1 spawned) as [[[s' actions] spawned'] over].
      destruct IH as (served & rest & -> & -> & Hq & Hrest). exists (DatagramRead d :: served), rest.
      split; [done|]. split; [done|]. split; [|done]. cbn [datagrams_read foldr datagram_of] in *.
      unfold datagrams_read in Hq. lia.
    + destruct Hr as [Hq Hv]. exists [], (DatagramRead d :: events). unfold datagrams_read. cbn [map concat foldr].
      rewrite !app_nil_r. split_and!; try done; lia.
  - exists [], (DatagramFailed :: events). unfold datagrams_read. cbn [map concat foldr]. rewrite !app_nil_r. split_and!; try done; lia.
Qed.
End Peer.

Lemma peer_accounts_witness :
  ∃ served rest : list PeerEvent, [UniAccepted 2; DatagramRead []; UniAccepted 6] = served ++ rest ∧
    (serve_peer (QuinnError := unit) (λ _, EmptyString)
       [UniAccepted 2; DatagramRead []; UniAccepted 6] (shared_default 0) []).1.2 =
      [] ++ concat (map uni_of served).
Proof.
  assert (0 ≤ dropped_datagrams (shared_default 0)) as H0 by reflexivity || (cbn; lia).
  pose proof (peer_accounts (QuinnError := unit) (λ _, EmptyString)
    [UniAccepted 2; DatagramRead []; UniAccepted 6] (shared_default 0) [] H0 eq_refl) as H.
  destruct (serve_peer _ _ _ _) as [[[s' actions] spawned'] over].
  destruct H as (served & rest & He & Hs & _). exists served, rest. split; [exact He|exact Hs].
Defined.
