(* ===== verification/Exchange.v ===== *)
(** * One exchange on a request stream (src/src/h3/stream.rs)

    [Resolver::resolve] from the stream's bytes to a [Request] or to the answer a
    failure gets, [Stream::respond_within] and the two halves of a split stream.
    The outcome of a write and of a timeout are inputs; what is done to the QUIC
    stream and connection is the list of [Effect]s, in order. *)

From S2P Require Import Prelude Incremental Utf8 Datagram H3Error Qpack Frame FrameFacts.
From S2P Require Import FrameSettings Message RequestStream Logfmt Connection.

#[local] Open Scope string_scope.
#[local] Open Scope list_scope.
#[local] Open Scope Z_scope.

Inductive Effect :=
  | Reset_ (code : Code)
  | Stop (code : Code)
  | Write (b : bytes)
  | Finish
  | Close (code : Code) (reason : string).

Section Exchange.
Context {QuinnError : Type}
  (peer_error : @quinn_ConnectionError QuinnError → @quinn_ConnectionError QuinnError).
#[local] Abbreviation FrameError := (@Frame.Error QuinnError).
#[local] Abbreviation StreamErr := (@StreamError QuinnError).
#[local] Abbreviation Reader_ := (@FrameReader QuinnError).

(** ** Reading the request *)

(** One turn of the loop of [read_request]: the block of the first HEADERS frame,
    an error, or the wait for more of the stream. *)
Definition read_block_step (x : Reader_ * Z)
    : (Reader_ * Z) + ((Reader_ * Z) * option (result bytes FrameError)) :=
  let '(r, held, outcome) := reader_next peer_error x.1 x.2 in
  match outcome with
  | Pending => inr ((r, held), None)
  | Ready (Err e) => inr ((r, held), Some (Err e))
  | Ready (Ok (Some (FrameItem (Headers block)))) => inr ((r, held), Some (Ok block))
  | Ready (Ok (Some (Skipped _))) => inl (r, held)
  | Ready (Ok (Some _)) =>
      inr ((r, held), Some (Err (Protocol (connection_violation H3_FRAME_UNEXPECTED
        "a request stream that does not begin with HEADERS"))))
  | Ready (Ok None) =>
      inr ((r, held), Some (Err (Protocol (stream_violation H3_REQUEST_INCOMPLETE
        "the request stream ended before its HEADERS frame"))))
  end.

Definition event_size (e : @ReadEvent QuinnError) : nat :=
  match e with
  | ChunkRead c => 2 * length c
  | _ => 0
  end.

Definition reader_size (events : list (@ReadEvent QuinnError)) (x : FrameDecoder * Z) : nat :=
  frame_size x + list_sum (map event_size events).

Lemma item_step_none_size x y :
  item_step x = inr (y, Ok None) → (frame_size y ≤ frame_size x)%nat.
Proof.
  destruct x as [d held]. unfold item_step, frame_size, in_frame.
  destruct (state d) as [|r|k r|k r] eqn:Est; cbn [fst].
  - assert (∀ c h, (match take_frame_header h c with (_, h', c') =>
      length h' + length c' ≤ length h + length c end)%nat) as Hh.
    { induction c as [|x c IH]; intros h; cbn [take_frame_header].
      - destruct (header_complete h); cbn; lia.
      - destruct (header_complete h); [cbn; lia|]. specialize (IH (h ++ [x])).
        rewrite length_app in IH. cbn [length] in *.
        destruct (take_frame_header _ c) as [[f h'] c']. lia. }
    specialize (Hh (chunk d) (header d)).
    destruct (take_frame_header (header d) (chunk d)) as [[[[kind len]|] h] c].
    + destruct (begin _ kind len) as [st|]; [|done]. destruct st; try done.
      by destruct (charge _ _).
    + intros [= <-]. cbn [fst chunk header state set_header set_chunk]. rewrite Est. lia.
  - destruct (_ =? 0)%N; [done|]. destruct (take_from _ _). case_decide; [|done].
    intros [= <-]. cbn. rewrite Est. lia.
  - case_decide.
    + intros [= <-]. cbn. rewrite length_drop, Est. lia.
    + destruct (release _ _) as [d' h'] eqn:Er. injection Er as <- <-.
      by destruct (parse _ _).
  - destruct (take_from _ _) as [t l]. destruct (_ =? 0)%N.
    + destruct (count_skip _) as [d' [|]]; done.
    + intros [= <-]. cbn. rewrite length_drop, Est. lia.
Qed.

Lemma next_item_none_size x y :
  next_item x = (y, Ok None) → (frame_size y ≤ frame_size x)%nat.
Proof.
  unfold next_item. revert y.
  apply (run_ind item_step (λ x r, ∀ y, r = (y, Ok None) → (frame_size y ≤ frame_size x)%nat)).
  - intros x' r E y ->. by apply item_step_none_size.
  - intros x' y' E IH y Hr. pose proof (item_step_size x') as H. rewrite E in H.
    specialize (IH _ Hr). lia.
Qed.

Lemma reader_next_size events d h fin r h' i :
  reader_next_on peer_error events d h fin = (r, h', Ready (Ok (Some i))) →
  (reader_size (recv r) (decoder r, h') < reader_size events (d, h))%nat.
Proof.
  unfold reader_size. revert d h fin. induction events as [|e events IH]; intros d h fin;
    cbn [reader_next_on];
    destruct (next_item (d, h)) as [[d1 h1] [[i'|]|v]] eqn:En; try done.
  - intros [= <- <- <-]. apply next_item_shrinks in En. cbn [recv decoder]. lia.
  - by destruct fin.
  - intros [= <- <- <-]. apply next_item_shrinks in En. cbn [recv decoder]. lia.
  - destruct fin; [done|]. destruct e as [c| |e]; [|by destruct (at_frame_boundary d1)|done].
    intros H%IH. apply next_item_none_size in En. cbn [map list_sum foldr event_size] in *.
    assert (frame_size (push_bytes d1 c, h1) ≤ frame_size (d1, h1) + 2 * length c)%nat.
    { unfold frame_size, push_bytes, in_frame. cbn. lia. }
    unfold list_sum in *. cbn [foldr]. lia.
Qed.

#[export] Program Instance read_block_loop : Loop read_block_step :=
  {| loop_measure x := reader_size (recv x.1) (decoder x.1, x.2) |}.
Next Obligation.
  intros [r h] [r' h']. unfold read_block_step, reader_next; cbn [fst snd].
  destruct (reader_next_on _ _ _ _ _) as [[r1 h1] [[[i|]|e]|]] eqn:En; try done.
  apply reader_next_size in En. destruct i as [b|f|k]; try done.
  - by destruct f.
  - intros [= <- <-]. done.
Qed.

(** [read_request]; [None] while the stream has more to deliver. *)
Definition read_request (x : Reader_ * Z)
    : (Reader_ * Z) * option (result Request FrameError) :=
  let '(x, r) := run read_block_step x in
  (x, match r with
      | None => None
      | Some (Err e) => Some (Err e)
      | Some (Ok block) =>
          Some (match (let? section := Qpack.decode block MAX_FIELD_SECTION_SIZE in
                       build_request section) with
                | Ok request => Ok request
                | Err v => Err (Protocol v)
                end)
      end).

(** ** Answering a failure *)

(** [answer]: whether the sending side is reset is the caller's choice. *)
Definition answer (s : Shared) (has_send : bool) (e : FrameError)
    : Shared * list Effect * StreamErr :=
  match e with
  | Stream e => (s, [], e)
  | Protocol v =>
      if H3Error.is_connection_error v then
        let '(s, stored) := record_error s v in
        (s, [Close (H3Error.code stored) (violation_display stored)],
         H3Error.Connection (ConnLocal stored))
      else
        (s, (if has_send then [Reset_ (H3Error.code v)] else []) ++ [Stop (H3Error.code v)],
         StreamLocal v)
  end.

(** ** Responding *)

(** The frame [respond_with] writes. *)
Definition response_frame (status : Status) (fields : Fields) : option bytes :=
  status ← status_as_str status;
  let block := Qpack.encode [] (mkField (lit ":status") status
                 :: map (λ f, mkField f.1 f.2) fields) in
  header ← put_header [] HEADERS (blen block);
  Some (header ++ block).

(** How a write under a deadline ends: taken, failed, or not taken in time. *)
Inductive WriteOutcome := Written | WriteFailed (e : StreamErr) | Elapsed.

Inductive RespondError := RespondFailed (e : StreamErr) | Expired.

(** [None] is a panic. *)
Definition respond_within (status : Status) (fields : Fields) (w : WriteOutcome)
    : option (list Effect * result unit RespondError) :=
  frame ← response_frame status fields;
  Some (match w with
        | Written => ([Write frame], Ok tt)
        | WriteFailed e => ([Write frame], Err (RespondFailed e))
        | Elapsed => ([Write frame; Reset_ H3_REQUEST_CANCELLED], Err Expired)
        end).

(** ** [Resolver::resolve]

    [read] is what [read_request] returned before the idle timeout, or [None] if
    it had not; [w] how the write of a 431 would end. *)
Definition resolve (s : Shared) (read : option (result Request FrameError)) (w : WriteOutcome)
    : option (Shared * list Effect * result Request StreamErr) :=
  match read with
  | None =>
      let v := stream_violation H3_REQUEST_INCOMPLETE
                 "the request headers did not arrive within one idle timeout" in
      Some (s, [Reset_ (H3Error.code v); Stop (H3Error.code v)], Err (StreamLocal v))
  | Some (Ok request) => Some (s, [], Ok request)
  | Some (Err e) =>
      match e with
      | Protocol v =>
          if is_field_section_too_large v && negb (H3Error.is_connection_error v) then
            '(effects, sent) ← respond_within REQUEST_HEADER_FIELDS_TOO_LARGE fields_new w;
            Some (s, Stop (H3Error.code v) :: effects ++
                     (match sent with Ok _ => [Finish] | Err _ => [] end),
                  Err (StreamLocal v))
          else
            let '(s, effects, e) := answer s true e in Some (s, effects, Err e)
      | Stream _ => let '(s, effects, e) := answer s true e in Some (s, effects, Err e)
      end
  end.

(** ** The two halves of a split stream *)

(** [Stream::split]: the reader's decoder only takes DATA from here. *)
Definition split (r : Reader_) : Reader_ :=
  mkReader (recv r) (connect_completed (decoder r)) (finished r).

(** [Writer::send_data]: the frame header and the payload. *)
Definition send_data (data : bytes) : option bytes :=
  header ← put_header [] DATA (blen data);
  Some (header ++ data).

(** One turn of [Reader::recv_data]. *)
Definition recv_data_step (x : Reader_ * Z * Shared)
    : (Reader_ * Z * Shared) +
      ((Reader_ * Z * Shared) * list Effect * option (result (option bytes) StreamErr)) :=
  let '(r, held, s) := x in
  let '(r, held, outcome) := reader_next peer_error r held in
  let report e :=
    let '(s, effects, e) := answer s false e in inr ((r, held, s), effects, Some (Err e)) in
  match outcome with
  | Pending => inr ((r, held, s), [], None)
  | Ready (Ok None) => inr ((r, held, s), [], Some (Ok None))
  | Ready (Err e) => report e
  | Ready (Ok (Some (Skipped _))) => inl (r, held, s)
  | Ready (Ok (Some (Data []))) => inl (r, held, s)
  | Ready (Ok (Some (Data data))) => inr ((r, held, s), [], Some (Ok (Some data)))
  | Ready (Ok (Some (FrameItem _))) =>
      report (Protocol (connection_violation H3_FRAME_UNEXPECTED NON_DATA_FRAME_ON_A_TUNNEL))
  end.

#[export] Program Instance recv_data_loop : Loop recv_data_step :=
  {| loop_measure x := reader_size (recv x.1.1) (decoder x.1.1, x.1.2) |}.
Next Obligation.
  intros [[r h] s] [[r' h'] s']. unfold recv_data_step, reader_next; cbn [fst snd].
  destruct (reader_next_on _ _ _ _ _) as [[r1 h1] [[[i|]|e]|]] eqn:En; try done.
  - apply reader_next_size in En. destruct i as [b|f|k].
    + destruct b; [|done]. by intros [= <- <- <-].
    + by destruct (answer s _ _) as [[? ?] ?].
    + by intros [= <- <- <-].
  - by destruct (answer s _ _) as [[? ?] ?].
Qed.

Definition recv_data (x : Reader_ * Z * Shared) := run recv_data_step x.
End Exchange.
