(* ===== verification/ExchangeFacts.v ===== *)
(** * One exchange on a request stream: properties (src/src/h3/stream.rs)

    From the bytes of a request stream to the request, from a response to the
    bytes a client reads it from, and the bytes of a tunnel through DATA frames. *)

From S2P Require Import Prelude Incremental Utf8 Datagram H3Error Qpack Frame FrameFacts.
From S2P Require Import FrameSettings Message RequestStream RequestFacts Logfmt Connection.
From S2P Require Import ConnectionFacts Exchange.

#[local] Open Scope string_scope.
#[local] Open Scope list_scope.
#[local] Open Scope Z_scope.

(** ** Frame sequences with more to come *)

Lemma drain_sequence_prefix s ws outs n sk held rest :
  frame_sequence s ws outs n →
  0 ≤ held → held + MAX_BUFFERED_FRAME ≤ HEADERS_BUFFER_BUDGET →
  0 ≤ sk → (s = Frame.Request → sk + n ≤ MAX_SKIPPED_FRAMES) →
  ∃ items, output items = outs ∧
    let sk' := if decide (s = Frame.Request) then sk + n else sk in
    drain_all next_item (idle s (ws ++ rest) sk, held) =
    (items ++ (drain_all next_item (idle s rest sk', held)).1,
     (drain_all next_item (idle s rest sk', held)).2).
Proof.
  intros Hseq Hh Hb. revert sk.
  induction Hseq as [|kind payload w out k ws outs n Hw Hev Hseq IH]; intros sk Hsk Hskip.
  - exists []. split; [done|]. cbn [app]. rewrite Z.add_0_r.
    case_decide; apply surjective_pairing.
  - assert (0 ≤ k) by (destruct Hev; lia). pose proof (frame_sequence_skips _ _ _ _ Hseq).
    destruct (drain_one_frame s kind payload w out k (ws ++ rest) sk held) as (i & Hi & Hd);
      [done..|intros Hs; specialize (Hskip Hs); lia|].
    set (sk1 := if decide (s = Frame.Request) then sk + k else sk) in *.
    destruct (IH sk1) as (items & Hitems & Hdrain).
    + unfold sk1. case_decide; lia.
    + intros Hs. specialize (Hskip Hs). unfold sk1. rewrite decide_True by done. lia.
    + exists (i :: items). split.
      { change (i :: items) with ([i] ++ items). by rewrite output_app, Hi, Hitems. }
      rewrite <- app_assoc, Hd, Hdrain. cbn [fst snd app].
      assert ((if decide (s = Frame.Request) then sk1 + n else sk1) =
        (if decide (s = Frame.Request) then sk + (k + n) else sk)) as ->.
      { unfold sk1. case_decide; lia. }
      done.
Qed.

(** The items behind a sequence of atoms that begins with whole frames. *)
Lemma output_skipped ks items rest :
  output items = map SkippedFrame ks ++ rest →
  ∃ items', items = map Skipped ks ++ items' ∧ output items' = rest.
Proof.
  revert items; induction ks as [|k ks IH]; intros items Hout; [by exists items|].
  destruct items as [|i items]; [done|]. unfold output in Hout. cbn [map concat app] in Hout.
  destruct i as [[|x l]|f|k']; cbn in Hout; try discriminate. injection Hout as -> Hout.
  destruct (IH items Hout) as (items' & -> & Hr). by exists items'.
Qed.

Lemma output_frame f items rest :
  output items = WholeFrame f :: rest → ∃ items', items = FrameItem f :: items'.
Proof.
  destruct items as [|i items]; [done|]. unfold output. cbn [map concat].
  destruct i as [[|x l]|f'|k']; cbn; try discriminate. intros [= -> _]. eauto.
Qed.

Section Reading.
Context {QuinnError : Type}
  (peer_error : @quinn_ConnectionError QuinnError → @quinn_ConnectionError QuinnError).

(** What the first item that is not skipped makes of a request stream. *)
Definition first_verdict (i : Item) : option (result bytes (@Frame.Error QuinnError)) :=
  match i with
  | FrameItem (Headers block) => Some (Ok block)
  | _ => Some (Err (Protocol (connection_violation H3_FRAME_UNEXPECTED
           "a request stream that does not begin with HEADERS")))
  end.

Definition not_skipped (i : Item) : Prop := match i with Skipped _ => False | _ => True end.

Lemma read_block_unfold x :
  run (read_block_step peer_error) x =
  match read_block_step peer_error x with
  | inl y => run (read_block_step peer_error) y
  | inr r => r
  end.
Proof. apply run_unfold. Qed.

(** The items of one chunk, before the reader asks for the next. *)
Lemma read_block_drain ev d h items out :
  drain_all next_item (d, h) = (items, out) →
  (∀ ks i more, items = map Skipped ks ++ i :: more → not_skipped i →
     ∃ x', run (read_block_step peer_error) (mkReader ev d false, h) = (x', first_verdict i)) ∧
  (∀ ks y, items = map Skipped ks → out = Ok y →
     run (read_block_step peer_error) (mkReader ev d false, h) =
     run (read_block_step peer_error) (mkReader ev y.1 false, y.2)).
Proof.
  revert items out. remember (d, h) as x eqn:Ex. revert d h Ex.
  induction x as [x IH] using (induction_ltof1 _ frame_size).
  intros d h -> items out Hdrain.
  pose proof (drain_items_ready (d, h)) as Hready. rewrite Hdrain in Hready.
  rewrite drain_all_unfold in Hdrain.
  assert (reader_next peer_error (mkReader ev d false) h = reader_next_on peer_error ev d h false)
    as Hdef by done.
  destruct (next_item (d, h)) as [[d1 h1] [[i|]|v]] eqn:En.
  - destruct (drain_all next_item (d1, h1)) as [items1 out1] eqn:Ed. injection Hdrain as <- <-.
    assert (reader_next peer_error (mkReader ev d false) h =
      (mkReader ev d1 false, h1, Ready (Ok (Some i)))) as Hnext.
    { rewrite Hdef. destruct ev; cbn [reader_next_on]; by rewrite En. }
    pose proof (next_item_shrinks _ _ _ En) as Hlt.
    destruct (IH (d1, h1) Hlt d1 h1 eq_refl _ _ Ed) as [IH1 IH2]. cbn [snd]. split.
    + intros ks i' more Heq Hns. destruct ks as [|k ks]; cbn [map app] in Heq.
      * injection Heq as -> <-. eexists. rewrite read_block_unfold. unfold read_block_step.
        cbn [fst snd]. rewrite Hnext. destruct i' as [b|f|k]; [done| |done].
        by destruct f.
      * injection Heq as -> Heq. destruct (IH1 ks i' more Heq Hns) as [x' Hx'].
        exists x'. rewrite read_block_unfold. unfold read_block_step at 1. cbn [fst snd].
        by rewrite Hnext.
    + intros ks y Heq Hout. destruct ks as [|k ks]; cbn [map] in Heq; [done|].
      injection Heq as -> Heq. rewrite read_block_unfold. unfold read_block_step at 1.
      cbn [fst snd]. rewrite Hnext. by apply (IH2 ks y).
  - injection Hdrain as <- <-. split; [intros ks ? ? Heq; by destruct ks|].
    intros ks y _ [= <-]. destruct (Hready (d1, h1) eq_refl) as [Hr _]. cbn [fst snd].
    rewrite (read_block_unfold (mkReader ev d false, h)),
      (read_block_unfold (mkReader ev d1 false, h1)).
    assert (reader_next peer_error (mkReader ev d false) h =
      reader_next peer_error (mkReader ev d1 false) h1) as Heq by (by apply reader_next_none).
    unfold read_block_step at 1 3. cbn [fst snd]. by rewrite Heq.
  - injection Hdrain as <- <-. split; [intros ks ? ? Heq; by destruct ks|by intros].
Qed.

Lemma skipped_prefix items1 l ks i more :
  items1 ++ l = map Skipped ks ++ i :: more →
  (∃ more', items1 = map Skipped ks ++ i :: more') ∨
  (∃ ks1 ks2, ks = ks1 ++ ks2 ∧ items1 = map Skipped ks1 ∧ l = map Skipped ks2 ++ i :: more).
Proof.
  revert ks; induction items1 as [|j items1 IH]; intros ks Heq.
  { right. by exists [], ks. }
  destruct ks as [|k ks]; cbn [map app] in Heq; injection Heq as -> Heq.
  - left. by exists items1.
  - destruct (IH ks Heq) as [[more' ->]|(ks1 & ks2 & -> & -> & ->)].
    + left. by exists more'.
    + right. by exists (k :: ks1), ks2.
Qed.

Lemma read_block_feed chunks ev d h ks i more :
  frame_ready (d, h) → (feed (d, h) chunks).1 = map Skipped ks ++ i :: more → not_skipped i →
  ∃ x', run (read_block_step peer_error) (mkReader (map ChunkRead chunks ++ ev) d false, h) =
    (x', first_verdict i).
Proof.
  revert d h ks. induction chunks as [|c chunks IH]; intros d h ks Hr Hfeed Hns.
  { cbn in Hfeed. by destruct ks. }
  assert (next_item (d, h) = ((d, h), Ok None)) as Hn.
  { unfold next_item. rewrite run_unfold. by rewrite Hr. }
  assert (run (read_block_step peer_error)
      (mkReader (map ChunkRead (c :: chunks) ++ ev) d false, h) =
    run (read_block_step peer_error)
      (mkReader (map ChunkRead chunks ++ ev) (push_bytes d c) false, h)) as ->.
  { rewrite (read_block_unfold (mkReader (map ChunkRead (c :: chunks) ++ ev) d false, h)),
      (read_block_unfold (mkReader (map ChunkRead chunks ++ ev) (push_bytes d c) false, h)).
    assert (reader_next peer_error (mkReader (map ChunkRead (c :: chunks) ++ ev) d false) h =
      reader_next peer_error (mkReader (map ChunkRead chunks ++ ev) (push_bytes d c) false) h) as Heq.
    { unfold reader_next at 1. cbn [recv decoder finished reader_next_on map app]. by rewrite Hn. }
    unfold read_block_step at 1 3. cbn [fst snd]. by rewrite Heq. }
  cbn [feed] in Hfeed.
  change (drain (push (d, h) c)) with (drain_all next_item (push_bytes d c, h)) in Hfeed.
  pose proof (drain_items_ready (push_bytes d c, h)) as Hready.
  destruct (drain_all next_item (push_bytes d c, h)) as [items1 out1] eqn:Ed.
  destruct (read_block_drain (map ChunkRead chunks ++ ev) _ _ _ _ Ed) as [Hhit Hmiss].
  destruct out1 as [[d1 h1]|v]; cbn [then_drain] in Hfeed.
  - destruct (feed (d1, h1) chunks) as [items2 out2] eqn:Ef. cbn [fst] in Hfeed.
    apply skipped_prefix in Hfeed as [[more' ->]|(ks1 & ks2 & -> & -> & ->)].
    + by apply (Hhit ks i more').
    + rewrite (Hmiss ks1 (d1, h1)) by done. cbn [fst snd].
      apply (IH d1 h1 ks2); [by apply Hready|by rewrite Ef|done].
  - cbn [fst] in Hfeed. by apply (Hhit ks i more).
Qed.

(** What a field block means. *)
Definition meaning (block : bytes) : result Request (@Frame.Error QuinnError) :=
  match (let? section := Qpack.decode block MAX_FIELD_SECTION_SIZE in build_request section) with
  | Ok request => Ok request
  | Err v => Err (Protocol v)
  end.

Lemma read_request_wire chunks ev held prefix ks n block w tail :
  0 ≤ held → held + MAX_BUFFERED_FRAME ≤ HEADERS_BUFFER_BUDGET →
  frame_sequence Frame.Request prefix (map SkippedFrame ks) n → n ≤ MAX_SKIPPED_FRAMES →
  frame_wire HEADERS block w → blen block ≤ MAX_BUFFERED_FRAME →
  concat chunks = prefix ++ w ++ tail →
  ∃ x', read_request peer_error
      (mkReader (map ChunkRead chunks ++ ev) (Frame.new Frame.Request) false, held) =
    (x', Some (meaning block)).
Proof.
  intros Hh Hb Hpre Hn Hw Hblock Hc.
  assert (ready (Frame.new Frame.Request, held)) as Hr by done.
  destruct (feed_concat (Frame.new Frame.Request, held) chunks Hr) as [Hout _]. cbn in Hout.
  change (push_bytes (Frame.new Frame.Request) (concat chunks))
    with (idle Frame.Request (concat chunks) 0) in Hout. rewrite Hc in Hout.
  destruct (drain_sequence_prefix _ _ _ _ 0 held (w ++ tail) Hpre) as (items & Hitems & Hd);
    [done|done|lia|intros; lia|].
  cbn zeta in Hd. rewrite decide_True in Hd by done.
  assert (frame_event Frame.Request HEADERS block [WholeFrame (Headers block)] 0) as Hev.
  { apply (event_frame _ _ _ KHeaders); done. }
  pose proof (frame_sequence_skips _ _ _ _ Hpre).
  destruct (drain_one_frame Frame.Request HEADERS block w _ 0 tail (0 + n) held Hw Hev)
    as (i & Hi & Hd1); [done|done|lia|intros; lia|].
  rewrite Hd, Hd1 in Hout. cbn [fst] in Hout.
  assert (output (feed (Frame.new Frame.Request, held) chunks).1 =
    map SkippedFrame ks ++ WholeFrame (Headers block) ::
      output (drain_all next_item (idle Frame.Request tail
        (if decide (Frame.Request = Frame.Request) then 0 + n + 0 else 0 + n), held)).1) as Hall.
  { etrans; [exact Hout|]. rewrite output_app, Hitems. f_equal.
    match goal with |- output (i :: ?l) = _ => change (i :: l) with ([i] ++ l) end.
    by rewrite output_app, Hi. }
  apply output_skipped in Hall as (items' & Hfeed & Hrest).
  apply output_frame in Hrest as (items'' & ->).
  destruct (read_block_feed chunks ev (Frame.new Frame.Request) held ks
    (FrameItem (Headers block)) items'' eq_refl Hfeed I) as [x' Hx'].
  exists x'. unfold read_request. rewrite Hx'. reflexivity.
Qed.

(** C25: from the wire to the request.  A request stream whose bytes are any number
    of frames of unknown type (up to the limit on them) and then a HEADERS frame,
    in whatever chunks the bytes arrive and whatever follows, reads as the
    request that QPACK and the request builder make of that frame's block, or as
    the violation they find in it. *)
Theorem request_from_wire chunks ev held prefix ks n block w tail :
  0 ≤ held → held + MAX_BUFFERED_FRAME ≤ HEADERS_BUFFER_BUDGET →
  frame_sequence Frame.Request prefix (map SkippedFrame ks) n → n ≤ MAX_SKIPPED_FRAMES →
  frame_wire HEADERS block w → blen block ≤ MAX_BUFFERED_FRAME →
  concat chunks = prefix ++ w ++ tail →
  ∃ x', read_request peer_error
      (mkReader (map ChunkRead chunks ++ ev) (Frame.new Frame.Request) false, held) =
    (x', Some (meaning block)).
Proof. apply read_request_wire. Qed.
End Reading.

Lemma request_from_wire_witness :
  ∃ x' r, read_request (QuinnError := unit) (λ e, e)
      (mkReader [ChunkRead (map as_u8 [0x21; 0; 1]); ChunkRead (map as_u8 [0x06; 0; 0; 0xcf]);
                 ChunkRead (map as_u8 [0x50; 1; 0x61])] (Frame.new Frame.Request) false, 0) =
    (x', Some (Ok r)) ∧ authority r = Some (lit "a").
Proof.
  destruct (request_from_wire (QuinnError := unit) (λ e, e)
    [map as_u8 [0x21; 0; 1]; map as_u8 [0x06; 0; 0; 0xcf]; map as_u8 [0x50; 1; 0x61]] [] 0
    (map as_u8 [0x21; 0]) [0x21] 1 (map as_u8 [0; 0; 0xcf; 0x50; 1; 0x61])
    (map as_u8 [1; 6; 0; 0; 0xcf; 0x50; 1; 0x61]) []) as [x' Hx'];
    [lia|vm_compute; discriminate| |vm_compute; discriminate| |vm_compute; discriminate|reflexivity|].
  - apply (frame_sequence_cons _ 0x21 [] (map as_u8 [0x21; 0]) [SkippedFrame 0x21] 1 [] [] 0).
    + apply (frame_wire_intro 0x21 [] [as_u8 0x21] [as_u8 0]); reflexivity.
    + apply event_skipped; [apply (bool_decide_unpack _); vm_compute; exact I|discriminate|reflexivity].
    + constructor.
  - apply (frame_wire_intro HEADERS _ [as_u8 1] [as_u8 6]); reflexivity.
  - exists x'. eexists. split; [exact Hx'|reflexivity].
Defined.

(** ** Responses *)

(** The field section of a response. *)
Definition response_section (status : Status) (fields : Fields) : list Field :=
  mkField (lit ":status") status :: map (λ f, mkField f.1 f.2) fields.

(** A response on the wire.  The HEADERS frame written for a status and its
    fields is read by a client, in whatever chunks it arrives, as one HEADERS
    frame whose block decodes to :status first and then exactly those fields in
    order, provided the section is within the advertised limit. *)
Theorem response_roundtrip status fields chunks w held :
  valid_utf8 status = true →
  section_size (response_section status fields)
    ≤ MAX_FIELD_SECTION_SIZE →
  0 ≤ held ≤ HEADERS_BUFFER_BUDGET - MAX_BUFFERED_FRAME →
  response_frame status fields = Some w → concat chunks = w →
  blen w ≤ MAX_BUFFERED_FRAME →
  ∃ items d block, feed (Frame.new Frame.Request, held) chunks = (items, Ok (d, held)) ∧
    items = [FrameItem (Headers block)] ∧ at_frame_boundary d = true ∧
    Qpack.decode block MAX_FIELD_SECTION_SIZE =
      Ok (response_section status fields).
Proof.
  intros Hv Hsize Hh Hw Hc Hlen. unfold response_section in *. unfold response_frame, status_as_str, from_utf8 in Hw.
  rewrite Hv in Hw. cbn [mbind option_bind] in Hw.
  set (fs := mkField (lit ":status") status :: map (λ f, mkField f.1 f.2) fields) in *.
  set (block := Qpack.encode [] fs) in *.
  destruct (put_header [] HEADERS (blen block)) as [header|] eqn:Eh; [|done].
  cbn [mbind option_bind] in Hw. assert (w = header ++ block) as Hw' by congruence. clear Hw.
  assert (0 ≤ blen block ≤ MAX_BUFFERED_FRAME) as Hbl.
  { rewrite Hw', blen_app in Hlen. pose proof (blen_nonneg header). pose proof (blen_nonneg block). lia. }
  change MAX_BUFFERED_FRAME with 65536 in *. change HEADERS_BUFFER_BUDGET with 1048576 in *.
  assert (0 ≤ HEADERS ≤ VARINT_MAX ∧ 0 ≤ blen block ≤ VARINT_MAX) as [Hr1 Hr2].
  { change HEADERS with 1. change VARINT_MAX with (2 ^ 62 - 1). lia. }
  rewrite put_header_eq in Eh by done. rewrite app_nil_l in Eh.
  assert (header = varint_bytes HEADERS ++ varint_bytes (blen block)) as -> by congruence.
  assert (frame_sequence Frame.Request (concat chunks) ([WholeFrame (Headers block)] ++ []) (0 + 0))
    as Hseq.
  { rewrite Hc, Hw', <- (app_nil_r (_ ++ block)).
    apply (frame_sequence_cons _ HEADERS block).
    - rewrite <- app_assoc. by apply frame_wire_intro; apply is_varint_bytes.
    - apply (event_frame _ _ _ KHeaders); [done|done| |done].
      change MAX_BUFFERED_FRAME with 65536. lia.
    - constructor. }
  assert (ready (Frame.new Frame.Request, held)) as Hr by done.
  destruct (feed_concat (Frame.new Frame.Request, held) chunks Hr) as [H1 H2]. cbn in H1, H2.
  change (push_bytes (Frame.new Frame.Request) (concat chunks))
    with (idle Frame.Request (concat chunks) 0) in H1, H2.
  destruct (drain_frame_sequence _ _ _ _ 0 held Hseq) as [H3 H4];
    [lia|change MAX_BUFFERED_FRAME with 65536; change HEADERS_BUFFER_BUDGET with 1048576; lia|lia
    |intros; change MAX_SKIPPED_FRAMES with 4096; lia|].
  rewrite H4 in H2. destruct (feed _ _) as [items r]. cbn in H1, H2. subst r.
  assert (output items = [WholeFrame (Headers block)]) as Hout by (etrans; [exact H1|exact H3]).
  pose proof Hout as Hout'. apply output_frame in Hout' as (items' & ->).
  assert (items' = []) as ->.
  { unfold output in Hout. cbn in Hout. injection Hout as Hout.
    destruct items' as [|[[|x l]|f|k] items']; [done|discriminate..]. }
  eexists _, _, block. split; [reflexivity|]. split; [done|]. split; [done|].
  apply qpack_decode_encode. change MAX_FIELD_SECTION_SIZE with 65536 in *.
  change u64_max with (2 ^ 64 - 1). lia.
Qed.

Lemma response_roundtrip_witness :
  ∃ w items d block,
    response_frame PROXY_AUTHENTICATION_REQUIRED [(lit "proxy-authenticate", lit "Basic realm=x")]
      = Some w ∧
    feed (Frame.new Frame.Request, 0) [w] = (items, Ok (d, 0)) ∧
    items = [FrameItem (Headers block)] ∧ at_frame_boundary d = true ∧
    Qpack.decode block MAX_FIELD_SECTION_SIZE =
      Ok [mkField (lit ":status") (lit "407");
          mkField (lit "proxy-authenticate") (lit "Basic realm=x")].
Proof.
  destruct (response_frame PROXY_AUTHENTICATION_REQUIRED
    [(lit "proxy-authenticate", lit "Basic realm=x")]) as [w|] eqn:E;
    [|vm_compute in E; discriminate].
  exists w.
  destruct (response_roundtrip PROXY_AUTHENTICATION_REQUIRED
    [(lit "proxy-authenticate", lit "Basic realm=x")] [w] w 0) as (items & d & block & H);
    [reflexivity|vm_compute; discriminate|vm_compute; split; discriminate|exact E|apply app_nil_r| |].
  - vm_compute in E. injection E as <-. vm_compute. discriminate.
  - exists items, d, block. split; [reflexivity|exact H].
Defined.

(** ** The tunnel *)

Section Tunnel.
Context {QuinnError : Type}
  (peer_error : @quinn_ConnectionError QuinnError → @quinn_ConnectionError QuinnError).

(** The calls of [recv_data] until it returns something other than data. *)
Inductive relays : @FrameReader QuinnError * Z * Shared → list bytes →
    option (result (option bytes) (@StreamError QuinnError)) → Prop :=
  | relays_end x x' effects o :
      recv_data peer_error x = (x', effects, o) → (∀ b, o ≠ Some (Ok (Some b))) → relays x [] o
  | relays_chunk x x1 effects b pieces o :
      recv_data peer_error x = (x1, effects, Some (Ok (Some b))) → relays x1 pieces o →
      relays x (b :: pieces) o.

(** The non-empty pieces of DATA among the items, and nothing else in them but
    frames that are skipped. *)
Definition pieces (items : list Item) : list bytes :=
  omap (λ i, match i with Data (x :: l) => Some (x :: l) | _ => None end) items.

Definition tunnel_item (i : Item) : Prop := match i with FrameItem _ => False | _ => True end.

Lemma relays_congr x y l o :
  recv_data peer_error x = recv_data peer_error y → relays y l o → relays x l o.
Proof.
  intros Heq Hr. destruct Hr as [? ? ? ? H|? ? ? ? ? ? H Hr]; rewrite <- Heq in H;
    [by eapply relays_end|by eapply relays_chunk].
Qed.

Lemma relays_reads r h items r' h' s :
  reads peer_error r h items r' h' (Ready (Ok None)) → Forall tunnel_item items →
  relays (r, h, s) (pieces items) (Some (Ok None)).
Proof.
  intros Hreads Hitems. remember (Ready (Ok None)) as o eqn:Ho. revert Ho.
  induction Hreads as [r h r' h' o Hnext _|r h r1 h1 i items r' h' o Hnext Hreads IH]; intros ->.
  - eapply relays_end; [|by intros]. unfold recv_data. rewrite run_unfold.
    unfold recv_data_step at 1. rewrite Hnext. reflexivity.
  - apply Forall_cons in Hitems as [Hi Hitems]. specialize (IH Hitems eq_refl).
    destruct i as [[|x l]|f|k]; [| |done|].
    + eapply relays_congr; [|exact IH]. unfold recv_data at 1. rewrite run_unfold.
      unfold recv_data_step at 1. rewrite Hnext. reflexivity.
    + change (pieces (Data (x :: l) :: items)) with ((x :: l) :: pieces items).
      eapply relays_chunk; [|exact IH]. unfold recv_data. rewrite run_unfold.
      unfold recv_data_step at 1. rewrite Hnext. reflexivity.
    + eapply relays_congr; [|exact IH]. unfold recv_data at 1. rewrite run_unfold.
      unfold recv_data_step at 1. rewrite Hnext. reflexivity.
Qed.

(** The bytes of the atoms, and of the pieces. *)
Definition atom_byte (a : Atom) : option byte :=
  match a with DataByte x => Some x | _ => None end.

Lemma concat_pieces items : concat (pieces items) = omap atom_byte (output items).
Proof.
  unfold output. induction items as [|i items IH]; [done|]. cbn [map concat].
  rewrite omap_app, <- IH. destruct i as [[|x l]|f|k]; try done.
  change (pieces (Data (x :: l) :: items)) with ((x :: l) :: pieces items). cbn [concat].
  f_equal. cbn [atoms]. clear. induction (x :: l) as [|y t IH]; [done|]. cbn. by f_equal.
Qed.

Lemma pieces_nonempty items : Forall (λ b, b ≠ []) (pieces items).
Proof.
  induction items as [|i items IH]; [constructor|].
  destruct i as [[|x l]|f|k]; try done. by constructor.
Qed.

Lemma tunnel_items items :
  Forall (λ a, match a with WholeFrame _ => False | _ => True end) (output items) →
  Forall tunnel_item items.
Proof.
  unfold output. induction items as [|i items IH]; [constructor|]. cbn [map concat].
  rewrite Forall_app. intros [Hi Hrest]. constructor; [|by apply IH].
  destruct i as [[|x l]|f|k]; try done. by apply Forall_cons in Hi as [? _].
Qed.

(** The DATA frames of a list of writes, as the peer sends them. *)
Inductive data_frames : list bytes → bytes → Prop :=
  | data_frames_nil : data_frames [] []
  | data_frames_cons d w ds ws :
      send_data d = Some w → blen d ≤ VARINT_MAX → data_frames ds ws →
      data_frames (d :: ds) (w ++ ws).

Lemma data_frames_sequence ds ws :
  data_frames ds ws → ∃ outs, frame_sequence Tunnel ws outs 0 ∧
    omap atom_byte outs = concat ds ∧
    Forall (λ a, match a with WholeFrame _ => False | _ => True end) outs.
Proof.
  induction 1 as [|d w ds ws Hw Hd _ (outs & Hseq & Hb & Hf)].
  { exists []. split; [constructor|]. split; [done|constructor]. }
  unfold send_data in Hw. pose proof (blen_nonneg d).
  rewrite put_header_eq in Hw by (done || (change DATA with 0; change VARINT_MAX with (2^62-1); lia)).
  cbn [mbind option_bind] in Hw. rewrite app_nil_l in Hw.
  assert (w = varint_bytes DATA ++ varint_bytes (blen d) ++ d) as -> by (rewrite app_assoc; congruence).
  assert (frame_wire DATA d (varint_bytes DATA ++ varint_bytes (blen d) ++ d)) as Hwire.
  { apply frame_wire_intro; apply is_varint_bytes; [|done].
    change DATA with 0. change VARINT_MAX with (2 ^ 62 - 1). lia. }
  destruct (decide (d = [])) as [->|Hne].
  - exists ([EmptyData] ++ outs). split; [|split; [done|by constructor]].
    apply (frame_sequence_cons _ DATA [] _ [EmptyData] 0 ws outs 0); [done| |done].
    by apply event_empty_data.
  - exists (map DataByte d ++ outs). split; [|split].
    + apply (frame_sequence_cons _ DATA d _ (map DataByte d) 0 ws outs 0); [done| |done].
      by apply event_data.
    + rewrite omap_app, Hb. cbn [concat]. f_equal. clear. induction d; [done|]. cbn. by f_equal.
    + apply Forall_app_2; [|done]. apply Forall_fmap, Forall_true. by intros x.
Qed.

(** A tunnel carries bytes.  Whatever the peer writes into its side of a tunnel,
    in whatever DATA frames (empty ones included) and whatever chunks QUIC
    delivers them in, the reading half hands on exactly those bytes in order, in
    non-empty pieces, and then reports the end of the stream. *)
Theorem tunnel_bytes ds wire chunks rest s held :
  0 ≤ held → held + MAX_BUFFERED_FRAME ≤ HEADERS_BUFFER_BUDGET →
  data_frames ds wire → concat chunks = wire →
  ∃ l, relays (split (mkReader (map ChunkRead chunks ++ Finished :: rest)
                        (Frame.new Frame.Request) false), held, s) l (Some (Ok None)) ∧
    concat l = concat ds ∧ Forall (λ b, b ≠ []) l.
Proof.
  intros Hh Hb Hdata Hc. apply data_frames_sequence in Hdata as (outs & Hseq & Hbytes & Hf).
  rewrite <- Hc in Hseq.
  change (split _) with (mkReader (map ChunkRead chunks ++ Finished :: rest)
    (Frame.new Tunnel) false).
  assert (ready (Frame.new Tunnel, held)) as Hr by done.
  destruct (feed_concat (Frame.new Tunnel, held) chunks Hr) as [H1 H2]. cbn in H1, H2.
  change (push_bytes (Frame.new Tunnel) (concat chunks))
    with (idle Tunnel (concat chunks) 0) in H1, H2.
  destruct (drain_frame_sequence _ _ _ _ 0 held Hseq) as [H3 H4]; [lia|lia|lia|done|].
  rewrite H4 in H2.
  destruct (reads_feed peer_error chunks rest (Frame.new Tunnel, held) eq_refl)
    as (r' & h' & Hreads).
  rewrite H2 in Hreads. cbn [fst snd end_outcome] in Hreads.
  change (at_frame_boundary _) with true in Hreads. cbn [fst snd] in Hreads.
  assert (output (feed (Frame.new Tunnel, held) chunks).1 = outs) as Hout
    by (etrans; [exact H1|exact H3]).
  exists (pieces (feed (Frame.new Tunnel, held) chunks).1). split; [|split].
  - eapply relays_reads; [exact Hreads|]. apply tunnel_items. by rewrite Hout.
  - by rewrite concat_pieces, Hout.
  - apply pieces_nonempty.
Qed.
End Tunnel.

Lemma tunnel_bytes_witness :
  ∃ l, relays (QuinnError := unit) (λ e, e)
      (split (mkReader [ChunkRead (map as_u8 [0; 2; 5]); ChunkRead (map as_u8 [6; 0; 0]); Finished]
                (Frame.new Frame.Request) false), 0, shared_default 0) l (Some (Ok None)) ∧
    concat l = map as_u8 [5; 6] ∧ Forall (λ b, b ≠ []) l.
Proof.
  apply (tunnel_bytes (QuinnError := unit) (λ e, e) [map as_u8 [5; 6]; []]
    (map as_u8 [0; 2; 5; 6; 0; 0]) [map as_u8 [0; 2; 5]; map as_u8 [6; 0; 0]] []);
    [lia|vm_compute; discriminate| |reflexivity].
  apply (data_frames_cons (map as_u8 [5; 6]) (map as_u8 [0; 2; 5; 6]) [[]] (map as_u8 [0; 0]));
    [reflexivity|vm_compute; discriminate|].
  apply (data_frames_cons [] (map as_u8 [0; 0]) [] []);
    [reflexivity|vm_compute; discriminate|constructor].
Defined.
