(* ===== verification/Tokio.v ===== *)
(** * tokio's primitives

    The synchronisation primitives the server takes from tokio, as interfaces with
    what their documentation promises as laws.  The theorems of the files that use
    them ([Quota], [Net], [Shutdown]) hold of every implementation; the instances at the end
    are used by their witnesses. *)

From S2P Require Import Prelude.

#[local] Open Scope Z_scope.

(** [tokio::sync::Semaphore] with owned permits: [try_acquire_owned] takes a permit
    unless none is available, and dropping one adds it back. *)
Class Semaphore (M : Type) := {
  semaphore_new : Z → M;
  available_permits : M → Z;
  try_acquire : M → option M;
  release_permit : M → M;
  available_new n : 0 ≤ n → available_permits (semaphore_new n) = n;
  try_acquire_some s s' : try_acquire s = Some s' → available_permits s' = available_permits s - 1;
  try_acquire_none s : try_acquire s = None ↔ available_permits s = 0;
  release_available s : available_permits (release_permit s) = available_permits s + 1;
}.

(** [tokio::sync::Notify] with its one waiter.  [stored] and [waiting] are what its
    documentation speaks of: a stored permit, and a task parked on [notified()].
    [notify_one] wakes the waiter, or leaves a permit for the next one; polling
    [notified()] takes the permit, or parks; dropping it forgets a parked waiter,
    and hands on the notification of one that was notified and never polled. *)
Class Notify (N : Type) := {
  notify_new : N;
  notify_one : N → N;
  poll_notified : N → N * bool;
  drop_notified : N → bool → N;
  stored : N → bool;
  waiting : N → bool;
  notify_new_law : stored notify_new = false ∧ waiting notify_new = false;
  notify_one_law n :
    waiting (notify_one n) = false ∧
    stored (notify_one n) = (if waiting n then stored n else true);
  poll_law n :
    (poll_notified n).2 = stored n ∧ stored (poll_notified n).1 = false ∧
    waiting (poll_notified n).1 = (if stored n then waiting n else true);
  drop_parked_law n :
    waiting (drop_notified n false) = false ∧ stored (drop_notified n false) = stored n;
  drop_notified_law n :
    waiting n = false →
    waiting (drop_notified n true) = false ∧ stored (drop_notified n true) = true;
}.

(** [tokio::sync::watch] of a flag, with its receivers numbered and at least one of
    them alive, so that a send never fails.  [watch_unseen] says that the value was sent
    after the receiver last marked it as seen, [watch_closed] that every sender is gone.
    Sending makes the value unseen for every receiver, marking it concerns one
    receiver, and a cloned receiver has seen what the original had. *)
Class Watch (W : Type) := {
  watch_channel : bool → W;
  watch_send : bool → W → W;
  watch_mark_seen : nat → W → W;
  watch_clone : nat → nat → W → W;
  watch_drop_senders : W → W;
  watch_value : W → bool;
  watch_unseen : W → nat → bool;
  watch_closed : W → bool;
  channel_law b :
    watch_value (watch_channel b) = b ∧ watch_closed (watch_channel b) = false ∧
    ∀ i, watch_unseen (watch_channel b) i = false;
  send_law b w :
    watch_value (watch_send b w) = b ∧ watch_closed (watch_send b w) = watch_closed w ∧
    ∀ i, watch_unseen (watch_send b w) i = true;
  mark_seen_law i w :
    watch_value (watch_mark_seen i w) = watch_value w ∧ watch_closed (watch_mark_seen i w) = watch_closed w ∧
    ∀ j, watch_unseen (watch_mark_seen i w) j = if (j =? i)%nat then false else watch_unseen w j;
  clone_law i j w :
    watch_value (watch_clone i j w) = watch_value w ∧ watch_closed (watch_clone i j w) = watch_closed w ∧
    ∀ k, watch_unseen (watch_clone i j w) k = if (k =? j)%nat then watch_unseen w i else watch_unseen w k;
  drop_senders_law w :
    watch_value (watch_drop_senders w) = watch_value w ∧ watch_closed (watch_drop_senders w) = true ∧
    ∀ i, watch_unseen (watch_drop_senders w) i = watch_unseen w i;
}.

(** ** An implementation of the interfaces, for the witnesses *)

Definition counting_semaphore : Semaphore Z.
Proof.
  refine {| semaphore_new n := n; available_permits n := n;
            try_acquire n := if n =? 0 then None else Some (n - 1);
            release_permit n := n + 1 |}; try done.
  - intros s s'. destruct (Z.eqb_spec s 0); [done|]. by intros [= <-].
  - intros s. by destruct (Z.eqb_spec s 0).
Defined.

(** A stored permit, and whether a task is parked. *)
Definition flag_notify : Notify (bool * bool).
Proof.
  refine {| notify_new := (false, false);
            notify_one n := if n.2 then (n.1, false) else (true, false);
            poll_notified n := if n.1 then ((false, n.2), true) else ((false, true), false);
            drop_notified n notified := (notified || n.1, false);
            stored n := n.1; waiting n := n.2 |}; by repeat intros [[] []] || split.
Defined.

(** The value, the receivers that have not seen it, and whether the senders are gone. *)
Record FlagWatch := mkFlagWatch { flag_value : bool; flag_unseen : nat → bool; flag_closed : bool }.

Definition flag_watch : Watch FlagWatch.
Proof.
  refine {| watch_channel b := mkFlagWatch b (λ _, false) false;
            watch_send b w := mkFlagWatch b (λ _, true) (flag_closed w);
            watch_mark_seen i w :=
              mkFlagWatch (flag_value w) (λ j, if (j =? i)%nat then false else flag_unseen w j) (flag_closed w);
            watch_clone i j w :=
              mkFlagWatch (flag_value w) (λ k, if (k =? j)%nat then flag_unseen w i else flag_unseen w k)
                (flag_closed w);
            watch_drop_senders w := mkFlagWatch (flag_value w) (flag_unseen w) true;
            watch_value := flag_value; watch_unseen := flag_unseen; watch_closed := flag_closed |}; done.
Defined.
