(* ===== verification/Quota.v ===== *)
(** * The tunnel quota and its drain (src/src/tunnel/quota.rs)

    The semaphore that rations tunnels, the count of requests being served, and
    the notification the graceful-shutdown drain waits on.  The guards' [Drop]s
    are two steps each (give back, then announce), and so is [is_busy] (two
    loads), because the tasks of a connection run on several threads and the
    drain can look in between.  The drain is one arm of a [select!], so it can
    also be dropped wherever it is suspended, and called again.

    tokio's semaphore and its [Notify] are interfaces, [Semaphore] and [Notify],
    with what their documentation promises as laws; the theorems hold of every
    implementation, and the witnesses run one. *)

From stdpp Require Import relations.
From S2P Require Import Prelude Tokio.

#[local] Open Scope Z_scope.

(** ** The quota *)

Record Quota (M N : Type) := mkQuota {
  permits : M;
  limit : Z;
  pending : Z;
  idle : N;
}.
Arguments mkQuota {M N}.
Arguments permits {M N}.
Arguments limit {M N}.
Arguments pending {M N}.
Arguments idle {M N}.

(** Where [wait_until_idle] is: not called, or dropped by the [select!] that polls
    it; at the first load of [is_busy]; at the second; about to poll the
    notification; parked on it; notified and not polled since; or returned. *)
Inductive Drain := Absent | CheckLive | CheckPending | Awaiting | Parked | Woken | Idle.

#[export] Instance Drain_eq_dec : EqDecision Drain.
Proof. solve_decision. Defined.

(** The quota and those who hold its guards: tasks holding a [Pending] alone, tasks
    holding a [Pending] and a [Slot], tasks whose [Slot] has given its permit back
    and not announced it, and tasks whose [Pending] has been counted off and not
    announced. *)
Record Sys (M N : Type) := mkSys {
  quota : Quota M N;
  entered : nat;
  slotted : nat;
  slot_announcing : nat;
  pending_announcing : nat;
  drain : Drain;
}.
Arguments mkSys {M N}.
Arguments quota {M N}.
Arguments entered {M N}.
Arguments slotted {M N}.
Arguments slot_announcing {M N}.
Arguments pending_announcing {M N}.
Arguments drain {M N}.

Section Quotas.
Context {M N : Type} `{!Semaphore M} `{!Notify N}.
Implicit Types (q : Quota M N).

Definition quota_new (limit : Z) : Quota M N := mkQuota (semaphore_new limit) limit 0 notify_new.

(** The slot is the permit taken. *)
Definition acquire (q : Quota M N) : option (Quota M N) :=
  permits ← try_acquire (permits q);
  Some (mkQuota permits (limit q) (pending q) (idle q)).

Definition enter (q : Quota M N) : Quota M N :=
  mkQuota (permits q) (limit q) (wrap 32 (pending q + 1)) (idle q).

(** The two steps of [Slot::drop] and of [Pending::drop]. *)
Definition slot_release (q : Quota M N) : Quota M N :=
  mkQuota (release_permit (permits q)) (limit q) (pending q) (idle q).
Definition pending_release (q : Quota M N) : Quota M N :=
  mkQuota (permits q) (limit q) (wrap 32 (pending q - 1)) (idle q).
Definition announce (q : Quota M N) : Quota M N :=
  mkQuota (permits q) (limit q) (pending q) (notify_one (idle q)).

(** [u32::try_from(available_permits()).unwrap_or(limit)] off the limit. *)
Definition live (q : Quota M N) : Z :=
  let available := available_permits (permits q) in
  wrap 32 (limit q - (if available <? 2 ^ 32 then available else limit q)).

(** The two loads of [is_busy]. *)
Definition live_busy (q : Quota M N) : bool := 0 <? live q.
Definition pending_busy (q : Quota M N) : bool := 0 <? pending q.
Definition is_busy (q : Quota M N) : bool := live_busy q || pending_busy q.

Definition with_idle (q : Quota M N) (n : N) : Quota M N :=
  mkQuota (permits q) (limit q) (pending q) n.

Definition sys_new (limit : Z) : Sys M N := mkSys (quota_new limit) 0 0 0 0 Absent.

(** What a notification does to the drain. *)
Definition woken (q : Quota M N) (d : Drain) : Drain :=
  if waiting (idle q) then (if decide (d = Parked) then Woken else d) else d.

(** What the tasks and the drain do, one atomic access at a time. *)
Inductive step : Sys M N → Sys M N → Prop :=
  | step_enter q e s sa pa d :
      Z.of_nat (e + s + sa) < 2 ^ 32 - 1 →
      step (mkSys q e s sa pa d) (mkSys (enter q) (S e) s sa pa d)
  | step_acquire q q' e s sa pa d :
      acquire q = Some q' →
      step (mkSys q (S e) s sa pa d) (mkSys q' e (S s) sa pa d)
  | step_slot_release q e s sa pa d :
      step (mkSys q e (S s) sa pa d) (mkSys (slot_release q) e s (S sa) pa d)
  | step_slot_announce q e s sa pa d :
      step (mkSys q e s (S sa) pa d) (mkSys (announce q) (S e) s sa pa (woken q d))
  | step_pending_release q e s sa pa d :
      step (mkSys q (S e) s sa pa d) (mkSys (pending_release q) e s sa (S pa) d)
  | step_pending_announce q e s sa pa d :
      step (mkSys q e s sa (S pa) d) (mkSys (announce q) e s sa pa (woken q d))
  | step_drain_start q e s sa pa :
      step (mkSys q e s sa pa Absent) (mkSys q e s sa pa CheckLive)
  | step_check_live q e s sa pa :
      step (mkSys q e s sa pa CheckLive)
           (mkSys q e s sa pa (if live_busy q then Awaiting else CheckPending))
  | step_check_pending q e s sa pa :
      step (mkSys q e s sa pa CheckPending)
           (mkSys q e s sa pa (if pending_busy q then Awaiting else Idle))
  | step_await q e s sa pa :
      step (mkSys q e s sa pa Awaiting)
           (let '(n, ready) := poll_notified (idle q) in
            mkSys (with_idle q n) e s sa pa (if ready then CheckLive else Parked))
  | step_resume q e s sa pa :
      step (mkSys q e s sa pa Woken) (mkSys q e s sa pa CheckLive)
  | step_drop_parked q e s sa pa :
      step (mkSys q e s sa pa Parked)
           (mkSys (with_idle q (drop_notified (idle q) false)) e s sa pa Absent)
  | step_drop_woken q e s sa pa :
      step (mkSys q e s sa pa Woken)
           (mkSys (with_idle q (drop_notified (idle q) true)) e s sa pa Absent).

Inductive reachable (limit : Z) : Sys M N → Prop :=
  | reachable_new : reachable limit (sys_new limit)
  | reachable_step s s' : reachable limit s → step s s' → reachable limit s'.

(** ** The invariant *)

Definition announcing (x : Sys M N) : nat := slot_announcing x + pending_announcing x.

Record sys_ok (l : Z) (x : Sys M N) : Prop := {
  ok_limit : limit (quota x) = l ∧ l < 2 ^ 32;
  ok_available : available_permits (permits (quota x)) = l - Z.of_nat (slotted x);
  ok_slots : 0 ≤ available_permits (permits (quota x));
  ok_pending : pending (quota x) = Z.of_nat (entered x + slotted x + slot_announcing x);
  ok_pending_range : pending (quota x) < 2 ^ 32;
  ok_parked : waiting (idle (quota x)) = bool_decide (drain x = Parked);
  ok_awaiting : drain x = Awaiting →
    0 < pending (quota x) ∨ (0 < announcing x)%nat ∨ stored (idle (quota x)) = true;
  ok_waiting : drain x = Parked → 0 < pending (quota x) ∨ (0 < announcing x)%nat;
}.

Ltac sys := unfold announcing, with_idle in *;
  cbn [quota entered slotted slot_announcing pending_announcing drain permits limit
       pending idle] in *.

Lemma live_slotted l x : sys_ok l x → live (quota x) = Z.of_nat (slotted x).
Proof.
  intros [[H1 Hl] H2 H3 _ _ _ _ _]. unfold live. destruct (Z.ltb_spec
    (available_permits (permits (quota x))) (2 ^ 32)); [|lia].
  rewrite wrap_id; [|unfold is_uint]; lia.
Qed.

Lemma notify_woken (q : Quota M N) d :
  waiting (idle q) = bool_decide (d = Parked) →
  waiting (notify_one (idle q)) = bool_decide (woken q d = Parked).
Proof.
  intros H. destruct (notify_one_law (idle q)) as [-> _]. unfold woken. rewrite H.
  case_bool_decide as Hd; [by rewrite decide_True|by rewrite bool_decide_eq_false_2].
Qed.

(** An announcement wakes the drain or leaves it a permit, so it stops no one. *)
Lemma announce_ok l q e s sa pa d e' sa' pa' :
  sys_ok l (mkSys q e s sa pa d) →
  (e' + sa' = e + sa)%nat →
  sys_ok l (mkSys (announce q) e' s sa' pa' (woken q d)).
Proof.
  intros [H1 H2 H3 H4 H5 H6 H8 H9] Heq. unfold announce. split; sys; try done.
  - rewrite H4. lia.
  - by apply notify_woken.
  - destruct (notify_one_law (idle q)) as [_ ->]. unfold woken. rewrite H6.
    case_bool_decide as Hd; [by rewrite decide_True|auto].
  - unfold woken. rewrite H6. case_bool_decide as Hd; [by rewrite decide_True|by intros].
Qed.

Lemma step_ok l x y : sys_ok l x → step x y → sys_ok l y.
Proof.
  intros Hok Hstep. pose proof (live_slotted l x Hok) as Hlive. destruct Hstep as
    [q e s sa pa d Hlt|q q' e s sa pa d Ha|q e s sa pa d|q e s sa pa d|q e s sa pa d|q e s sa pa d
    |q e s sa pa|q e s sa pa|q e s sa pa|q e s sa pa|q e s sa pa|q e s sa pa|q e s sa pa];
    [| | |by eapply announce_ok; [exact Hok|lia]| |by eapply announce_ok; [exact Hok|lia]| | | | | | |];
    destruct Hok as [[H1 Hl] H2 H3 H4 H5 H6 H8 H9]; sys.
  - unfold enter. rewrite wrap_id by (unfold is_uint; lia).
    split; sys; try done; try lia. all: intros; left; lia.
  - unfold acquire in Ha. destruct (try_acquire (permits q)) as [p|] eqn:Ep; [|done].
    injection Ha as <-. pose proof (try_acquire_some _ _ Ep) as Hp.
    assert (available_permits (permits q) ≠ 0) by (rewrite <- try_acquire_none; congruence).
    split; sys; try done; rewrite ?Hp; lia.
  - unfold slot_release. split; sys; try done; rewrite ?release_available; lia.
  - unfold pending_release. rewrite wrap_id by (unfold is_uint; lia).
    split; sys; try done; lia.
  - split; sys; try done.
  - split; sys; try done.
    + rewrite H6. unfold live_busy. by case_match.
    + unfold live_busy. rewrite Hlive. destruct (Z.ltb_spec 0 (Z.of_nat s)); [|done].
      intros _. left. lia.
    + unfold live_busy. by case_match.
  - split; sys; try done.
    + rewrite H6. unfold pending_busy. by case_match.
    + unfold pending_busy. destruct (Z.ltb_spec 0 (pending q)); [|done]. by left.
    + unfold pending_busy. by case_match.
  - specialize (H8 eq_refl). destruct (poll_law (idle q)) as (P1 & P2 & P3).
    destruct (poll_notified (idle q)) as [n ready]. cbn [fst snd] in P1, P2, P3. subst ready.
    rewrite H6 in P3. destruct (stored (idle q)) eqn:Ep; split; sys; try done.
    intros _. destruct H8 as [?|[?|?]]; [by left|by right|done].
  - split; sys; try done.
  - split; sys; try done. by destruct (drop_parked_law (idle q)) as [-> _].
  - rewrite bool_decide_eq_false_2 in H6 by done.
    split; sys; try done. by destruct (drop_notified_law (idle q) H6) as [-> _].
Qed.

Lemma reachable_sys_ok l x : is_uint 32 l → reachable l x → sys_ok l x.
Proof.
  intros [Hl Hmax]. induction 1 as [|x y _ IH Hstep]; [|by eapply step_ok].
  unfold sys_new, quota_new. split; sys; try done; rewrite ?available_new; try lia.
  apply notify_new_law.
Qed.

(** A drain about to check, with nothing left in service, returns. *)
Lemma check_live_returns l x :
  sys_ok l x → drain x = CheckLive → (entered x + slotted x + slot_announcing x = 0)%nat →
  ∃ y, rtc step x y ∧ drain y = Idle.
Proof.
  intros Hok Hd Hn. pose proof (live_slotted l x Hok) as Hlive. destruct Hok as [_ _ _ H4 _ _ _ _].
  destruct x as [q e s sa pa d]; sys. subst d.
  assert (live_busy q = false) as Hlb by (unfold live_busy; apply Z.ltb_ge; lia).
  assert (pending_busy q = false) as Hpend by (unfold pending_busy; apply Z.ltb_ge; lia).
  exists (mkSys q e s sa pa Idle). split; [|done].
  pose proof (step_check_live q e s sa pa) as S1. rewrite Hlb in S1.
  pose proof (step_check_pending q e s sa pa) as S2. rewrite Hpend in S2.
  eapply rtc_l; [exact S1|]. by apply rtc_once.
Qed.

(** From every place in its loop, once every task has ended and announced. *)
Lemma drain_returns l x :
  sys_ok l x → (entered x + slotted x + announcing x = 0)%nat →
  ∃ y, rtc step x y ∧ drain y = Idle.
Proof.
  intros Hok Hn. pose proof Hok as [_ _ _ H4 _ _ H8 H9].
  assert (∀ y, step x y → drain y = CheckLive →
    (entered y + slotted y + slot_announcing y = 0)%nat → ∃ z, rtc step x z ∧ drain z = Idle)
    as Hagain.
  { intros y S1 Hd Hy. destruct (check_live_returns l y (step_ok _ _ _ Hok S1) Hd Hy) as (z & Hz & Hi).
    exists z. split; [by eapply rtc_l|done]. }
  destruct x as [q e s sa pa d]; sys. destruct d.
  - eapply Hagain; [apply step_drain_start|done|sys; lia].
  - eapply check_live_returns; [exact Hok|done|sys; lia].
  - assert (pending_busy q = false) as Hpend by (unfold pending_busy; apply Z.ltb_ge; lia).
    pose proof (step_check_pending q e s sa pa) as S2. rewrite Hpend in S2.
    eexists. split; [by apply rtc_once|done].
  - destruct (H8 eq_refl) as [?|[?|Hp]]; [lia|lia|].
    pose proof (step_await q e s sa pa) as S1. destruct (poll_law (idle q)) as (P1 & _ & _).
    destruct (poll_notified (idle q)) as [n ready]. cbn [snd] in P1. rewrite P1, Hp in S1.
    eapply Hagain; [exact S1|done|sys; lia].
  - destruct (H9 eq_refl); lia.
  - eapply Hagain; [apply step_resume|done|sys; lia].
  - by exists (mkSys q e s sa pa Idle).
Qed.

(** ** Properties *)

(** The ration.  However the tasks interleave, the tunnels open are never more
    than the limit, [acquire] refuses exactly at the limit, the count [live]
    reports is the number of slots held, and neither counter wraps. *)
Theorem quota_ration l x :
  is_uint 32 l → reachable l x →
  live (quota x) = Z.of_nat (slotted x) ∧ Z.of_nat (slotted x) ≤ l ∧
  (acquire (quota x) = None ↔ Z.of_nat (slotted x) = l) ∧
  pending (quota x) = Z.of_nat (entered x + slotted x + slot_announcing x).
Proof.
  intros Hl Hr. pose proof (reachable_sys_ok l x Hl Hr) as Hok.
  pose proof Hok as [_ H2 H3 H4 _ _ _ _].
  split; [by apply (live_slotted l)|]. split; [lia|]. split; [|done].
  assert (acquire (quota x) = None ↔ try_acquire (permits (quota x)) = None) as ->.
  { unfold acquire. by destruct (try_acquire _). }
  rewrite try_acquire_none. lia.
Qed.

(** C12: no wake-up is lost.  Whatever the interleaving, a drain parked in
    [wait_until_idle] always has someone left to wake it (a request still being
    served, or a guard that has given back and is about to announce); the drain
    returns only at a moment when no request is being served; and once every
    task has ended and announced, the drain, wherever in its loop it is and
    however often it was dropped and called again, goes on to return. *)
Theorem drain_no_lost_wakeup l x :
  is_uint 32 l → reachable l x →
  (drain x = Parked → (0 < entered x + slotted x + announcing x)%nat) ∧
  (∀ y, step x y → drain x ≠ Idle → drain y = Idle →
     (entered y = 0 ∧ slotted y = 0 ∧ slot_announcing y = 0)%nat) ∧
  ((entered x + slotted x + announcing x = 0)%nat →
     ∃ y, rtc step x y ∧ drain y = Idle).
Proof.
  intros Hl Hr. pose proof (reachable_sys_ok l x Hl Hr) as Hok.
  pose proof Hok as [_ _ _ H4 _ _ _ H9]. split; [|split].
  - intros Hd. destruct (H9 Hd) as [Hp|Ha]; [|lia]. unfold announcing. lia.
  - intros y Hstep Hnd Hd.
    assert (∀ q d, woken q d = Idle → d = Idle) as Hw.
    { intros q d. unfold woken. by repeat case_match. }
    destruct Hstep; sys; try done; try (by apply Hw in Hd).
    + by destruct (live_busy q).
    + unfold pending_busy in Hd. destruct (Z.ltb_spec 0 (pending q)); [done|]. lia.
    + destruct (poll_notified (idle q)) as [n []]; done.
  - by apply (drain_returns l).
Qed.
End Quotas.

#[local] Existing Instance counting_semaphore.
#[local] Existing Instance flag_notify.

(** A drain that parks on a request and is woken by its end. *)
Lemma drain_no_lost_wakeup_witness :
  ∃ x : Sys Z (bool * bool),
    reachable 1 x ∧ drain x = Parked ∧ (0 < entered x + slotted x + announcing x)%nat.
Proof.
  assert (reachable 1 (mkSys (mkQuota (M := Z) 1 1 1 (false, true)) 1 0 0 0 Parked)) as Hr.
  { refine (reachable_step _ _ _ (reachable_step _ _ _ (reachable_step _ _ _
      (reachable_step _ _ _ (reachable_step _ _ _ (reachable_new 1)
        (step_enter _ 0 0 0 0 Absent _)) (step_drain_start _ _ _ _ _)) (step_check_live _ _ _ _ _))
        (step_check_pending _ _ _ _ _)) (step_await _ _ _ _ _)). reflexivity. }
  eexists. split; [exact Hr|]. split; [reflexivity|].
  apply (drain_no_lost_wakeup 1 _ ltac:(by split) Hr). reflexivity.
Defined.

Lemma quota_ration_witness :
  ∃ x : Sys Z (bool * bool), reachable 1 x ∧ acquire (quota x) = None ∧ live (quota x) = 1.
Proof.
  assert (reachable 1 (mkSys (mkQuota (M := Z) 0 1 1 (false, false)) 0 1 0 0 Absent)) as Hr.
  { refine (reachable_step _ _ _ (reachable_step _ _ _ (reachable_new 1)
      (step_enter _ 0 0 0 0 Absent _)) (step_acquire _ _ _ _ _ _ _ _)); reflexivity. }
  eexists. split; [exact Hr|].
  destruct (quota_ration 1 _ ltac:(by split) Hr) as (H1 & _ & H2 & _).
  split; [apply H2; reflexivity|exact H1].
Defined.
