(* ===== verification/Status.v ===== *)
(** * Refusals (src/src/tunnel/status.rs)

    The RFC 9209 vocabulary of refusals, what each may disclose, the status each
    is answered with, and the sequence of stream operations a refusal (or the
    immediate close of a blackholed tunnel) is made of.  [SocketAddr]'s [Display]
    is the standard library's; an address of the model has no flow or scope id. *)

From S2P Require Import Prelude Utf8 H3Error Message Policy Frame Connection Exchange.

#[local] Open Scope string_scope.
#[local] Open Scope list_scope.
#[local] Open Scope Z_scope.

(** ** [Display] of addresses *)

(** The digits of [n] in a base, most significant first; [width] of them are
    enough for the type [n] has: five for the decimals of a [u8] or a [u16], four
    for the [{:x}] of a 16-bit segment. *)
Definition digit (d : Z) : byte := as_u8 (if d <? 10 then 0x30 + d else 0x61 + d - 10).

Fixpoint digits (base : Z) (width : nat) (n : Z) (acc : bytes) : bytes :=
  match width with
  | O => acc
  | S width =>
      let acc := digit (n mod base) :: acc in
      if n / base =? 0 then acc else digits base width (n / base) acc
  end.

Definition decimal (n : Z) : bytes := digits 10 5 n [].
Definition segment_display (n : Z) : bytes := digits 16 4 n [].

Definition ipv4_display (a : Ipv4Addr) : bytes :=
  decimal (u8 (o0 a)) ++ lit "." ++ decimal (u8 (o1 a)) ++ lit "." ++
  decimal (u8 (o2 a)) ++ lit "." ++ decimal (u8 (o3 a)).

Definition segments (a : Ipv6Addr) : list Z :=
  [segment (x0 a) (x1 a); segment (x2 a) (x3 a); segment (x4 a) (x5 a); segment (x6 a) (x7 a);
   segment (x8 a) (x9 a); segment (x10 a) (x11 a); segment (x12 a) (x13 a);
   segment (x14 a) (x15 a)].

(** The first longest run of zero segments: its start and length. *)
Fixpoint zero_run (l : list Z) (i : nat) (current longest : nat * nat) : nat * nat :=
  match l with
  | [] => longest
  | s :: l =>
      if s =? 0 then
        let current := if (current.2 =? 0)%nat then (i, 1%nat) else (current.1, S current.2) in
        let longest := if (longest.2 <? current.2)%nat then current else longest in
        zero_run l (S i) current longest
      else zero_run l (S i) (0, 0)%nat longest
  end.

Fixpoint join_segments (l : list Z) : bytes :=
  match l with
  | [] => []
  | [s] => segment_display s
  | s :: l => segment_display s ++ lit ":" ++ join_segments l
  end.

Definition ipv6_display (a : Ipv6Addr) : bytes :=
  match to_canonical a with
  | V4 v4 => lit "::ffff:" ++ ipv4_display v4
  | V6 a =>
      let '(start, len) := zero_run (segments a) 0 (0, 0)%nat (0, 0)%nat in
      if (1 <? len)%nat then
        join_segments (take start (segments a)) ++ lit "::" ++
        join_segments (drop (start + len) (segments a))
      else join_segments (segments a)
  end.

Definition socket_display (a : SocketAddr) : bytes :=
  match ip a with
  | V4 v4 => ipv4_display v4 ++ lit ":" ++ decimal (port a)
  | V6 v6 => lit "[" ++ ipv6_display v6 ++ lit "]:" ++ decimal (port a)
  end.

(** ** The errors *)

Inductive ProxyError :=
  | DnsError | DnsTimeout | DestinationIpProhibited | DestinationUnavailable
  | ConnectionRefused | ConnectionTimeout | ProxyInternalError | ConnectionLimitReached
  | HttpRequestDenied.

#[export] Instance ProxyError_eq_dec : EqDecision ProxyError.
Proof. solve_decision. Defined.

(** [std::io::Error], as far as it is looked at. *)
Inductive ErrorKind := KindConnectionRefused | KindTimedOut | KindInvalidInput | KindOther.

Record IoError := mkIoError { raw_os_error : option Z; kind : ErrorKind }.

Record Unreachable := mkUnreachable { next_hop : option SocketAddr; error : IoError }.

Definition no_addresses : Unreachable := mkUnreachable None (mkIoError None KindInvalidInput).

Inductive ResolveFailure := Failed (e : IoError) | TimedOutAfter (budget : Z).

Definition proxy_error (f : ResolveFailure) : ProxyError :=
  match f with Failed _ => DnsError | TimedOutAfter _ => DnsTimeout end.

Definition PROXY_STATUS : bytes := lit "proxy-status".

Definition field_value (e : ProxyError) : bytes :=
  match e with
  | DnsError => lit "volto; error=dns_error"
  | DnsTimeout => lit "volto; error=dns_timeout"
  | DestinationIpProhibited => lit "volto; error=destination_ip_prohibited"
  | DestinationUnavailable => lit "volto; error=destination_unavailable"
  | ConnectionRefused => lit "volto; error=connection_refused"
  | ConnectionTimeout => lit "volto; error=connection_timeout"
  | ProxyInternalError => lit "volto; error=proxy_internal_error"
  | ConnectionLimitReached => lit "volto; error=connection_limit_reached"
  | HttpRequestDenied => lit "volto; error=http_request_denied"
  end.

(** [None] is the panic of [from_static]. *)
Definition error_fields (e : ProxyError) : option Fields :=
  value ← from_static (field_value e);
  Some (append fields_new PROXY_STATUS value).

Definition discloses_next_hop (e : ProxyError) : bool :=
  match e with
  | ConnectionRefused | ConnectionTimeout | DestinationUnavailable => true
  | _ => false
  end.

Definition QUOTE : byte := as_u8 0x22.
Definition BACKSLASH : byte := as_u8 0x5c.

Definition sf_string (value : bytes) : bytes :=
  [QUOTE] ++
  concat (map (λ x, if bool_decide (x = QUOTE) || bool_decide (x = BACKSLASH)
                    then [BACKSLASH; x] else [x]) value) ++
  [QUOTE].

Definition fields_with_next_hop (e : ProxyError) (hop : option SocketAddr) : option Fields :=
  match hop with
  | Some address =>
      if discloses_next_hop e then
        let value := field_value e ++ lit "; next-hop=" ++ sf_string (socket_display address) in
        value ← match value_parse value with
                | Some v => Some v
                | None => from_static (field_value e)
                end;
        Some (append fields_new PROXY_STATUS value)
      else error_fields e
  | None => error_fields e
  end.

Definition recommended_status (e : ProxyError) : Status :=
  match e with
  | DnsError | ConnectionRefused => BAD_GATEWAY
  | DnsTimeout | ConnectionTimeout => GATEWAY_TIMEOUT
  | DestinationUnavailable | ConnectionLimitReached => SERVICE_UNAVAILABLE
  | DestinationIpProhibited | HttpRequestDenied => FORBIDDEN
  | ProxyInternalError => INTERNAL_SERVER_ERROR
  end.

(** ** Answers *)

Section Answers.
Context {QuinnError : Type}.
(** The numbers of libc's error constants. *)
Context (EMFILE ENFILE ENOBUFS ENOMEM EADDRNOTAVAIL : Z).

Definition is_local_exhaustion (e : IoError) : bool :=
  match raw_os_error e with
  | Some n => existsb (Z.eqb n) [EMFILE; ENFILE; ENOBUFS; ENOMEM; EADDRNOTAVAIL]
  | None => false
  end.

Definition from_connect_error (e : IoError) : ProxyError :=
  if is_local_exhaustion e then ProxyInternalError
  else match kind e with
       | KindConnectionRefused => ConnectionRefused
       | KindTimedOut => ConnectionTimeout
       | _ => DestinationUnavailable
       end.

Inductive Responded := Sent | RespondedFailed | RespondedExpired.

Definition respond (status : Status) (fields : Fields) (w : @WriteOutcome QuinnError)
    : option (list Effect * Responded) :=
  '(effects, r) ← respond_within status fields w;
  Some (effects, match r with
                 | Ok _ => Sent
                 | Err (RespondFailed _) => RespondedFailed
                 | Err Expired => RespondedExpired
                 end).

Definition landed (r : Responded) : bool :=
  match r with Sent => true | _ => false end.

(** Stop, respond, and a FIN behind a response that landed. *)
Definition refuse_with (status : Status) (fields : Fields) (w : @WriteOutcome QuinnError)
    : option (list Effect) :=
  '(effects, r) ← respond status fields w;
  Some (Stop H3_NO_ERROR :: effects ++ if landed r then [Finish] else []).

Definition refuse (status : Status) (w : @WriteOutcome QuinnError) : option (list Effect) :=
  refuse_with status fields_new w.

Definition refuse_because (e : ProxyError) (w : @WriteOutcome QuinnError) : option (list Effect) :=
  fields ← error_fields e;
  refuse_with (recommended_status e) fields w.

Definition refuse_unreachable (failure : Unreachable) (w : @WriteOutcome QuinnError)
    : option (list Effect) :=
  let e := from_connect_error (error failure) in
  fields ← fields_with_next_hop e (next_hop failure);
  refuse_with (recommended_status e) fields w.

Definition accept_then_close (fields : Fields) (w : @WriteOutcome QuinnError)
    : option (list Effect) :=
  '(effects, r) ← respond OK fields w;
  Some (Stop H3_NO_ERROR :: effects ++ if landed r then [Finish] else []).
End Answers.
