(* ===== verification/StatusFacts.v ===== *)
(** * Refusals: what they disclose, and that they never fail

    About Status.v: a refusal is written whatever the error and the address, it
    ends the stream the way its write ended, and the only refusals that name an
    address are the three about reaching one. *)

From S2P Require Import Prelude Utf8 Datagram H3Error Qpack Frame Message Policy Connection.
From S2P Require Import ConnectionFacts Exchange Status.

#[local] Open Scope string_scope.
#[local] Open Scope list_scope.
#[local] Open Scope Z_scope.

(** ** A response is written whatever its fields *)

Lemma cont_bytes_bound r : 0 ≤ r → blen (cont_bytes r) ≤ 1 + r.
Proof.
  induction r as [r IH] using (induction_ltof1 _ Z.to_nat). intros Hr.
  rewrite cont_bytes_unfold. destruct (Z.leb_spec 0x80 r); [|unfold blen; cbn [length]; lia].
  rewrite Z.shiftr_div_pow2 by lia. change (2 ^ 7) with 128.
  assert (0 ≤ r / 128 ∧ r / 128 + 1 ≤ r) as [] by div_lia.
  specialize (IH (r / 128) ltac:(unfold ltof; lia) ltac:(lia)).
  unfold blen in *. cbn [length]. lia.
Qed.

Lemma int_bytes_bound p flags v : 1 ≤ p ≤ 8 → 0 ≤ v → blen (int_bytes p flags v) ≤ 2 + v.
Proof.
  intros Hp Hv. unfold int_bytes, put_int. destruct (Z.ltb_spec v (shl 16 1 p - 1)) as [|Hm].
  - unfold blen; cbn [length app]. lia.
  - rewrite run_put_int, blen_app. cbn [app]. unfold blen at 1; cbn [length].
    assert (0 ≤ shl 16 1 p - 1).
    { assert (p = 1 ∨ p = 2 ∨ p = 3 ∨ p = 4 ∨ p = 5 ∨ p = 6 ∨ p = 7 ∨ p = 8) by lia.
      destruct_or!; subst p; vm_compute; discriminate. }
    pose proof (cont_bytes_bound (v - (shl 16 1 p - 1)) ltac:(lia)). lia.
Qed.

Lemma string_bytes_bound p flags s :
  1 ≤ p ≤ 8 → blen (string_bytes p flags s) ≤ 2 + 2 * blen s.
Proof.
  intros Hp. unfold string_bytes, put_string. rewrite blen_app.
  pose proof (int_bytes_bound p (shl 8 flags 1) (blen s) Hp (blen_nonneg s)).
  unfold int_bytes in *. lia.
Qed.

Lemma line_bytes_bound f : blen (line_bytes f) ≤ 4 * field_size f.
Proof.
  destruct f as [n v]. unfold field_size, FIELD_OVERHEAD, line_bytes, encode_line. cbn [name value].
  pose proof (blen_nonneg n). pose proof (blen_nonneg v).
  pose proof (find_spec n v) as Hs. destruct (find n v) as [i|i|].
  - destruct Hs as [Hl%static_index_bound Hi].
    pose proof (int_bytes_bound 6 3 i). unfold int_bytes in *. lia.
  - destruct Hs as (v' & Hl%static_index_bound & Hi). rewrite put_string_app, blen_app.
    pose proof (string_bytes_bound 7 0 v). pose proof (int_bytes_bound 4 5 i).
    unfold int_bytes in *. lia.
  - rewrite !put_string_app, app_nil_l, blen_app.
    pose proof (string_bytes_bound 7 0 v). pose proof (string_bytes_bound 3 2 n). lia.
Qed.

Lemma encode_bound fs : blen (Qpack.encode [] fs) ≤ 2 + 4 * section_size fs.
Proof.
  rewrite encode_eq. unfold section_size. cbn [app].
  assert (blen (concat (map line_bytes fs)) ≤ 4 * foldr (λ f n, field_size f + n) 0 fs) as H.
  { induction fs as [|f fs IH]; cbn [map concat foldr]; [done|].
    rewrite blen_app. pose proof (line_bytes_bound f). lia. }
  rewrite blen_app. change (blen (map as_u8 [0; 0])) with 2. lia.
Qed.

Lemma response_frame_total status fields :
  valid_utf8 status = true →
  section_size (mkField (lit ":status") status :: map (λ f, mkField f.1 f.2) fields) ≤ 2 ^ 32 →
  is_Some (response_frame status fields).
Proof.
  intros Hv Hs. unfold response_frame, status_as_str, from_utf8. rewrite Hv. cbn [mbind option_bind].
  pose proof (encode_bound (mkField (lit ":status") status :: map (λ f, mkField f.1 f.2) fields)).
  pose proof (blen_nonneg (Qpack.encode [] (mkField (lit ":status") status
    :: map (λ f, mkField f.1 f.2) fields))).
  rewrite put_header_eq; [by eexists|by change HEADERS with 1; change VARINT_MAX with (2 ^ 62 - 1)|].
  change VARINT_MAX with (2 ^ 62 - 1). lia.
Qed.

(** ** The text of an address *)

(** A character that needs no escape in a quoted string. *)
Definition plain (x : byte) : bool :=
  between 0x21 0x7e x && negb (bool_decide (x = QUOTE) || bool_decide (x = BACKSLASH)).

(** [shown n l]: at most [n] characters, all of them plain. *)
Definition shown (n : Z) (l : bytes) : Prop := blen l ≤ n ∧ forallb plain l = true.

Lemma shown_app n m a b : shown n a → shown m b → shown (n + m) (a ++ b).
Proof. intros [] []. split; [rewrite blen_app; lia|by rewrite forallb_app, andb_true_iff]. Qed.

Lemma shown_le n m l : shown n l → n ≤ m → shown m l.
Proof. intros [] ?. split; [lia|done]. Qed.

Lemma digit_plain d : 0 ≤ d < 16 → plain (digit d) = true.
Proof. by apply (forall_below 16 (λ d, plain (digit d))). Qed.

Lemma digits_shown base width n acc k :
  1 ≤ base ≤ 16 → shown k acc → shown (k + Z.of_nat width) (digits base width n acc).
Proof.
  intros Hb. revert n acc k. induction width as [|width IH]; intros n acc k Hacc; cbn [digits].
  - by replace (k + Z.of_nat 0) with k by lia.
  - assert (shown (k + 1) (digit (n mod base) :: acc)) as Hs.
    { replace (k + 1) with (1 + k) by lia. apply (shown_app 1 k [_]); [|done].
      split; [done|]. cbn [forallb]. rewrite digit_plain; [done|].
      pose proof (Z.mod_pos_bound n base). lia. }
    case_match; [eapply shown_le; [exact Hs|lia]|].
    eapply shown_le; [by apply IH|lia].
Qed.

Lemma shown_nil : shown 0 [].
Proof. done. Qed.

Lemma shown_decimal n : shown 5 (decimal n).
Proof. by apply (digits_shown 10 5 n [] 0). Qed.

Lemma shown_segment n : shown 4 (segment_display n).
Proof. by apply (digits_shown 16 4 n [] 0). Qed.

Lemma shown_ipv4 a : shown 23 (ipv4_display a).
Proof.
  unfold ipv4_display. change 23 with (5 + (1 + (5 + (1 + (5 + (1 + 5)))))).
  repeat (apply shown_app; [first [apply shown_decimal|done]|]). apply shown_decimal.
Qed.

Lemma shown_join l : shown (5 * blen l) (join_segments l).
Proof.
  induction l as [|s l IH]; cbn [join_segments]; [done|].
  destruct l as [|s' l]; [eapply shown_le; [apply shown_segment|done]|].
  eapply shown_le; [apply shown_app; [apply shown_segment|apply (shown_app 1); [done|exact IH]]|].
  unfold blen. cbn [length]. lia.
Qed.

Lemma shown_ipv6 a : shown 82 (ipv6_display a).
Proof.
  unfold ipv6_display. destruct (to_canonical a) as [v4|a'].
  { eapply shown_le; [apply (shown_app 7); [done|apply shown_ipv4]|done]. }
  destruct (zero_run _ _ _ _) as [start len].
  assert (∀ l, (length l ≤ 8)%nat → shown 40 (join_segments l)) as Hj.
  { intros l Hl. eapply shown_le; [apply shown_join|unfold blen; lia]. }
  case_match; [|eapply shown_le; [by apply Hj|done]].
  eapply (shown_le (40 + (2 + 40))); [|done].
  apply shown_app; [|apply shown_app; [done|]]; apply Hj;
    rewrite ?length_take, ?length_drop; change (length (segments a')) with 8%nat; lia.
Qed.

Lemma shown_socket a : shown 90 (socket_display a).
Proof.
  unfold socket_display. destruct (ip a) as [v4|v6].
  - eapply (shown_le (23 + (1 + 5))); [|done].
    apply shown_app; [apply shown_ipv4|]. apply shown_app; [done|apply shown_decimal].
  - eapply (shown_le (1 + (82 + (2 + 5)))); [|done].
    apply shown_app; [done|]. apply shown_app; [apply shown_ipv6|].
    apply shown_app; [done|apply shown_decimal].
Qed.

Lemma sf_string_shown n l : shown n l → sf_string l = [QUOTE] ++ l ++ [QUOTE].
Proof.
  intros [_ H]. unfold sf_string. do 2 f_equal.
  induction l as [|x l IH]; cbn [map concat forallb] in *; [done|].
  apply andb_true_iff in H as [Hx Hl]. rewrite (IH Hl).
  unfold plain in Hx. apply andb_true_iff in Hx as [_ Hx]. apply negb_true_iff in Hx.
  by rewrite Hx.
Qed.

Lemma shown_field_value n l : shown n l → is_field_value l = true.
Proof.
  intros [_ H]. unfold is_field_value. apply forallb_forall. intros x Hx.
  rewrite forallb_forall in H. specialize (H x Hx). unfold plain in H.
  apply andb_true_iff in H as [-> _]. done.
Qed.

(** ** What a refusal discloses *)

(** The value of the one field of a refusal. *)
Definition refusal_value (e : ProxyError) (hop : option SocketAddr) : FieldValue :=
  field_value e ++
  match hop with
  | Some address =>
      if bool_decide (e ∈ [ConnectionRefused; ConnectionTimeout; DestinationUnavailable])
      then lit "; next-hop=" ++ [QUOTE] ++ socket_display address ++ [QUOTE]
      else []
  | None => []
  end.

Lemma error_fields_eq e : error_fields e = Some [(PROXY_STATUS, field_value e)].
Proof. by destruct e. Qed.

Lemma fields_with_next_hop_eq e hop :
  fields_with_next_hop e hop = Some [(PROXY_STATUS, refusal_value e hop)].
Proof.
  unfold fields_with_next_hop, refusal_value.
  destruct hop as [a|]; [|by rewrite error_fields_eq, app_nil_r].
  replace (discloses_next_hop e) with
    (bool_decide (e ∈ [ConnectionRefused; ConnectionTimeout; DestinationUnavailable]))
    by (by destruct e).
  case_bool_decide; [|by rewrite error_fields_eq, app_nil_r].
  rewrite (sf_string_shown _ _ (shown_socket a)). unfold value_parse.
  assert (is_field_value (field_value e ++ lit "; next-hop=" ++ [QUOTE] ++ socket_display a ++ [QUOTE])
    = true) as ->; [|done].
  pose proof (shown_field_value _ _ (shown_socket a)) as Ha. unfold is_field_value in *.
  rewrite !forallb_app, Ha. by destruct e.
Qed.

(** What a refusal discloses about the target.  The fields of a refusal are
    always one Proxy-Status line; it holds the address of the failed hop, as a
    quoted string with nothing to escape, exactly for the three error types that
    are about reaching a hop, and for the others two different hops (or none)
    give the same response: a policy or DNS refusal carries nothing of what a
    name resolved to. *)
Theorem next_hop_disclosure e hop hop' :
  fields_with_next_hop e hop = Some [(PROXY_STATUS, refusal_value e hop)] ∧
  (e ∉ [ConnectionRefused; ConnectionTimeout; DestinationUnavailable] →
   fields_with_next_hop e hop = fields_with_next_hop e hop') ∧
  is_field_value (refusal_value e hop) = true ∧
  (∀ a x, hop = Some a → x ∈ socket_display a → x ≠ QUOTE ∧ x ≠ BACKSLASH).
Proof.
  split; [apply fields_with_next_hop_eq|]. split; [|split].
  - intros He. rewrite !fields_with_next_hop_eq. unfold refusal_value.
    rewrite (bool_decide_eq_false_2 _ He). by destruct hop, hop'.
  - unfold refusal_value. destruct hop as [a|]; [|by destruct e].
    pose proof (shown_field_value _ _ (shown_socket a)) as Ha. unfold is_field_value in *.
    case_bool_decide; rewrite !forallb_app; rewrite ?Ha; by destruct e.
  - intros a x _ Hx. destruct (shown_socket a) as [_ H]. rewrite forallb_forall in H.
    specialize (H x (proj1 (list_elem_of_In _ _) Hx)). unfold plain in H.
    rewrite andb_true_iff, negb_true_iff, orb_false_iff, !bool_decide_eq_false in H. tauto.
Qed.

(** ** Refusing never fails *)

Lemma refusal_frame e hop :
  is_Some (response_frame (recommended_status e) [(PROXY_STATUS, refusal_value e hop)]).
Proof.
  apply response_frame_total; [by destruct e|].
  assert (blen (refusal_value e hop) ≤ 200) as H.
  { unfold refusal_value. rewrite blen_app.
    assert (blen (field_value e) ≤ 60) by (destruct e; vm_compute; discriminate).
    destruct hop as [a|]; [|change (blen (@nil byte)) with 0; lia].
    destruct (shown_socket a) as [Ha _].
    case_bool_decide; [|change (blen (@nil byte)) with 0; lia].
    rewrite !blen_app. change (blen (lit "; next-hop=")) with 11. change (blen [QUOTE]) with 1. lia. }
  unfold section_size, field_size, FIELD_OVERHEAD. cbn [map foldr fst snd name value].
  change (blen (lit ":status")) with 7. change (blen PROXY_STATUS) with 12.
  assert (blen (recommended_status e) = 3) as -> by (by destruct e). lia.
Qed.

Section Refusals.
Context {QuinnError : Type} (EMFILE ENFILE ENOBUFS ENOMEM EADDRNOTAVAIL : Z).
#[local] Abbreviation Outcome := (@WriteOutcome QuinnError).

(** How a stream is left after an answer: a FIN behind one that was written, a
    reset behind one that was not taken in time, nothing behind a failure. *)
Definition ending (w : Outcome) : list Effect :=
  match w with
  | Written => [Finish]
  | WriteFailed _ => []
  | Elapsed => [Reset_ H3_REQUEST_CANCELLED]
  end.

Lemma refuse_with_eq status fields frame (w : Outcome) :
  response_frame status fields = Some frame →
  refuse_with status fields w = Some (Stop H3_NO_ERROR :: Write frame :: ending w).
Proof.
  intros Hf. unfold refuse_with, respond, respond_within. rewrite Hf. by destruct w.
Qed.

Lemma refuse_because_eq e (w : Outcome) :
  ∃ frame, response_frame (recommended_status e) [(PROXY_STATUS, refusal_value e None)] = Some frame ∧
    refuse_because e w = Some (Stop H3_NO_ERROR :: Write frame :: ending w).
Proof.
  destruct (refusal_frame e None) as [frame Hf]. exists frame. split; [done|].
  unfold refuse_because. rewrite error_fields_eq. cbn [mbind option_bind].
  unfold refusal_value in Hf. rewrite app_nil_r in Hf. by apply refuse_with_eq.
Qed.

Lemma accept_then_close_eq fields frame (w : Outcome) :
  response_frame OK fields = Some frame →
  accept_then_close fields w = Some (Stop H3_NO_ERROR :: Write frame :: ending w).
Proof.
  intros Hf. unfold accept_then_close, respond, respond_within. rewrite Hf. by destruct w.
Qed.

Lemma refuse_unreachable_eq failure (w : Outcome) :
  let cause := from_connect_error EMFILE ENFILE ENOBUFS ENOMEM EADDRNOTAVAIL (error failure) in
  ∃ frame, response_frame (recommended_status cause)
             [(PROXY_STATUS, refusal_value cause (next_hop failure))] = Some frame ∧
    refuse_unreachable EMFILE ENFILE ENOBUFS ENOMEM EADDRNOTAVAIL failure w =
      Some (Stop H3_NO_ERROR :: Write frame :: ending w).
Proof.
  intros cause. destruct (refusal_frame cause (next_hop failure)) as [frame Hf].
  exists frame. split; [done|].
  unfold refuse_unreachable. fold cause. rewrite fields_with_next_hop_eq.
  cbn [mbind option_bind]. by apply refuse_with_eq.
Qed.

(** Refusing never fails.  Whatever the error, the address and the way the
    write ends, a refusal stops the request body with H3_NO_ERROR, writes one
    HEADERS frame with the recommended status and the Proxy-Status line, and then
    finishes the stream if the write landed and resets it only if the write was
    not taken in time.  Running out of this host's own resources is answered 500
    and never names an address; everything else a connect attempt failed with is
    502, 503 or 504. *)
Theorem refusing_never_fails e failure (w : Outcome) :
  (∃ frame, response_frame (recommended_status e) [(PROXY_STATUS, refusal_value e None)] = Some frame ∧
    refuse_because e w = Some (Stop H3_NO_ERROR :: Write frame :: ending w)) ∧
  (let cause := from_connect_error EMFILE ENFILE ENOBUFS ENOMEM EADDRNOTAVAIL (error failure) in
   ∃ frame, response_frame (recommended_status cause)
              [(PROXY_STATUS, refusal_value cause (next_hop failure))] = Some frame ∧
    refuse_unreachable EMFILE ENFILE ENOBUFS ENOMEM EADDRNOTAVAIL failure w =
      Some (Stop H3_NO_ERROR :: Write frame :: ending w) ∧
    (if is_local_exhaustion EMFILE ENFILE ENOBUFS ENOMEM EADDRNOTAVAIL (error failure)
     then recommended_status cause = lit "500" ∧
          refusal_value cause (next_hop failure) = refusal_value cause None
     else recommended_status cause ∈ [lit "502"; lit "503"; lit "504"])).
Proof.
  split; [apply refuse_because_eq|].
  - cbn zeta. destruct (refuse_unreachable_eq failure w) as (frame & Hf & Hr).
    set (cause := from_connect_error _ _ _ _ _ _) in *. exists frame. split; [done|].
    split; [done|].
    + unfold cause, from_connect_error. destruct (is_local_exhaustion _ _ _ _ _ _).
      * split; [done|]. by destruct (next_hop failure).
      * destruct (kind (error failure)); set_solver.
Qed.
End Refusals.
