(* ===== verification/Gate.v ===== *)
(** * The SNI gate (src/src/gate.rs)

    The filter under the QUIC endpoint: a received datagram is judged by its first
    packet, and one whose ClientHello names a host that is not listed is made
    undecodable before quinn sees it.  Here are the definitions; [GateFacts] and
    [GateVerdict] hold the theorems.

    Offsets are [Z] at the width of [usize] with the source's checked additions.
    An outer [None] of [decrypt] and [judge] is a panic (an index out of range).
    The keys are quinn's: [ServerConfig] is the interface the gate calls. *)

From S2P Require Import Prelude Datagram Utf8 Message.

#[local] Open Scope Z_scope.

(** ** Constants *)

Definition QUIC_V1 : Z := 0x00000001.
Definition LONG_HEADER_FORM : Z := 0x80.
Definition LONG_PACKET_TYPE : Z := 0x30.
Definition INITIAL_PACKET_TYPE : Z := 0x00.
Definition MAX_CONNECTION_ID : Z := 20.
Definition MIN_INITIAL_DATAGRAM : Z := 1200.
Definition MIN_CLIENT_CONNECTION_ID : Z := 8.
Definition IMPOSSIBLE_CID_LENGTH : byte := Byte.xff.
Definition DCID_LENGTH_OFFSET : Z := 5.
Definition CLIENT_HELLO : Z := 1.
Definition SERVER_NAME_EXTENSION : Z := 0.
Definition HOST_NAME : Z := 0.
Definition FRAME_PADDING : Z := 0x00.
Definition FRAME_PING : Z := 0x01.
Definition FRAME_ACK : Z := 0x02.
Definition FRAME_ACK_ECN : Z := 0x03.
Definition FRAME_CRYPTO : Z := 0x06.
Definition FRAME_CONNECTION_CLOSE : Z := 0x1c.

(** ** Slices and checked arithmetic (std) *)

(** [usize::checked_add] and [checked_mul], on a 64-bit target. *)
Definition checked_add (x y : Z) : option Z := if x + y <? 2 ^ 64 then Some (x + y) else None.
Definition checked_mul (x y : Z) : option Z := if x * y <? 2 ^ 64 then Some (x * y) else None.

(** [slice.get(a..b)], [slice.get(a..)] and [slice.get(i)]; the same with an
    index, [slice[a..b]], panics where these are [None]. *)
Definition get_range {A} (l : list A) (a b : Z) : option (list A) :=
  if (0 <=? a) && (a <=? b) && (b <=? blen l)
  then Some (take (Z.to_nat (b - a)) (drop (Z.to_nat a) l))
  else None.

Definition get_from {A} (l : list A) (a : Z) : option (list A) := get_range l a (blen l).

Definition get_at {A} (l : list A) (i : Z) : option A :=
  if (0 <=? i) && (i <? blen l) then l !! Z.to_nat i else None.

(** ** The configured names *)

Record Names := mkNames { names : list bytes }.

Definition root_relative (name : bytes) : bytes :=
  match last name with
  | Some Byte.x2e => removelast name
  | _ => name
  end.

Definition normalise (name : bytes) : bytes := map to_ascii_lowercase (root_relative name).

Definition names_new (configured : list bytes) : Names := mkNames (map normalise configured).

Definition names_is_empty (n : Names) : bool :=
  match names n with [] => true | _ => false end.

Definition accepts (n : Names) (name : bytes) : bool :=
  let name := root_relative name in
  existsb (λ held, eq_ignore_ascii_case held name) (names n).

(** The list in force and the flag beside it. [set] writes the list first. *)
Record Held := mkHeld { held_names : Names; held_any : bool }.

Definition expected_new (n : Names) : Held := mkHeld n (negb (names_is_empty n)).

Definition set_names (n : Names) (h : Held) : Held := mkHeld n (held_any h).
Definition set_any (b : bool) (h : Held) : Held := mkHeld (held_names h) b.

Definition expected_set (n : Names) (h : Held) : Held :=
  set_any (negb (names_is_empty n)) (set_names n h).

Definition expected_any (h : Held) : bool := held_any h.
Definition expected_current (h : Held) : Names := held_names h.

(** ** The cursor over TLS structures

    A [Reader] is the bytes it has left; a read returns what it took and the
    reader after it. *)

Definition reader_take (count : nat) (r : bytes) : option (bytes * bytes) :=
  if decide (count ≤ length r)%nat then Some (take count r, drop count r) else None.

Definition reader_byte (r : bytes) : option (Z * bytes) :=
  match r with x :: r => Some (u8 x, r) | [] => None end.

Definition reader_u16 (r : bytes) : option (Z * bytes) :=
  '(b, r) ← reader_take 2 r;
  Some (be_fold 0 b, r).

Definition reader_u24 (r : bytes) : option (nat * bytes) :=
  match r with
  | b0 :: b1 :: b2 :: r =>
      Some (Z.to_nat (Z.lor (Z.lor (Z.shiftl (u8 b0) 16) (Z.shiftl (u8 b1) 8)) (u8 b2)), r)
  | _ => None
  end.

Definition vector8 (r : bytes) : option (bytes * bytes) :=
  '(length_, r) ← reader_byte r;
  reader_take (Z.to_nat length_) r.

Definition vector16 (r : bytes) : option (bytes * bytes) :=
  '(length_, r) ← reader_u16 r;
  reader_take (Z.to_nat length_) r.

(** ** The ClientHello *)

(** One turn of the loop of [host_name]. *)
Definition host_name_step (r : bytes) : bytes + option bytes :=
  match r with
  | [] => inr None
  | _ =>
      match ('(kind, r) ← reader_byte r; '(name, r) ← vector16 r; Some (kind, name, r)) with
      | None => inr None
      | Some (kind, name, r) => if kind =? HOST_NAME then inr (Some name) else inl r
      end
  end.

(** One turn of the loop of [server_name], up to the extension it looks for. *)
Definition extension_step (r : bytes) : bytes + option bytes :=
  match r with
  | [] => inr None
  | _ =>
      match ('(kind, r) ← reader_u16 r; '(data, r) ← vector16 r; Some (kind, data, r)) with
      | None => inr None
      | Some (kind, data, r) =>
          if kind =? SERVER_NAME_EXTENSION then inr (Some data) else inl r
      end
  end.

Lemma reader_take_length n r h r' :
  reader_take n r = Some (h, r') → r = h ++ r' ∧ length h = n.
Proof.
  unfold reader_take. case_decide; [|done]. intros [= <- <-].
  by rewrite take_drop, length_take_le.
Qed.

Lemma reader_byte_length r v r' : reader_byte r = Some (v, r') → length r = S (length r').
Proof. destruct r; simpl; naive_solver. Qed.

Lemma reader_u16_length r v r' : reader_u16 r = Some (v, r') → length r = S (S (length r')).
Proof.
  unfold reader_u16. destruct (reader_take 2 r) as [[h r1]|] eqn:E; simpl; [|done].
  intros [= <- <-]. apply reader_take_length in E as [-> E]. rewrite length_app. lia.
Qed.

Lemma vector16_length r v r' : vector16 r = Some (v, r') → (length r' < length r)%nat.
Proof.
  unfold vector16. destruct (reader_u16 r) as [[n r1]|] eqn:E; simpl; [|done].
  intros [-> _]%reader_take_length. apply reader_u16_length in E.
  rewrite length_app in E. lia.
Qed.

#[export] Program Instance host_name_loop : Loop host_name_step := {| loop_measure := length |}.
Next Obligation.
  intros [|x r] r'; [done|]. unfold host_name_step.
  destruct (reader_byte (x :: r)) as [[k r1]|] eqn:E1; simpl; [|done].
  destruct (vector16 r1) as [[v r2]|] eqn:E2; simpl; [|done].
  case_match; [done|]. intros [= <-].
  apply reader_byte_length in E1. apply vector16_length in E2. simpl in *. lia.
Qed.

#[export] Program Instance extension_loop : Loop extension_step := {| loop_measure := length |}.
Next Obligation.
  intros [|x r] r'; [done|]. unfold extension_step.
  destruct (reader_u16 (x :: r)) as [[k r1]|] eqn:E1; simpl; [|done].
  destruct (vector16 r1) as [[v r2]|] eqn:E2; simpl; [|done].
  case_match; [done|]. intros [= <-].
  apply reader_u16_length in E1. apply vector16_length in E2. simpl in *. lia.
Qed.

Definition host_name (extension : bytes) : option bytes :=
  '(list_, _) ← vector16 extension;
  run host_name_step list_.

Definition server_name (body : bytes) : option bytes :=
  '(_, r) ← reader_take 2 body;
  '(_, r) ← reader_take 32 r;
  '(_, r) ← vector8 r;
  '(_, r) ← vector16 r;
  '(_, r) ← vector8 r;
  '(extensions, _) ← vector16 r;
  data ← run extension_step extensions;
  host_name data.

Inductive FirstFlight :=
  | Truncated
  | NotAClientHello
  | AnonymousHello
  | Named (name : bytes).

#[export] Instance FirstFlight_eq_dec : EqDecision FirstFlight.
Proof. solve_decision. Defined.

Definition first_flight (crypto : bytes) : FirstFlight :=
  match reader_byte crypto with
  | None => Truncated
  | Some (kind, r) =>
      if negb (kind =? CLIENT_HELLO) then NotAClientHello
      else
        match reader_u24 r with
        | None => Truncated
        | Some (length_, r) =>
            match reader_take length_ r with
            | None => Truncated
            | Some (body, _) =>
                match server_name body with
                | Some name => Named name
                | None => AnonymousHello
                end
            end
        end
  end.

(** ** The frames of an Initial packet *)

(** One turn of [skip_varints]: the position and the varints still to skip. *)
Definition skip_step (payload : bytes) (s : Z * Z) : (Z * Z) + option Z :=
  let '(at_, count) := s in
  if count <=? 0 then inr (Some at_)
  else
    match (rest ← get_from payload at_; '(_, read) ← peek_varint rest;
           checked_add at_ (Z.of_nat read)) with
    | None => inr None
    | Some at_ => inl (at_, count - 1)
    end.

Lemma get_from_some {A} (l : list A) a r :
  get_from l a = Some r → r = drop (Z.to_nat a) l ∧ 0 ≤ a ≤ blen l.
Proof.
  unfold get_from, get_range. case_match eqn:E; [|done].
  intros [= <-]. split; [|lia]. apply take_ge. rewrite length_drop. unfold blen in *. lia.
Qed.

Lemma get_from_peek l a r v n :
  get_from l a = Some r → peek_varint r = Some (v, n) →
  0 ≤ a ∧ a < a + Z.of_nat n ≤ blen l ∧ 0 ≤ v.
Proof.
  intros [-> Hle]%get_from_some Hp. pose proof (peek_varint_bound _ _ _ Hp).
  apply peek_varint_length in Hp.
  rewrite length_drop in Hp. unfold blen in *. lia.
Qed.

Lemma checked_add_some x y z : checked_add x y = Some z → z = x + y ∧ x + y < 2 ^ 64.
Proof. unfold checked_add. destruct (Z.ltb_spec (x + y) (2 ^ 64)); naive_solver. Qed.

#[export] Program Instance skip_loop payload : Loop (skip_step payload) :=
  {| loop_measure s := Z.to_nat (blen payload - s.1) |}.
Next Obligation.
  intros payload [a c] [a' c']. unfold skip_step. case_match; [done|].
  destruct (get_from payload a) as [r|] eqn:E1; simpl; [|done].
  destruct (peek_varint r) as [[v n]|] eqn:E2; simpl; [|done].
  destruct (checked_add a (Z.of_nat n)) as [a1|] eqn:E3; [|done].
  intros [= <- <-]. apply checked_add_some in E3 as [-> _].
  pose proof (get_from_peek _ _ _ _ _ E1 E2). simpl. lia.
Qed.

Definition skip_varints (payload : bytes) (at_ count : Z) : option Z :=
  run (skip_step payload) (at_, count).

(** The fields of each frame type after its type, and where the frame ends. *)
Definition skip_ack (payload : bytes) (frame at_ : Z) : option Z :=
  at_ ← skip_varints payload at_ 2;
  rest ← get_from payload at_;
  '(ranges, read) ← peek_varint rest;
  let at_ := at_ + Z.of_nat read in
  at_ ← skip_varints payload at_ 1;
  ranges ← checked_mul ranges 2;
  at_ ← skip_varints payload at_ ranges;
  if frame =? FRAME_ACK_ECN then skip_varints payload at_ 3 else Some at_.

Definition take_crypto (payload : bytes) (at_ : Z) : option (Z * bytes * Z) :=
  rest ← get_from payload at_;
  '(offset, read) ← peek_varint rest;
  let at_ := at_ + Z.of_nat read in
  rest ← get_from payload at_;
  '(length_, read) ← peek_varint rest;
  let at_ := at_ + Z.of_nat read in
  end_ ← checked_add at_ length_;
  data ← get_range payload at_ end_;
  Some (offset, data, end_).

Definition skip_close (payload : bytes) (at_ : Z) : option Z :=
  at_ ← skip_varints payload at_ 2;
  rest ← get_from payload at_;
  '(reason, read) ← peek_varint rest;
  let at_ := at_ + Z.of_nat read in
  at_ ← checked_add at_ reason;
  if blen payload <? at_ then None else Some at_.

Definition Fragment : Type := Z * bytes.

(** One turn of the walk: the position and the CRYPTO fragments found so far. *)
Definition frame_step (payload : bytes) (s : Z * list Fragment)
    : (Z * list Fragment) + option (list Fragment) :=
  let '(at_, fragments) := s in
  if negb (at_ <? blen payload) then inr (Some fragments)
  else
    match peek_varint (drop (Z.to_nat at_) payload) with
    | None => inr None
    | Some (frame, read) =>
        let at_ := at_ + Z.of_nat read in
        if (frame =? FRAME_PADDING) || (frame =? FRAME_PING) then inl (at_, fragments)
        else if (frame =? FRAME_ACK) || (frame =? FRAME_ACK_ECN) then
          match skip_ack payload frame at_ with
          | Some at_ => inl (at_, fragments)
          | None => inr None
          end
        else if frame =? FRAME_CRYPTO then
          match take_crypto payload at_ with
          | Some (offset, data, end_) => inl (end_, fragments ++ [(offset, data)])
          | None => inr None
          end
        else if frame =? FRAME_CONNECTION_CLOSE then
          match skip_close payload at_ with
          | Some at_ => inl (at_, fragments)
          | None => inr None
          end
        else inr (Some fragments)
    end.

Lemma skip_varints_mono payload at_ count at' :
  skip_varints payload at_ count = Some at' → at_ ≤ at'.
Proof.
  unfold skip_varints. change at_ with (at_, count).1 at 2. generalize (at_, count) as s.
  apply (run_ind (skip_step payload) (λ s r, r = Some at' → s.1 ≤ at')).
  - intros [a c] r. unfold skip_step. case_match; [by intros [= <-] [= <-]|].
    case_match; [done|]. by intros [= <-].
  - intros [a c] [a' c']. unfold skip_step. case_match; [done|].
    destruct (get_from payload a) as [r|] eqn:E1; simpl; [|done].
    destruct (peek_varint r) as [[v n]|] eqn:E2; simpl; [|done].
    destruct (checked_add a (Z.of_nat n)) as [a1|] eqn:E3; [|done].
    intros [= <- <-] IH Hr. apply checked_add_some in E3 as [-> _].
    specialize (IH Hr). simpl in IH. lia.
Qed.

(** Runs the binds of a reading function in the context: each read that
    succeeded becomes an equation. *)
Ltac split_reads H :=
  repeat match type of H with
  | mbind _ ?o = Some _ =>
      let E := fresh "E" in
      destruct o as [?|] eqn:E; cbn [mbind option_bind] in H; [|discriminate H]
  | (let '(_, _) := ?p in _) = Some _ => destruct p
  | match ?p with (_, _) => _ end = Some _ => destruct p
  end.

Lemma skip_ack_mono payload frame at_ at' :
  skip_ack payload frame at_ = Some at' → at_ ≤ at'.
Proof.
  unfold skip_ack. intros H. split_reads H.
  repeat match goal with H : skip_varints _ _ _ = Some _ |- _ => apply skip_varints_mono in H end.
  case_match; [apply skip_varints_mono in H|injection H as <-]; lia.
Qed.

Lemma take_crypto_mono payload at_ offset data at' :
  take_crypto payload at_ = Some (offset, data, at') → at_ ≤ at'.
Proof.
  unfold take_crypto. intros H. split_reads H. injection H as <- <- <-.
  repeat match goal with
  | H : checked_add _ _ = Some _ |- _ => apply checked_add_some in H as [-> _]
  | H : peek_varint _ = Some _ |- _ => apply peek_varint_bound in H
  end. lia.
Qed.

Lemma skip_close_mono payload at_ at' : skip_close payload at_ = Some at' → at_ ≤ at'.
Proof.
  unfold skip_close. intros H. split_reads H. case_match; [done|]. injection H as <-.
  repeat match goal with
  | H : skip_varints _ _ _ = Some _ |- _ => apply skip_varints_mono in H
  | H : checked_add _ _ = Some _ |- _ => apply checked_add_some in H as [-> _]
  | H : peek_varint _ = Some _ |- _ => apply peek_varint_bound in H
  end. lia.
Qed.

Lemma peek_varint_pos buf v n : peek_varint buf = Some (v, n) → 0 < Z.of_nat n.
Proof. intros [_ H]%peek_varint_bound. rewrite !elem_of_cons, elem_of_nil in H. lia. Qed.

#[export] Program Instance frame_loop payload : Loop (frame_step payload) :=
  {| loop_measure s := Z.to_nat (blen payload - s.1) |}.
Next Obligation.
  intros payload [a frags] [a' frags']. unfold frame_step.
  destruct (Z.ltb_spec a (blen payload)); simpl; [|done].
  destruct (peek_varint _) as [[frame n]|] eqn:E; [|done]. apply peek_varint_pos in E.
  case_match; [intros [= <- <-]; simpl; lia|].
  case_match.
  { case_match eqn:Ha; [|done]. intros [= <- <-]. apply skip_ack_mono in Ha. simpl; lia. }
  case_match.
  { case_match eqn:Hc; [|done]. do 2 case_match. intros [= <- <-]. subst.
    apply take_crypto_mono in Hc. simpl; lia. }
  case_match; [|done]. case_match eqn:Hc; [|done]. intros [= <- <-].
  apply skip_close_mono in Hc. simpl; lia.
Qed.

Definition crypto_fragments (payload : bytes) : option (list Fragment) :=
  run (frame_step payload) (0, []).

(** The appending of sorted fragments while they are contiguous. *)
Fixpoint extend_stream (stream : bytes) (fragments : list Fragment) : bytes :=
  match fragments with
  | [] => stream
  | (offset, data) :: fragments =>
      if blen stream <? offset then stream
      else
        let skip := blen stream - offset in
        match get_from data skip with
        | Some fresh => extend_stream (stream ++ fresh) fragments
        | None => extend_stream stream fragments
        end
  end.

Definition nonempty (l : bytes) : option bytes := match l with [] => None | _ => Some l end.

Definition crypto_stream_prefix (payload : bytes) : option bytes :=
  fragments ← crypto_fragments payload;
  let fragments := sort_by_key fst fragments in
  match fragments with
  | [(0, data)] => nonempty data
  | _ => nonempty (extend_stream [] fragments)
  end.

(** ** The long header *)

Record InitialHeader := mkInitialHeader {
  dcid : Z * Z;
  packet_number_offset : Z;
  packet_end : Z;
}.

Definition parse_initial (datagram : bytes) : option InitialHeader :=
  let at_ := DCID_LENGTH_OFFSET in
  dcid_length ← u8 <$> get_at datagram at_;
  let at_ := at_ + 1 in
  if MAX_CONNECTION_ID <? dcid_length then None
  else
    dcid_end ← checked_add at_ dcid_length;
    let dcid := (at_, dcid_end) in
    _ ← get_range datagram at_ dcid_end;
    let at_ := dcid_end in
    scid_length ← u8 <$> get_at datagram at_;
    let at_ := at_ + 1 in
    if MAX_CONNECTION_ID <? scid_length then None
    else
      at_ ← checked_add at_ scid_length;
      if blen datagram <? at_ then None
      else
        rest ← get_from datagram at_;
        '(token_length, read) ← peek_varint rest;
        at_ ← checked_add at_ (Z.of_nat read);
        at_ ← checked_add at_ token_length;
        if blen datagram <? at_ then None
        else
          rest ← get_from datagram at_;
          '(length_, read) ← peek_varint rest;
          packet_number_offset ← checked_add at_ (Z.of_nat read);
          packet_end ← checked_add packet_number_offset length_;
          if blen datagram <? packet_end then None
          else Some (mkInitialHeader dcid packet_number_offset packet_end).

(** ** Keys

    What [quinn::crypto::ServerConfig::initial_keys] returns, as far as the gate
    uses it: the remote header key and the remote packet key. *)

Record Keys := mkKeys {
  sample_size : Z;
  header_decrypt : Z → bytes → bytes;
  tag_len : Z;
  packet_decrypt : Z → bytes → bytes → option bytes;
}.

Class ServerConfig := initial_keys : Z → bytes → option Keys.

(** A value the source's [?] returns early from, inside a function that may
    panic: [Some None] is the early return, [None] the panic. *)
Definition try_or_none {A R} (o : option A) (k : A → option (option R)) : option (option R) :=
  match o with
  | Some a => k a
  | None => Some None
  end.

Notation "'let!' x := o 'in' k" := (try_or_none o (λ x, k))
  (at level 10, x pattern, o at level 100, k at level 200) : result_scope.

Section Judge.
Context `{crypto : ServerConfig}.

Definition decrypt (datagram : bytes) (header : InitialHeader) : option (option bytes) :=
  let! number_end_limit := checked_add (packet_number_offset header) 4 in
  if packet_end header <? number_end_limit then Some None
  else
    dcid_bytes ← get_range datagram (dcid header).1 (dcid header).2;
    let! keys := initial_keys QUIC_V1 dcid_bytes in
    let! sample_end := checked_add number_end_limit (sample_size keys) in
    if packet_end header <? sample_end then Some None
    else
      head ← get_range datagram 0 sample_end;
      let head := header_decrypt keys (packet_number_offset header) head in
      first ← get_at head 0;
      let number_length := Z.land (u8 first) 0x03 + 1 in
      let! number_end := checked_add (packet_number_offset header) number_length in
      if packet_end header <? number_end then Some None
      else
        number_bytes ← get_range head (packet_number_offset header) number_end;
        let number := be_fold 0 number_bytes in
        if packet_end header - number_end <? tag_len keys then Some None
        else
          frames ← get_range datagram number_end (packet_end header);
          aad ← get_range head 0 number_end;
          Some (packet_decrypt keys number aad frames).

(** ** The verdict *)

Inductive Refusal :=
  | Version (version : Z)
  | ShortConnectionId (length_ : Z)
  | NotClientHello
  | Anonymous
  | OtherName (name : bytes).

Inductive Verdict :=
  | Pass
  | Refuse (refusal : Refusal).

Definition judge_flight (crypto_bytes : bytes) (expected : Names) : Verdict :=
  match first_flight crypto_bytes with
  | Truncated => Pass
  | NotAClientHello => Refuse NotClientHello
  | AnonymousHello => Refuse Anonymous
  | Named name =>
      match from_utf8 name with
      | Some text => if accepts expected text then Pass else Refuse (OtherName name)
      | None => Refuse (OtherName name)
      end
  end.

Definition judge (datagram : bytes) (expected : Names) : option Verdict :=
  match datagram with
  | [] => Some Pass
  | first :: _ =>
      if Z.land (u8 first) LONG_HEADER_FORM =? 0 then Some Pass
      else
        match get_range datagram 1 5 with
        | None => Some Pass
        | Some version =>
            let version := be_fold 0 version in
            if negb (version =? QUIC_V1) then Some (Refuse (Version version))
            else if negb (Z.land (u8 first) LONG_PACKET_TYPE =? INITIAL_PACKET_TYPE) then
              Some Pass
            else if blen datagram <? MIN_INITIAL_DATAGRAM then Some Pass
            else
              match parse_initial datagram with
              | None => Some Pass
              | Some header =>
                  let dcid_len := (dcid header).2 - (dcid header).1 in
                  if dcid_len <? MIN_CLIENT_CONNECTION_ID then
                    Some (Refuse (ShortConnectionId dcid_len))
                  else
                    match decrypt datagram header with
                    | None => None
                    | Some None => Some Pass
                    | Some (Some frames) =>
                        match crypto_stream_prefix frames with
                        | None => Some Pass
                        | Some crypto_bytes => Some (judge_flight crypto_bytes expected)
                        end
                    end
              end
        end
  end.

Definition blind (datagram : bytes) : bytes :=
  if DCID_LENGTH_OFFSET <? blen datagram
  then <[Z.to_nat DCID_LENGTH_OFFSET := IMPOSSIBLE_CID_LENGTH]> datagram
  else datagram.

Definition screen (datagram : bytes) (expected : Names) : option bytes :=
  match judge datagram expected with
  | None => None
  | Some Pass => Some datagram
  | Some (Refuse _) => Some (blind datagram)
  end.

(** ** The receive path *)

(** The fields of [quinn::udp::RecvMeta] the gate reads. *)
Record RecvMeta := mkRecvMeta { meta_len : Z; meta_stride : Z }.

(** One turn of the walk over a buffer: the datagram at [at_] is screened in
    place. *)
Definition walk_step (expected : Names) (len stride : Z) (s : Z * bytes)
    : (Z * bytes) + option bytes :=
  let '(at_, buf) := s in
  if negb (at_ <? len) then inr (Some buf)
  else
    let end_ := Z.min (saturating_add 64 at_ stride) len in
    match (datagram ← get_range buf at_ end_; screen datagram expected) with
    | None => inr None
    | Some datagram =>
        inl (end_, take (Z.to_nat at_) buf ++ datagram ++ drop (Z.to_nat end_) buf)
    end.

(** [buf.len()], a [usize]; the bytes of the buffer that were received and the
    distance between two datagrams of the run. *)
Definition usize_len (buf : bytes) : Z := wrap 64 (blen buf).
Definition run_len (m : RecvMeta) (buf : bytes) : Z := Z.min (meta_len m) (usize_len buf).
Definition run_stride (m : RecvMeta) : Z := Z.max (meta_stride m) 1.

#[export] Program Instance walk_loop expected m buf :
    Loop (walk_step expected (run_len m buf) (run_stride m)) :=
  {| loop_measure s := Z.to_nat (run_len m buf - s.1) |}.
Next Obligation.
  intros expected m buf [a b] [a' b']. unfold walk_step.
  destruct (Z.ltb_spec a (run_len m buf)) as [Ha|]; simpl; [|done]. case_match; [|done].
  intros [= <- <-]. pose proof (wrap_uint 64 (blen buf) ltac:(lia)) as Hu.
  unfold is_uint in Hu. unfold saturating_add, run_len, run_stride, usize_len in *. lia.
Qed.

Definition walk (expected : Names) (m : RecvMeta) (buf : bytes) : option bytes :=
  run (walk_step expected (run_len m buf) (run_stride m)) (0, buf).

(** The first [count] buffers of the batch, each with its description. *)
Fixpoint screen_batch (expected : Names) (count : nat) (metas : list RecvMeta)
    (bufs : list bytes) : option (list bytes) :=
  match count, metas, bufs with
  | S count, m :: metas, buf :: bufs =>
      buf ← walk expected m buf;
      bufs ← screen_batch expected count metas bufs;
      Some (buf :: bufs)
  | _, _, _ => Some bufs
  end.

(** What the inner socket's [poll_recv] said; the buffers and descriptions it
    filled are the arguments of [poll_recv]. *)
Inductive PollRecv :=
  | Pending
  | ReadyErr
  | ReadyOk (count : nat).

(** The flag and the list are two reads, between which a reload may fall. *)
Definition poll_recv (at_flag at_list : Held) (inner : PollRecv) (metas : list RecvMeta)
    (bufs : list bytes) : option (PollRecv * list bytes) :=
  match inner with
  | ReadyOk count =>
      if negb (expected_any at_flag) then Some (ReadyOk count, bufs)
      else
        let expected := expected_current at_list in
        if names_is_empty expected then Some (ReadyOk count, bufs)
        else
          bufs ← screen_batch expected count metas bufs;
          Some (ReadyOk count, bufs)
  | other => Some (other, bufs)
  end.
End Judge.
