(* ===== verification/GateFacts.v ===== *)
(** * What the SNI gate reads (facts about gate.rs)

    The configured names; the ClientHello grammar of RFC 8446 and RFC 6066 that
    [first_flight] reads, and exactly what it says of every byte string; the
    frames of an Initial packet and the CRYPTO stream they carry, in whatever
    order its fragments come. *)

From S2P Require Import Prelude Datagram Utf8 Message Gate.

#[local] Open Scope Z_scope.

(** ** Names *)

Lemma to_ascii_lowercase_idem x : to_ascii_lowercase (to_ascii_lowercase x) = to_ascii_lowercase x.
Proof. by destruct x. Qed.

Lemma lowercase_map_idem l :
  map to_ascii_lowercase (map to_ascii_lowercase l) = map to_ascii_lowercase l.
Proof. rewrite map_map. apply map_ext, to_ascii_lowercase_idem. Qed.

(** The gate accepts a name exactly when it is a configured one, compared
    without case and with one trailing root dot ignored on both sides; no
    wildcard and no suffix is accepted. *)
Theorem accepts_exact configured name :
  accepts (names_new configured) name = true ↔
  ∃ c, c ∈ configured ∧ normalise c = normalise name.
Proof.
  unfold accepts, names_new, eq_ignore_ascii_case; simpl.
  rewrite existsb_exists. split.
  - intros (held & Hin & Heq). apply in_map_iff in Hin as (c & <- & Hc).
    exists c. split; [by apply list_elem_of_In|].
    apply bool_decide_eq_true in Heq. unfold normalise in *. by rewrite lowercase_map_idem in Heq.
  - intros (c & Hc & Heq). exists (normalise c). split.
    + by apply in_map, list_elem_of_In.
    + apply bool_decide_eq_true. unfold normalise in *. by rewrite lowercase_map_idem.
Qed.

(** ** Length-prefixed vectors *)

Definition vec8 (b : bytes) : bytes := be_bytes 1 (blen b) ++ b.
Definition vec16 (b : bytes) : bytes := be_bytes 2 (blen b) ++ b.

Lemma be_fold_short n v :
  (n ≤ 7)%nat → is_uint (8 * Z.of_nat n) v → be_fold 0 (be_bytes n v) = v.
Proof.
  intros Hn Hv. rewrite be_fold_be_bytes; [|lia|].
  - rewrite Z.mul_0_l, Z.add_0_l. by apply Z.mod_small.
  - transitivity (2 ^ 56); [|lia]. rewrite Z.mul_0_l. apply Z.pow_le_mono_r; lia.
Qed.

Lemma be_fold_range w : (length w ≤ 8)%nat → is_uint (8 * blen w) (be_fold 0 w).
Proof. intros Hw. apply (be_fold_bound w 0 0); unfold blen; lia. Qed.

Lemma be_fold_snoc w x :
  (length w ≤ 7)%nat → be_fold 0 (w ++ [x]) = be_fold 0 w * 256 + u8 x.
Proof.
  intros Hw. unfold be_fold. rewrite foldl_app. cbn [foldl]. apply be_fold_step.
  pose proof (be_fold_range w ltac:(lia)) as [H0 H]. split; [done|].
  eapply Z.lt_le_trans; [exact H|]. apply Z.pow_le_mono_r; unfold blen; lia.
Qed.

Lemma be_fold_inj w1 w2 :
  length w1 = length w2 → (length w1 ≤ 8)%nat → be_fold 0 w1 = be_fold 0 w2 → w1 = w2.
Proof.
  revert w2. induction w1 as [|x w1 IH] using rev_ind; intros w2 Hlen Hle Heq.
  { by destruct w2. }
  destruct w2 as [|y w2 _] using rev_ind; [rewrite length_app in Hlen; simpl in Hlen; lia|].
  rewrite !length_app in *; simpl in *. rewrite !be_fold_snoc in Heq by lia.
  pose proof (u8_range x). pose proof (u8_range y).
  rewrite (IH w2), (u8_inj x y); [done|lia..].
Qed.

Lemma be_bytes_fold w : (length w ≤ 7)%nat → be_bytes (length w) (be_fold 0 w) = w.
Proof.
  intros Hw. apply be_fold_inj; rewrite ?length_be_bytes; [done|lia|].
  apply be_fold_short; [done|]. apply be_fold_range. lia.
Qed.

Lemma reader_take_exact n r h r' :
  reader_take n r = Some (h, r') ↔ r = h ++ r' ∧ length h = n.
Proof.
  split; [apply reader_take_length|]. intros [-> <-]. unfold reader_take.
  rewrite decide_True by (rewrite length_app; lia). by rewrite take_app_length, drop_app_length.
Qed.

Lemma reader_byte_exact r v r' :
  reader_byte r = Some (v, r') ↔ r = be_bytes 1 v ++ r' ∧ is_uint 8 v.
Proof.
  unfold is_uint. destruct r as [|x r]; cbn [be_bytes app Z.of_nat]; [naive_solver|].
  change (8 * Z.of_nat 0) with 0. rewrite Z.shiftr_0_r. split.
  - intros [= <- <-]. rewrite as_u8_u8. split; [done|apply u8_range].
  - intros [[= -> ->] Hv]. cbn [reader_byte]. by rewrite u8_as_u8, wrap_id.
Qed.

Lemma reader_u16_exact r v r' :
  reader_u16 r = Some (v, r') ↔ r = be_bytes 2 v ++ r' ∧ is_uint 16 v.
Proof.
  unfold reader_u16. split.
  - destruct (reader_take 2 r) as [[h r1]|] eqn:E; cbn [mbind option_bind]; [|done]. intros [= <- <-].
    apply reader_take_exact in E as [-> Hh]. rewrite <- Hh at 1. rewrite be_bytes_fold by lia.
    split; [done|]. pose proof (be_fold_range h ltac:(lia)) as H.
    unfold blen in H. by rewrite Hh in H.
  - intros [-> Hv]. rewrite (proj2 (reader_take_exact _ _ (be_bytes 2 v) r')); cbn [mbind option_bind].
    + by rewrite <- (be_fold_short 2 v) at 2 by (unfold is_uint in *; lia).
    + done.
Qed.

Lemma reader_u24_exact r n r' :
  reader_u24 r = Some (n, r') ↔ r = be_bytes 3 (Z.of_nat n) ++ r' ∧ is_uint 24 (Z.of_nat n).
Proof.
  assert (∀ b0 b1 b2, Z.lor (Z.lor (Z.shiftl (u8 b0) 16) (Z.shiftl (u8 b1) 8)) (u8 b2)
    = be_fold 0 [b0; b1; b2]) as Hfold.
  { intros. pose proof (u8_range b0). pose proof (u8_range b1). pose proof (u8_range b2).
    change 16 with (8 + 8). rewrite <- Z.shiftl_shiftl, <- Z.shiftl_lor by lia.
    change [b0; b1; b2] with ((([] ++ [b0]) ++ [b1]) ++ [b2]).
    rewrite !be_fold_snoc by (simpl; lia). change (be_fold 0 []) with 0.
    rewrite (lor_add_low (u8 b0)), lor_add_low by lia. lia. }
  split.
  - destruct r as [|b0 [|b1 [|b2 r]]]; try done. cbn [reader_u24]. rewrite Hfold.
    pose proof (be_fold_range [b0; b1; b2] ltac:(simpl; lia)) as [Hb0 Hb].
    pose proof (be_bytes_fold [b0; b1; b2] ltac:(simpl; lia)) as Hw.
    change (8 * blen [b0; b1; b2]) with 24 in Hb. cbn [length] in Hw.
    generalize dependent (be_fold 0 [b0; b1; b2]); intros v Hv0 Hv Hw [= <- <-].
    rewrite Z2Nat.id, Hw by lia. done.
  - intros [-> Hn]. cbn [be_bytes app reader_u24]. rewrite Hfold.
    change [_; _; _] with (be_bytes 3 (Z.of_nat n)).
    rewrite be_fold_short by (done || lia). by rewrite Nat2Z.id.
Qed.

(** A vector is its length and its bytes, when the length fits the prefix. *)
Lemma vector8_exact r v r' :
  vector8 r = Some (v, r') ↔ r = vec8 v ++ r' ∧ blen v < 2 ^ 8.
Proof.
  unfold vector8, vec8. split.
  - destruct (reader_byte r) as [[k r1]|] eqn:E; cbn [mbind option_bind]; [|done].
    apply reader_byte_exact in E as [-> [H0 Hk]]. intros [-> Hv]%reader_take_exact.
    unfold blen. rewrite Hv, Z2Nat.id by lia. by rewrite <- app_assoc.
  - intros [-> Hv]. rewrite <- app_assoc, (proj2 (reader_byte_exact _ (blen v) (v ++ r'))).
    + cbn [mbind option_bind]. apply reader_take_exact. unfold blen. by rewrite Nat2Z.id.
    + split; [done|]. split; [apply blen_nonneg|done].
Qed.

Lemma vector16_exact r v r' :
  vector16 r = Some (v, r') ↔ r = vec16 v ++ r' ∧ blen v < 2 ^ 16.
Proof.
  unfold vector16, vec16. split.
  - destruct (reader_u16 r) as [[k r1]|] eqn:E; cbn [mbind option_bind]; [|done].
    apply reader_u16_exact in E as [-> [H0 Hk]]. intros [-> Hv]%reader_take_exact.
    unfold blen. rewrite Hv, Z2Nat.id by lia. by rewrite <- app_assoc.
  - intros [-> Hv]. rewrite <- app_assoc, (proj2 (reader_u16_exact _ (blen v) (v ++ r'))).
    + cbn [mbind option_bind]. apply reader_take_exact. unfold blen. by rewrite Nat2Z.id.
    + split; [done|]. split; [apply blen_nonneg|done].
Qed.

(** ** Lists of typed entries

    Both loops look for the first entry of one type in a list of entries, each a
    type and a vector. *)
Section Entries.
Context (kread : bytes → option (Z * bytes)) (kind_bytes : Z → bytes) (kind_ok : Z → Prop).
Context (wanted : Z) (step : bytes → bytes + option bytes) `{!Loop step}.
Hypothesis kread_exact : ∀ r k r', kread r = Some (k, r') ↔ r = kind_bytes k ++ r' ∧ kind_ok k.
Hypothesis kind_cons : ∀ k, ∃ x l, kind_bytes k = x :: l.
Hypothesis step_eq : ∀ x r, step (x :: r) =
  match ('(kind, r) ← kread (x :: r); '(v, r) ← vector16 r; Some (kind, v, r)) with
  | None => inr None
  | Some (kind, v, r) => if kind =? wanted then inr (Some v) else inl r
  end.
Hypothesis step_nil : step [] = inr None.

Definition entry_bytes (e : Z * bytes) : bytes := kind_bytes e.1 ++ vec16 e.2.
Definition entry_ok (e : Z * bytes) : Prop := kind_ok e.1 ∧ blen e.2 < 2 ^ 16.

(** [v] is the value of the first entry of the wanted type; what follows it is
    not read. *)
Definition first_entry (r v : bytes) : Prop :=
  ∃ before after,
    r = concat (map entry_bytes before) ++ entry_bytes (wanted, v) ++ after ∧
    Forall (λ e, entry_ok e ∧ e.1 ≠ wanted) before ∧ entry_ok (wanted, v).

Lemma step_entry e r :
  entry_ok e → step (entry_bytes e ++ r) = if e.1 =? wanted then inr (Some e.2) else inl r.
Proof.
  intros [Hk Hv]. destruct (kind_cons e.1) as (x & l & Hx).
  assert (entry_bytes e ++ r = x :: (l ++ vec16 e.2 ++ r)) as Heq.
  { unfold entry_bytes. by rewrite Hx, <- !app_assoc. }
  rewrite Heq, step_eq, <- Heq. unfold entry_bytes. rewrite <- !app_assoc.
  rewrite (proj2 (kread_exact _ e.1 (vec16 e.2 ++ r))) by done. cbn [mbind option_bind].
  rewrite (proj2 (vector16_exact _ e.2 r)) by done. done.
Qed.

Lemma first_entry_exact r v : run step r = Some v ↔ first_entry r v.
Proof.
  split.
  - apply (run_ind step (λ r o, o = Some v → first_entry r v)); clear r.
    + intros [|x r] o; [rewrite step_nil; by intros [= <-]|]. rewrite step_eq.
      destruct (kread _) as [[k r1]|] eqn:E1; cbn [mbind option_bind]; [|by intros [= <-]].
      destruct (vector16 r1) as [[w r2]|] eqn:E2; cbn [mbind option_bind]; [|by intros [= <-]].
      destruct (Z.eqb_spec k wanted) as [->|]; [|done]. intros [= <-] [= ->].
      apply kread_exact in E1 as [-> Hk]. apply vector16_exact in E2 as [-> Hw].
      exists [], r2. unfold entry_bytes; cbn [map concat app fst snd]. by rewrite <- app_assoc.
    + intros [|x r] r'; [by rewrite step_nil|]. rewrite step_eq.
      destruct (kread _) as [[k r1]|] eqn:E1; cbn [mbind option_bind]; [|done].
      destruct (vector16 r1) as [[w r2]|] eqn:E2; cbn [mbind option_bind]; [|done].
      destruct (Z.eqb_spec k wanted) as [->|Hne]; [done|]. intros [= ->] IH Hr.
      destruct (IH Hr) as (before & after & -> & Hall & Hok).
      apply kread_exact in E1 as [-> Hk]. apply vector16_exact in E2 as [-> Hw].
      exists ((k, w) :: before), after. split; [|split; [by constructor|done]].
      cbn [map concat]. unfold entry_bytes at 3. cbn [fst snd]. by rewrite <- !app_assoc.
  - intros (before & after & -> & Hall & Hok). induction Hall as [|e before [He Hne] _ IH]; simpl.
    + rewrite run_unfold, (step_entry (wanted, v)) by done. simpl. by rewrite Z.eqb_refl.
    + rewrite <- app_assoc, run_unfold, step_entry by done.
      by rewrite (proj2 (Z.eqb_neq _ _)).
Qed.
End Entries.

(** ** The ClientHello *)

(** A host name in the body of a [server_name] extension (RFC 6066, section 3). *)
Definition sni_wire (ext name : bytes) : Prop :=
  ∃ entries junk, ext = vec16 entries ++ junk ∧ blen entries < 2 ^ 16 ∧
    first_entry (be_bytes 1) (is_uint 8) HOST_NAME entries name.

(** The body of a ClientHello (RFC 8446, section 4.1.2) whose [server_name] is
    [name]. *)
Definition hello_wire (body name : bytes) : Prop :=
  ∃ version random session_id cipher_suites compression extensions junk ext,
    body = version ++ random ++ vec8 session_id ++ vec16 cipher_suites ++
           vec8 compression ++ vec16 extensions ++ junk ∧
    length version = 2%nat ∧ length random = 32%nat ∧
    blen session_id < 2 ^ 8 ∧ blen cipher_suites < 2 ^ 16 ∧ blen compression < 2 ^ 8 ∧
    blen extensions < 2 ^ 16 ∧
    first_entry (be_bytes 2) (is_uint 16) SERVER_NAME_EXTENSION extensions ext ∧
    sni_wire ext name.

Lemma host_name_exact ext name : host_name ext = Some name ↔ sni_wire ext name.
Proof.
  assert (∀ r v, run host_name_step r = Some v ↔
    first_entry (be_bytes 1) (is_uint 8) HOST_NAME r v) as Hloop.
  { intros. apply first_entry_exact with (kread := reader_byte); eauto using reader_byte_exact. }
  unfold host_name, sni_wire. split.
  - destruct (vector16 ext) as [[entries junk]|] eqn:E; cbn [mbind option_bind]; [|done].
    apply vector16_exact in E as [-> He]. rewrite Hloop. eauto.
  - intros (entries & junk & -> & He & Hn).
    rewrite (proj2 (vector16_exact _ entries junk)) by done. by apply Hloop.
Qed.

Lemma server_name_exact body name : server_name body = Some name ↔ hello_wire body name.
Proof.
  assert (∀ r v, run extension_step r = Some v ↔
    first_entry (be_bytes 2) (is_uint 16) SERVER_NAME_EXTENSION r v) as Hloop.
  { intros. apply first_entry_exact with (kread := reader_u16); eauto using reader_u16_exact. }
  unfold server_name, hello_wire. split.
  - intros H. split_reads H.
    repeat match goal with
    | H : reader_take _ _ = Some _ |- _ => apply reader_take_exact in H as [-> ?]
    | H : vector8 _ = Some _ |- _ => apply vector8_exact in H as [-> ?]
    | H : vector16 _ = Some _ |- _ => apply vector16_exact in H as [-> ?]
    end.
    rewrite host_name_exact in H. match goal with H : run _ _ = _ |- _ => apply Hloop in H end.
    eauto 20.
  - intros (version & random & session_id & cipher_suites & compression & extensions & junk &
      ext & -> & Hv & Hr & Hs & Hc & Hm & He & Hext & Hname).
    rewrite (proj2 (reader_take_exact 2 _ version _)) by done. cbn [mbind option_bind].
    rewrite (proj2 (reader_take_exact 32 _ random _)) by done. cbn [mbind option_bind].
    rewrite (proj2 (vector8_exact _ session_id _)) by done. cbn [mbind option_bind].
    rewrite (proj2 (vector16_exact _ cipher_suites _)) by done. cbn [mbind option_bind].
    rewrite (proj2 (vector8_exact _ compression _)) by done. cbn [mbind option_bind].
    rewrite (proj2 (vector16_exact _ extensions _)) by done. cbn [mbind option_bind].
    rewrite (proj2 (Hloop _ ext)) by done. by apply host_name_exact.
Qed.

(** A handshake message: the type, the 24-bit length and the body. *)
Definition handshake (kind : Z) (body : bytes) : bytes :=
  be_bytes 1 kind ++ be_bytes 3 (blen body) ++ body.

(** What [first_flight] does once the type of the message is known. *)
Lemma first_flight_hello r :
  first_flight (be_bytes 1 CLIENT_HELLO ++ r) =
  match ('(n, r) ← reader_u24 r; reader_take n r) with
  | None => Truncated
  | Some (body, _) => match server_name body with Some n => Named n | None => AnonymousHello end
  end.
Proof.
  unfold first_flight. rewrite (proj2 (reader_byte_exact _ CLIENT_HELLO r)) by done.
  cbn [negb Z.eqb CLIENT_HELLO Pos.eqb]. by destruct (reader_u24 r) as [[n r1]|].
Qed.

Lemma take_hello_exact r body rest :
  ('(n, r) ← reader_u24 r; reader_take n r) = Some (body, rest) ↔
  r = be_bytes 3 (blen body) ++ body ++ rest ∧ blen body < 2 ^ 24.
Proof.
  split.
  - destruct (reader_u24 r) as [[n r1]|] eqn:E; cbn [mbind option_bind]; [|done].
    apply reader_u24_exact in E as [-> [_ Hn]]. by intros [-> <-]%reader_take_exact.
  - intros [-> Hb]. rewrite (proj2 (reader_u24_exact _ (length body) (body ++ rest))).
    + cbn [mbind option_bind]. by apply reader_take_exact.
    + split; [done|]. split; [lia|done].
Qed.

Lemma handshake_eq kind body rest :
  handshake kind body ++ rest = be_bytes 1 kind ++ be_bytes 3 (blen body) ++ body ++ rest.
Proof. unfold handshake. by rewrite <- !app_assoc. Qed.

Lemma be_bytes_inj n v w l l' :
  (n ≤ 7)%nat → is_uint (8 * Z.of_nat n) v → is_uint (8 * Z.of_nat n) w →
  be_bytes n v ++ l = be_bytes n w ++ l' → v = w ∧ l = l'.
Proof.
  intros Hn Hv Hw Heq. apply app_inj_1 in Heq as [Hb ->]; [|by rewrite !length_be_bytes].
  apply (f_equal (be_fold 0)) in Hb. by rewrite !be_fold_short in Hb.
Qed.

Lemma first_flight_cases crypto :
  crypto = [] ∨
  (∃ x r, crypto = x :: r ∧ u8 x ≠ CLIENT_HELLO ∧ first_flight crypto = NotAClientHello) ∨
  (∃ r, crypto = be_bytes 1 CLIENT_HELLO ++ r).
Proof.
  destruct crypto as [|x r]; [by left|]. right.
  destruct (Z.eqb_spec (u8 x) CLIENT_HELLO) as [Hx|Hx].
  - right. exists r. change (be_bytes 1 CLIENT_HELLO) with [as_u8 CLIENT_HELLO].
    by rewrite <- Hx, as_u8_u8.
  - left. exists x, r. split_and!; [done..|]. unfold first_flight; cbn [reader_byte].
    by rewrite (proj2 (Z.eqb_neq _ _) Hx).
Qed.

(** A message whose length cannot be read yet, or whose bytes are not all here,
    is the beginning of some whole message. *)
Lemma hello_prefix_completes r :
  ('(n, r) ← reader_u24 r; reader_take n r) = None →
  ∃ body more, blen body < 2 ^ 24 ∧ more ≠ [] ∧ r ++ more = be_bytes 3 (blen body) ++ body.
Proof.
  intros Hnone. destruct (reader_u24 r) as [[n r1]|] eqn:E.
  - apply reader_u24_exact in E as [-> [_ Hn]]. cbn [mbind option_bind] in Hnone.
    unfold reader_take in Hnone. case_decide as Hlen; [done|].
    exists (r1 ++ replicate (n - length r1) Byte.x00), (replicate (n - length r1) Byte.x00).
    rewrite blen_app. unfold blen. rewrite length_replicate. split_and!.
    + lia.
    + by replace (n - length r1)%nat with (S (n - length r1 - 1))%nat by lia.
    + rewrite <- app_assoc. do 2 f_equal. lia.
  - assert (length r < 3)%nat as Hr by (destruct r as [|? [|? [|? ?]]]; simpl; try lia; done).
    set (w := r ++ replicate (3 - length r) Byte.x00).
    assert (length w = 3%nat) as Hw.
    { unfold w. rewrite length_app, length_replicate. lia. }
    pose proof (be_fold_range w ltac:(lia)) as [Hw0 Hw1]. unfold blen in Hw1. rewrite Hw in Hw1.
    set (n := Z.to_nat (be_fold 0 w)).
    exists (replicate n Byte.x00), (replicate (3 - length r) Byte.x00 ++ replicate n Byte.x00).
    assert (blen (replicate n Byte.x00) = be_fold 0 w) as Hn.
    { unfold blen. rewrite length_replicate. unfold n. lia. }
    rewrite Hn. split_and!.
    + exact Hw1.
    + by replace (3 - length r)%nat with (S (2 - length r)) by lia.
    + rewrite app_assoc. fold w. rewrite <- Hw. by rewrite be_bytes_fold by lia.
Qed.

(** [crypto] begins with the whole ClientHello of this body; it begins with
    another message; it is a proper beginning of some ClientHello. *)
Definition whole_hello (crypto body : bytes) : Prop :=
  ∃ rest, crypto = handshake CLIENT_HELLO body ++ rest ∧ blen body < 2 ^ 24.

Definition other_message (crypto : bytes) : Prop :=
  ∃ x rest, crypto = x :: rest ∧ u8 x ≠ CLIENT_HELLO.

Definition partial_hello (crypto : bytes) : Prop :=
  ∃ body more, blen body < 2 ^ 24 ∧ more ≠ [] ∧ crypto ++ more = handshake CLIENT_HELLO body.

Lemma first_flight_read crypto :
  match first_flight crypto with
  | Named name => ∃ body, whole_hello crypto body ∧ hello_wire body name
  | AnonymousHello => ∃ body, whole_hello crypto body ∧ ∀ name, ¬ hello_wire body name
  | NotAClientHello => other_message crypto
  | Truncated => partial_hello crypto
  end.
Proof.
  destruct (first_flight_cases crypto) as [->|[(x & r & -> & Hx & ->)|(r & ->)]].
  { by exists [], (handshake CLIENT_HELLO []). }
  { by exists x, r. }
  rewrite first_flight_hello. destruct (mbind _ (reader_u24 r)) as [[body rest]|] eqn:E.
  - apply take_hello_exact in E as [-> Hb].
    assert (whole_hello (be_bytes 1 CLIENT_HELLO ++ be_bytes 3 (blen body) ++ body ++ rest) body).
    { exists rest. by rewrite handshake_eq. }
    destruct (server_name body) as [n|] eqn:En; exists body; (split; [done|]).
    + by apply server_name_exact.
    + intros name Hn%server_name_exact. by rewrite Hn in En.
  - apply hello_prefix_completes in E as (body & more & Hb & Hm & Heq).
    exists body, more. split_and!; [done..|]. unfold handshake. by rewrite <- Heq, app_assoc.
Qed.

Lemma hello_body_inj body body' l l' :
  blen body < 2 ^ 24 → blen body' < 2 ^ 24 →
  handshake CLIENT_HELLO body ++ l = handshake CLIENT_HELLO body' ++ l' → body = body' ∧ l = l'.
Proof.
  intros Hb Hb' Heq. rewrite !handshake_eq in Heq. apply app_inv_head in Heq.
  apply be_bytes_inj in Heq as [Hlen Heq]; [|lia|by split; [apply blen_nonneg|]..].
  apply app_inj_1 in Heq; [done|]. unfold blen in Hlen. lia.
Qed.

Lemma whole_unique crypto body body' :
  whole_hello crypto body → whole_hello crypto body' → body = body'.
Proof. intros (l & -> & Hb) (l' & Heq & Hb'). by apply hello_body_inj in Heq as [-> _]. Qed.

Lemma whole_not_other crypto body : whole_hello crypto body → ¬ other_message crypto.
Proof. intros (l & -> & _) (x & r & [= <- _] & Hx). by rewrite u8_as_u8 in Hx. Qed.

Lemma whole_not_partial crypto body : whole_hello crypto body → ¬ partial_hello crypto.
Proof.
  intros (l & -> & Hb) (body' & more & Hb' & Hm & Heq).
  rewrite <- app_assoc, <- (app_nil_r (handshake _ body')) in Heq.
  apply hello_body_inj in Heq as [_ [_ ->]%app_nil]; done.
Qed.

Lemma other_not_partial crypto : other_message crypto → ¬ partial_hello crypto.
Proof.
  intros (x & r & -> & Hx) (body & more & _ & _ & [= -> _]). by rewrite u8_as_u8 in Hx.
Qed.

Lemma first_flight_named body rest name :
  blen body < 2 ^ 24 → hello_wire body name →
  first_flight (handshake CLIENT_HELLO body ++ rest) = Named name.
Proof.
  intros Hb Hn%server_name_exact. rewrite handshake_eq, first_flight_hello.
  rewrite (proj2 (take_hello_exact _ body rest)) by done. by rewrite Hn.
Qed.

(** Exactly what the gate reads in the CRYPTO bytes of a first flight: a
    name when a whole ClientHello carries it as its [server_name], nobody when a
    whole ClientHello does not, no ClientHello when the first message is another
    one, and "not all here" precisely for the proper beginnings of a ClientHello,
    so that a hello spread over several packets is never taken for one without a
    name. *)
Theorem first_flight_exact crypto :
  (∀ name, first_flight crypto = Named name ↔
    ∃ body, whole_hello crypto body ∧ hello_wire body name) ∧
  (first_flight crypto = AnonymousHello ↔
    ∃ body, whole_hello crypto body ∧ ∀ name, ¬ hello_wire body name) ∧
  (first_flight crypto = NotAClientHello ↔ other_message crypto) ∧
  (first_flight crypto = Truncated ↔ partial_hello crypto).
Proof.
  assert (∀ body n n', hello_wire body n → hello_wire body n' → n = n') as Huniq.
  { intros body n n' Hn%server_name_exact Hn'%server_name_exact. congruence. }
  pose proof (first_flight_read crypto) as Hread.
  pose proof (whole_not_other crypto) as Hwo. pose proof (whole_not_partial crypto) as Hwp.
  pose proof (other_not_partial crypto) as Hop.
  destruct (first_flight crypto); split_and!; try (intros name'); split; try done;
    try (by intros (body' & Hb' & _); naive_solver);
    try (by intros Hx; naive_solver).
  - destruct Hread as (body & Hb & Hno). intros (body' & Hb' & Hw).
    rewrite (whole_unique _ _ _ Hb' Hb) in Hw. by destruct (Hno name').
  - destruct Hread as (body & Hb & Hn). intros (body' & Hb' & Hw).
    rewrite (whole_unique _ _ _ Hb' Hb) in Hw. f_equal. by eapply Huniq.
  - destruct Hread as (body & Hb & Hn). intros (body' & Hb' & Hw).
    rewrite (whole_unique _ _ _ Hb' Hb) in Hw. by destruct (Hw name).
Qed.

