(* ===== verification/GateStream.v ===== *)
(** * The CRYPTO stream of an Initial packet (facts about gate.rs)

    The frames RFC 9000 lets an Initial packet carry, as a grammar; the walk of
    [crypto_stream_prefix] finds exactly the CRYPTO fragments of such a payload,
    and fragments that cut one stream, in any order and with any overlap, read as
    that stream. *)


From S2P Require Import Prelude Datagram Gate.

#[local] Open Scope Z_scope.

(** ** Positions in a buffer *)

Lemma get_from_app (pre post : bytes) : get_from (pre ++ post) (blen pre) = Some post.
Proof.
  unfold get_from, get_range. rewrite blen_app. pose proof (blen_nonneg pre).
  pose proof (blen_nonneg post).
  rewrite (proj2 (andb_true_iff _ _)) by (rewrite andb_true_iff; lia).
  replace (blen pre + blen post - blen pre) with (blen post) by lia.
  unfold blen. by rewrite !Nat2Z.id, drop_app_length, take_ge.
Qed.

Lemma get_range_app (pre mid post : bytes) :
  get_range (pre ++ mid ++ post) (blen pre) (blen pre + blen mid) = Some mid.
Proof.
  unfold get_range. rewrite !blen_app. pose proof (blen_nonneg pre).
  pose proof (blen_nonneg mid). pose proof (blen_nonneg post).
  rewrite (proj2 (andb_true_iff _ _)) by (rewrite andb_true_iff; lia).
  replace (blen pre + blen mid - blen pre) with (blen mid) by lia.
  unfold blen. by rewrite !Nat2Z.id, drop_app_length, take_app_length.
Qed.

Lemma checked_add_fits x y : x + y < 2 ^ 64 → checked_add x y = Some (x + y).
Proof. intros H. unfold checked_add. by rewrite (proj2 (Z.ltb_lt _ _)). Qed.

Lemma blen_snoc (pre w : bytes) : blen pre + Z.of_nat (length w) = blen (pre ++ w).
Proof. by rewrite blen_app. Qed.

(** ** Frames *)

(** A varint field of any encoding whose value is not used. *)
Definition any_varint (w : bytes) : Prop := ∃ v, is_varint w v.

(** The bytes of one frame and the CRYPTO fragments it carries. *)
Inductive frame_wire : bytes → list Fragment → Prop :=
  | wire_padding t : is_varint t FRAME_PADDING → frame_wire t []
  | wire_ping t : is_varint t FRAME_PING → frame_wire t []
  | wire_ack t largest delay count first n ranges :
      is_varint t FRAME_ACK → any_varint largest → any_varint delay → is_varint count n →
      any_varint first → Forall any_varint ranges → blen ranges = n * 2 →
      frame_wire (t ++ largest ++ delay ++ count ++ first ++ concat ranges) []
  | wire_ack_ecn t largest delay count first n ranges ect0 ect1 ce :
      is_varint t FRAME_ACK_ECN → any_varint largest → any_varint delay → is_varint count n →
      any_varint first → Forall any_varint ranges → blen ranges = n * 2 →
      any_varint ect0 → any_varint ect1 → any_varint ce →
      frame_wire (t ++ largest ++ delay ++ count ++ first ++ concat ranges ++
                  ect0 ++ ect1 ++ ce) []
  | wire_crypto t woffset offset wlength data :
      is_varint t FRAME_CRYPTO → is_varint woffset offset → is_varint wlength (blen data) →
      frame_wire (t ++ woffset ++ wlength ++ data) [(offset, data)]
  | wire_close t code kind wlength reason :
      is_varint t FRAME_CONNECTION_CLOSE → any_varint code → any_varint kind →
      is_varint wlength (blen reason) →
      frame_wire (t ++ code ++ kind ++ wlength ++ reason) [].

(** A payload of such frames. *)
Inductive frames_wire : bytes → list Fragment → Prop :=
  | wire_nil : frames_wire [] []
  | wire_cons w fs rest fs' :
      frame_wire w fs → frames_wire rest fs' → frames_wire (w ++ rest) (fs ++ fs').

Lemma skip_step_wire pre w post count :
  any_varint w → 0 < count → blen (pre ++ w ++ post) < 2 ^ 64 →
  skip_step (pre ++ w ++ post) (blen pre, count) = inl (blen (pre ++ w), count - 1).
Proof.
  intros [v Hw] Hc Hlt. unfold skip_step. rewrite (proj2 (Z.leb_gt _ _)) by done.
  rewrite get_from_app. cbn [mbind option_bind]. rewrite (is_varint_peek _ _ _ Hw).
  cbn [mbind option_bind]. rewrite !blen_app in Hlt. pose proof (blen_nonneg post).
  rewrite checked_add_fits by (unfold blen in *; lia). by rewrite blen_snoc.
Qed.

Lemma skip_varints_wire pre ws post :
  Forall any_varint ws → blen (pre ++ concat ws ++ post) < 2 ^ 64 →
  skip_varints (pre ++ concat ws ++ post) (blen pre) (blen ws) = Some (blen (pre ++ concat ws)).
Proof.
  intros Hws. revert pre. unfold skip_varints.
  induction Hws as [|w ws Hw _ IH]; intros pre; cbn [concat]; rewrite <- ?app_assoc; intros Hlt;
    rewrite run_unfold.
  { cbn. by rewrite app_nil_r. }
  rewrite skip_step_wire by (done || unfold blen; simpl; lia).
  replace (blen (w :: ws) - 1) with (blen ws) by (unfold blen; simpl; lia).
  specialize (IH (pre ++ w)). rewrite <- !app_assoc in IH. by apply IH.
Qed.

(** [skip_varints] over a known number of fields, one after the other. *)
Lemma skip_varints_wire_n pre ws n post :
  Forall any_varint ws → blen ws = n → blen (pre ++ concat ws ++ post) < 2 ^ 64 →
  skip_varints (pre ++ concat ws ++ post) (blen pre) n = Some (blen (pre ++ concat ws)).
Proof. intros Hws <-. by apply skip_varints_wire. Qed.

Lemma skip_ack_wire pre frame largest delay count first n ranges ecn post :
  any_varint largest → any_varint delay → is_varint count n → any_varint first →
  Forall any_varint ranges → blen ranges = n * 2 → Forall any_varint ecn →
  length ecn = (if frame =? FRAME_ACK_ECN then 3%nat else 0%nat) →
  let body := largest ++ delay ++ count ++ first ++ concat ranges ++ concat ecn in
  blen (pre ++ body ++ post) < 2 ^ 64 →
  skip_ack (pre ++ body ++ post) frame (blen pre) = Some (blen (pre ++ body)).
Proof.
  intros Hl Hd Hc Hf Hr Hn He Hen body Hlt. unfold skip_ack, body in *. clear body.
  assert (checked_mul n 2 = Some (n * 2)) as Hmul.
  { unfold is_varint in Hc. apply peek_varint_bound in Hc as [Hc _]. change VARINT_MAX with (2 ^ 62 - 1) in Hc.
    unfold checked_mul. by rewrite (proj2 (Z.ltb_lt _ _)) by lia. }
  pose proof (skip_varints_wire_n pre [largest; delay] 2
    (count ++ first ++ concat ranges ++ concat ecn ++ post)) as S1.
  pose proof (skip_varints_wire_n (pre ++ largest ++ delay ++ count) [first] 1
    (concat ranges ++ concat ecn ++ post)) as S2.
  pose proof (skip_varints_wire_n (pre ++ largest ++ delay ++ count ++ first) ranges (n * 2)
    (concat ecn ++ post)) as S3.
  pose proof (skip_varints_wire (pre ++ largest ++ delay ++ count ++ first ++ concat ranges) ecn
    post) as S4.
  pose proof (get_from_app (pre ++ largest ++ delay)
    (count ++ first ++ concat ranges ++ concat ecn ++ post)) as G.
  cbn [concat] in S1, S2. rewrite ?app_nil_r in *. rewrite <- ?app_assoc in *.
  rewrite S1 by (done || by repeat constructor). cbn [mbind option_bind].
  rewrite G. cbn [mbind option_bind]. rewrite (is_varint_peek _ _ _ Hc). cbn [mbind option_bind].
  rewrite blen_snoc, <- ?app_assoc, S2 by (done || by repeat constructor).
  cbn [mbind option_bind]. rewrite Hmul. cbn [mbind option_bind].
  rewrite S3 by done. cbn [mbind option_bind].
  destruct (frame =? FRAME_ACK_ECN).
  - unfold blen in S4 at 3. rewrite Hen in S4. by apply S4.
  - destruct ecn; [|done]. cbn [concat]. by rewrite app_nil_r.
Qed.

Lemma take_crypto_wire pre woffset offset wlength data post :
  is_varint woffset offset → is_varint wlength (blen data) →
  let body := woffset ++ wlength ++ data in
  blen (pre ++ body ++ post) < 2 ^ 64 →
  take_crypto (pre ++ body ++ post) (blen pre) = Some (offset, data, blen (pre ++ body)).
Proof.
  intros Ho Hl body Hlt. unfold take_crypto, body in *. clear body.
  pose proof (get_from_app pre (woffset ++ wlength ++ data ++ post)) as G1.
  pose proof (get_from_app (pre ++ woffset) (wlength ++ data ++ post)) as G2.
  pose proof (get_range_app (pre ++ woffset ++ wlength) data post) as G3.
  rewrite <- ?app_assoc in *. rewrite G1. cbn [mbind option_bind].
  rewrite (is_varint_peek _ _ _ Ho). cbn [mbind option_bind]. rewrite blen_snoc, G2.
  cbn [mbind option_bind]. rewrite (is_varint_peek _ _ _ Hl). cbn [mbind option_bind].
  rewrite blen_snoc, <- app_assoc, checked_add_fits.
  - cbn [mbind option_bind]. rewrite G3. cbn [mbind option_bind].
    by rewrite <- blen_app, <- !app_assoc.
  - rewrite !blen_app in *. pose proof (blen_nonneg post). lia.
Qed.

Lemma skip_close_wire pre code kind wlength reason post :
  any_varint code → any_varint kind → is_varint wlength (blen reason) →
  let body := code ++ kind ++ wlength ++ reason in
  blen (pre ++ body ++ post) < 2 ^ 64 →
  skip_close (pre ++ body ++ post) (blen pre) = Some (blen (pre ++ body)).
Proof.
  intros Hc Hk Hl body Hlt. unfold skip_close, body in *. clear body.
  pose proof (skip_varints_wire_n pre [code; kind] 2 (wlength ++ reason ++ post)) as S1.
  pose proof (get_from_app (pre ++ code ++ kind) (wlength ++ reason ++ post)) as G.
  cbn [concat] in S1. rewrite ?app_nil_r in *. rewrite <- ?app_assoc in *.
  rewrite S1 by (done || by repeat constructor). cbn [mbind option_bind].
  rewrite G. cbn [mbind option_bind]. rewrite (is_varint_peek _ _ _ Hl). cbn [mbind option_bind].
  rewrite blen_snoc, <- ?app_assoc. rewrite !blen_app in Hlt. pose proof (blen_nonneg post).
  rewrite checked_add_fits by (rewrite !blen_app; lia). cbn [mbind option_bind].
  rewrite (proj2 (Z.ltb_ge _ _)) by (rewrite !blen_app; lia). by rewrite !blen_app, !Z.add_assoc.
Qed.

Lemma frame_wire_type w fs :
  frame_wire w fs → ∃ t k body, w = t ++ body ∧ is_varint t k ∧ t ≠ [].
Proof.
  assert (∀ t k, is_varint t k → t ≠ []) as Hne.
  { intros t k H. destruct (is_varint_cons _ _ H) as (x & l & ->). done. }
  destruct 1; [exists t, FRAME_PADDING, []; rewrite app_nil_r
              |exists t, FRAME_PING, []; rewrite app_nil_r|..]; eauto 10.
Qed.

(** One turn of the walk reads one frame. *)
Lemma frame_step_wire pre w fs post acc :
  frame_wire w fs → blen (pre ++ w ++ post) < 2 ^ 64 →
  frame_step (pre ++ w ++ post) (blen pre, acc) = inl (blen (pre ++ w), acc ++ fs).
Proof.
  intros Hw Hlt. unfold frame_step.
  assert (blen pre < blen (pre ++ w ++ post)) as Hpos.
  { destruct (frame_wire_type _ _ Hw) as (t & k & body & -> & _ & Hne).
    rewrite !blen_app. pose proof (blen_nonneg body). pose proof (blen_nonneg post).
    destruct t; [done|]. unfold blen; simpl; lia. }
  rewrite (proj2 (Z.ltb_lt _ _) Hpos). cbn [negb]. clear Hpos.
  assert (drop (Z.to_nat (blen pre)) (pre ++ w ++ post) = w ++ post) as ->.
  { unfold blen. by rewrite Nat2Z.id, drop_app_length. }
  destruct Hw as [t Ht|t Ht|t largest delay count first n ranges Ht Hl Hd Hc Hf Hr Hn
    |t largest delay count first n ranges ect0 ect1 ce Ht Hl Hd Hc Hf Hr Hn H0 H1 H2
    |t woffset offset wlength data Ht Ho Hl|t code kind wlength reason Ht Hc Hk Hl];
    rewrite <- ?app_assoc; rewrite (is_varint_peek _ _ _ Ht), blen_snoc, ?app_nil_r;
    cbn [FRAME_PADDING FRAME_PING FRAME_ACK FRAME_ACK_ECN FRAME_CRYPTO FRAME_CONNECTION_CLOSE
         Z.eqb Pos.eqb orb]; try done.
  - pose proof (skip_ack_wire (pre ++ t) FRAME_ACK largest delay count first n ranges [] post) as S.
    cbn [concat] in S. rewrite ?app_nil_r, <- ?app_assoc in *. by rewrite S by (done || constructor).
  - pose proof (skip_ack_wire (pre ++ t) FRAME_ACK_ECN largest delay count first n ranges
      [ect0; ect1; ce] post) as S.
    cbn [concat] in S. rewrite ?app_nil_r, <- ?app_assoc in *.
    by rewrite S by (done || by repeat constructor).
  - pose proof (take_crypto_wire (pre ++ t) woffset offset wlength data post) as S.
    cbv zeta in S. rewrite <- ?app_assoc in *. by rewrite S.
  - pose proof (skip_close_wire (pre ++ t) code kind wlength reason post) as S.
    cbv zeta in S. rewrite <- ?app_assoc in *. by rewrite S.
Qed.

Lemma crypto_fragments_wire p fs :
  frames_wire p fs → blen p < 2 ^ 64 → crypto_fragments p = Some fs.
Proof.
  unfold crypto_fragments. intros Hp.
  assert (∀ pre acc, blen (pre ++ p) < 2 ^ 64 →
    run (frame_step (pre ++ p)) (blen pre, acc) = Some (acc ++ fs)) as Hgen.
  { induction Hp as [|w fs rest fs' Hw _ IH]; intros pre acc Hlt.
    - rewrite run_unfold. unfold frame_step. rewrite app_nil_r, Z.ltb_irrefl. cbn [negb].
      by rewrite app_nil_r.
    - rewrite run_unfold, (frame_step_wire _ _ fs) by done.
      specialize (IH (pre ++ w) (acc ++ fs)). rewrite <- !app_assoc in IH. by apply IH. }
  intros Hlt. by apply (Hgen [] []).
Qed.

(** ** Reassembly *)

(** [f] is a piece of [c]: its data is what [c] holds at its offset. *)
Definition slice_of (c : bytes) (f : Fragment) : Prop :=
  0 ≤ f.1 ∧ f.2 = take (length f.2) (drop (Z.to_nat f.1) c).

Definition covers (f : Fragment) (i : Z) : Prop := f.1 ≤ i < f.1 + blen f.2.

(** The path for one fragment at offset 0 computes what the general one does. *)
Lemma crypto_stream_prefix_fragments p fs :
  crypto_fragments p = Some fs →
  crypto_stream_prefix p = nonempty (extend_stream [] (sort_by_key fst fs)).
Proof.
  unfold crypto_stream_prefix. intros ->. cbn [mbind option_bind].
  destruct (sort_by_key fst fs) as [|[[|o|o] data] [|f fs']]; try done.
  cbn [extend_stream]. change (blen []) with 0. cbn [Z.ltb Z.compare]. change (0 - 0) with 0.
  by rewrite (get_from_app [] data : get_from data 0 = _).
Qed.

Lemma slice_extends c off data k :
  slice_of c (off, data) → (k ≤ length c)%nat → off ≤ Z.of_nat k →
  let skip := blen (take k c) - off in
  match get_from data skip with
  | Some fresh => take k c ++ fresh = take (Z.to_nat (off + blen data)) c
                  ∧ (k ≤ Z.to_nat (off + blen data) ≤ length c)%nat
  | None => off + blen data ≤ Z.of_nat k
  end.
Proof.
  intros [Ho Hd] Hk Hle skip. cbn [fst snd] in *.
  assert (skip = Z.of_nat k - off) as -> by (unfold skip, blen; rewrite length_take_le by done; lia).
  destruct (get_from data _) as [fresh|] eqn:E.
  - apply get_from_some in E as [-> [_ Hs]]. unfold blen in *.
    assert (data ≠ [] → Z.to_nat off + length data ≤ length c)%nat as Hin.
    { intros Hne. apply (f_equal length) in Hd. rewrite length_take, length_drop in Hd.
      assert (0 < length data)%nat by (destruct data; simpl; [done|lia]). lia. }
    destruct (decide (data = [])) as [->|Hne].
    + simpl in *. rewrite drop_nil, app_nil_r. split; [f_equal|]; lia.
    + specialize (Hin Hne). split; [|lia]. rewrite Hd at 1.
      rewrite skipn_firstn_comm, drop_drop.
      replace (Z.to_nat off + Z.to_nat (Z.of_nat k - off))%nat with k by lia.
      rewrite take_take_drop. f_equal. lia.
  - unfold get_from, get_range in E.
    destruct ((0 <=? Z.of_nat k - off) && (Z.of_nat k - off <=? blen data)
      && (blen data <=? blen data)) eqn:Hb; [done|]. lia.
Qed.

Lemma extend_stream_covers c k fs :
  StronglySorted (λ x y : Fragment, x.1 ≤ y.1) fs → Forall (slice_of c) fs → (k ≤ length c)%nat →
  (∀ i, Z.of_nat k ≤ i < blen c → ∃ f, f ∈ fs ∧ covers f i) →
  extend_stream (take k c) fs = c.
Proof.
  intros Hs. revert k. induction Hs as [|[off data] fs _ IH Hall]; intros k Hsl Hk Hcov.
  { apply take_ge. destruct (decide (length c ≤ k)%nat); [done|].
    destruct (Hcov (Z.of_nat k)) as (f & Hf & _); [unfold blen; lia|].
    by apply elem_of_nil in Hf. }
  apply Forall_cons in Hsl as [Hsl1 Hsl]. cbn [extend_stream].
  assert (blen (take k c) = Z.of_nat k) as Hbk by (unfold blen; by rewrite length_take_le).
  rewrite Hbk. destruct (Z.ltb_spec (Z.of_nat k) off) as [Hgap|Hle].
  { apply take_ge. destruct (decide (length c ≤ k)%nat); [done|].
    destruct (Hcov (Z.of_nat k)) as (f & Hf & Hc); [unfold blen; lia|]. unfold covers in Hc.
    apply elem_of_cons in Hf as [->|Hf]; [simpl in Hc; lia|].
    rewrite Forall_forall in Hall. apply Hall in Hf. simpl in Hf. lia. }
  pose proof (slice_extends c off data k Hsl1 Hk Hle) as Hext. simpl in Hext. rewrite Hbk in Hext.
  assert (∀ k', off + blen data ≤ Z.of_nat k' → (k ≤ k')%nat →
    ∀ i, Z.of_nat k' ≤ i < blen c → ∃ f, f ∈ fs ∧ covers f i) as Hrest.
  { intros k' Hk' Hkk i Hi. destruct (Hcov i) as (f & Hf & Hc); [lia|].
    apply elem_of_cons in Hf as [->|Hf]; [unfold covers in Hc; simpl in Hc; lia|eauto]. }
  destruct (get_from data _) as [fresh|].
  - destruct Hext as [-> Hk']. apply IH; [done|lia|]. apply Hrest; lia.
  - apply IH; [done|lia|]. apply Hrest; lia.
Qed.

Lemma crypto_stream_read p fs c :
  frames_wire p fs → blen p < 2 ^ 64 → c ≠ [] → Forall (slice_of c) fs →
  (∀ i, 0 ≤ i < blen c → ∃ f, f ∈ fs ∧ covers f i) →
  crypto_stream_prefix p = Some c.
Proof.
  intros Hp Hlt Hne Hsl Hcov.
  rewrite (crypto_stream_prefix_fragments p fs) by by apply crypto_fragments_wire.
  pose proof (extend_stream_covers c 0 (sort_by_key fst fs)) as He. rewrite take_0 in He.
  rewrite He; [by destruct c|apply sort_by_key_sorted|by rewrite sort_by_key_perm|lia|].
  intros i Hi. destruct (Hcov i) as (f & Hf & Hc); [lia|]. exists f.
  by rewrite sort_by_key_perm.
Qed.

(** Whatever the fragments of a stream, what is read is a beginning of it. *)
Lemma extend_stream_prefix c k fs :
  Forall (slice_of c) fs → (k ≤ length c)%nat →
  ∃ k', (k ≤ k' ≤ length c)%nat ∧ extend_stream (take k c) fs = take k' c.
Proof.
  revert k. induction fs as [|[off data] fs IH]; intros k Hsl Hk; cbn [extend_stream].
  { by exists k. }
  apply Forall_cons in Hsl as [Hsl1 Hsl].
  assert (blen (take k c) = Z.of_nat k) as Hbk by (unfold blen; by rewrite length_take_le).
  rewrite Hbk. destruct (Z.ltb_spec (Z.of_nat k) off) as [|Hle]; [by exists k|].
  pose proof (slice_extends c off data k Hsl1 Hk Hle) as Hext. simpl in Hext. rewrite Hbk in Hext.
  destruct (get_from data _) as [fresh|]; [|by apply IH].
  destruct Hext as [-> Hk']. destruct (IH _ Hsl (proj2 Hk')) as (k' & Hle' & ->).
  exists k'. split; [lia|done].
Qed.

(** However the client cut its CRYPTO stream [c] into the frames of an
    Initial packet (any order, overlaps and repetitions, other frames in between,
    any varint encodings), the gate reads a beginning of [c] and nothing else, and
    reads all of [c] when the fragments cover it. *)
Theorem crypto_stream_reassembled p fs c :
  frames_wire p fs → blen p < 2 ^ 64 → c ≠ [] → Forall (slice_of c) fs →
  (∃ n, crypto_stream_prefix p = nonempty (take n c)) ∧
  ((∀ i, 0 ≤ i < blen c → ∃ f, f ∈ fs ∧ covers f i) → crypto_stream_prefix p = Some c).
Proof.
  intros Hp Hlt Hne Hsl. split; [|intros; by eapply crypto_stream_read].
  rewrite (crypto_stream_prefix_fragments p fs) by by apply crypto_fragments_wire.
  destruct (extend_stream_prefix c 0 (sort_by_key fst fs)) as (n & _ & Heq);
    [by rewrite sort_by_key_perm|lia|]. rewrite take_0 in Heq. rewrite Heq. eauto.
Qed.

(** Two overlapping fragments, the later one first, with padding between them. *)
Lemma crypto_stream_reassembled_witness :
  crypto_stream_prefix
    ([Byte.x06; Byte.x01; Byte.x02; Byte.x0b; Byte.x0c] ++ [Byte.x00] ++
     [Byte.x06; Byte.x00; Byte.x02; Byte.x0a; Byte.x0b]) = Some [Byte.x0a; Byte.x0b; Byte.x0c].
Proof.
  refine (proj2 (crypto_stream_reassembled _
    ([(1, [Byte.x0b; Byte.x0c])] ++ [] ++ [(0, [Byte.x0a; Byte.x0b])] ++ []) _ _ _ _ _) _).
  - apply wire_cons; [by apply (wire_crypto [Byte.x06] [Byte.x01] 1 [Byte.x02])|].
    apply wire_cons; [by apply wire_padding|].
    rewrite <- (app_nil_r [Byte.x06; _; _; _; _]).
    apply wire_cons; [by apply (wire_crypto [Byte.x06] [Byte.x00] 0 [Byte.x02])|constructor].
  - done.
  - done.
  - repeat constructor; done.
  - intros i Hi. change (blen _) with 3 in Hi. unfold covers.
    destruct (decide (i < 2)).
    + exists (0, [Byte.x0a; Byte.x0b]). split; [set_solver|]. cbn [fst snd]. change (blen _) with 2. lia.
    + exists (1, [Byte.x0b; Byte.x0c]). split; [set_solver|]. cbn [fst snd]. change (blen _) with 2. lia.
Defined.

Lemma frames_wire_padding n p fs : frames_wire p fs → frames_wire (replicate n Byte.x00 ++ p) fs.
Proof.
  intros Hp. induction n as [|n IH]; [done|].
  change fs with ([] ++ fs). apply (wire_cons [Byte.x00] [] _ fs); [by apply wire_padding|done].
Qed.
