(* ===== verification/GateVerdict.v ===== *)
(** * The gate's verdict (facts about gate.rs)

    A packet sealed the way RFC 9001 says is judged by the ClientHello inside it;
    no datagram makes the gate panic; a refused datagram is undecodable and a
    passed one untouched; every datagram of a received batch is judged on its own;
    and a reload never mixes two lists. *)

From S2P Require Import Prelude Datagram Utf8 Message Gate.
From S2P Require Import GateFacts GateStream.

#[local] Open Scope Z_scope.

(** ** The laws of the keys *)

(** Header protection works in place, so it keeps the length of the buffer. *)
Class KeysWf (crypto : ServerConfig) := {
  keys_sample v d k : initial_keys v d = Some k → 0 ≤ sample_size k;
  keys_in_place v d k off b : initial_keys v d = Some k →
    length (header_decrypt k off b) = length b;
}.

(** ** Parsing stays inside the datagram *)

Lemma get_range_some {A} (l : list A) a b r :
  get_range l a b = Some r → 0 ≤ a ≤ b ∧ b ≤ blen l ∧ blen r = b - a.
Proof.
  unfold get_range. case_match eqn:E; [|done]. intros [= <-].
  unfold blen in *. rewrite length_take, length_drop. lia.
Qed.

Lemma get_range_is_some {A} (l : list A) a b :
  0 ≤ a ≤ b → b ≤ blen l → ∃ r, get_range l a b = Some r.
Proof.
  intros H1 H2. unfold get_range.
  rewrite (proj2 (andb_true_iff _ _)) by (rewrite andb_true_iff; lia). eauto.
Qed.

Lemma get_at_is_some {A} (l : list A) i : 0 ≤ i < blen l → ∃ x, get_at l i = Some x.
Proof.
  intros H. unfold get_at. rewrite (proj2 (andb_true_iff _ _)) by lia.
  apply lookup_lt_is_Some. unfold blen in H. lia.
Qed.

Lemma parse_initial_inside d h :
  parse_initial d = Some h →
  0 ≤ (dcid h).1 ≤ (dcid h).2 ∧ (dcid h).2 ≤ blen d ∧
  0 ≤ packet_number_offset h ≤ packet_end h ∧ packet_end h ≤ blen d.
Proof.
  unfold parse_initial. intros H.
  repeat first
    [ progress split_reads H
    | match type of H with (if ?b then None else _) = Some _ => destruct b eqn:?; [discriminate H|] end ].
  injection H as <-. cbn [dcid packet_number_offset packet_end fst snd].
  repeat match goal with
  | H : get_range _ _ _ = Some _ |- _ => apply get_range_some in H
  | H : checked_add _ _ = Some _ |- _ => apply checked_add_some in H as [-> ?]
  | H : get_from _ _ = Some _ |- _ => apply get_from_some in H as [-> ?]
  | H : peek_varint _ = Some _ |- _ => apply peek_varint_bound in H as [? _]
  end. lia.
Qed.

Section NoPanic.
Context `{crypto : ServerConfig, !KeysWf crypto}.

Lemma decrypt_no_panic d h : parse_initial d = Some h → decrypt d h ≠ None.
Proof.
  intros Hh. apply parse_initial_inside in Hh as (Hd1 & Hd2 & Hp & He). unfold decrypt.
  destruct (checked_add (packet_number_offset h) 4) as [lim|] eqn:E1; [|done].
  apply checked_add_some in E1 as [-> _]. cbn [try_or_none].
  destruct (Z.ltb_spec (packet_end h) (packet_number_offset h + 4)) as [|Hlim]; [done|].
  destruct (get_range_is_some d (dcid h).1 (dcid h).2) as [w ->]; [lia..|]. cbn [mbind option_bind].
  destruct (initial_keys QUIC_V1 w) as [k|] eqn:Ek; [|done]. cbn [try_or_none].
  pose proof (keys_sample _ _ _ Ek) as Hs.
  destruct (checked_add _ (sample_size k)) as [send|] eqn:E2; [|done].
  apply checked_add_some in E2 as [-> _]. cbn [try_or_none].
  destruct (Z.ltb_spec (packet_end h) (packet_number_offset h + 4 + sample_size k)) as [|Hse]; [done|].
  destruct (get_range_is_some d 0 (packet_number_offset h + 4 + sample_size k)) as [head Hhead];
    [lia..|]. rewrite Hhead. cbn [mbind option_bind]. apply get_range_some in Hhead.
  set (head' := header_decrypt k _ head).
  assert (blen head' = blen head) as Hlen.
  { unfold blen, head'. by erewrite keys_in_place. }
  destruct (get_at_is_some head' 0) as [first ->]; [lia|]. cbn [mbind option_bind].
  assert (0 ≤ Z.land (u8 first) 3 < 4) as Hland.
  { change 3 with (Z.ones 2). rewrite Z.land_ones by lia. apply Z.mod_pos_bound. lia. }
  destruct (checked_add (packet_number_offset h) _) as [nend|] eqn:E3; [|done].
  apply checked_add_some in E3 as [-> _]. cbn [try_or_none].
  destruct (Z.ltb_spec (packet_end h) (packet_number_offset h + (Z.land (u8 first) 3 + 1)));
    [done|].
  destruct (get_range_is_some head' (packet_number_offset h)
    (packet_number_offset h + (Z.land (u8 first) 3 + 1))) as [nb ->]; [lia..|].
  cbn [mbind option_bind]. case_match; [done|].
  destruct (get_range_is_some d (packet_number_offset h + (Z.land (u8 first) 3 + 1))
    (packet_end h)) as [fr ->]; [lia..|]. cbn [mbind option_bind].
  destruct (get_range_is_some head' 0 (packet_number_offset h + (Z.land (u8 first) 3 + 1)))
    as [aad ->]; [lia..|]. done.
Qed.

Lemma judge_no_panic d expected : judge d expected ≠ None.
Proof.
  unfold judge. destruct d as [|x d]; [done|]. case_match; [done|]. case_match; [|done].
  repeat (case_match; [done|]). case_match eqn:Hp; [|done]. case_match; [done|].
  pose proof (decrypt_no_panic _ _ Hp) as Hd. destruct (decrypt _ _) as [[f|]|]; [|done..].
  by case_match.
Qed.
End NoPanic.

(** ** Sealed Initial packets *)

Definition long_form (x : byte) : Prop := Z.land (u8 x) LONG_HEADER_FORM ≠ 0.

(** The client's half of a pair of Initial keys: how it seals a payload and
    protects a header (RFC 9001, sections 5.3 and 5.4), for packets with a long
    header that a datagram can hold.  Protection masks the low four bits of the
    first byte of such a packet and the packet number, whose length those bits hold,
    with a mask taken from a sample four bytes past the packet number's beginning.
    Nothing is said of short headers, of which five bits are masked. *)
Record Seals (k : Keys) (protect : Z → bytes → bytes) (seal : Z → bytes → bytes → bytes)
    : Prop := {
  seal_sizes : 0 ≤ sample_size k ∧ 0 ≤ tag_len k;
  seal_open n aad plain : is_uint 32 n → blen aad < 2 ^ 16 → blen plain < 2 ^ 16 →
    packet_decrypt k n aad (seal n aad plain) = Some plain;
  seal_length n aad plain : blen (seal n aad plain) = blen plain + tag_len k;
  protect_length off p : length (protect off p) = length p;
  protect_first off x p y q : long_form x → protect off (x :: p) = y :: q →
    Z.land (u8 y) 0xf0 = Z.land (u8 x) 0xf0;
  protect_rest off x p i : long_form x → 0 < off → (0 < i)%nat →
    Z.of_nat i < off ∨ off + Z.land (u8 x) 0x03 + 1 ≤ Z.of_nat i →
    protect off (x :: p) !! i = (x :: p) !! i;
  protect_open off x p : long_form x → 0 < off → off + 4 + sample_size k ≤ blen (x :: p) →
    header_decrypt k off (take (Z.to_nat (off + 4 + sample_size k)) (protect off (x :: p))) =
    take (Z.to_nat (off + 4 + sample_size k)) (x :: p);
}.

(** The long header of a version 1 packet after its first byte, up to the packet
    number (RFC 9000, section 17.2.2). *)
Definition header_tail (dcid scid wtoken token wlength : bytes) : bytes :=
  be_bytes 4 QUIC_V1 ++ vec8 dcid ++ vec8 scid ++ wtoken ++ token ++ wlength.

(** An Initial packet as a client builds it, before header protection. *)
Record Initial := mkInitial {
  i_first : byte;
  i_dcid : bytes;
  i_scid : bytes;
  i_wtoken : bytes;
  i_token : bytes;
  i_wlength : bytes;
  i_number : bytes;
}.

Definition i_head (i : Initial) : bytes :=
  i_first i :: header_tail (i_dcid i) (i_scid i) (i_wtoken i) (i_token i) (i_wlength i).

(** What RFC 9000 requires of it, for a payload of [n] bytes. *)
Record initial_ok (i : Initial) (n : Z) : Prop := {
  ok_form : Z.land (u8 (i_first i)) LONG_HEADER_FORM ≠ 0;
  ok_type : Z.land (u8 (i_first i)) LONG_PACKET_TYPE = INITIAL_PACKET_TYPE;
  ok_dcid : MIN_CLIENT_CONNECTION_ID ≤ blen (i_dcid i) ≤ MAX_CONNECTION_ID;
  ok_scid : blen (i_scid i) ≤ MAX_CONNECTION_ID;
  ok_token : is_varint (i_wtoken i) (blen (i_token i));
  ok_number : blen (i_number i) = Z.land (u8 (i_first i)) 0x03 + 1;
  ok_length : is_varint (i_wlength i) (blen (i_number i) + n);
}.

(** The first byte after protection and the packet number after protection; the
    rest of the packet is as it was. *)
Lemma protect_shape k protect seal i s :
  Seals k protect seal → long_form (i_first i) →
  blen (i_number i) = Z.land (u8 (i_first i)) 0x03 + 1 →
  ∃ y number, protect (blen (i_head i)) (i_head i ++ i_number i ++ s) =
    y :: tail (i_head i) ++ number ++ s ∧ length number = length (i_number i) ∧
    Z.land (u8 y) 0xf0 = Z.land (u8 (i_first i)) 0xf0.
Proof.
  intros Hk Hform Hn. unfold i_head. set (tl := header_tail _ _ _ _ _). cbn [tail app].
  set (off := blen (i_first i :: tl)). set (p := tl ++ i_number i ++ s).
  destruct (protect off (i_first i :: p)) as [|y q] eqn:Hq.
  { apply (f_equal length) in Hq. by rewrite (protect_length _ _ _ Hk) in Hq. }
  assert (length q = length p) as Hlen.
  { apply (f_equal length) in Hq. rewrite (protect_length _ _ _ Hk) in Hq. by injection Hq. }
  assert (∀ j, Z.of_nat (S j) < off ∨ off + blen (i_number i) ≤ Z.of_nat (S j) →
    q !! j = p !! j) as Hrest.
  { intros j Hj. pose proof (protect_rest _ _ _ Hk off (i_first i) p (S j)) as H.
    rewrite Hq in H. apply H; [done|done|lia|lia]. }
  exists y, (take (length (i_number i)) (drop (length tl) q)). split_and!.
  - f_equal. apply list_eq. intros j.
    assert (off = Z.of_nat (S (length tl))) as Hoff by done. rewrite Hoff in Hrest.
    unfold blen in Hrest.
    destruct (decide (j < length tl)%nat) as [Hj|Hj].
    { rewrite lookup_app_l by done. rewrite Hrest by lia. unfold p. by rewrite lookup_app_l. }
    rewrite lookup_app_r by lia.
    destruct (decide (j < length tl + length (i_number i))%nat) as [Hj2|Hj2].
    + rewrite lookup_app_l.
      * rewrite lookup_take_lt by lia. rewrite lookup_drop. f_equal. lia.
      * rewrite length_take, length_drop, Hlen. unfold p. rewrite !length_app. lia.
    + rewrite lookup_app_r; rewrite length_take, length_drop, Hlen; unfold p;
        rewrite !length_app, ?Nat.min_l by lia; [|lia].
      rewrite Hrest by lia. unfold p. by rewrite !lookup_app_r by lia.
  - rewrite length_take, length_drop, Hlen. unfold p. rewrite !length_app. lia.
  - by apply (protect_first _ _ _ Hk) in Hq.
Qed.

(** Reads of a known buffer at a known place. *)
Lemma get_from_at (d pre post : bytes) a :
  d = pre ++ post → a = blen pre → get_from d a = Some post.
Proof. intros -> ->. apply get_from_app. Qed.

Lemma get_range_at (d pre mid post : bytes) a b :
  d = pre ++ mid ++ post → a = blen pre → b = blen pre + blen mid → get_range d a b = Some mid.
Proof. intros -> -> ->. apply get_range_app. Qed.

Lemma get_at_at (d pre post : bytes) x a :
  d = pre ++ [x] ++ post → a = blen pre → get_at d a = Some x.
Proof.
  intros -> ->. unfold get_at. rewrite !blen_app. pose proof (blen_nonneg pre).
  pose proof (blen_nonneg post). change (blen [x]) with 1.
  rewrite (proj2 (andb_true_iff _ _)) by lia. unfold blen. rewrite Nat2Z.id.
  by apply list_lookup_middle.
Qed.

Lemma vec8_cons b : blen b ≤ MAX_CONNECTION_ID → ∃ x, vec8 b = [x] ++ b ∧ u8 x = blen b.
Proof.
  intros Hb. exists (as_u8 (blen b)). split.
  - unfold vec8. cbn [be_bytes app]. change (8 * Z.of_nat 0) with 0. by rewrite Z.shiftr_0_r.
  - rewrite u8_as_u8, wrap_id; [done|]. unfold MAX_CONNECTION_ID in Hb.
    split; [apply blen_nonneg|lia].
Qed.

(** Closes [d = pre ++ post] by associativity and [a = blen pre] by arithmetic. *)
Ltac at_place :=
  first [ by rewrite <- ?app_assoc
        | rewrite ?blen_app; repeat change (blen [_]) with 1; lia ].

Lemma parse_initial_wire i n y rest :
  initial_ok i n → 0 ≤ n → blen (i_number i) + n ≤ blen rest →
  blen (i_head i) + blen rest < 2 ^ 64 →
  parse_initial (y :: tail (i_head i) ++ rest) =
  Some (mkInitialHeader (6, 6 + blen (i_dcid i)) (blen (i_head i))
          (blen (i_head i) + (blen (i_number i) + n))).
Proof.
  intros [_ _ Hd Hs Ht _ Hl] Hn Hr Hlt. unfold i_head, header_tail in *. cbn [tail].
  destruct (vec8_cons (i_dcid i)) as (xd & Ed & Hxd); [lia|].
  destruct (vec8_cons (i_scid i)) as (xs & Es & Hxs); [lia|].
  rewrite Ed, Es in *. remember (be_bytes 4 QUIC_V1) as v eqn:Ev.
  assert (blen v = 4) as Hv by (by subst). clear Ev Ed Es.
  set (d := i_dcid i) in *. set (s := i_scid i) in *. set (wt := i_wtoken i) in *.
  set (t := i_token i) in *. set (wl := i_wlength i) in *.
  change (i_first i :: ?l) with ([i_first i] ++ l) in *. change (y :: ?l) with ([y] ++ l).
  rewrite <- !app_assoc. rewrite !blen_app in *. change (blen [i_first i]) with 1 in *.
  change (blen [xd]) with 1 in *. change (blen [xs]) with 1 in *.
  pose proof (blen_nonneg d). pose proof (blen_nonneg s). pose proof (blen_nonneg t).
  pose proof (blen_nonneg wt). pose proof (blen_nonneg wl). pose proof (blen_nonneg rest).
  pose proof (blen_nonneg (i_number i)).
  set (D := [y] ++ _).
  assert (blen D = 7 + blen d + blen s + blen wt + blen t + blen wl + blen rest) as HD
    by (unfold D; rewrite !blen_app; repeat change (blen [_]) with 1; lia).
  unfold parse_initial, DCID_LENGTH_OFFSET, MAX_CONNECTION_ID, MIN_CLIENT_CONNECTION_ID in *.
  rewrite (get_at_at D ([y] ++ v) (d ++ [xs] ++ s ++ wt ++ t ++ wl ++ rest) xd) by at_place.
  cbn [mbind option_bind fmap option_fmap option_map]. rewrite Hxd.
  rewrite (proj2 (Z.ltb_ge _ _)), checked_add_fits by lia. cbn [mbind option_bind].
  rewrite (get_range_at D ([y] ++ v ++ [xd]) d ([xs] ++ s ++ wt ++ t ++ wl ++ rest)) by at_place.
  cbn [mbind option_bind].
  rewrite (get_at_at D ([y] ++ v ++ [xd] ++ d) (s ++ wt ++ t ++ wl ++ rest) xs) by at_place.
  cbn [mbind option_bind fmap option_fmap option_map]. rewrite Hxs.
  rewrite (proj2 (Z.ltb_ge _ _)), checked_add_fits by lia. cbn [mbind option_bind].
  rewrite (proj2 (Z.ltb_ge _ _)) by lia.
  rewrite (get_from_at D ([y] ++ v ++ [xd] ++ d ++ [xs] ++ s) (wt ++ t ++ wl ++ rest)) by at_place.
  cbn [mbind option_bind]. rewrite (is_varint_peek _ _ _ Ht). cbn [mbind option_bind].
  change (Z.of_nat (length wt)) with (blen wt).
  rewrite checked_add_fits by lia. cbn [mbind option_bind].
  rewrite checked_add_fits by lia. cbn [mbind option_bind]. rewrite (proj2 (Z.ltb_ge _ _)) by lia.
  rewrite (get_from_at D ([y] ++ v ++ [xd] ++ d ++ [xs] ++ s ++ wt ++ t) (wl ++ rest)) by at_place.
  cbn [mbind option_bind]. rewrite (is_varint_peek _ _ _ Hl). cbn [mbind option_bind].
  change (Z.of_nat (length wl)) with (blen wl).
  rewrite checked_add_fits by lia. cbn [mbind option_bind].
  rewrite checked_add_fits by lia. cbn [mbind option_bind]. rewrite (proj2 (Z.ltb_ge _ _)) by lia.
  assert (∀ h h1 h2 h3 k1 k2 k3, h1 = k1 → h2 = k2 → h3 = k3 →
    Some (mkInitialHeader (h, h1) h2 h3) = Some (mkInitialHeader (h, k1) k2 k3)) as Heq
    by (by intros; subst). apply Heq; lia.
Qed.

Section Sealed.
Context `{crypto : ServerConfig}.
Context (k : Keys) (protect : Z → bytes → bytes) (seal : Z → bytes → bytes → bytes).
Context (Hk : Seals k protect seal).

(** The packet a client sends: the payload sealed under the packet number with
    the header as associated data, then the header protected. *)
Definition sealed_payload (i : Initial) (frames : bytes) : bytes :=
  seal (be_fold 0 (i_number i)) (i_head i ++ i_number i) frames.

Definition initial_packet (i : Initial) (frames : bytes) : bytes :=
  protect (blen (i_head i)) (i_head i ++ i_number i ++ sealed_payload i frames).

Lemma land_low_nibble_free x y m :
  Z.land (u8 y) 0xf0 = Z.land (u8 x) 0xf0 → Z.land 0xf0 m = m → Z.land (u8 y) m = Z.land (u8 x) m.
Proof. intros H Hm. by rewrite <- Hm, !Z.land_assoc, H. Qed.

Lemma take_protected (p rest : bytes) (n : Z) off :
  0 ≤ n → n ≤ blen p → get_range (protect off p ++ rest) 0 n = Some (take (Z.to_nat n) (protect off p)).
Proof.
  intros H0 Hn. unfold get_range. rewrite (proj2 (andb_true_iff _ _)).
  - change (Z.to_nat 0) with 0%nat. rewrite drop_0, Z.sub_0_r. f_equal. rewrite take_app_le; [done|].
    rewrite (protect_length _ _ _ Hk). unfold blen in Hn. lia.
  - rewrite andb_true_iff, blen_app. unfold blen at 1. rewrite (protect_length _ _ _ Hk).
    fold (blen p). pose proof (blen_nonneg rest). lia.
Qed.

(** The protected datagram with its fields laid out, and its beginning once the
    header protection is removed. *)
Lemma sealed_layout i frames rest :
  initial_ok i (blen (sealed_payload i frames)) →
  4 + sample_size k ≤ blen (i_number i) + blen (sealed_payload i frames) →
  ∃ y number,
    initial_packet i frames ++ rest =
      y :: tail (i_head i) ++ number ++ sealed_payload i frames ++ rest ∧
    blen number = blen (i_number i) ∧ Z.land (u8 y) 0xf0 = Z.land (u8 (i_first i)) 0xf0.
Proof.
  intros Hok Hroom.
  destruct (protect_shape k protect seal i (sealed_payload i frames) Hk (ok_form _ _ Hok)
    (ok_number _ _ Hok))
    as (y & number & Hshape & Hlen & Hy).
  exists y, number. split_and!; [|unfold blen; by rewrite Hlen|done].
  unfold initial_packet. rewrite Hshape. cbn [app]. by rewrite <- !app_assoc.
Qed.

Lemma number_length_range x : 1 ≤ Z.land (u8 x) 0x03 + 1 ≤ 4.
Proof.
  change 0x03 with (Z.ones 2). rewrite Z.land_ones by lia.
  pose proof (Z.mod_pos_bound (u8 x) (2 ^ 2)). lia.
Qed.

Lemma unprotected_head i frames rest :
  initial_ok i (blen (sealed_payload i frames)) →
  4 + sample_size k ≤ blen (i_number i) + blen (sealed_payload i frames) →
  ∃ head more,
    get_range (initial_packet i frames ++ rest) 0 (blen (i_head i) + 4 + sample_size k) =
      Some head ∧
    header_decrypt k (blen (i_head i)) head = i_head i ++ i_number i ++ more.
Proof.
  intros Hok Hroom. destruct (seal_sizes _ _ _ Hk) as [Hs0 _].
  pose proof (number_length_range (i_first i)) as Hnr. pose proof (ok_number _ _ Hok) as Hnum.
  assert (0 < blen (i_head i)) as Hh by (unfold blen, i_head; simpl; lia).
  unfold initial_packet. set (p := i_head i ++ i_number i ++ sealed_payload i frames).
  assert (blen p = blen (i_head i) + (blen (i_number i) + blen (sealed_payload i frames))) as Hp
    by (unfold p; by rewrite !blen_app).
  set (n := blen (i_head i) + 4 + sample_size k).
  exists (take (Z.to_nat n) (protect (blen (i_head i)) p)),
    (take (Z.to_nat n - length (i_head i) - length (i_number i)) (sealed_payload i frames)).
  rewrite take_protected by lia. split; [done|]. unfold n.
  assert (header_decrypt k (blen (i_head i)) (take (Z.to_nat (blen (i_head i) + 4 + sample_size k))
    (protect (blen (i_head i)) p)) = take (Z.to_nat (blen (i_head i) + 4 + sample_size k)) p) as ->.
  { apply (protect_open _ _ _ Hk (blen (i_head i)) (i_first i)
      (tail (i_head i) ++ i_number i ++ sealed_payload i frames) (ok_form _ _ Hok) Hh).
    change (i_first i :: tail (i_head i) ++ _) with p. lia. }
  unfold p, blen in *. rewrite !take_app.
  rewrite (take_ge (i_head i)), (take_ge (i_number i)) by lia. done.
Qed.

Lemma decrypt_sealed i frames rest :
  initial_keys QUIC_V1 (i_dcid i) = Some k →
  initial_ok i (blen (sealed_payload i frames)) →
  4 + sample_size k ≤ blen (i_number i) + blen (sealed_payload i frames) →
  blen (i_head i) + (blen (i_number i) + blen (sealed_payload i frames)) < 2 ^ 16 →
  decrypt (initial_packet i frames ++ rest)
    (mkInitialHeader (6, 6 + blen (i_dcid i)) (blen (i_head i))
      (blen (i_head i) + (blen (i_number i) + blen (sealed_payload i frames)))) = Some (Some frames).
Proof.
  intros Hkeys Hok Hroom Hlt. destruct (seal_sizes _ _ _ Hk) as [Hs0 Ht0].
  pose proof (ok_number _ _ Hok) as Hnum. pose proof (ok_dcid _ _ Hok) as Hdcid.
  pose proof (number_length_range (i_first i)) as Hnr.
  destruct (unprotected_head i frames rest Hok Hroom) as (head & more & Hhead & Hunprot).
  destruct (sealed_layout i frames rest Hok Hroom) as (y & number & Hshape & Hnb & _).
  assert (blen (y :: tail (i_head i)) = blen (i_head i)) as Hyh by done.
  assert (0 < blen (i_head i)) as Hh by (unfold blen, i_head; simpl; lia).
  pose proof (seal_length _ _ _ Hk (be_fold 0 (i_number i)) (i_head i ++ i_number i) frames) as Hsl.
  fold (sealed_payload i frames) in Hsl. pose proof (blen_nonneg frames).
  destruct (vec8_cons (i_dcid i)) as (xd & Ed & _); [lia|].
  unfold decrypt. cbn [packet_number_offset packet_end dcid fst snd].
  rewrite checked_add_fits by lia. cbn [try_or_none]. rewrite (proj2 (Z.ltb_ge _ _)) by lia.
  rewrite (get_range_at _ ([y] ++ be_bytes 4 QUIC_V1 ++ [xd]) (i_dcid i)
    (vec8 (i_scid i) ++ i_wtoken i ++ i_token i ++ i_wlength i ++ number ++
     sealed_payload i frames ++ rest)); [|rewrite Hshape; unfold i_head, header_tail; rewrite Ed;
    cbn [tail app be_bytes]; rewrite <- ?app_assoc; cbn [app]; by rewrite <- ?app_assoc|done..].
  cbn [mbind option_bind]. rewrite Hkeys. cbn [try_or_none].
  rewrite checked_add_fits by lia. cbn [try_or_none]. rewrite (proj2 (Z.ltb_ge _ _)) by lia.
  rewrite Hhead. cbn [mbind option_bind]. rewrite Hunprot.
  rewrite (get_at_at _ [] (tail (i_head i) ++ i_number i ++ more) (i_first i)) by done.
  cbn [mbind option_bind]. rewrite <- Hnum. rewrite checked_add_fits by lia. cbn [try_or_none].
  rewrite (proj2 (Z.ltb_ge _ _)) by lia.
  rewrite get_range_app. cbn [mbind option_bind].
  rewrite (proj2 (Z.ltb_ge _ _)) by lia.
  rewrite (get_range_at (initial_packet i frames ++ rest) (y :: tail (i_head i) ++ number) (sealed_payload i frames) rest);
    [|rewrite Hshape; cbn [app]; by rewrite <- ?app_assoc
     |change (y :: ?a ++ ?b) with ((y :: a) ++ b); rewrite blen_app; lia..].
  cbn [mbind option_bind].
  rewrite (get_range_at _ [] (i_head i ++ i_number i) more);
    [|by rewrite <- app_assoc|done|by rewrite blen_app].
  cbn [mbind option_bind]. f_equal. pose proof (blen_nonneg (i_head i)).
  pose proof (blen_nonneg (i_number i)). apply (seal_open _ _ _ Hk).
  - pose proof (be_fold_range (i_number i)) as Hr. unfold is_uint, blen in *.
    assert (2 ^ (8 * Z.of_nat (length (i_number i))) ≤ 2 ^ 32) by (apply Z.pow_le_mono_r; lia).
    specialize (Hr ltac:(lia)). lia.
  - rewrite blen_app. lia.
  - lia.
Qed.

(** What the gate makes of the frames of a packet it opened. *)
Definition judge_frames (frames : bytes) (expected : Names) : Verdict :=
  match crypto_stream_prefix frames with
  | None => Pass
  | Some crypto_bytes => judge_flight crypto_bytes expected
  end.

Lemma judge_sealed i frames rest expected :
  initial_keys QUIC_V1 (i_dcid i) = Some k →
  initial_ok i (blen (sealed_payload i frames)) →
  4 + sample_size k ≤ blen (i_number i) + blen (sealed_payload i frames) →
  MIN_INITIAL_DATAGRAM ≤ blen (initial_packet i frames ++ rest) < 2 ^ 16 →
  judge (initial_packet i frames ++ rest) expected = Some (judge_frames frames expected).
Proof.
  intros Hkeys Hok Hroom [Hmin Hmax].
  destruct (sealed_layout i frames rest Hok Hroom) as (y & number & Hshape & Hnb & Hy).
  pose proof (decrypt_sealed i frames rest Hkeys Hok Hroom) as Hdec.
  pose proof (parse_initial_wire i _ y (number ++ sealed_payload i frames ++ rest) Hok
    (blen_nonneg _)) as Hparse. rewrite <- Hshape in Hparse. rewrite !blen_app in Hparse.
  pose proof (blen_nonneg rest).
  assert (blen (initial_packet i frames ++ rest) = blen (i_head i) + (blen (i_number i) +
    (blen (sealed_payload i frames) + blen rest))) as Hlen.
  { rewrite Hshape. change (y :: ?a ++ ?b) with ((y :: a) ++ b). rewrite !blen_app, Hnb. done. }
  pose proof (ok_dcid _ _ Hok) as Hd.
  unfold judge. destruct (initial_packet i frames ++ rest) as [|x l] eqn:El; [done|].
  assert (x = y) as -> by congruence. rewrite <- El in *. clear El.
  assert ((Z.land (u8 y) LONG_HEADER_FORM =? 0) = false) as ->.
  { apply Z.eqb_neq. rewrite (land_low_nibble_free _ _ _ Hy) by done. apply (ok_form _ _ Hok). }
  rewrite (get_range_at _ [y] (be_bytes 4 QUIC_V1)
    (vec8 (i_dcid i) ++ vec8 (i_scid i) ++ i_wtoken i ++ i_token i ++ i_wlength i ++ number ++
     sealed_payload i frames ++ rest));
    [|rewrite Hshape; unfold i_head, header_tail; cbn [tail app]; by rewrite <- ?app_assoc|done..].
  change (be_fold 0 (be_bytes 4 QUIC_V1)) with 1. cbn [negb Z.eqb QUIC_V1 Pos.eqb].
  assert ((Z.land (u8 y) LONG_PACKET_TYPE =? INITIAL_PACKET_TYPE) = true) as ->.
  { apply Z.eqb_eq. rewrite (land_low_nibble_free _ _ _ Hy) by done. apply (ok_type _ _ Hok). }
  cbn [negb]. rewrite (proj2 (Z.ltb_ge _ _)) by lia.
  rewrite Hparse by lia. cbn [dcid fst snd].
  rewrite (proj2 (Z.ltb_ge _ _)) by lia. rewrite Hdec by lia.
  unfold judge_frames. by destruct (crypto_stream_prefix frames).
Qed.

(** C20: an Initial packet a client sealed under the keys of its own connection
    ID, carrying a whole ClientHello cut into CRYPTO frames in whatever way, is
    admitted when the ClientHello's [server_name] is valid text on the list and
    is refused for its name otherwise. *)
Theorem sealed_hello_verdict i frames rest expected fs body name :
  initial_keys QUIC_V1 (i_dcid i) = Some k →
  initial_ok i (blen (sealed_payload i frames)) →
  4 + sample_size k ≤ blen (i_number i) + blen (sealed_payload i frames) →
  MIN_INITIAL_DATAGRAM ≤ blen (initial_packet i frames ++ rest) < 2 ^ 16 →
  blen body < 2 ^ 24 → hello_wire body name →
  let hello := handshake CLIENT_HELLO body in
  frames_wire frames fs → Forall (slice_of hello) fs →
  (∀ j, 0 ≤ j < blen hello → ∃ f, f ∈ fs ∧ covers f j) →
  judge (initial_packet i frames ++ rest) expected =
  Some (if valid_utf8 name && accepts expected name then Pass else Refuse (OtherName name)).
Proof.
  intros Hkeys Hok Hroom Hsize Hbody Hname hello Hfs Hsl Hcov.
  rewrite judge_sealed by done. f_equal. unfold judge_frames.
  assert (blen frames < 2 ^ 64) as Hlt.
  { pose proof (seal_length _ _ _ Hk (be_fold 0 (i_number i)) (i_head i ++ i_number i) frames).
    destruct (sealed_layout i frames rest Hok Hroom) as (y & number & Hshape & _).
    rewrite Hshape in Hsize. change (y :: ?a ++ ?b) with ((y :: a) ++ b) in Hsize.
    rewrite !blen_app in Hsize. destruct (seal_sizes _ _ _ Hk).
    fold (sealed_payload i frames) in *. pose proof (blen_nonneg (y :: tail (i_head i))).
    pose proof (blen_nonneg number). pose proof (blen_nonneg rest). lia. }
  rewrite (crypto_stream_read frames fs hello) by done.
  pose proof (first_flight_named body [] name Hbody Hname) as Hff. rewrite app_nil_r in Hff.
  unfold judge_flight, hello. rewrite Hff.
  unfold from_utf8. destruct (valid_utf8 name); cbn [andb]; by try destruct (accepts expected name).
Qed.
End Sealed.

(** ** Header protection as RFC 9001 writes it

    Section 5.4.1 with any function from samples to masks and any packet
    protection that opens what it sealed: the low four bits of the first byte are masked in
    a long header and the low five in a short one, then the packet number, whose length is
    read from the first byte without the mask. *)

Section Rfc9001.
Context (mask : bytes → bytes).
Context (tag : Z) (open_ : Z → bytes → bytes → option bytes) (seal : Z → bytes → bytes → bytes).
Context (tag_nonneg : 0 ≤ tag).
Context (opens : ∀ n aad plain, is_uint 32 n → blen aad < 2 ^ 16 → blen plain < 2 ^ 16 →
  open_ n aad (seal n aad plain) = Some plain).
Context (seals : ∀ n aad plain, blen (seal n aad plain) = blen plain + tag).

Definition SAMPLE : nat := 16.

Definition xor8 (x : byte) (m : Z) : byte := as_u8 (Z.lxor (u8 x) m).

Definition first_mask (x : byte) (m : byte) : Z :=
  Z.land (u8 m) (if Z.land (u8 x) LONG_HEADER_FORM =? 0 then 0x1f else 0x0f).

(** The mask for the byte at [i], where the packet number is [len] bytes from [off] on. *)
Definition mask_at (off len : nat) (m : bytes) (i : nat) (x : byte) : byte :=
  if (i =? 0)%nat then xor8 x (first_mask x (nth 0 m Byte.x00))
  else if (off <=? i)%nat && (i <? off + len)%nat
       then xor8 x (u8 (nth (1 + i - off) m Byte.x00))
       else x.

Definition number_len (x : byte) : nat := Z.to_nat (Z.land (u8 x) 0x03 + 1).

Definition sample_of (off : nat) (p : bytes) : bytes := take SAMPLE (drop (off + 4) p).

Definition rfc_protect (off : Z) (p : bytes) : bytes :=
  let o := Z.to_nat off in
  imap (mask_at o (number_len (nth 0 p Byte.x00)) (mask (sample_of o p))) p.

Definition rfc_unprotect (off : Z) (p : bytes) : bytes :=
  let o := Z.to_nat off in
  let m := mask (sample_of o p) in
  imap (mask_at o (number_len (xor8 (nth 0 p Byte.x00) (first_mask (nth 0 p Byte.x00) (nth 0 m Byte.x00)))) m) p.

Definition rfc_keys : Keys := mkKeys (Z.of_nat SAMPLE) rfc_unprotect tag open_.

Lemma xor8_twice x m : 0 ≤ m < 256 → xor8 (xor8 x m) m = x.
Proof.
  intros Hm. unfold xor8. pose proof (u8_range x).
  assert (wrap 8 (Z.lxor (u8 x) m) = Z.lxor (u8 x) m) as Hw.
  { apply wrap_id. split; [apply Z.lxor_nonneg; lia|].
    destruct (Z.eq_dec (Z.lxor (u8 x) m) 0) as [->|]; [lia|]. apply Z.log2_lt_pow2.
    - pose proof (Z.lxor_nonneg (u8 x) m). lia.
    - pose proof (Z.log2_lxor (u8 x) m ltac:(lia) ltac:(lia)).
      assert (∀ z, 0 ≤ z < 256 → Z.log2 z < 8) as Hl.
      { intros z Hz. destruct (Z.eq_dec z 0) as [->|]; [done|]. apply Z.log2_lt_pow2; lia. }
      pose proof (Hl (u8 x)). pose proof (Hl m). lia. }
  rewrite u8_as_u8, Hw, Z.lxor_assoc, Z.lxor_nilpotent, Z.lxor_0_r. apply as_u8_u8.
Qed.

Lemma first_mask_range x m : 0 ≤ first_mask x m < 256.
Proof.
  unfold first_mask. destruct (_ =? 0); [change 0x1f with (Z.ones 5)|change 0x0f with (Z.ones 4)];
    rewrite Z.land_ones by lia; [pose proof (Z.mod_pos_bound (u8 m) (2 ^ 5))|pose proof (Z.mod_pos_bound (u8 m) (2 ^ 4))]; lia.
Qed.

(** Masking the first byte of a long header keeps its high half. *)
Lemma masked_high x m : long_form x → Z.land (u8 (xor8 x (first_mask x m))) 0xf0 = Z.land (u8 x) 0xf0.
Proof.
  intros Hx. unfold first_mask. rewrite (proj2 (Z.eqb_neq _ _) Hx).
  assert (0 ≤ Z.land (u8 m) 0x0f < 16) as Hm.
  { change 0x0f with (Z.ones 4). rewrite Z.land_ones by lia. pose proof (Z.mod_pos_bound (u8 m) (2 ^ 4)). lia. }
  clear Hx. revert Hm. generalize (Z.land (u8 m) 0x0f). intros z Hz.
  apply Z.eqb_eq. revert z Hz.
  apply (forall_below 16 (λ z, Z.land (u8 (xor8 x z)) 0xf0 =? Z.land (u8 x) 0xf0)). by octet_test x.
Qed.

Lemma masked_form x m : long_form x → first_mask (xor8 x (first_mask x m)) m = first_mask x m.
Proof.
  intros Hx. pose proof (masked_high x m Hx) as Hh. unfold first_mask at 1 3.
  assert (Z.land (u8 (xor8 x (first_mask x m))) LONG_HEADER_FORM = Z.land (u8 x) LONG_HEADER_FORM) as ->; [|done].
  change LONG_HEADER_FORM with (Z.land 0xf0 0x80). by rewrite !Z.land_assoc, Hh.
Qed.

Lemma mask_at_twice off len m i x :
  (i = 0%nat → long_form x) → mask_at off len m i (mask_at off len m i x) = x.
Proof.
  intros Hx. unfold mask_at. destruct (Nat.eqb_spec i 0) as [->|Hi].
  - rewrite masked_form by auto. apply xor8_twice, first_mask_range.
  - destruct (_ && _); [|done]. apply xor8_twice, u8_range.
Qed.

Lemma take_imap {A B} (f : nat → A → B) n l : take n (imap f l) = imap f (take n l).
Proof.
  revert f n. induction l as [|x l IH]; intros f [|n]; [done..|]. cbn. by rewrite IH.
Qed.

Lemma rfc_protect_lookup off x p i :
  rfc_protect off (x :: p) !! i =
  mask_at (Z.to_nat off) (number_len x) (mask (sample_of (Z.to_nat off) (x :: p))) i <$> (x :: p) !! i.
Proof. unfold rfc_protect. by rewrite list_lookup_imap. Qed.

Lemma number_len_range x : (1 ≤ number_len x ≤ 4)%nat.
Proof. unfold number_len. pose proof (number_length_range x). lia. Qed.

(** The sample lies past the packet number, so protection leaves it alone. *)
Lemma sample_protected off x p :
  0 < off → off + 4 + Z.of_nat SAMPLE ≤ blen (x :: p) →
  sample_of (Z.to_nat off) (take (Z.to_nat (off + 4 + Z.of_nat SAMPLE)) (rfc_protect off (x :: p))) =
  sample_of (Z.to_nat off) (x :: p).
Proof.
  intros Hoff Hlen. unfold sample_of. set (o := Z.to_nat off).
  replace (Z.to_nat (off + 4 + Z.of_nat SAMPLE)) with (o + 4 + SAMPLE)%nat by lia.
  apply list_eq. intros i. destruct (decide (i < SAMPLE)%nat) as [Hi|Hi].
  - rewrite !lookup_take_lt, !lookup_drop, lookup_take_lt by lia. rewrite rfc_protect_lookup. fold o.
    destruct ((x :: p) !! (o + 4 + i)%nat) as [y|]; [|done]. cbn [fmap option_fmap option_map]. f_equal.
    unfold mask_at. pose proof (number_len_range x).
    destruct (Nat.eqb_spec (o + 4 + i) 0); [lia|].
    destruct (Nat.ltb_spec (o + 4 + i) (o + number_len x)); [lia|]. by rewrite andb_false_r.
  - by rewrite !lookup_take_ge by lia.
Qed.

Theorem rfc_seals : Seals rfc_keys rfc_protect seal.
Proof.
  split; cbn [rfc_keys sample_size tag_len packet_decrypt header_decrypt]; try done.
  - intros off p. unfold rfc_protect. apply length_imap.
  - intros off x p y q Hx Hq. unfold rfc_protect in Hq. cbn in Hq. injection Hq as <- _.
    by apply masked_high.
  - intros off x p i _ Hoff Hi Hout. rewrite rfc_protect_lookup.
    destruct ((x :: p) !! i) as [y|]; [|done]. cbn [fmap option_fmap option_map]. f_equal.
    unfold mask_at, number_len. pose proof (number_length_range x) as Hn. revert Hout Hn.
    generalize (Z.land (u8 x) 0x03). intros len Hout Hn. destruct (Nat.eqb_spec i 0); [lia|].
    destruct (Nat.leb_spec (Z.to_nat off) i), (Nat.ltb_spec i (Z.to_nat off + Z.to_nat (len + 1))); cbn [andb]; try done.
    exfalso. lia.
  - intros off x p Hx Hoff Hlen. unfold rfc_unprotect. rewrite sample_protected by done.
    unfold rfc_protect. rewrite take_imap. cbn [nth].
    set (o := Z.to_nat off). set (m := mask (sample_of o (x :: p))).
    destruct (Z.to_nat (off + 4 + Z.of_nat SAMPLE)) as [|n] eqn:En; [lia|].
    change (take (S n) (x :: p)) with (x :: take n p). cbn [imap nth mask_at Nat.eqb].
    change (mask_at o (number_len x) m 0 x) with (xor8 x (first_mask x (nth 0 m Byte.x00))).
    assert (∀ m0, xor8 (xor8 x (first_mask x m0)) (first_mask (xor8 x (first_mask x m0)) m0) = x) as Hfirst.
    { intros m0. rewrite masked_form by done. apply xor8_twice, first_mask_range. }
    rewrite Hfirst. f_equal. apply list_eq. intros i. rewrite !list_lookup_imap.
    destruct (take n p !! i) as [y|]; [|done]. cbn [fmap option_fmap option_map compose]. f_equal.
    by apply mask_at_twice.
Qed.
End Rfc9001.

(** A cipher for examples: the mask is the beginning of the sample turned over, the tag is
    sixteen zero bytes. *)
Definition turned (sample : bytes) : bytes :=
  map (λ i, xor8 (nth i sample Byte.x00) 0xff) (seq 0 5).
Definition null_open (_ : Z) (_ b : bytes) : option bytes := Some (take (length b - 16) b).
Definition null_seal (_ : Z) (_ plain : bytes) : bytes := plain ++ replicate 16 Byte.x00.
Definition null_keys : Keys := rfc_keys turned 16 null_open.
Definition null_crypto : ServerConfig := λ _ _, Some null_keys.

#[local] Instance null_keys_wf : KeysWf null_crypto.
Proof.
  split; unfold initial_keys, null_crypto; [by intros ? ? ? [= <-]|].
  intros v d k off b [= <-]. apply length_imap.
Qed.

Lemma null_seals : Seals null_keys (rfc_protect turned) null_seal.
Proof.
  apply rfc_seals; [done| |].
  - intros n aad plain _ _ _. unfold null_seal, null_open.
    rewrite length_app, length_replicate, Nat.add_sub. by rewrite take_app_length.
  - intros n aad plain. unfold null_seal. by rewrite blen_app.
Qed.

(** A ClientHello asking for the host "h", in one packet of 1200 bytes. *)
Definition example_entries : bytes := entry_bytes (be_bytes 1) (HOST_NAME, lit "h").
Definition example_extensions : bytes :=
  entry_bytes (be_bytes 2) (SERVER_NAME_EXTENSION, vec16 example_entries).
Definition example_body : bytes :=
  replicate 2 Byte.x03 ++ replicate 32 Byte.x07 ++ vec8 [] ++ vec16 [] ++ vec8 [] ++
  vec16 example_extensions.
Definition example_hello : bytes := handshake CLIENT_HELLO example_body.
Definition example_initial : Initial :=
  mkInitial Byte.xc0 (replicate 8 Byte.x01) [] [Byte.x00] [] [Byte.x44; Byte.x9e] [Byte.x00].
Definition example_frames : bytes :=
  replicate 1108 Byte.x00 ++ [Byte.x06; Byte.x00; Byte.x36] ++ example_hello.

Lemma example_hello_wire : hello_wire example_body (lit "h").
Proof.
  exists (replicate 2 Byte.x03), (replicate 32 Byte.x07), [], [], [], example_extensions, [],
    (vec16 example_entries). split_and!; try done.
  - exists [], []. split_and!; [by rewrite app_nil_r|constructor|done].
  - exists example_entries, []. split_and!; [by rewrite app_nil_r|done|].
    exists [], []. split_and!; [by rewrite app_nil_r|constructor|done].
Qed.

Lemma sealed_hello_verdict_witness :
  judge (crypto := null_crypto)
    (initial_packet (rfc_protect turned) null_seal example_initial example_frames ++ [])
    (names_new [lit "H."]) = Some Pass.
Proof.
  rewrite (sealed_hello_verdict (crypto := null_crypto) null_keys (rfc_protect turned) null_seal null_seals
    example_initial example_frames [] _ [(0, example_hello)] example_body (lit "h")).
  - reflexivity.
  - reflexivity.
  - split; try done; try by vm_compute.
  - by vm_compute.
  - split; by vm_compute.
  - done.
  - apply example_hello_wire.
  - apply frames_wire_padding. rewrite <- (app_nil_r (_ ++ example_hello)).
    apply (wire_cons _ [(0, example_hello)] [] []); [|constructor].
    by apply (wire_crypto [Byte.x06] [Byte.x00] 0 [Byte.x36]).
  - repeat constructor; done.
  - intros j Hj. exists (0, example_hello). split; [set_solver|].
    unfold covers; cbn [fst snd]. fold example_hello in Hj. lia.
Defined.

(** ** Refused datagrams *)

Section Screening.
Context `{crypto : ServerConfig, !KeysWf crypto}.

Lemma blind_length d : length (blind d) = length d.
Proof. unfold blind. case_match; [|done]. apply length_insert. Qed.

Lemma blind_undecodable d : parse_initial (blind d) = None.
Proof.
  unfold parse_initial, blind. destruct (Z.ltb_spec DCID_LENGTH_OFFSET (blen d)) as [H|H].
  - assert (get_at (<[Z.to_nat DCID_LENGTH_OFFSET := IMPOSSIBLE_CID_LENGTH]> d)
      DCID_LENGTH_OFFSET = Some IMPOSSIBLE_CID_LENGTH) as ->; [|done].
    unfold get_at, blen in *. rewrite length_insert. unfold DCID_LENGTH_OFFSET in *.
    rewrite (proj2 (andb_true_iff _ _)) by lia. apply list_lookup_insert_eq. lia.
  - assert (get_at d DCID_LENGTH_OFFSET = None) as ->; [|done].
    unfold get_at. by rewrite (proj2 (andb_false_iff _ _)) by (unfold DCID_LENGTH_OFFSET in *; lia).
Qed.

Lemma screen_some d expected : ∃ d', screen d expected = Some d' ∧ length d' = length d.
Proof.
  unfold screen. pose proof (judge_no_panic d expected).
  destruct (judge d expected) as [[|r]|]; [|eexists; split; [done|apply blind_length]|done]. eauto.
Qed.

(** Screening never panics and never changes the length of a datagram; a
    passed datagram is untouched; a refused one is a long-header packet, keeps
    every byte but the connection ID's length, and no longer parses as a
    packet. *)
Theorem screen_effect d expected :
  ∃ d', screen d expected = Some d' ∧
    ((judge d expected = Some Pass ∧ d' = d) ∨
     (∃ refusal x l, judge d expected = Some (Refuse refusal) ∧
        d = x :: l ∧ Z.land (u8 x) LONG_HEADER_FORM ≠ 0 ∧
        length d' = length d ∧ (∀ i, i ≠ 5%nat → d' !! i = d !! i) ∧
        parse_initial d' = None)).
Proof.
  destruct (screen_some d expected) as (d' & Hs & Hlen). exists d'. split; [done|].
  unfold screen in Hs. destruct (judge d expected) as [[|r]|] eqn:E; [|right|done].
  { left. split; [done|]. by injection Hs. }
  injection Hs as <-. destruct d as [|x l]; [done|].
  assert (Z.land (u8 x) LONG_HEADER_FORM ≠ 0) as Hx.
  { intros Hx. unfold judge in E. by rewrite Hx in E. }
  exists r, x, l. split_and!; [done..| |apply blind_undecodable].
  intros i Hi. unfold blind. case_match; [|done]. apply list_lookup_insert_ne.
  unfold DCID_LENGTH_OFFSET. lia.
Qed.

(** ** The receive batch *)

(** A generic receive run: datagrams [stride] bytes apart, the last one possibly
    shorter. *)
Inductive gro_run (stride : Z) : list bytes → Prop :=
  | run_last d : 0 < blen d ≤ stride → gro_run stride [d]
  | run_more d ds : blen d = stride → 0 < stride → gro_run stride ds → gro_run stride (d :: ds).

Definition screen_all (expected : Names) (ds : list bytes) : option (list bytes) :=
  mapM (λ d, screen d expected) ds.

Lemma walk_step_run expected len stride pre d post :
  0 < blen d → blen d = Z.min stride (len - blen pre) → 0 < stride →
  len ≤ blen (pre ++ d ++ post) → blen (pre ++ d ++ post) < 2 ^ 64 →
  walk_step expected len stride (blen pre, pre ++ d ++ post) =
  match screen d expected with
  | Some d' => inl (blen (pre ++ d'), pre ++ d' ++ post)
  | None => inr None
  end.
Proof.
  intros Hd Hmin Hs Hlen Hlt. unfold walk_step. pose proof (blen_nonneg pre).
  rewrite !blen_app in Hlen, Hlt. pose proof (blen_nonneg post).
  rewrite (proj2 (Z.ltb_lt _ _)) by lia. cbn [negb].
  assert (Z.min (saturating_add 64 (blen pre) stride) len = blen pre + blen d) as ->
    by (unfold saturating_add; lia).
  rewrite get_range_app. cbn [mbind option_bind].
  destruct (screen_some d expected) as (d' & -> & Hd').
  assert (blen d' = blen d) as Hb by (unfold blen; by rewrite Hd').
  rewrite blen_app, Hb. do 2 f_equal.
  assert (Z.to_nat (blen pre) = length pre) as -> by (unfold blen; lia).
  assert (Z.to_nat (blen pre + blen d) = length (pre ++ d)) as ->
    by (unfold blen; rewrite length_app; lia).
  by rewrite take_app_length, (app_assoc pre d post), drop_app_length.
Qed.

Lemma walk_run expected m buf pre ds post :
  gro_run (run_stride m) ds → run_len m buf = blen (pre ++ concat ds) →
  blen (pre ++ concat ds ++ post) < 2 ^ 64 →
  run (walk_step expected (run_len m buf) (run_stride m)) (blen pre, pre ++ concat ds ++ post) =
  (ds' ← screen_all expected ds; Some (pre ++ concat ds' ++ post)).
Proof.
  intros Hds. assert (0 < run_stride m) as Hpos by (unfold run_stride; lia).
  revert pre. induction Hds as [d Hd|d ds Hd _ Hds IH]; intros pre Hlen Hlt;
    cbn [concat] in *; rewrite ?app_nil_r in *.
  - rewrite run_unfold, walk_step_run;
      [|rewrite ?blen_app in *; pose proof (blen_nonneg post); lia..].
    cbn [screen_all mapM]. destruct (screen_some d expected) as (d' & -> & Hd').
    cbn [mbind option_bind mret option_ret concat]. rewrite app_nil_r. rewrite run_unfold.
    unfold walk_step at 1. rewrite (proj2 (Z.ltb_ge _ _)); [done|].
    rewrite Hlen, !blen_app. unfold blen. rewrite Hd'. lia.
  - assert (0 < blen (concat ds)) as Hne.
    { destruct Hds as [e He|e es He He' _]; cbn [concat]; rewrite !blen_app;
        [|pose proof (blen_nonneg (concat es))]; change (blen []) with 0; lia. }
    rewrite <- app_assoc in *. rewrite run_unfold, walk_step_run;
      [|rewrite ?blen_app in *; pose proof (blen_nonneg post); lia..].
    cbn [screen_all mapM]. destruct (screen_some d expected) as (d' & -> & Hd').
    assert (blen d' = blen d) as Hb by (unfold blen; by rewrite Hd').
    cbn [mbind option_bind]. specialize (IH (pre ++ d')). rewrite <- !app_assoc in IH.
    rewrite IH by (rewrite ?blen_app in *; lia). unfold screen_all.
    destruct (mapM _ ds); cbn [mbind option_bind mret option_ret concat]; [|done].
    by rewrite <- !app_assoc.
Qed.

(** Every datagram of a receive run is judged on its own: the buffer
    afterwards holds the screened datagrams one after the other, and what lies
    behind the received bytes is untouched. *)
Theorem walk_screens_each expected m ds post :
  gro_run (run_stride m) ds → meta_len m = blen (concat ds) →
  blen (concat ds ++ post) < 2 ^ 64 →
  walk expected m (concat ds ++ post) =
  (ds' ← screen_all expected ds; Some (concat ds' ++ post)).
Proof.
  intros Hds Hm Hlt. unfold walk. apply (walk_run expected m _ [] ds post); [done| |done].
  unfold run_len, usize_len. rewrite wrap_id by (split; [apply blen_nonneg|done]).
  rewrite Hm, !blen_app. pose proof (blen_nonneg post). change (blen []) with 0. lia.
Qed.
End Screening.

(** Three datagrams, the middle one a long header of another version. *)
Lemma walk_screens_each_witness :
  let probe := [Byte.x80; Byte.x00; Byte.x00; Byte.x00; Byte.x02; Byte.x08] in
  let short := [Byte.x40; Byte.x01; Byte.x02; Byte.x03; Byte.x04; Byte.x05] in
  walk (crypto := null_crypto) (names_new [lit "h"]) (mkRecvMeta 14 6)
    (concat [short; probe; [Byte.x41; Byte.x00]] ++ [Byte.xaa]) =
  Some (concat [short; [Byte.x80; Byte.x00; Byte.x00; Byte.x00; Byte.x02; Byte.xff];
                [Byte.x41; Byte.x00]] ++ [Byte.xaa]).
Proof.
  intros probe short. rewrite (walk_screens_each (crypto := null_crypto)).
  - reflexivity.
  - apply run_more; [done..|]. apply run_more; [done..|]. by apply run_last.
  - done.
  - done.
Defined.

Lemma screen_effect_witness :
  ∃ d', screen (crypto := null_crypto) [Byte.x40; Byte.x00] (names_new [lit "h"]) = Some d' ∧
    d' = [Byte.x40; Byte.x00].
Proof.
  destruct (screen_effect (crypto := null_crypto) [Byte.x40; Byte.x00] (names_new [lit "h"]))
    as (d' & Hs & _). exists d'. split; [exact Hs|]. by vm_compute in Hs; injection Hs.
Defined.

(** ** Reloading the list *)

(** The states a reader can see while the list is replaced. *)
Definition reload_states (h : Held) (n : Names) : list Held :=
  [h; set_names n h; expected_set n h].

(** The flag says whether the list holds anything. *)
Definition held_wf (h : Held) : Prop := held_any h = negb (names_is_empty (held_names h)).

Lemma expected_set_wf n h : held_wf (expected_set n h).
Proof. done. Qed.

Lemma expected_new_wf n : held_wf (expected_new n).
Proof. done. Qed.

Section Reload.
Context `{crypto : ServerConfig}.

(** A batch received while the list is being replaced is treated either
    wholly under the old list or wholly under the new one, wherever the two reads
    of the receive path fall between the two writes of the reload. *)
Theorem reload_atomic h n i j at_flag at_list inner metas bufs :
  held_wf h → (i ≤ j)%nat →
  reload_states h n !! i = Some at_flag → reload_states h n !! j = Some at_list →
  let treated := poll_recv at_flag at_list inner metas bufs in
  treated = poll_recv h h inner metas bufs ∨
  treated = poll_recv (expected_set n h) (expected_set n h) inner metas bufs.
Proof.
  intros Hwf Hij Hi Hj. unfold poll_recv. destruct inner as [| |count]; [by left..|].
  unfold held_wf in Hwf. destruct h as [old any]; cbn in Hwf. subst any.
  destruct i as [|[|[|i]]], j as [|[|[|j]]]; try lia; cbn in Hi, Hj; simplify_eq; cbn;
    destruct (names_is_empty old) eqn:Eo, (names_is_empty n) eqn:En; cbn;
    rewrite ?Eo, ?En; auto.
Qed.
End Reload.

Lemma reload_atomic_witness :
  let h := expected_new (names_new []) in
  let n := names_new [lit "h"] in
  let probe := [Byte.x80; Byte.x00; Byte.x00; Byte.x00; Byte.x02; Byte.x08] in
  let treated := poll_recv (crypto := null_crypto) h (expected_set n h) (ReadyOk 1)
    [mkRecvMeta 6 6] [probe] in
  treated = Some (ReadyOk 1, [probe]) ∨ treated = Some (ReadyOk 1, [blind probe]).
Proof.
  intros h n probe.
  destruct (reload_atomic (crypto := null_crypto) h n 0 2 h (expected_set n h) (ReadyOk 1)
    [mkRecvMeta 6 6] [probe]) as [E|E]; [done|lia|done|done|left|right]; cbv zeta; by rewrite E.
Defined.
