(* ===== verification/Target.v ===== *)
(** * Naming a target (src/src/tunnel/mod.rs, tcp.rs, udp.rs)

    How a request is routed and how its target is read: [split_authority] for the
    [:authority] of a CONNECT, [parse_target] for the URI template of RFC 9298.
    The two are one decision reached along two routes; the theorems say exactly
    which spellings each accepts and that every host and port can be named along
    both. *)

From S2P Require Import Prelude Utf8 Message Status.

#[local] Open Scope Z_scope.

(** ** Strings (std)

    A [str] is its bytes, and every character searched for is ASCII. *)

Definition COLON : byte := as_u8 0x3a.
Definition SLASH : byte := as_u8 0x2f.
Definition AT : byte := as_u8 0x40.
Definition OPEN_BRACKET : byte := as_u8 0x5b.
Definition CLOSE_BRACKET : byte := as_u8 0x5d.
Definition PERCENT : byte := as_u8 0x25.
Definition PLUS : byte := as_u8 0x2b.

Fixpoint split_once (x : byte) (l : bytes) : option (bytes * bytes) :=
  match l with
  | [] => None
  | y :: l =>
      if bool_decide (y = x) then Some ([], l)
      else '(a, b) ← split_once x l; Some (y :: a, b)
  end.

(** [rsplit_once]: at the last occurrence. *)
Fixpoint rsplit_once (x : byte) (l : bytes) : option (bytes * bytes) :=
  match l with
  | [] => None
  | y :: l =>
      match rsplit_once x l with
      | Some (a, b) => Some (y :: a, b)
      | None => if bool_decide (y = x) then Some ([], l) else None
      end
  end.

(** [split]: the pieces between the occurrences. *)
Fixpoint split (x : byte) (l : bytes) : list bytes :=
  match l with
  | [] => [[]]
  | y :: l =>
      if bool_decide (y = x) then [] :: split x l
      else match split x l with
           | piece :: pieces => (y :: piece) :: pieces
           | [] => [[y]]
           end
  end.

Fixpoint strip_prefix (p l : bytes) : option bytes :=
  match p, l with
  | [], _ => Some l
  | x :: p, y :: l => if bool_decide (x = y) then strip_prefix p l else None
  | _ :: _, [] => None
  end.

Definition strip_suffix (x : byte) (l : bytes) : option bytes :=
  match last l with
  | Some y => if bool_decide (y = x) then Some (removelast l) else None
  | None => None
  end.

(** [from_str] of an unsigned type of [w] bits: an optional plus sign and decimal
    digits. *)
Definition digit_value (x : byte) : option Z :=
  if is_ascii_digit x then Some (u8 x - 0x30) else None.

Fixpoint uint_digits (w : Z) (l : bytes) (acc : Z) : option Z :=
  match l with
  | [] => Some acc
  | x :: l =>
      d ← digit_value x;
      let acc := acc * 10 + d in
      if acc <? 2 ^ w then uint_digits w l acc else None
  end.

Definition parse_uint (w : Z) (l : bytes) : option Z :=
  let l := match l with x :: l' => if bool_decide (x = PLUS) then l' else l | [] => [] end in
  match l with [] => None | _ => uint_digits w l 0 end.

Definition parse_u16 : bytes → option Z := parse_uint 16.

(** ** Spelling rules both routes share (tunnel/mod.rs) *)

Definition is_port (text : bytes) : bool :=
  negb (bool_decide (text = [])) && forallb is_ascii_digit text.

Definition stray_bracket (host : bytes) : bool :=
  existsb (λ x, bool_decide (x = OPEN_BRACKET) || bool_decide (x = CLOSE_BRACKET)) host.

(** ** The CONNECT authority (tunnel/tcp.rs) *)

Definition split_host (authority : bytes) : result (bytes * bytes) string :=
  match strip_prefix [OPEN_BRACKET] authority with
  | Some rest =>
      let? (host, rest) := ok_or (split_once CLOSE_BRACKET rest) "unterminated IPv6 literal"%string in
      if bool_decide (host = []) then Err "empty host"%string
      else if stray_bracket host then Err "stray bracket in host"%string
      else
        let? port := ok_or (strip_prefix [COLON] rest) "missing port after IPv6 literal"%string in
        Ok (host, port)
  | None =>
      let? (host, port) := ok_or (rsplit_once COLON authority) "missing port"%string in
      if bool_decide (host = []) then Err "empty host"%string
      else if contains_byte host COLON then Err "unbracketed IPv6 literal"%string
      else if stray_bracket host then Err "stray bracket in host"%string
      else Ok (host, port)
  end.

Definition split_authority (authority : bytes) : result (bytes * Z) string :=
  if contains_byte authority AT then
    Err "userinfo is not allowed in a CONNECT authority"%string
  else
    let? (host, port) := split_host authority in
    if negb (is_port port) then Err "invalid port"%string
    else
      let? port := ok_or (parse_u16 port) "invalid port"%string in
      if port =? 0 then Err "port must not be zero"%string else Ok (host, port).

(** ** The CONNECT-UDP template (tunnel/udp.rs) *)

Definition WELL_KNOWN_PREFIX : bytes := lit "/.well-known/masque/udp/".
Definition CONNECT_UDP : bytes := lit "connect-udp".

(** The percent-encoding crate's [percent_decode_str], whose documentation says
    that a percent sign and two hexadecimal digits are the byte they denote and
    that any other byte is itself. *)
Definition hex_digit (d : Z) : byte := digit d.
Definition escape (x : byte) : bytes :=
  [PERCENT; hex_digit (u8 x / 16); hex_digit (u8 x mod 16)].

Class PercentDecode := {
  percent_decode : bytes → bytes;
  percent_decode_nil : percent_decode [] = [];
  percent_decode_plain x l : x ≠ PERCENT → percent_decode (x :: l) = x :: percent_decode l;
  percent_decode_escape x l : percent_decode (escape x ++ l) = x :: percent_decode l;
}.

Definition unbracketed (host : bytes) : option bytes :=
  rest ← strip_prefix [OPEN_BRACKET] host;
  literal ← strip_suffix CLOSE_BRACKET rest;
  if bool_decide (literal = []) then None else Some literal.

Section Template.
Context `{!PercentDecode}.

Definition parse_target (path : bytes) (query : option bytes) : result (bytes * Z) string :=
  if match query with Some q => negb (bool_decide (q = [])) | None => false end then
    Err "the connect-udp template accepts no query"%string
  else
    let? rest := ok_or (strip_prefix WELL_KNOWN_PREFIX path)
                       "path is not the connect-udp template"%string in
    let rest := default rest (strip_suffix SLASH rest) in
    match split SLASH rest with
    | [] | [_] => Err "missing target_port"%string
    | host :: port :: more =>
        if negb (bool_decide (more = [])) then
          Err "too many path segments for the connect-udp template"%string
        else
          let? host := ok_or (from_utf8 (percent_decode host)) "target_host is not valid UTF-8"%string in
          if bool_decide (host = []) then Err "empty target_host"%string
          else
            let host := default host (unbracketed host) in
            if stray_bracket host then Err "stray bracket in host"%string
            else
              let? port := ok_or (from_utf8 (percent_decode port))
                                 "target_port is not valid UTF-8"%string in
              if negb (is_port port) then Err "invalid target_port"%string
              else
                let? port := ok_or (parse_u16 port) "invalid target_port"%string in
                if port =? 0 then Err "target_port must not be zero"%string else Ok (host, port)
    end.
End Template.

(** ** Requests *)

Definition validate (req : Request) : result unit string :=
  if match scheme req with Some s => bool_decide (s = []) | None => true end then
    Err "connect-udp requires a non-empty :scheme"%string
  else if contains (fields req) (lit "content-length") then
    Err "content-length is forbidden on a capsule stream"%string
  else if contains (fields req) (lit "content-type") then
    Err "content-type is forbidden on a capsule stream"%string
  else Ok ().

(** [None] is the panic of [FieldValue::from_static]. *)
Definition capsule_fields : option Fields :=
  value ← from_static (lit "?1");
  Some (append fields_new (lit "capsule-protocol") value).

Inductive Route :=
  | RouteTcp
  | RouteConnectUdp
  | UnsupportedProtocol (protocol : bytes)
  | NotConnect.

Definition route (req : Request) : Route :=
  if negb (bool_decide (method req = Connect)) then NotConnect
  else
    match protocol req with
    | None => RouteTcp
    | Some p => if bool_decide (p = CONNECT_UDP) then RouteConnectUdp else UnsupportedProtocol p
    end.

Definition CONNECTION_SPECIFIC_FIELDS : list bytes :=
  [lit "proxy-connection"; lit "keep-alive"; lit "transfer-encoding"; lit "upgrade"].

Definition connection_specific_field (req : Request) : option bytes :=
  List.find (λ name, contains (fields req) name) CONNECTION_SPECIFIC_FIELDS.

(** ** Facts about strings *)

Lemma split_once_exact x l a b : split_once x l = Some (a, b) ↔ l = a ++ x :: b ∧ x ∉ a.
Proof.
  revert a. induction l as [|y l IH]; intros a; cbn [split_once].
  { split; [done|]. intros [H _]. by destruct a. }
  case_bool_decide as Hy; subst.
  - split; [intros [= <- <-]; split; [done|apply not_elem_of_nil]|].
    intros [H Hx]. destruct a as [|z a]; [naive_solver|]. injection H as -> ->. set_solver.
  - destruct (split_once x l) as [[a' b']|] eqn:E; cbn [mbind option_bind].
    + split.
      * intros [= <- <-]. destruct (proj1 (IH a') eq_refl) as [-> Hx]. set_solver.
      * intros [H Hx]. destruct a as [|z a]; [naive_solver|]. injection H as -> Heq.
        assert (Some (a', b') = Some (a, b)) as [= -> ->]; [|done]. apply IH. set_solver.
    + split; [done|]. intros [H Hx]. destruct a as [|z a]; [naive_solver|]. injection H as -> Heq.
      assert (None = Some (a, b)); [|done]. apply IH. set_solver.
Qed.

Lemma split_once_none x l : split_once x l = None ↔ x ∉ l.
Proof.
  induction l as [|y l IH]; cbn [split_once]; [split; [set_solver|done]|].
  case_bool_decide; [subst; set_solver|].
  destruct (split_once x l) as [[a b]|]; cbn [mbind option_bind]; set_solver.
Qed.

Lemma rsplit_once_none x l : rsplit_once x l = None ↔ x ∉ l.
Proof.
  induction l as [|y l IH]; cbn [rsplit_once]; [split; [set_solver|done]|].
  destruct (rsplit_once x l) as [[a b]|]; [set_solver|]. case_bool_decide; set_solver.
Qed.

Lemma rsplit_once_exact x l a b : rsplit_once x l = Some (a, b) ↔ l = a ++ x :: b ∧ x ∉ b.
Proof.
  revert a b. induction l as [|y l IH]; intros a b; cbn [rsplit_once].
  { split; [done|]. intros [H _]. by destruct a. }
  destruct (rsplit_once x l) as [[a' b']|] eqn:E.
  - destruct (proj1 (IH a' b') eq_refl) as [-> Hx]. split; [by intros [= <- <-]|].
    intros [H Hb]. destruct a as [|z a].
    + injection H as -> <-. set_solver.
    + injection H as -> Heq. assert (Some (a', b') = Some (a, b)) as [= -> ->]; [|done].
      by apply IH.
  - apply rsplit_once_none in E. case_bool_decide as Hy; subst.
    + split; [by intros [= <- <-]|]. intros [H Hb]. destruct a as [|z a]; [naive_solver|].
      injection H as -> ->. set_solver.
    + split; [done|]. intros [H Hb]. destruct a as [|z a]; [naive_solver|]. injection H as -> ->.
      set_solver.
Qed.

Lemma strip_prefix_exact p l r : strip_prefix p l = Some r ↔ l = p ++ r.
Proof.
  revert l. induction p as [|x p IH]; intros l; cbn [strip_prefix app]; [naive_solver|].
  destruct l as [|y l]; [naive_solver|]. case_bool_decide; [subst; rewrite IH|]; naive_solver.
Qed.

Lemma strip_suffix_exact x l r : strip_suffix x l = Some r ↔ l = r ++ [x].
Proof.
  unfold strip_suffix. destruct l as [|y l _] using rev_ind.
  { cbn. split; [done|]. intros H. by destruct r. }
  rewrite last_snoc, removelast_last. case_bool_decide as Hy; subst.
  - split; [by intros [= ->]|]. by intros [-> _]%app_inj_tail.
  - split; [done|]. by intros [_ ->]%app_inj_tail.
Qed.

(** [split] cuts at every occurrence. *)
Lemma split_plain x l : x ∉ l → split x l = [l].
Proof.
  induction l as [|y l IH]; intros Hx; cbn [split]; [done|].
  rewrite bool_decide_eq_false_2 by set_solver. rewrite IH by set_solver. done.
Qed.

Lemma split_app x a b : x ∉ a → split x (a ++ x :: b) = a :: split x b.
Proof.
  induction a as [|y a IH]; intros Hx; cbn [split app].
  - by rewrite bool_decide_eq_true_2.
  - rewrite bool_decide_eq_false_2 by set_solver. rewrite IH by set_solver. done.
Qed.

Lemma split_pair x l a b :
  split x l = [a; b] ↔ l = a ++ (x :: b) ∧ (x ∉ a) ∧ (x ∉ b).
Proof.
  split.
  - destruct (split_once x l) as [[a' r]|] eqn:E.
    + apply split_once_exact in E as [-> Ha]. rewrite split_app by done. intros [= -> Hr].
      destruct (split_once x r) as [[r1 r2]|] eqn:Er.
      * apply split_once_exact in Er as [-> Hr1]. rewrite split_app in Hr by done.
        injection Hr as _ Hr. destruct r2; cbn [split] in Hr; repeat case_match; simplify_eq.
      * apply split_once_none in Er. rewrite split_plain in Hr by done. by injection Hr as ->.
    + apply split_once_none in E. by rewrite split_plain.
  - intros (-> & Ha & Hb). by rewrite split_app, split_plain.
Qed.

(** ** Ports *)

(** The number a string of digits denotes. *)
Definition decimal_value (l : bytes) : Z := foldl (λ acc x, acc * 10 + (u8 x - 0x30)) 0 l.

(** [t] spells the port [p]: digits, and a number a port may be. *)
Definition spells_port (t : bytes) (p : Z) : Prop :=
  t ≠ [] ∧ Forall (λ x, is_ascii_digit x = true) t ∧ decimal_value t = p ∧ 1 ≤ p < 2 ^ 16.

Lemma is_ascii_digit_range x : is_ascii_digit x = true ↔ 0x30 ≤ u8 x ≤ 0x39.
Proof. unfold is_ascii_digit, between. lia. Qed.

Lemma decimal_fold_mono l acc :
  Forall (λ x, is_ascii_digit x = true) l → 0 ≤ acc →
  acc ≤ foldl (λ acc x, acc * 10 + (u8 x - 0x30)) acc l.
Proof.
  intros Hl. revert acc. induction Hl as [|x l Hx _ IH]; intros acc Ha; cbn [foldl]; [lia|].
  apply is_ascii_digit_range in Hx. etransitivity; [|apply IH]; lia.
Qed.

Lemma uint_digits_exact w l acc v :
  Forall (λ x, is_ascii_digit x = true) l → 0 ≤ acc < 2 ^ w →
  uint_digits w l acc = Some v ↔
  foldl (λ acc x, acc * 10 + (u8 x - 0x30)) acc l = v ∧ v < 2 ^ w.
Proof.
  intros Hl. revert acc. induction Hl as [|x l Hx Hl IH]; intros acc Ha; cbn [foldl uint_digits].
  { naive_solver. }
  unfold digit_value. rewrite Hx. cbn [mbind option_bind]. apply is_ascii_digit_range in Hx.
  destruct (Z.ltb_spec (acc * 10 + (u8 x - 0x30)) (2 ^ w)); [apply IH; lia|].
  split; [done|]. intros [Hv Hlt].
  pose proof (decimal_fold_mono l (acc * 10 + (u8 x - 0x30)) Hl ltac:(lia)). lia.
Qed.

Lemma parse_uint_digits w t :
  t ≠ [] → Forall (λ x, is_ascii_digit x = true) t → parse_uint w t = uint_digits w t 0.
Proof.
  intros Hne Hall. unfold parse_uint. destruct t as [|x t]; [done|].
  apply Forall_cons in Hall as [Hx _]. rewrite bool_decide_eq_false_2; [done|]. by intros ->.
Qed.

(** The check both routes make of a port. *)
Definition read_port (e0 e1 e2 : string) (port : bytes) : result Z string :=
  if negb (is_port port) then Err e0
  else
    let? port := ok_or (parse_u16 port) e1 in
    if port =? 0 then Err e2 else Ok port.

Lemma read_port_exact e0 e1 e2 t p : read_port e0 e1 e2 t = Ok p ↔ spells_port t p.
Proof.
  unfold read_port, spells_port.
  assert (is_port t = true ↔ t ≠ [] ∧ Forall (λ x, is_ascii_digit x = true) t) as Hport.
  { unfold is_port. rewrite andb_true_iff, negb_true_iff, bool_decide_eq_false, forallb_forall,
      Forall_forall. setoid_rewrite list_elem_of_In. done. }
  destruct (is_port t) eqn:Et; cbn [negb]; [|split; [done|]; intros (? & ? & _);
    by assert (false = true) by by apply Hport].
  destruct (proj1 Hport eq_refl) as [Hne Hall].
  unfold parse_u16. rewrite parse_uint_digits by done.
  destruct (uint_digits 16 t 0) as [v|] eqn:Ev; cbn [ok_or result_bind].
  - apply uint_digits_exact in Ev as [Hv Hlt]; [|done|lia]. unfold decimal_value.
    pose proof (decimal_fold_mono t 0 Hall ltac:(lia)). rewrite Hv in *.
    destruct (Z.eqb_spec v 0); [split; [done|lia]|]. split; [intros [= <-]; split_and!; auto; lia|].
    intros (_ & _ & -> & _). done.
  - split; [done|]. intros (_ & _ & Hv & Hr).
    assert (None = Some p); [|done]. rewrite <- Ev. apply uint_digits_exact; [done|lia|].
    split; [exact Hv|lia].
Qed.

Lemma digits_decimal w n acc :
  0 ≤ n < 10 ^ Z.of_nat (S w) →
  ∃ t, digits 10 (S w) n acc = t ++ acc ∧ t ≠ [] ∧
    Forall (λ x, is_ascii_digit x = true) t ∧ decimal_value t = n.
Proof.
  assert (∀ m, 0 ≤ m → u8 (digit (m mod 10)) = 0x30 + m mod 10) as Hd.
  { intros m Hm. pose proof (Z.mod_pos_bound m 10 ltac:(lia)). unfold digit.
    rewrite (proj2 (Z.ltb_lt _ _)) by lia. rewrite u8_as_u8, wrap_id; [done|]. split; lia. }
  assert (∀ m, 0 ≤ m → is_ascii_digit (digit (m mod 10)) = true) as Hdig.
  { intros m Hm. apply is_ascii_digit_range. rewrite Hd by done.
    pose proof (Z.mod_pos_bound m 10 ltac:(lia)). lia. }
  revert n acc. induction w as [|w IH]; intros n acc Hn.
  - assert (n / 10 = 0) as Hz by (apply Z.div_small; change (10 ^ Z.of_nat 1) with 10 in Hn; lia).
    cbn [digits]. rewrite Hz. exists [digit (n mod 10)]. split_and!; [done..| |].
    + constructor; [apply Hdig; lia|constructor].
    + unfold decimal_value; cbn [foldl]. rewrite Hd by lia. div_lia.
  - rewrite Nat2Z.inj_succ, Z.pow_succ_r in Hn by lia. cbn [digits].
    destruct (Z.eqb_spec (n / 10) 0) as [Hz|Hz].
    + exists [digit (n mod 10)]. split_and!; [done..| |].
      * constructor; [apply Hdig; lia|constructor].
      * unfold decimal_value; cbn [foldl]. rewrite Hd by lia. div_lia.
    + destruct (IH (n / 10) (digit (n mod 10) :: acc)) as (t & Ht & _ & Hall & Hv).
      { split; [apply Z.div_pos; lia|]. apply Z.div_lt_upper_bound; lia. }
      exists (t ++ [digit (n mod 10)]). split_and!.
      * cbn [digits] in Ht. by rewrite Ht, <- app_assoc.
      * by destruct t.
      * apply Forall_app. split; [done|]. constructor; [apply Hdig; lia|constructor].
      * unfold decimal_value in *. rewrite foldl_app, Hv. cbn [foldl]. rewrite Hd by lia. div_lia.
Qed.

(** The decimal digits of a port spell it. *)
Lemma decimal_spells p : 1 ≤ p < 2 ^ 16 → spells_port (decimal p) p.
Proof.
  intros Hp. destruct (digits_decimal 4 p []) as (t & Ht & Hne & Hall & Hv); [lia|].
  unfold decimal. rewrite Ht, app_nil_r. split_and!; done || lia.
Qed.

(** ** Hosts *)

(** A host component once its literal's brackets are off. *)
Definition is_host (h : bytes) : Prop := h ≠ [] ∧ (OPEN_BRACKET ∉ h) ∧ CLOSE_BRACKET ∉ h.

Definition bracketed (h : bytes) : bytes := [OPEN_BRACKET] ++ h ++ [CLOSE_BRACKET].

Lemma stray_bracket_false h : stray_bracket h = false ↔ (OPEN_BRACKET ∉ h) ∧ CLOSE_BRACKET ∉ h.
Proof.
  unfold stray_bracket. induction h as [|x h IH]; cbn [existsb]; [set_solver|].
  rewrite !orb_false_iff, IH, !bool_decide_eq_false. set_solver.
Qed.

Lemma contains_byte_false l x : contains_byte l x = false ↔ x ∉ l.
Proof. rewrite <- contains_byte_spec. by destruct (contains_byte l x). Qed.

Lemma spells_no_colon t p : spells_port t p → COLON ∉ t.
Proof. intros (_ & Hall & _) Hin. rewrite Forall_forall in Hall. by apply Hall in Hin. Qed.

Lemma spells_no_slash t p : spells_port t p → SLASH ∉ t.
Proof. intros (_ & Hall & _) Hin. rewrite Forall_forall in Hall. by apply Hall in Hin. Qed.

Lemma split_host_exact a h t :
  split_host a = Ok (h, t) ∧ COLON ∉ t ↔
  is_host h ∧ (COLON ∉ t) ∧
  (a = bracketed h ++ [COLON] ++ t ∨ (¬ (COLON ∈ h) ∧ a = h ++ [COLON] ++ t)).
Proof.
  unfold split_host, is_host, bracketed.
  destruct (strip_prefix [OPEN_BRACKET] a) as [rest|] eqn:Ep.
  - apply strip_prefix_exact in Ep as ->. split.
    + intros [H Ht]. destruct (split_once CLOSE_BRACKET rest) as [[host rest']|] eqn:Es; [|done].
      apply split_once_exact in Es as [-> Hc]. cbn [ok_or result_bind] in H.
      case_bool_decide; [done|]. destruct (stray_bracket host) eqn:Eb; [done|].
      apply stray_bracket_false in Eb. destruct (strip_prefix [COLON] rest') as [r|] eqn:Er; [|done].
      apply strip_prefix_exact in Er as ->. injection H as <- <-.
      split_and!; [naive_solver..|]. left. by rewrite <- !app_assoc.
    + intros ((Hne & Ho & Hc) & Ht & [Heq|[_ Heq]]).
      * rewrite <- !app_assoc in Heq. apply app_inv_head in Heq as ->.
        rewrite (proj2 (split_once_exact CLOSE_BRACKET _ h ([COLON] ++ t))) by done.
        cbn [ok_or result_bind]. rewrite bool_decide_eq_false_2 by done.
        rewrite (proj2 (stray_bracket_false h)) by done.
        by rewrite (proj2 (strip_prefix_exact [COLON] _ t)).
      * destruct h as [|x h]; [done|]. injection Heq as <- _. set_solver.
  - assert (∀ r, a ≠ OPEN_BRACKET :: r) as Hno.
    { intros r ->. by rewrite (proj2 (strip_prefix_exact _ _ r)) in Ep. }
    split.
    + intros [H Ht]. destruct (rsplit_once COLON a) as [[host port]|] eqn:Es; [|done].
      apply rsplit_once_exact in Es as [-> Hp]. cbn [ok_or result_bind] in H.
      case_bool_decide; [done|]. destruct (contains_byte host COLON) eqn:Ec; [done|].
      destruct (stray_bracket host) eqn:Eb; [done|]. injection H as <- <-.
      apply stray_bracket_false in Eb. apply contains_byte_false in Ec. naive_solver.
    + intros ((Hne & Ho & Hc) & Ht & [Heq|[Hcol ->]]).
      * by destruct (Hno (h ++ [CLOSE_BRACKET] ++ [COLON] ++ t)); rewrite Heq, <- !app_assoc.
      * rewrite (proj2 (rsplit_once_exact COLON _ h t)) by done. cbn [ok_or result_bind].
        rewrite bool_decide_eq_false_2 by done. rewrite (proj2 (contains_byte_false h COLON)) by done.
        by rewrite (proj2 (stray_bracket_false h)) by done.
Qed.

Lemma split_authority_read a :
  contains_byte a AT = false →
  split_authority a =
  (let? (host, t) := split_host a in
   result_map (pair host)
     (read_port "invalid port" "invalid port" "port must not be zero" t)).
Proof.
  unfold split_authority, read_port. intros ->.
  destruct (split_host a) as [[host t]|e]; cbn [result_bind]; [|done].
  destruct (is_port t); [|done]. cbn [negb]. destruct (parse_u16 t); [|done].
  cbn [ok_or result_bind]. by destruct (_ =? 0).
Qed.

Lemma split_authority_spec a h p :
  split_authority a = Ok (h, p) ↔
  (AT ∉ a) ∧ is_host h ∧ ∃ t, spells_port t p ∧
    (a = bracketed h ++ [COLON] ++ t ∨ (¬ (COLON ∈ h) ∧ a = h ++ [COLON] ++ t)).
Proof.
  destruct (contains_byte a AT) eqn:Ea.
  { unfold split_authority. rewrite Ea. apply contains_byte_spec in Ea. naive_solver. }
  rewrite split_authority_read by done. apply contains_byte_false in Ea. split.
  - destruct (split_host a) as [[host t]|e] eqn:Eh; [|done].
    cbn [result_bind]. destruct (read_port _ _ _ t) as [q|] eqn:Er; [|done]. intros [= <- <-].
    apply read_port_exact in Er. pose proof (spells_no_colon _ _ Er).
    destruct (proj1 (split_host_exact a host t) (conj Eh ltac:(done))) as (Hh & _ & Hcase). eauto 10.
  - intros (_ & Hh & t & Ht & Hcase). pose proof (spells_no_colon _ _ Ht) as Hc.
    destruct (proj2 (split_host_exact a h t) ltac:(done)) as [-> _].
    cbn [result_bind]. by rewrite (proj2 (read_port_exact _ _ _ t p)).
Qed.

Section TemplateFacts.
Context {HP : PercentDecode}.

(** What the decoded first segment names. *)
Lemma unbracketed_host d h :
  d ≠ [] →
  default d (unbracketed d) = h ∧ stray_bracket h = false ↔ is_host h ∧ (d = bracketed h ∨ d = h).
Proof.
  intros Hd. unfold unbracketed, is_host, bracketed. rewrite stray_bracket_false.
  destruct (strip_prefix [OPEN_BRACKET] d) as [rest|] eqn:Ep; cbn [mbind option_bind].
  - apply strip_prefix_exact in Ep as ->.
    destruct (strip_suffix CLOSE_BRACKET rest) as [lit_|] eqn:Es; cbn [mbind option_bind].
    + apply strip_suffix_exact in Es as ->. case_bool_decide as Hl; cbn [default from_option id].
      * subst. split; [intros [<- ?]; set_solver|]. intros [(Hne & ? & ?) [Heq|<-]]; [|set_solver].
        destruct h as [|x h]; [done|]. apply (f_equal length) in Heq. rewrite !length_app in Heq.
        simpl in Heq. lia.
      * split; [intros [-> ?]; auto|]. intros [(Hne & ? & ?) [Heq|<-]]; [|set_solver].
        apply app_inv_head, app_inj_tail in Heq as [-> _]. done.
    + split; [intros [<- ?]; set_solver|]. intros [(Hne & ? & ?) [Heq|<-]]; [|set_solver].
      apply app_inv_head in Heq as ->. by rewrite (proj2 (strip_suffix_exact _ _ h)) in Es.
  - split; [intros [<- ?]; auto|]. intros [(Hne & ? & ?) [-> | ->]]; [|done].
    by rewrite (proj2 (strip_prefix_exact _ _ (h ++ [CLOSE_BRACKET]))) in Ep.
Qed.

(** The two segments of the template, with or without the final slash. *)
Lemma template_segments rest hs ps :
  ps ≠ [] →
  split SLASH (default rest (strip_suffix SLASH rest)) = [hs; ps] ↔
  (SLASH ∉ hs) ∧ (SLASH ∉ ps) ∧
  (rest = hs ++ [SLASH] ++ ps ∨ rest = hs ++ [SLASH] ++ ps ++ [SLASH]).
Proof.
  intros Hps. rewrite split_pair. destruct (strip_suffix SLASH rest) as [r|] eqn:Es; cbn [default from_option id].
  - apply strip_suffix_exact in Es as ->. split.
    + intros (-> & Hh & Hp). split_and!; [done..|]. right. by rewrite <- app_assoc.
    + intros (Hh & Hp & [Heq|Heq]).
      * destruct ps as [|x ps _] using rev_ind; [done|].
        rewrite !app_assoc in Heq. apply app_inj_tail in Heq as [_ <-]. set_solver.
      * rewrite !app_assoc in Heq. apply app_inj_tail in Heq as [-> _]. by rewrite <- app_assoc.
  - split; [naive_solver|]. intros (Hh & Hp & [->|Heq]); [done|].
    rewrite !app_assoc in Heq. by rewrite (proj2 (strip_suffix_exact _ _ _) Heq) in Es.
Qed.
Lemma digits_utf8 t p : spells_port t p → valid_utf8 t = true.
Proof.
  intros (_ & Hall & _). apply valid_ascii. eapply Forall_impl; [exact Hall|].
  intros x Hx%is_ascii_digit_range. lia.
Qed.

Definition no_query (query : option bytes) : Prop := query = None ∨ query = Some [].

Lemma parse_target_segments path query hs ps :
  no_query query → percent_decode ps ≠ [] →
  path = WELL_KNOWN_PREFIX ++ hs ++ [SLASH] ++ ps ∨
  path = WELL_KNOWN_PREFIX ++ hs ++ [SLASH] ++ ps ++ [SLASH] →
  SLASH ∉ hs → SLASH ∉ ps →
  parse_target path query =
  (let? host := ok_or (from_utf8 (percent_decode hs)) "target_host is not valid UTF-8"%string in
   if bool_decide (host = []) then Err "empty target_host"%string
   else
     let host := default host (unbracketed host) in
     if stray_bracket host then Err "stray bracket in host"%string
     else
       let? port := ok_or (from_utf8 (percent_decode ps)) "target_port is not valid UTF-8"%string in
       result_map (pair host) (read_port "invalid target_port" "invalid target_port"
                                 "target_port must not be zero" port)).
Proof.
  intros Hq Hps Hpath Hh Hp. unfold parse_target, read_port.
  assert (match query with Some q => negb (bool_decide (q = [])) | None => false end = false) as ->
    by (destruct Hq as [->| ->]; done).
  assert (ps ≠ []) as Hne by (intros ->; by rewrite percent_decode_nil in Hps).
  destruct (strip_prefix WELL_KNOWN_PREFIX path) as [rest|] eqn:Ep.
  - apply strip_prefix_exact in Ep as ->. cbn [ok_or result_bind]. cbv zeta.
    rewrite (proj2 (template_segments rest hs ps Hne)).
    + cbn [negb bool_decide]. rewrite bool_decide_eq_true_2 by done. cbn [negb].
      destruct (from_utf8 (percent_decode hs)); cbn [ok_or result_bind]; [|done].
      do 2 (case_match; [done|]). destruct (from_utf8 (percent_decode ps)); cbn [ok_or result_bind];
        [|done].
      destruct (is_port _); [|done]. cbn [negb]. destruct (parse_u16 _); [|done].
      cbn [ok_or result_bind]. by destruct (_ =? 0).
    + split_and!; [done..|]. destruct Hpath as [Hr|Hr]; apply app_inv_head in Hr; auto.
  - exfalso. destruct Hpath as [Hr|Hr]; apply (proj2 (strip_prefix_exact _ _ _)) in Hr; congruence.
Qed.

Lemma parse_target_spec path query h p :
  parse_target path query = Ok (h, p) ↔
  no_query query ∧ is_host h ∧ ∃ hs ps,
    (path = WELL_KNOWN_PREFIX ++ hs ++ [SLASH] ++ ps ∨
     path = WELL_KNOWN_PREFIX ++ hs ++ [SLASH] ++ ps ++ [SLASH]) ∧
    (SLASH ∉ hs) ∧ (SLASH ∉ ps) ∧ valid_utf8 (percent_decode hs) = true ∧
    (percent_decode hs = bracketed h ∨ percent_decode hs = h) ∧ spells_port (percent_decode ps) p.
Proof.
  split.
  - intros H.
    assert (no_query query) as Hq.
    { unfold parse_target in H. destruct query as [q|]; [|by left].
      destruct (bool_decide (q = [])) eqn:Eq; [|done]. apply bool_decide_eq_true in Eq as ->. by right. }
    assert (∃ hs ps, percent_decode ps ≠ [] ∧
      (path = WELL_KNOWN_PREFIX ++ hs ++ [SLASH] ++ ps ∨
       path = WELL_KNOWN_PREFIX ++ hs ++ [SLASH] ++ ps ++ [SLASH]) ∧
      (SLASH ∉ hs) ∧ (SLASH ∉ ps)) as (hs & ps & Hne & Hpath & Hh & Hp).
    { unfold parse_target in H. case_match; [done|].
      destruct (strip_prefix _ path) as [rest|] eqn:Ep; [|done]. apply strip_prefix_exact in Ep as ->.
      cbn [ok_or result_bind] in H. cbv zeta in H.
      destruct (split SLASH _) as [|hs [|ps more]] eqn:Es; [done..|].
      case_bool_decide as Hm; [|done]. subst more. cbn [negb] in H.
      assert (percent_decode ps ≠ []) as Hne.
      { intros Hnil. rewrite Hnil in H. destruct (from_utf8 _); [|done]. cbn [ok_or result_bind] in H.
        by repeat case_match. }
      exists hs, ps. assert (ps ≠ []) by (intros ->; by rewrite percent_decode_nil in Hne).
      apply template_segments in Es as (Hh & Hp & Hcase); [|done].
      split_and!; [done| |done..]. destruct Hcase as [->| ->]; auto. }
    rewrite (parse_target_segments _ _ hs ps) in H by done.
    unfold from_utf8 in H. destruct (valid_utf8 (percent_decode hs)) eqn:Ev; [|done].
    cbn [ok_or result_bind] in H. case_bool_decide as Hd; [done|]. cbv zeta in H.
    destruct (stray_bracket _) eqn:Eb; [done|].
    destruct (valid_utf8 (percent_decode ps)); [|done]. cbn [ok_or result_bind] in H.
    destruct (read_port _ _ _ _) as [q|] eqn:Er; [|done]. injection H as Hh' <-.
    apply read_port_exact in Er.
    rewrite Hh' in Eb. destruct (proj1 (unbracketed_host _ h Hd) (conj Hh' Eb)) as [Hhost Hcase].
    eauto 12.
  - intros (Hq & Hhost & hs & ps & Hpath & Hh & Hp & Hv & Hcase & Hport).
    rewrite (parse_target_segments _ _ hs ps) by (done || by destruct Hport).
    unfold from_utf8. rewrite Hv. cbn [ok_or result_bind].
    assert (percent_decode hs ≠ []) as Hd by (destruct Hcase as [-> | ->]; by destruct Hhost).
    rewrite bool_decide_eq_false_2 by done. cbv zeta.
    destruct (proj2 (unbracketed_host _ h Hd) (conj Hhost Hcase)) as [-> ->].
    rewrite (digits_utf8 _ _ Hport). cbn [ok_or result_bind].
    by rewrite (proj2 (read_port_exact _ _ _ _ p)).
Qed.

(** C29: exactly which targets the two routes accept, and what they name: an
    authority without userinfo that is a host, bracketed or free of colons, and a
    decimal port between 1 and 65535; a template path with no query, two segments
    that decode to the same, and perhaps a final slash. *)
Theorem target_exact :
  (∀ a h p, split_authority a = Ok (h, p) ↔
    (AT ∉ a) ∧ is_host h ∧ ∃ t, spells_port t p ∧
      (a = bracketed h ++ [COLON] ++ t ∨ (¬ (COLON ∈ h) ∧ a = h ++ [COLON] ++ t))) ∧
  (∀ path query h p, parse_target path query = Ok (h, p) ↔
    no_query query ∧ is_host h ∧ ∃ hs ps,
      (path = WELL_KNOWN_PREFIX ++ hs ++ [SLASH] ++ ps ∨
       path = WELL_KNOWN_PREFIX ++ hs ++ [SLASH] ++ ps ++ [SLASH]) ∧
      (SLASH ∉ hs) ∧ (SLASH ∉ ps) ∧ valid_utf8 (percent_decode hs) = true ∧
      (percent_decode hs = bracketed h ∨ percent_decode hs = h) ∧
      spells_port (percent_decode ps) p).
Proof. split; intros; [apply split_authority_spec|apply parse_target_spec]. Qed.

Lemma percent_decode_escapes l : percent_decode (concat (map escape l)) = l.
Proof.
  induction l as [|x l IH]; cbn [map concat]; [apply percent_decode_nil|].
  by rewrite percent_decode_escape, IH.
Qed.

Lemma percent_decode_id l : PERCENT ∉ l → percent_decode l = l.
Proof.
  induction l as [|x l IH]; intros Hl; [apply percent_decode_nil|].
  rewrite percent_decode_plain, IH by set_solver. done.
Qed.

Lemma escapes_no_slash l : SLASH ∉ concat (map escape l).
Proof.
  assert (∀ x, SLASH ∉ escape x) as Hx by (intros x; by destruct x; compute_done).
  induction l as [|x l IH]; cbn [map concat]; [set_solver|]. rewrite not_elem_of_app. auto.
Qed.

(** The spellings of a target: an authority, bracketed where the host holds
    colons, and a template path with every byte of the host escaped. *)
Definition authority_of (h : bytes) (p : Z) : bytes :=
  (if contains_byte h COLON then bracketed h else h) ++ [COLON] ++ decimal p.

Definition template_of (h : bytes) (p : Z) : bytes :=
  WELL_KNOWN_PREFIX ++ concat (map escape h) ++ [SLASH] ++ decimal p ++ [SLASH].

Lemma decimal_no_other p x : 1 ≤ p < 2 ^ 16 → is_ascii_digit x = false → x ∉ decimal p.
Proof.
  intros Hp Hx Hin. destruct (decimal_spells p Hp) as (_ & Hall & _). rewrite Forall_forall in Hall.
  apply Hall in Hin. congruence.
Qed.

Lemma split_authority_of h p :
  is_host h → AT ∉ h → 1 ≤ p < 2 ^ 16 → split_authority (authority_of h p) = Ok (h, p).
Proof.
  intros Hh Hat Hp. apply split_authority_spec. unfold authority_of. split; [|split; [done|]].
  - destruct (contains_byte h COLON); unfold bracketed; rewrite !not_elem_of_app;
      split_and!; try (by apply decimal_no_other); try done; set_solver.
  - exists (decimal p). split; [by apply decimal_spells|].
    destruct (contains_byte h COLON) eqn:Ec; [by left|]. right. by apply contains_byte_false in Ec.
Qed.

Lemma parse_target_of h p :
  is_host h → valid_utf8 h = true → 1 ≤ p < 2 ^ 16 → parse_target (template_of h p) None = Ok (h, p).
Proof.
  intros Hh Hv Hp.
  apply parse_target_spec. split_and!; [by left|done|].
  exists (concat (map escape h)), (decimal p). rewrite percent_decode_escapes.
  split_and!; [by right|apply escapes_no_slash|by apply decimal_no_other|done|by right|].
  rewrite percent_decode_id; [by apply decimal_spells|by apply decimal_no_other].
Qed.

(** Every host and port can be named along both routes, and both read back
    the same target. *)
Theorem target_named_both_ways h p :
  is_host h → valid_utf8 h = true → AT ∉ h → 1 ≤ p < 2 ^ 16 →
  split_authority (authority_of h p) = Ok (h, p) ∧
  parse_target (template_of h p) None = Ok (h, p).
Proof.
  intros Hh Hv Hat Hp. split; [by apply split_authority_of|by apply parse_target_of].
Qed.
End TemplateFacts.

(** A decoder that does what the crate's documentation says. *)
Definition hex_value (x : byte) : option Z :=
  if between 0x30 0x39 x then Some (u8 x - 0x30)
  else if between 0x41 0x46 x then Some (u8 x - 0x41 + 10)
  else if between 0x61 0x66 x then Some (u8 x - 0x61 + 10)
  else None.

Fixpoint decode_percent (l : bytes) : bytes :=
  match l with
  | [] => []
  | x :: r =>
      if bool_decide (x = PERCENT) then
        match r with
        | a :: b :: r' =>
            match hex_value a, hex_value b with
            | Some i, Some j => as_u8 (16 * i + j) :: decode_percent r'
            | _, _ => x :: decode_percent r
            end
        | _ => x :: decode_percent r
        end
      else x :: decode_percent r
  end.

#[local] Instance documented_percent_decode : PercentDecode.
Proof.
  refine {| percent_decode := decode_percent |}.
  - done.
  - intros x l Hx. cbn [decode_percent]. by rewrite bool_decide_eq_false_2.
  - intros x l. by destruct x.
Defined.

Lemma target_named_both_ways_witness :
  split_authority (lit "[2001:db8::7]:443") = Ok (lit "2001:db8::7", 443) ∧
  parse_target (template_of (lit "2001:db8::7") 443) None = Ok (lit "2001:db8::7", 443).
Proof.
  apply (target_named_both_ways (lit "2001:db8::7") 443);
    [split_and!; by compute_done|by vm_compute|by compute_done|lia].
Defined.

Lemma target_exact_witness :
  parse_target (lit "/.well-known/masque/udp/%5B::1%5D/53") None = Ok (lit "::1", 53).
Proof.
  apply (proj2 (proj2 target_exact _ _ _ _)).
  split; [by left|]. split; [split_and!; by compute_done|].
  exists (lit "%5B::1%5D"), (lit "53").
  split; [by left|]. split; [by compute_done|]. split; [by compute_done|].
  split; [by vm_compute|]. split; [by left|].
  split; [done|]. split; [repeat constructor|]. done.
Defined.
