(* ===== verification/Net.v ===== *)
(** * Name resolution (src/src/net.rs)

    The order in which the addresses of a name are tried ([prefer_family]), IP
    literals ([literal], on the standard library's address parser), the size of
    the blocking pool, and the budget that rations lookups between connections as
    a transition system: the requests of every connection race for its reserved
    slot and for a share of the server's allowance, the lookups that have one queue
    for the threads of the pool, and a lookup keeps its slot until the thread in the
    resolver returns, whatever became of the request.

    The resolver, the kernel's sockets and tokio's semaphores are not modelled:
    [Semaphore] is tokio's contract. *)

From stdpp Require Import relations.
From S2P Require Import Prelude Tokio Utf8 Policy Status.

#[local] Open Scope Z_scope.

(** ** The family to try first *)

Inductive IpFamilyPreference := Ipv4 | Ipv6 | System.

Definition is_ipv6 (a : SocketAddr) : bool := match ip a with V6 _ => true | V4 _ => false end.

Definition prefer_family (addresses : list SocketAddr) (preference : IpFamilyPreference)
    : list SocketAddr :=
  match preference with
  | System => addresses
  | Ipv4 => sort_by_key (λ a, Z.b2z (xorb (is_ipv6 a) false)) addresses
  | Ipv6 => sort_by_key (λ a, Z.b2z (xorb (is_ipv6 a) true)) addresses
  end.

(** ** IP literals (std's address parser) *)

(** [read_number]: digits of a radix, at most [max_digits] of them and a value
    below [bound]; a leading zero is a number of its own where the type says so. *)
Definition digit_in (radix : Z) (x : byte) : option Z :=
  let d := if between 0x30 0x39 x then Some (u8 x - 0x30)
           else if between 0x61 0x7a x then Some (u8 x - 0x61 + 10)
           else if between 0x41 0x5a x then Some (u8 x - 0x41 + 10)
           else None in
  match d with Some v => if v <? radix then Some v else None | None => None end.

Fixpoint read_digits (radix bound : Z) (max_digits : nat) (l : bytes) (acc : Z) (count : nat)
    : option (Z * nat * bytes) :=
  match l with
  | x :: l' =>
      match digit_in radix x with
      | Some d =>
          match max_digits with
          | O => None
          | S m =>
              let acc := acc * radix + d in
              if acc <? bound then read_digits radix bound m l' acc (S count) else None
          end
      | None => Some (acc, count, l)
      end
  | [] => Some (acc, count, [])
  end.

Definition read_number (radix bound : Z) (max_digits : nat) (allow_zero_prefix : bool) (l : bytes)
    : option (Z * bytes) :=
  let has_leading_zero := match l with x :: _ => bool_decide (x = as_u8 0x30) | [] => false end in
  match read_digits radix bound max_digits l 0 0 with
  | Some (v, count, rest) =>
      if (count =? 0)%nat then None
      else if negb allow_zero_prefix && has_leading_zero && (1 <? count)%nat then None
      else Some (v, rest)
  | None => None
  end.

Definition read_given_char (c : byte) (l : bytes) : option bytes :=
  match l with x :: l => if bool_decide (x = c) then Some l else None | [] => None end.

Definition DOT : byte := as_u8 0x2e.
Definition COLON6 : byte := as_u8 0x3a.

Definition read_octet (l : bytes) : option (Z * bytes) := read_number 10 256 3 false l.

Definition read_ipv4 (l : bytes) : option (Ipv4Addr * bytes) :=
  '(a, l) ← read_octet l; l ← read_given_char DOT l;
  '(b, l) ← read_octet l; l ← read_given_char DOT l;
  '(c, l) ← read_octet l; l ← read_given_char DOT l;
  '(d, l) ← read_octet l;
  Some (mk4 (as_u8 a) (as_u8 b) (as_u8 c) (as_u8 d), l).

(** [read_groups]: up to [limit] groups of 16 bits, the last two of which may be
    written as an IPv4 address; [i] of them are read. *)
Definition read_separator (i : nat) (l : bytes) : option bytes :=
  if (i =? 0)%nat then Some l else read_given_char COLON6 l.

Fixpoint read_groups (limit i : nat) (groups : list Z) (l : bytes) : list Z * bool * bytes :=
  match limit with
  | O => (groups, false, l)
  | S limit' =>
      let v4 := match limit' with
                | O => None
                | S _ => l ← read_separator i l; read_ipv4 l
                end in
      match v4 with
      | Some (a, rest) =>
          (groups ++ [u8 (o0 a) * 256 + u8 (o1 a); u8 (o2 a) * 256 + u8 (o3 a)], true, rest)
      | None =>
          match (l ← read_separator i l; read_number 16 65536 4 true l) with
          | Some (group, rest) => read_groups limit' (S i) (groups ++ [group]) rest
          | None => (groups, false, l)
          end
      end
  end.

Definition of_groups (groups : list Z) : Ipv6Addr :=
  let b i := as_u8 (default 0 (groups !! i) / 256) in
  let c i := as_u8 (default 0 (groups !! i) mod 256) in
  mk6 (b 0%nat) (c 0%nat) (b 1%nat) (c 1%nat) (b 2%nat) (c 2%nat) (b 3%nat) (c 3%nat)
      (b 4%nat) (c 4%nat) (b 5%nat) (c 5%nat) (b 6%nat) (c 6%nat) (b 7%nat) (c 7%nat).

Definition read_ipv6 (l : bytes) : option (Ipv6Addr * bytes) :=
  let '(head, head_ipv4, rest) := read_groups 8 0 [] l in
  if (length head =? 8)%nat then Some (of_groups head, rest)
  else if head_ipv4 then None
  else
    rest ← read_given_char COLON6 rest;
    rest ← read_given_char COLON6 rest;
    let '(tail_, _, rest) := read_groups (8 - (length head + 1)) 0 [] rest in
    Some (of_groups (head ++ replicate (8 - length head - length tail_) 0 ++ tail_), rest).

(** [str::parse::<IpAddr>]: the whole string, as one or the other. *)
Definition parse_ip (host : bytes) : option IpAddr :=
  match read_ipv4 host with
  | Some (a, []) => Some (V4 a)
  | Some (_, _ :: _) => None
  | None =>
      match read_ipv6 host with
      | Some (a, []) => Some (V6 a)
      | _ => None
      end
  end.

Definition literal (host : bytes) (port : Z) : option SocketAddr :=
  ip ← parse_ip host; Some (mkSocketAddr ip port).

Example parse_mapped : parse_ip (lit "::ffff:127.0.0.1") =
  Some (V6 (of_groups [0; 0; 0; 0; 0; 0xffff; 0x7f00; 1])).
Proof. reflexivity. Qed.

Example parse_zero_prefix : parse_ip (lit "127.0.0.01") = None.
Proof. reflexivity. Qed.

(** ** The blocking pool *)

Definition SHARED_LOOKUPS : Z := 128.
Definition BURST_LOOKUPS : Z := 32.
Definition LOOKUP_FREE_THREADS : Z := 64.
Definition RESERVED_LOOKUP_CEILING : Z := 1024.

Definition blocking_pool_size (max_connections : Z) : Z :=
  let reserved := if (max_connections =? 0) || (RESERVED_LOOKUP_CEILING <? max_connections)
                  then RESERVED_LOOKUP_CEILING
                  else max_connections in
  reserved + SHARED_LOOKUPS + LOOKUP_FREE_THREADS.

(** ** The lookup budget *)

Section Lookups.
Context {M : Type} `{!Semaphore M}.

(** [ConnectionResolver] without its handle on the server's allowance, which is a
    field of the whole. *)
Record ConnectionResolver := mkResolver { reserved : M; burst : M }.

Definition per_connection : ConnectionResolver :=
  mkResolver (semaphore_new 1) (semaphore_new BURST_LOOKUPS).

(** A connection and its lookups: those that hold nothing yet, those that hold a
    burst permit and wait for a shared one, and those handed to [spawn_blocking], by
    the slot they hold ([LookupSlot]): still in the queue of the blocking pool, or on
    one of its threads.  A task that was spawned is neither taken back nor cancelled
    with the future that awaits it, so a closed connection is there until the last of
    its lookups has returned. *)
Record Conn := mkConn {
  alive : bool;
  resolver : ConnectionResolver;
  racing : nat;
  holding : nat;
  queued_reserved : nat;
  on_reserved : nat;
  queued_shared : nat;
  on_shared : nat;
}.

Record Lookups := mkLookups { shared : M; conns : list Conn }.

Definition lookups_new : Lookups := mkLookups (semaphore_new SHARED_LOOKUPS) [].

Definition conn_new : Conn := mkConn true per_connection 0 0 0 0 0 0.

(** The steps that concern one connection alone.  [biased] polls the reserved slot
    first, so the other branch of the race moves only while that slot is taken. *)
Inductive conn_step : Conn → Conn → Prop :=
  | ask r w h q a v b :
      conn_step (mkConn true r w h q a v b) (mkConn true r (S w) h q a v b)
  | take_reserved m m' u w h q a v b :
      try_acquire m = Some m' →
      conn_step (mkConn true (mkResolver m u) (S w) h q a v b)
                (mkConn true (mkResolver m' u) w h (S q) a v b)
  | take_reserved_holding m m' u w h q a v b :
      try_acquire m = Some m' →
      conn_step (mkConn true (mkResolver m u) w (S h) q a v b)
                (mkConn true (mkResolver m' (release_permit u)) w h (S q) a v b)
  | take_burst m u u' w h q a v b :
      try_acquire m = None → try_acquire u = Some u' →
      conn_step (mkConn true (mkResolver m u) (S w) h q a v b)
                (mkConn true (mkResolver m u') w (S h) q a v b)
  | abandon r w h q a v b :
      conn_step (mkConn true r (S w) h q a v b) (mkConn true r w h q a v b)
  | abandon_holding m u w h q a v b :
      conn_step (mkConn true (mkResolver m u) w (S h) q a v b)
                (mkConn true (mkResolver m (release_permit u)) w h q a v b)
  | finish_reserved al m u w h q a v b :
      conn_step (mkConn al (mkResolver m u) w h q (S a) v b)
                (mkConn al (mkResolver (release_permit m) u) w h q a v b)
  | close_conn r q a v b :
      conn_step (mkConn true r 0 0 q a v b) (mkConn false r 0 0 q a v b).

(** A queued lookup of a connection gets a thread. *)
Inductive conn_start : Conn → Conn → Prop :=
  | start_reserved al r w h q a v b :
      conn_start (mkConn al r w h (S q) a v b) (mkConn al r w h q (S a) v b)
  | start_shared al r w h q a v b :
      conn_start (mkConn al r w h q a (S v) b) (mkConn al r w h q a v (S b)).

(** Lookups that were spawned, and those of them on a thread. *)
Definition slots_of (c : Conn) : Z :=
  Z.of_nat (queued_reserved c + on_reserved c + queued_shared c + on_shared c).
Definition threads_of (c : Conn) : Z := Z.of_nat (on_reserved c + on_shared c).
Definition sum_of (f : Conn → Z) (l : list Conn) : Z := foldr (λ c acc, f c + acc) 0 l.
Definition slots (s : Lookups) : Z := sum_of slots_of (conns s).
Definition threads (s : Lookups) : Z := sum_of threads_of (conns s).

(** The steps of the server, with at most [max_connections] connections open (zero is
    no limit) on a runtime built with [max_blocking_threads(blocking_pool_size(..))]:
    a queued lookup gets a thread only while fewer than that many are in the resolver.
    tokio starts the tasks of its queue in their order; here any of them may be next. *)
Context (max_connections : Z).

Definition open_count (s : Lookups) : Z := blen (List.filter alive (conns s)).

Inductive lookups_step : Lookups → Lookups → Prop :=
  | open_conn s :
      max_connections = 0 ∨ open_count s < max_connections →
      lookups_step s (mkLookups (shared s) (conns s ++ [conn_new]))
  | one_conn m l1 c c' l2 :
      conn_step c c' → lookups_step (mkLookups m (l1 ++ c :: l2)) (mkLookups m (l1 ++ c' :: l2))
  | take_shared m m' l1 p u w h q a v b l2 :
      try_acquire p = None → try_acquire m = Some m' →
      lookups_step (mkLookups m (l1 ++ mkConn true (mkResolver p u) w (S h) q a v b :: l2))
                   (mkLookups m' (l1 ++ mkConn true (mkResolver p u) w h q a (S v) b :: l2))
  | start_lookup m l1 c c' l2 :
      conn_start c c' →
      threads (mkLookups m (l1 ++ c :: l2)) < blocking_pool_size max_connections →
      lookups_step (mkLookups m (l1 ++ c :: l2)) (mkLookups m (l1 ++ c' :: l2))
  | finish_shared m l1 al p u w h q a v b l2 :
      lookups_step (mkLookups m (l1 ++ mkConn al (mkResolver p u) w h q a v (S b) :: l2))
                   (mkLookups (release_permit m)
                     (l1 ++ mkConn al (mkResolver p (release_permit u)) w h q a v b :: l2)).

Definition lookups_reachable : Lookups → Prop := rtc lookups_step lookups_new.

(** Closed connections whose reserved lookup has not returned. *)
Definition lingering (c : Conn) : bool :=
  negb (alive c) && negb (queued_reserved c + on_reserved c =? 0)%nat.
Definition lingering_count (s : Lookups) : Z := blen (List.filter lingering (conns s)).

(** The accounts of one connection and of the server. *)
Definition shared_slots (c : Conn) : Z := Z.of_nat (queued_shared c + on_shared c).

Definition conn_ok (c : Conn) : Prop :=
  0 ≤ available_permits (reserved (resolver c)) ∧
  available_permits (reserved (resolver c)) + Z.of_nat (queued_reserved c + on_reserved c) = 1 ∧
  0 ≤ available_permits (burst (resolver c)) ∧
  available_permits (burst (resolver c)) + Z.of_nat (holding c) + shared_slots c = BURST_LOOKUPS ∧
  (alive c = false → racing c = 0%nat ∧ holding c = 0%nat).

Definition lookups_ok (s : Lookups) : Prop :=
  Forall conn_ok (conns s) ∧ 0 ≤ available_permits (shared s) ∧
  available_permits (shared s) + sum_of shared_slots (conns s) = SHARED_LOOKUPS ∧
  threads s ≤ blocking_pool_size max_connections.

Lemma sum_of_app f l1 l2 : sum_of f (l1 ++ l2) = sum_of f l1 + sum_of f l2.
Proof. unfold sum_of. induction l1; cbn [foldr app]; lia. Qed.

Lemma sum_of_cons f c l : sum_of f (c :: l) = f c + sum_of f l.
Proof. done. Qed.

Lemma filter_count_app (f : Conn → bool) l1 l2 :
  blen (List.filter f (l1 ++ l2)) = blen (List.filter f l1) + blen (List.filter f l2).
Proof. by rewrite List.filter_app, blen_app. Qed.

Lemma filter_count_cons (f : Conn → bool) c l :
  blen (List.filter f (c :: l)) = Z.b2z (f c) + blen (List.filter f l).
Proof. unfold blen. cbn [List.filter]. destruct (f c); cbn [length Z.b2z]; lia. Qed.

(** A permit was there to take, and is there when it is given back. *)
Lemma acquired (p p' : M) :
  try_acquire p = Some p' → 0 ≤ available_permits p →
  available_permits p' = available_permits p - 1 ∧ 0 ≤ available_permits p'.
Proof.
  intros E Hp. pose proof (try_acquire_some _ _ E).
  assert (available_permits p ≠ 0); [|lia]. intros Hz%try_acquire_none. congruence.
Qed.

Ltac conn_fields := cbn [alive resolver reserved burst racing holding queued_reserved on_reserved
  queued_shared on_shared] in *.

Lemma lookup_step_ok c c' :
  conn_step c c' → conn_ok c →
  conn_ok c' ∧ shared_slots c' = shared_slots c ∧ threads_of c' ≤ threads_of c.
Proof.
  unfold conn_ok, shared_slots, threads_of. destruct 1; conn_fields;
    intros (H1 & H2 & H3 & H4 & H5); (split; [|split; [done|lia]]);
    rewrite ?release_available;
    repeat match goal with
    | H : try_acquire _ = Some _ |- _ => apply acquired in H as [? ?]; [|assumption]
    end; split_and!; solve [lia | done | by intros | auto].
Qed.

Lemma start_ok c c' :
  conn_start c c' → conn_ok c →
  conn_ok c' ∧ shared_slots c' = shared_slots c ∧ threads_of c' = threads_of c + 1.
Proof.
  unfold conn_ok, shared_slots, threads_of. destruct 1; conn_fields;
    intros (H1 & H2 & H3 & H4 & H5); split_and!; solve [lia | done].
Qed.

Lemma conn_new_ok : conn_ok conn_new.
Proof.
  unfold conn_ok, conn_new, per_connection, shared_slots. conn_fields.
  rewrite !available_new by done. by unfold BURST_LOOKUPS.
Qed.

Lemma lookups_step_ok s s' : lookups_step s s' → lookups_ok s → lookups_ok s'.
Proof.
  unfold lookups_ok. destruct 1 as [[m l] Hopen|m l1 c c' l2 Hc
    |m m' l1 p u w h q a v b l2 Hp Hm|m l1 c c' l2 Hc Hcap|m l1 al p u w h q a v b l2];
    unfold threads in *; cbn [shared conns] in *;
    rewrite ?Forall_app, ?Forall_cons, ?sum_of_app, ?sum_of_cons in *; intros (Hall & H1 & H2 & H3).
  - split_and!; [done|apply conn_new_ok|constructor|done|..];
      change (sum_of _ []) with 0; unfold conn_new, shared_slots, threads_of in *; conn_fields; lia.
  - destruct Hall as (Hl1 & Hok & Hl2). apply lookup_step_ok in Hc as (Hok' & Hs & Ht); [|done].
    rewrite Hs. split_and!; solve [done|lia].
  - destruct Hall as (Hl1 & Hok & Hl2). apply acquired in Hm as [Hm Hm0]; [|done].
    unfold conn_ok, shared_slots, threads_of in *. conn_fields.
    split_and!; try done; try lia; naive_solver lia.
  - destruct Hall as (Hl1 & Hok & Hl2). apply start_ok in Hc as (Hok' & Hs & Ht); [|done].
    rewrite Hs. split_and!; solve [done|lia].
  - destruct Hall as (Hl1 & Hok & Hl2). unfold conn_ok, shared_slots, threads_of in *. conn_fields.
    rewrite !release_available. split_and!; try done; try lia; naive_solver lia.
Qed.

Lemma pool_positive : 0 ≤ max_connections → 0 < blocking_pool_size max_connections.
Proof.
  unfold blocking_pool_size, SHARED_LOOKUPS, LOOKUP_FREE_THREADS, RESERVED_LOOKUP_CEILING.
  destruct (_ || _); lia.
Qed.

Lemma lookups_invariant s : 0 ≤ max_connections → lookups_reachable s → lookups_ok s.
Proof.
  intros Hmax Hr. eapply (rtc_ind_r lookups_ok); [..|exact Hr].
  - unfold lookups_ok, threads, lookups_new; cbn [conns shared]. rewrite available_new by done.
    pose proof (pool_positive Hmax). split_and!; [constructor|done|done|]. change (sum_of _ []) with 0. lia.
  - intros y z _ Hstep Hy. by eapply lookups_step_ok.
Qed.

Lemma conn_step_alive c c' : conn_step c c' → alive c' = true → alive c = true.
Proof. by destruct 1. Qed.

Lemma conn_start_alive c c' : conn_start c c' → alive c' = alive c.
Proof. by destruct 1. Qed.

Lemma lookups_step_open s s' :
  0 < max_connections → lookups_step s s' →
  open_count s ≤ max_connections → open_count s' ≤ max_connections.
Proof.
  intros Hmax. unfold open_count. destruct 1 as [s Hopen|m l1 c c' l2 Hc| |m l1 c c' l2 Hc Hcap|];
    cbn [conns]; rewrite ?filter_count_app, ?filter_count_cons; cbn [alive]; try lia.
  - unfold open_count in Hopen. intros _. cbn [conn_new alive].
    change (blen (List.filter alive [])) with 0. unfold Z.b2z. lia.
  - pose proof (conn_step_alive _ _ Hc) as Ha. destruct (alive c), (alive c'); cbn [Z.b2z]; try lia.
  - by rewrite (conn_start_alive _ _ Hc).
Qed.

Lemma open_bounded s :
  0 < max_connections → lookups_reachable s → open_count s ≤ max_connections.
Proof.
  intros Hmax Hr. eapply (rtc_ind_r (λ s, open_count s ≤ max_connections)); [..|exact Hr].
  - change (open_count lookups_new) with 0. lia.
  - intros y z _ Hstep Hy. by eapply lookups_step_open.
Qed.

Lemma slots_bound l :
  Forall conn_ok l →
  sum_of slots_of l ≤ blen (List.filter alive l) + blen (List.filter lingering l) +
    sum_of shared_slots l.
Proof.
  induction 1 as [|c l Hc _ IH]; [done|]. rewrite !sum_of_cons, !filter_count_cons.
  destruct Hc as (H1 & H2 & _). unfold slots_of at 1, lingering at 1, shared_slots at 1.
  destruct (alive c), (Nat.eqb_spec (queued_reserved c + on_reserved c) 0);
    cbn [negb andb Z.b2z]; lia.
Qed.

(** However requests race, time out and leave, no connection has more than
    [1 + BURST_LOOKUPS] lookups with the pool, all of them together have at most
    one per connection (open, or closed with its reserved lookup not returned)
    beyond the shared allowance, and as long as no closed connection's lookup
    lingers there is a thread for every one of them and [LOOKUP_FREE_THREADS] are
    left. *)
Theorem lookup_budget s :
  0 < max_connections ≤ RESERVED_LOOKUP_CEILING → lookups_reachable s →
  Forall (λ c, slots_of c ≤ 1 + BURST_LOOKUPS) (conns s) ∧
  slots s ≤ open_count s + lingering_count s + SHARED_LOOKUPS ∧
  (lingering_count s = 0 → slots s + LOOKUP_FREE_THREADS ≤ blocking_pool_size max_connections).
Proof.
  intros Hmax Hr. pose proof (open_bounded _ ltac:(lia) Hr) as Hopen.
  apply lookups_invariant in Hr as (Hall & Hs & Hsum & _); [|lia].
  pose proof (slots_bound _ Hall) as Hb. unfold slots, lingering_count, open_count in *.
  split_and!.
  - eapply Forall_impl; [exact Hall|]. intros c (H1 & H2 & H3 & H4 & _).
    unfold slots_of, shared_slots in *. lia.
  - lia.
  - intros Hl. unfold blocking_pool_size.
    destruct (Z.eqb_spec max_connections 0), (Z.ltb_spec RESERVED_LOOKUP_CEILING max_connections);
      cbn [orb]; lia.
Qed.

(** No connection is starved of its slot by the others: whenever one of its lookups
    waits for one, its reserved slot is held by another of its own lookups or can be
    taken now. *)
Theorem lookup_never_starved s l1 c l2 :
  0 ≤ max_connections → lookups_reachable s → conns s = l1 ++ c :: l2 → alive c = true →
  (0 < racing c + holding c)%nat →
  (queued_reserved c + on_reserved c = 1)%nat ∨
  ∃ c', conn_step c c' ∧ queued_reserved c' = 1%nat ∧
        lookups_step s (mkLookups (shared s) (l1 ++ c' :: l2)).
Proof.
  intros Hmax Hr Hc Hal Hw. apply lookups_invariant in Hr as (Hall & _); [|done].
  rewrite Hc, Forall_app, Forall_cons in Hall. destruct Hall as (_ & (H1 & H2 & _) & _).
  destruct c as [al [m u] w h q a v b]; cbn in *. subst al.
  destruct (try_acquire m) as [m'|] eqn:Em.
  - right. assert (q = 0%nat) as ->.
    { destruct (acquired _ _ Em H1). lia. }
    destruct w as [|w]; [destruct h as [|h]; [lia|]|].
    + eexists. split; [by apply take_reserved_holding|]. split; [done|].
      destruct s as [sh l]; cbn in *. subst l. by apply one_conn, take_reserved_holding.
    + eexists. split; [by apply take_reserved|]. split; [done|].
      destruct s as [sh l]; cbn in *. subst l. by apply one_conn, take_reserved.
  - left. apply try_acquire_none in Em. lia.
Qed.

(** A connection that asks for one name, with its lookup handed to the pool. *)
Lemma asked s :
  max_connections = 0 ∨ open_count s < max_connections →
  ∃ r, rtc lookups_step s (mkLookups (shared s) (conns s ++ [mkConn true r 0 0 1 0 0 0])).
Proof.
  intros Hopen. destruct (try_acquire (semaphore_new 1 : M)) as [p|] eqn:Ep.
  2: { apply try_acquire_none in Ep. rewrite available_new in Ep; lia. }
  exists (mkResolver p (semaphore_new BURST_LOOKUPS)).
  eapply rtc_l; [by apply open_conn|]. unfold conn_new, per_connection.
  eapply rtc_l; [eapply (one_conn _ _ _ _ []), ask|].
  apply rtc_once, (one_conn _ _ _ _ []). by apply take_reserved.
Qed.

(** What is left of one that was closed while the resolver had not answered. *)
Lemma closed_with_lookup s :
  max_connections = 0 ∨ open_count s < max_connections →
  threads s < blocking_pool_size max_connections →
  ∃ r, rtc lookups_step s (mkLookups (shared s) (conns s ++ [mkConn false r 0 0 0 1 0 0])).
Proof.
  intros Hopen Hcap. destruct (asked s Hopen) as [r Hr]. exists r. etrans; [exact Hr|].
  eapply rtc_l; [eapply (start_lookup _ _ _ _ []); [apply start_reserved|]|].
  - unfold threads in *. cbn [conns]. rewrite sum_of_app, sum_of_cons.
    change (sum_of _ []) with 0. change (threads_of _) with 0. lia.
  - apply rtc_once, (one_conn _ _ _ _ []), close_conn.
Qed.

(** A connection that is closed and has one lookup, on a thread. *)
Definition left_behind (c : Conn) : Prop := alive c = false ∧ threads_of c = 1 ∧ slots_of c = 1.

Lemma left_behind_counts l :
  Forall left_behind l →
  blen (List.filter alive l) = 0 ∧ sum_of threads_of l = blen l.
Proof.
  induction 1 as [|c l (Ha & Ht & _) _ [IH1 IH2]]; [done|].
  rewrite filter_count_cons, sum_of_cons, Ha, Ht, IH1, IH2. unfold blen. cbn [length Z.b2z]. lia.
Qed.

(** As many closed connections as the pool has threads can each keep one. *)
Lemma pool_left_behind (n : nat) :
  0 ≤ max_connections → Z.of_nat n ≤ blocking_pool_size max_connections →
  ∃ s, lookups_reachable s ∧ Forall left_behind (conns s) ∧ blen (conns s) = Z.of_nat n.
Proof.
  intros Hmax. induction n as [|n IH]; intros Hn.
  { exists lookups_new. split_and!; [apply rtc_refl|constructor|done]. }
  destruct IH as (s & Hr & Hl & Hlen); [lia|].
  destruct (left_behind_counts _ Hl) as [Hopen Ht].
  destruct (closed_with_lookup s) as [r Hstep].
  { unfold open_count. rewrite Hopen. lia. }
  { unfold threads. lia. }
  exists (mkLookups (shared s) (conns s ++ [mkConn false r 0 0 0 1 0 0])). cbn [conns]. split_and!.
  - unfold lookups_reachable in *. by etrans.
  - apply Forall_app. split; [done|]. by repeat constructor.
  - rewrite blen_app, Hlen. change (blen [_]) with 1. lia.
Qed.

(** C39: the threads of the resolver, and whose they are. There are never more of them
    than the pool was built with. As long as no connection has been closed with its
    reserved lookup unanswered, every lookup handed to the pool has a thread, and
    [LOOKUP_FREE_THREADS] are left. Nothing keeps that so: lookups outlive their
    connections, and the pool can be full of those of closed connections alone, with
    one connection open, whose reserved lookup is queued behind them. *)
Theorem lookups_linger :
  0 < max_connections ≤ RESERVED_LOOKUP_CEILING →
  (∀ s, lookups_reachable s →
     threads s ≤ blocking_pool_size max_connections ∧
     (lingering_count s = 0 → slots s + LOOKUP_FREE_THREADS ≤ blocking_pool_size max_connections)) ∧
  ∃ s l c, lookups_reachable s ∧ conns s = l ++ [c] ∧
    Forall (λ d, alive d = false) l ∧ threads s = blocking_pool_size max_connections ∧
    alive c = true ∧ queued_reserved c = 1%nat ∧ threads_of c = 0.
Proof.
  intros Hmax. split.
  { intros s Hr. split; [|by apply lookup_budget].
    by destruct (lookups_invariant s ltac:(lia) Hr) as (_ & _ & _ & ?). }
  pose proof (pool_positive ltac:(lia)).
  destruct (pool_left_behind (Z.to_nat (blocking_pool_size max_connections))) as (s & Hr & Hl & Hlen);
    [lia|lia|]. destruct (left_behind_counts _ Hl) as [Hopen Ht].
  destruct (asked s) as [r Hstep]; [unfold open_count; lia|].
  eexists _, (conns s), _. split; [unfold lookups_reachable in *; by etrans|]. cbn [conns].
  split_and!; try done.
  - eapply Forall_impl; [exact Hl|]. by intros d (? & _).
  - unfold threads. cbn [conns]. rewrite sum_of_app, sum_of_cons, Ht, Hlen.
    change (sum_of _ []) with 0. change (threads_of _) with 0. lia.
Qed.
End Lookups.

#[local] Existing Instance counting_semaphore.

(** One connection with a lookup running and another waiting. *)
Definition example_lookups : Lookups (M := Z) :=
  mkLookups 128 ([] ++ mkConn true (mkResolver 0 32) 1 0 0 1 0 0 :: []).

Lemma example_reachable : lookups_reachable 2 example_lookups.
Proof.
  eapply rtc_l; [apply open_conn; by right|]. cbn [app conns shared lookups_new].
  unfold conn_new, per_connection.
  eapply rtc_l; [eapply (one_conn 2 128 [] _ _ []), ask|].
  eapply rtc_l; [eapply (one_conn 2 128 [] _ _ []), ask|].
  eapply rtc_l; [eapply (one_conn 2 128 [] _ _ []); by apply take_reserved|].
  eapply rtc_l; [eapply (start_lookup 2 128 [] _ _ []); [apply start_reserved|done]|]. apply rtc_refl.
Qed.

Lemma lookup_budget_witness :
  slots example_lookups + LOOKUP_FREE_THREADS ≤ blocking_pool_size 2.
Proof.
  destruct (lookup_budget 2 example_lookups) as (_ & _ & H);
    [done|apply example_reachable|]. by apply H.
Defined.

Lemma lookup_never_starved_witness :
  on_reserved (mkConn true (mkResolver 0 32) 1 0 0 1 0 0) = 1%nat.
Proof.
  destruct (lookup_never_starved 2 example_lookups [] (mkConn true (mkResolver 0 32) 1 0 0 1 0 0) [])
    as [H|(c' & Hs & Hc & _)]; [done|apply example_reachable|done|done|cbn; lia|exact H|reflexivity].
Defined.

(** With one connection allowed, 193 threads can be kept by connections that are gone. *)
Lemma lookups_linger_witness :
  threads example_lookups ≤ blocking_pool_size 2 ∧
  ∃ (s : Lookups (M := Z)) l c, lookups_reachable 1 s ∧ conns s = l ++ [c] ∧
    Forall (λ d, alive d = false) l ∧ threads s = 193 ∧
    alive c = true ∧ queued_reserved c = 1%nat ∧ threads_of c = 0.
Proof.
  split.
  - destruct (lookups_linger (M := Z) 2) as [H _]; [done|].
    by destruct (H example_lookups example_reachable).
  - destruct (lookups_linger (M := Z) 1) as [_ H]; [done|exact H].
Defined.

(** ** The order of addresses *)

(** Inserting by a two-valued key into a list that is already partitioned. *)
Lemma insert_partitioned (p : SocketAddr → bool) x l1 l2 :
  Forall (λ a, p a = false) l1 → Forall (λ a, p a = true) l2 →
  insert_by_key (λ a, Z.b2z (p a)) x (l1 ++ l2) =
  if p x then l1 ++ x :: l2 else x :: l1 ++ l2.
Proof.
  intros H1 H2. destruct (p x) eqn:Ex.
  - induction H1 as [|y l1 Hy _ IH]; cbn [app insert_by_key].
    + destruct H2 as [|y l2 Hy _]; cbn [insert_by_key]; [done|]. by rewrite Ex, Hy.
    + by rewrite Ex, Hy, IH.
  - destruct l1 as [|y l1]; cbn [app]; [destruct l2 as [|y l2]|]; cbn [insert_by_key]; [done|..];
      rewrite Ex; by destruct (p y).
Qed.

Lemma sort_partition (p : SocketAddr → bool) l :
  sort_by_key (λ a, Z.b2z (p a)) l = List.filter (λ a, negb (p a)) l ++ List.filter p l.
Proof.
  unfold sort_by_key. induction l as [|x l IH]; cbn [foldr List.filter]; [done|].
  rewrite IH, insert_partitioned.
  - by destruct (p x).
  - apply Forall_forall. intros a [_ Ha]%list_elem_of_In%filter_In. by apply negb_true_iff.
  - apply Forall_forall. by intros a [_ Ha]%list_elem_of_In%filter_In.
Qed.

(** The preferred family comes first and the resolver's order within a family
    is kept; no address is added or lost. *)
Theorem prefer_family_exact addresses preference :
  prefer_family addresses preference =
  match preference with
  | System => addresses
  | Ipv4 => List.filter (λ a, negb (is_ipv6 a)) addresses ++ List.filter is_ipv6 addresses
  | Ipv6 => List.filter is_ipv6 addresses ++ List.filter (λ a, negb (is_ipv6 a)) addresses
  end.
Proof.
  destruct preference; cbn [prefer_family]; rewrite ?sort_partition; [| |done];
    apply (f_equal2 app); apply filter_ext; intros a; by destruct (is_ipv6 a).
Qed.
