(* ===== verification/Context.v ===== *)
(** * The state of a connection (src/src/tunnel/mod.rs, quic/transport.rs)

    What the requests of one connection share: the authentication failures in
    their buckets, the door they pass through once, the allowance of packets to
    targets that have not answered, and the preamble of both tunnels that turns a
    target into addresses to dial ([admit_target]).

    The resolver's answer, whether the kernel holds an address for this host and
    how a write ends are inputs. *)

From S2P Require Import Prelude Message Policy Logfmt Auth.
From S2P Require Import H3Error Exchange Status StatusFacts Net.

#[local] Open Scope Z_scope.

(** ** Authentication failures *)

#[export] Program Instance byte_countable : Countable byte :=
  inj_countable Byte.to_N Byte.of_N _.
Next Obligation. apply Byte.of_to_N. Qed.

(** [configured] is the [HashMap<String, u32>] of the source. *)
Record AuthFailures := mkAuthFailures {
  configured : gmap bytes Z;
  unconfigured : Z;
  anonymous : Z;
}.

Definition auth_failures_default : AuthFailures := mkAuthFailures ∅ 0 0.

Definition u32_max : Z := 2 ^ 32 - 1.

Definition total (f : AuthFailures) : Z :=
  foldl (saturating_add 32) 0
    (map snd (map_to_list (configured f)) ++ [unconfigured f; anonymous f]).

(** One more failure in the bucket of the claim. *)
Definition count_failure (auth : Authenticator) (claim : option bytes) (f : AuthFailures)
    : AuthFailures :=
  match claim with
  | Some username =>
      if is_configured auth username then
        let bucket := default 0 (configured f !! username) in
        mkAuthFailures (<[username := saturating_add 32 bucket 1]> (configured f))
          (unconfigured f) (anonymous f)
      else mkAuthFailures (configured f) (saturating_add 32 (unconfigured f) 1) (anonymous f)
  | None => mkAuthFailures (configured f) (unconfigured f) (saturating_add 32 (anonymous f) 1)
  end.

(** The failures a success answers for. *)
Definition forgive (username : option bytes) (f : AuthFailures) : AuthFailures :=
  let f := mkAuthFailures (configured f) (unconfigured f) 0 in
  match username with
  | Some username => mkAuthFailures (delete username (configured f)) (unconfigured f) (anonymous f)
  | None => f
  end.

(** ** The door (quic/transport.rs) *)

(** [AuthGate] is a shared flag; [mark] swaps it and says whether it was the
    first. *)
Definition AuthGate : Type := bool.
Definition gate_closed : AuthGate := false.
Definition gate_mark (g : AuthGate) : AuthGate * bool := (true, negb g).
Definition gate_is_open (g : AuthGate) : bool := g.

Definition INITIAL_BIDI_STREAMS : Z := 16.

Definition initial_bidi_streams (max_streams_bidi : Z) : Z :=
  Z.min max_streams_bidi INITIAL_BIDI_STREAMS.

(** ** The context *)

Definition CONNECTION_UNANSWERED_MULTIPLIER : Z := 8.

(** The settings of the configuration file a connection is created with. *)
Record Settings := mkSettings {
  cfg_users : list User;
  cfg_policy : Policy;
  cfg_max_auth_failures : Z;
  cfg_max_streams_bidi : Z;
  cfg_connect_timeout : option Z;
  cfg_ip_family_preference : IpFamilyPreference;
  cfg_unanswered_packet_budget : Z;
}.

Record Context := mkContext {
  peer_datagrams : bool;
  auth : Authenticator;
  auth_failures : AuthFailures;
  max_auth_failures : Z;
  authenticated : AuthGate;
  policy : Policy;
  max_streams_bidi : Z;
  tunnels : Z;
  connect_timeout : option Z;
  ip_family_preference : IpFamilyPreference;
  unanswered_packet_budget : Z;
  unanswered_connection_budget : Z;
  unanswered_connection_total : Z;
  unanswered_closures : Sampler;
  policy_refusals : Sampler;
  limit_refusals : Sampler;
}.

(** [u32::saturating_mul]. *)
Definition saturating_mul32 (x y : Z) : Z := Z.min (x * y) u32_max.

Definition context_new (s : Settings) (datagrams : bool) : Context :=
  let total := saturating_mul32 (cfg_unanswered_packet_budget s) CONNECTION_UNANSWERED_MULTIPLIER in
  {| peer_datagrams := datagrams;
     auth := auth_new (cfg_users s);
     auth_failures := auth_failures_default;
     max_auth_failures := cfg_max_auth_failures s;
     authenticated := gate_closed;
     policy := cfg_policy s;
     max_streams_bidi := cfg_max_streams_bidi s;
     tunnels := 0;
     connect_timeout := cfg_connect_timeout s;
     ip_family_preference := cfg_ip_family_preference s;
     unanswered_packet_budget := cfg_unanswered_packet_budget s;
     unanswered_connection_total := total;
     unanswered_connection_budget := total;
     unanswered_closures := sampler_new;
     policy_refusals := sampler_new;
     limit_refusals := sampler_new |}.

(** Assignments to the fields that change. *)
Definition set_door (f : AuthFailures) (g : AuthGate) (c : Context) : Context :=
  {| peer_datagrams := peer_datagrams c; auth := auth c; auth_failures := f;
     max_auth_failures := max_auth_failures c; authenticated := g; policy := policy c;
     max_streams_bidi := max_streams_bidi c; tunnels := tunnels c;
     connect_timeout := connect_timeout c; ip_family_preference := ip_family_preference c;
     unanswered_packet_budget := unanswered_packet_budget c;
     unanswered_connection_budget := unanswered_connection_budget c;
     unanswered_connection_total := unanswered_connection_total c;
     unanswered_closures := unanswered_closures c; policy_refusals := policy_refusals c;
     limit_refusals := limit_refusals c |}.

Definition set_counters (n budget : Z) (closures refusals limits : Sampler) (c : Context) : Context :=
  {| peer_datagrams := peer_datagrams c; auth := auth c; auth_failures := auth_failures c;
     max_auth_failures := max_auth_failures c; authenticated := authenticated c;
     policy := policy c; max_streams_bidi := max_streams_bidi c; tunnels := n;
     connect_timeout := connect_timeout c; ip_family_preference := ip_family_preference c;
     unanswered_packet_budget := unanswered_packet_budget c;
     unanswered_connection_budget := budget;
     unanswered_connection_total := unanswered_connection_total c;
     unanswered_closures := closures; policy_refusals := refusals;
     limit_refusals := limits |}.

Definition set_budget (budget : Z) (c : Context) : Context :=
  set_counters (tunnels c) budget (unanswered_closures c) (policy_refusals c) (limit_refusals c) c.

Definition set_policy_refusals (s : Sampler) (c : Context) : Context :=
  set_counters (tunnels c) (unanswered_connection_budget c) (unanswered_closures c) s
    (limit_refusals c) c.

Definition set_limit_refusals (s : Sampler) (c : Context) : Context :=
  set_counters (tunnels c) (unanswered_connection_budget c) (unanswered_closures c)
    (policy_refusals c) s c.

Definition set_closures (s : Sampler) (c : Context) : Context :=
  set_counters (tunnels c) (unanswered_connection_budget c) s (policy_refusals c)
    (limit_refusals c) c.

(** [fetch_add] wraps. *)
Definition count_tunnel (c : Context) : Context :=
  set_counters (wrap 64 (tunnels c + 1)) (unanswered_connection_budget c) (unanswered_closures c)
    (policy_refusals c) (limit_refusals c) c.

(** [charge_unanswered] and [refund_unanswered]: one compare-and-swap each. *)
Definition charge_unanswered (c : Context) : Context * bool :=
  if unanswered_packet_budget c =? 0 then (c, true)
  else if unanswered_connection_budget c - 1 <? 0 then (c, false)
  else (set_budget (unanswered_connection_budget c - 1) c, true).

Definition refund_unanswered (charged : Z) (c : Context) : Context :=
  if (unanswered_packet_budget c =? 0) || (charged =? 0) then c
  else
    set_budget (Z.min (saturating_add 32 (unanswered_connection_budget c) charged)
                  (unanswered_connection_total c)) c.

Definition record_auth_failure (username : option bytes) (c : Context) : Context * bool :=
  let f := count_failure (auth c) username (auth_failures c) in
  (set_door f (authenticated c) c,
   (0 <? max_auth_failures c) && (max_auth_failures c <=? total f)).

Definition datagrams_allowed (c : Context) : bool := peer_datagrams c.

(** The new stream allowance, when this call raises it. *)
Definition mark_authenticated (username : option bytes) (c : Context) : Context * option Z :=
  let '(g, first) := gate_mark (authenticated c) in
  (set_door (forgive username (auth_failures c)) g c,
   if first then Some (max_streams_bidi c) else None).

Definition is_authenticated (c : Context) : bool := gate_is_open (authenticated c).

(** ** Admission *)

(** A name lookup: when it answers and with what, or never. *)
Inductive Lookup := Answers (after : Z) (r : result (list SocketAddr) IoError) | NeverAnswers.

(** What the resolver's thread comes back with (net.rs). *)
Inductive PoolAnswer :=
  | Resolved (addresses : list SocketAddr)
  | ResolverFailed (e : IoError)
  | ThreadLost.

Definition on_the_blocking_pool (a : PoolAnswer) : result (list SocketAddr) IoError :=
  match a with
  | Resolved [] => Err (mkIoError None KindOther)
  | Resolved addresses => Ok addresses
  | ResolverFailed e => Err e
  | ThreadLost => Err (mkIoError None KindOther)
  end.

(** [ConnectionResolver::lookup]: how long the wait for a slot takes, and the thread
    after it; [None] is a wait without an end. *)
Definition net_lookup (host : bytes) (port : Z) (slot : option Z) (thread : option (Z * PoolAnswer))
    : Lookup :=
  match literal host port with
  | Some address => Answers 0 (Ok [address])
  | None =>
      match slot, thread with
      | Some waited, Some (took, answer) => Answers (waited + took) (on_the_blocking_pool answer)
      | _, _ => NeverAnswers
      end
  end.

(** [None]: the wait has no end. *)
Definition within_budget (l : Lookup) (budget : option Z)
    : option (result (list SocketAddr) ResolveFailure) :=
  let failed r := match r with Ok a => Ok a | Err e => Err (Failed e) end in
  match budget, l with
  | Some budget, Answers after r =>
      Some (if after <=? budget then failed r else Err (TimedOutAfter budget))
  | Some budget, NeverAnswers => Some (Err (TimedOutAfter budget))
  | None, Answers _ r => Some (failed r)
  | None, NeverAnswers => None
  end.

Definition resolve_within (l : Lookup) (budget : option Z) (family : IpFamilyPreference)
    : option (result (list SocketAddr) ResolveFailure) :=
  r ← within_budget l budget;
  Some (result_map (λ addresses, prefer_family addresses family) r).

Definition is_loopback (ip : IpAddr) : bool :=
  match ip with V4 a => is_loopback4 a | V6 a => is_loopback6 a end.

Section Admission.
Context {QuinnError : Type}.
(** [net::holds_address]: whether the kernel binds the address. *)
Context (holds_address : IpAddr → bool).

Definition is_the_proxys_own (ip : IpAddr) : bool :=
  let ip := canonical ip in
  negb (is_loopback ip) && holds_address ip.

(** The addresses of a resolved target that may be dialled. *)
Definition dialable (p : Policy) (addresses : list SocketAddr) : list SocketAddr :=
  List.filter (λ a, negb (is_the_proxys_own (ip a))) (allowed_addresses p addresses).

(** What the request was answered with, and the addresses when it was not; [l]
    is how the lookup of its host would go.  [None]: a panic, or no return. *)
Definition admit_target (port : Z) (ctx : Context) (l : Lookup) (accepted_fields : option Fields)
    (w : @WriteOutcome QuinnError) : option (Context * list Effect * option (list SocketAddr)) :=
  if negb (allows_port (policy ctx) port) then
    effects ← refuse_because HttpRequestDenied w;
    Some (ctx, effects, None)
  else
    resolved ← resolve_within l (connect_timeout ctx) (ip_family_preference ctx);
    match resolved with
    | Err failure =>
        effects ← refuse_because (proxy_error failure) w;
        Some (ctx, effects, None)
    | Ok addresses =>
        let allowed := dialable (policy ctx) addresses in
        if bool_decide (allowed = []) then
          if is_dns_blackhole addresses then
            fields ← accepted_fields;
            effects ← accept_then_close fields w;
            Some (ctx, effects, None)
          else
            let ctx := set_policy_refusals (record (policy_refusals ctx)).1 ctx in
            effects ← refuse_because DestinationIpProhibited w;
            Some (ctx, effects, None)
        else Some (ctx, [], Some allowed)
    end.
End Admission.

(** ** The buckets *)

(** The sum of the buckets of the names [P] selects. *)
Definition bucket_sum (P : bytes → bool) (m : gmap bytes Z) : Z :=
  map_fold (λ name n acc, (if P name then n else 0) + acc) 0 m.

Lemma bucket_sum_insert P m name n :
  m !! name = None → bucket_sum P (<[name := n]> m) = (if P name then n else 0) + bucket_sum P m.
Proof. intros Hm. unfold bucket_sum. rewrite map_fold_insert_L; [done| |done]. intros. lia. Qed.

Lemma bucket_sum_update P m name n :
  bucket_sum P (<[name := n]> m) =
  bucket_sum P m + if P name then n - default 0 (m !! name) else 0.
Proof.
  destruct (m !! name) as [old|] eqn:E; cbn [default from_option id].
  - rewrite <- insert_delete_eq, bucket_sum_insert by apply lookup_delete_eq.
    rewrite <- (insert_delete_id m name old E) at 2.
    rewrite bucket_sum_insert by apply lookup_delete_eq. destruct (P name); lia.
  - rewrite bucket_sum_insert by done. destruct (P name); lia.
Qed.

Lemma bucket_sum_delete P m name :
  bucket_sum P (delete name m) = bucket_sum P m - if P name then default 0 (m !! name) else 0.
Proof.
  destruct (m !! name) as [old|] eqn:E; cbn [default from_option id].
  - rewrite <- (insert_delete_id m name old E) at 2.
    rewrite bucket_sum_insert by apply lookup_delete_eq. destruct (P name); lia.
  - rewrite delete_id by done. destruct (P name); lia.
Qed.

(** Every count is a [u32]. *)
Definition failures_ok (f : AuthFailures) : Prop :=
  (∀ name n, configured f !! name = Some n → 0 ≤ n ≤ u32_max) ∧
  0 ≤ unconfigured f ≤ u32_max ∧ 0 ≤ anonymous f ≤ u32_max.

Lemma saturating_fold l acc :
  Forall (λ n, 0 ≤ n) l → 0 ≤ acc ≤ u32_max →
  foldl (saturating_add 32) acc l = Z.min (acc + foldr Z.add 0 l) u32_max.
Proof.
  intros Hl. revert acc. induction Hl as [|n l Hn Hl IH]; intros acc Ha; cbn [foldl foldr]; [lia|].
  assert (0 ≤ foldr Z.add 0 l) by (clear IH; induction Hl; cbn [foldr]; lia).
  rewrite IH; unfold saturating_add; fold u32_max; lia.
Qed.

Lemma bucket_sum_nonneg P f : failures_ok f → 0 ≤ bucket_sum P (configured f).
Proof.
  intros [Hc _]. unfold bucket_sum.
  apply (map_fold_weak_ind (λ acc m, (∀ name n, m !! name = Some n → 0 ≤ n ≤ u32_max) → 0 ≤ acc));
    [done| |done].
  intros name n m acc Hm IH Hall. assert (0 ≤ acc).
  { apply IH. intros name' n' Hn. apply (Hall name'). rewrite lookup_insert_ne; [done|congruence]. }
  pose proof (Hall name n (lookup_insert_eq _ _ _)). destruct (P name); lia.
Qed.

(** The total is the sum of every bucket, capped at what a [u32] holds. *)
Lemma total_eq f :
  failures_ok f →
  total f = Z.min (bucket_sum (λ _, true) (configured f) + unconfigured f + anonymous f) u32_max.
Proof.
  intros Hf. pose proof (bucket_sum_nonneg (λ _, true) f Hf) as Hb. destruct Hf as (Hc & Hu & Ha).
  unfold total. rewrite saturating_fold; [| |unfold u32_max; lia].
  - f_equal. unfold bucket_sum. rewrite map_fold_foldr.
    induction (map_to_list (configured f)) as [|[name n] l IH]; cbn [map app foldr fst snd uncurry];
      [lia|]. lia.
  - apply Forall_app. split; [|by repeat constructor; lia].
    apply Forall_map, Forall_forall. intros [name n] Hin%elem_of_map_to_list. cbn.
    by apply (Hc name).
Qed.

Lemma count_failure_ok a claim f : failures_ok f → failures_ok (count_failure a claim f).
Proof.
  intros (Hc & Hu & Ha). unfold count_failure, saturating_add. fold u32_max.
  destruct claim as [name|]; [destruct (is_configured a name)|]; split_and!;
    cbn [configured unconfigured anonymous]; try done; try lia.
  intros name' n. destruct (decide (name = name')) as [<-|Hne].
  - rewrite lookup_insert_eq. intros [= <-]. destruct (configured f !! name) eqn:E;
      cbn [default from_option id]; [specialize (Hc _ _ E)|]; unfold u32_max in *; lia.
  - rewrite lookup_insert_ne by done. apply Hc.
Qed.

Lemma forgive_ok user f : failures_ok f → failures_ok (forgive user f).
Proof.
  intros (Hc & Hu & Ha). destruct user as [name|]; split_and!;
    cbn [forgive configured unconfigured anonymous]; unfold u32_max in *; try done; try lia.
  intros name' n [_ Hn]%lookup_delete_Some. by apply (Hc name').
Qed.

(** ** Guessing *)

(** What the requests of a connection do to its counters, in the order in which
    they take the lock; the flag says whether a failure was one too many. *)
Inductive AuthEvent := Failure (claim : option bytes) | Success (user : option bytes).

Definition auth_event (s : Context * bool) (e : AuthEvent) : Context * bool :=
  match e with
  | Failure claim => let '(c, spent) := record_auth_failure claim s.1 in (c, s.2 || spent)
  | Success user => ((mark_authenticated user s.1).1, s.2)
  end.

Definition auth_events (c : Context) (events : list AuthEvent) : Context * bool :=
  foldl auth_event (c, false) events.

(** A failure that names somebody outside [S]. *)
Definition is_guess (S : list bytes) (e : AuthEvent) : bool :=
  match e with Failure (Some name) => bool_decide (name ∉ S) | _ => false end.

Definition guesses (S : list bytes) (events : list AuthEvent) : Z :=
  blen (List.filter (is_guess S) events).

(** What the connection has on record against names outside [S]. *)
Definition charged_outside (S : list bytes) (f : AuthFailures) : Z :=
  bucket_sum (λ name, bool_decide (name ∉ S)) (configured f) + unconfigured f.

Lemma bucket_sum_le P f :
  failures_ok f → bucket_sum P (configured f) ≤ bucket_sum (λ _, true) (configured f).
Proof.
  intros [Hc _]. unfold bucket_sum.
  apply (map_fold_weak_ind (λ acc m, (∀ name n, m !! name = Some n → 0 ≤ n ≤ u32_max) →
    acc ≤ map_fold (λ _ n acc, n + acc) 0 m)); [|intros name n m acc Hm IH Hall|done].
  { intros _. by rewrite map_fold_empty. }
  assert (acc ≤ map_fold (λ _ n acc, n + acc) 0 m).
  { apply IH. intros name' n' Hn. apply (Hall name'). rewrite lookup_insert_ne; [done|congruence]. }
  rewrite (map_fold_insert_L _ _ name n m) by (done || intros; lia).
  pose proof (Hall name n (lookup_insert_eq _ _ _)). destruct (P name); lia.
Qed.

Lemma charged_le_total S f :
  failures_ok f → Z.min (charged_outside S f) u32_max ≤ total f.
Proof.
  intros Hf. rewrite total_eq by done. unfold charged_outside.
  pose proof (bucket_sum_le (λ name, bool_decide (name ∉ S)) f Hf). destruct Hf as (_ & ? & ?). lia.
Qed.

Lemma bucket_le_sum P f name old :
  failures_ok f → configured f !! name = Some old → P name = true →
  old ≤ bucket_sum P (configured f).
Proof.
  intros (Hc & Hu & Ha) E HP.
  rewrite <- (insert_delete_id _ _ _ E), bucket_sum_insert, HP by apply lookup_delete_eq.
  pose proof (bucket_sum_nonneg P
    (mkAuthFailures (delete name (configured f)) (unconfigured f) (anonymous f))) as Hd.
  cbn [configured] in Hd. assert (0 ≤ bucket_sum P (delete name (configured f))); [|lia].
  apply Hd. split_and!; cbn [configured unconfigured anonymous]; try lia.
  intros ? ? [_ ?]%lookup_delete_Some. eauto.
Qed.

Lemma count_failure_charges S a claim f :
  failures_ok f →
  charged_outside S f ≤ charged_outside S (count_failure a claim f) ∧
  (is_guess S (Failure claim) = true →
   Z.min (charged_outside S f + 1) u32_max ≤ charged_outside S (count_failure a claim f)).
Proof.
  intros Hf. pose proof (bucket_sum_nonneg (λ name, bool_decide (name ∉ S)) f Hf) as Hb.
  destruct Hf as (Hc & Hu & Ha). unfold charged_outside, count_failure.
  destruct claim as [name|]; [|cbn; lia]. cbn [is_guess].
  destruct (is_configured a name); cbn [configured unconfigured].
  - rewrite bucket_sum_update. unfold saturating_add. fold u32_max.
    destruct (configured f !! name) as [old|] eqn:E; cbn [default from_option id].
    + pose proof (Hc _ _ E). pose proof (bucket_le_sum (λ name, bool_decide (name ∉ S)) f name old
        (conj Hc (conj Hu Ha)) E) as Hle. cbn in Hle.
      case_bool_decide; [specialize (Hle eq_refl)|]; unfold u32_max in *; split; intros; lia || done.
    + case_bool_decide; unfold u32_max in *; split; intros; lia || done.
  - unfold saturating_add. fold u32_max. split; [lia|]. intros _. lia.
Qed.

Lemma forgive_keeps_charges S user f :
  (∀ name, user = Some name → name ∈ S) →
  charged_outside S (forgive user f) = charged_outside S f.
Proof.
  intros HS. unfold charged_outside. destruct user as [name|]; cbn [forgive configured unconfigured];
    [|done]. rewrite bucket_sum_delete, bool_decide_eq_false_2; [lia|]. intros H. by apply H, HS.
Qed.

Lemma guesses_invariant S events c closed n :
  (∀ name, Success (Some name) ∈ events → name ∈ S) →
  0 < max_auth_failures c ≤ u32_max → failures_ok (auth_failures c) →
  Z.min n u32_max ≤ charged_outside S (auth_failures c) →
  (closed = false → n < max_auth_failures c) →
  let s := foldl auth_event (c, closed) events in
  s.2 = false → n + guesses S events < max_auth_failures c.
Proof.
  revert c closed n. induction events as [|e events IH]; intros c closed n HS Hmax Hok Hn Hc.
  { cbn. intros ->. specialize (Hc eq_refl). unfold guesses, blen; cbn. lia. }
  assert (∀ name, Success (Some name) ∈ events → name ∈ S) as HS' by (intros; apply HS; by right).
  cbn [foldl]. unfold guesses. cbn [List.filter].
  destruct e as [claim|user]; cbn [auth_event].
  - cbn [record_auth_failure fst snd].
    pose proof (count_failure_charges S (auth c) claim _ Hok) as [Hmono Hguess].
    pose proof (count_failure_ok (auth c) claim _ Hok) as Hok'.
    pose proof (charged_le_total S _ Hok') as Htot.
    set (f' := count_failure (auth c) claim (auth_failures c)) in *.
    set (c' := set_door f' (authenticated c) c).
    destruct (is_guess S (Failure claim)) eqn:Eg.
    + specialize (Hguess eq_refl). intros Hs.
      specialize (IH c' (closed || ((0 <? max_auth_failures c) && (max_auth_failures c <=? total f')))
        (n + 1) HS' Hmax Hok').
      assert (n + 1 + guesses S events < max_auth_failures c).
      { apply IH; [cbn; lia| |exact Hs]. cbn [c' set_door max_auth_failures].
        intros [_ Hf]%orb_false_iff. apply andb_false_iff in Hf. lia. }
      unfold guesses in *. unfold blen in *. cbn [length]. lia.
    + intros Hs.
      specialize (IH c' (closed || ((0 <? max_auth_failures c) && (max_auth_failures c <=? total f')))
        n HS' Hmax Hok'). apply IH; [cbn; lia| |exact Hs].
      intros [Hcl _]%orb_false_iff. by apply Hc.
  - cbn [is_guess mark_authenticated gate_mark fst snd]. intros Hs.
    apply (IH (set_door (forgive user (auth_failures c)) true c) closed n HS' Hmax);
      [by apply forgive_ok| |done|exact Hs].
    cbn [set_door auth_failures]. rewrite forgive_keeps_charges; [done|].
    intros name ->. apply HS. by left.
Qed.



(** ** Admission *)

Section AdmissionFacts.
Context {QuinnError : Type} (holds_address : IpAddr → bool).
Implicit Types w : @WriteOutcome QuinnError.

Lemma resolve_within_ok l budget family all :
  resolve_within l budget family = Some (Ok all) →
  ∃ after resolved, l = Answers after (Ok resolved) ∧ all = prefer_family resolved family ∧
    ∀ b, budget = Some b → after ≤ b.
Proof.
  unfold resolve_within, within_budget.
  destruct budget as [b|], l as [after [r|e]|]; cbn; try done;
    try (destruct (Z.leb_spec after b); cbn); intros [= <-];
    exists after, r; split_and!; try done; by intros ? [= <-].
Qed.

Lemma resolve_within_returns l b family : is_Some (resolve_within l (Some b) family).
Proof. unfold resolve_within, within_budget. destruct l; cbn; eauto. Qed.

(** What is left of the resolved addresses. *)
Definition may_dial (p : Policy) (a : SocketAddr) : bool :=
  allows_address p (ip a) && negb (is_the_proxys_own holds_address (ip a)).

Lemma dialable_eq p l : dialable holds_address p l = List.filter (may_dial p) l.
Proof.
  unfold dialable, allowed_addresses, may_dial. induction l as [|a l IH]; cbn [List.filter]; [done|].
  destruct (allows_address p (ip a)); cbn [List.filter andb negb]; [|done].
  by destruct (is_the_proxys_own holds_address (ip a)); cbn [negb]; rewrite IH.
Qed.

(** The preamble with every refusal computed: only the lookup can keep it from
    returning, and what it returns is an answer or the addresses. *)
Lemma admit_target_eq port ctx l fields okframe w :
  response_frame OK fields = Some okframe →
  ∃ answer ctx', admit_target holds_address port ctx l (Some fields) w =
    if negb (allows_port (policy ctx) port) then
      Some (ctx, Stop H3_NO_ERROR :: Write answer :: ending w, None)
    else
      resolved ← resolve_within l (connect_timeout ctx) (ip_family_preference ctx);
      match resolved with
      | Err _ => Some (ctx, Stop H3_NO_ERROR :: Write answer :: ending w, None)
      | Ok all =>
          let allowed := List.filter (may_dial (policy ctx)) all in
          if bool_decide (allowed = []) then
            Some (ctx', Stop H3_NO_ERROR :: Write answer :: ending w, None)
          else Some (ctx, [], Some allowed)
      end.
Proof.
  intros Hok. unfold admit_target.
  destruct (allows_port (policy ctx) port); cbn [negb].
  2:{ destruct (refuse_because_eq HttpRequestDenied w) as (f & _ & ->). by exists f, ctx. }
  destruct (resolve_within l _ _) as [[all|fl]|]; cbn [mbind option_bind]; [| |by exists [], ctx].
  2:{ destruct (refuse_because_eq (proxy_error fl) w) as (f & _ & ->). by exists f, ctx. }
  rewrite dialable_eq. case_bool_decide; [|by exists [], ctx].
  destruct (is_dns_blackhole all).
  - rewrite (accept_then_close_eq _ _ w Hok). cbn. eauto.
  - destruct (refuse_because_eq DestinationIpProhibited w) as (f & _ & ->). cbn. eauto.
Qed.

(** The addresses the preamble returns. *)
Definition admitted (port : Z) (ctx : Context) (l : Lookup) (addrs : list SocketAddr) : Prop :=
  addrs ≠ [] ∧ allows_port (policy ctx) port = true ∧
  ∃ after resolved, l = Answers after (Ok resolved) ∧
    (∀ b, connect_timeout ctx = Some b → after ≤ b) ∧
    addrs = List.filter (may_dial (policy ctx)) (prefer_family resolved (ip_family_preference ctx)).

Lemma admit_target_some port ctx l fields w ctx' effects addrs :
  is_Some (response_frame OK fields) →
  admit_target holds_address port ctx l (Some fields) w = Some (ctx', effects, Some addrs) →
  ctx' = ctx ∧ effects = [] ∧ admitted port ctx l addrs.
Proof.
  intros [okf Hok]. destruct (admit_target_eq port ctx l fields okf w Hok) as (an & c & ->).
  unfold admitted. destruct (allows_port (policy ctx) port) eqn:Ep; cbn [negb]; [|done].
  destruct (resolve_within l _ _) as [[all|fl]|] eqn:Er; cbn [mbind option_bind]; [|done..].
  cbv zeta. case_bool_decide as Hd; [done|]. intros [= <- <- <-].
  apply resolve_within_ok in Er as (after & res & -> & -> & Hb). eauto 10.
Qed.

Lemma admit_target_none port ctx l fields w ctx' effects :
  is_Some (response_frame OK fields) →
  admit_target holds_address port ctx l (Some fields) w = Some (ctx', effects, None) →
  ∃ frame, effects = Stop H3_NO_ERROR :: Write frame :: ending w.
Proof.
  intros [okf Hok]. destruct (admit_target_eq port ctx l fields okf w Hok) as (an & c & ->).
  destruct (negb _); [intros [= <- <-]; eauto|].
  destruct (resolve_within l _ _) as [[all|fl]|]; cbn [mbind option_bind]; cbv zeta; [| |done];
    [case_bool_decide|]; intros [=]; subst; eauto.
Qed.

Lemma admit_target_returns port ctx l fields w :
  is_Some (response_frame OK fields) → connect_timeout ctx ≠ None →
  is_Some (admit_target holds_address port ctx l (Some fields) w).
Proof.
  intros [okf Hok] Hb. destruct (admit_target_eq port ctx l fields okf w Hok) as (an & c & ->).
  destruct (connect_timeout ctx) as [b|]; [|done]. destruct (negb _); [eauto|].
  destruct (resolve_within_returns l b (ip_family_preference ctx)) as [[all|fl] ->];
    cbn [mbind option_bind]; cbv zeta; [|by eauto]. case_bool_decide; eauto.
Qed.

(** C31: what both tunnels do first. A denied port is refused without asking the
    resolver; with a connect timeout the preamble always returns; the addresses it
    returns are not empty and are exactly the resolved ones, in the preferred
    order, that the policy allows and this host does not hold, from a lookup that
    answered in time; and when it returns none, the request has been answered, once. *)
Theorem admission port ctx l fields w :
  is_Some (response_frame OK fields) →
  (allows_port (policy ctx) port = false →
     is_Some (admit_target holds_address port ctx NeverAnswers (Some fields) w) ∧
     ∀ l', admit_target holds_address port ctx l' (Some fields) w =
           admit_target holds_address port ctx NeverAnswers (Some fields) w) ∧
  (connect_timeout ctx ≠ None → is_Some (admit_target holds_address port ctx l (Some fields) w)) ∧
  (∀ ctx' effects addrs,
     admit_target holds_address port ctx l (Some fields) w = Some (ctx', effects, Some addrs) →
     ctx' = ctx ∧ effects = [] ∧ admitted port ctx l addrs) ∧
  (∀ ctx' effects,
     admit_target holds_address port ctx l (Some fields) w = Some (ctx', effects, None) →
     ∃ frame, effects = Stop H3_NO_ERROR :: Write frame :: ending w).
Proof.
  intros Hok. split; [|split; [|split]].
  - intros Ep. unfold admit_target. rewrite Ep. cbn [negb].
    destruct (refuse_because_eq HttpRequestDenied w) as (f & _ & ->). cbn. eauto.
  - by apply admit_target_returns.
  - intros ctx' effects addrs. by apply admit_target_some.
  - intros ctx' effects. by apply admit_target_none.
Qed.

(** The addresses of a name that may be dialled, when there are any. *)
Definition resolves (ctx : Context) (l : Lookup) (allowed : list SocketAddr) : Prop :=
  allowed ≠ [] ∧ ∃ after resolved, l = Answers after (Ok resolved) ∧
    (∀ b, connect_timeout ctx = Some b → after ≤ b) ∧
    allowed = List.filter (may_dial (policy ctx)) (prefer_family resolved (ip_family_preference ctx)).

Lemma admit_target_admits port ctx l fields w allowed :
  is_Some (response_frame OK fields) → allows_port (policy ctx) port = true → resolves ctx l allowed →
  admit_target holds_address port ctx l (Some fields) w = Some (ctx, [], Some allowed).
Proof.
  intros [okf Hok] Hp (Hne & after & resolved & -> & Hb & ->).
  destruct (admit_target_eq port ctx (Answers after (Ok resolved)) fields okf w Hok) as (an & c & ->).
  rewrite Hp. cbn [negb].
  assert (resolve_within (Answers after (Ok resolved)) (connect_timeout ctx) (ip_family_preference ctx) =
    Some (Ok (prefer_family resolved (ip_family_preference ctx)))) as ->.
  { unfold resolve_within, within_budget. destruct (connect_timeout ctx) as [b|]; [|done].
    by rewrite (proj2 (Z.leb_le _ _)) by (by apply Hb). }
  cbn [mbind option_bind]. cbv zeta. by rewrite bool_decide_eq_false_2.
Qed.

Lemma prefer_family_one a family : prefer_family [a] family = [a].
Proof. by destruct family. Qed.

(** An address literal needs no resolver and gets no exception. Whatever the slots and the
    resolver's threads do, even nothing at all, the preamble returns for a target spelled as an
    address, the same way every time, and lets it through exactly when the policy allows
    the port and the address and the address is not this host's. *)
Theorem literal_admission host port a ctx slot thread fields w :
  is_Some (response_frame OK fields) → literal host port = Some a →
  (∀ b, connect_timeout ctx = Some b → 0 ≤ b) →
  admit_target holds_address port ctx (net_lookup host port slot thread) (Some fields) w =
    admit_target holds_address port ctx (net_lookup host port None None) (Some fields) w ∧
  ∃ ctx' effects admitted,
    admit_target holds_address port ctx (net_lookup host port slot thread) (Some fields) w =
      Some (ctx', effects, admitted) ∧
    (if allows_port (policy ctx) port && may_dial (policy ctx) a
     then admitted = Some [a] ∧ effects = [] ∧ ctx' = ctx
     else admitted = None ∧ ∃ frame, effects = Stop H3_NO_ERROR :: Write frame :: ending w).
Proof.
  intros [okf Hok] Ha Hb. unfold net_lookup. rewrite Ha. split; [done|].
  destruct (admit_target_eq port ctx (Answers 0 (Ok [a])) fields okf w Hok) as (an & c & ->).
  destruct (allows_port (policy ctx) port); cbn [negb andb]; [|by eauto 10].
  assert (resolve_within (Answers 0 (Ok [a])) (connect_timeout ctx) (ip_family_preference ctx) =
    Some (Ok [a])) as ->.
  { unfold resolve_within, within_budget. destruct (connect_timeout ctx) as [b|].
    - rewrite (proj2 (Z.leb_le 0 b)) by (by apply Hb). cbn. by rewrite prefer_family_one.
    - cbn. by rewrite prefer_family_one. }
  cbn [mbind option_bind List.filter]. destruct (may_dial (policy ctx) a); cbn; eauto 10.
Qed.
End AdmissionFacts.

Lemma literal_admission_witness :
  let settings := mkSettings [] (mkPolicy false [25]) 3 100 (Some 10) Net.Ipv4 64 in
  let ctx := context_new settings true in
  admit_target (QuinnError := unit) (λ _, false) 443 ctx (net_lookup (lit "127.0.0.1") 443 (Some 5) None)
    (Some fields_new) Written =
  admit_target (QuinnError := unit) (λ _, false) 443 ctx (net_lookup (lit "127.0.0.1") 443 None None) (Some fields_new) Written.
Proof.
  intros settings ctx.
  apply (literal_admission (QuinnError := unit) (λ _, false) (lit "127.0.0.1") 443
    (mkSocketAddr (V4 (mk4 (as_u8 127) (as_u8 0) (as_u8 0) (as_u8 1))) 443) ctx (Some 5) None fields_new Written).
  - eexists. vm_compute. reflexivity.
  - vm_compute. reflexivity.
  - by intros b [= <-].
Defined.

Lemma admission_witness :
  let settings := mkSettings [] (mkPolicy false [25]) 3 100 (Some 10) Net.Ipv4 64 in
  let address := mkSocketAddr (V4 (mk4 (as_u8 8) (as_u8 8) (as_u8 8) (as_u8 8))) 443 in
  is_Some (admit_target (QuinnError := unit) (λ _, false) 443 (context_new settings true)
    (Answers 1 (Ok [address])) (Some fields_new) Written).
Proof.
  intros settings address.
  apply (admission (QuinnError := unit) (λ _, false) 443 (context_new settings true)
    (Answers 1 (Ok [address])) fields_new Written).
  - eexists. vm_compute. reflexivity.
  - done.
Defined.
