(* ===== verification/UdpSession.v ===== *)
(** * CONNECT-UDP sessions (src/src/tunnel/udp.rs)

    The session loop and its steps: payloads from the client's datagrams and
    capsules to the target under the two budgets of RFC 9298, packets from the
    target to the client as a datagram or a capsule, the idle deadline, and how
    the two halves of the request stream end.

    What lies outside is a [World]: the socket, the clock, quinn's answers about
    datagrams and the outcome of a write are read from it and may change with
    every call. *)

From S2P Require Import Prelude Datagram Incremental Capsule H3Error.
From S2P Require Import Policy Logfmt Message Exchange Status Target Net Context.

#[local] Open Scope Z_scope.

(** ** Session state *)

Record Session := mkSession {
  quarter_id : Z;
  decoder : CapsuleDecoder;
  unanswered_budget : option Z;
  charged_unanswered : Z;
  oversize_drops : Sampler;
  evictions : Sampler;
  deadline : Z;
}.

Inductive Step := Continue | StopSession | Aborted (code : Code).

(** What a session does to the world, in order. *)
Inductive Action :=
  | SendTarget (payload : bytes)
  | SendDatagram (datagram : bytes)
  | SendCapsule (capsule : bytes)
  | ResetStream (code : Code)
  | StopReceiving (code : Code)
  | FinishStream.

(** How a bounded write of the capsule stream ends. *)
Inductive WriteEnd := WriteDone | WriteError | WriteElapsed.

Inductive Graded := Clear | Report (total : Z) | Quiet.

Definition grade (value limit : Z) (sampler : Sampler) : Sampler * Graded :=
  if value <=? limit then (sampler, Clear)
  else
    let '(sampler, r) := record sampler in
    (sampler, match r with Some total => Report total | None => Quiet end).

(** The errors of the socket that are about one packet. *)
Record Errnos := mkErrnos { EMSGSIZE : Z; EPERM : Z; EACCES : Z; ENOBUFS : Z }.

Definition is_per_packet_error (n : Errnos) (e : IoError) : bool :=
  match raw_os_error e with
  | Some x => existsb (Z.eqb x) [EMSGSIZE n; EPERM n; EACCES n; ENOBUFS n]
  | None => false
  end.

Definition read_verdict (n : Errnos) (e : IoError) : Step :=
  if is_per_packet_error n e then Continue else StopSession.

(** [run]: zero switches the mitigation off. *)
Definition session_new (quarter_id : Z) (ctx : Context) (now stall_budget : Z) : Session :=
  {| quarter_id := quarter_id;
     decoder := new;
     unanswered_budget := if unanswered_packet_budget ctx =? 0 then None
                          else Some (unanswered_packet_budget ctx);
     charged_unanswered := 0;
     oversize_drops := sampler_new;
     evictions := sampler_new;
     deadline := now + stall_budget |}.

(** Assignments. *)
Definition set_decoder (d : CapsuleDecoder) (s : Session) : Session :=
  mkSession (quarter_id s) d (unanswered_budget s) (charged_unanswered s) (oversize_drops s)
    (evictions s) (deadline s).
Definition set_unanswered (b : option Z) (charged : Z) (s : Session) : Session :=
  mkSession (quarter_id s) (decoder s) b charged (oversize_drops s) (evictions s) (deadline s).
Definition set_samplers (drops evs : Sampler) (s : Session) : Session :=
  mkSession (quarter_id s) (decoder s) (unanswered_budget s) (charged_unanswered s) drops evs
    (deadline s).
Definition set_deadline (t : Z) (s : Session) : Session :=
  mkSession (quarter_id s) (decoder s) (unanswered_budget s) (charged_unanswered s)
    (oversize_drops s) (evictions s) t.

Section Sessions.
Context {World : Type}.
Context (clock : World → Z).
Context (socket_send : World → bytes → World * result unit IoError).
Context (max_datagram_size : World → option Z).
Context (datagram_send_buffer_space : World → Z).
Context (write_within : World → bytes → World * WriteEnd).
Context (errnos : Errnos) (stall_budget : Z).

(** The world, the connection's context and the session. *)
Record Sess := mkSess { world : World; ctx : Context; session : Session }.

Definition touch (x : Sess) : Sess :=
  mkSess (world x) (ctx x) (set_deadline (clock (world x) + stall_budget) (session x)).

(** The charge of one packet before the target has answered: [None] when there is
    nothing to charge or the charge is paid, the step to take otherwise. *)
Definition charge_packet (x : Sess) : Sess * option (Step * list Action) :=
  match unanswered_budget (session x) with
  | None => (x, None)
  | Some remaining =>
      if remaining =? 0 then (x, Some (Continue, []))
      else
        let '(c, paid) := charge_unanswered (ctx x) in
        if paid then
          (mkSess (world x) c
             (set_unanswered (Some (remaining - 1)) (charged_unanswered (session x) + 1) (session x)),
           None)
        else
          let c := set_closures (record (unanswered_closures c)).1 c in
          (mkSess (world x) c (session x),
           Some (Aborted H3_REQUEST_CANCELLED, [ResetStream H3_REQUEST_CANCELLED]))
  end.

Definition forward_to_target (payload : bytes) (x : Sess) : Sess * list Action * Step :=
  if MAX_UDP_PAYLOAD <? blen payload then
    (x, [ResetStream H3_DATAGRAM_ERROR], Aborted H3_DATAGRAM_ERROR)
  else
    match charge_packet x with
    | (x, Some (step, actions)) => (x, actions, step)
    | (x, None) =>
        let '(w, sent) := socket_send (world x) payload in
        let x := mkSess w (ctx x) (session x) in
        match sent with
        | Ok _ => (touch x, [SendTarget payload], Continue)
        | Err e =>
            (x, [SendTarget payload],
             if is_per_packet_error errnos e then Continue else StopSession)
        end
    end.

Definition datagram_limit (x : Sess) : option Z :=
  if datagrams_allowed (ctx x) then max_datagram_size (world x) else None.

(** The target answered: the cap is lifted and what was charged is given back. *)
Definition answered (x : Sess) : Sess :=
  let charged := charged_unanswered (session x) in
  touch (mkSess (world x) (refund_unanswered charged (ctx x))
           (set_unanswered None 0 (session x))).

(** [None] is the panic of an encoder. *)
Definition forward_to_client (packet : bytes) (x : Sess) : option (Sess * list Action * Step) :=
  let x := answered x in
  let s := session x in
  let encoded_len := Z.of_nat (encoded_len (quarter_id s) CONTEXT_ID_UDP_PAYLOAD (length packet)) in
  match datagram_limit x with
  | Some limit =>
      let '(drops, g) := grade encoded_len limit (oversize_drops s) in
      let s := set_samplers drops (evictions s) s in
      match g with
      | Clear =>
          encoded ← encode_udp_payload (quarter_id s) packet;
          let space := datagram_send_buffer_space (world x) in
          let '(evs, _) := grade (blen encoded) space (evictions s) in
          Some (mkSess (world x) (ctx x) (set_samplers drops evs s), [SendDatagram encoded], Continue)
      | Report _ | Quiet => Some (mkSess (world x) (ctx x) s, [], Continue)
      end
  | None =>
      encoded ← encode_datagram CONTEXT_ID_UDP_PAYLOAD packet;
      let '(w, r) := write_within (world x) encoded in
      let x := mkSess w (ctx x) s in
      Some (match r with
            | WriteDone => (x, [SendCapsule encoded], Continue)
            | WriteError => (x, [SendCapsule encoded], StopSession)
            | WriteElapsed =>
                (x, [SendCapsule encoded; ResetStream H3_REQUEST_CANCELLED],
                 Aborted H3_REQUEST_CANCELLED)
            end)
  end.

(** One turn of the loop over the capsules of a chunk. *)
Definition capsules_step (s : list Action * Sess) : (list Action * Sess) + (Sess * list Action * Step) :=
  let '(actions, x) := s in
  let '(d, r) := next_capsule (decoder (session x)) in
  let x := mkSess (world x) (ctx x) (set_decoder d (session x)) in
  match r with
  | Ok (Some (CapsuleDatagram context_id payload)) =>
      if negb (context_id =? CONTEXT_ID_UDP_PAYLOAD) then inl (actions, x)
      else
        let '(x, more, step) := forward_to_target payload x in
        match step with
        | Continue => inl (actions ++ more, x)
        | over => inr (x, actions ++ more, over)
        end
  | Ok None => inr (x, actions, Continue)
  | Err _ =>
      inr (x, actions ++ [ResetStream H3_DATAGRAM_ERROR], Aborted H3_DATAGRAM_ERROR)
  end.

Lemma charge_packet_decoder x x' o :
  charge_packet x = (x', o) → decoder (session x') = decoder (session x).
Proof. unfold charge_packet. repeat case_match; by intros [= <- <-]. Qed.

Lemma forward_to_target_decoder payload x x' actions step :
  forward_to_target payload x = (x', actions, step) → decoder (session x') = decoder (session x).
Proof.
  unfold forward_to_target. case_match; [by intros [= <- <- <-]|].
  destruct (charge_packet x) as [x1 [[st ac]|]] eqn:E; apply charge_packet_decoder in E.
  - by intros [= <- <- <-].
  - destruct (socket_send _ _) as [w [u|e]]; by intros [= <- <- <-].
Qed.

#[export] Program Instance capsules_loop : Loop capsules_step :=
  {| loop_measure s := size_of next_capsule (decoder (session s.2)) |}.
Next Obligation.
  intros [actions x] [actions' x']. unfold capsules_step; cbn [snd].
  destruct (next_capsule (decoder (session x))) as [d [[[ctx payload]|]|e]] eqn:E; try done.
  pose proof (next_shrinks next_capsule _ _ _ E) as Hlt.
  destruct (ctx =? CONTEXT_ID_UDP_PAYLOAD); cbn [negb]; [|by intros [= <- <-]].
  destruct (forward_to_target _ _) as [[x1 more] step] eqn:Ef.
  apply forward_to_target_decoder in Ef. destruct step; try done. intros [= <- <-]. by rewrite Ef.
Qed.

(** What [recv_data] returned: bytes, the end, or an error. *)
Inductive Chunk := ChunkData (data : bytes) | ChunkEnd | ChunkError.

Definition handle_stream_chunk (chunk : Chunk) (x : Sess) : Sess * list Action * Step :=
  match chunk with
  | ChunkData data =>
      let x := mkSess (world x) (ctx x)
                 (set_decoder (push_chunk (decoder (session x)) data) (session x)) in
      run capsules_step ([], x)
  | ChunkEnd =>
      if at_capsule_boundary (decoder (session x)) then (x, [], StopSession)
      else (x, [ResetStream H3_MESSAGE_ERROR], Aborted H3_MESSAGE_ERROR)
  | ChunkError => (x, [], StopSession)
  end.

Inductive Event :=
  | Inbound (payload : option bytes)
  | FromSocket (received : result bytes IoError)
  | FromStream (chunk : Chunk).

Definition handle_event (e : Event) (x : Sess) : option (Sess * list Action * Step) :=
  match e with
  | Inbound (Some payload) => Some (forward_to_target payload x)
  | Inbound None => Some (x, [], StopSession)
  | FromSocket (Ok packet) => forward_to_client packet x
  | FromSocket (Err error) => Some (x, [], read_verdict errnos error)
  | FromStream chunk => Some (handle_stream_chunk chunk x)
  end.

(** [before_deadline]: the clock is read first, and then the sources are waited for.
    [ready] is what they deliver, if they do before the timer fires, with what becomes
    of the world meanwhile: [timeout_at] polls the sources before the timer, so a task
    that is polled late is handed an event past its deadline. *)
Definition before_deadline (x : Sess) (ready : option ((World → World) * Event))
    : option (Sess * Event) :=
  if deadline (session x) <=? clock (world x) then None
  else
    match ready with
    | Some (meanwhile, event) => Some (mkSess (meanwhile (world x)) (ctx x) (session x), event)
    | None => None
    end.

(** One turn of the loop: on, or over with the actions that end the stream. *)
Inductive Turn := Goes (x : Sess) (actions : list Action) | Ends (x : Sess) (actions : list Action).

Definition tidy : list Action := [StopReceiving H3_NO_ERROR; FinishStream].

Definition turn (ready : option ((World → World) * Event)) (x : Sess) : option Turn :=
  match before_deadline x ready with
  | None => Some (Ends x tidy)
  | Some (x, event) =>
      '(x, actions, step) ← handle_event event x;
      Some (match step with
            | Continue => Goes x actions
            | StopSession => Ends x (actions ++ tidy)
            | Aborted code => Ends x (actions ++ [StopReceiving code])
            end)
  end.

(** The session over a sequence of turns, each with the world as it is by then:
    where it stands, what it did, and whether it is over. *)
Fixpoint session_run (arrivals : list ((World → World) * option ((World → World) * Event)))
    (x : Sess) (done_ : list Action) : option (Sess * list Action * bool) :=
  match arrivals with
  | [] => Some (x, done_, false)
  | (between, ready) :: arrivals =>
      t ← turn ready (mkSess (between (world x)) (ctx x) (session x));
      match t with
      | Goes x actions => session_run arrivals x (done_ ++ actions)
      | Ends x actions => Some (x, done_ ++ actions, true)
      end
  end.
End Sessions.

(** ** Establishing a session *)

Section Establish.
Context `{!PercentDecode} {Socket QuinnError : Type}.
(** The socket calls of the kernel, and [net::holds_address]. *)
Context (udp_bind : SocketAddr → result Socket IoError).
Context (udp_connect : Socket → SocketAddr → result Socket IoError).
Context (set_dont_fragment : Socket → Socket).
Context (holds_address : IpAddr → bool).
(** The numbers of libc's error constants. *)
Context (EMFILE ENFILE ENOBUFS ENOMEM EADDRNOTAVAIL : Z).

Definition unspecified (family_of : IpAddr) : SocketAddr :=
  let z := as_u8 0 in
  mkSocketAddr (match family_of with
                | V4 _ => V4 (mk4 z z z z)
                | V6 _ => V6 (mk6 z z z z z z z z z z z z z z z z)
                end) 0.

Definition connected_udp_socket (target : SocketAddr) : result Socket IoError :=
  let? socket := udp_bind (unspecified (ip target)) in
  udp_connect (set_dont_fragment socket) target.

Fixpoint bind_from (last : option Unreachable) (addresses : list SocketAddr)
    : result Socket Unreachable :=
  match addresses with
  | [] => Err (default no_addresses last)
  | address :: addresses =>
      match connected_udp_socket address with
      | Ok socket => Ok socket
      | Err e => bind_from (Some (mkUnreachable (Some address) e)) addresses
      end
  end.

Definition bind_any (addresses : list SocketAddr) : result Socket Unreachable :=
  bind_from None addresses.

(** [run] up to the session: the context, what was done to the request stream,
    and the session with its socket when there is one.  [claimed]: the stream's
    datagrams are already somebody's; [lookup]: how the resolver would answer.
    [None]: a panic, or a wait without an end. *)
Definition establish (req : Request) (stream_id : Z) (ctx : Context) (claimed : bool)
    (lookup : bytes → Z → Lookup) (now stall_budget : Z) (w : @WriteOutcome QuinnError)
    : option (Context * list Effect * option (Session * Socket)) :=
  let refused status := effects ← refuse status w; Some (ctx, effects, None) in
  match validate req with
  | Err _ => refused BAD_REQUEST
  | Ok _ =>
      match parse_target (default [] (path req)) (query req) with
      | Err _ => refused BAD_REQUEST
      | Ok (host, port) =>
          let quarter := quarter_stream_id stream_id in
          if claimed then refused INTERNAL_SERVER_ERROR
          else
            '(ctx, effects, admitted) ←
              admit_target holds_address port ctx (lookup host port) capsule_fields w;
            match admitted with
            | None => Some (ctx, effects, None)
            | Some allowed =>
                match bind_any allowed with
                | Err failure =>
                    refusal ← refuse_unreachable EMFILE ENFILE ENOBUFS ENOMEM EADDRNOTAVAIL failure w;
                    Some (ctx, effects ++ refusal, None)
                | Ok socket =>
                    fields ← capsule_fields;
                    '(answer, r) ← respond OK fields w;
                    Some (ctx, effects ++ answer,
                          if landed r then Some (session_new quarter ctx now stall_budget, socket)
                          else None)
                end
            end
      end
  end.
End Establish.
