(* ===== verification/UdpFacts.v ===== *)
(** * What a CONNECT-UDP session promises (src/src/tunnel/udp.rs)

    The amplification budgets over every session of a connection, how a session
    ends, what it relays in either direction, when it is idle, and what has been
    answered by the time it exists. *)

From S2P Require Import Prelude Datagram Incremental Capsule H3Error.
From S2P Require Import Policy Logfmt Message Exchange Status StatusFacts Target Net Context UdpSession.

#[local] Open Scope Z_scope.

Section Facts.
Context {World : Type}.
Context (clock : World → Z).
Context (socket_send : World → bytes → World * result unit IoError).
Context (max_datagram_size : World → option Z).
Context (datagram_send_buffer_space : World → Z).
Context (write_within : World → bytes → World * WriteEnd).
Context (errnos : Errnos) (stall_budget : Z).

#[local] Abbreviation Sess := (@Sess World).
#[local] Abbreviation forward_to_target := (forward_to_target clock socket_send errnos stall_budget).
#[local] Abbreviation forward_to_client :=
  (forward_to_client clock max_datagram_size datagram_send_buffer_space write_within stall_budget).
#[local] Abbreviation capsules_step := (capsules_step clock socket_send errnos stall_budget).
#[local] Abbreviation handle_stream_chunk :=
  (handle_stream_chunk clock socket_send errnos stall_budget).
#[local] Abbreviation handle_event :=
  (handle_event clock socket_send max_datagram_size datagram_send_buffer_space write_within errnos
     stall_budget).
#[local] Abbreviation turn :=
  (turn clock socket_send max_datagram_size datagram_send_buffer_space write_within errnos
     stall_budget).
#[local] Abbreviation session_run :=
  (session_run clock socket_send max_datagram_size datagram_send_buffer_space write_within errnos
     stall_budget).
Implicit Types x : Sess.

(** ** The capsule loop

    A relation between the state before a chunk, the state after it and what was
    done that holds of each payload and composes holds of the whole chunk. *)

Lemma capsules_ind (R : Sess → Sess → list Action → Prop) :
  (∀ x d, R x (mkSess (world x) (ctx x) (set_decoder d (session x))) []) →
  (∀ x x' actions step payload, forward_to_target payload x = (x', actions, step) →
     R x x' actions) →
  (∀ x1 x2 x3 l1 l2, R x1 x2 l1 → R x2 x3 l2 → R x1 x3 (l1 ++ l2)) →
  ∀ x x' actions step, run capsules_step ([], x) = (x', actions, step) →
  ∃ more tail, actions = more ++ tail ∧ R x x' more ∧
    (tail = [] ∨ tail = [ResetStream H3_DATAGRAM_ERROR] ∧ step = Aborted H3_DATAGRAM_ERROR).
Proof.
  intros Hdec Hfwd Htrans x x' actions step Hrun.
  cut (let '(x', actions, step) := run capsules_step ([], x) in
    ∃ more tail, actions = more ++ tail ∧ R x x' more ∧
    (tail = [] ∨ tail = [ResetStream H3_DATAGRAM_ERROR] ∧ step = Aborted H3_DATAGRAM_ERROR));
    [by rewrite Hrun|]. clear Hrun.
  apply (run_invariant capsules_step (λ s, R x s.2 s.1)).
  - intros [before y] HR. unfold UdpSession.capsules_step. cbn [fst snd] in HR.
    destruct (next_capsule (decoder (session y))) as [d r].
    pose proof (Htrans _ _ _ _ _ HR (Hdec y d)) as H1. rewrite app_nil_r in H1.
    destruct r as [[[c payload]|]|e].
    + destruct (negb _); [done|]. destruct (forward_to_target _ _) as [[x2 a2] st] eqn:Ef.
      pose proof (Htrans _ _ _ _ _ H1 (Hfwd _ _ _ _ _ Ef)) as H2.
      destruct st; [done|exists (before ++ a2), []; rewrite app_nil_r; auto..].
    + exists before, []. rewrite app_nil_r. auto.
    + exists before, [ResetStream H3_DATAGRAM_ERROR]. auto.
  - cbn. pose proof (Hdec x (decoder (session x))) as H1. by destruct x as [? ? []].
Qed.

(** ** The amplification budgets *)

Definition is_attempt (a : Action) : bool := match a with SendTarget _ => true | _ => false end.

(** Packets handed to the socket. *)
Definition attempts (l : list Action) : Z := blen (List.filter is_attempt l).

Lemma attempts_app l1 l2 : attempts (l1 ++ l2) = attempts l1 + attempts l2.
Proof. unfold attempts, blen. rewrite List.filter_app, length_app. lia. Qed.

Lemma attempts_nonneg l : 0 ≤ attempts l.
Proof. unfold attempts, blen. lia. Qed.

(** What [n] packets cost: a session the target has answered pays nothing, one it
    has not pays for each from its own budget and from the connection's. *)
Definition pays (x x' : Sess) (n : Z) : Prop :=
  unanswered_packet_budget (ctx x') = unanswered_packet_budget (ctx x) ∧
  unanswered_connection_total (ctx x') = unanswered_connection_total (ctx x) ∧
  match unanswered_budget (session x) with
  | None =>
      unanswered_budget (session x') = None ∧
      charged_unanswered (session x') = charged_unanswered (session x) ∧
      unanswered_connection_budget (ctx x') = unanswered_connection_budget (ctx x)
  | Some r =>
      0 ≤ n ∧
      unanswered_budget (session x') = Some (r - n) ∧ (0 ≤ r → n ≤ r) ∧
      charged_unanswered (session x') = charged_unanswered (session x) + n ∧
      unanswered_connection_budget (ctx x') = unanswered_connection_budget (ctx x) - n ∧
      (0 ≤ unanswered_connection_budget (ctx x) → n ≤ unanswered_connection_budget (ctx x))
  end.

Lemma pays_trans x1 x2 x3 n m : pays x1 x2 n → pays x2 x3 m → pays x1 x3 (n + m).
Proof.
  unfold pays. intros (Ha & Hb & H1) (Hc & Hd & H2).
  destruct (unanswered_budget (session x1)) as [r|].
  - destruct H1 as (? & Hu & ? & ? & ? & ?). rewrite Hu in H2.
    destruct H2 as (? & Hu' & ? & ? & ? & ?). split_and!; try lia. rewrite Hu'. f_equal. lia.
  - destruct H1 as (Hu & ? & ?). rewrite Hu in H2. destruct H2 as (? & ? & ?).
    split_and!; congruence || lia.
Qed.

Lemma pays_same x x' :
  ctx x' = ctx x → unanswered_budget (session x') = unanswered_budget (session x) →
  charged_unanswered (session x') = charged_unanswered (session x) → pays x x' 0.
Proof.
  intros Hc Hu Hch. unfold pays. rewrite Hc, Hu, Hch.
  destruct (unanswered_budget (session x)); split_and!; try done; try lia. f_equal. lia.
Qed.

Lemma charge_packet_pays x x' o :
  unanswered_packet_budget (ctx x) ≠ 0 → charge_packet x = (x', o) →
  match o with
  | None => pays x x' 1
  | Some (_, actions) => pays x x' 0 ∧ attempts actions = 0
  end.
Proof.
  intros HB. unfold charge_packet.
  destruct (unanswered_budget (session x)) as [r|] eqn:Er.
  - destruct (Z.eqb_spec r 0); [intros [= <- <-]; split; [by apply pays_same|done]|].
    unfold charge_unanswered. rewrite (proj2 (Z.eqb_neq _ 0)) by done.
    destruct (Z.ltb_spec (unanswered_connection_budget (ctx x) - 1) 0); intros [= <- <-].
    + split; [|done]. unfold pays; cbn. rewrite Er. split_and!; try done; try lia. f_equal; lia.
    + unfold pays; cbn. rewrite Er. split_and!; done || lia.
  - intros [= <- <-]. unfold pays. by rewrite Er.
Qed.

Lemma forward_to_target_pays payload x x' actions step :
  unanswered_packet_budget (ctx x) ≠ 0 →
  forward_to_target payload x = (x', actions, step) → pays x x' (attempts actions).
Proof.
  intros HB. unfold UdpSession.forward_to_target. case_match; [intros [= <- <- <-]; by apply pays_same|].
  destruct (charge_packet x) as [x1 [[st ac]|]] eqn:E; apply charge_packet_pays in E; try done.
  - intros [= <- <- <-]. destruct E as [HE ->]. done.
  - destruct (socket_send _ _) as [w [u|e]]; intros [= <- <- <-];
      replace (attempts [SendTarget payload]) with (1 + 0) by done;
      (eapply pays_trans; [exact E|by apply pays_same]).
Qed.

(** The [ctx] of an event is the same connection's throughout. *)
Lemma handle_event_pays e x x' actions step :
  unanswered_packet_budget (ctx x) ≠ 0 →
  (∀ packet, e ≠ FromSocket (Ok packet)) →
  handle_event e x = Some (x', actions, step) → pays x x' (attempts actions).
Proof.
  intros HB Hne. destruct e as [[payload|]|[packet|error]|chunk]; cbn [UdpSession.handle_event].
  - intros [= H]. by eapply forward_to_target_pays.
  - intros [= <- <- <-]. by apply pays_same.
  - by destruct (Hne packet).
  - intros [= <- <- <-]. by apply pays_same.
  - intros [= H]. destruct chunk as [data| |]; cbn [UdpSession.handle_stream_chunk] in H.
    + eapply (capsules_ind (λ x x' l, unanswered_packet_budget (ctx x) ≠ 0 →
        pays x x' (attempts l))) in H as (more & tail & -> & HR & Ht).
      * rewrite attempts_app.
        replace (attempts tail) with 0 by (destruct Ht as [->|[-> _]]; done).
        rewrite Z.add_0_r. change more with ([] ++ more). rewrite attempts_app.
        eapply pays_trans; [by apply pays_same|by apply HR].
      * intros y d _. by apply pays_same.
      * intros. by eapply forward_to_target_pays.
      * intros x1 x2 x3 l1 l2 H1 H2 Hb. rewrite attempts_app. specialize (H1 Hb).
        eapply pays_trans; [done|]. apply H2. by destruct H1 as [-> _].
    + case_match; injection H as <- <- <-; by apply pays_same.
    + injection H as <- <- <-. by apply pays_same.
Qed.

Lemma answered_refunds packet x x' actions step :
  forward_to_client packet x = Some (x', actions, step) →
  ctx x' = refund_unanswered (charged_unanswered (session x)) (ctx x) ∧
  unanswered_budget (session x') = None ∧ charged_unanswered (session x') = 0.
Proof.
  unfold UdpSession.forward_to_client. destruct (datagram_limit _ _) as [limit|].
  - destruct (grade _ _ _) as [drops []]; cbn; [|by intros [= <- _ _]..].
    destruct (encode_udp_payload _ _); cbn; [|done].
    destruct (grade _ _ _) as [evs g]; cbn. by intros [= <- _ _].
  - destruct (encode_datagram _ _); cbn; [|done].
    destruct (write_within _ _) as [w' []]; by intros [= <- _ _].
Qed.

(** *** Every session of a connection *)

(** A session with what it did so far, closed or not. *)
Record Member := mkMember { m_session : Session; m_attempts : Z; m_answered : bool }.

Definition from_target (e : Event) : bool :=
  match e with FromSocket (Ok _) => true | _ => false end.

(** Sessions open, take events in any order and any world, and the rest of the
    connection's state changes as it likes. *)
Inductive fleet_step : Context * list Member → Context * list Member → Prop :=
  | fleet_open c ms quarter now :
      fleet_step (c, ms)
        (c, ms ++ [mkMember (session_new quarter c now stall_budget) 0 false])
  | fleet_event c ms i m e w x' actions step :
      ms !! i = Some m → handle_event e (mkSess w c (m_session m)) = Some (x', actions, step) →
      fleet_step (c, ms)
        (ctx x', <[i := mkMember (session x') (m_attempts m + attempts actions)
                          (m_answered m || from_target e)]> ms)
  | fleet_other c c' ms :
      unanswered_packet_budget c' = unanswered_packet_budget c →
      unanswered_connection_total c' = unanswered_connection_total c →
      unanswered_connection_budget c' = unanswered_connection_budget c →
      fleet_step (c, ms) (c', ms).

(** Packets handed to the sockets of targets that have never answered. *)
Definition unanswered_attempts (ms : list Member) : Z :=
  foldr (λ m acc, (if m_answered m then 0 else m_attempts m) + acc) 0 ms.

Definition charges (ms : list Member) : Z :=
  foldr (λ m acc, charged_unanswered (m_session m) + acc) 0 ms.

Lemma charges_insert ms i m m' :
  ms !! i = Some m →
  charges (<[i := m']> ms) =
  charges ms - charged_unanswered (m_session m) + charged_unanswered (m_session m').
Proof.
  unfold charges. revert i. induction ms as [|m0 ms IH]; intros [|i]; try done.
  - cbn. intros [= ->]. lia.
  - intros Hi. cbn [lookup list_lookup] in Hi. specialize (IH i Hi).
    change (<[S i := m']> (m0 :: ms)) with (m0 :: <[i := m']> ms). cbn [foldr]. lia.
Qed.

Lemma charges_app ms ms' : charges (ms ++ ms') = charges ms + charges ms'.
Proof. unfold charges. induction ms; cbn; lia. Qed.

Definition member_ok (B : Z) (m : Member) : Prop :=
  if m_answered m then
    unanswered_budget (m_session m) = None ∧ charged_unanswered (m_session m) = 0
  else
    0 ≤ m_attempts m ≤ B ∧ charged_unanswered (m_session m) = m_attempts m ∧
    unanswered_budget (m_session m) = Some (B - m_attempts m).

Definition fleet_ok (B T : Z) (f : Context * list Member) : Prop :=
  unanswered_packet_budget f.1 = B ∧ unanswered_connection_total f.1 = T ∧
  0 ≤ unanswered_connection_budget f.1 ∧
  unanswered_connection_budget f.1 + charges f.2 = T ∧ Forall (member_ok B) f.2.

Lemma charges_nonneg B ms : Forall (member_ok B) ms → 0 ≤ charges ms.
Proof.
  unfold charges, member_ok. induction 1 as [|m ms Hm _ IH]; cbn; [lia|].
  destruct (m_answered m); lia.
Qed.

Lemma charges_attempts B ms : Forall (member_ok B) ms → charges ms = unanswered_attempts ms.
Proof.
  unfold charges, unanswered_attempts, member_ok. induction 1 as [|m ms Hm _ IH]; cbn; [done|].
  destruct (m_answered m); lia.
Qed.

Lemma member_charge_le B ms i m :
  Forall (member_ok B) ms → ms !! i = Some m → 0 ≤ charged_unanswered (m_session m) ≤ charges ms.
Proof.
  intros Hall. revert i. induction Hall as [|m0 ms Hm Hms IH]; intros [|i]; cbn; try done.
  - intros [= ->]. pose proof (charges_nonneg B ms Hms). unfold member_ok in Hm.
    fold (charges ms). destruct (m_answered m); lia.
  - intros Hi. specialize (IH i Hi). pose proof (charges_nonneg B ms Hms). unfold member_ok in Hm.
    fold (charges ms). destruct (m_answered m0); lia.
Qed.

Lemma fleet_event_ok B T c ms i m e w x' actions step :
  0 < B → T ≤ u32_max → fleet_ok B T (c, ms) → ms !! i = Some m →
  handle_event e (mkSess w c (m_session m)) = Some (x', actions, step) →
  fleet_ok B T (ctx x', <[i := mkMember (session x') (m_attempts m + attempts actions)
                                (m_answered m || from_target e)]> ms).
Proof.
  intros HB HT (Hb & Ht & Hpos & Hsum & Hall) Hi He. cbn [fst snd] in *.
  pose proof (Forall_lookup_1 _ _ _ _ Hall Hi) as Hm.
  pose proof (member_charge_le B ms i m Hall Hi) as Hle.
  pose proof (charges_insert ms i m (mkMember (session x') (m_attempts m + attempts actions)
    (m_answered m || from_target e)) Hi) as Hins. cbn [m_session] in Hins.
  destruct (from_target e) eqn:Ee.
  - destruct e as [|[packet|]|]; try done. apply answered_refunds in He as (Hc & Hu & Hch).
    cbn [session ctx] in *. rewrite orb_true_r in *.
    assert (unanswered_connection_budget (ctx x') =
      unanswered_connection_budget c + charged_unanswered (m_session m)) as Hbud.
    { rewrite Hc. unfold refund_unanswered. rewrite (proj2 (Z.eqb_neq _ 0)) by lia. cbn [orb].
      destruct (Z.eqb_spec (charged_unanswered (m_session m)) 0); [lia|].
      cbn. unfold saturating_add. fold u32_max. lia. }
    split_and!; cbn [fst snd]; [rewrite Hc; unfold refund_unanswered; by case_match|
      rewrite Hc; unfold refund_unanswered; by case_match|lia|lia|].
    apply Forall_insert; [done|]. done.
  - rewrite orb_false_r in *.
    apply handle_event_pays in He as (H1 & H2 & H3);
      [|cbn; lia|by intros packet ->]. cbn [session ctx] in *.
    pose proof (attempts_nonneg actions).
    unfold member_ok in Hm. destruct (m_answered m) eqn:Ea.
    + destruct Hm as [Hu Hch]. rewrite Hu in H3. destruct H3 as (Hu' & Hch' & Hbud).
      split_and!; cbn [fst snd]; [congruence|congruence|lia|lia|].
      apply Forall_insert; [done|]. split; cbn; [done|lia].
    + destruct Hm as (Hat & Hch & Hu). rewrite Hu in H3.
      destruct H3 as (Hn & Hu' & Hr & Hch' & Hbud & Hcap).
      split_and!; cbn [fst snd]; [congruence|congruence|lia|lia|].
      apply Forall_insert; [done|]. unfold member_ok. cbn [m_answered m_attempts m_session].
      split_and!; [lia|lia|lia|]. rewrite Hu'. f_equal. lia.
Qed.

Lemma fleet_step_ok B T f f' :
  0 < B → T ≤ u32_max → fleet_ok B T f → fleet_step f f' → fleet_ok B T f'.
Proof.
  intros HB HT Hok Hstep. destruct Hstep; [| by eapply fleet_event_ok |].
  - destruct Hok as (Hb & Ht & Hpos & Hsum & Hall). cbn [fst snd] in *.
    split_and!; cbn [fst snd]; try done.
    + rewrite charges_app. cbn. lia.
    + apply Forall_app. split; [done|]. constructor; [|done].
      unfold member_ok. cbn. rewrite Hb, (proj2 (Z.eqb_neq _ 0)) by lia.
      split_and!; try lia. f_equal. lia.
  - destruct Hok as (Hb & Ht & Hpos & Hsum & Hall). cbn [fst snd] in *.
    split_and!; cbn [fst snd]; try done; congruence || lia.
Qed.

(** C10: the amplification bound of RFC 9298, section 7. However the sessions of
    a connection interleave, whatever the socket and the peer do, a session
    whose target has never answered has handed at most the budget of packets to
    its socket, all such sessions together at most eight times that, and what is
    left of the connection's allowance is exactly its total less what they
    sent, so a session whose target did answer has cost nothing. *)
Theorem unanswered_bounded settings datagrams c ms :
  let B := cfg_unanswered_packet_budget settings in
  let T := Z.min (8 * B) u32_max in
  0 < B ≤ u32_max →
  rtc fleet_step (context_new settings datagrams, []) (c, ms) →
  (∀ m, m ∈ ms → m_answered m = false → m_attempts m ≤ B) ∧
  unanswered_attempts ms ≤ T ∧
  unanswered_connection_budget c = T - unanswered_attempts ms.
Proof.
  intros B T HB Hrtc.
  assert (fleet_ok B T (c, ms)) as (Hb & Ht & Hpos & Hsum & Hall).
  { eapply (rtc_ind_l (λ f, fleet_ok B T f → fleet_ok B T (c, ms))) in Hrtc; eauto.
    - intros f f' Hstep _ IH Hok. apply IH. eapply fleet_step_ok; eauto; lia.
    - split_and!; cbn [fst snd context_new unanswered_packet_budget unanswered_connection_total
        unanswered_connection_budget]; try done; unfold saturating_mul32,
        CONNECTION_UNANSWERED_MULTIPLIER; fold B; unfold T, charges; cbn [foldr]; lia. }
  cbn [fst snd] in *. rewrite (charges_attempts B) in Hsum by done.
  split_and!; [|lia|lia]. intros m Hin Ha.
  rewrite Forall_forall in Hall. specialize (Hall m Hin). unfold member_ok in Hall.
  rewrite Ha in Hall. lia.
Qed.

(** ** How a session ends *)

(** Packets in either direction, nothing that ends the stream. *)
Definition is_traffic (a : Action) : bool :=
  match a with SendTarget _ | SendDatagram _ | SendCapsule _ => true | _ => false end.

Definition traffic (l : list Action) : Prop := Forall (λ a, is_traffic a = true) l.

(** What the actions of a step say about its verdict: an abort has just reset the
    stream with the code it carries, anything else is traffic. *)
Definition step_ending (actions : list Action) (step : Step) : Prop :=
  match step with
  | Aborted code =>
      code ∈ [H3_DATAGRAM_ERROR; H3_MESSAGE_ERROR; H3_REQUEST_CANCELLED] ∧
      ∃ sent, actions = sent ++ [ResetStream code] ∧ traffic sent
  | _ => traffic actions
  end.

Lemma traffic_app l1 l2 : traffic (l1 ++ l2) ↔ traffic l1 ∧ traffic l2.
Proof. apply Forall_app. Qed.

Lemma charge_packet_ending x x' step actions :
  charge_packet x = (x', Some (step, actions)) → step_ending actions step.
Proof.
  unfold charge_packet. repeat case_match; try done; intros [= <- <- <-]; cbn.
  - by apply Forall_nil.
  - split; [set_solver|]. exists []. split; [done|by apply Forall_nil].
Qed.

Lemma forward_to_target_ending payload x x' actions step :
  forward_to_target payload x = (x', actions, step) → step_ending actions step.
Proof.
  unfold UdpSession.forward_to_target. case_match.
  { intros [= <- <- <-]. split; [set_solver|]. exists []. split; [done|by apply Forall_nil]. }
  destruct (charge_packet x) as [x1 [[st ac]|]] eqn:E.
  - intros [= <- <- <-]. by eapply charge_packet_ending.
  - assert (traffic [SendTarget payload]) by (by repeat constructor).
    destruct (socket_send _ _) as [w [u|e]]; [by intros [= <- <- <-]|].
    destruct (is_per_packet_error errnos e); by intros [= <- <- <-].
Qed.

Lemma capsules_ending x :
  let '(_, actions, step) := run capsules_step ([], x) in step_ending actions step.
Proof.
  apply (run_invariant capsules_step (λ s, traffic s.1)); [|by apply Forall_nil].
  intros [before y] Hb. unfold UdpSession.capsules_step. cbn [fst snd] in Hb.
  destruct (next_capsule (decoder (session y))) as [d [[[c payload]|]|e]]; [|done|].
  - destruct (negb _); [done|].
    destruct (forward_to_target payload _) as [[x2 a2] st] eqn:Ef.
    apply forward_to_target_ending in Ef as He. destruct st; cbn [step_ending] in He.
    + by apply traffic_app.
    + by apply traffic_app.
    + destruct He as (Hc & sent & -> & Hs). split; [done|].
      exists (before ++ sent). split; [by rewrite app_assoc|by apply traffic_app].
  - split; [set_solver|]. by exists before.
Qed.

Lemma handle_event_ending e x x' actions step :
  handle_event e x = Some (x', actions, step) → step_ending actions step.
Proof.
  destruct e as [[payload|]|[packet|error]|chunk]; cbn [UdpSession.handle_event].
  - intros [= Hf]. by eapply forward_to_target_ending.
  - intros [= <- <- <-]. apply Forall_nil. done.
  - unfold UdpSession.forward_to_client. destruct (datagram_limit _ _) as [limit|].
    + destruct (grade _ _ _) as [drops []]; cbn; [|intros [= _ <- <-]; by apply Forall_nil..].
      destruct (encode_udp_payload _ _); cbn; [|done].
      destruct (grade _ _ _) as [evs g]; cbn. intros [= _ <- <-]. by repeat constructor.
    + destruct (encode_datagram _ _) as [en|]; cbn; [|done].
      destruct (write_within _ _) as [w' []]; intros [= _ <- <-]; cbn; [by repeat constructor..|].
      split; [set_solver|]. exists [SendCapsule en]. split; [done|by repeat constructor].
  - intros [= <- <- <-]. unfold read_verdict. destruct (is_per_packet_error _ _); by apply Forall_nil.
  - intros [= Hc]. destruct chunk as [data| |]; cbn [UdpSession.handle_stream_chunk] in Hc.
    + pose proof (capsules_ending (mkSess (world x) (ctx x)
        (set_decoder (push_chunk (decoder (session x)) data) (session x)))) as He. by rewrite Hc in He.
    + destruct (at_capsule_boundary _); injection Hc as <- <- <-; [by apply Forall_nil|].
      split; [set_solver|]. exists []. split; [done|by apply Forall_nil].
    + injection Hc as <- <- <-. by apply Forall_nil.
Qed.

(** How the two halves of the request stream end: together, and with one verdict. *)
Inductive stream_ending : list Action → Prop :=
  | ends_tidily : stream_ending [StopReceiving H3_NO_ERROR; FinishStream]
  | ends_aborted code :
      code ∈ [H3_DATAGRAM_ERROR; H3_MESSAGE_ERROR; H3_REQUEST_CANCELLED] →
      stream_ending [ResetStream code; StopReceiving code].

Lemma turn_ending ready x t :
  turn ready x = Some t →
  match t with
  | Goes _ actions => traffic actions
  | Ends _ actions => ∃ sent tail, actions = sent ++ tail ∧ traffic sent ∧ stream_ending tail
  end.
Proof.
  unfold UdpSession.turn. destruct (before_deadline clock x ready) as [[y e]|].
  2:{ intros [= <-]. exists [], tidy. split; [done|]. split; [by apply Forall_nil|constructor]. }
  destruct (handle_event e y) as [[[x' actions] step]|] eqn:E; cbn; [|done]. intros [= <-].
  apply handle_event_ending in E. destruct step; cbn [step_ending] in E.
  - done.
  - exists actions, tidy. split_and!; [done..|constructor].
  - destruct E as (Hc & sent & -> & Hs). exists sent, [ResetStream code; StopReceiving code].
    rewrite <- app_assoc. split_and!; [done..|by constructor].
Qed.

(** C11: both halves end together. Whatever arrives, a session that is not over
    has only moved packets; one that is over moved packets and then either
    stopped the client with H3_NO_ERROR and finished the stream, or reset the
    stream and stopped the client with one and the same error code. *)
Theorem session_ends_once arrivals x x' done_ actions over :
  traffic done_ →
  session_run arrivals x done_ = Some (x', actions, over) →
  if over then ∃ sent tail, actions = sent ++ tail ∧ traffic sent ∧ stream_ending tail
  else traffic actions.
Proof.
  revert x done_. induction arrivals as [|[between ready] arrivals IH]; intros x done_ Hd; cbn.
  { by intros [= <- <- <-]. }
  destruct (turn ready _) as [t|] eqn:E; cbn; [|done]. apply turn_ending in E.
  destruct t as [x1 a1|x1 a1].
  - apply IH. by apply traffic_app.
  - intros [= <- <- <-]. destruct E as (sent & tail & -> & Hs & Ht).
    exists (done_ ++ sent), tail. rewrite app_assoc. split_and!; [done| |done]. by apply traffic_app.
Qed.

(** ** From the client to the target *)

(** The payloads of a sequence of capsules that are UDP packets. *)
Definition udp_payloads (cs : list Capsule) : list bytes :=
  omap (λ '(CapsuleDatagram c payload), if c =? CONTEXT_ID_UDP_PAYLOAD then Some payload else None) cs.

Definition small (c : Capsule) : Prop :=
  match c with CapsuleDatagram _ payload => blen payload ≤ MAX_UDP_PAYLOAD end.

Lemma udp_payloads_app cs cs' : udp_payloads (cs ++ cs') = udp_payloads cs ++ udp_payloads cs'.
Proof. apply omap_app. Qed.

Section Relay.
(** The target has answered, or the operator has switched the mitigation off; the
    socket takes every packet; the whole run is shorter than one idle timeout. *)
Context (t0 : Z).
Hypothesis sends : ∀ w payload, (socket_send w payload).2 = Ok tt.
Hypothesis in_time : ∀ w, t0 ≤ clock w < t0 + stall_budget.

Definition open_session (x : Sess) : Prop :=
  unanswered_budget (session x) = None ∧ t0 + stall_budget ≤ deadline (session x).

Lemma forward_relays payload x :
  open_session x → blen payload ≤ MAX_UDP_PAYLOAD →
  ∃ x', forward_to_target payload x = (x', [SendTarget payload], Continue) ∧ open_session x' ∧
    decoder (session x') = decoder (session x).
Proof.
  intros [Hu Hd] Hlen. destruct (forward_to_target payload x) as [[x' l] st] eqn:E.
  apply forward_to_target_decoder in E as Hdec. unfold UdpSession.forward_to_target in E.
  destruct (Z.ltb_spec MAX_UDP_PAYLOAD (blen payload)); [lia|].
  unfold charge_packet in E. rewrite Hu in E. pose proof (sends (world x) payload) as Hs.
  destruct (socket_send (world x) payload) as [w r]. cbn in Hs. subst r.
  injection E as <- <- <-. eexists. split; [done|]. split; [|done].
  split; cbn; [done|]. pose proof (in_time w). lia.
Qed.

Lemma chunk_relays data x items r :
  open_session x → drain_all next_capsule (push_chunk (decoder (session x)) data) = (items, Ok r) →
  Forall small items →
  ∃ x', handle_stream_chunk (ChunkData data) x = (x', map SendTarget (udp_payloads items), Continue) ∧
    open_session x' ∧ decoder (session x') = r.
Proof.
  intros Hx Hdr Hsmall. cbn [UdpSession.handle_stream_chunk].
  set (x0 := mkSess _ _ _).
  cut (let '(x', actions, step) := run capsules_step ([], x0) in
    actions = map SendTarget (udp_payloads items) ∧ step = Continue ∧ open_session x' ∧
    decoder (session x') = r).
  { destruct (run capsules_step ([], x0)) as [[x' l] st]. intros (-> & -> & Ho & Hd). eauto. }
  apply (run_invariant capsules_step (λ s, open_session s.2 ∧
    ∃ rest, drain_all next_capsule (decoder (session s.2)) = (rest, Ok r) ∧ Forall small rest ∧
      s.1 ++ map SendTarget (udp_payloads rest) = map SendTarget (udp_payloads items)));
    [|split; [done|]; by exists items].
  intros [acts y] (Hy & rest & Hrest & Hsm & Hacts). unfold UdpSession.capsules_step.
  cbn [fst snd] in *. rewrite (drain_all_unfold next_capsule) in Hrest.
  destruct (next_capsule (decoder (session y))) as [d [[[c payload]|]|e]]; [| |done].
  - injection Hrest as <- Hr. apply Forall_cons in Hsm as [Hc Hsm].
    set (y1 := mkSess _ _ _). assert (open_session y1) as Hy1 by done.
    unfold udp_payloads in Hacts. cbn [omap list_omap] in Hacts.
    destruct (c =? CONTEXT_ID_UDP_PAYLOAD); cbn [negb].
    + destruct (forward_relays payload y1 Hy1 Hc) as (y2 & -> & Hy2 & Hdec). cbn [fst snd].
      split; [done|]. rewrite Hdec. cbn [y1 session decoder set_decoder].
      exists (drain_all next_capsule d).1. split_and!; [rewrite <- Hr; apply surjective_pairing|done|].
      by rewrite <- app_assoc.
    + split; [done|]. exists (drain_all next_capsule d).1.
      split_and!; [rewrite <- Hr; apply surjective_pairing|done|done].
  - injection Hrest as <- <-. cbn in Hacts. rewrite app_nil_r in Hacts. done.
Qed.

Lemma chunks_relay chunks x done_ items r :
  open_session x → feed (decoder (session x)) (map snd chunks) = (items, Ok r) → Forall small items →
  ∃ x', session_run (map (λ c, (c.1.1, Some (c.1.2, FromStream (ChunkData c.2)))) chunks) x done_ =
          Some (x', done_ ++ map SendTarget (udp_payloads items), false) ∧
    decoder (session x') = r.
Proof.
  revert x done_ items. induction chunks as [|[[between meanwhile] data] chunks IH]; intros x done_ items Hx.
  { cbn. intros [= <- <-] _. rewrite app_nil_r. eauto. }
  cbn [map snd fst feed UdpSession.session_run]. intros Hfeed Hsmall.
  change (drain (push ?d data)) with (drain_all next_capsule (push_chunk d data)) in Hfeed.
  destruct (drain_all next_capsule _) as [i1 [d1|e]] eqn:E1; cbn [then_drain] in Hfeed; [|done].
  destruct (feed d1 (map snd chunks)) as [i2 r2] eqn:E2. injection Hfeed as <- ->.
  apply Forall_app in Hsmall as [Hs1 Hs2].
  set (x0 := mkSess (between (world x)) (ctx x) (session x)).
  destruct (chunk_relays data (mkSess (meanwhile (world x0)) (ctx x) (session x)) i1 d1) as (x1 & Hchunk & Hx1 & Hd1); [done..|].
  unfold UdpSession.turn, before_deadline. cbn [x0 session].
  destruct (Z.leb_spec (deadline (session x)) (clock (world x0))) as [Hle|_].
  { pose proof (in_time (world x0)). destruct Hx. lia. }
  cbn [UdpSession.handle_event x0 ctx]. rewrite Hchunk. cbn [mbind option_bind].
  rewrite <- Hd1 in E2. destruct (IH x1 (done_ ++ map SendTarget (udp_payloads i1)) i2 Hx1 E2 Hs2)
    as (x' & Hrun & Hd). exists x'. split; [|done]. cbn [map] in Hrun. rewrite Hrun.
  by rewrite udp_payloads_app, map_app, app_assoc.
Qed.

(** C38: the capsule stream is relayed. Over a run shorter than the idle timeout
    and with a socket that takes packets, a session whose target has answered
    sends the target exactly the UDP payloads of a well-formed capsule sequence,
    in order, in whatever chunks it arrives and whatever other capsules are in
    between, and goes on at a capsule boundary. *)
Theorem capsules_relayed chunks x cs :
  open_session x → decoder (session x) = new →
  capsule_sequence (concat (map snd chunks)) cs → Forall small cs →
  ∃ x', session_run (map (λ c, (c.1.1, Some (c.1.2, FromStream (ChunkData c.2)))) chunks) x [] =
          Some (x', map SendTarget (udp_payloads cs), false) ∧
    at_capsule_boundary (decoder (session x')) = true.
Proof.
  intros Hx Hd Hseq Hsmall. destruct (feed_sequence _ _ Hseq) as (d & Hfeed & Hb).
  rewrite <- Hd in Hfeed. destruct (chunks_relay chunks x [] cs d Hx Hfeed Hsmall) as (x' & Hrun & <-).
  by exists x'.
Qed.
End Relay.

(** ** From the target to the client *)

(** A packet of the target. Where the peer takes datagrams, it is sent as one
    the peer decodes to this session's id and the packet itself when it fits the
    peer's limit, and is dropped, never put on the stream, when it does not;
    where the peer takes none, it is written as one capsule that decodes to the
    packet. No packet makes the encoders fail, and only a capsule write ends the
    session. *)
Theorem reply_reaches_client packet x :
  0 ≤ quarter_id (session x) ≤ MAX_QUARTER_STREAM_ID → blen packet ≤ MAX_UDP_PAYLOAD →
  ∃ x' actions step, forward_to_client packet x = Some (x', actions, step) ∧
    match datagram_limit max_datagram_size x with
    | Some limit =>
        step = Continue ∧
        ∃ wire, decode wire = Ok {| quarter_stream_id_of := quarter_id (session x);
                                    context_id := CONTEXT_ID_UDP_PAYLOAD; payload := packet |} ∧
          actions = if blen wire <=? limit then [SendDatagram wire] else []
    | None =>
        ∃ wire, drain_all next_capsule (push_chunk new wire) =
                  ([CapsuleDatagram CONTEXT_ID_UDP_PAYLOAD packet], Ok new) ∧
          (actions, step) =
            match (write_within (world x) wire).2 with
            | WriteDone => ([SendCapsule wire], Continue)
            | WriteError => ([SendCapsule wire], StopSession)
            | WriteElapsed => ([SendCapsule wire; ResetStream H3_REQUEST_CANCELLED],
                               Aborted H3_REQUEST_CANCELLED)
            end
    end.
Proof.
  intros Hq Hlen.
  assert (0 ≤ CONTEXT_ID_UDP_PAYLOAD ≤ VARINT_MAX) as Hc by (vm_compute; split; discriminate).
  unfold UdpSession.forward_to_client.
  assert (datagram_limit max_datagram_size (answered clock stall_budget x) =
    datagram_limit max_datagram_size x) as ->.
  { unfold datagram_limit, answered, touch, refund_unanswered. cbn. by destruct (_ || _). }
  destruct (datagram_limit max_datagram_size x) as [limit|].
  - destruct (encode_decode (quarter_id (session x)) CONTEXT_ID_UDP_PAYLOAD packet Hq Hc)
      as (wire & He & Hl & Hd).
    change (quarter_id (session (answered clock stall_budget x))) with (quarter_id (session x)).
    rewrite <- Hl. unfold grade at 1. fold (blen wire).
    destruct (blen wire <=? limit) eqn:Elim.
    + unfold encode_udp_payload. cbn [set_samplers quarter_id].
      change (quarter_id (session (answered clock stall_budget x))) with (quarter_id (session x)).
      rewrite He. cbn [mbind option_bind]. destruct (grade _ _ _) as [evs g].
      do 3 eexists. split; [done|]. split; [done|]. exists wire. by rewrite Elim.
    + destruct (record _) as [drops [total|]]; (do 3 eexists; split; [done|]; split; [done|];
        exists wire; by rewrite Elim).
  - destruct (capsule_roundtrip CONTEXT_ID_UDP_PAYLOAD packet Hc Hlen) as (wire & -> & Hd).
    cbn [mbind option_bind answered touch world].
    destruct (write_within (world x) wire) as [w []] eqn:Ew;
      (do 3 eexists; split; [done|]; exists wire; rewrite Ew; done).
Qed.

(** ** Idleness *)

Lemma deadline_kept e x x' actions step :
  handle_event e x = Some (x', actions, step) → from_target e = false → attempts actions = 0 →
  deadline (session x') = deadline (session x).
Proof.
  assert (∀ payload y y' l st, forward_to_target payload y = (y', l, st) → attempts l = 0 →
    deadline (session y') = deadline (session y)) as Hfwd.
  { intros payload y y' l st. unfold UdpSession.forward_to_target. case_match; [by intros [= <- <- <-]|].
    destruct (charge_packet y) as [y1 [[st' l']|]] eqn:E.
    - intros [= <- <- <-] _. unfold charge_packet in E. repeat case_match; by simplify_eq.
    - destruct (socket_send _ _) as [w [u|er]]; by intros [= <- <- <-]. }
  destruct e as [[payload|]|[packet|error]|[data| |]]; cbn [UdpSession.handle_event]; intros He Ht Ha.
  - injection He as He. eauto.
  - by injection He as <- <- <-.
  - done.
  - by injection He as <- <- <-.
  - injection He as He. cbn [UdpSession.handle_stream_chunk] in He.
    eapply (capsules_ind (λ y y' l, attempts l = 0 → deadline (session y') = deadline (session y)))
      in He as (more & tail & -> & HR & _); [| |eauto|].
    + rewrite HR; [done|]. rewrite attempts_app in Ha.
      pose proof (attempts_nonneg more). pose proof (attempts_nonneg tail). lia.
    + done.
    + intros y1 y2 y3 l1 l2 H1 H2. rewrite attempts_app.
      pose proof (attempts_nonneg l1). pose proof (attempts_nonneg l2). intros.
      rewrite H2, H1 by lia. done.
  - injection He as He. cbn in He. case_match; by injection He as <- <- <-.
  - by injection He as <- <- <-.
Qed.

(** An idle session ends. If by its deadline no packet has come from the
    target and none was handed to the socket, the session is over at the first
    turn that finds the deadline passed, whatever the client has sent and
    whatever it still has ready. *)
Theorem idle_session_ends arrivals late ready x x' actions over :
  session_run (arrivals ++ [(late, ready)]) x [] = Some (x', actions, over) →
  Forall (λ a, match a.2 with Some (_, e) => from_target e = false | None => True end) arrivals →
  attempts actions = 0 →
  (∀ w, deadline (session x) ≤ clock (late w)) →
  over = true.
Proof.
  intros Hrun Hall Ha Hlate.
  cut (∀ l y done_, session_run (l ++ [(late, ready)]) y done_ = Some (x', actions, over) →
    deadline (session y) = deadline (session x) →
    Forall (λ a, match a.2 with Some (_, e) => from_target e = false | None => True end) l → over = true);
    [intros Hcut; by eapply Hcut|].
  assert (∀ l y done_, session_run l y done_ = Some (x', actions, over) →
    ∃ more, actions = done_ ++ more) as Hpre.
  { induction l as [|[f r] l IH]; intros y done_; cbn.
    { intros [= <- <- <-]. exists []. by rewrite app_nil_r. }
    destruct (turn r _) as [[y1 a1|y1 a1]|]; cbn; [|intros [= _ <- _]; eauto|done].
    intros [more ->]%IH. exists (a1 ++ more). by rewrite app_assoc. }
  clear Hrun Hall arrivals.
  induction l as [|[f r] l IH]; intros y done_ Hrun Hdl Hall; cbn in Hrun.
  { unfold UdpSession.turn, before_deadline in Hrun. cbn [session] in Hrun.
    rewrite (proj2 (Z.leb_le _ _)) in Hrun by (cbn; rewrite Hdl; apply Hlate).
    cbn in Hrun. by injection Hrun as _ _ <-. }
  apply Forall_cons in Hall as [Hr Hall]. cbn [snd] in Hr.
  destruct (turn r _) as [[y1 a1|y1 a1]|] eqn:Et; cbn in Hrun; [|by injection Hrun as _ _ <-|done].
  apply (IH y1 (done_ ++ a1) Hrun); [|done].
  apply Hpre in Hrun as [more Hmore]. rewrite Hmore, !attempts_app in Ha.
  pose proof (attempts_nonneg done_). pose proof (attempts_nonneg a1).
  pose proof (attempts_nonneg more). rewrite <- Hdl.
  unfold UdpSession.turn in Et. destruct (before_deadline _ _ r) as [[y0 e]|] eqn:Eb; [|done].
  assert (∃ g, r = Some (g, e) ∧ session y0 = session y) as (g & -> & Hy0).
  { unfold before_deadline in Eb. destruct (_ <=? _); [done|]. destruct r as [[g e']|]; [|done].
    injection Eb as <- <-. by exists g. }
  destruct (handle_event e y0) as [[[y2 a2] st]|] eqn:He; cbn in Et; [|done].
  destruct st; try done. injection Et as <- <-.
  rewrite <- Hy0. apply deadline_kept in He; [done|done|lia].
Qed.
End Facts.

(** ** Establishing a session *)

Section EstablishFacts.
Context `{!PercentDecode} {Socket QuinnError : Type}.
Context (udp_bind : SocketAddr → result Socket IoError).
Context (udp_connect : Socket → SocketAddr → result Socket IoError).
Context (set_dont_fragment : Socket → Socket).
Context (holds_address : IpAddr → bool).
Context (EMFILE ENFILE ENOBUFS ENOMEM EADDRNOTAVAIL : Z).
Implicit Types w : @WriteOutcome QuinnError.

#[local] Abbreviation connected := (connected_udp_socket udp_bind udp_connect set_dont_fragment).
#[local] Abbreviation bind_from := (bind_from udp_bind udp_connect set_dont_fragment).
#[local] Abbreviation establish :=
  (establish udp_bind udp_connect set_dont_fragment holds_address
     EMFILE ENFILE ENOBUFS ENOMEM EADDRNOTAVAIL).

(** The addresses are tried in order and the first that opens is taken. *)
Lemma bind_from_ok last addrs socket :
  bind_from last addrs = Ok socket →
  ∃ failed a later, addrs = failed ++ a :: later ∧ connected a = Ok socket ∧
    Forall (λ b, ∃ e, connected b = Err e) failed.
Proof.
  revert last. induction addrs as [|a addrs IH]; intros last; cbn; [done|].
  destruct (connected a) as [s|e] eqn:E.
  - intros [= <-]. exists [], a, addrs. split_and!; [done..|by apply Forall_nil].
  - intros (failed & b & later & -> & Hb & Hf)%IH. exists (a :: failed), b, later.
    split_and!; [done..|]. constructor; eauto.
Qed.

Lemma capsule_response : ∃ fields frame, capsule_fields = Some fields ∧
  response_frame OK fields = Some frame.
Proof. do 2 eexists. split; [vm_compute; reflexivity|]. vm_compute. reflexivity. Qed.

(** A session is established exactly once answered. A session exists only for a
    well-formed request, over the first socket that opened of the admitted
    addresses in their order, after one 200 that was written and nothing else;
    without one the request has been answered, once; and with a connect timeout
    one or the other always happens. *)
Theorem udp_establishment req id ctx claimed lookup now stall w :
  (connect_timeout ctx ≠ None → is_Some (establish req id ctx claimed lookup now stall w)) ∧
  ∀ ctx' effects,
  (∀ session socket,
     establish req id ctx claimed lookup now stall w = Some (ctx', effects, Some (session, socket)) →
     ctx' = ctx ∧ w = Written ∧ session = session_new (quarter_stream_id id) ctx now stall ∧
     (∃ frame, effects = [Write frame]) ∧ validate req = Ok tt ∧
     ∃ host port failed a later,
       parse_target (default [] (path req)) (query req) = Ok (host, port) ∧
       admitted holds_address port ctx (lookup host port) (failed ++ a :: later) ∧
       connected a = Ok socket ∧ Forall (λ b, ∃ e, connected b = Err e) failed) ∧
  (establish req id ctx claimed lookup now stall w = Some (ctx', effects, None) →
     ∃ frame, effects = Stop H3_NO_ERROR :: Write frame :: ending w ∨
              w ≠ Written ∧ effects = Write frame :: ending w).
Proof.
  destruct capsule_response as (fields & okframe & Hf & Hok).
  assert (is_Some (response_frame OK fields)) as Hok' by eauto.
  assert (∀ status, status = BAD_REQUEST ∨ status = INTERNAL_SERVER_ERROR →
    ∃ frame, refuse status w = Some (Stop H3_NO_ERROR :: Write frame :: ending w)) as Href.
  { intros status Hst. unfold refuse.
    destruct Hst as [-> | ->]; eexists; apply refuse_with_eq; vm_compute; reflexivity. }
  unfold UdpSession.establish.
  destruct (validate req) as [[]|reason].
  2:{ destruct (Href BAD_REQUEST) as [f ->]; [auto|]. cbn. split; [eauto|]. intros ctx' effects.
      split; [done|]. intros [= <- <-]. eauto. }
  destruct (parse_target _ _) as [[host port]|reason].
  2:{ destruct (Href BAD_REQUEST) as [f ->]; [auto|]. cbn. split; [eauto|]. intros ctx' effects.
      split; [done|]. intros [= <- <-]. eauto. }
  destruct claimed.
  { destruct (Href INTERNAL_SERVER_ERROR) as [f ->]; [auto|]. cbn. split; [eauto|].
    intros ctx' effects. split; [done|]. intros [= <- <-]. eauto. }
  rewrite Hf.
  pose proof (admit_target_returns holds_address port ctx (lookup host port) fields w Hok') as Hret.
  destruct (admit_target holds_address port ctx (lookup host port) (Some fields) w)
    as [[[c1 e1] [allowed|]]|] eqn:Ea; cbn [mbind option_bind].
  - apply admit_target_some in Ea as (-> & -> & Hadm); [|done].
    unfold bind_any. destruct (bind_from None allowed) as [socket|failure] eqn:Eb.
    + apply bind_from_ok in Eb as (failed & a & later & -> & Ha & Hfl).
      unfold respond, respond_within. rewrite Hok. cbn [mbind option_bind app].
      destruct w; cbn [landed]; (split; [by eauto|]); intros ctx' effects; split.
      * intros session s [= <- <- <- <-]. split_and!; [done..|by eauto|done|]. eauto 12.
      * done.
      * by intros ? ? [=].
      * intros [= <- <-]. exists okframe. right. done.
      * by intros ? ? [=].
      * intros [= <- <-]. exists okframe. right. done.
    + destruct (refuse_unreachable_eq EMFILE ENFILE ENOBUFS ENOMEM EADDRNOTAVAIL failure w)
        as (f & _ & ->). cbn. split; [eauto|]. intros ctx' effects. split; [done|].
      intros [= <- <-]. eauto.
  - apply admit_target_none in Ea as (f & ->); [|done]. split; [eauto|].
    intros ctx' effects. split; [done|]. intros [= <- <-]. eauto.
  - split; [intros Hto; by destruct (Hret Hto)|]. done.
Qed.
End EstablishFacts.

(** ** Witnesses

    A world that is a clock: the socket takes every packet, the peer takes
    datagrams of up to 1200 bytes. *)

Section Witnesses.
#[local] Definition clock_of (w : Z) : Z := w.
#[local] Definition taken (w : Z) (payload : bytes) : Z * result unit IoError := (w, Ok tt).
#[local] Definition limit_1200 (w : Z) : option Z := Some 1200.
#[local] Definition room (w : Z) : Z := 65536.
#[local] Definition written (w : Z) (capsule : bytes) : Z * WriteEnd := (w, WriteDone).
#[local] Definition linux : Errnos := mkErrnos 90 1 13 105.
#[local] Definition witness_settings (budget : Z) : Settings :=
  mkSettings [] (mkPolicy false []) 3 100 (Some 10) Net.System budget.
#[local] Definition start (budget : Z) : Sess :=
  let c := context_new (witness_settings budget) true in mkSess 0 c (session_new 11 c 0 30).

Lemma unanswered_bounded_witness :
  let c := context_new (witness_settings 2) true in
  let m := mkMember (session_new 11 c 0 30) 0 false in
  let r := forward_to_target clock_of taken linux 30 (lit "hi") (mkSess 0 c (m_session m)) in
  let ms := [mkMember (session r.1.1) 1 false] in
  unanswered_connection_budget (ctx r.1.1) = 16 - unanswered_attempts ms.
Proof.
  intros c m r ms.
  refine (proj2 (proj2 (unanswered_bounded clock_of taken limit_1200 room written linux 30
    (witness_settings 2) true (ctx r.1.1) ms _ _))).
  - vm_compute. split; [reflexivity|discriminate].
  - eapply rtc_l; [apply (fleet_open _ _ _ _ _ _ _ _ [] 11 0)|].
    apply rtc_once.
    apply (fleet_event clock_of taken limit_1200 room written linux 30 c [m] 0 m
      (Inbound (Some (lit "hi"))) 0 r.1.1 [SendTarget (lit "hi")] Continue); reflexivity.
Defined.

Lemma session_ends_once_witness :
  ∃ x' actions, session_run clock_of taken limit_1200 room written linux 30
    [(λ w, w, Some (λ w, w, FromStream (ChunkData (map as_u8 [0; 3; 0; 104; 105]))));
     (λ w, w, Some (λ w, w, FromStream ChunkEnd))] (start 2) [] = Some (x', actions, true) ∧
    ∃ sent tail, actions = sent ++ tail ∧ traffic sent ∧ stream_ending tail.
Proof.
  eexists _, _. split; [vm_compute; reflexivity|].
  eapply (session_ends_once clock_of taken limit_1200 room written linux 30
    [(λ w, w, Some (λ w, w, FromStream (ChunkData (map as_u8 [0; 3; 0; 104; 105]))));
     (λ w, w, Some (λ w, w, FromStream ChunkEnd))] (start 2) ?[x'] [] _ true); [by apply Forall_nil|].
  vm_compute. reflexivity.
Defined.

Lemma capsules_relayed_witness :
  ∃ x', session_run (λ _, 5) taken limit_1200 room written linux 30
    [(λ w, w, Some (λ w, w, FromStream (ChunkData (map as_u8 [0; 3]))));
     (λ w, w, Some (λ w, w, FromStream (ChunkData (map as_u8 [0; 104; 105]))))] (start 0) [] =
      Some (x', [SendTarget (lit "hi")], false) ∧
    at_capsule_boundary (decoder (session x')) = true.
Proof.
  apply (capsules_relayed (λ _, 5) taken limit_1200 room written linux 30 0 ltac:(done) ltac:(lia)
    [(λ w, w, λ w, w, map as_u8 [0; 3]); (λ w, w, λ w, w, map as_u8 [0; 104; 105])] (start 0)
    [CapsuleDatagram 0 (lit "hi")]).
  - split; [reflexivity|vm_compute; discriminate].
  - reflexivity.
  - apply (capsule_sequence_datagram (map as_u8 [0; 104; 105]) 0 (lit "hi")
      (map as_u8 [0; 3; 0; 104; 105]) []); [|vm_compute; discriminate|reflexivity|constructor].
    apply (capsule_wire_intro 0 (map as_u8 [0; 104; 105]) [as_u8 0] [as_u8 3]); reflexivity.
  - repeat constructor. vm_compute. discriminate.
Defined.

Lemma reply_reaches_client_witness :
  ∃ x' wire, forward_to_client clock_of limit_1200 room written 30 (lit "pong") (start 2) =
      Some (x', [SendDatagram wire], Continue) ∧
    decode wire = Ok {| quarter_stream_id_of := 11; context_id := 0; payload := lit "pong" |}.
Proof.
  destruct (reply_reaches_client clock_of limit_1200 room written 30 (lit "pong") (start 2))
    as (x' & actions & step & He & H); [vm_compute; split; discriminate|vm_compute; discriminate|].
  assert (datagram_limit limit_1200 (start 2) = Some 1200) as El by reflexivity.
  rewrite El in H. destruct H as (-> & wire & Hd & ->). exists x', wire.
  destruct (Z.leb_spec (blen wire) 1200) as [_|Hlt]; [split; [exact He|exact Hd]|].
  exfalso. vm_compute in He. discriminate He.
Defined.

Lemma idle_session_ends_witness :
  ∃ x' actions over, session_run clock_of taken limit_1200 room written linux 30
    ([(λ w, w + 20, Some (λ w, w, FromStream (ChunkData [as_u8 0])))] ++
     [(λ _, 30, Some (λ w, w, Inbound (Some (lit "hi"))))]) (start 2) [] = Some (x', actions, over) ∧ over = true.
Proof.
  eexists _, _, _. split; [vm_compute; reflexivity|].
  eapply (idle_session_ends clock_of taken limit_1200 room written linux 30
    [(λ w, w + 20, Some (λ w, w, FromStream (ChunkData [as_u8 0])))] (λ _, 30)
    (Some (λ w, w, Inbound (Some (lit "hi")))) (start 2) ?[x'] ?[actions] true).
  - vm_compute. reflexivity.
  - by repeat constructor.
  - reflexivity.
  - intros w. vm_compute. discriminate.
Defined.
End Witnesses.
