(* ===== verification/TcpTunnel.v ===== *)
(** * TCP tunnels (src/src/tunnel/tcp.rs)

    Opening a tunnel ([connect_any], [run]) and relaying through it: two pumps
    that share a sticky teardown signal and one flag each for a direction that
    ended cleanly.  A pump is a step function on the state of the tunnel; what its
    [select!] found ready is the input of the step, and the arms keep the order
    [biased] gives them.  A tunnel is any interleaving of the two.

    Sockets, streams and the clock are inputs; what reaches them is a trace. *)

From S2P Require Import Prelude H3Error Policy Message Exchange Status StatusFacts Target Net Context.

#[local] Open Scope Z_scope.

Definition RELAY_BUF_SIZE : Z := 16 * 1024.
Definition RELAY_BLOCK_SIZE : Z := 64 * 1024.

(** ** State *)

Inductive Teardown := Running | ClientAbort | TargetError.

#[export] Instance Teardown_eq_dec : EqDecision Teardown.
Proof. solve_decision. Defined.

Definition code (t : Teardown) : Code :=
  match t with
  | TargetError => H3_CONNECT_ERROR
  | ClientAbort | Running => H3_REQUEST_CANCELLED
  end.

(** What happened on the four halves, in order: first what came in, then what the
    proxy did. *)
Inductive Event :=
  | FromClient (data : bytes) | ClientFin | ClientReset | ClientStopped
  | FromTarget (data : bytes) | TargetEof | TargetFailed
  | ToTarget (data : bytes) | ShutdownTarget | AbortTarget | ForgetTarget
  | ToClient (data : bytes) | FinishClient | ResetClient (c : Code) | StopClient (c : Code)
  | Raise (t : Teardown).

(** Where a pump is: at its read, in the write of what is left of a chunk, or
    returned. *)
Inductive Pump := Reading | Writing (rest : bytes) | Returned.

Record Tunnel := mkTunnel {
  teardown : Teardown;
  client_finished : bool;
  target_eof : bool;
  to_target : Pump;
  to_client : Pump;
  trace : list Event;
}.

Definition tunnel_new : Tunnel := mkTunnel Running false false Reading Reading [].

(** Assignments. *)
Definition emit (events : list Event) (s : Tunnel) : Tunnel :=
  mkTunnel (teardown s) (client_finished s) (target_eof s) (to_target s) (to_client s)
    (trace s ++ events).
Definition raise (t : Teardown) (s : Tunnel) : Tunnel :=
  mkTunnel t (client_finished s) (target_eof s) (to_target s) (to_client s) (trace s ++ [Raise t]).
Definition pump_up (p : Pump) (s : Tunnel) : Tunnel :=
  mkTunnel (teardown s) (client_finished s) (target_eof s) p (to_client s) (trace s).
Definition pump_down (p : Pump) (s : Tunnel) : Tunnel :=
  mkTunnel (teardown s) (client_finished s) (target_eof s) (to_target s) p (trace s).

(** [HalfClose::ended], of either pump. *)
Definition client_ended (s : Tunnel) : Tunnel :=
  mkTunnel (teardown s) true (target_eof s) (to_target s) (to_client s) (trace s).
Definition target_ended (s : Tunnel) : Tunnel :=
  mkTunnel (teardown s) (client_finished s) true (to_target s) (to_client s) (trace s).

(** [torn_down] resolves with the reason once there is one. *)
Definition torn_down (s : Tunnel) : option Teardown :=
  if bool_decide (teardown s = Running) then None else Some (teardown s).

(** ** The pumps *)

(** What the [select!]s of [client_to_target] may find ready. *)
Inductive UpInput :=
  | RecvData (chunk : result (option bytes) unit)
  | Wrote (n : nat)
  | WriteFailedTarget
  | ResetByPeer
  | TargetStalled
  | NothingUp.

Definition abort_target (s : Tunnel) : Tunnel := emit [AbortTarget] s.

Definition client_aborted (s : Tunnel) : Tunnel :=
  pump_up Returned (raise ClientAbort (emit [ForgetTarget] (abort_target (emit [ClientReset] s)))).

(** [None]: the pump has returned, or the input is not one of its arms. *)
Definition client_to_target (i : UpInput) (s : Tunnel) : option Tunnel :=
  let torn reason := Some (pump_up Returned (emit [StopClient (code reason); ForgetTarget] s)) in
  match to_target s with
  | Returned => None
  | Reading =>
      match torn_down s with
      | Some reason => torn reason
      | None =>
          match i with
          | RecvData (Ok (Some data)) => Some (pump_up (Writing data) (emit [FromClient data] s))
          | RecvData (Ok None) =>
              Some (pump_up Returned (emit [ShutdownTarget] (client_ended (emit [ClientFin] s))))
          | RecvData (Err _) => Some (client_aborted s)
          | NothingUp => Some s
          | _ => None
          end
      end
  | Writing rest =>
      match torn_down s with
      | Some reason => torn reason
      | None =>
          match i with
          | Wrote n =>
              if (n <=? length rest)%nat then
                let left := drop n rest in
                Some (pump_up (if bool_decide (left = []) then Reading else Writing left)
                        (emit [ToTarget (take n rest)] s))
              else None
          | WriteFailedTarget =>
              Some (pump_up Returned (raise TargetError
                      (emit [TargetFailed; StopClient H3_CONNECT_ERROR] s)))
          | ResetByPeer => Some (client_aborted s)
          | TargetStalled =>
              if target_eof s then
                Some (pump_up Returned (raise TargetError (emit [ForgetTarget]
                        (abort_target (emit [TargetFailed; StopClient H3_CONNECT_ERROR] s)))))
              else None
          | NothingUp => Some s
          | _ => None
          end
      end
  end.

(** What the [select!]s of [target_to_client] may find ready. *)
Inductive DownInput :=
  | ReadBuf (r : result bytes unit)
  | Stopped
  | SentData (n : nat)
  | SendFailed
  | ClientStalled
  | NothingDown.

Definition target_to_client (i : DownInput) (s : Tunnel) : option Tunnel :=
  let torn reason := Some (pump_down Returned (emit [ResetClient (code reason)] s)) in
  match to_client s with
  | Returned => None
  | Reading =>
      match torn_down s with
      | Some reason => torn reason
      | None =>
          match i with
          | ReadBuf (Ok []) =>
              Some (pump_down Returned (emit [FinishClient] (target_ended (emit [TargetEof] s))))
          | ReadBuf (Ok data) => Some (pump_down (Writing data) (emit [FromTarget data] s))
          | ReadBuf (Err _) =>
              Some (pump_down Returned (raise TargetError
                      (emit [TargetFailed; ResetClient H3_CONNECT_ERROR] s)))
          | Stopped =>
              Some (pump_down Returned (raise ClientAbort (abort_target (emit [ClientStopped] s))))
          | NothingDown => Some s
          | _ => None
          end
      end
  | Writing rest =>
      match torn_down s with
      | Some reason => torn reason
      | None =>
          match i with
          | SentData n =>
              if (n <=? length rest)%nat then
                let left := drop n rest in
                Some (pump_down (if bool_decide (left = []) then Reading else Writing left)
                        (emit [ToClient (take n rest)] s))
              else None
          | SendFailed =>
              Some (pump_down Returned (raise ClientAbort (abort_target (emit [ClientStopped] s))))
          | ClientStalled =>
              if client_finished s then
                Some (pump_down Returned (raise ClientAbort
                        (abort_target (emit [ResetClient H3_REQUEST_CANCELLED] s))))
              else None
          | NothingDown => Some s
          | _ => None
          end
      end
  end.

(** The two pumps, joined. *)
Inductive tunnel_step : Tunnel → Tunnel → Prop :=
  | up_step i s s' : client_to_target i s = Some s' → tunnel_step s s'
  | down_step i s s' : target_to_client i s = Some s' → tunnel_step s s'.

(** ** The relay buffer

    [bytes::BytesMut], as its documentation has it: room is reserved behind the
    bytes held, reading fills it, and [split] takes the bytes out and keeps what
    room was left. *)
Class BytesMut := {
  Buf : Type;
  filled : Buf → bytes;
  capacity : Buf → Z;
  with_capacity : Z → Buf;
  reserve : Z → Buf → Buf;
  put : bytes → Buf → Buf;
  split : Buf → bytes * Buf;
  with_capacity_ok n : filled (with_capacity n) = [] ∧ n ≤ capacity (with_capacity n);
  reserve_ok n b : filled (reserve n b) = filled b ∧ blen (filled b) + n ≤ capacity (reserve n b);
  put_ok d b : blen (filled b) + blen d ≤ capacity b →
    filled (put d b) = filled b ++ d ∧ capacity (put d b) = capacity b;
  split_ok b : (split b).1 = filled b ∧ filled (split b).2 = [] ∧
    capacity (split b).2 = capacity b - blen (filled b);
}.

Section Relay.
Context `{!BytesMut}.

Definition ensure_window (buf : Buf) : Buf :=
  if capacity buf <? RELAY_BUF_SIZE then reserve RELAY_BLOCK_SIZE buf else buf.

(** One turn of the target's side: the window, a read into it, the chunk sent. *)
Definition relay_read (data : bytes) (buf : Buf) : bytes * Buf :=
  split (put data (ensure_window buf)).

(** The chunks of a sequence of reads, and how many blocks were asked for. *)
Fixpoint relay_reads (reads : list bytes) (buf : Buf) : list bytes * Z :=
  match reads with
  | [] => ([], 0)
  | data :: reads =>
      let '(chunk, rest) := relay_read data buf in
      let '(chunks, blocks) := relay_reads reads rest in
      (chunk :: chunks, (if capacity buf <? RELAY_BUF_SIZE then 1 else 0) + blocks)
  end.
End Relay.

(** ** Opening a tunnel *)

(** A connect attempt: when it completes and with what, or never. *)
Inductive Attempt (Socket : Type) := Completes (after : Z) (r : result Socket IoError) | Hangs.
Arguments Completes {_} after r.
Arguments Hangs {_}.

Section Open.
Context {Socket QuinnError : Type}.
(** The kernel: [connect], [setsockopt], and [net::holds_address]. *)
Context (connect : SocketAddr → Attempt Socket).
Context (set_nodelay : Socket → Socket).
Context (holds_address : IpAddr → bool).
(** The numbers of libc's error constants. *)
Context (EMFILE ENFILE ENOBUFS ENOMEM EADDRNOTAVAIL : Z).

(** The loop over the addresses: the time it returns at and what it returns;
    [None] when it never does. *)
Fixpoint connect_from (deadline : option Z) (now : Z) (last : option Unreachable)
    (addresses : list SocketAddr) : option (Z * result Socket Unreachable) :=
  match addresses with
  | [] => Some (now, Err (default no_addresses last))
  | address :: addresses =>
      let next now r :=
        match r with
        | Ok tcp => Some (now, Ok tcp)
        | Err e => connect_from deadline now (Some (mkUnreachable (Some address) e)) addresses
        end in
      match deadline, connect address with
      | Some deadline, Completes after r =>
          if now + after <=? deadline then next (now + after) r
          else Some (deadline, Err (mkUnreachable (Some address) (mkIoError None KindTimedOut)))
      | Some deadline, Hangs =>
          Some (deadline, Err (mkUnreachable (Some address) (mkIoError None KindTimedOut)))
      | None, Completes after r => next (now + after) r
      | None, Hangs => None
      end
  end.

Definition connect_any_with (addresses : list SocketAddr) (budget : option Z)
    : option (Z * result Socket Unreachable) :=
  connect_from budget 0 None addresses.

(** How opening ends: with no connection to the target, with one that is reset
    because its 200 did not land, or with a tunnel. *)
Inductive Opened := NoTarget | TargetReset (tcp : Socket) | Established (tcp : Socket).

(** [run] up to the pumps.  [None]: a panic, or a wait without an end. *)
Definition run_tcp (authority : bytes) (ctx : Context) (lookup : bytes → Z → Lookup)
    (w : @WriteOutcome QuinnError) : option (Context * list Effect * Opened) :=
  match split_authority authority with
  | Err _ => effects ← refuse BAD_REQUEST w; Some (ctx, effects, NoTarget)
  | Ok (host, port) =>
      '(ctx, effects, admitted) ←
        admit_target holds_address port ctx (lookup host port) (Some fields_new) w;
      match admitted with
      | None => Some (ctx, effects, NoTarget)
      | Some allowed =>
          '(_, connected) ← connect_any_with allowed (connect_timeout ctx);
          match connected with
          | Err failure =>
              refusal ← refuse_unreachable EMFILE ENFILE ENOBUFS ENOMEM EADDRNOTAVAIL failure w;
              Some (ctx, effects ++ refusal, NoTarget)
          | Ok tcp =>
              let tcp := set_nodelay tcp in
              '(answer, r) ← respond OK fields_new w;
              Some (ctx, effects ++ answer, if landed r then Established tcp else TargetReset tcp)
          end
      end
  end.
End Open.
