(* ===== verification/TcpFacts.v ===== *)
(** * What a TCP tunnel promises (src/src/tunnel/tcp.rs)

    The two byte streams arrive as they were sent and end as they ended; every
    other ending puts one verdict on both halves of the request stream, resets the
    target when the client is the one who left, and stops both pumps. *)

From S2P Require Import Prelude H3Error Policy Message Exchange Status StatusFacts Target Net Context.
From S2P Require Import TcpTunnel.

#[local] Open Scope Z_scope.

#[local] Arguments code : simpl never.

(** ** Traces *)

Definition from_client (e : Event) : bytes := match e with FromClient d => d | _ => [] end.
Definition sent_target (e : Event) : bytes := match e with ToTarget d => d | _ => [] end.
Definition from_target (e : Event) : bytes := match e with FromTarget d => d | _ => [] end.
Definition sent_client (e : Event) : bytes := match e with ToClient d => d | _ => [] end.

(** The bytes of a trace that [f] selects. *)
Definition flow (f : Event → bytes) (tr : list Event) : bytes := concat (map f tr).

Lemma flow_app f tr tr' : flow f (tr ++ tr') = flow f tr ++ flow f tr'.
Proof. unfold flow. by rewrite map_app, concat_app. Qed.

(** The cases of a step. *)
Ltac step_cases H :=
  destruct H as [i s s' H|i s s' H]; unfold client_to_target, target_to_client, torn_down in H;
  repeat match type of H with
  | context [match to_target ?s with _ => _ end] => destruct (to_target s) eqn:?
  | context [match to_client ?s with _ => _ end] => destruct (to_client s) eqn:?
  | context [bool_decide (teardown ?s = Running)] =>
      destruct (decide (teardown s = Running));
      [rewrite bool_decide_eq_true_2 in H by done|rewrite bool_decide_eq_false_2 in H by done]
  | context [match ?i with RecvData _ => _ | _ => _ end] => destruct i as [[[?|]|[]]| | | | |]
  | context [match ?i with ReadBuf _ => _ | _ => _ end] => destruct i as [[[|? ?]|[]]| | | | |]
  | context [if client_finished ?s then _ else _] => destruct (client_finished s) eqn:?
  | context [if target_eof ?s then _ else _] => destruct (target_eof s) eqn:?
  | context [(?n <=? length ?l)%nat] => destruct (Nat.leb_spec n (length l))
  end; try discriminate H; injection H as <-.

(** A property of the initial state that every step preserves holds of every
    tunnel. *)
Lemma tunnel_invariant (I : Tunnel → Prop) s :
  I tunnel_new → (∀ s s', I s → tunnel_step s s' → I s') → rtc tunnel_step tunnel_new s → I s.
Proof.
  intros H0 Hstep Hrtc. apply (rtc_ind_l (λ s0, I s0 → I s) s) in Hrtc; eauto.
Qed.

(** ** The two byte streams *)

(** A pump against what it read ([got]) and what it handed on ([put]). *)
Definition pumped (p : Pump) (got put : bytes) (clean : bool) : Prop :=
  match p with
  | Reading => put = got ∧ clean = false
  | Writing rest => put ++ rest = got ∧ clean = false
  | Returned => put `prefix_of` got ∧ (clean = true → put = got)
  end.

Definition streams_ok (s : Tunnel) : Prop :=
  pumped (to_target s) (flow from_client (trace s)) (flow sent_target (trace s)) (client_finished s) ∧
  pumped (to_client s) (flow from_target (trace s)) (flow sent_client (trace s)) (target_eof s).

(** What a pump may do. *)
Create HintDb pump.

Lemma pumped_torn p got put clean :
  p ≠ Returned → pumped p got put clean → pumped Returned got put clean.
Proof.
  destruct p as [|rest|]; [intros _ [<- ->]|intros _ [<- ->]|done]; (split; [|done]).
  - done.
  - by exists rest.
Qed.

Lemma pumped_read got put clean data :
  pumped Reading got put clean → pumped (Writing data) (got ++ data) put clean.
Proof. by intros [-> ->]. Qed.

Lemma pumped_end got put clean : pumped Reading got put clean → pumped Returned got put true.
Proof. by intros [-> _]. Qed.

Lemma pumped_write rest got put clean n :
  pumped (Writing rest) got put clean → (n ≤ length rest)%nat →
  pumped (if bool_decide (drop n rest = []) then Reading else Writing (drop n rest)) got
    (put ++ take n rest) clean.
Proof.
  intros [<- ->] Hn. case_bool_decide as Hd; (split; [|done]).
  - f_equal. rewrite <- (take_drop n rest) at 2. by rewrite Hd, app_nil_r.
  - by rewrite <- app_assoc, take_drop.
Qed.

#[local] Hint Resolve pumped_read pumped_end pumped_write : pump.
#[local] Hint Extern 3 (pumped Returned _ _ _) => eapply pumped_torn; [|eassumption]; done : pump.

(** One pump's events are nothing to the other's flows. *)
Ltac flows :=
  cbn [trace to_target to_client client_finished target_eof emit raise pump_up pump_down
    client_ended target_ended client_aborted abort_target];
  rewrite ?flow_app; cbn [flow map concat from_client sent_target from_target sent_client app];
  rewrite ?app_nil_r.

Lemma streams_step s s' : streams_ok s → tunnel_step s s' → streams_ok s'.
Proof.
  intros [Hup Hdown] Hstep. unfold streams_ok.
  step_cases Hstep; repeat match goal with
    | E : to_target ?s = _, H : pumped (to_target ?s) _ _ _ |- _ => rewrite E in H
    | E : to_client ?s = _, H : pumped (to_client ?s) _ _ _ |- _ => rewrite E in H end;
    flows; repeat match goal with E : to_target _ = _ |- _ => rewrite ?E; clear E
      | E : to_client _ = _ |- _ => rewrite ?E; clear E
      | E : target_eof _ = _ |- _ => rewrite ?E; clear E
      | E : client_finished _ = _ |- _ => rewrite ?E; clear E end; split; eauto with pump.
Qed.

(** ** The verdicts *)

Definition codes (tr : list Event) (c : Code) : Prop := ResetClient c ∈ tr ∨ StopClient c ∈ tr.

Record verdicts_ok (s : Tunnel) : Prop := {
  v_running : teardown s = Running ↔ ∀ t, Raise t ∉ trace s;
  v_raised t : Raise t ∈ trace s → t ≠ Running;
  v_teardown : teardown s = Running ∨ Raise (teardown s) ∈ trace s;
  v_fin : ShutdownTarget ∈ trace s ↔ client_finished s = true;
  v_finish : FinishClient ∈ trace s ↔ target_eof s = true;
  v_up : to_target s = Returned →
    client_finished s = true ∨ ClientReset ∈ trace s ∨ ∃ c, StopClient c ∈ trace s;
  v_down : to_client s = Returned →
    target_eof s = true ∨ ClientStopped ∈ trace s ∨ ∃ c, ResetClient c ∈ trace s;
  v_up_running : to_target s = Returned → teardown s = Running → client_finished s = true;
  v_down_running : to_client s = Returned → teardown s = Running → target_eof s = true;
  v_codes c : codes (trace s) c → ∃ t, Raise t ∈ trace s ∧ c = code t;
  v_reset c : ResetClient c ∈ trace s → to_client s = Returned ∧ target_eof s = false;
  v_clean_up : client_finished s = true → to_target s = Returned;
  v_clean_down : target_eof s = true → to_client s = Returned;
  v_abort : Raise ClientAbort ∈ trace s → AbortTarget ∈ trace s;
  v_left : ClientReset ∈ trace s ∨ ClientStopped ∈ trace s → Raise ClientAbort ∈ trace s;
  v_failed : Raise TargetError ∈ trace s → TargetFailed ∈ trace s;
  v_aborted : AbortTarget ∈ trace s → ∃ t, Raise t ∈ trace s;
}.

(** A clause about the events of the next state, from the same about this one. *)
Ltac clause :=
  cbn [trace to_target to_client client_finished target_eof emit raise pump_up pump_down
    client_ended target_ended client_aborted abort_target teardown];
  repeat case_bool_decide; try done; try congruence; repeat setoid_rewrite elem_of_app; repeat setoid_rewrite elem_of_cons;
  repeat setoid_rewrite elem_of_nil; naive_solver congruence.

Lemma verdicts_step s s' : verdicts_ok s → tunnel_step s s' → verdicts_ok s'.
Proof.
  intros Hv Hstep. split.
  - pose proof (v_running _ Hv) as H1. clear Hv. step_cases Hstep; clause.
  - pose proof (v_raised _ Hv) as H1. clear Hv. step_cases Hstep; clause.
  - pose proof (v_teardown _ Hv) as H1. clear Hv. step_cases Hstep; clause.
  - pose proof (v_fin _ Hv) as H1. clear Hv. step_cases Hstep; clause.
  - pose proof (v_finish _ Hv) as H1. clear Hv. step_cases Hstep; clause.
  - pose proof (v_up _ Hv) as H1. clear Hv. step_cases Hstep; clause.
  - pose proof (v_down _ Hv) as H1. clear Hv. step_cases Hstep; clause.
  - pose proof (v_up_running _ Hv) as H1. clear Hv. step_cases Hstep; clause.
  - pose proof (v_down_running _ Hv) as H1. clear Hv. step_cases Hstep; clause.
  - pose proof (v_codes _ Hv) as H1. pose proof (v_teardown _ Hv) as H2. clear Hv.
    unfold codes in *. step_cases Hstep; change H3_CONNECT_ERROR with (code TargetError);
      change H3_REQUEST_CANCELLED with (code ClientAbort); clause.
  - pose proof (v_reset _ Hv) as H1. pose proof (v_clean_down _ Hv) as H2. clear Hv.
    destruct (target_eof s) eqn:He; [specialize (H2 eq_refl)|]; step_cases Hstep; clause.
  - pose proof (v_clean_up _ Hv) as H1. clear Hv. step_cases Hstep; clause.
  - pose proof (v_clean_down _ Hv) as H1. clear Hv. step_cases Hstep; clause.
  - pose proof (v_abort _ Hv) as H1. clear Hv. step_cases Hstep; clause.
  - pose proof (v_left _ Hv) as H1. clear Hv. step_cases Hstep; clause.
  - pose proof (v_failed _ Hv) as H1. clear Hv. step_cases Hstep; clause.
  - pose proof (v_aborted _ Hv) as H1. clear Hv. step_cases Hstep; clause.
Qed.

Lemma tunnel_reachable_ok s : rtc tunnel_step tunnel_new s → streams_ok s ∧ verdicts_ok s.
Proof.
  intros Hr. split; revert Hr; apply tunnel_invariant.
  - repeat split.
  - apply streams_step.
  - split; cbn; unfold codes; try done; set_solver.
  - apply verdicts_step.
Qed.

(** C8: the tunnel is two byte streams. However the pumps interleave and wherever
    the writes are cut, the target has been handed a prefix of what the client
    sent and the client a prefix of what the target sent; the target's socket is
    shut down only behind all of the client's bytes, and the response is finished
    only behind all of the target's and is then never reset. *)
Theorem relay_faithful s :
  rtc tunnel_step tunnel_new s →
  let tr := trace s in
  flow sent_target tr `prefix_of` flow from_client tr ∧
  flow sent_client tr `prefix_of` flow from_target tr ∧
  (ShutdownTarget ∈ tr → flow sent_target tr = flow from_client tr) ∧
  (FinishClient ∈ tr → flow sent_client tr = flow from_target tr ∧ ∀ c, ResetClient c ∉ tr).
Proof.
  intros [[Hup Hdown] Hv]%tunnel_reachable_ok tr.
  assert (∀ p got put clean, pumped p got put clean →
    put `prefix_of` got ∧ (clean = true → put = got)) as Hpre.
  { intros [|rest|] got put clean; [intros [-> ->]|intros [<- ->]|done]; split; try done.
    by exists rest. }
  apply Hpre in Hup as [Hu1 Hu2], Hdown as [Hd1 Hd2]. split_and!; [done..| |].
  - intros Hs%(v_fin _ Hv). auto.
  - intros Hs%(v_finish _ Hv). split; [auto|]. intros c Hc.
    destruct (v_reset _ Hv c Hc). congruence.
Qed.

(** C9: how a tunnel ends. When both pumps have returned and nothing went wrong,
    both sides were shut down cleanly with everything delivered and nothing was
    reset, stopped or aborted. Otherwise each half of the request stream ended
    cleanly before, was ended by the client, or was ended with a code: CONNECT_ERROR
    only if the target failed, REQUEST_CANCELLED only if the client left, and then
    the target's connection is closed with a reset. *)
Theorem tunnel_endings s :
  rtc tunnel_step tunnel_new s → to_target s = Returned → to_client s = Returned →
  let tr := trace s in
  (teardown s = Running →
     ShutdownTarget ∈ tr ∧ FinishClient ∈ tr ∧
     flow sent_target tr = flow from_client tr ∧ flow sent_client tr = flow from_target tr ∧
     (∀ c, ResetClient c ∉ tr) ∧ (∀ c, StopClient c ∉ tr) ∧ (AbortTarget ∉ tr)) ∧
  (ShutdownTarget ∈ tr ∨ ClientReset ∈ tr ∨ ∃ c, StopClient c ∈ tr) ∧
  (FinishClient ∈ tr ∨ ClientStopped ∈ tr ∨ ∃ c, ResetClient c ∈ tr) ∧
  (∀ c, codes tr c →
     c = H3_CONNECT_ERROR ∧ TargetFailed ∈ tr ∨ c = H3_REQUEST_CANCELLED ∧ AbortTarget ∈ tr) ∧
  (ClientReset ∈ tr ∨ ClientStopped ∈ tr → AbortTarget ∈ tr).
Proof.
  intros [[Hup Hdown] Hv]%tunnel_reachable_ok Et Ec tr. rewrite Et in Hup. rewrite Ec in Hdown.
  pose proof (v_fin _ Hv). pose proof (v_finish _ Hv). fold tr in H, H0.
  split; [|split_and!].
  - intros Hrun. pose proof (v_up_running _ Hv Et Hrun) as Hcf.
    pose proof (v_down_running _ Hv Ec Hrun) as Hte. destruct Hup as [_ Hup], Hdown as [_ Hdown].
    pose proof (proj1 (v_running _ Hv) Hrun) as Hno. split_and!; try naive_solver.
    + intros c Hc. destruct (v_codes _ Hv c) as (t & Ht & _); [by left|]. by apply (Hno t).
    + intros c Hc. destruct (v_codes _ Hv c) as (t & Ht & _); [by right|]. by apply (Hno t).
    + intros Ha. destruct (v_aborted _ Hv Ha) as [t Ht]. by apply (Hno t).
  - destruct (v_up _ Hv Et) as [Hc|[Hc|Hc]]; naive_solver.
  - destruct (v_down _ Hv Ec) as [Hc|[Hc|Hc]]; naive_solver.
  - intros c (t & Ht & ->)%(v_codes _ Hv). pose proof (v_raised _ Hv t Ht) as Hne.
    destruct t; [done|right|left]; (split; [done|]).
    + by apply (v_abort _ Hv).
    + by apply (v_failed _ Hv).
  - intros Hl. by apply (v_abort _ Hv), (v_left _ Hv).
Qed.

(** ** A teardown ends both pumps *)

Definition running (p : Pump) : nat := match p with Returned => 0 | _ => 1 end.

Lemma torn_step s s' :
  teardown s ≠ Running → tunnel_step s s' →
  teardown s' = teardown s ∧
  (running (to_target s') + running (to_client s') < running (to_target s) + running (to_client s))%nat.
Proof.
  intros Ht Hstep. step_cases Hstep; try done; cbn;
    repeat match goal with E : _ = Reading |- _ => rewrite E | E : _ = Writing _ |- _ => rewrite E end;
    cbn; split; done || lia.
Qed.

(** C32: a teardown is not missed. Once one pump has raised it, whatever is ready on
    the sockets and however long a write had been parked, the next poll of each
    pump ends it: the tunnel takes at most two more steps, takes one for each pump
    still running whatever its input, and after them both have returned. *)
Theorem teardown_ends_both s :
  teardown s ≠ Running →
  (∀ n s', nsteps tunnel_step n s s' → (n ≤ 2)%nat) ∧
  (∀ i, to_target s ≠ Returned → is_Some (client_to_target i s)) ∧
  (∀ i, to_client s ≠ Returned → is_Some (target_to_client i s)) ∧
  (∀ i j s1 s2, client_to_target i s = Some s1 → target_to_client j s1 = Some s2 →
     to_target s2 = Returned ∧ to_client s2 = Returned ∧
     trace s2 = trace s ++ [StopClient (code (teardown s)); ForgetTarget;
                            ResetClient (code (teardown s))]).
Proof.
  intros Ht. split; [|split_and!].
  - assert (∀ n s0 s', teardown s0 ≠ Running → nsteps tunnel_step n s0 s' →
      (n ≤ running (to_target s0) + running (to_client s0))%nat) as Hn.
    { intros n s0 s' H0 Hsteps. induction Hsteps as [|n s0 s1 s' Hstep _ IH]; [lia|].
      apply torn_step in Hstep as [E Hlt]; [|done]. rewrite E in IH. specialize (IH H0). lia. }
    intros n s' Hs. apply Hn in Hs; [|done].
    assert (∀ p, running p ≤ 1)%nat as Hle by (intros []; cbn; lia).
    pose proof (Hle (to_target s)). pose proof (Hle (to_client s)). lia.
  - intros i Hr. unfold client_to_target, torn_down. rewrite bool_decide_eq_false_2 by done.
    destruct (to_target s); [by eauto..|done].
  - intros i Hr. unfold target_to_client, torn_down. rewrite bool_decide_eq_false_2 by done.
    destruct (to_client s); [by eauto..|done].
  - intros i j s1 s2. unfold client_to_target, target_to_client, torn_down.
    rewrite bool_decide_eq_false_2 by done.
    destruct (to_target s); [intros [= <-]|intros [= <-]|done];
      cbn [teardown to_client pump_up emit]; rewrite bool_decide_eq_false_2 by done;
      (destruct (to_client s); [intros [= <-]|intros [= <-]|done]); cbn;
      rewrite <- app_assoc; done.
Qed.

(** ** The relay buffer *)

Section RelayFacts.
Context `{!BytesMut}.

(** Reads that fit the window they are offered. *)
Fixpoint fits (reads : list bytes) (buf : Buf) : Prop :=
  match reads with
  | [] => True
  | data :: reads =>
      blen data ≤ capacity (ensure_window buf) ∧ fits reads (relay_read data buf).2
  end.

Lemma window_ok buf : RELAY_BUF_SIZE ≤ capacity (ensure_window buf) ∧
  filled (ensure_window buf) = filled buf ∧
  (capacity buf < RELAY_BUF_SIZE → RELAY_BLOCK_SIZE ≤ capacity (ensure_window buf)) ∧
  (RELAY_BUF_SIZE ≤ capacity buf → ensure_window buf = buf).
Proof.
  unfold ensure_window. destruct (reserve_ok RELAY_BLOCK_SIZE buf) as [Hf Hc].
  pose proof (blen_nonneg (filled buf)). unfold RELAY_BLOCK_SIZE, RELAY_BUF_SIZE in *.
  destruct (Z.ltb_spec (capacity buf) (16 * 1024)); split_and!; try lia; done.
Qed.

Lemma relay_read_ok data buf :
  filled buf = [] → blen data ≤ capacity (ensure_window buf) →
  (relay_read data buf).1 = data ∧ filled (relay_read data buf).2 = [] ∧
  capacity (relay_read data buf).2 = capacity (ensure_window buf) - blen data.
Proof.
  intros Hf Hfit. unfold relay_read. destruct (window_ok buf) as (_ & Hw & _).
  destruct (put_ok data (ensure_window buf)) as [Hp Hc]; [rewrite Hw, Hf; done|].
  destruct (split_ok (put data (ensure_window buf))) as (H1 & H2 & H3).
  rewrite Hp, Hw, Hf in *. split_and!; [done..|]. by rewrite H3, Hc.
Qed.

(** What of a block may still be used before the next is asked for. *)
Definition left_over (c : Z) : Z :=
  Z.min (RELAY_BLOCK_SIZE - RELAY_BUF_SIZE) (Z.max 0 (c - RELAY_BUF_SIZE)).

Lemma relay_reads_ok reads buf :
  filled buf = [] → fits reads buf →
  (relay_reads reads buf).1 = reads ∧
  (relay_reads reads buf).2 * (RELAY_BLOCK_SIZE - RELAY_BUF_SIZE) ≤
    blen (concat reads) + (RELAY_BLOCK_SIZE - RELAY_BUF_SIZE) - left_over (capacity buf).
Proof.
  revert buf. induction reads as [|data reads IH]; intros buf Hf; cbn [fits relay_reads].
  { intros _. split; [done|]. unfold left_over, blen. cbn [concat length snd]. lia. }
  intros [Hfit Hrest]. destruct (relay_read_ok data buf Hf Hfit) as (H1 & H2 & H3).
  destruct (window_ok buf) as (_ & _ & Hnew & Hsame).
  destruct (relay_read data buf) as [chunk rest]. cbn [fst snd] in *. subst chunk.
  destruct (IH rest H2 Hrest) as [Hc Hb]. destruct (relay_reads reads rest) as [chunks blocks].
  cbn [fst snd] in *. subst chunks. split; [done|]. cbn [concat]. rewrite blen_app.
  pose proof (blen_nonneg data). rewrite H3 in Hb. unfold left_over in *.
  destruct (Z.ltb_spec (capacity buf) RELAY_BUF_SIZE) as [Hlt|Hge].
  - specialize (Hnew Hlt). unfold RELAY_BLOCK_SIZE, RELAY_BUF_SIZE in *. lia.
  - rewrite (Hsame Hge) in Hb. unfold RELAY_BLOCK_SIZE, RELAY_BUF_SIZE in *. lia.
Qed.

(** The relay's memory. Every read is offered at least [RELAY_BUF_SIZE] bytes of
    room; the chunks sent on are the reads, byte for byte; and a further block is
    asked for only after [RELAY_BLOCK_SIZE - RELAY_BUF_SIZE] bytes have been relayed
    through each before it, however small the reads. *)
Theorem relay_blocks reads :
  let start := with_capacity RELAY_BUF_SIZE in
  fits reads start →
  (∀ buf, RELAY_BUF_SIZE ≤ capacity (ensure_window buf)) ∧
  (relay_reads reads start).1 = reads ∧
  ((relay_reads reads start).2 - 1) * (RELAY_BLOCK_SIZE - RELAY_BUF_SIZE) ≤ blen (concat reads).
Proof.
  intros start Hfit. split; [intros buf; apply window_ok|].
  destruct (with_capacity_ok RELAY_BUF_SIZE) as [Hf _].
  destruct (relay_reads_ok reads start Hf Hfit) as [Hc Hb]. split; [done|].
  unfold left_over, RELAY_BLOCK_SIZE, RELAY_BUF_SIZE in *. lia.
Qed.
End RelayFacts.

(** A buffer that is its bytes and its room. *)
#[local] Program Instance plain_buffer : BytesMut := {|
  Buf := bytes * Z;
  filled := fst;
  capacity := snd;
  with_capacity n := ([], n);
  reserve n b := (b.1, Z.max b.2 (blen b.1 + n));
  put d b := (b.1 ++ d, b.2);
  split b := (b.1, ([], b.2 - blen b.1));
|}.
Next Obligation. done. Qed.
Next Obligation. intros n b. split; [done|]. cbn. lia. Qed.
Next Obligation. done. Qed.
Next Obligation. done. Qed.

Lemma relay_blocks_witness :
  (relay_reads [lit "hello"; lit "world"] (with_capacity RELAY_BUF_SIZE)).1 =
    [lit "hello"; lit "world"].
Proof.
  apply (relay_blocks [lit "hello"; lit "world"]).
  split; [vm_compute; discriminate|]. split; [vm_compute; discriminate|]. exact I.
Defined.

(** ** Opening a tunnel *)

Section OpenFacts.
Context {Socket QuinnError : Type}.
Context (connect : SocketAddr → Attempt Socket).
Context (set_nodelay : Socket → Socket).
Context (holds_address : IpAddr → bool).
Context (EMFILE ENFILE ENOBUFS ENOMEM EADDRNOTAVAIL : Z).
Hypothesis connect_takes_time : ∀ a after r, connect a = Completes after r → 0 ≤ after.
Implicit Types w : @WriteOutcome QuinnError.

#[local] Abbreviation connect_from := (connect_from connect).
#[local] Abbreviation connect_any_with := (connect_any_with connect).
#[local] Abbreviation run_tcp :=
  (run_tcp connect set_nodelay holds_address EMFILE ENFILE ENOBUFS ENOMEM EADDRNOTAVAIL).

(** An attempt that failed on its own. *)
Definition refused (a : SocketAddr) (e : IoError) : Prop := ∃ after, connect a = Completes after (Err e).

(** What the loop says when it returns: the first address that accepted, or the one
    the answer names: still in flight when the budget ran out, or the last to
    fail. *)
Definition connect_result (budget : option Z) (last : option Unreachable) (addrs : list SocketAddr)
    (t : Z) (r : result Socket Unreachable) : Prop :=
  match r with
  | Ok tcp => ∃ failed a later after, addrs = failed ++ a :: later ∧
      connect a = Completes after (Ok tcp) ∧ Forall (λ b, ∃ e, refused b e) failed
  | Err u =>
      (addrs = [] ∧ u = default no_addresses last) ∨
      ∃ failed a later, addrs = failed ++ a :: later ∧ next_hop u = Some a ∧
        Forall (λ b, ∃ e, refused b e) failed ∧
        (later = [] ∧ refused a (error u) ∨
         budget = Some t ∧ error u = mkIoError None KindTimedOut)
  end.

Lemma connect_result_cons budget last a e addrs t r :
  refused a e →
  connect_result budget (Some (mkUnreachable (Some a) e)) addrs t r →
  connect_result budget last (a :: addrs) t r.
Proof.
  intros Ha. unfold connect_result. destruct r as [tcp|u].
  - intros (failed & b & later & after & -> & Hb & Hf). exists (a :: failed), b, later, after.
    split_and!; [done..|]. constructor; eauto.
  - intros [[-> ->]|(failed & b & later & -> & Hn & Hf & Hend)]; right.
    + exists [], a, []. cbn. split_and!; [done..|by apply Forall_nil|auto].
    + exists (a :: failed), b, later. split_and!; [done..| |done]. constructor; eauto.
Qed.

Lemma connect_from_ok budget now last addrs t r :
  connect_from budget now last addrs = Some (t, r) → connect_result budget last addrs t r.
Proof.
  revert now last. induction addrs as [|a addrs IH]; intros now last; cbn [TcpTunnel.connect_from].
  { intros [= <- <-]. left. done. }
  assert (∀ after r', connect a = Completes after r' →
    match r' with
    | Ok tcp => Some (now + after, Ok tcp)
    | Err e => connect_from budget (now + after) (Some (mkUnreachable (Some a) e)) addrs
    end = Some (t, r) → connect_result budget last (a :: addrs) t r) as Hnext.
  { intros after [tcp|e] Ha.
    - intros [= <- <-]. exists [], a, addrs, after. split_and!; [done..|by apply Forall_nil].
    - intros Hr%IH. apply (connect_result_cons budget last a e); [by exists after|done]. }
  assert (∀ b, budget = Some b → connect_result budget last (a :: addrs) b
    (Err (mkUnreachable (Some a) (mkIoError None KindTimedOut)))) as Hout.
  { intros b ->. right. exists [], a, addrs. split_and!; [done..|by apply Forall_nil|auto]. }
  destruct budget as [b|], (connect a) as [after r'|] eqn:Ea; [| | |done].
  - destruct (now + after <=? b); [by apply Hnext|]. intros [= <- <-]. by apply Hout.
  - intros [= <- <-]. by apply Hout.
  - by apply Hnext.
Qed.

Lemma connect_from_time b now last addrs :
  now ≤ b → ∃ t r, connect_from (Some b) now last addrs = Some (t, r) ∧ now ≤ t ≤ b.
Proof.
  revert now last. induction addrs as [|a addrs IH]; intros now last Hn;
    cbn [TcpTunnel.connect_from]; [by eauto with lia|].
  destruct (connect a) as [after [tcp|e]|] eqn:Ea; [| |by eauto with lia];
    pose proof (connect_takes_time _ _ _ Ea); destruct (Z.leb_spec (now + after) b); eauto with lia.
  destruct (IH (now + after) (Some (mkUnreachable (Some a) e)) H0) as (t & r & -> & Ht).
  exists t, r. split; [done|lia].
Qed.

(** The connect budget. With a budget the attempts together always return within
    it, however many addresses there are and however many never answer; success is
    the first address that accepts after every one before it failed; and a failure
    names the address that was in flight when the budget ran out, or the last one
    to fail. *)
Theorem connect_budget addrs b :
  0 ≤ b →
  ∃ t r, connect_any_with addrs (Some b) = Some (t, r) ∧ 0 ≤ t ≤ b ∧
    connect_result (Some b) None addrs t r.
Proof.
  intros Hb. destruct (connect_from_time b 0 None addrs Hb) as (t & r & Hr & Ht).
  exists t, r. split_and!; [done|lia..|]. by eapply connect_from_ok.
Qed.

(** The target connection a request came to. *)
Definition dialled (authority : bytes) (ctx : Context) (lookup : bytes → Z → Lookup) (tcp : Socket)
    : Prop :=
  ∃ host port addrs t tcp0,
    split_authority authority = Ok (host, port) ∧
    admitted holds_address port ctx (lookup host port) addrs ∧
    connect_result (connect_timeout ctx) None addrs t (Ok tcp0) ∧ tcp = set_nodelay tcp0.

(** Opening a tunnel. A tunnel is established, or its target connection reset,
    only after a well-formed authority was admitted and the first of its addresses
    to accept was connected; it is established exactly when the one 200 was
    written, and the connection is reset when it was not; without a connection the
    request has been answered, once; and with a connect timeout opening always
    returns. *)
Theorem tcp_opening authority ctx lookup w :
  (∀ b, connect_timeout ctx = Some b → 0 ≤ b → is_Some (run_tcp authority ctx lookup w)) ∧
  ∀ ctx' effects opened, run_tcp authority ctx lookup w = Some (ctx', effects, opened) →
  match opened with
  | NoTarget => ∃ frame, effects = Stop H3_NO_ERROR :: Write frame :: ending w
  | Established tcp =>
      ctx' = ctx ∧ w = Written ∧ (∃ frame, effects = [Write frame]) ∧
      dialled authority ctx lookup tcp
  | TargetReset tcp =>
      ctx' = ctx ∧ w ≠ Written ∧ (∃ frame, effects = Write frame :: ending w) ∧
      dialled authority ctx lookup tcp
  end.
Proof.
  assert (∃ okframe, response_frame OK fields_new = Some okframe) as [okframe Hok]
    by (eexists; vm_compute; reflexivity).
  assert (is_Some (response_frame OK fields_new)) as Hok' by eauto.
  unfold TcpTunnel.run_tcp. destruct (split_authority authority) as [[host port]|reason] eqn:Ea.
  2:{ assert (∃ f, refuse BAD_REQUEST w = Some (Stop H3_NO_ERROR :: Write f :: ending w)) as [f ->].
      { eexists. apply refuse_with_eq. vm_compute. reflexivity. }
      cbn. split; [eauto|]. intros ctx' effects opened [= <- <- <-]. eauto. }
  pose proof (admit_target_returns holds_address port ctx (lookup host port) fields_new w Hok') as Hret.
  destruct (admit_target holds_address port ctx (lookup host port) (Some fields_new) w)
    as [[[c1 e1] [allowed|]]|] eqn:Eadm; cbn [mbind option_bind].
  - apply admit_target_some in Eadm as (-> & -> & Hadm); [|done].
    assert (∀ b, connect_timeout ctx = Some b → 0 ≤ b →
      is_Some (connect_any_with allowed (connect_timeout ctx))) as Hc.
    { intros b -> Hb. destruct (connect_from_time b 0 None allowed Hb) as (t & r & Hr & _).
      eexists. exact Hr. }
    destruct (connect_any_with allowed (connect_timeout ctx)) as [[t [tcp|failure]]|] eqn:Ec;
      cbn [mbind option_bind].
    + apply connect_from_ok in Ec. unfold respond, respond_within. rewrite Hok.
      cbn [mbind option_bind app].
      assert (dialled authority ctx lookup (set_nodelay tcp)) as Hd
        by (exists host, port, allowed, t, tcp; done).
      destruct w; cbn [landed]; (split; [by eauto|]); intros ctx' effects opened [= <- <- <-];
        split_and!; try done; eauto.
    + destruct (refuse_unreachable_eq EMFILE ENFILE ENOBUFS ENOMEM EADDRNOTAVAIL failure w)
        as (f & _ & ->). cbn. split; [eauto|]. intros ctx' effects opened [= <- <- <-]. eauto.
    + split; [|done]. intros b Hb Hpos. by destruct (Hc b Hb Hpos).
  - apply admit_target_none in Eadm as (f & ->); [|done]. split; [eauto|].
    intros ctx' effects opened [= <- <- <-]. eauto.
  - split; [|done]. intros b Hb _. destruct Hret as [? ?]; [congruence|done].
Qed.
End OpenFacts.

(** ** Witnesses *)

Section Witnesses.
#[local] Definition after_close : Tunnel :=
  mkTunnel Running true true Returned Returned
    [FromClient (lit "GET"); ToTarget (lit "G"); FromTarget (lit "hi"); ToTarget (lit "ET");
     ToClient (lit "hi"); ClientFin; ShutdownTarget; TargetEof; FinishClient].

#[local] Definition after_abort : Tunnel :=
  mkTunnel ClientAbort false false Returned Returned
    [FromClient (lit "GET"); ClientReset; AbortTarget; ForgetTarget; Raise ClientAbort;
     ResetClient H3_REQUEST_CANCELLED].

(** Runs of the two pumps from given inputs. *)
Ltac go_up i := eapply rtc_l; [apply (up_step i); vm_compute; reflexivity|].
Ltac go_down i := eapply rtc_l; [apply (down_step i); vm_compute; reflexivity|].

Lemma relay_faithful_witness :
  FinishClient ∈ trace after_close ∧
  flow sent_client (trace after_close) = flow from_target (trace after_close).
Proof.
  assert (FinishClient ∈ trace after_close) as Hin by set_solver.
  split; [exact Hin|]. refine (proj1 (proj2 (proj2 (proj2 (relay_faithful after_close _))) Hin)).
  go_up (RecvData (Ok (Some (lit "GET")))). go_up (Wrote 1). go_down (ReadBuf (Ok (lit "hi"))).
  go_up (Wrote 2). go_down (SentData 2). go_up (RecvData (Ok None)). go_down (ReadBuf (Ok [])).
  apply rtc_refl.
Defined.

Lemma tunnel_endings_witness :
  ClientReset ∈ trace after_abort ∧ AbortTarget ∈ trace after_abort.
Proof.
  assert (ClientReset ∈ trace after_abort) as Hin by set_solver.
  split; [exact Hin|].
  refine (proj2 (proj2 (proj2 (proj2 (tunnel_endings after_abort _ eq_refl eq_refl)))) (or_introl Hin)).
  go_up (RecvData (Ok (Some (lit "GET")))). go_up ResetByPeer. go_down Stopped. apply rtc_refl.
Defined.

Lemma teardown_ends_both_witness :
  let s := mkTunnel TargetError false true (Writing (lit "x")) Returned [] in
  teardown s ≠ Running ∧ is_Some (client_to_target NothingUp s).
Proof.
  intros s. split; [discriminate|].
  refine (proj1 (proj2 (teardown_ends_both s _)) NothingUp _); discriminate.
Defined.

#[local] Definition loopback (n : Z) : SocketAddr :=
  mkSocketAddr (V4 (mk4 (as_u8 127) (as_u8 0) (as_u8 0) (as_u8 n))) 80.
#[local] Definition dial (a : SocketAddr) : Attempt unit :=
  if bool_decide (a = loopback 1) then Completes 3 (Err (mkIoError None KindConnectionRefused))
  else Hangs.

Lemma dial_takes_time a after r : dial a = Completes after r → 0 ≤ after.
Proof. unfold dial. case_match; [|done]. intros [= <- _]. lia. Qed.

Lemma connect_budget_witness :
  ∃ t r, connect_any_with dial [loopback 1; loopback 2; loopback 3] (Some 10) = Some (t, r) ∧ 0 ≤ t ≤ 10.
Proof.
  destruct (connect_budget dial dial_takes_time [loopback 1; loopback 2; loopback 3] 10)
    as (t & r & H & Ht & _); [lia|].
  exists t, r. split; [exact H|exact Ht].
Defined.

Lemma tcp_opening_witness :
  let ctx := context_new (mkSettings [] (mkPolicy false []) 3 100 (Some 10) Net.System 64) true in
  is_Some (run_tcp (QuinnError := unit) dial (λ s, s) (λ _, false) 1 2 3 4 5 (lit "example.com:80")
    ctx (λ _ _, NeverAnswers) Written).
Proof.
  intros ctx.
  apply (tcp_opening (QuinnError := unit) dial (λ s, s) (λ _, false) 1 2 3 4 5 dial_takes_time
    (lit "example.com:80") ctx (λ _ _, NeverAnswers) Written) with 10; [reflexivity|lia].
Defined.
End Witnesses.
