(* ===== verification/Roster.v ===== *)
(** * The connections being served (src/src/quic/roster.rs, quic/mod.rs)

    The roster the accept loop decides [max_connections] against: a [BTreeMap] by
    accept sequence whose slots share a connection's authentication flag and its
    eviction signal; [Server::admit], which takes a slot from the oldest connection
    that never authenticated; and the life of a slot, from [serve] to the drop of
    its [Registration]. *)

From S2P Require Import Prelude Policy Status.

#[local] Open Scope Z_scope.

(** ** The map *)

Section BTreeMap.
Context {V : Type}.

(** [BTreeMap<u64, V>] as its entries in key order. *)
Fixpoint btree_insert (k : Z) (v : V) (l : list (Z * V)) : list (Z * V) :=
  match l with
  | [] => [(k, v)]
  | (k', v') :: l' =>
      if k <? k' then (k, v) :: l
      else if k =? k' then (k, v) :: l'
      else (k', v') :: btree_insert k v l'
  end.

Definition btree_remove (k : Z) (l : list (Z * V)) : list (Z * V) :=
  List.filter (λ e, negb (e.1 =? k)) l.
End BTreeMap.

(** ** The roster *)

(** The flag and the signal are shared with the connection's task: a slot holds
    their names, and [Shared] their state. *)
Record Slot := mkSlot { remote : SocketAddr; authenticated : Z; evict : Z }.

Record Roster := mkRoster { slots : list (Z * Slot); next : Z }.

Definition roster_new : Roster := mkRoster [] 0.

Definition len (r : Roster) : Z := blen (slots r).

(** What the handles point to: the gates that are open, and the signals that hold
    a permit. *)
Record Shared := mkShared { opened : gset Z; permits : gset Z }.

Definition is_open (s : Shared) (gate : Z) : bool := bool_decide (gate ∈ opened s).

(** [notify_one] on one, [mark] on the other. *)
Definition notify_one (signal : Z) (s : Shared) : Shared :=
  mkShared (opened s) ({[signal]} ∪ permits s).
Definition mark (gate : Z) (s : Shared) : Shared :=
  mkShared ({[gate]} ∪ opened s) (permits s).

(** The eviction signal and the sequence number of the registration; the signal is
    a new one, named after it. *)
Definition register (peer : SocketAddr) (gate : Z) (r : Roster) : Roster * Z :=
  let sequence := next r in
  (mkRoster (btree_insert sequence (mkSlot peer gate sequence) (slots r)) (wrap 64 (next r + 1)),
   sequence).

Definition registration_drop (sequence : Z) (r : Roster) : Roster :=
  mkRoster (btree_remove sequence (slots r)) (next r).

Definition evict_oldest_from (s : Shared) (l : list (Z * Slot))
    : option (Shared * list (Z * Slot) * SocketAddr) :=
  '(sequence, slot) ← List.find (λ e, negb (is_open s (authenticated e.2))) l;
  Some (notify_one (evict slot) s, btree_remove sequence l, remote slot).

(** One turn of the [while]. *)
Definition evict_step (cap : Z) (x : Shared * list (Z * Slot) * list SocketAddr)
    : (Shared * list (Z * Slot) * list SocketAddr) + (Shared * list (Z * Slot) * list SocketAddr) :=
  let '(s, l, victims) := x in
  if cap <=? blen l then
    match evict_oldest_from s l with
    | Some (s, l, victim) => inl (s, l, victims ++ [victim])
    | None => inr (s, l, victims)
    end
  else inr (s, l, victims).

Lemma remove_shorter l e : e ∈ l → (length (btree_remove (V := Slot) e.1 l) < length l)%nat.
Proof.
  unfold btree_remove. induction l as [|e' l IH]; [by intros ?%elem_of_nil|].
  cbn [List.filter length]. pose proof (List.filter_length_le (λ x, negb (x.1 =? e.1)) l).
  destruct (Z.eqb_spec e'.1 e.1); cbn [negb length]; [lia|].
  rewrite elem_of_cons. intros [->|He]; [done|]. specialize (IH He). lia.
Qed.

#[export] Program Instance evict_loop cap : Loop (evict_step cap) :=
  {| loop_measure x := length x.1.2 |}.
Next Obligation.
  intros cap [[s l] v] [[s' l'] v']. unfold evict_step, evict_oldest_from. case_match; [|done].
  destruct (List.find _ l) as [[k slot]|] eqn:E; cbn; [|done]. intros [= <- <- <-].
  apply List.find_some in E as [Hin _]. apply (remove_shorter l (k, slot)).
  by apply list_elem_of_In.
Qed.

Definition evict_until_below (cap : Z) (s : Shared) (r : Roster)
    : Shared * Roster * list SocketAddr :=
  let '(s, l, victims) := run (evict_step cap) (s, slots r, []) in
  (s, mkRoster l (next r), victims).

(** ** Admission (quic/mod.rs) *)

(** An incoming connection, as far as [admit_incoming] looks at it: whether its address is
    validated, whether quinn lets it be asked to retry, and whether asking worked. *)
Record Incoming := mkIncoming {
  remote_address : SocketAddr;
  remote_address_validated : bool;
  may_retry : bool;
  retry_ok : bool;
}.

Inductive Admission := Admitted_ | Retried | Refused_.

(** [usize] is 64 bits, so the cap always converts. *)
Definition live_ceiling (max_connections : Z) : Z := max_connections.

Definition admit_incoming (max_connections : Z) (incoming : Incoming) (s : Shared) (r : Roster)
    : Shared * Roster * Admission :=
  if max_connections =? 0 then (s, r, Admitted_)
  else
    let ceiling := live_ceiling max_connections in
    if len r <? ceiling then (s, r, Admitted_)
    else if negb (remote_address_validated incoming) then
      if may_retry incoming && retry_ok incoming then (s, r, Retried) else (s, r, Refused_)
    else
      let '(s, r, _) := evict_until_below ceiling s r in
      if ceiling <=? len r then (s, r, Refused_) else (s, r, Admitted_).

(** What happens to the roster: an arrival that is served when admitted, with a new
    gate of its own, a request that authenticates, a task that ends. *)
Inductive Happening :=
  | Arrives (max_connections : Z) (incoming : Incoming)
  | Authenticates (gate : Z)
  | TaskEnds (sequence : Z).

Definition server_step (e : Happening) (x : Shared * Roster) : Shared * Roster :=
  match e with
  | Arrives max_connections incoming =>
      let '(s, r, verdict) := admit_incoming max_connections incoming x.1 x.2 in
      match verdict with
      | Admitted_ => (s, (register (remote_address incoming) (next r) r).1)
      | _ => (s, r)
      end
  | Authenticates gate => (mark gate x.1, x.2)
  | TaskEnds sequence => (x.1, registration_drop sequence x.2)
  end.

(** ** Eviction *)

Definition keys {V} (l : list (Z * V)) : list Z := map fst l.

(** A slot whose connection has not authenticated. *)
Definition evictable (s : Shared) (e : Z * Slot) : bool := negb (is_open s (authenticated e.2)).

(** The entries of [l] that are not among [victims]. *)
Definition without (victims l : list (Z * Slot)) : list (Z * Slot) :=
  List.filter (λ e, negb (bool_decide (e.1 ∈ keys victims))) l.

Lemma find_filter {A} (f : A → bool) l :
  List.find f l = match List.filter f l with [] => None | x :: _ => Some x end.
Proof. induction l as [|x l IH]; cbn; [done|]. by destruct (f x). Qed.

Lemma without_cons v victims l : without (v :: victims) l = without victims (btree_remove v.1 l).
Proof.
  unfold without, btree_remove. induction l as [|e l IH]; cbn [List.filter]; [done|].
  destruct (Z.eqb_spec e.1 v.1) as [E|E]; cbn [negb List.filter].
  - rewrite bool_decide_eq_true_2 by (cbn; set_solver). done.
  - replace (bool_decide (e.1 ∈ keys (v :: victims))) with (bool_decide (e.1 ∈ keys victims))
      by (apply bool_decide_ext; cbn; set_solver). by rewrite IH.
Qed.

Lemma without_nil l : without [] l = l.
Proof.
  unfold without. induction l as [|e l IH]; cbn [List.filter]; [done|].
  rewrite bool_decide_eq_false_2 by (cbn; set_solver). cbn [negb]. by rewrite IH.
Qed.

(** Removing the first evictable entry takes it off the list of evictable ones and
    one off the length. *)
Lemma remove_first s l v un :
  NoDup (keys l) → List.filter (evictable s) l = v :: un →
  List.filter (evictable s) (btree_remove v.1 l) = un ∧
  blen (btree_remove v.1 l) = blen l - 1 ∧ NoDup (keys (btree_remove v.1 l)).
Proof.
  assert (∀ l', v.1 ∉ keys l' → btree_remove (V := Slot) v.1 l' = l') as Hid.
  { unfold btree_remove. intros l'. induction l' as [|e l' IH]; cbn; [done|].
    rewrite not_elem_of_cons. intros [Hne Hin]. destruct (Z.eqb_spec e.1 v.1); [congruence|].
    cbn. by rewrite IH. }
  unfold keys. induction l as [|e l IH]; cbn [map List.filter]; [done|].
  rewrite NoDup_cons. intros [Hnin Hnd]. unfold btree_remove. cbn [List.filter].
  fold (btree_remove (V := Slot) v.1 l).
  destruct (evictable s e) eqn:Ee.
  - intros [= -> <-]. rewrite Z.eqb_refl. cbn [negb]. rewrite (Hid l Hnin).
    split_and!; [done|unfold blen; cbn [length]; lia|done].
  - intros Hf. destruct (IH Hnd Hf) as (H1 & H2 & H3).
    assert (v ∈ l) as Hv.
    { apply list_elem_of_In. apply (List.filter_In (evictable s)). rewrite Hf. by left. }
    destruct (Z.eqb_spec e.1 v.1) as [E|E].
    { exfalso. apply Hnin. rewrite E. apply list_elem_of_fmap. eauto. }
    cbn [negb List.filter map]. rewrite Ee. split_and!; [done| |].
    + unfold blen in *. cbn [length]. lia.
    + apply NoDup_cons. split; [|done]. intros Hin. apply Hnin.
      apply list_elem_of_fmap in Hin as (x & -> & Hx). apply list_elem_of_fmap. exists x.
      split; [done|]. apply list_elem_of_In in Hx. unfold btree_remove in Hx.
      apply List.filter_In in Hx as [Hx _]. by apply list_elem_of_In.
Qed.

(** The permits of the victims. *)
Definition signalled (victims : list (Z * Slot)) (s : Shared) : Shared :=
  mkShared (opened s) (list_to_set (map (λ e, evict e.2) victims) ∪ permits s).

(** How many have to go for the roster to be below the cap. *)
Definition excess (cap : Z) (l : list (Z * Slot)) : nat := Z.to_nat (blen l - cap + 1).

Lemma evict_run cap s l names :
  NoDup (keys l) →
  let victims := take (excess cap l) (List.filter (evictable s) l) in
  run (evict_step cap) (s, l, names) =
  (signalled victims s, without victims l, names ++ map (λ e, remote e.2) victims).
Proof.
  remember (length l) as n eqn:Hn. revert s l names Hn.
  induction n as [n IH] using lt_wf_ind. intros s l names Hn Hnd. cbv zeta.
  rewrite run_unfold. unfold evict_step at 1, evict_oldest_from. rewrite find_filter.
  fold (evictable s).
  assert (∀ k, take k (@nil (Z * Slot)) = []) as Hnil by (by intros []).
  assert (signalled [] s = s) as Hsig.
  { unfold signalled. cbn. rewrite (left_id_L ∅ (∪)). by destruct s. }
  destruct (Z.leb_spec cap (blen l)) as [Hle|Hgt].
  2:{ replace (excess cap l) with 0%nat by (unfold excess; lia). rewrite take_0.
      by rewrite without_nil, Hsig, app_nil_r. }
  destruct (List.filter (evictable s) l) as [|v un] eqn:Ef; cbn [mbind option_bind].
  { by rewrite Hnil, without_nil, Hsig, app_nil_r. }
  destruct v as [k slot]. destruct (remove_first s l (k, slot) un Hnd Ef) as (Hun & Hlen & Hnd').
  cbn [fst] in Hun, Hlen, Hnd'. cbn [mbind option_bind].
  assert (evictable (notify_one (evict slot) s) = evictable s) as Hev by done.
  assert (length (btree_remove k l) < n)%nat as Hlt by (unfold blen in Hlen; lia).
  rewrite (IH _ Hlt (notify_one (evict slot) s) (btree_remove k l) (names ++ [remote slot]) eq_refl Hnd').
  rewrite Hev, Hun.
  replace (excess cap l) with (S (excess cap (btree_remove k l))) by (unfold excess; lia).
  cbn [take]. rewrite without_cons. cbn [fst map snd]. rewrite <- app_assoc. do 2 f_equal.
  unfold signalled, notify_one. cbn. f_equal. set_solver.
Qed.

Lemma without_length victims l :
  NoDup (keys l) → victims `sublist_of` l → blen (without victims l) = blen l - blen victims.
Proof.
  intros Hnd Hsub. induction Hsub as [|e v l Hsub IH|e v l Hsub IH]; cbn [keys map] in *.
  - done.
  - apply NoDup_cons in Hnd as [Hnin Hnd]. rewrite without_cons.
    unfold btree_remove. cbn [List.filter]. rewrite Z.eqb_refl. cbn [negb].
    fold (btree_remove (V := Slot) e.1 l).
    assert (btree_remove (V := Slot) e.1 l = l) as ->.
    { clear -Hnin. unfold btree_remove. induction l as [|x l IH]; cbn [List.filter keys map] in *; [done|].
      apply not_elem_of_cons in Hnin as [Hne Hnin]. destruct (Z.eqb_spec x.1 e.1); [congruence|].
      cbn. by rewrite IH. }
    rewrite IH by done. unfold blen. cbn [length]. lia.
  - apply NoDup_cons in Hnd as [Hnin Hnd]. unfold without. cbn [List.filter].
    rewrite bool_decide_eq_false_2.
    + cbn [negb]. unfold blen in *. cbn [length]. specialize (IH Hnd). unfold without in IH. lia.
    + intros Hin. apply Hnin. apply list_elem_of_fmap in Hin as (x & -> & Hx).
      apply list_elem_of_fmap. exists x. split; [done|]. by eapply elem_of_sublist.
Qed.

Lemma filter_sublist {A} (f : A → bool) l : List.filter f l `sublist_of` l.
Proof. induction l as [|x l IH]; cbn; [done|]. destruct (f x); by constructor. Qed.

Lemma take_sublist {A} n (l : list A) : take n l `sublist_of` l.
Proof. rewrite <- (take_drop n l) at 2. apply sublist_inserts_r. done. Qed.

(** What is left is below the cap, or may not be taken. *)
Lemma evict_enough cap s l :
  NoDup (keys l) →
  let victims := take (excess cap l) (List.filter (evictable s) l) in
  blen (without victims l) < cap ∨ List.filter (evictable s) l = victims.
Proof.
  intros Hnd victims.
  destruct (decide (length (List.filter (evictable s) l) ≤ excess cap l)%nat).
  - right. symmetry. by apply take_ge.
  - left. rewrite without_length; [|done|].
    + unfold victims. unfold blen at 2. rewrite length_take. unfold excess in *. lia.
    + etrans; [apply take_sublist|apply filter_sublist].
Qed.

Lemma evict_until_below_eq cap s r :
  NoDup (keys (slots r)) →
  let victims := take (excess cap (slots r)) (List.filter (evictable s) (slots r)) in
  evict_until_below cap s r =
  (signalled victims s, mkRoster (without victims (slots r)) (next r), map (λ e, remote e.2) victims).
Proof. intros Hnd. unfold evict_until_below. by rewrite evict_run. Qed.

Lemma elem_of_without victims l e :
  NoDup (keys l) → victims `sublist_of` l → e ∈ without victims l ↔ e ∈ l ∧ (e ∉ victims).
Proof.
  intros Hnd Hsub. unfold without. rewrite !list_elem_of_In, List.filter_In, <- !list_elem_of_In.
  rewrite negb_true_iff, bool_decide_eq_false.
  assert (e ∈ l → e.1 ∈ keys victims ↔ e ∈ victims) as Hk; [|naive_solver].
  intros He. split; [|intros Hv; apply list_elem_of_fmap; eauto].
  intros (x & Hx & Hxv)%list_elem_of_fmap.
  assert (x ∈ l) as Hxl by (by eapply elem_of_sublist).
  assert (x = e) as <-; [|done]. clear -Hnd He Hx Hxl.
  induction l as [|y l IH]; [by apply elem_of_nil in He|].
  cbn [keys map] in Hnd. apply NoDup_cons in Hnd as [Hnin Hnd].
  apply elem_of_cons in He as [->|He], Hxl as [->|Hxl]; auto.
  - destruct Hnin. rewrite Hx. apply list_elem_of_fmap. eauto.
  - destruct Hnin. rewrite <- Hx. apply list_elem_of_fmap. eauto.
Qed.

(** The victims of an eviction. *)
Lemma victims_evictable cap s l e :
  e ∈ take (excess cap l) (List.filter (evictable s) l) → e ∈ l ∧ evictable s e = true.
Proof.
  intros He.
  assert (e ∈ List.filter (evictable s) l) as Hf by (eapply elem_of_sublist; [done|apply take_sublist]).
  apply list_elem_of_In, List.filter_In in Hf as [Hl Hev]. split; [by apply list_elem_of_In|done].
Qed.

(** Eviction takes the oldest connections that never authenticated, exactly as
    many as the cap asks for and there are. Each is signalled and off the roster;
    nobody else is signalled or moved; and afterwards the roster is below the cap
    or every connection left on it has authenticated. *)
Theorem eviction_exact cap s r s' r' names :
  NoDup (keys (slots r)) → evict_until_below cap s r = (s', r', names) →
  ∃ victims,
    victims = take (excess cap (slots r)) (List.filter (evictable s) (slots r)) ∧
    names = map (λ e, remote e.2) victims ∧ opened s' = opened s ∧
    permits s' = list_to_set (map (λ e, evict e.2) victims) ∪ permits s ∧
    (∀ e, e ∈ slots r' ↔ e ∈ slots r ∧ (e ∉ victims)) ∧
    len r' = len r - blen victims ∧
    (len r' < cap ∨ ∀ e, e ∈ slots r' → is_open s' (authenticated e.2) = true).
Proof.
  intros Hnd. rewrite evict_until_below_eq by done. intros [= <- <- <-]. eexists. split; [done|].
  set (victims := take _ _).
  assert (victims `sublist_of` slots r) as Hsub
    by (etrans; [apply take_sublist|apply filter_sublist]).
  split_and!; [done..|intros e; by apply elem_of_without|by apply without_length|].
  destruct (evict_enough cap s (slots r) Hnd) as [Hlt|Hall]; [by left|right].
  fold victims in Hall. intros e [He Hv]%elem_of_without; [|done..].
  rewrite <- Hall in Hv. destruct (is_open s (authenticated e.2)) eqn:Eo; [done|]. destruct Hv.
  apply list_elem_of_In, List.filter_In. split; [by apply list_elem_of_In|].
  unfold evictable. by rewrite Eo.
Qed.

(** ** The cap *)

(** Sequence numbers are those already handed out, in order. *)
Definition roster_ok (r : Roster) : Prop :=
  StronglySorted Z.lt (keys (slots r)) ∧ Forall (λ k, k < next r) (keys (slots r)).

Lemma sorted_nodup l : StronglySorted Z.lt l → NoDup l.
Proof.
  induction 1 as [|k l _ IH Hk]; constructor; [|done]. intros Hin.
  rewrite Forall_forall in Hk. specialize (Hk k Hin). lia.
Qed.

Lemma keys_filter_ok (f : Z * Slot → bool) l n :
  StronglySorted Z.lt (keys l) → Forall (λ k, k < n) (keys l) →
  StronglySorted Z.lt (keys (List.filter f l)) ∧ Forall (λ k, k < n) (keys (List.filter f l)).
Proof.
  assert (∀ P l, Forall P (keys l) → Forall P (keys (List.filter f l))) as HF.
  { intros P l0. induction l0 as [|e l0 IH]; cbn; [done|]. intros [H1 H2]%Forall_cons.
    destruct (f e); cbn; [constructor|]; auto. }
  intros Hs Hn. split; [|by apply HF].
  induction l as [|e l IH]; cbn [List.filter keys map] in *; [done|].
  apply StronglySorted_inv in Hs as [Hs He]. apply Forall_cons in Hn as [_ Hn].
  specialize (IH Hs Hn). destruct (f e); [|done]. cbn. constructor; [done|]. by apply HF.
Qed.

(** A new number goes last. *)
Lemma insert_last k v l :
  Forall (λ k', k' < k) (keys l) → btree_insert (V := Slot) k v l = l ++ [(k, v)].
Proof.
  induction l as [|[k' v'] l IH]; cbn; [done|]. intros [Hk Hl]%Forall_cons. cbn in Hk.
  destruct (Z.ltb_spec k k'), (Z.eqb_spec k k'); try lia. by rewrite IH.
Qed.

Lemma register_ok peer gate r :
  roster_ok r → 0 ≤ next r < 2 ^ 64 - 1 →
  roster_ok (register peer gate r).1 ∧ len (register peer gate r).1 = len r + 1 ∧
  next (register peer gate r).1 = next r + 1.
Proof.
  intros [Hs Hn] Hr. unfold register, roster_ok, len. cbn [fst slots next].
  rewrite insert_last by done. unfold keys in *. rewrite map_app. cbn [map fst].
  assert (wrap 64 (next r + 1) = next r + 1) as -> by (unfold wrap; apply Z.mod_small; lia).
  split_and!; [| |by rewrite blen_app|done].
  - clear Hr. induction Hs as [|k l Hs IH Hk]; cbn; [by repeat constructor|].
    apply Forall_cons in Hn as [Hn1 Hn2]. constructor; [auto|]. apply Forall_app. by repeat constructor.
  - apply Forall_app. split; [eapply Forall_impl; [exact Hn|]; cbn; lia|]. repeat constructor. lia.
Qed.

Lemma admit_ok max incoming s r s' r' v :
  roster_ok r → 0 < max → admit_incoming max incoming s r = (s', r', v) →
  roster_ok r' ∧ next r' = next r ∧ len r' ≤ len r ∧ (v = Admitted_ → len r' < max) ∧
  (∀ e, e ∈ slots r → is_open s (authenticated e.2) = true → e ∈ slots r') ∧
  (remote_address_validated incoming = true → v = Refused_ →
     ∀ e, e ∈ slots r' → is_open s' (authenticated e.2) = true).
Proof.
  intros Hok Hmax. unfold admit_incoming, live_ceiling. rewrite (proj2 (Z.eqb_neq max 0)) by lia.
  destruct (Z.ltb_spec (len r) max); [intros [= <- <- <-]; by split_and!|].
  destruct (remote_address_validated incoming); cbn [negb].
  2:{ destruct (_ && _); intros [= <- <- <-]; by split_and!. }
  destruct Hok as [Hs Hn]. pose proof (sorted_nodup _ Hs) as Hnd.
  rewrite evict_until_below_eq by done. set (victims := take _ _).
  assert (victims `sublist_of` slots r) as Hsub
    by (etrans; [apply take_sublist|apply filter_sublist]).
  pose proof (without_length _ _ Hnd Hsub) as Hlen. pose proof (blen_nonneg victims).
  intros Hv. assert (s' = signalled victims s ∧ r' = mkRoster (without victims (slots r)) (next r))
    as [-> ->] by (case_match; by simplify_eq).
  unfold roster_ok, len in *. cbn [slots next] in *. split_and!; [| |done|lia| | |].
  - by apply (keys_filter_ok _ _ (next r)).
  - by apply (keys_filter_ok _ _ (next r)).
  - destruct (Z.leb_spec max (blen (without victims (slots r)))); simplify_eq; [done|lia].
  - intros e He Ho. apply elem_of_without; [done..|]. split; [done|].
    intros [_ Hev]%victims_evictable. unfold evictable in Hev. by rewrite Ho in Hev.
  - intros _ ->. destruct (Z.leb_spec max (blen (without victims (slots r)))); [|by simplify_eq].
    destruct (evict_enough max s (slots r) Hnd) as [Hlt|Hall]; [fold victims in Hlt; lia|].
    fold victims in Hall. intros e [He Hnv]%elem_of_without; [|done..]. cbn.
    destruct (is_open s (authenticated e.2)) eqn:Eo; [done|]. destruct Hnv.
    rewrite <- Hall. apply list_elem_of_In, List.filter_In. split; [by apply list_elem_of_In|].
    unfold evictable. by rewrite Eo.
Qed.

(** The caps of the arrivals: positive, and none above [m]. *)
Definition caps_within (m : Z) (e : Happening) : Prop :=
  match e with Arrives c _ => 0 < c ≤ m | _ => True end.

Lemma server_step_ok m e x :
  caps_within m e → roster_ok x.2 → 0 ≤ next x.2 < 2 ^ 64 - 1 → len x.2 ≤ m →
  let x' := server_step e x in
  roster_ok x'.2 ∧ next x.2 ≤ next x'.2 ≤ next x.2 + 1 ∧ len x'.2 ≤ m ∧
  (∀ k slot, (k, slot) ∈ slots x.2 → is_open x.1 (authenticated slot) = true →
     e ≠ TaskEnds k → (k, slot) ∈ slots x'.2).
Proof.
  destruct x as [s r]. intros Hcap Hok Hnext Hlen. cbn [fst snd] in *.
  destruct e as [max incoming|gate|sequence]; cbn [server_step caps_within fst snd] in *.
  - destruct (admit_incoming max incoming s r) as [[s1 r1] v] eqn:Ea.
    apply admit_ok in Ea as (Hok1 & Hn1 & Hl1 & Hadm & Hkeep & _); [|done|lia].
    destruct v; cbn [fst snd]; [|split_and!; try lia; try done; intros k slot He Ho _; by apply Hkeep..].
    destruct (register_ok (remote_address incoming) (next r1) r1 Hok1) as (H1 & H2 & H3); [lia|].
    specialize (Hadm eq_refl). split_and!; [apply H1|lia|lia|lia|].
    intros k slot He Ho _. unfold register. cbn [fst slots].
    rewrite insert_last by apply Hok1. apply elem_of_app. left. by apply Hkeep.
  - split_and!; try lia; try apply Hok. done.
  - unfold registration_drop, roster_ok, len in *. cbn [slots next].
    destruct Hok as [Hs Hn]. destruct (keys_filter_ok (λ e, negb (e.1 =? sequence)) _ _ Hs Hn).
    pose proof (List.filter_length_le (λ e, negb (e.1 =? sequence)) (slots r)).
    unfold btree_remove, blen in *. split_and!; [done..|lia|lia|lia|].
    intros k slot He Ho Hne. apply list_elem_of_In, List.filter_In.
    split; [by apply list_elem_of_In|]. cbn. destruct (Z.eqb_spec k sequence); [congruence|done].
Qed.

Lemma server_run_ok m events x :
  Forall (caps_within m) events → roster_ok x.2 → 0 ≤ next x.2 →
  next x.2 + blen events < 2 ^ 64 - 1 → len x.2 ≤ m →
  let x' := foldl (λ x e, server_step e x) x events in
  roster_ok x'.2 ∧ 0 ≤ next x'.2 ≤ next x.2 + blen events ∧ len x'.2 ≤ m.
Proof.
  intros Hcaps. revert x. induction Hcaps as [|e events He _ IH]; intros x Hok H0 Hn Hl;
    cbn [foldl].
  { split_and!; try apply Hok; unfold blen; cbn [length]; lia. }
  assert (blen (e :: events) = 1 + blen events) as E by (unfold blen; cbn [length]; lia).
  pose proof (blen_nonneg events).
  destruct (server_step_ok m e x He Hok) as (H1 & H2 & H3 & _); [lia..|].
  destruct (IH (server_step e x)) as (H4 & H5 & H6); [done|lia|lia|lia|].
  split_and!; try apply H4; lia.
Qed.

(** C15: the connection cap. Over any sequence of arrivals, authentications and
    endings, under caps that may move but never above [m], at most [m] connections
    hold a slot; a connection that has authenticated keeps its slot whatever
    arrives, until its own task ends; and an arrival whose address is validated is
    refused only when every connection on the roster has authenticated. *)
Theorem roster_cap m events :
  0 < m → Forall (caps_within m) events → blen events < 2 ^ 64 - 2 →
  let x := foldl (λ x e, server_step e x) (mkShared ∅ ∅, roster_new) events in
  len x.2 ≤ m ∧
  (∀ e k slot, caps_within m e → (k, slot) ∈ slots x.2 → is_open x.1 (authenticated slot) = true →
     e ≠ TaskEnds k → (k, slot) ∈ slots (server_step e x).2) ∧
  (∀ max incoming s' r', 0 < max → remote_address_validated incoming = true →
     admit_incoming max incoming x.1 x.2 = (s', r', Refused_) →
     ∀ e, e ∈ slots r' → is_open s' (authenticated e.2) = true).
Proof.
  intros Hm Hcaps Hlen x.
  destruct (server_run_ok m events (mkShared ∅ ∅, roster_new) Hcaps) as (Hok & Hnext & Hl).
  - repeat constructor.
  - cbn. lia.
  - cbn [snd roster_new next]. lia.
  - unfold len, blen. cbn. lia.
  - fold x in Hok, Hnext, Hl. cbn [snd roster_new next] in Hnext. split; [done|]. split.
    + intros e k slot He Hin Ho Hne.
      destruct (server_step_ok m e x He Hok) as (_ & _ & _ & Hkeep); [lia..|]. by apply Hkeep.
    + intros max incoming s' r' Hmax Hval Hadm.
      destruct (admit_ok max incoming x.1 x.2 s' r' Refused_ Hok Hmax Hadm) as (_ & _ & _ & _ & _ & H).
      by apply H.
Qed.

Section Witnesses.
#[local] Definition address (n : Z) : SocketAddr :=
  mkSocketAddr (V4 (mk4 (as_u8 192) (as_u8 0) (as_u8 2) (as_u8 n))) 4433.
#[local] Definition arrival (n : Z) : Happening := Arrives 2 (mkIncoming (address n) true true true).
#[local] Definition two_slots : Roster :=
  mkRoster [(0, mkSlot (address 1) 0 0); (1, mkSlot (address 2) 1 1)] 2.

Lemma eviction_exact_witness :
  ∃ s' r', evict_until_below 2 (mkShared {[0]} ∅) two_slots = (s', r', [address 2]) ∧ len r' < 2.
Proof.
  eexists _, _. split; [vm_compute; reflexivity|].
  edestruct (eviction_exact 2 (mkShared {[0]} ∅) two_slots)
    as (victims & -> & _ & _ & _ & _ & Hl & _); [apply (bool_decide_unpack _); exact I|
    vm_compute; reflexivity|].
  vm_compute. reflexivity.
Defined.

Lemma roster_cap_witness :
  let x := foldl (λ x e, server_step e x) (mkShared ∅ ∅, roster_new)
    [arrival 1; Authenticates 0; arrival 2; arrival 3] in
  len x.2 ≤ 2 ∧ map (λ e, e.1) (slots x.2) = [0; 2].
Proof.
  intros x. split; [|vm_compute; reflexivity].
  apply (roster_cap 2 [arrival 1; Authenticates 0; arrival 2; arrival 3]); [lia| |vm_compute; reflexivity].
  repeat constructor; cbn; lia.
Defined.
End Witnesses.
