(* ===== verification/Reload.v ===== *)
(** * Accepting, reloading and draining (src/src/quic/mod.rs, quic/reload.rs)

    Three kinds of thread share the live configuration: the accept loop, which reads
    it for every connection ([accept_under_the_swap]); [ReloadHandle::reload], which
    replaces four things that must agree; and [drain], which closes the endpoint.
    [ConfigSwap] is the lock they take.  A thread is a program counter, one step per
    read, write or lock operation, and the threads interleave as they like; the
    shutdown trigger fires on its own. *)

From S2P Require Import Prelude.

#[local] Open Scope nat_scope.

(** A generation is which load of the configuration file a value came from. *)
Abbreviation Generation := nat (only parsing).

Record Live := mkLive {
  swap : option nat;
  expected : Generation;
  config : Generation;
  quic_config : Generation;
  endpoint : option Generation;
  fired : bool;
  drained : bool;
  accepted : list (Generation * Generation);
}.

(** The server as it is bound. *)
Definition bound : Live := mkLive None 0 0 0 (Some 0) false false [].

(** Assignments. *)
Definition set_swap o l := mkLive o (expected l) (config l) (quic_config l) (endpoint l) (fired l)
  (drained l) (accepted l).
Definition set_expected g l := mkLive (swap l) g (config l) (quic_config l) (endpoint l) (fired l)
  (drained l) (accepted l).
Definition set_config g l := mkLive (swap l) (expected l) g (quic_config l) (endpoint l) (fired l)
  (drained l) (accepted l).
Definition set_quic_config g l := mkLive (swap l) (expected l) (config l) g (endpoint l) (fired l)
  (drained l) (accepted l).
Definition set_server_config o l := mkLive (swap l) (expected l) (config l) (quic_config l) o (fired l)
  (drained l) (accepted l).
Definition set_drained l := mkLive (swap l) (expected l) (config l) (quic_config l) (endpoint l)
  (fired l) true (accepted l).
Definition fire l := mkLive (swap l) (expected l) (config l) (quic_config l) (endpoint l) true
  (drained l) (accepted l).
Definition accept_pair c q l := mkLive (swap l) (expected l) (config l) (quic_config l) (endpoint l)
  (fired l) (drained l) (accepted l ++ [(c, q)]).

(** Where a thread is: [Holds] is the first point inside the lock. *)
Inductive Thread :=
  | ReloadLoaded (g : Generation) | ReloadHolds (g : Generation) | ReloadChecked (g : Generation)
  | ReloadNames (g : Generation) | ReloadConfig (g : Generation) | ReloadQuic (g : Generation)
  | AcceptStarts | AcceptHolds | AcceptConfig (c : Generation)
  | DrainStarts | DrainHolds | DrainClosed
  | Unlocks
  | Done.

(** One step of thread [i].  [None]: it waits for the lock, or has nothing left. *)
Definition thread_step (i : nat) (t : Thread) (l : Live) : option (Thread * Live) :=
  let acquire t' := match swap l with None => Some (t', set_swap (Some i) l) | Some _ => None end in
  match t with
  | ReloadLoaded g => acquire (ReloadHolds g)
  | ReloadHolds g => Some (if fired l then Unlocks else ReloadChecked g, l)
  | ReloadChecked g => Some (ReloadNames g, set_expected g l)
  | ReloadNames g => Some (ReloadConfig g, set_config g l)
  | ReloadConfig g => Some (ReloadQuic g, set_quic_config g l)
  | ReloadQuic g => Some (Unlocks, set_server_config (Some g) l)
  | AcceptStarts => acquire AcceptHolds
  | AcceptHolds => Some (AcceptConfig (config l), l)
  | AcceptConfig c => Some (Unlocks, accept_pair c (quic_config l) l)
  | DrainStarts => if fired l then acquire DrainHolds else None
  | DrainHolds => Some (DrainClosed, set_drained (set_server_config None l))
  | DrainClosed => Some (Unlocks, l)
  | Unlocks => Some (Done, set_swap None l)
  | Done => None
  end.

(** The process: its threads and what they share. *)
Inductive process_step : Live * list Thread → Live * list Thread → Prop :=
  | step_thread l ts i t t' l' :
      ts !! i = Some t → thread_step i t l = Some (t', l') →
      process_step (l, ts) (l', <[i := t']> ts)
  | step_spawn l ts t :
      t = AcceptStarts ∨ t = DrainStarts ∨ (∃ g, t = ReloadLoaded g) →
      process_step (l, ts) (l, ts ++ [t])
  | step_fire l ts : process_step (l, ts) (fire l, ts).

(** ** The invariant *)

(** A thread inside the lock. *)
Definition inside (t : Thread) : bool :=
  match t with
  | ReloadLoaded _ | AcceptStarts | DrainStarts | Done => false
  | _ => true
  end.

Definition agree (l : Live) : Prop :=
  expected l = config l ∧ config l = quic_config l ∧
  (endpoint l = if drained l then None else Some (config l)).

(** What a thread inside the lock knows of the shared values: how far its own writes
    have come. *)
Definition view (t : Thread) (l : Live) : Prop :=
  match t with
  | ReloadHolds _ | AcceptHolds | DrainClosed | Unlocks => agree l
  | DrainHolds => agree l ∧ fired l = true
  | ReloadChecked _ => agree l ∧ drained l = false
  | ReloadNames g => expected l = g ∧ drained l = false
  | ReloadConfig g => expected l = g ∧ config l = g ∧ drained l = false
  | ReloadQuic g => expected l = g ∧ config l = g ∧ quic_config l = g ∧ drained l = false
  | AcceptConfig c => agree l ∧ config l = c
  | _ => True
  end.

(** The lock is held by the one thread inside it; without a holder the values agree,
    with one they are as its view says; a drain comes after the trigger; and every
    connection was accepted on one generation. *)
Record process_ok (p : Live * list Thread) : Prop := {
  p_lock i t : p.2 !! i = Some t → inside t = true ↔ swap p.1 = Some i;
  p_holder i : swap p.1 = Some i → i < length p.2;
  p_free : swap p.1 = None → agree p.1;
  p_view i t : p.2 !! i = Some t → inside t = true → view t p.1;
  p_fired : drained p.1 = true → fired p.1 = true;
  p_pairs : Forall (λ '(c, q), c = q) (accepted p.1);
}.

(** What one step of a thread does to the lock, to its view and to the rest. *)
Lemma thread_step_ok i t l t' l' :
  thread_step i t l = Some (t', l') →
  (if inside t then swap l = Some i ∧ view t l else swap l = None ∧ agree l) →
  (drained l = true → fired l = true) → Forall (λ '(c, q), c = q) (accepted l) →
  (if inside t' then swap l' = Some i ∧ view t' l' else swap l' = None ∧ agree l') ∧
  (drained l' = true → fired l' = true) ∧ Forall (λ '(c, q), c = q) (accepted l').
Proof.
  intros Hstep Ht Hf Hp. destruct t; cbn in Hstep, Ht;
    repeat match type of Hstep with
    | context [match swap l with _ => _ end] => destruct (swap l) eqn:?
    | context [if fired l then _ else _] => destruct (fired l) eqn:?
    end; try discriminate Hstep; injection Hstep as <- <-; cbn [inside view] in *; unfold agree in *;
    cbn; destruct_and?; split_and?; try done; try congruence.
  - by destruct (drained l); [specialize (Hf eq_refl)|].
  - intros Hd. specialize (Hf Hd). congruence.
  - destruct (drained l); congruence.
  - apply Forall_app. split; [done|]. repeat constructor. congruence.
Qed.

Lemma process_step_ok p p' : process_ok p → process_step p p' → process_ok p'.
Proof.
  intros Hok Hstep. destruct Hstep as [l ts i t t' l' Hi Hstep|l ts t Ht|l ts].
  - destruct Hok as [Hlock Hheld Hfree Hview Hf Hp]. cbn [fst snd] in *.
    assert (swap l = Some i ∨ swap l = None) as Hsw.
    { destruct (inside t) eqn:Ein; [left; by apply (Hlock i t)|].
      right. unfold thread_step in Hstep. destruct t; try done; repeat case_match; done. }
    assert (if inside t then swap l = Some i ∧ view t l else swap l = None ∧ agree l) as Ht.
    { destruct (inside t) eqn:Ein; [split; [by apply (Hlock i t)|by eapply Hview]|].
      destruct Hsw as [E|E]; [|auto]. apply (Hlock i t) in E; [|done]. congruence. }
    destruct (thread_step_ok i t l t' l' Hstep Ht Hf Hp) as (Ht' & Hf' & Hp').
    assert (∀ j tj, j ≠ i → ts !! j = Some tj → inside tj = false) as Hout.
    { intros j tj Hne Hj. destruct (inside tj) eqn:E; [|done]. apply (Hlock j tj) in E; [|done].
      destruct Hsw; congruence. }
    assert (i < length ts) as Hlen by (by eapply lookup_lt_Some).
    split; cbn [fst snd]; try done.
    + intros j tj Hj. destruct (decide (j = i)) as [->|Hne].
      * rewrite list_lookup_insert_eq in Hj by done. injection Hj as <-.
        destruct (inside t'); destruct Ht' as [-> _]; by split.
      * rewrite list_lookup_insert_ne in Hj by done. rewrite (Hout j tj Hne Hj).
        split; [done|]. destruct (inside t'); destruct Ht' as [-> _]; congruence.
    + intros j Hj. rewrite length_insert. destruct (inside t'); destruct Ht' as [E ?]; congruence.
    + intros Hn. destruct (inside t'); destruct Ht' as [E ?]; congruence.
    + intros j tj Hj Hin. destruct (decide (j = i)) as [->|Hne].
      * rewrite list_lookup_insert_eq in Hj by done. injection Hj as <-. rewrite Hin in Ht'. apply Ht'.
      * rewrite list_lookup_insert_ne in Hj by done. by rewrite (Hout j tj Hne Hj) in Hin.
  - destruct Hok as [Hlock Hheld Hfree Hview Hf Hp]. cbn [fst snd] in *.
    assert (inside t = false) as Hin by (destruct Ht as [->|[->|[g ->]]]; done).
    assert (∀ j tj, (ts ++ [t]) !! j = Some tj → ts !! j = Some tj ∨ j = length ts ∧ tj = t) as Hnew.
    { intros j tj [Hj|[Hge Hj]]%lookup_app_Some; [auto|right]. apply list_lookup_singleton_Some in Hj.
      split; [lia|]. by destruct Hj. }
    split; cbn [fst snd]; try done.
    + intros j tj [Hj|[-> ->]]%Hnew; [by apply Hlock|]. rewrite Hin. split; [done|].
      intros Hj%Hheld. lia.
    + intros j Hj%Hheld. rewrite length_app. lia.
    + intros j tj [Hj|[-> ->]]%Hnew Htj; [by eapply Hview|congruence].
  - destruct Hok as [Hlock Hheld Hfree Hview Hf Hp]. split; cbn [fst snd] in *; try done.
    intros i t Hi Hin. specialize (Hview i t Hi Hin). destruct t; cbn in *; unfold agree in *; cbn;
      destruct_and?; done.
Qed.

Lemma process_reachable_ok p : rtc process_step (bound, []) p → process_ok p.
Proof.
  intros Hr. apply (rtc_ind_l (λ q, process_ok q → process_ok p) p) in Hr; [done|done| |].
  - intros q q' Hstep _ IH Hok. by apply IH, (process_step_ok q).
  - split; cbn; done.
Qed.

(** A reload is one event. However accepts, reloads and the drain interleave, a
    connection is accepted on the settings and the transport parameters of one load
    of the configuration; between reloads the names screened for, the settings, the
    transport parameters and the endpoint's agree; and once the drain has closed the
    endpoint no reload, however far it had come, opens it again. *)
Theorem reload_is_atomic l ts :
  rtc process_step (bound, []) (l, ts) →
  (∀ c q, (c, q) ∈ accepted l → c = q) ∧
  (swap l = None → expected l = config l ∧ config l = quic_config l ∧
     endpoint l = if drained l then None else Some (config l)) ∧
  (drained l = true → endpoint l = None).
Proof.
  intros Hr. apply process_reachable_ok in Hr as [Hlock Hheld Hfree Hview Hf Hp]. cbn [fst snd] in *.
  split_and!.
  - intros c q Hin. rewrite Forall_forall in Hp. exact (Hp (c, q) Hin).
  - done.
  - intros Hd. destruct (swap l) as [i|] eqn:Es.
    + destruct (lookup_lt_is_Some_2 ts i) as [t Ht]; [by apply Hheld|].
      assert (inside t = true) as Hin by (by apply (Hlock i t)).
      specialize (Hview i t Ht Hin). destruct t; cbn in Hview; unfold agree in Hview; try done;
        destruct_and?; rewrite Hd in *; done.
    + destruct (Hfree eq_refl) as (_ & _ & ->). by rewrite Hd.
Qed.

(** A step of thread [i], and a new thread. *)
Ltac go i := eapply rtc_l; [eapply (step_thread _ _ i); vm_compute; reflexivity|].
Ltac spawn t := eapply rtc_l; [apply (step_spawn _ _ t); eauto|].

Lemma reload_is_atomic_witness :
  let l := mkLive None 1 1 1 None true true [(0, 0); (1, 1)] in
  drained l = true ∧ endpoint l = None.
Proof.
  intros l. split; [reflexivity|].
  refine (proj2 (proj2 (reload_is_atomic l [Done; Done; Done; Done; Done] _)) eq_refl).
  spawn AcceptStarts. spawn (ReloadLoaded 1). spawn AcceptStarts. spawn DrainStarts.
  spawn (ReloadLoaded 2).
  do 4 go 0. do 6 go 1. go 1. do 4 go 2. eapply rtc_l; [apply step_fire|]. do 4 go 3. do 3 go 4.
  apply rtc_refl.
Defined.
