(* ===== verification/ReloadAtomic.v ===== *)
(** * Reloading as one event (facts about quic/mod.rs and quic/reload.rs)

    The specification of the live configuration: a machine whose reloads, accepts and
    drain are single events on one value.  The threads of [Reload], which read and write
    four values one at a time under a lock, refine it: every execution is one of the
    machine's, with a reload taking effect where it finds the latch unfired. *)

From S2P Require Import Prelude Reload.

#[local] Open Scope nat_scope.

(** ** The specification *)

Record Atomic := mkAtomic {
  at_config : Generation;
  at_open : bool;
  at_fired : bool;
  at_accepted : list Generation;
}.

Definition atomic_new : Atomic := mkAtomic 0 true false [].

Inductive atomic_step : Atomic → Atomic → Prop :=
  | atomic_reload c o acc g : atomic_step (mkAtomic c o false acc) (mkAtomic g o false acc)
  | atomic_accept c o f acc : atomic_step (mkAtomic c o f acc) (mkAtomic c o f (acc ++ [c]))
  | atomic_drain c o acc : atomic_step (mkAtomic c o true acc) (mkAtomic c false true acc)
  | atomic_fire c o f acc : atomic_step (mkAtomic c o f acc) (mkAtomic c o true acc).

(** ** The simulation *)

(** The generation in force once the writes under way are made. *)
Definition settled (t : Thread) (l : Live) : Generation :=
  match t with
  | ReloadChecked g | ReloadNames g | ReloadConfig g | ReloadQuic g => g
  | _ => config l
  end.

(** What the two machines share at every step. *)
Definition shares (l : Live) (a : Atomic) : Prop :=
  fired l = at_fired a ∧ drained l = negb (at_open a) ∧ accepted l = map (λ c, (c, c)) (at_accepted a).

Record simulates (p : Live * list Thread) (a : Atomic) : Prop := {
  sim_shares : shares p.1 a;
  sim_inside i t : p.2 !! i = Some t → inside t = true → settled t p.1 = at_config a;
  sim_free : swap p.1 = None → config p.1 = at_config a;
}.

Lemma thread_step_simulates i t l t' l' a :
  thread_step i t l = Some (t', l') → shares l a →
  (if inside t then view t l ∧ settled t l = at_config a else config l = at_config a) →
  ∃ a', (a' = a ∨ atomic_step a a') ∧ shares l' a' ∧
    (if inside t' then settled t' l' = at_config a' else config l' = at_config a').
Proof.
  destruct a as [c o f acc]. unfold shares. cbn [at_config at_open at_fired at_accepted].
  intros Hstep (Hf & Ho & Ha) Ht. destruct t; cbn in Hstep, Ht; unfold agree in *;
    repeat match type of Hstep with
    | context [match swap l with _ => _ end] => destruct (swap l) eqn:?
    | context [if fired l then _ else _] => destruct (fired l) eqn:?
    end; try discriminate Hstep; injection Hstep as <- <-; destruct_and?;
    try (exists (mkAtomic c o f acc); cbn; split; [by left|]; split_and?; done || congruence).
  - exists (mkAtomic g o f acc). subst f. split; [right; constructor|]. by cbn.
  - exists (mkAtomic c o f (acc ++ [c])). split; [right; constructor|]. cbn.
    split_and!; [done|done| |congruence]. rewrite map_app. cbn. congruence.
  - exists (mkAtomic c false f acc).
    assert (f = true) as -> by congruence. split; [right; constructor|]. cbn. split_and!; congruence.
Qed.

Lemma process_step_simulates p p' a :
  process_ok p → simulates p a → process_step p p' →
  ∃ a', (a' = a ∨ atomic_step a a') ∧ simulates p' a'.
Proof.
  intros Hok [Hsh Hin Hfree] Hstep. pose proof Hok as [Hlock Hheld _ Hview _ _].
  destruct Hstep as [l ts i t t' l' Hi Hstep|l ts t Ht|l ts]; cbn [fst snd] in *.
  - assert (inside t = false → swap l = None) as Hacq
      by (intros E; destruct t; try done; unfold thread_step in Hstep; repeat case_match; done).
    destruct (thread_step_simulates i t l t' l' a Hstep Hsh) as (a' & Ha & Hsh' & Ht').
    { destruct (inside t) eqn:E; [split; [by eapply Hview|by eapply Hin]|]. by apply Hfree, Hacq. }
    exists a'. split; [done|].
    assert (∀ j tj, j ≠ i → ts !! j = Some tj → inside tj = false) as Hout.
    { intros j tj Hne Hj. destruct (inside tj) eqn:E; [|done]. apply (Hlock j tj Hj) in E as Ej.
      destruct (inside t) eqn:Et; [|specialize (Hacq eq_refl); congruence].
      apply (Hlock i t Hi) in Et. congruence. }
    assert (process_ok (l', <[i:=t']> ts)) as Hok'.
    { apply (process_step_ok (l, ts)); [done|]. by econstructor. }
    split; cbn [fst snd]; [done| |].
    + intros j tj Hj Hinj. destruct (decide (j = i)) as [->|Hne].
      * rewrite list_lookup_insert_eq in Hj by (by eapply lookup_lt_Some). injection Hj as <-. by rewrite Hinj in Ht'.
      * rewrite list_lookup_insert_ne in Hj by done. by rewrite (Hout j tj Hne Hj) in Hinj.
    + intros Hs. destruct (inside t') eqn:E; [|done].
      apply (p_lock _ Hok' i t') in E; cbn in *; [congruence|].
      by rewrite list_lookup_insert_eq by (by eapply lookup_lt_Some).
  - exists a. split; [by left|]. split; cbn [fst snd]; [done| |done].
    intros j tj [Hj|[_ Hj]]%lookup_app_Some Hinj; [by eapply Hin|].
    apply list_lookup_singleton_Some in Hj as [_ <-]. by destruct Ht as [->|[->|[g ->]]].
  - exists (mkAtomic (at_config a) (at_open a) true (at_accepted a)).
    split; [right; destruct a; constructor|]. destruct Hsh as (? & ? & ?). by split.
Qed.

(** C16: a reload is one event. Every execution of accepts, reloads, the trigger and the drain,
    however their reads and writes interleave, is one of the specification, in which a reload
    replaces the one configuration at once and only before the trigger, an accept takes
    the configuration in force, and the drain closes the listener for good: the
    connections accepted are the same, in the same order, each on the settings and the transport
    parameters the specification had; and whenever nobody holds the lock all four values
    are the specification's one. *)
Theorem reload_refines p :
  rtc process_step (bound, []) p →
  ∃ a, rtc atomic_step atomic_new a ∧
    accepted p.1 = map (λ c, (c, c)) (at_accepted a) ∧ fired p.1 = at_fired a ∧
    drained p.1 = negb (at_open a) ∧
    (swap p.1 = None →
     expected p.1 = at_config a ∧ config p.1 = at_config a ∧ quic_config p.1 = at_config a ∧
     endpoint p.1 = if at_open a then Some (at_config a) else None).
Proof.
  intros Hr.
  assert (∃ a, rtc atomic_step atomic_new a ∧ simulates p a) as (a & Ha & Hsim).
  { apply (rtc_ind_r (R := process_step) (λ q, ∃ a, rtc atomic_step atomic_new a ∧ simulates q a) (bound, [])); [| |done].
    - exists atomic_new. split; [done|]. by split.
    - intros q q' Hq Hstep (a & Ha & Hsim). apply process_reachable_ok in Hq.
      destruct (process_step_simulates q q' a Hq Hsim Hstep) as (a' & [->|Hstep'] & Hsim'); [by exists a|].
      exists a'. split; [by eapply rtc_r|done]. }
  exists a. destruct Hsim as [(Hf & Hd & Hacc) _ Hfree]. split_and!; try done.
  intros Hs. apply process_reachable_ok in Hr. destruct (p_free _ Hr Hs) as (He & Hq & Hend).
  specialize (Hfree Hs). rewrite Hend, Hd. rewrite <- Hfree. split_and!; try congruence.
  by destruct (at_open a).
Qed.

Lemma reload_refines_witness :
  ∃ a, rtc atomic_step atomic_new a ∧ map (λ c, (c, c)) (at_accepted a) = [(0, 0); (1, 1)].
Proof.
  destruct (reload_refines (mkLive None 1 1 1 None true true [(0, 0); (1, 1)], [Done; Done; Done; Done; Done]))
    as (a & Ha & Hacc & _).
  - spawn AcceptStarts. spawn (ReloadLoaded 1). spawn AcceptStarts. spawn DrainStarts.
    spawn (ReloadLoaded 2).
    do 4 go 0. do 6 go 1. go 1. do 4 go 2. eapply rtc_l; [apply step_fire|]. do 4 go 3. do 3 go 4.
    apply rtc_refl.
  - exists a. split; [exact Ha|]. symmetry. exact Hacc.
Defined.
