(* ===== verification/Congestion.v ===== *)
(** * Congestion control (src/src/congestion.rs)

    [BbrCapped]: quinn's BBR with its window held to a multiple of the measured
    bandwidth-delay product.  The measurements are this crate's own: the delivery
    rate with its windowed maximum, the startup that ends when the rate stops
    growing, and the minimum RTT with the probe that renews it.

    quinn's controller is an interface, [Controller].  Instants and durations are
    nanoseconds. *)

From S2P Require Import Prelude.

#[local] Open Scope Z_scope.

Definition SAMPLES : nat := 10.
Definition CWND_GAIN_PERMILLE : Z := 1250.
Definition PROBE_GAIN_PERMILLE : Z := 500.
Definition STARTUP_GAIN_PERMILLE : Z := 2885.
Definition GROWTH_PERCENT : Z := 125.
Definition SAMPLES_WITHOUT_GROWTH : Z := 3.
Definition FALLEN_PERCENT : Z := 50.
Definition RISES_TO_RESTART : Z := 3.
Definition MIN_RTT_LIFETIME : Z := 10 * 10 ^ 9.
Definition PROBE_TIME : Z := 200 * 10 ^ 6.
Definition PROBE_MIN_PACKETS : Z := 4.

(** [Duration::as_micros], [saturating_duration_since] and the conversion of a
    [u128] to [u64] that keeps to the range. *)
Definition as_micros (d : Z) : Z := d / 1000.
Definition since (later earlier : Z) : Z := Z.max 0 (later - earlier).
Definition u64_max : Z := 2 ^ 64 - 1.
Definition clamp_u64 (x : Z) : Z := if x <=? u64_max then x else u64_max.

(** ** Startup *)

Record Startup := mkStartup {
  ended : bool;
  grown_to : Z;
  flat : Z;
  congested : bool;
  peak : Z;
  last : Z;
  rises : Z;
}.

Definition startup_default : Startup := mkStartup false 0 0 false 0 0 0.

Definition count_rise (estimate : Z) (s : Startup) : Startup :=
  let was := last s in
  let fallen := was * 100 <? peak s * FALLEN_PERCENT in
  let rose := was <? estimate in
  let rises := if fallen && rose then rises s + 1 else 0 in
  if RISES_TO_RESTART <=? rises then mkStartup false estimate 0 false (peak s) estimate 0
  else mkStartup (ended s) (grown_to s) (flat s) (congested s) (peak s) estimate rises.

Definition on_interval (estimate : Z) (app_limited : bool) (s : Startup) : Startup :=
  let was_congested := congested s in
  let s := mkStartup (ended s) (grown_to s) (flat s) false (Z.max (peak s) estimate) (last s) (rises s) in
  if ended s then if app_limited then s else count_rise estimate s
  else
    let s := if app_limited then s
             else mkStartup (ended s) (grown_to s) (flat s) (congested s) (peak s) estimate (rises s) in
    if app_limited && negb was_congested then s
    else if grown_to s * GROWTH_PERCENT <=? estimate * 100 then
      mkStartup (ended s) estimate 0 (congested s) (peak s) (last s) (rises s)
    else if was_congested then
      mkStartup true (grown_to s) (flat s) (congested s) (peak s) (last s) (rises s)
    else
      mkStartup (SAMPLES_WITHOUT_GROWTH <=? flat s + 1) (grown_to s) (flat s + 1) (congested s)
        (peak s) (last s) (rises s).

(** ** The delivery rate *)

Record DeliveryRate := mkRate {
  started : option Z;
  acked : Z;
  limited : bool;
  sent : option Z;
  sent_at_start : option Z;
  samples : list Z;
  stored_at : list Z;
  next : nat;
  intervals : Z;
}.

Definition rate_default : DeliveryRate :=
  mkRate None 0 false None None (replicate SAMPLES 0) (replicate SAMPLES 0) 0 0.

Record Sample := mkSample {
  s_rate : Z;
  s_app_limited : bool;
  s_stored : bool;
  ack_elapsed : Z;
  send_elapsed : Z;
}.

(** [Option<Instant>::max], [None] below every instant. *)
Definition latest (a : option Z) (t : Z) : option Z :=
  Some (match a with Some a => Z.max a t | None => t end).

Definition rate_on_ack (sent_time bytes : Z) (app_limited : bool) (r : DeliveryRate) : DeliveryRate :=
  mkRate (started r) (saturating_add 64 (acked r) bytes) (limited r || app_limited)
    (latest (sent r) sent_time) (sent_at_start r) (samples r) (stored_at r) (next r) (intervals r).

Definition restart (now : Z) (r : DeliveryRate) : DeliveryRate :=
  mkRate (Some now) 0 false (sent r) (sent r) (samples r) (stored_at r) (next r) (intervals r).

Definition max_sample (l : list Z) : Z := foldr Z.max 0 l.

(** [DeliveryRate::max]. *)
Definition estimate (r : DeliveryRate) : option Z :=
  let m := max_sample (samples r) in if 0 <? m then Some m else None.

(** A sample of the interval goes into the ring, and those [SAMPLES] intervals old
    leave it. *)
Definition expire (now : Z) (samples stored_at : list Z) : list Z :=
  zip_with (λ slot at_, if Z.of_nat SAMPLES <=? wrap 64 (now - at_) then 0 else slot) samples stored_at.

Definition store (sample : Z) (r : DeliveryRate) : DeliveryRate :=
  let kept := if 0 <? sample then expire (intervals r) (samples r) (stored_at r) else samples r in
  mkRate (started r) (acked r) (limited r) (sent r) (sent_at_start r)
    (<[next r := sample]> kept) (<[next r := intervals r]> (stored_at r))
    (Nat.modulo (next r + 1) SAMPLES) (intervals r).

Definition count_interval (r : DeliveryRate) : DeliveryRate :=
  mkRate (started r) (acked r) (limited r) (sent r) (sent_at_start r) (samples r) (stored_at r)
    (next r) (wrap 64 (intervals r + 1)).

Definition rate_on_end_acks (now : Z) (app_limited : bool) (round : Z) (r : DeliveryRate)
    : DeliveryRate * option Sample :=
  let r := mkRate (started r) (acked r) (limited r || app_limited) (sent r) (sent_at_start r)
             (samples r) (stored_at r) (next r) (intervals r) in
  match started r with
  | None => (restart now r, None)
  | Some started =>
      let elapsed := since now started in
      if (elapsed =? 0) || (elapsed <? round) then (r, None)
      else
        let send_elapsed := match sent_at_start r, sent r with
                            | Some first, Some last => since last first
                            | _, _ => 0
                            end in
        let rate := acked r * 1000000 / Z.max (as_micros (Z.max elapsed send_elapsed)) 1 in
        let sample := clamp_u64 rate in
        let stored := negb (limited r) || (default 0 (estimate r) <? sample) in
        let r' := count_interval (if stored then store sample r else r) in
        (restart now r', Some (mkSample sample (limited r) stored elapsed send_elapsed))
  end.

(** ** The controller *)

(** quinn's congestion controller; [rtt] is the smoothed RTT it is given. *)
Class Controller := {
  Inner : Type;
  bbr_new : Z → Inner;
  inner_window : Inner → Z;
  inner_initial_window : Inner → Z;
  inner_on_sent : Z → Z → Z → Inner → Inner;
  inner_on_ack : Z → Z → Z → bool → Z → Inner → Inner;
  inner_on_end_acks : Z → Z → bool → option Z → Inner → Inner;
  inner_on_congestion_event : Z → Z → bool → Z → Inner → Inner;
  inner_on_mtu_update : Z → Inner → Inner;
}.

Record Probe := mkProbe { probe_min : Z; ends : option Z }.

Section BbrCapped.
Context `{!Controller}.

Record BbrCapped := mkBbr {
  inner : Inner;
  rate : DeliveryRate;
  startup : Startup;
  min_rtt : option (Z * Z);
  probe : option Probe;
  srtt : Z;
  mtu : Z;
}.

Definition build (current_mtu : Z) : BbrCapped :=
  mkBbr (bbr_new current_mtu) rate_default startup_default None None 0 current_mtu.

Definition set_measure (r : DeliveryRate) (m : option (Z * Z)) (p : option Probe) (t : Z)
    (b : BbrCapped) : BbrCapped :=
  mkBbr (inner b) r (startup b) m p t (mtu b).

Definition record_ack (now sent_time bytes : Z) (app_limited : bool) (srtt : Z) (b : BbrCapped)
    : BbrCapped :=
  let probing := match probe b with Some _ => true | None => false end in
  let r := rate_on_ack sent_time bytes (app_limited || probing) (rate b) in
  let rtt := since now sent_time in
  match probe b with
  | Some p => set_measure r (min_rtt b) (Some (mkProbe (Z.min (probe_min p) rtt) (ends p))) srtt b
  | None =>
      match min_rtt b with
      | Some (min, at_) =>
          if min <? rtt then
            if negb app_limited && (MIN_RTT_LIFETIME <? since now at_) then
              set_measure r (min_rtt b) (Some (mkProbe rtt None)) srtt b
            else set_measure r (min_rtt b) None srtt b
          else set_measure r (Some (rtt, now)) None srtt b
      | None => set_measure r (Some (rtt, now)) None srtt b
      end
  end.

Definition cap (b : BbrCapped) : option Z :=
  bandwidth ← estimate (rate b);
  '(min, _) ← min_rtt b;
  let '(gain_permille, floor) :=
    match probe b with
    | None =>
        if ended (startup b) then (CWND_GAIN_PERMILLE, inner_initial_window (inner b))
        else (STARTUP_GAIN_PERMILLE, inner_initial_window (inner b))
    | Some _ => (PROBE_GAIN_PERMILLE, PROBE_MIN_PACKETS * mtu b)
    end in
  let bytes := bandwidth * as_micros min * gain_permille / 1000000000 in
  Some (Z.max (clamp_u64 bytes) floor).

Definition update_probe (now in_flight : Z) (b : BbrCapped) : BbrCapped :=
  let cap := cap b in
  match probe b with
  | None => b
  | Some p =>
      match ends p with
      | None =>
          if match cap with Some cap => in_flight <=? cap | None => true end then
            set_measure (rate b) (min_rtt b)
              (Some (mkProbe (probe_min p) (Some (now + Z.max PROBE_TIME (srtt b))))) (srtt b) b
          else b
      | Some ends =>
          if ends <=? now then set_measure (rate b) (Some (probe_min p, now)) None (srtt b) b else b
      end
  end.

Definition on_sent (now bytes last_packet_number : Z) (b : BbrCapped) : BbrCapped :=
  mkBbr (inner_on_sent now bytes last_packet_number (inner b)) (rate b) (startup b) (min_rtt b)
    (probe b) (srtt b) (mtu b).

Definition on_ack (now sent_time bytes : Z) (app_limited : bool) (rtt : Z) (b : BbrCapped)
    : BbrCapped :=
  record_ack now sent_time bytes app_limited rtt
    (mkBbr (inner_on_ack now sent_time bytes app_limited rtt (inner b)) (rate b) (startup b)
       (min_rtt b) (probe b) (srtt b) (mtu b)).

Definition on_end_acks (now in_flight : Z) (app_limited : bool) (largest : option Z) (b : BbrCapped)
    : BbrCapped :=
  let i := inner_on_end_acks now in_flight app_limited largest (inner b) in
  let '(r, sample) := rate_on_end_acks now app_limited (srtt b) (rate b) in
  let st := match sample with
            | Some sample => on_interval (default 0 (estimate r)) (s_app_limited sample) (startup b)
            | None => startup b
            end in
  update_probe now in_flight (mkBbr i r st (min_rtt b) (probe b) (srtt b) (mtu b)).

Definition on_congestion_event (now sent_time : Z) (persistent : bool) (lost : Z) (b : BbrCapped)
    : BbrCapped :=
  let st := startup b in
  mkBbr (inner_on_congestion_event now sent_time persistent lost (inner b)) (rate b)
    (mkStartup (ended st) (grown_to st) (flat st) true (peak st) (last st) (rises st))
    (min_rtt b) (probe b) (srtt b) (mtu b).

Definition on_mtu_update (new_mtu : Z) (b : BbrCapped) : BbrCapped :=
  mkBbr (inner_on_mtu_update new_mtu (inner b)) (rate b) (startup b) (min_rtt b) (probe b) (srtt b)
    new_mtu.

Definition window (b : BbrCapped) : Z :=
  let inner := inner_window (inner b) in
  match cap b with Some cap => Z.min inner cap | None => inner end.

Definition initial_window (b : BbrCapped) : Z := inner_initial_window (inner b).
End BbrCapped.
