(* ===== verification/CongestionFacts.v ===== *)
(** * What the congestion controller promises (src/src/congestion.rs)

    The bandwidth estimate is a windowed maximum; the startup ends; the wrapper only
    ever lowers the window of quinn's BBR, and not below a floor. *)

From S2P Require Import Prelude Congestion.

#[local] Open Scope Z_scope.

(** ** The windowed maximum *)

Lemma max_sample_le l x : 0 ≤ x → max_sample l ≤ x ↔ Forall (λ y, y ≤ x) l.
Proof.
  intros Hx. unfold max_sample. induction l as [|y l IH]; cbn [foldr].
  - split; [by constructor|done].
  - rewrite Forall_cons, <- IH. lia.
Qed.

Lemma max_sample_nonneg l : 0 ≤ max_sample l.
Proof. unfold max_sample. induction l; cbn [foldr]; lia. Qed.

Lemma max_sample_in l y : y ∈ l → y ≤ max_sample l.
Proof.
  intros Hy. pose proof (proj1 (max_sample_le l (max_sample l) (max_sample_nonneg l))) as H.
  rewrite Forall_forall in H. apply H; [lia|done].
Qed.

(** The history of a filter: the interval and the rate of every sample stored, the
    newest first. *)
Abbreviation History := (list (Z * Z)) (only parsing).

Definition newest_positive (h : History) : option Z :=
  fst <$> head (List.filter (λ e, 0 <? e.2) h).

(** A sample counts until a positive one is stored [SAMPLES] intervals after it. *)
Definition live (h : History) (e : Z * Z) : Z :=
  match newest_positive h with
  | Some n => if Z.of_nat SAMPLES <=? n - e.1 then 0 else e.2
  | None => e.2
  end.

(** The reference: the largest of the last [SAMPLES] samples that count. *)
Definition windowed_max (h : History) : Z := max_sample (map (live h) (take SAMPLES h)).

(** The slot of the [j]th newest of [n] samples. *)
Definition slot (n j : nat) : nat := Nat.modulo (n - 1 - j) SAMPLES.

Lemma slot_mod a : (Nat.modulo a SAMPLES < SAMPLES)%nat.
Proof. apply Nat.mod_upper_bound. done. Qed.

Lemma slot_cons n j : (j < n)%nat → slot (S n) (S j) = slot n j.
Proof. intros H. unfold slot. f_equal. lia. Qed.

Lemma slot_new n j : (j < n)%nat → (S j < SAMPLES)%nat → slot n j ≠ Nat.modulo n SAMPLES.
Proof.
  unfold slot, SAMPLES. intros Hj Hs E.
  pose proof (Nat.div_mod_eq n 10). pose proof (Nat.div_mod_eq (n - 1 - j) 10). lia.
Qed.

(** Every slot is that of one of the newest samples, or has never been used. *)
Lemma slot_covers n i : (i < SAMPLES)%nat → (i < n)%nat →
  ∃ j, (j < n)%nat ∧ (j < SAMPLES)%nat ∧ slot n j = i.
Proof.
  intros Hi Hn. unfold SAMPLES in *. pose proof (Nat.div_mod_eq (n - 1) 10) as E1.
  pose proof (Nat.mod_upper_bound (n - 1) 10) as H1.
  destruct (decide (i ≤ (n - 1) mod 10)%nat).
  - exists ((n - 1) mod 10 - i)%nat. unfold slot, SAMPLES. split_and!; [lia..|].
    replace (n - 1 - ((n - 1) mod 10 - i))%nat with (i + ((n - 1) / 10) * 10)%nat by lia.
    rewrite Nat.Div0.mod_add. apply Nat.mod_small. lia.
  - assert (1 ≤ (n - 1) / 10)%nat by lia.
    exists ((n - 1) mod 10 + 10 - i)%nat. unfold slot, SAMPLES. split_and!; [lia..|].
    replace (n - 1 - ((n - 1) mod 10 + 10 - i))%nat with (i + ((n - 1) / 10 - 1) * 10)%nat by lia.
    rewrite Nat.Div0.mod_add. apply Nat.mod_small. lia.
Qed.

(** The ring against its history. *)
Record ring_ok (r : DeliveryRate) (h : History) : Prop := {
  ring_samples : length (samples r) = SAMPLES;
  ring_stored : length (stored_at r) = SAMPLES;
  ring_next : next r = Nat.modulo (length h) SAMPLES;
  ring_slot j e : h !! j = Some e → (j < SAMPLES)%nat →
    samples r !! slot (length h) j = Some (live h e) ∧ stored_at r !! slot (length h) j = Some e.1;
  ring_unused i : (length h ≤ i)%nat → (i < SAMPLES)%nat → samples r !! i = Some 0;
  ring_ages : Forall (λ e, 0 ≤ e.1 ≤ intervals r) h;
  ring_rates : Forall (λ e, 0 ≤ e.2) h;
  ring_now : 0 ≤ intervals r < 2 ^ 64;
}.

(** What the ring holds is the reference. *)
Lemma ring_max r h : ring_ok r h → max_sample (samples r) = windowed_max h.
Proof.
  intros Hr. unfold windowed_max. apply Z.le_antisymm.
  - apply max_sample_le; [apply max_sample_nonneg|]. apply Forall_lookup. intros i x Hx.
    assert (i < SAMPLES)%nat as Hi by (rewrite <- (ring_samples _ _ Hr); by eapply lookup_lt_Some).
    destruct (decide (length h ≤ i)%nat) as [Hge|Hlt].
    { rewrite (ring_unused _ _ Hr) in Hx by done. injection Hx as <-. apply max_sample_nonneg. }
    destruct (slot_covers (length h) i) as (j & Hj & Hs & Hij); [done|lia|].
    destruct (lookup_lt_is_Some_2 h j Hj) as [e He].
    destruct (ring_slot _ _ Hr j e He Hs) as [Hv _]. rewrite Hij in Hv.
    assert (x = live h e) as -> by congruence. apply max_sample_in.
    apply list_elem_of_fmap. exists e. split; [done|].
    apply (list_elem_of_lookup_2 _ j). by rewrite lookup_take_lt.
  - apply max_sample_le; [apply max_sample_nonneg|]. apply Forall_lookup. intros j x Hx.
    rewrite list_lookup_fmap in Hx. destruct (take SAMPLES h !! j) as [e|] eqn:He; [|done].
    apply lookup_take_Some in He as [He Hj]. injection Hx as <-.
    destruct (ring_slot _ _ Hr j e He Hj) as [Hv _]. apply max_sample_in.
    by eapply list_elem_of_lookup_2.
Qed.

Lemma newest_positive_cons n s h :
  newest_positive ((n, s) :: h) = if 0 <? s then Some n else newest_positive h.
Proof. unfold newest_positive. cbn [List.filter snd]. by destruct (0 <? s). Qed.

Lemma newest_positive_in h n : newest_positive h = Some n → ∃ e, e ∈ h ∧ e.1 = n.
Proof.
  unfold newest_positive. destruct (List.filter _ h) as [|e l] eqn:E; cbn; [done|].
  intros [= <-]. exists e. split; [|done]. apply list_elem_of_In.
  apply (List.filter_In (λ e, 0 <? e.2)). rewrite E. by left.
Qed.

(** Storing a sample ages the others as the reference says. *)
Lemma live_cons h n s e :
  Forall (λ e, 0 ≤ e.1 ≤ n) h → n < 2 ^ 64 → e ∈ h →
  (if 0 <? s then if Z.of_nat SAMPLES <=? wrap 64 (n - e.1) then 0 else live h e else live h e) =
  live ((n, s) :: h) e.
Proof.
  intros Hages Hn He. unfold live at 3. rewrite newest_positive_cons.
  destruct (0 <? s); [|done]. rewrite Forall_forall in Hages. pose proof (Hages e He) as Ha.
  assert (wrap 64 (n - e.1) = n - e.1) as -> by (unfold wrap; apply Z.mod_small; lia).
  destruct (Z.leb_spec (Z.of_nat SAMPLES) (n - e.1)); [done|].
  unfold live. destruct (newest_positive h) as [n0|] eqn:E0; [|done].
  apply newest_positive_in in E0 as (e0 & Hin & <-). pose proof (Hages e0 Hin).
  destruct (Z.leb_spec (Z.of_nat SAMPLES) (e0.1 - e.1)); [lia|done].
Qed.

Lemma live_head n s h : 0 ≤ s → live ((n, s) :: h) (n, s) = s.
Proof.
  intros Hs. unfold live. rewrite newest_positive_cons. cbn [fst snd].
  destruct (Z.ltb_spec 0 s).
  - rewrite Z.sub_diag. done.
  - assert (s = 0) as -> by lia. destruct (newest_positive h); [by destruct (_ <=? _)|done].
Qed.

Lemma ring_store r h s :
  ring_ok r h → 0 ≤ s → ring_ok (store s r) ((intervals r, s) :: h).
Proof.
  intros Hr Hs. pose proof (ring_ages _ _ Hr) as Hages. pose proof (ring_now _ _ Hr) as Hnow.
  pose proof (ring_next _ _ Hr) as Hnext.
  assert (next r < SAMPLES)%nat as Hlt by (rewrite Hnext; apply slot_mod).
  set (kept := if 0 <? s then expire (intervals r) (samples r) (stored_at r) else samples r).
  assert (length kept = SAMPLES) as Hkept.
  { unfold kept, expire. destruct (0 <? s); [|apply (ring_samples _ _ Hr)].
    rewrite length_zip_with, (ring_samples _ _ Hr), (ring_stored _ _ Hr). done. }
  assert (∀ i x a, samples r !! i = Some x → stored_at r !! i = Some a →
    kept !! i = Some (if 0 <? s then if Z.of_nat SAMPLES <=? wrap 64 (intervals r - a) then 0 else x
                      else x)) as Hlook.
  { intros i x a Hx Ha. unfold kept, expire. destruct (0 <? s); [|done].
    rewrite lookup_zip_with, Hx, Ha. done. }
  split; cbn [store samples stored_at next intervals length]; fold kept.
  - by rewrite length_insert.
  - by rewrite length_insert, (ring_stored _ _ Hr).
  - rewrite Hnext. unfold SAMPLES. rewrite Nat.Div0.add_mod_idemp_l. f_equal. lia.
  - intros [|j] e He Hj; cbn in He.
    + injection He as <-. unfold slot. replace (S (length h) - 1 - 0)%nat with (length h) by lia.
      rewrite <- Hnext, !list_lookup_insert_eq by (rewrite ?Hkept, ?(ring_stored _ _ Hr); done).
      by rewrite live_head.
    + pose proof (lookup_lt_Some _ _ _ He) as Hjl. rewrite slot_cons by done.
      assert (slot (length h) j ≠ next r) by (rewrite Hnext; by apply slot_new).
      rewrite !list_lookup_insert_ne by done.
      destruct (ring_slot _ _ Hr j e He) as [Hx Ha]; [lia|]. split; [|done].
      rewrite (Hlook _ _ _ Hx Ha). f_equal. apply live_cons; [done|lia|].
      by eapply list_elem_of_lookup_2.
  - intros i Hge Hi. assert (i ≠ next r) as Hne.
    { rewrite Hnext. intros ->. rewrite Nat.mod_small in Hge; lia. }
    rewrite list_lookup_insert_ne by done.
    destruct (lookup_lt_is_Some_2 (stored_at r) i) as [a Ha]; [by rewrite (ring_stored _ _ Hr)|].
    rewrite (Hlook i 0 a); [|apply (ring_unused _ _ Hr); lia|done]. by repeat case_match.
  - constructor; [cbn; lia|done].
  - constructor; [done|apply (ring_rates _ _ Hr)].
  - done.
Qed.

(** The calls a delivery rate gets, with the history they make. *)
Inductive RateCall :=
  | RateAck (sent_time bytes : Z) (app_limited : bool)
  | RateEnd (now : Z) (app_limited : bool) (round : Z).

Definition rate_call (x : DeliveryRate * History) (c : RateCall) : DeliveryRate * History :=
  match c with
  | RateAck sent_time bytes app_limited => (rate_on_ack sent_time bytes app_limited x.1, x.2)
  | RateEnd now app_limited round =>
      let '(r, sample) := rate_on_end_acks now app_limited round x.1 in
      (r, match sample with
          | Some sample => if s_stored sample then (intervals x.1, s_rate sample) :: x.2 else x.2
          | None => x.2
          end)
  end.

Definition bytes_ok (c : RateCall) : Prop :=
  match c with RateAck _ bytes _ => 0 ≤ bytes | RateEnd _ _ _ => True end.

(** The ring is what a filter keeps between intervals; the rest may change freely. *)
Lemma ring_same r r' h :
  ring_ok r h → samples r' = samples r → stored_at r' = stored_at r → next r' = next r →
  intervals r ≤ intervals r' < 2 ^ 64 → ring_ok r' h.
Proof.
  intros Hr Hs Ha Hn Hi. destruct Hr. split; rewrite ?Hs, ?Ha, ?Hn; try done; [|lia].
  eapply Forall_impl; [exact ring_ages0|]. cbn. lia.
Qed.

Lemma clamp_nonneg x : 0 ≤ x → 0 ≤ clamp_u64 x.
Proof. unfold clamp_u64, u64_max. case_match; lia. Qed.

(** Arithmetic on the fields of a delivery rate. *)
Ltac fields := cbn [acked intervals rate_on_ack restart count_interval store]; lia.

Lemma rate_call_ok x c :
  bytes_ok c → ring_ok x.1 x.2 → 0 ≤ acked x.1 → intervals x.1 < 2 ^ 64 - 1 →
  let x' := rate_call x c in
  ring_ok x'.1 x'.2 ∧ 0 ≤ acked x'.1 ∧ intervals x.1 ≤ intervals x'.1 ≤ intervals x.1 + 1.
Proof.
  destruct x as [r h]. intros Hc Hr Ha Hi. cbn [fst snd] in *. pose proof (ring_now _ _ Hr).
  destruct c as [t bytes limited|now limited round]; cbn [rate_call fst snd bytes_ok] in *.
  - split_and!; [apply (ring_same r); try done; fields| |fields..].
    cbn [acked rate_on_ack]. unfold saturating_add. lia.
  - unfold rate_on_end_acks. cbn [started].
    set (r1 := mkRate _ _ _ _ _ _ _ _ _).
    assert (intervals r1 = intervals r) as Hi1 by done. assert (acked r1 = acked r) as Ha1 by done.
    assert (ring_ok r1 h) as Hr1 by (apply (ring_same r); try done; lia).
    destruct (started r) as [t|]; cbn [fst snd].
    2:{ split_and!; [apply (ring_same r); try done; fields|fields..]. }
    destruct ((since now t =? 0) || (since now t <? round)); cbn [fst snd]; [split_and!; [done|lia..]|].
    set (s := clamp_u64 _).
    assert (0 ≤ s) as Hs.
    { apply clamp_nonneg, Z.div_pos; lia. }
    assert (wrap 64 (intervals r + 1) = intervals r + 1) as Hw
      by (unfold wrap; apply Z.mod_small; lia).
    destruct (negb _ || _); cbn [s_stored s_rate]; cbn [restart count_interval acked intervals store];
      change (intervals r1) with (intervals r); rewrite Hw; (split; [|lia]).
    + apply (ring_same (store s r1)); [exact (ring_store r1 h s Hr1 Hs)|done..|]. cbn [intervals restart count_interval store r1]. rewrite Hw. lia.
    + apply (ring_same r1); [done..|]. cbn [intervals restart count_interval store r1]. rewrite Hw. lia.
Qed.

Lemma ring_default : ring_ok rate_default [].
Proof.
  split; try done.
  intros i _ Hi. by apply (lookup_replicate_2 SAMPLES 0 i).
Qed.

(** C37: the estimate is a windowed maximum. After any calls, it is the largest of
    the last ten samples stored that are not followed by a positive sample ten or
    more intervals later, and there is none when that is zero: the ring of ten slots,
    its expiry and its wrapped counters hold exactly what the reference says. *)
Theorem estimate_is_windowed_max calls :
  Forall bytes_ok calls → blen calls < 2 ^ 64 - 1 →
  let '(r, h) := foldl rate_call (rate_default, []) calls in
  estimate r = if 0 <? windowed_max h then Some (windowed_max h) else None.
Proof.
  intros Hb Hlen.
  assert (∀ l x, Forall bytes_ok l → ring_ok x.1 x.2 → 0 ≤ acked x.1 →
    intervals x.1 + blen l < 2 ^ 64 - 1 →
    ring_ok (foldl rate_call x l).1 (foldl rate_call x l).2) as Hrun.
  { intros l. induction l as [|c l IH]; intros x Hl Hr Ha Hi; cbn [foldl]; [done|].
    apply Forall_cons in Hl as [Hc Hl].
    assert (blen (c :: l) = 1 + blen l) as E by (unfold blen; cbn [length]; lia).
    pose proof (blen_nonneg l). destruct (rate_call_ok x c Hc Hr Ha) as (H1 & H2 & H3); [lia|].
    apply IH; [done..|lia]. }
  pose proof (Hrun calls (rate_default, []) Hb ring_default ltac:(cbn; lia)) as Hr.
  destruct (foldl rate_call (rate_default, []) calls) as [r h]. cbn [fst snd] in Hr.
  unfold estimate. rewrite (ring_max r h); [done|]. apply Hr. cbn. lia.
Qed.

Lemma estimate_is_windowed_max_witness :
  let calls := [RateEnd 0 false 0; RateAck 0 3000 false; RateEnd 1000000 false 0;
                RateAck 0 1000 false; RateEnd 2000000 false 0] in
  Forall bytes_ok calls ∧
  let '(r, h) := foldl rate_call (rate_default, []) calls in
  estimate r = if 0 <? windowed_max h then Some (windowed_max h) else None.
Proof.
  assert (Forall bytes_ok [RateEnd 0 false 0; RateAck 0 3000 false; RateEnd 1000000 false 0;
    RateAck 0 1000 false; RateEnd 2000000 false 0]) as Hb by (repeat constructor; cbn; lia).
  split; [exact Hb|]. apply estimate_is_windowed_max; [exact Hb|reflexivity].
Defined.

(** ** The startup ends *)

(** An interval that was not app-limited, with the congestion event before it if
    there was one. *)
Definition startup_interval (s : Startup) (e : Z * bool) : Startup :=
  on_interval e.1 false
    (mkStartup (ended s) (grown_to s) (flat s) (congested s || e.2) (peak s) (last s) (rises s)).

(** The fourth power of a rate at least doubles with each growth of a quarter. *)
Definition level (x : Z) : Z := if x =? 0 then 0 else 1 + Z.log2 (x * x * (x * x)).

Lemma level_bound x : 0 ≤ x ≤ u64_max → 0 ≤ level x ≤ 256.
Proof.
  intros Hx. unfold level, u64_max in *. destruct (Z.eqb_spec x 0); [lia|].
  pose proof (Z.log2_nonneg (x * x * (x * x))). split; [lia|].
  assert (Z.log2 (x * x * (x * x)) < 256); [|lia]. apply Z.log2_lt_pow2; [nia|].
  assert (x * x < 2 ^ 128) by (change (2 ^ 128) with (2 ^ 64 * 2 ^ 64); nia).
  change (2 ^ 256) with (2 ^ 128 * 2 ^ 128). nia.
Qed.

Lemma level_grows x y : 0 ≤ x → 0 < y → x * 125 ≤ y * 100 → level x + 1 ≤ level y.
Proof.
  intros Hx Hy Hg. unfold level. destruct (Z.eqb_spec y 0); [lia|].
  destruct (Z.eqb_spec x 0).
  { pose proof (Z.log2_nonneg (y * y * (y * y))). lia. }
  assert (2 * (x * x * (x * x)) ≤ y * y * (y * y)) as H2.
  { assert (3 * (x * x) ≤ 2 * (y * y)) by nia. nia. }
  apply Z.log2_le_mono in H2. rewrite Z.log2_double in H2 by nia. lia.
Qed.

Definition startup_measure (s : Startup) : Z := 3 * (256 - level (grown_to s)) + (3 - flat s).

Definition starting (s : Startup) : Prop :=
  ended s = false ∧ 0 ≤ grown_to s ≤ u64_max ∧ 0 ≤ flat s ≤ 2.

Lemma startup_interval_decreases s e :
  starting s → 0 < e.1 ≤ u64_max →
  ended (startup_interval s e) = true ∨
  starting (startup_interval s e) ∧ startup_measure (startup_interval s e) < startup_measure s.
Proof.
  destruct e as [e c]. unfold starting, startup_measure, startup_interval, on_interval.
  cbn [fst snd ended grown_to flat congested peak last rises andb negb]. intros (-> & Hg & Hf) He.
  cbn [ended]. destruct (Z.leb_spec (grown_to s * GROWTH_PERCENT) (e * 100)) as [Hgrow|Hno];
    cbn [ended grown_to flat].
  - right. unfold GROWTH_PERCENT in Hgrow.
    pose proof (level_grows (grown_to s) e ltac:(lia) ltac:(lia) Hgrow). split_and!; lia || done.
  - destruct (congested s || c); cbn [ended grown_to flat]; [by left|].
    unfold SAMPLES_WITHOUT_GROWTH. destruct (Z.leb_spec 3 (flat s + 1)); [by left|right].
    split_and!; lia || done.
Qed.

Lemma startup_runs_out (s : Startup) (l : list (Z * bool)) :
  starting s → Forall (λ e, 0 < e.1 ≤ u64_max) l → startup_measure s ≤ blen l →
  ∃ p, p `prefix_of` l ∧ ended (foldl startup_interval s p) = true.
Proof.
  revert s. induction l as [|e l IH]; intros s Hs Hl Hm.
  { exfalso. unfold startup_measure, blen in Hm. destruct Hs as (_ & Hg & Hf).
    pose proof (level_bound _ Hg). cbn in Hm. lia. }
  apply Forall_cons in Hl as [He Hl].
  destruct (startup_interval_decreases s e Hs He) as [Hend|[Hs' Hlt]].
  - exists [e]. split; [by exists l|done].
  - destruct (IH _ Hs' Hl) as (p & [q ->] & Hp).
    + unfold blen in *. cbn [length] in Hm. lia.
    + exists (e :: p). split; [by exists q|done].
Qed.

(** The startup ends. Whatever estimates a connection gets, and with or without
    congestion, the startup gain is given up after at most 771 intervals that were
    not app-limited and measured something: an estimate of 64 bits cannot keep
    growing by a quarter. *)
Theorem startup_terminates l :
  Forall (λ e, 0 < e.1 ≤ u64_max) l → 771 ≤ blen l →
  ∃ p, p `prefix_of` l ∧ ended (foldl startup_interval startup_default p) = true.
Proof.
  intros Hl Hlen. apply startup_runs_out; [|done|unfold startup_measure; cbn; lia].
  split_and!; try done; unfold u64_max; cbn; lia.
Qed.

Lemma startup_terminates_witness :
  ∃ p, p `prefix_of` replicate 771 (5, false) ∧
    ended (foldl startup_interval startup_default p) = true.
Proof.
  apply startup_terminates; [|vm_compute; discriminate].
  apply Forall_replicate. unfold u64_max. cbn. lia.
Defined.

(** ** The wrapper *)

Section Wrapper.
Context `{!Controller}.

Inductive Call :=
  | CallSent (now bytes last_packet_number : Z)
  | CallAck (now sent_time bytes : Z) (app_limited : bool) (rtt : Z)
  | CallEndAcks (now in_flight : Z) (app_limited : bool) (largest : option Z)
  | CallCongestion (now sent_time : Z) (persistent : bool) (lost : Z)
  | CallMtu (new_mtu : Z).

Definition bbr_call (b : BbrCapped) (c : Call) : BbrCapped :=
  match c with
  | CallSent now bytes n => on_sent now bytes n b
  | CallAck now t bytes limited rtt => on_ack now t bytes limited rtt b
  | CallEndAcks now in_flight limited largest => on_end_acks now in_flight limited largest b
  | CallCongestion now t persistent lost => on_congestion_event now t persistent lost b
  | CallMtu m => on_mtu_update m b
  end.

(** The same calls made to quinn's controller alone. *)
Definition inner_call (i : Inner) (c : Call) : Inner :=
  match c with
  | CallSent now bytes n => inner_on_sent now bytes n i
  | CallAck now t bytes limited rtt => inner_on_ack now t bytes limited rtt i
  | CallEndAcks now in_flight limited largest => inner_on_end_acks now in_flight limited largest i
  | CallCongestion now t persistent lost => inner_on_congestion_event now t persistent lost i
  | CallMtu m => inner_on_mtu_update m i
  end.

Lemma bbr_call_inner b c : inner (bbr_call b c) = inner_call (inner b) c.
Proof.
  destruct c; cbn [bbr_call inner_call]; try done.
  - unfold on_ack, record_ack, set_measure. repeat case_match; done.
  - unfold on_end_acks, update_probe, set_measure. destruct (rate_on_end_acks _ _ _ _) as [r o].
    cbn [probe]. repeat case_match; done.
Qed.

(** Round trips are not negative. *)
Definition measured (b : BbrCapped) : Prop :=
  (∀ m t, min_rtt b = Some (m, t) → 0 ≤ m) ∧ (∀ p, probe b = Some p → 0 ≤ probe_min p).

Lemma since_nonneg a b : 0 ≤ since a b.
Proof. unfold since. lia. Qed.

Lemma bbr_call_measured b c : measured b → measured (bbr_call b c).
Proof.
  unfold measured. intros [Hm Hp]. destruct c; cbn [bbr_call]; try done.
  - unfold on_ack, record_ack, set_measure. pose proof (since_nonneg now sent_time) as Hs.
    cbn [probe min_rtt]. destruct (probe b) as [p|] eqn:Ep.
    { split; cbn; [done|]. intros p' [= <-]. cbn. specialize (Hp p eq_refl). lia. }
    destruct (min_rtt b) as [[m at_]|] eqn:Em; [|split; cbn; [by intros ? ? [= <- <-]|done]].
    repeat case_match; (split; cbn; [intros ? ? [= <- <-]; eauto|]); try done;
      intros p' [= <-]; done.
  - unfold on_end_acks, update_probe, set_measure. destruct (rate_on_end_acks _ _ _ _) as [r o].
    cbn [probe min_rtt]. destruct (probe b) as [p|] eqn:Ep; [|done]. specialize (Hp p eq_refl).
    repeat case_match; (split; cbn; [|try done]); try done;
      first [by intros ? ? [= <- <-]|intros ? [= <-]; done].
Qed.

Lemma reachable_measured current_mtu calls : measured (foldl bbr_call (build current_mtu) calls).
Proof.
  assert (∀ l b, measured b → measured (foldl bbr_call b l)) as Hl.
  { intros l. induction l as [|c l IH]; intros b Hb; cbn; [done|]. by apply IH, bbr_call_measured. }
  by apply Hl.
Qed.

(** The multiple of the bandwidth-delay product the window is held to. *)
Definition gain (b : BbrCapped) : Z :=
  match probe b with
  | Some _ => 500
  | None => if ended (startup b) then 1250 else 2885
  end.

Definition floor_of (b : BbrCapped) : Z :=
  match probe b with Some _ => 4 * mtu b | None => initial_window b end.

Lemma clamp_le x : 0 ≤ x → clamp_u64 x ≤ x.
Proof. unfold clamp_u64, u64_max. case_match; lia. Qed.

(** The wrapper only lowers the window. Whatever calls it gets, quinn's
    controller has seen exactly those calls; the window is never above that
    controller's and never below it and the floor both; and once there is an
    estimate and a minimum RTT it is at most the gain (1.25, 2.885 while starting,
    one half while probing) times their product, or the floor. *)
Theorem wrapper_only_lowers current_mtu calls :
  let b := foldl bbr_call (build current_mtu) calls in
  inner b = foldl inner_call (bbr_new current_mtu) calls ∧
  window b ≤ inner_window (inner b) ∧
  Z.min (inner_window (inner b)) (floor_of b) ≤ window b ∧
  (∀ bandwidth min at_, estimate (rate b) = Some bandwidth → min_rtt b = Some (min, at_) →
     window b ≤ Z.max (bandwidth * as_micros min * gain b / 1000000000) (floor_of b)).
Proof.
  intros b. split.
  { assert (∀ l b0, inner (foldl bbr_call b0 l) = foldl inner_call (inner b0) l) as Hf; [|apply Hf].
    intros l. induction l as [|c l IH]; intros b0; cbn; [done|]. by rewrite IH, bbr_call_inner. }
  assert (∀ bandwidth min at_, estimate (rate b) = Some bandwidth → min_rtt b = Some (min, at_) →
    cap b = Some (Z.max (clamp_u64 (bandwidth * as_micros min * gain b / 1000000000)) (floor_of b)))
    as Hcap.
  { intros bandwidth min at_ He Hm. unfold cap, gain, floor_of, initial_window. rewrite He, Hm.
    cbn [mbind option_bind]. destruct (probe b); [done|]. by destruct (ended (startup b)). }
  assert (cap b = None ∨ ∃ c, cap b = Some c ∧ floor_of b ≤ c) as Hc.
  { destruct (estimate (rate b)) as [bw|] eqn:He; [|left; unfold cap; by rewrite He].
    destruct (min_rtt b) as [[m t]|] eqn:Hm; [|left; unfold cap; by rewrite He, Hm].
    right. rewrite (Hcap bw m t) by done. eexists. split; [done|lia]. }
  unfold window. split_and!.
  - destruct Hc as [->|(c & -> & _)]; lia.
  - destruct Hc as [->|(c & -> & ?)]; lia.
  - intros bw m t He Hm. rewrite (Hcap bw m t) by done.
    destruct (reachable_measured current_mtu calls) as [Hpos _]. specialize (Hpos m t Hm).
    assert (0 ≤ bw) by (unfold estimate in He; case_match; [|done]; injection He as <-; lia).
    assert (0 ≤ gain b) by (unfold gain; repeat case_match; lia).
    assert (0 ≤ as_micros m) by (apply Z.div_pos; lia).
    assert (0 ≤ bw * as_micros m * gain b / 1000000000) as Hb by (apply Z.div_pos; nia).
    pose proof (clamp_le _ Hb). lia.
Qed.
End Wrapper.
