(* ===== verification/Conn.v ===== *)
(** * One connection's requests (src/src/conn.rs, h3api.rs)

    [handle_request], which puts every component in the order of the source: the
    malformed request, the credentials and what a failure costs, the quota, the
    route, the tunnel; the connection loop with its GOAWAY and its silence deadline;
    what of a credential reaches the log; and how an ending is classified. *)

From S2P Require Import Prelude Utf8 H3Error Datagram Policy Logfmt Message RequestStream Exchange Tokio Quota.
From S2P Require Import Status StatusFacts Target Net Auth Context UdpSession UdpFacts TcpTunnel TcpFacts.

#[local] Open Scope Z_scope.

Definition AUTH_FAILURE_LIMIT_CODE : Z := 0x10b.

(** ** A request *)

(** What the kernel, the resolver and the clock would do during a request. *)
Record Env (UdpSocket TcpSocket : Type) := mkEnv {
  udp_bind : SocketAddr → result UdpSocket IoError;
  udp_connect : UdpSocket → SocketAddr → result UdpSocket IoError;
  set_dont_fragment : UdpSocket → UdpSocket;
  connect : SocketAddr → Attempt TcpSocket;
  set_nodelay : TcpSocket → TcpSocket;
  holds_address : IpAddr → bool;
  EMFILE : Z; ENFILE : Z; ENOBUFS : Z; ENOMEM : Z; EADDRNOTAVAIL : Z;
  lookup : bytes → Z → Lookup;
  claimed : bool;
  now : Z;
  stall_budget : Z;
}.
Arguments udp_bind {_ _}.
Arguments udp_connect {_ _}.
Arguments set_dont_fragment {_ _}.
Arguments connect {_ _}.
Arguments set_nodelay {_ _}.
Arguments holds_address {_ _}.
Arguments EMFILE {_ _}.
Arguments ENFILE {_ _}.
Arguments ENOBUFS {_ _}.
Arguments ENOMEM {_ _}.
Arguments EADDRNOTAVAIL {_ _}.
Arguments lookup {_ _}.
Arguments claimed {_ _}.
Arguments now {_ _}.
Arguments stall_budget {_ _}.

Section Requests.
Context `{!PercentDecode} {UdpSocket TcpSocket QuinnError M N : Type}.
Context `{!Semaphore M} `{!Notify N}.
Implicit Types env : Env UdpSocket TcpSocket.

(** How a request was handled: the stream answered, the connection closed, or a
    tunnel of either kind attempted. *)
Inductive Handled :=
  | AnsweredOnly (effects : list Effect)
  | ClosedConnection (code : Z) (reason : string)
  | TcpAttempt (effects : list Effect) (opened : @Opened TcpSocket)
  | UdpAttempt (effects : list Effect) (session : option (Session * UdpSocket)).

(** The failures of a request, one per claim it made. *)
Definition record_failures (claims : list (option bytes)) (ctx : Context) : Context * bool :=
  foldl (λ s claim, let '(c, spent) := record_auth_failure claim s.1 in (c, s.2 || spent))
    (ctx, false) claims.

(** The request is past the door and holds a slot. *)
Definition dispatch env (req : Request) (stream_id : Z) (ctx : Context) (w : @WriteOutcome QuinnError)
    : option (Context * Handled) :=
  match route req with
  | RouteTcp =>
      match authority req with
      | Some authority =>
          '(ctx, effects, opened) ←
            run_tcp (connect env) (set_nodelay env) (holds_address env) (EMFILE env) (ENFILE env)
              (ENOBUFS env) (ENOMEM env) (EADDRNOTAVAIL env) authority ctx (lookup env) w;
          Some (ctx, TcpAttempt effects opened)
      | None => effects ← refuse BAD_REQUEST w; Some (ctx, AnsweredOnly effects)
      end
  | RouteConnectUdp =>
      '(ctx, effects, session) ←
        establish (udp_bind env) (udp_connect env) (set_dont_fragment env) (holds_address env)
          (EMFILE env) (ENFILE env) (ENOBUFS env) (ENOMEM env) (EADDRNOTAVAIL env)
          req stream_id ctx (claimed env) (lookup env) (now env) (stall_budget env) w;
      Some (ctx, UdpAttempt effects session)
  | UnsupportedProtocol _ | NotConnect =>
      effects ← refuse NOT_IMPLEMENTED w; Some (ctx, AnsweredOnly effects)
  end.

(** The context and the quota after the request was handled, while its tunnel
    holds its slot. [None]: a panic, or a wait without an end. *)
Definition handle_request env (req : Request) (stream_id : Z) (ctx : Context) (q : Quota M N)
    (w : @WriteOutcome QuinnError) : option (Context * Quota M N * Handled) :=
  match connection_specific_field req with
  | Some _ => effects ← refuse BAD_REQUEST w; Some (ctx, q, AnsweredOnly effects)
  | None =>
      if (MAX_CREDENTIAL_VALUES <? credential_values (fields req))%nat then
        effects ← refuse BAD_REQUEST w; Some (ctx, q, AnsweredOnly effects)
      else
        match authenticate (auth ctx) (fields req) with
        | Err denials =>
            let '(ctx, spent) := record_failures (claims denials) ctx in
            if spent then
              Some (ctx, q, ClosedConnection AUTH_FAILURE_LIMIT_CODE "too many authentication failures")
            else
              fields ← challenge_fields;
              effects ← refuse_with PROXY_AUTHENTICATION_REQUIRED fields w;
              Some (ctx, q, AnsweredOnly effects)
        | Ok username =>
            let '(ctx, _) := mark_authenticated username ctx in
            match acquire q with
            | None =>
                let ctx := set_limit_refusals (record (limit_refusals ctx)).1 ctx in
                effects ← refuse_because ConnectionLimitReached w;
                Some (ctx, q, AnsweredOnly effects)
            | Some q =>
                '(ctx, handled) ← dispatch env req stream_id (count_tunnel ctx) w;
                Some (ctx, q, handled)
            end
        end
  end.
End Requests.

(** ** The connection loop *)

Definition SILENCE_FACTOR : Z := 2.

(** How the bounded write of the GOAWAY ended. *)
Inductive GoawayEnd := GoawaySent | GoawayFailed | GoawayElapsed.

Inductive ConnDrain := DrainPending | DrainFinished.

Definition announce_goaway (sent : GoawayEnd) (busy : bool) : ConnDrain :=
  match sent with
  | GoawayFailed => DrainFinished
  | GoawaySent | GoawayElapsed => if busy then DrainPending else DrainFinished
  end.

Section ConnectionLoop.
Context {Resolver Error : Type}.

Inductive NextRequest :=
  | NextStream (r : Resolver) | NextFinished | NextSilent | NextFailed (e : Error).

Definition next_request_from (accepted : result (option Resolver) Error) : NextRequest :=
  match accepted with
  | Ok (Some r) => NextStream r
  | Ok None => NextFinished
  | Err e => NextFailed e
  end.

(** One pass of [next_request]: what [accept] has ready, if anything.  [None]: it
    waits. *)
Definition next_request (authenticated : bool) (now deadline : Z)
    (ready : option (result (option Resolver) Error)) : option NextRequest :=
  if authenticated then option_map next_request_from ready
  else if deadline <=? now then Some NextSilent
  else option_map next_request_from ready.

(** What a turn of the loop finds. *)
Record Turn := mkTurn {
  t_now : Z;
  t_fired : bool;
  t_goaway : GoawayEnd;
  t_busy : bool;
  t_authenticated : bool;
  t_ready : option (result (option Resolver) Error);
}.

(** The loop goes on with this state, or has ended: with nothing, with an error of
    the connection, or closed for its silence.  The flag says whether it tried to
    send a GOAWAY, and the list what it spawned. *)
Inductive LoopEnd := LoopDone | LoopFailed (e : Error) | LoopSilent.

Record ConnLoop := mkLoop { going_away : bool; goaways : nat; spawned : list Resolver }.

Definition conn_turn (deadline : Z) (t : Turn) (s : ConnLoop) : ConnLoop + (ConnLoop * LoopEnd) :=
  if t_fired t && negb (going_away s) then
    let s := mkLoop true (S (goaways s)) (spawned s) in
    match announce_goaway (t_goaway t) (t_busy t) with
    | DrainFinished => inr (s, LoopDone)
    | DrainPending => inl s
    end
  else if going_away s && negb (t_busy t) then inr (s, LoopDone)
  else
    match next_request (t_authenticated t) (t_now t) deadline (t_ready t) with
    | None => inl s
    | Some (NextStream r) => inl (mkLoop (going_away s) (goaways s) (spawned s ++ [r]))
    | Some NextFinished => inr (s, LoopDone)
    | Some (NextFailed e) => inr (s, LoopFailed e)
    | Some NextSilent => inr (s, LoopSilent)
    end.

(** [handle]: the loop over what its turns find. *)
Fixpoint conn_loop (deadline : Z) (turns : list Turn) (s : ConnLoop)
    : ConnLoop * option LoopEnd :=
  match turns with
  | [] => (s, None)
  | t :: turns =>
      match conn_turn deadline t s with
      | inl s => conn_loop deadline turns s
      | inr (s, e) => (s, Some e)
      end
  end.
End ConnectionLoop.

(** ** What reaches the log *)

Definition MAX_SCHEME : nat := 16.

Definition redacted (n : Z) : bytes := lit "<redacted " ++ lit (pretty n) ++ lit " bytes>".

(** A character of a [str] is ASCII exactly when its bytes are. *)
Definition redact_credentials (value : FieldValue) : bytes :=
  match to_str value with
  | None => redacted (blen value)
  | Some text =>
      match split_at_byte SPACE text with
      | (scheme, Some secret) =>
          if negb (bool_decide (scheme = [])) && (length scheme <=? MAX_SCHEME)%nat
             && forallb is_ascii_alphanumeric scheme
          then scheme ++ lit " " ++ redacted (blen (trim_spaces secret))
          else redacted (blen text)
      | (_, None) => redacted (blen text)
      end
  end.

(** One header line of the request log. *)
Definition log_header (f : bytes * FieldValue) : bytes :=
  let '(name, value) := f in
  name ++ lit ": " ++
  if is_credential_field name then redact_credentials value
  else match to_str value with
       | Some text => text
       | None => lit "<" ++ lit (pretty (blen value)) ++ lit " non-utf8 bytes>"
       end.

(** ** Endings (h3api.rs) *)

Section Endings.
Context {QuinnError : Type}.

Definition peer_reset_code (e : @StreamError QuinnError) : option Z :=
  match e with RemoteTerminate code => Some (value code) | _ => None end.

Inductive BenignClose := BenignIdle | BenignPeerClosed.

Definition benign_close (e : @ConnectionError QuinnError) : option BenignClose :=
  match e with
  | Timeout => Some BenignIdle
  | ApplicationClose code =>
      if (value code =? 0) || bool_decide (code = H3_NO_ERROR) then Some BenignPeerClosed else None
  | ConnLocal v => if bool_decide (H3Error.code v = H3_NO_ERROR) then Some BenignIdle else None
  | Transport _ => None
  end.
End Endings.
