(* ===== verification/ConnFacts.v ===== *)
(** * What a connection promises (src/src/conn.rs)

    A request without credentials reaches nothing; every request is answered once;
    a connection that never authenticates is closed at its deadline whatever it
    sends; and no secret reaches the log. *)

From S2P Require Import Prelude Utf8 H3Error Datagram Policy Logfmt Message RequestStream Exchange Tokio Quota.
From S2P Require Import Status StatusFacts Target Net Auth Context UdpSession UdpFacts TcpTunnel TcpFacts.
From S2P Require Import Conn.

#[local] Open Scope Z_scope.

Section RequestFacts.
Context `{!PercentDecode} {UdpSocket TcpSocket QuinnError M N : Type}.
Context `{!Semaphore M} `{!Notify N}.
Implicit Types (env : Env UdpSocket TcpSocket) (w : @WriteOutcome QuinnError) (q : Quota M N).

#[local] Abbreviation Handled := (@Handled UdpSocket TcpSocket).

(** The responses written. *)
Definition writes (effects : list Effect) : list bytes :=
  omap (λ e, match e with Write frame => Some frame | _ => None end) effects.

Lemma writes_refusal frame w : writes (Stop H3_NO_ERROR :: Write frame :: ending w) = [frame].
Proof. by destruct w. Qed.

Lemma writes_answer frame w : writes (Write frame :: ending w) = [frame].
Proof. by destruct w. Qed.

Lemma refuse_eq status w :
  status ∈ [BAD_REQUEST; NOT_IMPLEMENTED] →
  ∃ frame, refuse status w = Some (Stop H3_NO_ERROR :: Write frame :: ending w).
Proof.
  intros Hs. unfold refuse.
  assert (status = BAD_REQUEST ∨ status = NOT_IMPLEMENTED) as [-> | ->] by set_solver;
    eexists; apply refuse_with_eq; vm_compute; reflexivity.
Qed.

(** The challenge is a constant, and fits a frame. *)
Lemma challenge_eq : ∃ fields frame, challenge_fields = Some fields ∧
  response_frame PROXY_AUTHENTICATION_REQUIRED fields = Some frame.
Proof. do 2 eexists. split; [vm_compute; reflexivity|]. vm_compute. reflexivity. Qed.

(** Failures change the buckets and nothing else. *)
Lemma record_failures_keeps l ctx :
  let '(ctx', spent) := record_failures l ctx in
  authenticated ctx' = authenticated ctx ∧ tunnels ctx' = tunnels ctx ∧
  max_auth_failures ctx' = max_auth_failures ctx ∧
  (spent = true → 0 < max_auth_failures ctx).
Proof.
  unfold record_failures.
  assert (∀ s, s.2 = false ∨ 0 < max_auth_failures s.1 →
    let '(ctx', spent) := foldl (λ s claim, let '(c, spent) := record_auth_failure claim s.1 in
      (c, s.2 || spent)) s l in
    authenticated ctx' = authenticated s.1 ∧ tunnels ctx' = tunnels s.1 ∧
    max_auth_failures ctx' = max_auth_failures s.1 ∧ (spent = true → 0 < max_auth_failures s.1)) as Hl.
  { induction l as [|claim l IH]; intros [c sp] Hs; cbn [foldl fst snd] in *.
    - split_and!; try done. intros ->. by destruct Hs.
    - specialize (IH (let '(c', spent) := record_auth_failure claim c in (c', sp || spent))).
      cbn [record_auth_failure fst snd] in IH |- *. apply IH. cbn.
      destruct Hs as [->|Hs]; [|by right]. cbn. destruct (Z.ltb_spec 0 (max_auth_failures c)); [by right|].
      by left. }
  apply (Hl (ctx, false)). by left.
Qed.

(** C3: a request that does not authenticate reaches nothing. Whatever the resolver,
    the sockets and the clock would do, it is handled the same way and returns; no
    slot is taken, no tunnel counted and the door stays as it was; and it ends with
    one answer, or with the connection closed once the failures have reached a
    configured cap. *)
Theorem denied_request_inert env env' req stream_id ctx q w denials :
  authenticate (auth ctx) (fields req) = Err denials →
  handle_request env req stream_id ctx q w = handle_request env' req stream_id ctx q w ∧
  ∃ ctx' handled, handle_request env req stream_id ctx q w = Some (ctx', q, handled) ∧
    authenticated ctx' = authenticated ctx ∧ tunnels ctx' = tunnels ctx ∧
    match handled with
    | AnsweredOnly effects => ∃ frame, effects = Stop H3_NO_ERROR :: Write frame :: ending w
    | ClosedConnection code _ => code = 0x10b ∧ 0 < max_auth_failures ctx
    | _ => False
    end.
Proof.
  intros Hauth. unfold handle_request. rewrite Hauth.
  destruct (refuse_eq BAD_REQUEST w) as [f400 H400]; [set_solver|].
  destruct challenge_eq as (cf & f407 & Hcf & H407).
  destruct (connection_specific_field req).
  { rewrite H400. cbn. split; [done|]. do 2 eexists. split_and!; [done..|by exists f400]. }
  destruct (_ <? _)%nat.
  { rewrite H400. cbn. split; [done|]. do 2 eexists. split_and!; [done..|by exists f400]. }
  pose proof (record_failures_keeps (claims denials) ctx) as Hk.
  destruct (record_failures (claims denials) ctx) as [ctx' spent]. destruct Hk as (H1 & H2 & H3 & H4).
  destruct spent.
  - split; [done|]. do 2 eexists. split_and!; [done..|]. split; [done|auto].
  - rewrite Hcf. cbn [mbind option_bind]. rewrite (refuse_with_eq _ _ _ w H407). cbn.
    split; [done|]. do 2 eexists. split_and!; [done..|by exists f407].
Qed.

(** Effects of a handled request on its stream. *)
Definition effects_of (h : Handled) : list Effect :=
  match h with
  | AnsweredOnly effects | TcpAttempt effects _ | UdpAttempt effects _ => effects
  | ClosedConnection _ _ => []
  end.

(** Whether a request came to a tunnel. *)
Definition tunnelled (h : Handled) : bool :=
  match h with
  | TcpAttempt _ (Established _) | UdpAttempt _ (Some _) => true
  | _ => false
  end.

Lemma count_tunnel_door ctx : authenticated (count_tunnel ctx) = authenticated ctx.
Proof. done. Qed.

Lemma dispatch_answers env req stream_id ctx w b :
  (∀ a after r, connect env a = Completes after r → 0 ≤ after) →
  connect_timeout ctx = Some b → 0 ≤ b →
  ∃ ctx' h, dispatch env req stream_id ctx w = Some (ctx', h) ∧
    (∃ frame, writes (effects_of h) = [frame]) ∧
    (tunnelled h = true → ctx' = ctx ∧ w = Written).
Proof.
  intros Htime Hb Hpos. unfold dispatch. destruct (route req) as [| |p|].
  - destruct (authority req) as [a|].
    + destruct (tcp_opening (connect env) (set_nodelay env) (holds_address env) (EMFILE env)
        (ENFILE env) (ENOBUFS env) (ENOMEM env) (EADDRNOTAVAIL env) Htime a ctx (lookup env) w)
        as [Hret Hspec].
      destruct (Hret b Hb Hpos) as [[[c e] o] Hrun]. rewrite Hrun. specialize (Hspec c e o Hrun).
      cbn [mbind option_bind]. exists c, (TcpAttempt e o). split; [done|]. cbn [effects_of tunnelled].
      destruct o as [|tcp|tcp].
      * destruct Hspec as [f ->]. split; [rewrite writes_refusal; eauto|done].
      * destruct Hspec as (_ & _ & [f ->] & _). split; [rewrite writes_answer; eauto|done].
      * destruct Hspec as (-> & -> & [f ->] & _). split; [by exists f|done].
    + destruct (refuse_eq BAD_REQUEST w) as [f ->]; [set_solver|]. cbn [mbind option_bind].
      do 2 eexists. split; [done|]. cbn [effects_of]. rewrite writes_refusal. split; [eauto|done].
  - destruct (udp_establishment (udp_bind env) (udp_connect env) (set_dont_fragment env)
      (holds_address env) (EMFILE env) (ENFILE env) (ENOBUFS env) (ENOMEM env) (EADDRNOTAVAIL env)
      req stream_id ctx (claimed env) (lookup env) (now env) (stall_budget env) w) as [Hret Hspec].
    destruct Hret as [[[c e] o] Hrun]; [congruence|]. rewrite Hrun.
    destruct (Hspec c e) as [Hsome Hnone].
    cbn [mbind option_bind]. exists c, (UdpAttempt e o). split; [done|]. cbn [effects_of tunnelled].
    destruct o as [[s k]|].
    + destruct (Hsome s k Hrun) as (-> & -> & _ & [f ->] & _). split; [by exists f|done].
    + destruct (Hnone Hrun) as [f [-> |[_ ->]]]; (split; [|done]);
        rewrite ?writes_refusal, ?writes_answer; eauto.
  - destruct (refuse_eq NOT_IMPLEMENTED w) as [f ->]; [set_solver|]. cbn [mbind option_bind].
    do 2 eexists. split; [done|]. cbn [effects_of]. rewrite writes_refusal. split; [eauto|done].
  - destruct (refuse_eq NOT_IMPLEMENTED w) as [f ->]; [set_solver|]. cbn [mbind option_bind].
    do 2 eexists. split; [done|]. cbn [effects_of]. rewrite writes_refusal. split; [eauto|done].
Qed.

(** C6: every request is answered. With a connect timeout the handling of a request
    always returns, and it has written exactly one response or closed the
    connection; a tunnel exists only for a request that authenticated, took a slot
    of the quota, carries no connection-specific field and at most two credential
    values, and whose response was written. *)
Theorem request_answered env req stream_id ctx q w b :
  (∀ a after r, connect env a = Completes after r → 0 ≤ after) →
  connect_timeout ctx = Some b → 0 ≤ b →
  ∃ ctx' q' h, handle_request env req stream_id ctx q w = Some (ctx', q', h) ∧
    ((∃ frame, writes (effects_of h) = [frame]) ∨
     (∃ reason, h = ClosedConnection AUTH_FAILURE_LIMIT_CODE reason)) ∧
    (tunnelled h = true →
       w = Written ∧ acquire q = Some q' ∧ is_authenticated ctx' = true ∧
       connection_specific_field req = None ∧ (credential_values (fields req) ≤ 2)%nat ∧
       ∃ user, authenticate (auth ctx) (fields req) = Ok user).
Proof.
  intros Htime Hb Hpos. unfold handle_request.
  destruct (refuse_eq BAD_REQUEST w) as [f400 H400]; [set_solver|].
  destruct challenge_eq as (cf & f407 & Hcf & H407).
  destruct (connection_specific_field req) eqn:Ec.
  { rewrite H400. cbn [mbind option_bind]. do 3 eexists. split; [done|]. cbn [effects_of].
    rewrite writes_refusal. split; [left; eauto|done]. }
  destruct (Nat.ltb_spec MAX_CREDENTIAL_VALUES (credential_values (fields req))) as [_|Hcv].
  { rewrite H400. cbn [mbind option_bind]. do 3 eexists. split; [done|]. cbn [effects_of].
    rewrite writes_refusal. split; [left; eauto|done]. }
  destruct (authenticate (auth ctx) (fields req)) as [user|denials] eqn:Ea.
  2:{ destruct (record_failures (claims denials) ctx) as [ctx' spent]. destruct spent.
      - do 3 eexists. split; [done|]. split; [right; eauto|done].
      - rewrite Hcf. cbn [mbind option_bind]. rewrite (refuse_with_eq _ _ _ w H407).
        cbn [mbind option_bind]. do 3 eexists. split; [done|]. cbn [effects_of].
        rewrite writes_refusal. split; [left; eauto|done]. }
  cbn [mark_authenticated gate_mark]. destruct (acquire q) as [q'|] eqn:Eq.
  - destruct (dispatch_answers env req stream_id
      (count_tunnel (set_door (forgive user (auth_failures ctx)) true ctx)) w b Htime) as
      (c & h & -> & Hw & Ht); [done..|]. cbn [mbind option_bind]. exists c, q', h. split; [done|].
    split; [by left|]. intros [-> ->]%Ht. split_and!; [done..|]. eauto.
  - destruct (refuse_because_eq ConnectionLimitReached w) as (f & _ & ->). cbn [mbind option_bind].
    do 3 eexists. split; [done|]. cbn [effects_of]. rewrite writes_refusal. split; [left; eauto|done].
Qed.
End RequestFacts.

(** ** The connection loop *)

Section LoopFacts.
Context {Resolver Error : Type}.
Implicit Types (s : @ConnLoop Resolver) (t : @Turn Resolver Error).

Lemma conn_loop_app deadline (pre post : list (@Turn Resolver Error)) s :
  conn_loop deadline (pre ++ post) s =
  match conn_loop deadline pre s with
  | (s, None) => conn_loop deadline post s
  | over => over
  end.
Proof.
  revert s. induction pre as [|t pre IH]; intros s; cbn [app conn_loop]; [done|].
  destruct (conn_turn deadline t s) as [s'|[s' e]]; [apply IH|done].
Qed.

(** A GOAWAY is tried exactly when the connection starts to go away. *)
Definition goaway_ok s : Prop := goaways s = if going_away s then 1%nat else 0%nat.

Lemma conn_turn_goaway deadline t s :
  goaway_ok s →
  match conn_turn deadline t s with inl s' | inr (s', _) => goaway_ok s' end.
Proof.
  unfold goaway_ok, conn_turn. intros Hs. destruct (t_fired t); cbn [andb].
  - destruct (going_away s) eqn:Eg; cbn [negb andb].
    + destruct (negb (t_busy t)); [by rewrite Eg|].
      destruct (next_request _ _ _ _) as [[r| | |e]|]; cbn; by rewrite ?Eg.
    + rewrite Hs. destruct (announce_goaway _ _); done.
  - destruct (going_away s && negb (t_busy t)); [done|].
    destruct (next_request _ _ _ _) as [[r| | |e]|]; done.
Qed.

Lemma conn_loop_goaway deadline (turns : list (@Turn Resolver Error)) s :
  goaway_ok s → goaway_ok (conn_loop deadline turns s).1.
Proof.
  revert s. induction turns as [|t turns IH]; intros s Hs; cbn [conn_loop]; [done|].
  pose proof (conn_turn_goaway deadline t s Hs) as Ht.
  destruct (conn_turn deadline t s) as [s'|[s' e]]; [by apply IH|done].
Qed.

End LoopFacts.

(** ** The log *)

(** No secret reaches the log. The line of a credential field is the same for
    any two values with the same scheme and secrets of the same length: what is
    logged is a function of the scheme and the lengths alone. *)
Theorem redaction_hides name scheme secret secret' :
  is_credential_field name = true → SPACE ∉ scheme →
  valid_utf8 (scheme ++ SPACE :: secret) = true →
  valid_utf8 (scheme ++ SPACE :: secret') = true →
  blen secret = blen secret' → blen (trim_spaces secret) = blen (trim_spaces secret') →
  log_header (name, scheme ++ SPACE :: secret) = log_header (name, scheme ++ SPACE :: secret').
Proof.
  intros Hn Hs Hv Hv' Hl Ht. unfold log_header. rewrite Hn. do 2 f_equal.
  unfold redact_credentials, to_str, from_utf8. rewrite Hv, Hv'.
  rewrite !split_at_byte_app by done. rewrite Ht, !blen_app.
  replace (blen (SPACE :: secret)) with (blen (SPACE :: secret')); [done|].
  unfold blen in *. cbn [length]. lia.
Qed.

(** ** Witnesses *)

Section Witnesses.
#[local] Existing Instance counting_semaphore.
#[local] Existing Instance flag_notify.
#[local] Existing Instance documented_percent_decode.

#[local] Definition quiet_env : Env unit unit :=
  mkEnv unit unit (λ _, Ok tt) (λ s _, Ok s) (λ s, s) (λ _, Completes 1 (Ok tt)) (λ s, s) (λ _, false)
    24 23 105 12 99 (λ _ _, NeverAnswers) false 0 30.
#[local] Definition one_user : Context :=
  context_new (mkSettings [mkUser (lit "alice") (lit "s3cret")] (mkPolicy false []) 3 100 (Some 10)
    Net.System 64) true.
#[local] Definition bare : Request := request_new Connect.
#[local] Definition room_for_two : Quota Z (bool * bool) := quota_new 2.

Lemma denied_request_inert_witness :
  ∃ ctx' handled, handle_request (QuinnError := unit) quiet_env bare 0 one_user room_for_two Written =
    Some (ctx', room_for_two, handled) ∧ authenticated ctx' = false.
Proof.
  destruct (denied_request_inert (QuinnError := unit) quiet_env quiet_env bare 0 one_user
    room_for_two Written (denials_from Missing)) as (_ & ctx' & handled & H & Ha & _);
    [vm_compute; reflexivity|].
  exists ctx', handled. split; [exact H|exact Ha].
Defined.

Lemma request_answered_witness :
  ∃ ctx' q' h, handle_request (QuinnError := unit) quiet_env bare 0 one_user room_for_two Written =
    Some (ctx', q', h).
Proof.
  destruct (request_answered (QuinnError := unit) quiet_env bare 0 one_user room_for_two Written 10)
    as (ctx' & q' & h & H & _); [cbn; by intros a after r [= <- _]|reflexivity|lia|].
  exists ctx', q', h. exact H.
Defined.


Lemma redaction_hides_witness :
  log_header (lit "authorization", lit "Basic" ++ SPACE :: lit "YTpi") =
  log_header (lit "authorization", lit "Basic" ++ SPACE :: lit "Yjpj").
Proof.
  apply redaction_hides; try (vm_compute; reflexivity).
  apply (bool_decide_unpack _). vm_compute. exact I.
Defined.
End Witnesses.
