(* ===== verification/EndToEnd.v ===== *)
(** * From a client's bytes to a tunnel

    The components put together along the path of one CONNECT request: the frames of the
    request stream ([ExchangeFacts]), the field section and the request it makes
    ([Qpack], [RequestFacts]), the credentials ([Auth]), the quota, the target
    ([Target], [Context]), the connection to it ([TcpTunnel]) and the response a client
    reads. *)

From S2P Require Import Prelude Incremental Utf8 H3Error Datagram Qpack Frame FrameFacts Policy Message.
From S2P Require Import RequestStream RequestFacts Auth Connection Exchange ExchangeFacts Tokio Quota.
From S2P Require Import Status StatusFacts Target Net Context UdpSession UdpFacts TcpTunnel TcpFacts.
From S2P Require Import Conn ConnFacts.

#[local] Open Scope Z_scope.

(** ** The client *)

Definition PROXY_AUTHORIZATION : bytes := lit "proxy-authorization".

(** The field section of RFC 9114's CONNECT with RFC 7617's credentials. *)
Definition connect_section (user pass host : bytes) (port : Z) : list Field :=
  [mkField (lit ":method") (lit "CONNECT");
   mkField (lit ":authority") (authority_of host port);
   mkField PROXY_AUTHORIZATION (basic_header (lit "Basic") user pass)].

(** The request it makes. *)
Definition connect_request (user pass host : bytes) (port : Z) : Request :=
  mkRequest Connect None (Some (authority_of host port)) None None None
    [(PROXY_AUTHORIZATION, basic_header (lit "Basic") user pass)].

(** What the section means to the server. *)
Lemma connect_section_request user pass host port :
  authority_octets (authority_of host port) →
  build_request (connect_section user pass host port) = Ok (connect_request user pass host port).
Proof.
  intros Ha. apply build_request_ok. destruct (basic_header_field user pass) as [Ht Hf]. split.
  exists (take 2 (connect_section user pass host port)), (drop 2 (connect_section user pass host port)).
  cbn [take drop connect_section connect_request fields method protocol]. split_and!.
  - split; [done| | | | |].
    + by repeat constructor; apply (bool_decide_unpack _).
    + by apply (bool_decide_unpack _).
    + by repeat constructor.
    + constructor; [|constructor]. by split.
    + vm_compute. lia.
  - by exists (lit "CONNECT").
  - done.
  - done.
  - rewrite decide_True by done. split; [done|done|]. exists (authority_of host port). done.
Qed.

(** The extended CONNECT of RFC 9298, to the proxy's authority and the default template. *)
Definition udp_section (user pass proxy host : bytes) (port : Z) : list Field :=
  [mkField (lit ":method") (lit "CONNECT");
   mkField (lit ":protocol") CONNECT_UDP;
   mkField (lit ":scheme") (lit "https");
   mkField (lit ":authority") proxy;
   mkField (lit ":path") (template_of host port);
   mkField PROXY_AUTHORIZATION (basic_header (lit "Basic") user pass)].

Definition udp_request (user pass proxy host : bytes) (port : Z) : Request :=
  mkRequest Connect (Some (lit "https")) (Some proxy) (Some (template_of host port)) None
    (Some CONNECT_UDP) [(PROXY_AUTHORIZATION, basic_header (lit "Basic") user pass)].

(** A template path is a path. *)
Lemma template_path host port :
  1 ≤ port < 2 ^ 16 → target_parts (template_of host port) (template_of host port) None.
Proof.
  intros Hp. apply target_path; [done|]. unfold template_of.
  assert (∀ x, forallb (λ x, is_pchar x || bool_decide (x = RequestStream.SLASH)) (escape x) = true) as Hx
    by (intros x; by destruct x).
  rewrite !forallb_app. apply andb_true_iff. split; [done|]. apply andb_true_iff. split.
  - induction host as [|x host IH]; [done|]. cbn [map concat]. rewrite forallb_app, Hx. exact IH.
  - apply andb_true_iff. split; [done|]. apply andb_true_iff. split; [|done].
    apply forallb_forall. intros x Hin%list_elem_of_In.
    destruct (decimal_spells port Hp) as (_ & Hall & _). rewrite Forall_forall in Hall.
    specialize (Hall x Hin). unfold is_pchar, is_ascii_alphanumeric. rewrite Hall. by rewrite orb_true_r.
Qed.

Lemma udp_section_request user pass proxy host port :
  authority_octets proxy → 1 ≤ port < 2 ^ 16 →
  build_request (udp_section user pass proxy host port) = Ok (udp_request user pass proxy host port).
Proof.
  intros Ha Hp. apply build_request_ok. destruct (basic_header_field user pass) as [Ht Hf]. split.
  exists (take 5 (udp_section user pass proxy host port)), (drop 5 (udp_section user pass proxy host port)).
  cbn [take drop udp_section udp_request fields method protocol]. split_and!.
  - split; [done| | | | |].
    + by repeat constructor; apply (bool_decide_unpack _).
    + by apply (bool_decide_unpack _).
    + by repeat constructor.
    + constructor; [|constructor]. by split.
    + vm_compute. lia.
  - by exists (lit "CONNECT").
  - done.
  - by intros t [= <-].
  - rewrite decide_False by naive_solver. split.
    + by exists (lit "https").
    + exists (template_of host port), (template_of host port). split_and!; [done|done|]. right.
      by apply template_path.
    + exists proxy. by split_and!.
Qed.

(** ** The path *)

Section EndToEnd.
Context `{!PercentDecode} {UdpSocket TcpSocket QuinnError M N : Type}.
Context `{!Semaphore M} `{!Notify N}.
Context (peer_error : @quinn_ConnectionError QuinnError → @quinn_ConnectionError QuinnError).
Implicit Types (env : Env UdpSocket TcpSocket) (q : Quota M N).

(** The bytes of a request stream: frames to skip, then the section in a HEADERS frame,
    then whatever the client sends next, in any chunks. *)
Definition sends (section : list Field) (chunks : list bytes) : Prop :=
  ∃ prefix ks n w tail,
    frame_sequence Frame.Request prefix (map SkippedFrame ks) n ∧ n ≤ MAX_SKIPPED_FRAMES ∧
    frame_wire HEADERS (Qpack.encode [] section) w ∧
    blen (Qpack.encode [] section) ≤ MAX_BUFFERED_FRAME ∧
    section_size section ≤ MAX_FIELD_SECTION_SIZE ∧ concat chunks = prefix ++ w ++ tail.

Definition read_from (held : Z) (chunks : list bytes) (ev : list (@ReadEvent QuinnError)) :=
  read_request peer_error (mkReader (map ChunkRead chunks ++ ev) (Frame.new Frame.Request) false, held).

(** The budget of the connection has room for a frame. *)
Definition has_room (held : Z) : Prop := 0 ≤ held ∧ held + MAX_BUFFERED_FRAME ≤ HEADERS_BUFFER_BUDGET.

Lemma section_is_read section req chunks ev held :
  has_room held → sends section chunks → build_request section = Ok req →
  (read_from held chunks ev).2 = Some (Ok req).
Proof.
  intros [Hh Hr] (prefix & ks & n & w & tail & Hp & Hn & Hw & Hb & Hs & Hc) Hreq. unfold read_from.
  destruct (read_request_wire peer_error chunks ev held prefix ks n (Qpack.encode [] section) w tail)
    as [x' ->]; [done..|]. cbn [snd]. unfold meaning.
  rewrite qpack_decode_encode by (unfold u64_max, MAX_FIELD_SECTION_SIZE in *; lia).
  cbn [result_bind]. by rewrite Hreq.
Qed.

(** The first address to accept, behind the ones that refused, each in its time. *)
Definition dials env (budget : option Z) (addrs : list SocketAddr) (tcp : TcpSocket) : Prop :=
  ∃ failed a later after,
    addrs = map fst failed ++ a :: later ∧
    Forall (λ x, 0 ≤ x.2 ∧ ∃ e, connect env x.1 = Completes x.2 (Err e)) failed ∧
    connect env a = Completes after (Ok tcp) ∧ 0 ≤ after ∧
    ∀ b, budget = Some b → foldr (λ x acc, x.2 + acc) after failed ≤ b.

Lemma connect_from_reaches env budget now last addrs failed a later after tcp :
  addrs = map fst failed ++ a :: later →
  Forall (λ x, 0 ≤ x.2 ∧ ∃ e, connect env x.1 = Completes x.2 (Err e)) failed →
  connect env a = Completes after (Ok tcp) → 0 ≤ after →
  (∀ b, budget = Some b → now + foldr (λ x acc, x.2 + acc) after failed ≤ b) →
  ∃ t, connect_from (connect env) budget now last addrs = Some (t, Ok tcp).
Proof.
  intros -> Hf Ha Hafter. revert now last.
  induction Hf as [|[x t] failed [Ht [e Hx]] Hf IH]; intros now last Hb; cbn [map app fst snd foldr connect_from] in *.
  - rewrite Ha. destruct budget as [b|]; [|by eexists].
    rewrite (proj2 (Z.leb_le _ _)) by (apply Hb; done). by eexists.
  - rewrite Hx.
    assert (0 ≤ foldr (λ x acc, x.2 + acc) after failed) as Hsum.
    { clear -Hf Hafter. induction Hf as [|y failed [Hy _] _ IH]; cbn; lia. }
    destruct budget as [b|].
    + specialize (Hb b eq_refl). rewrite (proj2 (Z.leb_le _ _)) by lia. apply IH. intros b' [= <-]. lia.
    + apply IH. by intros b.
Qed.

(** The world's side: the name resolves in time to addresses that may be dialled, and the
    first of them that accepts is connected in time. *)
Definition reachable_target env (ctx : Context) (host : bytes) (port : Z) (tcp : TcpSocket) : Prop :=
  ∃ allowed, resolves (holds_address env) ctx (lookup env host port) allowed ∧
    dials env (connect_timeout ctx) allowed tcp.

Lemma run_tcp_reaches env host port ctx tcp okframe :
  is_host host → (AT ∉ host) → 1 ≤ port < 2 ^ 16 → allows_port (policy ctx) port = true →
  reachable_target env ctx host port tcp → response_frame OK fields_new = Some okframe →
  run_tcp (QuinnError := QuinnError) (connect env) (set_nodelay env) (holds_address env) (EMFILE env)
    (ENFILE env) (ENOBUFS env) (ENOMEM env) (EADDRNOTAVAIL env) (authority_of host port) ctx
    (lookup env) Written =
  Some (ctx, [Write okframe], Established (set_nodelay env tcp)).
Proof.
  intros Hh Hat Hp Hport (allowed & Hres & Hd) Hok. unfold run_tcp.
  rewrite split_authority_of by done. rewrite (admit_target_admits _ _ _ _ _ _ allowed) by eauto.
  cbn [mbind option_bind]. destruct Hd as (failed & a & later & t & Haddrs & Hf & Ha & Ht & Hbud).
  unfold connect_any_with.
  destruct (connect_from_reaches env (connect_timeout ctx) 0 None _ failed a later t tcp Haddrs) as [t' ->];
    [done..|]. cbn [mbind option_bind]. unfold respond, respond_within. rewrite Hok. done.
Qed.

(** C2: from a client's bytes to its tunnel. A client that opens a request stream, perhaps with
    frames to be skipped, and sends the CONNECT for a host and a port with a configured user's
    Basic credentials, in whatever chunks they arrive, is given a tunnel: where the quota
    has a slot, the policy allows the port, the name resolves in time and one of its
    addresses that may be dialled accepts in time, the connection to the first of these is
    the tunnel's, one response is written, and a client reads it, however it is cut, as
    the status 200. *)
Theorem connect_end_to_end env ctx q q' u host port chunks ev held stream_id tcp :
  has_room held → sends (connect_section (username u) (password u) host port) chunks →
  u ∈ auth ctx → (Auth.COLON ∉ username u) →
  is_host host → (AT ∉ host) → authority_octets (authority_of host port) → 1 ≤ port < 2 ^ 16 →
  acquire q = Some q' → allows_port (policy ctx) port = true → reachable_target env ctx host port tcp →
  ∃ req ctx' frame,
    (read_from held chunks ev).2 = Some (Ok req) ∧
    handle_request (QuinnError := QuinnError) env req stream_id ctx q Written =
      Some (ctx', q', TcpAttempt [Write frame] (Established (set_nodelay env tcp))) ∧
    is_authenticated ctx' = true ∧
    ∀ pieces, concat pieces = frame →
      ∃ d block, feed (Frame.new Frame.Request, 0) pieces = ([FrameItem (Headers block)], Ok (d, 0)) ∧
        Qpack.decode block MAX_FIELD_SECTION_SIZE = Ok [mkField (lit ":status") (lit "200")].
Proof.
  intros Hroom Hsends Hu Hcolon Hh Hat Ha Hp Hq Hport Hreach.
  assert (∃ okframe, response_frame OK fields_new = Some okframe ∧ blen okframe ≤ MAX_BUFFERED_FRAME)
    as (okframe & Hok & Hlen) by (eexists; split; [vm_compute; reflexivity|by vm_compute]).
  destruct (basic_header_accepted (auth ctx) (fields (connect_request (username u) (password u) host port))
    (lit "Basic") u) as [name Hauth]; [done|done|done|vm_compute; left|].
  exists (connect_request (username u) (password u) host port).
  exists (count_tunnel (set_door (forgive (Some name) (auth_failures ctx)) true ctx)), okframe.
  split_and!; [by eapply section_is_read, connect_section_request| |done|].
  - unfold handle_request.
    change (connection_specific_field _) with (@None bytes). cbv iota.
    change (MAX_CREDENTIAL_VALUES <? _)%nat with false. cbv iota. rewrite Hauth.
    cbn [mark_authenticated gate_mark]. rewrite Hq. unfold dispatch.
    change (route _) with RouteTcp. cbn [authority connect_request].
    rewrite (run_tcp_reaches env host port _ tcp okframe); done.
  - intros pieces Hc. destruct (response_roundtrip OK fields_new pieces okframe 0) as (items & d & block & Hf & -> & _ & Hd);
      [done|by vm_compute|by vm_compute|done|done|done|]. by exists d, block.
Qed.

(** ** A session for datagrams *)

#[local] Abbreviation connected env :=
  (connected_udp_socket (udp_bind env) (udp_connect env) (set_dont_fragment env)).

(** The first address a socket opens for. *)
Definition opens env (addrs : list SocketAddr) (socket : UdpSocket) : Prop :=
  ∃ failed a later, addrs = failed ++ a :: later ∧ connected env a = Ok socket ∧
    Forall (λ b, ∃ e, connected env b = Err e) failed.

Lemma bind_any_opens env addrs socket :
  opens env addrs socket →
  bind_any (udp_bind env) (udp_connect env) (set_dont_fragment env) addrs = Ok socket.
Proof.
  intros (failed & a & later & -> & Ha & Hf). unfold bind_any. generalize (@None Unreachable) as last.
  induction Hf as [|b failed [e Hb] _ IH]; intros last; cbn [app bind_from]; [by rewrite Ha|].
  rewrite Hb. apply IH.
Qed.

Definition capsule_response_fields : Fields := [(lit "capsule-protocol", lit "?1")].

Lemma capsule_frame : ∃ frame, capsule_fields = Some capsule_response_fields ∧
  response_frame OK capsule_response_fields = Some frame ∧ blen frame ≤ MAX_BUFFERED_FRAME.
Proof.
  eexists. split; [vm_compute; reflexivity|]. split; [vm_compute; reflexivity|]. by vm_compute.
Qed.

(** C4: from a client's bytes to its session. The extended CONNECT for a host and a port, with a
    configured user's credentials and every byte of the host escaped in the template path,
    opens a session under the same conditions: a slot, an allowed port, a name that resolves
    in time, and an address that may be dialled and a socket opens for. The session is the
    stream's own, on the first such socket, and the client reads the status 200 and that
    the capsule protocol is spoken. *)
Theorem connect_udp_end_to_end env ctx q q' u proxy host port chunks ev held stream_id allowed socket :
  has_room held → sends (udp_section (username u) (password u) proxy host port) chunks →
  u ∈ auth ctx → (Auth.COLON ∉ username u) → authority_octets proxy →
  is_host host → valid_utf8 host = true → (AT ∉ host) → 1 ≤ port < 2 ^ 16 →
  acquire q = Some q' → claimed env = false → allows_port (policy ctx) port = true →
  resolves (holds_address env) ctx (lookup env host port) allowed → opens env allowed socket →
  ∃ req ctx' frame,
    (read_from held chunks ev).2 = Some (Ok req) ∧
    handle_request (QuinnError := QuinnError) env req stream_id ctx q Written =
      Some (ctx', q', UdpAttempt [Write frame]
        (Some (session_new (quarter_stream_id stream_id) ctx' (now env) (stall_budget env), socket))) ∧
    is_authenticated ctx' = true ∧
    ∀ pieces, concat pieces = frame →
      ∃ d block, feed (Frame.new Frame.Request, 0) pieces = ([FrameItem (Headers block)], Ok (d, 0)) ∧
        Qpack.decode block MAX_FIELD_SECTION_SIZE =
          Ok [mkField (lit ":status") (lit "200"); mkField (lit "capsule-protocol") (lit "?1")].
Proof.
  intros Hroom Hsends Hu Hcolon Hproxy Hh Hv Hat Hp Hq Hcl Hport Hres Hopen.
  destruct capsule_frame as (okframe & Hcf & Hok & Hlen).
  destruct (basic_header_accepted (auth ctx) (fields (udp_request (username u) (password u) proxy host port))
    (lit "Basic") u) as [name Hauth]; [done|done|done|vm_compute; left|].
  exists (udp_request (username u) (password u) proxy host port).
  exists (count_tunnel (set_door (forgive (Some name) (auth_failures ctx)) true ctx)), okframe.
  split_and!; [by eapply section_is_read, udp_section_request| |done|].
  - unfold handle_request.
    change (connection_specific_field _) with (@None bytes). cbv iota.
    change (MAX_CREDENTIAL_VALUES <? _)%nat with false. cbv iota. rewrite Hauth.
    cbn [mark_authenticated gate_mark]. rewrite Hq. unfold dispatch.
    change (route _) with RouteConnectUdp. cbv iota. unfold establish.
    change (Target.validate _) with (@Ok unit string tt). cbv iota.
    change (parse_target _ _) with (parse_target (template_of host port) None). rewrite parse_target_of by done. rewrite Hcl, Hcf.
    rewrite (admit_target_admits _ _ _ _ _ _ allowed) by eauto. cbn [mbind option_bind].
    rewrite (bind_any_opens env allowed socket Hopen). unfold respond, respond_within. rewrite Hok. done.
  - intros pieces Hc.
    destruct (response_roundtrip OK capsule_response_fields pieces okframe 0) as (items & d & block & Hf & -> & _ & Hd);
      [done|by vm_compute|by vm_compute|done|done|done|]. by exists d, block.
Qed.

(** ** Refusals *)

(** A value presents one pair. *)
Lemma presents_unique v n p n' p' : presents v n p → presents v n' p' → n = n' ∧ p = p'.
Proof.
  intros (t & _ & Ht & Hd & Hn) (t' & _ & Ht' & Hd' & Hn'). assert (t' = t) as -> by congruence.
  assert (n ++ Auth.COLON :: p = n' ++ Auth.COLON :: p') as E by congruence.
  assert (split_at_byte Auth.COLON (n ++ Auth.COLON :: p) = split_at_byte Auth.COLON (n' ++ Auth.COLON :: p'))
    as E' by by rewrite E.
  rewrite !split_at_byte_app in E' by done. by injection E' as -> ->.
Qed.

Lemma connect_denied user pass host port (a : list User) :
  a ≠ [] → (Auth.COLON ∉ user) → (mkUser user pass ∉ a) →
  ∃ denials, authenticate a (fields (connect_request user pass host port)) = Err denials.
Proof.
  intros Ha Hc Hn. unfold authenticate, is_disabled. rewrite bool_decide_eq_false_2 by done.
  change (credentials _) with [basic_header (lit "Basic") user pass].
  pose proof (try_values_spec a [basic_header (lit "Basic") user pass] None) as Hv.
  destruct (try_values a _ None) as [[n|]|d]; [|done|by exists d].
  destruct Hv as (pre & v & post & Hpre & Hok & _).
  assert (v = basic_header (lit "Basic") user pass) as ->.
  { destruct pre as [|y pre]; [by injection Hpre as ->|]. by destruct pre. }
  apply check_spec in Hok as (p' & Hp & Hin).
  destruct (presents_unique _ _ _ _ _ Hp (basic_header_presents (lit "Basic") user pass eq_refl Hc)) as [-> ->].
  done.
Qed.

Definition challenge : Fields := [(PROXY_AUTHENTICATE, CHALLENGE)].

Lemma challenge_frame : ∃ frame, challenge_fields = Some challenge ∧
  response_frame PROXY_AUTHENTICATION_REQUIRED challenge = Some frame ∧ blen frame ≤ MAX_BUFFERED_FRAME.
Proof.
  eexists. split; [vm_compute; reflexivity|]. split; [vm_compute; reflexivity|]. by vm_compute.
Qed.

(** From a client's bytes to its refusal. The same bytes with a pair that is not configured
    reach nothing: what is done is the same whatever the resolver, the sockets and the clock
    would do, no slot is taken, and the client reads the status 407 with the challenge
    for Basic credentials, or finds the connection closed where guesses are limited. *)
Theorem refused_end_to_end env env' ctx q user pass host port chunks ev held stream_id w :
  has_room held → sends (connect_section user pass host port) chunks →
  auth ctx ≠ [] → (Auth.COLON ∉ user) → (mkUser user pass ∉ auth ctx) →
  authority_octets (authority_of host port) →
  ∃ req ctx' handled,
    (read_from held chunks ev).2 = Some (Ok req) ∧
    handle_request (QuinnError := QuinnError) env req stream_id ctx q w = Some (ctx', q, handled) ∧
    handle_request (QuinnError := QuinnError) env' req stream_id ctx q w = Some (ctx', q, handled) ∧
    is_authenticated ctx' = is_authenticated ctx ∧
    ((∃ reason, handled = ClosedConnection 0x10b reason ∧ 0 < max_auth_failures ctx) ∨
     ∃ frame, handled = AnsweredOnly (Stop H3_NO_ERROR :: Write frame :: ending w) ∧
       ∀ pieces, concat pieces = frame →
         ∃ d block, feed (Frame.new Frame.Request, 0) pieces = ([FrameItem (Headers block)], Ok (d, 0)) ∧
           Qpack.decode block MAX_FIELD_SECTION_SIZE =
             Ok [mkField (lit ":status") (lit "407"); mkField PROXY_AUTHENTICATE CHALLENGE]).
Proof.
  intros Hroom Hsends Hne Hc Hn Ha.
  destruct challenge_frame as (frame & Hcf & Hframe & Hlen).
  destruct (connect_denied user pass host port (auth ctx) Hne Hc Hn) as [denials Hauth].
  pose proof (record_failures_keeps (claims denials) ctx) as Hk.
  exists (connect_request user pass host port).
  destruct (record_failures (claims denials) ctx) as [ctx' spent] eqn:Er. destruct Hk as (Hd & _ & _ & Hs).
  assert (∀ env : Env UdpSocket TcpSocket,
    handle_request (QuinnError := QuinnError) env (connect_request user pass host port) stream_id ctx q w =
    Some (ctx', q, if spent then ClosedConnection AUTH_FAILURE_LIMIT_CODE "too many authentication failures"
                   else AnsweredOnly (Stop H3_NO_ERROR :: Write frame :: ending w))) as Hhandle.
  { intros env0. unfold handle_request. change (connection_specific_field _) with (@None bytes). cbv iota.
    change (MAX_CREDENTIAL_VALUES <? _)%nat with false. cbv iota. rewrite Hauth, Er.
    destruct spent; [done|]. rewrite Hcf. cbn [mbind option_bind].
    by rewrite (refuse_with_eq _ _ _ w Hframe). }
  do 2 eexists. split_and!; [by eapply section_is_read, connect_section_request|apply Hhandle..|by unfold is_authenticated; rewrite Hd|].
  destruct spent; [left; eexists; split; [reflexivity|by apply Hs]|right]. exists frame. split; [done|].
  intros pieces Hp.
  destruct (response_roundtrip PROXY_AUTHENTICATION_REQUIRED challenge pieces frame 0) as (items & d & block & Hf & -> & _ & Hdec);
    [done|by vm_compute|by vm_compute|done|done|done|].
  exists d, block. split; [done|]. exact Hdec.
Qed.
End EndToEnd.

(** ** Witnesses *)

Section Witnesses.
#[local] Existing Instance counting_semaphore.
#[local] Existing Instance flag_notify.
#[local] Existing Instance documented_percent_decode.

(** A resolver that knows one address and a network that connects to it. *)
#[local] Definition address : SocketAddr := mkSocketAddr (V4 (mk4 (as_u8 8) (as_u8 8) (as_u8 8) (as_u8 8))) 443.

#[local] Definition open_env : Env unit unit :=
  mkEnv unit unit (λ _, Ok tt) (λ s _, Ok s) (λ s, s) (λ _, Completes 1 (Ok tt)) (λ s, s) (λ _, false)
    24 23 105 12 99 (λ _ _, Answers 1 (Ok [address])) true 0 10.

(** The same, with the stream's datagrams not yet claimed. *)
#[local] Definition udp_env : Env unit unit :=
  mkEnv unit unit (λ _, Ok tt) (λ s _, Ok s) (λ s, s) (λ _, Hangs) (λ s, s) (λ _, false)
    24 23 105 12 99 (λ _ _, Answers 1 (Ok [address])) false 0 10.

#[local] Definition someone : User := mkUser (lit "user1") (lit "secret").
#[local] Definition room : Quota Z (bool * bool) := quota_new 2.
#[local] Definition their_context : Context :=
  context_new (mkSettings [someone] (mkPolicy false [25]) 3 100 (Some 10) Net.Ipv4 64) true.

#[local] Definition wire (user pass : bytes) : bytes :=
  let block := Qpack.encode [] (connect_section user pass (lit "example.com") 443) in
  varint_bytes HEADERS ++ varint_bytes (blen block) ++ block.

#[local] Lemma sends_wire pass :
  pass = lit "secret" ∨ pass = lit "guess!" →
  sends (connect_section (lit "user1") pass (lit "example.com") 443)
    [take 5 (wire (lit "user1") pass); drop 5 (wire (lit "user1") pass)].
Proof.
  intros Hp. exists [], [], 0, (wire (lit "user1") pass), [].
  split_and!; [constructor|done| | |destruct Hp as [->| ->]; by vm_compute|].
  - apply frame_wire_intro; apply is_varint_bytes; destruct Hp as [->| ->]; by vm_compute.
  - destruct Hp as [->| ->]; by vm_compute.
  - cbn [concat app]. by rewrite !app_nil_r, take_drop.
Qed.

#[local] Ltac decided := apply (bool_decide_unpack _); vm_compute; exact I.

#[local] Lemma example_name_ok : is_host (lit "example.com").
Proof. split; [done|]. split; decided. Qed.

#[local] Lemma example_authority : authority_octets (authority_of (lit "example.com") 443).
Proof. split; vm_compute; done. Qed.

Lemma connect_end_to_end_witness :
  ∃ req ctx' frame,
    (read_from (QuinnError := unit) (λ e, e) 0
       [take 5 (wire (lit "user1") (lit "secret")); drop 5 (wire (lit "user1") (lit "secret"))] []).2 =
      Some (Ok req) ∧
    handle_request (QuinnError := unit) open_env req 0 their_context room Written =
      Some (ctx', default room (acquire room), TcpAttempt [Write frame] (Established tt)).
Proof.
  destruct (connect_end_to_end (QuinnError := unit) (λ e, e) open_env their_context room
    (default room (acquire room)) someone (lit "example.com") 443
    [take 5 (wire (lit "user1") (lit "secret")); drop 5 (wire (lit "user1") (lit "secret"))] [] 0 0 tt)
    as (req & ctx' & frame & Hr & Hh & _).
  - split; by vm_compute.
  - apply sends_wire. by left.
  - by left.
  - decided.
  - apply example_name_ok.
  - decided.
  - apply example_authority.
  - lia.
  - reflexivity.
  - reflexivity.
  - exists [address]. split.
    { split; [done|]. exists 1, [address]. split; [reflexivity|]. split; [intros b [= <-]; lia|].
      vm_compute. reflexivity. }
    exists [], address, [], 1. split; [vm_compute; reflexivity|]. split; [constructor|].
    split; [reflexivity|]. split; [lia|]. intros b [= <-]. cbn. lia.
  - exists req, ctx', frame. by split.
Defined.

Lemma refused_end_to_end_witness :
  ∃ req ctx' handled,
    (read_from (QuinnError := unit) (λ e, e) 0
       [take 5 (wire (lit "user1") (lit "guess!")); drop 5 (wire (lit "user1") (lit "guess!"))] []).2 =
      Some (Ok req) ∧
    handle_request (QuinnError := unit) open_env req 0 their_context room Written =
      Some (ctx', room, handled) ∧ is_authenticated ctx' = false.
Proof.
  destruct (refused_end_to_end (QuinnError := unit) (λ e, e) open_env open_env their_context room
    (lit "user1") (lit "guess!") (lit "example.com") 443
    [take 5 (wire (lit "user1") (lit "guess!")); drop 5 (wire (lit "user1") (lit "guess!"))] [] 0 0 Written)
    as (req & ctx' & handled & Hr & Hh & _ & Ha & _).
  - split; by vm_compute.
  - apply sends_wire. by right.
  - done.
  - decided.
  - decided.
  - apply example_authority.
  - exists req, ctx', handled. by split.
Defined.

#[local] Definition udp_wire : bytes :=
  let block := Qpack.encode [] (udp_section (lit "user1") (lit "secret") (lit "proxy") (lit "example.com") 443) in
  varint_bytes HEADERS ++ varint_bytes (blen block) ++ block.

Lemma connect_udp_end_to_end_witness :
  ∃ req ctx' frame session,
    (read_from (QuinnError := unit) (λ e, e) 0 [udp_wire] []).2 = Some (Ok req) ∧
    handle_request (QuinnError := unit) udp_env req 4 their_context room Written =
      Some (ctx', default room (acquire room), UdpAttempt [Write frame] (Some (session, tt))).
Proof.
  destruct (connect_udp_end_to_end (QuinnError := unit) (λ e, e) udp_env their_context room
    (default room (acquire room)) someone (lit "proxy") (lit "example.com") 443 [udp_wire] [] 0 4 [address] tt)
    as (req & ctx' & frame & Hr & Hh & _).
  - split; by vm_compute.
  - exists [], [], 0, udp_wire, []. split_and!; [constructor|done| |by vm_compute..|].
    + apply frame_wire_intro; apply is_varint_bytes; by vm_compute.
    + by rewrite app_nil_r.
  - by left.
  - decided.
  - split; vm_compute; done.
  - apply example_name_ok.
  - by vm_compute.
  - decided.
  - lia.
  - reflexivity.
  - reflexivity.
  - reflexivity.
  - split; [done|]. exists 1, [address]. split; [reflexivity|]. split; [intros b [= <-]; lia|].
    vm_compute. reflexivity.
  - exists [], address, []. split; [reflexivity|]. split; [reflexivity|constructor].
  - exists req, ctx', frame. eexists. split; [exact Hr|exact Hh].
Defined.
End Witnesses.
