(* ===== verification/Server.v ===== *)
(** * The accept loop and a connection's task (src/src/quic/mod.rs)

    [Server::run]: one turn per [select!], with what happened to the other tasks since the
    turn before and which branches are ready; the branches are biased, the shutdown first.
    [Server::serve]: the life of one connection from its registration to the line it ends
    on.  What quinn and the clock deliver is the input. *)

From S2P Require Import Prelude H3Error Policy Roster Conn.

#[local] Open Scope Z_scope.

(** ** The accept loop *)

(** What a turn finds: requests that authenticated and tasks that ended meanwhile, the
    latch, and what [endpoint.accept()] yields: nothing yet, the end, or a connection
    to admit under the cap in force. *)
Record AcceptTurn := mkAcceptTurn {
  meanwhile : list Happening;
  latch_fired : bool;
  accepted : option (option (Z * Incoming));
}.

Inductive RunEnd := RunShutdown | RunEndpointClosed.

Definition accept_turn (t : AcceptTurn) (x : Shared * Roster)
    : (Shared * Roster) + ((Shared * Roster) * RunEnd) :=
  let x := foldl (λ x e, server_step e x) x (meanwhile t) in
  if latch_fired t then inr (x, RunShutdown)
  else match accepted t with
       | None => inl x
       | Some None => inr (x, RunEndpointClosed)
       | Some (Some (max_connections, incoming)) => inl (server_step (Arrives max_connections incoming) x)
       end.

Fixpoint server_run (turns : list AcceptTurn) (x : Shared * Roster)
    : (Shared * Roster) * option RunEnd :=
  match turns with
  | [] => (x, None)
  | t :: turns =>
      match accept_turn t x with
      | inl x => server_run turns x
      | inr (x, e) => (x, Some e)
      end
  end.

(** Whether [drain] runs once the loop is over. *)
Definition run_drains (e : RunEnd) (is_fired : bool) : bool :=
  match e with RunShutdown => true | RunEndpointClosed => is_fired end.

(** ** A connection's task *)

Section Serve.
Context {Connection_ QuinnError : Type}.
#[local] Abbreviation ConnErr := (@ConnectionError QuinnError).

(** What comes first while the handshake runs. *)
Inductive HandshakeRace :=
  | EvictedFirst
  | HandshakeDone (quic : Connection_)
  | HandshakeFailed
  | HandshakeElapsed.

(** What comes first while the connection is served. *)
Inductive ServiceRace := EvictedInService | Handled_ (r : result unit ConnErr).

(** [closed]: the reason of an ending nobody is to blame for, or the error. *)
Definition grade_ending (race : ServiceRace) : result string ConnErr :=
  match race with
  | EvictedInService => Ok "evicted"%string
  | Handled_ (Ok _) => Ok "drained"%string
  | Handled_ (Err error) =>
      match benign_close error with
      | Some BenignIdle => Ok "idle"%string
      | Some BenignPeerClosed => Ok "peer_close"%string
      | None => Err error
      end
  end.

(** The task: the line it ends on, if there was a connection to speak of. *)
Definition serve_task (handshake : HandshakeRace) (service : Connection_ → ServiceRace)
    : option (result string ConnErr) :=
  match handshake with
  | HandshakeDone quic => Some (grade_ending (service quic))
  | EvictedFirst | HandshakeFailed | HandshakeElapsed => None
  end.

(** A connection ends on an error exactly when its error is none of the routine ones: the
    idle timeout, a peer that closed without one or for no error, and a close of this
    server's own with no error to signal. *)
Theorem ending_is_error race e :
  grade_ending race = Err e ↔
  race = Handled_ (Err e) ∧
  match e with
  | Timeout => False
  | ApplicationClose code => value code ≠ 0 ∧ code ≠ H3_NO_ERROR
  | ConnLocal v => H3Error.code v ≠ H3_NO_ERROR
  | Transport _ => True
  end.
Proof.
  destruct race as [|[u|error]]; cbn [grade_ending]; [naive_solver|naive_solver|].
  destruct error as [code| |v|t]; cbn [benign_close].
  - destruct (Z.eqb_spec (value code) 0); cbn [orb]; [naive_solver|].
    case_bool_decide; naive_solver.
  - naive_solver.
  - case_bool_decide; naive_solver.
  - naive_solver.
Qed.
End Serve.

(** ** The loop and the roster *)

(** What the turns before the end did, as happenings in order. *)
Definition happenings (t : AcceptTurn) : list Happening :=
  meanwhile t ++ match accepted t with Some (Some (c, i)) => [Arrives c i] | _ => [] end.

Definition goes_on (t : AcceptTurn) : bool :=
  negb (latch_fired t) && match accepted t with Some None => false | _ => true end.

Lemma accept_turn_goes t x :
  accept_turn t x =
  if goes_on t then inl (foldl (λ x e, server_step e x) x (happenings t))
  else inr (foldl (λ x e, server_step e x) x (meanwhile t),
            if latch_fired t then RunShutdown else RunEndpointClosed).
Proof.
  unfold accept_turn, goes_on, happenings. destruct (latch_fired t); [done|].
  destruct (accepted t) as [[[c i]|]|]; cbn [negb andb]; by rewrite ?app_nil_r, ?foldl_app.
Qed.

Lemma server_run_app before t after x :
  Forall (λ t, goes_on t = true) before → goes_on t = false →
  server_run (before ++ t :: after) x =
    (foldl (λ x e, server_step e x) x (concat (map happenings before) ++ meanwhile t),
     Some (if latch_fired t then RunShutdown else RunEndpointClosed)).
Proof.
  intros Hb Ht. revert x. induction Hb as [|t' before Ht' _ IH]; intros x; cbn [app server_run map concat].
  - by rewrite accept_turn_goes, Ht.
  - rewrite accept_turn_goes, Ht', IH. by rewrite <- app_assoc, (foldl_app _ (happenings t')).
Qed.

Lemma server_run_goes turns x :
  Forall (λ t, goes_on t = true) turns →
  server_run turns x = (foldl (λ x e, server_step e x) x (concat (map happenings turns)), None).
Proof.
  intros Hb. revert x. induction Hb as [|t turns Ht _ IH]; intros x; cbn [server_run map concat]; [done|].
  by rewrite accept_turn_goes, Ht, IH, foldl_app.
Qed.

Lemma first_stop turns :
  Forall (λ t, goes_on t = true) turns ∨
  ∃ before t after, turns = before ++ t :: after ∧ Forall (λ t, goes_on t = true) before ∧
    goes_on t = false.
Proof.
  induction turns as [|t turns IH]; [by left|]. destruct (goes_on t) eqn:E.
  - destruct IH as [IH|(before & t' & after & -> & Hb & Ht)]; [left; by constructor|].
    right. exists (t :: before), t', after. split_and!; [done|by constructor|done].
  - right. exists [], t, turns. split_and!; [done|constructor|done].
Qed.

(** The accept loop. Whatever arrives, authenticates and ends, under caps that never
    exceed [m], at most [m] connections hold a slot at the end of the loop; and the turn
    that finds the shutdown asked for is the last, admits nothing however many
    connections are waiting, and leads to the drain. *)
Theorem accept_loop m turns t more :
  let all := concat (map happenings turns) ++ meanwhile t in
  0 < m → Forall (caps_within m) all → blen all < 2 ^ 64 - 2 → latch_fired t = true →
  let '(x, e) := server_run (turns ++ t :: more) (mkShared ∅ ∅, roster_new) in
  len x.2 ≤ m ∧ is_Some e ∧
  (Forall (λ t, goes_on t = true) turns →
     e = Some RunShutdown ∧
     x = foldl (λ x e, server_step e x) (server_run turns (mkShared ∅ ∅, roster_new)).1 (meanwhile t)).
Proof.
  cbv zeta. intros Hm Hcaps Hlen Hf.
  assert (goes_on t = false) as Ht by (unfold goes_on; by rewrite Hf).
  assert (∀ events, Forall (caps_within m) events → blen events < 2 ^ 64 - 2 →
    len (foldl (λ x e, server_step e x) (mkShared ∅ ∅, roster_new) events).2 ≤ m) as Hcap.
  { intros events Hc Hl. apply (server_run_ok m events (mkShared ∅ ∅, roster_new) Hc);
      [repeat constructor|cbn; lia|cbn [snd roster_new next]; lia|unfold len, blen; cbn; lia]. }
  destruct (first_stop turns) as [Hall|(before & t' & after & -> & Hb & Ht')].
  - rewrite server_run_app, Hf by done. split_and!; [by apply Hcap|done|].
    intros _. split; [done|]. rewrite server_run_goes by done. cbn [fst]. by rewrite foldl_app.
  - rewrite <- app_assoc. cbn [app]. rewrite server_run_app by done. split_and!; [|done|].
    + assert (∃ tail, concat (map happenings (before ++ t' :: after)) ++ meanwhile t =
        (concat (map happenings before) ++ meanwhile t') ++ tail) as [tail Heq].
      { rewrite map_app, concat_app. cbn [map concat]. unfold happenings at 2.
        eexists. rewrite <- !app_assoc. reflexivity. }
      rewrite Heq in Hcaps, Hlen. apply Forall_app in Hcaps as [Hcaps _]. rewrite blen_app in Hlen.
      apply Hcap; [done|]. pose proof (blen_nonneg tail). lia.
    + intros Hall. rewrite Forall_app, Forall_cons in Hall. destruct Hall as (_ & Habs & _). congruence.
Qed.

Lemma accept_loop_witness :
  let i := mkIncoming (mkSocketAddr (V4 (mk4 (as_u8 10) (as_u8 0) (as_u8 0) (as_u8 1))) 443) true true true in
  let turns := [mkAcceptTurn [] false (Some (Some (1, i))); mkAcceptTurn [] false (Some (Some (1, i)))] in
  len (server_run (turns ++ [mkAcceptTurn [] true (Some (Some (1, i)))]) (mkShared ∅ ∅, roster_new)).1.2 ≤ 1.
Proof.
  intros i turns.
  pose proof (accept_loop 1 turns (mkAcceptTurn [] true (Some (Some (1, i)))) []) as H.
  destruct (server_run _ _) as [x e]. apply H.
  - lia.
  - repeat constructor; cbn; lia.
  - vm_compute. reflexivity.
  - reflexivity.
Defined.
