(* ===== verification/Config.v ===== *)
(** * The configuration (src/src/config.rs)

    The settings as deserialization leaves them, their defaults and accessors, the
    checks of [Config::validate], the advice of [Config::warnings], and what a parse
    failure is allowed to say.  Strings are their UTF-8 bytes, paths too; durations
    are nanoseconds.  An error or a warning is a constructor carrying the indices and
    numbers its message prints; the prose around them is left out.  The filter syntax
    of tracing-subscriber, the file system and the certificate check are parameters. *)

From S2P Require Import Prelude Message Logfmt Policy Auth Gate Target Net Context.

#[local] Open Scope Z_scope.

(** ** Constants *)

Definition DEFAULT_ALPN : list bytes := [lit "h3"].
Definition DEFAULT_LOG_LEVEL : bytes := lit "info".
Definition DEFAULT_SHUTDOWN_GRACE : Z := 5.
Definition DEFAULT_UDP_SESSION_TIMEOUT : Z := 180.
Definition DEFAULT_MAX_CONNECTIONS : Z := 256.
Definition DEFAULT_CONNECT_TIMEOUT : Z := 10.
Definition DEFAULT_MAX_AUTH_FAILURES : Z := 5.
Definition DEFAULT_MAX_STREAMS_BIDI : Z := 1024.
Definition DEFAULT_MAX_IDLE_TIMEOUT : Z := 60.
Definition DEFAULT_KEEP_ALIVE_INTERVAL : Z := 20.
Definition DEFAULT_INITIAL_MTU : Z := 1200.
Definition MIN_INITIAL_MTU : Z := 1200.
Definition MAX_INITIAL_MTU : Z := 1452.
Definition DEFAULT_MTU_UPPER_BOUND : Z := 1436.
Definition MAX_MTU_UPPER_BOUND : Z := 1472.
Definition DEFAULT_INITIAL_RTT_MS : Z := 333.
Definition INITIAL_RTT_RANGE_MS : Z * Z := (10, 10000).
Definition MAX_IDLE_TIMEOUT_CEILING : Z := 3600.
Definition MAX_SHUTDOWN_GRACE : Z := MAX_IDLE_TIMEOUT_CEILING.
Definition DEFAULT_SOCKET_RECV_BUFFER : Z := 2 * 1024 * 1024.
Definition DEFAULT_SOCKET_SEND_BUFFER : Z := 2 * 1024 * 1024.
Definition DEFAULT_MAX_TARGETS_PER_CONN : Z := 256.
Definition DEFAULT_DENIED_PORTS : list Z := [25].
Definition DEFAULT_UNANSWERED_PACKET_BUDGET : Z := 64.
Definition EXAMPLE_PLACEHOLDER_PASSWORD : bytes := lit "replace-me-with-something-long".
Definition MAX_TARGETS_PER_CONN_CEILING : Z := 65536.
Definition MAX_STREAMS_BIDI_CEILING : Z := MAX_TARGETS_PER_CONN_CEILING.
Definition MAX_EXPECTED_SNI : Z := 253.
Definition LOG_LEVELS : list bytes := map lit ["trace"; "debug"; "info"; "warn"; "error"].

(** ** The sections of the file *)

Inductive CongestionControl := Bbr | BbrUncapped | Cubic | NewReno.

Record Limits := mkLimits {
  udp_session_timeout : Z;
  max_targets_per_conn : Z;
  max_connections : Z;
  connect_timeout : Z;
  ip_family_preference : IpFamilyPreference;
  max_streams_bidi : Z;
  max_idle_timeout : Z;
  keep_alive_interval : Z;
  initial_mtu : Z;
  mtu_discovery : bool;
  mtu_upper_bound : option Z;
  congestion_control : CongestionControl;
  initial_rtt_ms : Z;
  socket_recv_buffer : Z;
  socket_send_buffer : Z;
}.

Record Security := mkSecurity {
  allow_private_networks : bool;
  denied_ports : list Z;
  unanswered_packet_budget : Z;
  max_auth_failures : Z;
  expected_sni : list bytes;
}.

Record Server := mkServer {
  listen : SocketAddr;
  cert : bytes;
  key : bytes;
  alpn : list bytes;
  shutdown_grace : Z;
}.

Record Log := mkLog { level : bytes; keylog : bool }.

(** [users] is the one field of the [Auth] table; [User] is [Auth.User]. *)
Record Config := mkConfig {
  server : Server;
  users : list User;
  limits : Limits;
  security : Security;
  log : Log;
}.

Definition default_alpn : list bytes := DEFAULT_ALPN.
Definition default_shutdown_grace : Z := DEFAULT_SHUTDOWN_GRACE.

Definition limits_default : Limits :=
  {| udp_session_timeout := DEFAULT_UDP_SESSION_TIMEOUT;
     max_targets_per_conn := DEFAULT_MAX_TARGETS_PER_CONN;
     max_connections := DEFAULT_MAX_CONNECTIONS;
     connect_timeout := DEFAULT_CONNECT_TIMEOUT;
     ip_family_preference := Ipv4;
     max_streams_bidi := DEFAULT_MAX_STREAMS_BIDI;
     max_idle_timeout := DEFAULT_MAX_IDLE_TIMEOUT;
     keep_alive_interval := DEFAULT_KEEP_ALIVE_INTERVAL;
     initial_mtu := DEFAULT_INITIAL_MTU;
     mtu_discovery := true;
     mtu_upper_bound := None;
     congestion_control := Bbr;
     initial_rtt_ms := DEFAULT_INITIAL_RTT_MS;
     socket_recv_buffer := DEFAULT_SOCKET_RECV_BUFFER;
     socket_send_buffer := DEFAULT_SOCKET_SEND_BUFFER |}.

Definition security_default : Security :=
  {| allow_private_networks := false;
     denied_ports := DEFAULT_DENIED_PORTS;
     unanswered_packet_budget := DEFAULT_UNANSWERED_PACKET_BUDGET;
     max_auth_failures := DEFAULT_MAX_AUTH_FAILURES;
     expected_sni := [] |}.

Definition log_default : Log := mkLog DEFAULT_LOG_LEVEL false.

(** ** Accessors *)

(** [Duration::from_secs] and [from_millis]. *)
Definition from_secs (s : Z) : Z := s * 10 ^ 9.
Definition from_millis (ms : Z) : Z := ms * 10 ^ 6.

Definition udp_session_timeout_duration (l : Limits) : Z := from_secs (udp_session_timeout l).
Definition max_idle_timeout_duration (l : Limits) : Z := from_secs (max_idle_timeout l).

Definition mtu_upper_bound_in_effect (l : Limits) : Z :=
  default (Z.max DEFAULT_MTU_UPPER_BOUND (initial_mtu l)) (mtu_upper_bound l).

Definition initial_rtt (l : Limits) : Z := from_millis (initial_rtt_ms l).

Definition connect_timeout_duration (l : Limits) : option Z :=
  if connect_timeout l =? 0 then None else Some (from_secs (connect_timeout l)).

Definition keep_alive_interval_duration (l : Limits) : option Z :=
  if keep_alive_interval l =? 0 then None else Some (from_secs (keep_alive_interval l)).

Definition alpn_wire (s : Server) : list bytes := alpn s.
Definition shutdown_grace_duration (s : Server) : Z := from_secs (shutdown_grace s).

(** [Policy::new] (policy.rs). *)
Definition policy_new (s : Security) : Policy :=
  mkPolicy (allow_private_networks s) (denied_ports s).

(** What [Context::new] (tunnel/mod.rs) copies out of the configuration for the
    connections accepted under it. *)
Definition settings_of (c : Config) : Settings :=
  {| cfg_users := users c;
     cfg_policy := policy_new (security c);
     cfg_max_auth_failures := max_auth_failures (security c);
     cfg_max_streams_bidi := max_streams_bidi (limits c);
     cfg_connect_timeout := connect_timeout_duration (limits c);
     cfg_ip_family_preference := ip_family_preference (limits c);
     cfg_unanswered_packet_budget := unanswered_packet_budget (security c) |}.

(** ** Validation *)

(** One constructor per refusal, in the order of the checks. *)
Inductive ConfigError :=
  | LogFilterInvalid (level : bytes)
  | LogLevelUnknown (level : bytes)
  | AlpnMissing
  | AlpnEmpty (i : nat)
  | AlpnTooLong (i : nat) (len : Z)
  | ShutdownGraceTooLong (secs : Z)
  | UdpSessionTimeoutOutOfRange (secs : Z)
  | ConnectTimeoutTooLong (secs : Z)
  | MaxTargetsZero
  | MaxTargetsTooMany (n : Z)
  | MaxStreamsZero
  | MaxStreamsTooMany (n : Z)
  | MaxIdleTimeoutOutOfRange (secs : Z)
  | KeepAliveTooSlow (interval idle : Z)
  | InitialMtuTooSmall (mtu : Z)
  | InitialMtuTooLarge (mtu : Z)
  | MtuBoundBelowInitial (bound initial : Z)
  | MtuBoundTooLarge (bound : Z)
  | InitialRttOutOfRange (ms : Z)
  | UsernameEmpty (i : nat)
  | UsernameColon (i : nat)
  | UsernameTooLong (i : nat) (len : Z)
  | PasswordEmpty (i : nat)
  | UsernameDuplicate (i first : nat)
  | DeniedPortZero (i : nat)
  | SniEmpty (i : nat)
  | SniEmptyLabel (i : nat)
  | SniTooLong (i : nat) (len : Z)
  | SniWildcard (i : nat)
  | SniCharacter (i : nat)
  | SniAddress (i : nat)
  | CertNotFile
  | KeyNotFile.

(** [if refused { bail!(e) }]. *)
Definition bail_if (refused : bool) (e : ConfigError) : result unit ConfigError :=
  if refused then Err e else Ok tt.

(** [for (i, x) in list.iter().enumerate()] with a body that may fail: the body sees
    what is before the element, so that [i] is its length. *)
Fixpoint check_each {A} (body : list A → A → result unit ConfigError) (before rest : list A)
    : result unit ConfigError :=
  match rest with
  | [] => Ok tt
  | x :: rest => let? _ := body before x in check_each body (before ++ [x]) rest
  end.

(** [Iterator::position]. *)
Fixpoint position {A} (p : A → bool) (l : list A) : option nat :=
  match l with
  | [] => None
  | x :: l => if p x then Some 0%nat else S <$> position p l
  end.

(** [u64::div_ceil]. *)
Definition div_ceil (x y : Z) : Z := x / y + (if 0 <? x mod y then 1 else 0).

Definition COMMA : byte := as_u8 0x2c.
Definition EQUALS : byte := as_u8 0x3d.
Definition DASH : byte := as_u8 0x2d.
Definition UNDERSCORE : byte := as_u8 0x5f.
Definition STAR : byte := as_u8 0x2a.

Definition filter_syntax (x : byte) : bool :=
  bool_decide (x = COMMA) || bool_decide (x = EQUALS) || bool_decide (x = OPEN_BRACKET).

(** [u8::is_ascii_alphanumeric]. *)
Definition ascii_alphanumeric (x : byte) : bool :=
  ((0x30 <=? u8 x) && (u8 x <=? 0x39)) || ((0x41 <=? u8 x) && (u8 x <=? 0x5a))
  || ((0x61 <=? u8 x) && (u8 x <=? 0x7a)).

(** What a configured host name may hold. *)
Definition host_byte (x : byte) : bool :=
  ascii_alphanumeric x || bool_decide (x = DASH) || bool_decide (x = DOT) || bool_decide (x = UNDERSCORE).

(** [str::parse::<Ipv4Addr>] and [str::parse::<Ipv6Addr>]. *)
Definition is_ipv4_literal (l : bytes) : bool :=
  match read_ipv4 l with Some (_, []) => true | _ => false end.
Definition is_ipv6_literal (l : bytes) : bool :=
  match read_ipv6 l with Some (_, []) => true | _ => false end.

Definition validate_expected_sni (i : nat) (name : bytes) : result unit ConfigError :=
  let bare := root_relative name in
  let? _ := bail_if (bool_decide (bare = [])) (SniEmpty i) in
  let? _ := bail_if (existsb (λ label, bool_decide (label = [])) (split DOT bare)) (SniEmptyLabel i) in
  let? _ := bail_if (MAX_EXPECTED_SNI <? blen bare) (SniTooLong i (blen bare)) in
  let? _ := bail_if (bool_decide (STAR ∈ bare)) (SniWildcard i) in
  let? _ := bail_if (existsb (λ x, negb (host_byte x)) bare) (SniCharacter i) in
  bail_if (is_ipv4_literal bare || is_ipv6_literal bare) (SniAddress i).

Definition validate_user (before : list User) (user : User) : result unit ConfigError :=
  let i := length before in
  let? _ := bail_if (bool_decide (username user = [])) (UsernameEmpty i) in
  let? _ := bail_if (bool_decide (Auth.COLON ∈ username user)) (UsernameColon i) in
  let? _ := bail_if (MAX_TOKEN <? length (username user))%nat
              (UsernameTooLong i (blen (username user))) in
  let? _ := bail_if (bool_decide (password user = [])) (PasswordEmpty i) in
  match position (λ other, bool_decide (username other = username user)) before with
  | Some first => Err (UsernameDuplicate i first)
  | None => Ok tt
  end.

Definition validate_alpn_id (before : list bytes) (id : bytes) : result unit ConfigError :=
  let i := length before in
  let? _ := bail_if (bool_decide (id = [])) (AlpnEmpty i) in
  bail_if (255 <? blen id) (AlpnTooLong i (blen id)).

Definition validate_limits (l : Limits) : result unit ConfigError :=
  let? _ := bail_if ((udp_session_timeout l =? 0) || (MAX_IDLE_TIMEOUT_CEILING <? udp_session_timeout l))
              (UdpSessionTimeoutOutOfRange (udp_session_timeout l)) in
  let? _ := bail_if (MAX_IDLE_TIMEOUT_CEILING <? connect_timeout l)
              (ConnectTimeoutTooLong (connect_timeout l)) in
  let? _ := bail_if (max_targets_per_conn l =? 0) MaxTargetsZero in
  let? _ := bail_if (MAX_TARGETS_PER_CONN_CEILING <? max_targets_per_conn l)
              (MaxTargetsTooMany (max_targets_per_conn l)) in
  let? _ := bail_if (max_streams_bidi l =? 0) MaxStreamsZero in
  let? _ := bail_if (MAX_STREAMS_BIDI_CEILING <? max_streams_bidi l)
              (MaxStreamsTooMany (max_streams_bidi l)) in
  let? _ := bail_if ((max_idle_timeout l =? 0) || (MAX_IDLE_TIMEOUT_CEILING <? max_idle_timeout l))
              (MaxIdleTimeoutOutOfRange (max_idle_timeout l)) in
  let? _ := bail_if ((0 <? keep_alive_interval l)
                     && (div_ceil (max_idle_timeout l) 2 <=? keep_alive_interval l))
              (KeepAliveTooSlow (keep_alive_interval l) (max_idle_timeout l)) in
  let? _ := bail_if (initial_mtu l <? MIN_INITIAL_MTU) (InitialMtuTooSmall (initial_mtu l)) in
  let? _ := bail_if (MAX_INITIAL_MTU <? initial_mtu l) (InitialMtuTooLarge (initial_mtu l)) in
  let? _ := match mtu_upper_bound l with
            | Some upper_bound =>
                let? _ := bail_if (upper_bound <? initial_mtu l)
                            (MtuBoundBelowInitial upper_bound (initial_mtu l)) in
                bail_if (MAX_MTU_UPPER_BOUND <? upper_bound) (MtuBoundTooLarge upper_bound)
            | None => Ok tt
            end in
  bail_if (negb ((INITIAL_RTT_RANGE_MS.1 <=? initial_rtt_ms l)
                 && (initial_rtt_ms l <=? INITIAL_RTT_RANGE_MS.2)))
    (InitialRttOutOfRange (initial_rtt_ms l)).

Section Validate.
(** [EnvFilter::try_new] accepts the text, and [Path::is_file]. *)
Context (filter_ok is_file : bytes → bool).

Definition validate_log_level (level : bytes) : result unit ConfigError :=
  if existsb filter_syntax level
  then bail_if (negb (filter_ok level)) (LogFilterInvalid level)
  else bail_if (negb (existsb (λ l, eq_ignore_ascii_case level l) LOG_LEVELS)) (LogLevelUnknown level).

Definition validate (c : Config) : result unit ConfigError :=
  let? _ := validate_log_level (level (log c)) in
  let? _ := bail_if (bool_decide (alpn (server c) = [])) AlpnMissing in
  let? _ := check_each validate_alpn_id [] (alpn (server c)) in
  let? _ := bail_if (MAX_SHUTDOWN_GRACE <? shutdown_grace (server c))
              (ShutdownGraceTooLong (shutdown_grace (server c))) in
  let? _ := validate_limits (limits c) in
  let? _ := check_each validate_user [] (users c) in
  let? _ := match position (λ port, port =? 0) (denied_ports (security c)) with
            | Some i => Err (DeniedPortZero i)
            | None => Ok tt
            end in
  let? _ := check_each (λ before name, validate_expected_sni (length before) name) []
              (expected_sni (security c)) in
  let? _ := bail_if (negb (is_file (cert (server c)))) CertNotFile in
  bail_if (negb (is_file (key (server c)))) KeyNotFile.
End Validate.

(** ** Advice *)

Inductive Warning :=
  | OpenProxy
  | PlaceholderPasswords (indices : list nat)
  | NoH3 (alpn : list bytes)
  | SniNotCovered (name cert : bytes)
  | ShortUdpSessions (secs : Z)
  | PrivateNetworksAllowed
  | DnsPortDenied
  | UnlimitedConnections
  | UnlimitedGuesses
  | NoKeepAlive (idle : Z)
  | NoMtuDiscovery (mtu : Z)
  | MootMtuBound (bound : Z)
  | KeylogOn
  | NoAmplificationBudget
  | NoConnectTimeout.

(** The indices of the elements that satisfy [p]. *)
Fixpoint indices_from {A} (p : A → bool) (i : nat) (l : list A) : list nat :=
  match l with
  | [] => []
  | x :: l => (if p x then [i] else []) ++ indices_from p (S i) l
  end.

Definition warn_if (b : bool) (w : Warning) : list Warning := if b then [w] else [].

Section Warnings.
(** [tls::load_certs] and [tls::names_not_covered] of the leaf it returned. *)
Context {Cert : Type} (load_certs : bytes → option (list Cert))
  (names_not_covered : Cert → list bytes → list bytes).

Definition sni_warnings (c : Config) : list Warning :=
  match expected_sni (security c), load_certs (cert (server c)) with
  | _ :: _, Some (leaf :: _) =>
      map (λ name, SniNotCovered name (cert (server c)))
        (names_not_covered leaf (expected_sni (security c)))
  | _, _ => []
  end.

Definition warnings (c : Config) : list Warning :=
  let l := limits c in
  let s := security c in
  let placeholders :=
    indices_from (λ u, bool_decide (password u = EXAMPLE_PLACEHOLDER_PASSWORD)) 0 (users c) in
  warn_if (bool_decide (users c = [])) OpenProxy
  ++ warn_if (negb (bool_decide (placeholders = []))) (PlaceholderPasswords placeholders)
  ++ warn_if (negb (existsb (λ id, bool_decide (id = lit "h3")) (alpn (server c))))
       (NoH3 (alpn (server c)))
  ++ sni_warnings c
  ++ warn_if (udp_session_timeout l <? 120) (ShortUdpSessions (udp_session_timeout l))
  ++ warn_if (allow_private_networks s) PrivateNetworksAllowed
  ++ warn_if (existsb (λ port, port =? 53) (denied_ports s)) DnsPortDenied
  ++ warn_if (max_connections l =? 0) UnlimitedConnections
  ++ warn_if ((max_auth_failures s =? 0) && negb (bool_decide (users c = []))) UnlimitedGuesses
  ++ warn_if (keep_alive_interval l =? 0) (NoKeepAlive (max_idle_timeout l))
  ++ warn_if (negb (mtu_discovery l)) (NoMtuDiscovery (initial_mtu l))
  ++ match mtu_discovery l, mtu_upper_bound l with
     | false, Some upper_bound => [MootMtuBound upper_bound]
     | _, _ => []
     end
  ++ warn_if (keylog (log c)) KeylogOn
  ++ warn_if (unanswered_packet_budget s =? 0) NoAmplificationBudget
  ++ warn_if (connect_timeout l =? 0) NoConnectTimeout.
End Warnings.
