(* ===== verification/ConfigText.v ===== *)
(** * What a parse failure may say (src/src/config.rs)

    The configuration file holds passwords, and the TOML parser quotes what it
    rejected.  [parse_error] reports the file, a position and the parser's message with
    every quoted segment replaced.  A slice of a [str] off a character boundary
    panics: [None] is that panic, and the theorems show it does not happen. *)

From S2P Require Import Prelude Utf8 Logfmt Target Config.

#[local] Open Scope nat_scope.

(** ** Definitions *)

Definition BACKTICK : byte := as_u8 0x60.
Definition DQUOTE : byte := as_u8 0x22.
Definition BACKSLASH : byte := as_u8 0x5c.
Definition NEWLINE : byte := as_u8 0x0a.

(** [text.get(..i)], [text.get(i..)]; the same slices as an index panic on [None]. *)
Definition str_to (l : bytes) (i : nat) : option bytes :=
  if is_char_boundary l i then Some (take i l) else None.
Definition str_from (l : bytes) (i : nat) : option bytes :=
  if is_char_boundary l i then Some (drop i l) else None.

Definition is_quote (x : byte) : bool := bool_decide (x = BACKTICK) || bool_decide (x = DQUOTE).

Definition REDACTED : bytes := [BACKTICK] ++ lit "<redacted>" ++ [BACKTICK].

Fixpoint closing_double (l : bytes) : option nat :=
  match l with
  | [] => None
  | x :: l =>
      if bool_decide (x = BACKSLASH) then
        match l with [] => None | _ :: l => (λ n, S (S n)) <$> closing_double l end
      else if bool_decide (x = DQUOTE) then Some 0
      else S <$> closing_double l
  end.

Definition closing_quote (rest : bytes) (quote : byte) : option nat :=
  if bool_decide (quote = DQUOTE) then closing_double rest
  else position (λ x, bool_decide (x = quote)) rest.

Definition redact_step (s : bytes * bytes) : (bytes * bytes) + option bytes :=
  let '(redacted, rest) := s in
  match position is_quote rest with
  | None => inr (Some (redacted ++ rest))
  | Some open =>
      match str_to rest open, rest !! open, str_from rest (open + 1) with
      | Some plain, Some quote, Some inner =>
          let redacted := redacted ++ plain ++ REDACTED in
          match closing_quote inner quote with
          | None => inr (Some redacted)
          | Some close =>
              match str_from rest (open + 1 + close + 1) with
              | Some rest => inl (redacted, rest)
              | None => inr None
              end
          end
      | _, _, _ => inr None
      end
  end.

Lemma str_from_length l i l' : str_from l (i + 1) = Some l' → l ≠ [] → length l' < length l.
Proof.
  unfold str_from. case_match; [|done]. intros [= <-] Hl. rewrite length_drop.
  destruct l; cbn in *; [done|lia].
Qed.

#[export] Program Instance redact_loop : Loop redact_step := {| loop_measure s := length s.2 |}.
Next Obligation.
  intros [redacted rest] s'. unfold redact_step. repeat case_match; try done.
  intros [= <-]. cbn [snd]. eapply str_from_length; [eassumption|]. by intros ->.
Qed.

Definition redact_quoted (message : bytes) : option bytes := run redact_step ([], message).

(** [str::chars().count()]: the bytes that start a character. *)
Definition chars_count (l : bytes) : nat := length (List.filter (λ x, negb (continuation x)) l).

Definition newlines (l : bytes) : nat := length (List.filter (λ x, bool_decide (x = NEWLINE)) l).

Definition line_and_column (text : bytes) (offset : nat) : option (nat * nat) :=
  before ← str_to text offset;
  let line := newlines before + 1 in
  let tail := match rsplit_once NEWLINE before with Some (_, tail) => tail | None => before end in
  Some (line, chars_count tail + 1).

(** The report: the path, the position if there is one, and the message. *)
Record ParseFailure := mkParseFailure {
  failed_path : bytes;
  failed_at : option (nat * nat);
  failed_message : bytes;
}.

(** [message] and [span] are those of the parser's error. *)
Definition parse_error (path text message : bytes) (span : option nat) : option ParseFailure :=
  message ← redact_quoted message;
  Some (mkParseFailure path (start ← span; line_and_column text start) message).

(** ** Slices of UTF-8 around an ASCII byte *)

Lemma valid_head x l : valid_utf8 (x :: l) = true → continuation x = false.
Proof.
  intros Hv. destruct (continuation x) eqn:Ec; [|done]. exfalso.
  rewrite valid_unfold in Hv. assert (width x = 0) as Hw.
  { unfold width, continuation, between in *.
    repeat (match goal with |- context [(?a <=? ?b)%Z] => destruct (Z.leb_spec a b) end; cbn);
      try done; unfold between in Ec; lia. }
  cbn [scan] in Hv. by rewrite Hw in Hv.
Qed.

Lemma valid_tail x l : (u8 x < 128)%Z → valid_utf8 (x :: l) = true → valid_utf8 l = true.
Proof.
  intros Hx. rewrite valid_unfold. assert (scan (x :: l) = Char 1) as ->; [|done].
  cbn [scan]. unfold width, between. pose proof (u8_range x).
  destruct (Z.leb_spec 0 (u8 x)), (Z.leb_spec (u8 x) 0x7f); try lia. done.
Qed.

Lemma boundary_before a x b :
  (u8 x < 128)%Z → is_char_boundary (a ++ x :: b) (length a) = true.
Proof.
  intros Hx. unfold is_char_boundary. rewrite list_lookup_middle by done.
  unfold continuation, between. destruct (Z.leb_spec 0x80 (u8 x)); [lia|]. by rewrite orb_true_r.
Qed.

Lemma boundary_after a x b :
  valid_utf8 b = true → is_char_boundary (a ++ x :: b) (length a + 1) = true.
Proof.
  intros Hb. unfold is_char_boundary. rewrite length_app. cbn [length].
  destruct b as [|y b]; [by rewrite Nat.eqb_refl, orb_true_r|].
  rewrite lookup_app_r by lia. replace (length a + 1 - length a) with 1 by lia. cbn.
  by rewrite (valid_head y b Hb), orb_true_r.
Qed.

Lemma valid_around a x b :
  (u8 x < 128)%Z → valid_utf8 (a ++ x :: b) = true → valid_utf8 a = true ∧ valid_utf8 b = true.
Proof.
  intros Hx Hv. assert (valid_utf8 a = true) as Ha.
  { pose proof (valid_take _ _ Hv (boundary_before a x b Hx)) as H. by rewrite take_app_length in H. }
  split; [done|]. rewrite valid_app in Hv by done. by eapply valid_tail.
Qed.

Lemma str_to_middle a x b : (u8 x < 128)%Z → str_to (a ++ x :: b) (length a) = Some a.
Proof. intros Hx. unfold str_to. rewrite boundary_before by done. by rewrite take_app_length. Qed.

Lemma str_from_middle a x b :
  valid_utf8 b = true → str_from (a ++ x :: b) (length a + 1) = Some b.
Proof.
  intros Hb. unfold str_from. rewrite boundary_after by done.
  rewrite drop_app_ge by lia. by replace (length a + 1 - length a) with 1 by lia.
Qed.

(** ** Where a segment opens and closes *)

Lemma position_some {A} (p : A → bool) l n :
  position p l = Some n →
  ∃ a x b, l = a ++ x :: b ∧ length a = n ∧ p x = true ∧ Forall (λ y, p y = false) a.
Proof.
  revert n. induction l as [|y l IH]; intros n; cbn [position]; [done|].
  destruct (p y) eqn:Ey; [intros [= <-]; by exists [], y, l|].
  destruct (position p l) as [m|]; [|done]. intros [= <-].
  destruct (IH m eq_refl) as (a & x & b & -> & <- & Hx & Ha). exists (y :: a), x, b. auto.
Qed.

Lemma position_none {A} (p : A → bool) l : position p l = None ↔ Forall (λ y, p y = false) l.
Proof.
  induction l as [|y l IH]; cbn [position]; [done|]. rewrite Forall_cons.
  destruct (p y), (position p l); naive_solver.
Qed.

Lemma position_app {A} (p : A → bool) a x b :
  Forall (λ y, p y = false) a → p x = true → position p (a ++ x :: b) = Some (length a).
Proof.
  intros Ha Hx. induction Ha as [|y a Hy _ IH]; cbn; [by rewrite Hx|]. by rewrite Hy, IH.
Qed.

Lemma quote_ascii x : is_quote x = true → (u8 x < 128)%Z.
Proof. unfold is_quote. rewrite orb_true_iff, !bool_decide_eq_true. intros [-> | ->]; done. Qed.

(** Text between double quotes as [{:?}] renders it. *)
Inductive escaped : bytes → Prop :=
  | escaped_nil : escaped []
  | escaped_byte x l : x ≠ DQUOTE → x ≠ BACKSLASH → escaped l → escaped (x :: l)
  | escaped_pair x l : escaped l → escaped (BACKSLASH :: x :: l).

Lemma closing_double_some l n :
  closing_double l = Some n → ∃ a b, l = a ++ DQUOTE :: b ∧ length a = n ∧ escaped a.
Proof.
  revert n. induction l as [l IH] using (induction_ltof1 _ length). intros n.
  destruct l as [|x l]; cbn [closing_double]; [done|].
  case_bool_decide as Hb; [|case_bool_decide as Hq].
  - destruct l as [|y l]; [done|]. destruct (closing_double l) as [m|] eqn:E; [|done].
    intros [= <-]. destruct (IH l ltac:(unfold ltof; cbn; lia) m E) as (a & b & -> & <- & He).
    subst x. exists (BACKSLASH :: y :: a), b. split_and!; [done|done|by constructor].
  - intros [= <-]. subst. exists [], l. split_and!; [done|done|constructor].
  - destruct (closing_double l) as [m|] eqn:E; [|done]. intros [= <-].
    destruct (IH l ltac:(unfold ltof; cbn; lia) m E) as (a & b & -> & <- & He).
    exists (x :: a), b. split_and!; [done|done|by constructor].
Qed.

Lemma closing_quote_some l q n :
  closing_quote l q = Some n → ∃ a b, l = a ++ q :: b ∧ length a = n.
Proof.
  unfold closing_quote. case_bool_decide as Hq; [intros (a & b & -> & Hn & _)%closing_double_some; subst; eauto|].
  intros (a & x & b & -> & Hn & Hx & _)%position_some. apply bool_decide_eq_true in Hx as ->. eauto.
Qed.

(** ** One segment *)

Lemma redact_segment redacted plain q body rest :
  valid_utf8 (plain ++ q :: body ++ q :: rest) = true →
  Forall (λ y, is_quote y = false) plain → is_quote q = true →
  closing_quote (body ++ q :: rest) q = Some (length body) →
  run redact_step (redacted, plain ++ q :: body ++ q :: rest) =
    run redact_step (redacted ++ plain ++ REDACTED, rest).
Proof.
  intros Hv Hplain Hq Hclose. pose proof (quote_ascii q Hq) as Ha.
  destruct (valid_around _ _ _ Ha Hv) as [_ Hv1]. destruct (valid_around _ _ _ Ha Hv1) as [_ Hv2].
  rewrite run_unfold. unfold redact_step at 1.
  rewrite position_app, str_to_middle, list_lookup_middle, str_from_middle by done.
  rewrite Hclose.
  assert (length plain + 1 + length body + 1 = length (plain ++ q :: body) + 1) as ->.
  { rewrite length_app. cbn [length]. lia. }
  assert (plain ++ q :: body ++ q :: rest = (plain ++ q :: body) ++ q :: rest) as ->.
  { by rewrite <- app_assoc. }
  by rewrite str_from_middle.
Qed.

Lemma redact_unclosed redacted plain q body :
  valid_utf8 (plain ++ q :: body) = true →
  Forall (λ y, is_quote y = false) plain → is_quote q = true → closing_quote body q = None →
  run redact_step (redacted, plain ++ q :: body) = Some (redacted ++ plain ++ REDACTED).
Proof.
  intros Hv Hplain Hq Hclose. pose proof (quote_ascii q Hq) as Ha.
  destruct (valid_around _ _ _ Ha Hv) as [_ Hv1].
  rewrite run_unfold. unfold redact_step at 1.
  rewrite position_app, str_to_middle, list_lookup_middle, str_from_middle by done.
  by rewrite Hclose.
Qed.

Lemma redact_plain redacted l :
  Forall (λ y, is_quote y = false) l → run redact_step (redacted, l) = Some (redacted ++ l).
Proof.
  intros Hl. rewrite run_unfold. unfold redact_step at 1. by rewrite (proj2 (position_none _ _) Hl).
Qed.

Lemma redact_total redacted message :
  valid_utf8 message = true → is_Some (run redact_step (redacted, message)).
Proof.
  intros Hv. apply (run_invariant redact_step (λ s, valid_utf8 s.2 = true)); [|done].
  clear. intros [redacted rest] Hv. cbn [snd] in *. unfold redact_step.
  destruct (position is_quote rest) as [n|] eqn:E; [|done].
  apply position_some in E as (a & q & b & -> & <- & Hq & _).
  pose proof (quote_ascii q Hq) as Ha. destruct (valid_around _ _ _ Ha Hv) as [_ Hv1].
  rewrite str_to_middle, list_lookup_middle, str_from_middle by done.
  destruct (closing_quote b q) as [m|] eqn:E; [|done].
  apply closing_quote_some in E as (c & d & -> & <-).
  destruct (valid_around _ _ _ Ha Hv1) as [_ Hv2].
  assert (length a + 1 + length c + 1 = length (a ++ q :: c) + 1) as ->.
  { rewrite length_app. cbn [length]. lia. }
  assert (a ++ q :: c ++ q :: d = (a ++ q :: c) ++ q :: d) as -> by by rewrite <- app_assoc.
  by rewrite str_from_middle.
Qed.

(** ** Messages

    A message is plain text around quoted segments: between backticks without one, or
    between double quotes as [{:?}] renders a string, where every double quote and
    every backslash comes behind a backslash; and after them it may hold one more quote
    that is never closed. *)

Inductive Segment := Displayed (body : bytes) | Debugged (body : bytes).

Definition quote_of (s : Segment) : byte :=
  match s with Displayed _ => BACKTICK | Debugged _ => DQUOTE end.
Definition body_of (s : Segment) : bytes :=
  match s with Displayed b | Debugged b => b end.

Definition segment_ok (s : Segment) : Prop :=
  match s with Displayed b => BACKTICK ∉ b | Debugged b => escaped b end.

Definition plain_text (l : bytes) : Prop := Forall (λ y, is_quote y = false) l.

(** A message and what may be shown of it. *)
Fixpoint render (parts : list (bytes * Segment)) (tail : bytes) : bytes :=
  match parts with
  | [] => tail
  | (plain, s) :: parts => plain ++ quote_of s :: body_of s ++ quote_of s :: render parts tail
  end.

Fixpoint render_redacted (plains : list bytes) (tail : bytes) : bytes :=
  match plains with
  | [] => tail
  | plain :: plains => plain ++ REDACTED ++ render_redacted plains tail
  end.

Definition parts_ok (parts : list (bytes * Segment)) : Prop :=
  Forall (λ p, plain_text p.1 ∧ segment_ok p.2) parts.

(** How [{:?}] spells the two characters that matter. *)
Definition debug_escape (l : bytes) : bytes :=
  concat (map (λ x, if bool_decide (x = DQUOTE) || bool_decide (x = BACKSLASH)
                    then [BACKSLASH; x] else [x]) l).

Lemma debug_escaped l : escaped (debug_escape l).
Proof.
  induction l as [|x l IH]; [constructor|]. unfold debug_escape in *. cbn [map concat].
  case_bool_decide as Hq; cbn [orb]; [by constructor|].
  case_bool_decide as Hb; cbn [app]; by constructor.
Qed.

Lemma closing_double_escaped b rest :
  escaped b → closing_double (b ++ DQUOTE :: rest) = Some (length b).
Proof.
  induction 1 as [|x l Hq Hb _ IH|x l _ IH]; [done| |].
  - cbn [app closing_double]. rewrite !bool_decide_eq_false_2 by done. by rewrite IH.
  - cbn [app closing_double]. rewrite bool_decide_eq_true_2 by done. by rewrite IH.
Qed.

Lemma closing_segment s rest :
  segment_ok s → closing_quote (body_of s ++ quote_of s :: rest) (quote_of s) = Some (length (body_of s)).
Proof.
  destruct s as [b|b]; cbn [quote_of body_of segment_ok]; unfold closing_quote; intros Hs.
  - rewrite bool_decide_eq_false_2 by done. apply position_app; [|by apply bool_decide_eq_true].
    apply Forall_forall. intros y Hy. apply bool_decide_eq_false. by intros ->.
  - rewrite bool_decide_eq_true_2 by done. by apply closing_double_escaped.
Qed.

Lemma quote_of_quote s : is_quote (quote_of s) = true.
Proof. by destruct s. Qed.

Lemma redact_parts redacted parts tail :
  valid_utf8 (render parts tail) = true → parts_ok parts →
  run redact_step (redacted, render parts tail) =
    run redact_step (redacted ++ render_redacted parts.*1 [], tail).
Proof.
  intros Hv Hok. revert redacted Hv.
  induction Hok as [|[plain s] parts [Hplain Hs] _ IH]; intros redacted Hv; cbn [fst snd] in *.
  { cbn. by rewrite app_nil_r. }
  cbn [render render_redacted fmap list_fmap] in *. pose proof (quote_of_quote s) as Hq.
  rewrite redact_segment by (try done; by apply closing_segment).
  pose proof (quote_ascii _ Hq) as Ha.
  destruct (valid_around _ _ _ Ha Hv) as [_ Hv1]. destruct (valid_around _ _ _ Ha Hv1) as [_ Hv2].
  rewrite IH by done. by rewrite <- !app_assoc.
Qed.

Lemma render_redacted_app plains tail :
  render_redacted plains tail = render_redacted plains [] ++ tail.
Proof. induction plains as [|p l IH]; [done|]. cbn [render_redacted]. by rewrite IH, <- !app_assoc. Qed.

(** ** Every message reads as segments *)

(** [message] as the scan reads it: its segments, the plain text after them, and what a quote
    that is never closed leaves open. *)
Definition reads (message : bytes) (parts : list (bytes * Segment)) (tail open : bytes) : Prop :=
  message = render parts (tail ++ open) ∧ parts_ok parts ∧ plain_text tail ∧
  (open = [] ∨ ∃ q body, open = q :: body ∧ is_quote q = true ∧ closing_quote body q = None).

(** What stands in the report for what is left open. *)
Definition marker (open : bytes) : bytes := if bool_decide (open = []) then [] else REDACTED.

Lemma segment_read q body n :
  is_quote q = true → closing_quote body q = Some n →
  ∃ s rest, quote_of s = q ∧ segment_ok s ∧ body = body_of s ++ q :: rest.
Proof.
  intros Hq. unfold closing_quote. case_bool_decide as Hd.
  - intros (a & b & -> & _ & He)%closing_double_some. subst q. by exists (Debugged a), b.
  - intros (a & x & b & -> & _ & Hx & Ha)%position_some. apply bool_decide_eq_true in Hx as ->.
    exists (Displayed a), b. unfold is_quote in Hq. rewrite orb_true_iff, !bool_decide_eq_true in Hq.
    assert (q = BACKTICK) as -> by tauto. split_and!; [done| |done].
    intros Hin. rewrite Forall_forall in Ha. specialize (Ha _ Hin). by apply bool_decide_eq_false in Ha.
Qed.

Lemma reads_total message : ∃ parts tail open, reads message parts tail open.
Proof.
  induction message as [message IH] using (induction_ltof1 _ length).
  destruct (position is_quote message) as [n|] eqn:E.
  2: { exists [], message, []. apply position_none in E. split_and!; [by cbn; rewrite app_nil_r|constructor|done|by left]. }
  apply position_some in E as (plain & q & body & -> & _ & Hq & Hplain).
  destruct (closing_quote body q) as [m|] eqn:Ec.
  - apply segment_read in Ec as (s & rest & Hs & Hok & ->); [|done].
    destruct (IH rest) as (parts & tail & open & Hm & Hp & Ht & Ho).
    { unfold ltof. rewrite !length_app. cbn [length]. rewrite length_app. cbn [length]. lia. }
    exists ((plain, s) :: parts), tail, open. subst q. split_and!; [by cbn [render]; rewrite <- Hm|by constructor|done|done].
  - exists [], plain, (q :: body). split_and!; [done|constructor|done|]. right. by exists q, body.
Qed.

Lemma valid_render parts tail : valid_utf8 (render parts tail) = true → valid_utf8 tail = true.
Proof.
  induction parts as [|[p s] parts IH]; [done|]. cbn [render]. intros Hv. apply IH.
  pose proof (quote_ascii _ (quote_of_quote s)) as Ha.
  destruct (valid_around _ _ _ Ha Hv) as [_ Hv1]. by destruct (valid_around _ _ _ Ha Hv1).
Qed.

(** The report shows the plain text of a message, and one fixed marker for each segment. *)
Lemma redact_reads redacted message parts tail open :
  valid_utf8 message = true → reads message parts tail open →
  run redact_step (redacted, message) = Some (redacted ++ render_redacted parts.*1 (tail ++ marker open)).
Proof.
  intros Hv (-> & Hok & Htail & Ho). rewrite redact_parts by done.
  rewrite (render_redacted_app _ (tail ++ _)), !app_assoc. unfold marker.
  destruct Ho as [->|(q & body & -> & Hq & Hc)].
  - rewrite bool_decide_eq_true_2, !app_nil_r, redact_plain by done. done.
  - rewrite bool_decide_eq_false_2, redact_unclosed by (try done; by eapply valid_render).
    by rewrite <- !app_assoc.
Qed.

(** A message with a backtick in it leaves one in its report: that of a marker. *)
Lemma redacted_backtick message parts tail open :
  reads message parts tail open → BACKTICK ∈ message → BACKTICK ∈ render_redacted parts.*1 (tail ++ marker open).
Proof.
  intros (-> & _ & Htail & _) Hin.
  assert (BACKTICK ∈ REDACTED) as Hm by (by left).
  destruct parts as [|[plain s] parts]; [|cbn [fmap list_fmap render_redacted fst]; set_solver].
  cbn [fmap list_fmap render_redacted render] in *. unfold marker. case_bool_decide as Ho; [|set_solver].
  subst open. rewrite app_nil_r in Hin. unfold plain_text in Htail. rewrite Forall_forall in Htail.
  by specialize (Htail _ Hin).
Qed.

(** A value displayed between backticks is hidden whole exactly when it has none of its own. *)
Lemma displayed_hidden plain value rest :
  valid_utf8 (plain ++ BACKTICK :: value ++ BACKTICK :: rest) = true → plain_text plain → plain_text rest →
  redact_quoted (plain ++ BACKTICK :: value ++ BACKTICK :: rest) = Some (plain ++ REDACTED ++ rest) ↔
  (BACKTICK ∉ value).
Proof.
  intros Hv Hp Hr. unfold redact_quoted.
  assert (∀ v r, BACKTICK ∉ v → closing_quote (v ++ BACKTICK :: r) BACKTICK = Some (length v)) as Hclose
    by (intros v r Hn; by apply (closing_segment (Displayed v))).
  split.
  - intros Heq Hin. apply list_elem_of_split_l in Hin as (b1 & b2 & -> & Hb1).
    rewrite <- app_assoc in Hv, Heq. cbn [app] in Hv, Heq.
    rewrite redact_segment in Heq by (try done; by apply Hclose).
    assert (valid_utf8 (b2 ++ BACKTICK :: rest) = true) as Hv2
      by (by apply (valid_render [(plain, Displayed b1)])).
    destruct (reads_total (b2 ++ BACKTICK :: rest)) as (parts & tail & open & Hm).
    rewrite (redact_reads _ _ _ _ _ Hv2 Hm) in Heq. apply (inj Some) in Heq.
    rewrite app_nil_l, <- !app_assoc in Heq. do 2 apply app_inv_head in Heq.
    pose proof (redacted_backtick _ _ _ _ Hm ltac:(set_solver)) as Hin. rewrite Heq in Hin.
    unfold plain_text in Hr. rewrite Forall_forall in Hr. by specialize (Hr _ Hin).
  - intros Hn. rewrite redact_segment; [|done|done|done|by apply Hclose].
    rewrite redact_plain by done. by rewrite app_nil_l, <- app_assoc.
Qed.

(** One that has, is shown from its first backtick on: here to the next. *)
Lemma displayed_shown plain b1 b2 rest :
  valid_utf8 (plain ++ BACKTICK :: (b1 ++ BACKTICK :: b2) ++ BACKTICK :: rest) = true →
  plain_text plain → plain_text b2 → plain_text rest → (BACKTICK ∉ b1) →
  redact_quoted (plain ++ BACKTICK :: (b1 ++ BACKTICK :: b2) ++ BACKTICK :: rest) =
    Some (plain ++ REDACTED ++ b2 ++ REDACTED).
Proof.
  intros Hv Hp H2 Hr Hn. rewrite <- app_assoc in *. cbn [app] in *. unfold redact_quoted.
  rewrite (redact_reads [] _ [(plain, Displayed b1)] b2 (BACKTICK :: rest)); [done|done|].
  split_and!; [done|by repeat constructor|done|]. right. exists BACKTICK, rest. split_and!; [done|done|].
  unfold closing_quote. rewrite bool_decide_eq_false_2 by done. apply position_none.
  eapply Forall_impl; [exact Hr|]. intros y Hy. unfold is_quote in Hy.
  by apply orb_false_iff in Hy as [Hy _].
Qed.

(** The redaction of a message. The scan never panics; it reads every message as
    segments, and of whatever message it shows the plain text around them and one fixed
    marker for each, and from a quote that is never closed on nothing. *)
Theorem redact_quoted_exact message :
  valid_utf8 message = true →
  ∃ parts tail open, reads message parts tail open ∧
    redact_quoted message = Some (render_redacted parts.*1 (tail ++ marker open)).
Proof.
  intros Hv. destruct (reads_total message) as (parts & tail & open & Hm).
  exists parts, tail, open. split; [done|]. by apply (redact_reads []).
Qed.

(** ** The position *)

Lemma newlines_app a b : newlines (a ++ b) = newlines a + newlines b.
Proof. unfold newlines. by rewrite List.filter_app, length_app. Qed.

Lemma chars_count_app a b : chars_count (a ++ b) = chars_count a + chars_count b.
Proof. unfold chars_count. by rewrite List.filter_app, length_app. Qed.

Lemma newlines_zero l : newlines l = 0 ↔ NEWLINE ∉ l.
Proof.
  unfold newlines. induction l as [|x l IH]; cbn [List.filter]; [set_solver|].
  case_bool_decide; cbn; set_solver.
Qed.

Definition last_line (before : bytes) : bytes :=
  match rsplit_once NEWLINE before with Some (_, tail) => tail | None => before end.

Lemma last_line_app a b : NEWLINE ∉ b → last_line (a ++ b) = last_line a ++ b.
Proof.
  intros Hb. unfold last_line. destruct (rsplit_once NEWLINE a) as [[c t]|] eqn:E.
  - apply rsplit_once_exact in E as [-> Ht].
    assert (rsplit_once NEWLINE ((c ++ NEWLINE :: t) ++ b) = Some (c, t ++ b)) as ->; [|done].
    apply rsplit_once_exact. rewrite <- app_assoc. split; [done|set_solver].
  - apply rsplit_once_none in E.
    by rewrite (proj2 (rsplit_once_none NEWLINE (a ++ b))) by set_solver.
Qed.

Lemma line_and_column_some text o p :
  line_and_column text o = Some p ↔
  is_char_boundary text o = true ∧
  p = (newlines (take o text) + 1, chars_count (last_line (take o text)) + 1).
Proof.
  unfold line_and_column, str_to, last_line. destruct (is_char_boundary text o); cbn; naive_solver.
Qed.

Lemma position_increases text o o' p :
  valid_utf8 text = true →
  line_and_column text o = Some p → line_and_column text o' = Some p → ¬ o < o'.
Proof.
  intros Hv [Hb ->]%line_and_column_some [Hb' Heq]%line_and_column_some Hlt.
  assert (o' ≤ length text) as Hle.
  { unfold is_char_boundary in Hb'. rewrite !orb_true_iff, !Nat.eqb_eq in Hb'.
    destruct Hb' as [[?|?]|Hc]; [lia|lia|]. destruct (text !! o') eqn:E; [|done].
    apply lookup_lt_Some in E. lia. }
  set (d := take (o' - o) (drop o text)).
  assert (take o' text = take o text ++ d) as Hd.
  { unfold d. replace o' with (o + (o' - o)) at 1 by lia. by rewrite take_take_drop. }
  rewrite Hd, newlines_app in Heq. injection Heq as Hn Hc.
  assert (NEWLINE ∉ d) as Hnl by (apply newlines_zero; lia).
  rewrite last_line_app, chars_count_app in Hc by done.
  destruct (text !! o) as [x|] eqn:Ex; [|apply lookup_ge_None in Ex; lia].
  unfold d in Hc. rewrite (drop_S _ _ _ Ex) in Hc.
  destruct (o' - o) as [|k] eqn:Ek; [lia|]. cbn [take] in Hc. unfold chars_count at 3 in Hc.
  cbn [List.filter] in Hc. destruct (continuation x) eqn:Ec; [|cbn in Hc; lia].
  unfold is_char_boundary in Hb. rewrite Ex, Ec, !orb_true_iff, !Nat.eqb_eq in Hb.
  destruct Hb as [[->|?]|?]; [|lia|done].
  destruct text as [|y text]; [done|]. injection Ex as ->. by rewrite (valid_head _ _ Hv) in Ec.
Qed.

(** The position names one place: no two offsets of a text have the same line and
    column. *)
Theorem position_unique text o o' p :
  valid_utf8 text = true →
  line_and_column text o = Some p → line_and_column text o' = Some p → o = o'.
Proof.
  intros Hv H1 H2. destruct (lt_eq_lt_dec o o') as [[Hlt|]|Hlt]; [exfalso|done|exfalso].
  - by apply (position_increases text o o' p).
  - by apply (position_increases text o' o p).
Qed.

(** C36: the report of a parse failure, whatever the file and whatever the parser says
    of it. It always comes, it names the file, and the only position it names is the
    parser's, one that no other offset of the text has. Of the message it holds the plain
    text between the segments the scan reads it as, and a marker for each: two texts with
    messages that differ inside segments only are reported alike. A value the message
    spells between double quotes as [{:?}] does is hidden whole, whatever it is; one it
    displays between backticks is hidden whole exactly when it has no backtick of its
    own. *)
Theorem parse_error_hides path text message span :
  valid_utf8 text = true → valid_utf8 message = true →
  (∃ parts tail open r, reads message parts tail open ∧
     parse_error path text message span = Some r ∧ failed_path r = path ∧
     failed_message r = render_redacted parts.*1 (tail ++ marker open) ∧
     (∀ at_, failed_at r = Some at_ → ∃ o, span = Some o ∧
        ∀ o', line_and_column text o' = Some at_ ↔ o' = o) ∧
     (∀ text' message' parts' open',
        valid_utf8 message' = true → reads message' parts' tail open' → parts'.*1 = parts.*1 →
        marker open' = marker open →
        (span ≫= line_and_column text') = (span ≫= line_and_column text) →
        parse_error path text' message' span = Some r)) ∧
  (∀ plain value rest, plain_text plain → plain_text rest →
     message = plain ++ DQUOTE :: debug_escape value ++ DQUOTE :: rest →
     redact_quoted message = Some (plain ++ REDACTED ++ rest)) ∧
  (∀ plain value rest, plain_text plain → plain_text rest →
     message = plain ++ BACKTICK :: value ++ BACKTICK :: rest →
     redact_quoted message = Some (plain ++ REDACTED ++ rest) ↔ (BACKTICK ∉ value)).
Proof.
  intros Htext Hv. split; [|split].
  - destruct (reads_total message) as (parts & tail & open & Hm). unfold parse_error, redact_quoted.
    rewrite (redact_reads [] _ _ _ _ Hv Hm). cbn [mbind option_bind app].
    exists parts, tail, open. eexists. split; [done|]. split; [done|].
    cbn [failed_at failed_path failed_message]. split_and!; [done|done| |].
    + intros at_ Hat. destruct span as [o|]; [|done]. exists o. split; [done|]. intros o'.
      split; [|by intros ->]. intros H. by apply (position_unique text o' o at_).
    + intros text' message' parts' open' Hv' Hm' Hparts Hopen Hspan.
      rewrite (redact_reads [] _ _ _ _ Hv' Hm'). cbn [mbind option_bind app].
      rewrite Hparts, Hopen. by destruct span; cbn in *; rewrite ?Hspan.
  - intros plain value rest Hp Hr ->. unfold redact_quoted.
    rewrite (redact_reads [] _ [(plain, Debugged (debug_escape value))] rest []).
    + cbn. by rewrite app_nil_r.
    + done.
    + split_and!; [by cbn; rewrite app_nil_r|repeat constructor; [done|apply debug_escaped]|done|by left].
  - intros plain value rest Hp Hr ->. by apply displayed_hidden.
Qed.

(** A key of the file that serde does not know, displayed between backticks: the part past the
    backtick in it is in the report. *)
Example unknown_field_shown :
  redact_quoted (lit "unknown field `a`hunter2`, expected a user") =
    Some (lit "unknown field " ++ REDACTED ++ lit "hunter2" ++ REDACTED).
Proof. by vm_compute. Qed.

#[local] Definition wrong_type : bytes :=
  lit "invalid type: string " ++ DQUOTE :: debug_escape [DQUOTE; BACKSLASH; BACKTICK] ++ DQUOTE :: lit ", expected x".

Lemma redact_quoted_exact_witness :
  ∃ parts tail open, reads wrong_type parts tail open ∧
    redact_quoted wrong_type = Some (render_redacted parts.*1 (tail ++ marker open)).
Proof. apply (redact_quoted_exact wrong_type). by vm_compute. Defined.

Lemma parse_error_hides_witness :
  (∃ r, parse_error (lit "masque.toml") (lit "users = 1") wrong_type (Some 8) = Some r ∧
     failed_at r = Some (1, 9)) ∧
  redact_quoted wrong_type = Some (lit "invalid type: string " ++ REDACTED ++ lit ", expected x").
Proof.
  destruct (parse_error_hides (lit "masque.toml") (lit "users = 1") wrong_type (Some 8))
    as ((parts & tail & open & r & _ & H & _) & Hd & _).
  - vm_compute. reflexivity.
  - vm_compute. reflexivity.
  - split.
    + exists r. split; [exact H|]. vm_compute in H. injection H as <-. reflexivity.
    + apply (Hd _ [DQUOTE; BACKSLASH; BACKTICK]).
      * by apply (bool_decide_unpack _).
      * by apply (bool_decide_unpack _).
      * reflexivity.
Defined.
