(* ===== verification/ConfigFacts.v ===== *)
(** * What a validated configuration guarantees

    The checks of [Config::validate] are shown to accept exactly the well-formed
    configurations, and what the rest of the program relies on is derived from that:
    users told apart by their names, host names the gate can match, and a
    configuration nobody is warned about that is not an open proxy. *)

From S2P Require Import Prelude Utf8 Message RequestStream RequestFacts Logfmt Policy Auth Gate GateFacts Target Net Context Config.

#[local] Open Scope Z_scope.

(** ** Sequences of checks *)

Lemma bail_if_ok b e : bail_if b e = Ok tt ↔ b = false.
Proof. destruct b; cbn; naive_solver. Qed.

Lemma seq_ok {E} (a b : result unit E) :
  result_bind a (λ _, b) = Ok tt ↔ a = Ok tt ∧ b = Ok tt.
Proof. destruct a as [[]|]; cbn; naive_solver. Qed.

Lemma check_each_ok {A} (body : list A → A → result unit ConfigError) before rest :
  check_each body before rest = Ok tt ↔
  ∀ l1 x l2, rest = l1 ++ x :: l2 → body (before ++ l1) x = Ok tt.
Proof.
  revert before. induction rest as [|y rest IH]; intros before; cbn [check_each].
  { split; [|done]. intros _ [|? ?] x l2; discriminate. }
  rewrite seq_ok, IH. split.
  - intros [Hy Hrest] [|z l1] x l2 [= -> Heq]; [by rewrite app_nil_r|].
    specialize (Hrest _ _ _ Heq). by rewrite <- app_assoc in Hrest.
  - intros H. split; [specialize (H [] y rest eq_refl); by rewrite app_nil_r in H|].
    intros l1 x l2 ->. rewrite <- app_assoc. by apply (H (y :: l1) x l2).
Qed.

(** The same for a body that does not look back. *)
Lemma check_each_forall {A} (body : list A → A → result unit ConfigError) (P : A → Prop) l :
  (∀ before x, body before x = Ok tt ↔ P x) → check_each body [] l = Ok tt ↔ Forall P l.
Proof.
  intros Hb. rewrite check_each_ok, Forall_forall. split.
  - intros H x (l1 & l2 & ->)%list_elem_of_split. by apply (Hb ([] ++ l1)), (H l1 x l2).
  - intros H l1 x l2 ->. apply Hb, H. set_solver.
Qed.

Lemma position_nowhere {A} (p : A → bool) l : position p l = None ↔ ∀ x, x ∈ l → p x = false.
Proof.
  induction l as [|y l IH]; cbn [position]; [split; [set_solver|done]|].
  destruct (p y) eqn:Ey.
  - split; [done|]. intros H. specialize (H y). rewrite H in Ey by set_solver. done.
  - destruct (position p l); cbn; [|set_solver].
    split; [done|]. intros H. exfalso. assert (Some n = None) by (apply IH; set_solver). done.
Qed.

Lemma existsb_nowhere {A} (p : A → bool) l : existsb p l = false ↔ Forall (λ x, p x = false) l.
Proof.
  rewrite Forall_forall. induction l as [|y l IH]; cbn [existsb]; [set_solver|].
  rewrite orb_false_iff, IH. set_solver.
Qed.

(** ** No IPv6 literal without a colon *)

Lemma read_digits_suffix radix bound m l acc n v k rest :
  read_digits radix bound m l acc n = Some (v, k, rest) → rest `suffix_of` l.
Proof.
  revert l acc n. induction m as [|m IH]; intros [|x l] acc n; cbn [read_digits];
    repeat case_match; intros Hrd; simplify_eq; try by exists [].
  apply IH in Hrd as [p ->]. by exists (x :: p).
Qed.

Lemma read_number_suffix radix bound m z l v rest :
  read_number radix bound m z l = Some (v, rest) → rest `suffix_of` l.
Proof.
  unfold read_number. destruct (read_digits _ _ _ _ _ _) as [[[v' k] r]|] eqn:E; [|done].
  repeat case_match; intros; simplify_eq; by eapply read_digits_suffix.
Qed.

Lemma read_given_suffix c l rest : read_given_char c l = Some rest → c ∈ l ∧ rest `suffix_of` l.
Proof.
  destruct l as [|x l]; cbn; [done|]. case_bool_decide; [|done]. intros [= <-]. subst.
  split; [by left|by exists [c]].
Qed.

Lemma read_groups_no_colon_later limit i groups l :
  i ≠ 0%nat → COLON6 ∉ l → read_groups limit i groups l = (groups, false, l).
Proof.
  intros Hi Hl. destruct limit as [|limit]; [done|]. cbn [read_groups]. unfold read_separator.
  destruct (Nat.eqb_spec i 0); [done|].
  assert (read_given_char COLON6 l = None) as ->; [|by destruct limit].
  destruct (read_given_char COLON6 l) eqn:E; [|done]. by apply read_given_suffix in E as [? _].
Qed.

Lemma no_colon_no_ipv6 l : COLON6 ∉ l → is_ipv6_literal l = false.
Proof.
  intros Hl. unfold is_ipv6_literal, read_ipv6.
  change (read_groups 8 0 [] l) with
    (match read_ipv4 l with
     | Some (a, rest) =>
         ([u8 (o0 a) * 256 + u8 (o1 a); u8 (o2 a) * 256 + u8 (o3 a)], true, rest)
     | None => match read_number 16 65536 4 true l with
               | Some (group, rest) => read_groups 7 1 [group] rest
               | None => ([], false, l)
               end
     end).
  assert (∀ r, COLON6 ∉ r → read_given_char COLON6 r = None) as Hno.
  { intros r Hr. destruct (read_given_char COLON6 r) eqn:E; [|done]. by apply read_given_suffix in E as [? _]. }
  destruct (read_ipv4 l) as [[a rest]|]; [done|].
  destruct (read_number 16 65536 4 true l) as [[g rest]|] eqn:E; [|cbn [length Nat.eqb]; by rewrite Hno].
  assert (COLON6 ∉ rest) as Hr.
  { apply read_number_suffix in E as [p ->]. set_solver. }
  rewrite read_groups_no_colon_later by done. cbn [length Nat.eqb]. by rewrite Hno.
Qed.

(** ** Well-formed configurations *)

(** The widths of the fields. *)
Record typed (c : Config) : Prop := {
  typed_grace : is_uint 64 (shutdown_grace (server c));
  typed_udp : is_uint 64 (udp_session_timeout (limits c));
  typed_targets : is_uint 32 (max_targets_per_conn (limits c));
  typed_connections : is_uint 32 (max_connections (limits c));
  typed_connect : is_uint 64 (connect_timeout (limits c));
  typed_streams : is_uint 32 (max_streams_bidi (limits c));
  typed_idle : is_uint 64 (max_idle_timeout (limits c));
  typed_keep : is_uint 64 (keep_alive_interval (limits c));
  typed_mtu : is_uint 16 (initial_mtu (limits c));
  typed_bound b : mtu_upper_bound (limits c) = Some b → is_uint 16 b;
  typed_rtt : is_uint 64 (initial_rtt_ms (limits c));
  typed_budget : is_uint 32 (unanswered_packet_budget (security c));
  typed_failures : is_uint 32 (max_auth_failures (security c));
  typed_names : Forall (λ u, valid_utf8 (username u) = true) (users c);
}.

Record valid_limits (l : Limits) : Prop := {
  valid_udp : 1 ≤ udp_session_timeout l ≤ 3600;
  valid_connect : connect_timeout l ≤ 3600;
  valid_targets : 1 ≤ max_targets_per_conn l ≤ 65536;
  valid_streams : 1 ≤ max_streams_bidi l ≤ 65536;
  valid_idle : 1 ≤ max_idle_timeout l ≤ 3600;
  valid_keep : keep_alive_interval l = 0 ∨ 2 * keep_alive_interval l < max_idle_timeout l;
  valid_mtu : 1200 ≤ initial_mtu l ≤ 1452;
  valid_bound b : mtu_upper_bound l = Some b → initial_mtu l ≤ b ≤ 1472;
  valid_rtt : 10 ≤ initial_rtt_ms l ≤ 10000;
}.

Definition valid_user (u : User) : Prop :=
  username u ≠ [] ∧ (Auth.COLON ∉ username u) ∧ (length (username u) ≤ 32)%nat ∧ password u ≠ [].

(** A host name as a ClientHello can carry it, a final dot aside. *)
Definition dns_name (name : bytes) : Prop :=
  let bare := root_relative name in
  1 ≤ blen bare ≤ 253 ∧ Forall (λ x, host_byte x = true) bare ∧
  Forall (λ label, label ≠ []) (split DOT bare) ∧ is_ipv4_literal bare = false.

Lemma validate_limits_ok c :
  typed c → validate_limits (limits c) = Ok tt ↔ valid_limits (limits c).
Proof.
  intros [Hg Hu Ht Hn Hc Hs Hi Hk Hm Hb Hr _ _ _]. unfold is_uint in *.
  assert (∀ b, match b with
    | Some x => result_bind (bail_if (x <? initial_mtu (limits c))
                  (MtuBoundBelowInitial x (initial_mtu (limits c))))
                  (λ _, bail_if (MAX_MTU_UPPER_BOUND <? x) (MtuBoundTooLarge x))
    | None => Ok tt end = Ok tt ↔ ∀ x, b = Some x → initial_mtu (limits c) ≤ x ≤ 1472) as Hbound.
  { intros [x|]; [|naive_solver]. rewrite seq_ok, !bail_if_ok, !Z.ltb_ge.
    unfold MAX_MTU_UPPER_BOUND. split; [intros ? y [= <-]; lia|]. intros H. specialize (H x eq_refl). lia. }
  unfold validate_limits. rewrite !seq_ok, Hbound, !bail_if_ok. cbn [INITIAL_RTT_RANGE_MS fst snd].
  unfold MAX_IDLE_TIMEOUT_CEILING, MAX_TARGETS_PER_CONN_CEILING, MAX_STREAMS_BIDI_CEILING,
    MAX_TARGETS_PER_CONN_CEILING, MIN_INITIAL_MTU, MAX_INITIAL_MTU.
  rewrite !orb_false_iff, !andb_false_iff, !negb_false_iff, !andb_true_iff, !Z.eqb_neq, !Z.ltb_ge, !Z.leb_gt, !Z.leb_le.
  assert (keep_alive_interval (limits c) < div_ceil (max_idle_timeout (limits c)) 2 ↔
          2 * keep_alive_interval (limits c) < max_idle_timeout (limits c)) as Hceil.
  { unfold div_ceil. case_match; div_lia. }
  rewrite Hceil. split; [|intros []; split_and!; auto; lia].
  intros (? & ? & ? & ? & ? & ? & ? & ? & ? & ? & ? & ?). split; auto; lia.
Qed.

Lemma validate_users_ok l :
  check_each validate_user [] l = Ok tt ↔ Forall valid_user l ∧ NoDup (map username l).
Proof.
  assert (∀ before u, validate_user before u = Ok tt ↔
    valid_user u ∧ username u ∉ map username before) as Hu.
  { intros before u. unfold validate_user, valid_user. rewrite !seq_ok, !bail_if_ok, !bool_decide_eq_false, Nat.ltb_ge.
    unfold MAX_TOKEN. destruct (position _ before) as [n|] eqn:E.
    - split; [by intros (_ & _ & _ & _ & ?)|]. intros [_ Hn]. exfalso.
      rewrite (proj2 (position_nowhere _ before)) in E; [done|].
      intros o Ho. apply bool_decide_eq_false. intros Heq. apply Hn. rewrite <- Heq.
      apply list_elem_of_fmap. eauto.
    - rewrite position_nowhere in E. split; [|naive_solver]. intros (? & ? & ? & ? & _). split; [done|].
      intros (o & Heq & Ho)%list_elem_of_fmap. specialize (E o Ho).
      by apply bool_decide_eq_false in E. }
  rewrite check_each_ok. setoid_rewrite Hu. cbn [app]. clear Hu.
  induction l as [|u l IH] using rev_ind.
  { split; [intros _; split; constructor|]. intros _ [|? ?] ? ?; discriminate. }
  rewrite Forall_app, Forall_singleton, map_app, NoDup_app. cbn [map]. split.
  - intros H. destruct IH as [IH _]. destruct IH as [Hl Hn].
    { intros l1 x l2 ->. apply (H l1 x (l2 ++ [u])). by rewrite <- app_assoc. }
    destruct (H l u [] eq_refl) as [Hu Hnin]. split_and!; [done|done|done| |apply NoDup_singleton].
    intros x Hx ->%list_elem_of_singleton. done.
  - intros [[Hl Hu] (Hn & Hd & _)] l1 x l2 Heq.
    destruct l2 as [|y l2' _] using rev_ind.
    + apply app_inj_tail in Heq as [-> ->]. split; [done|].
      intros Hin. apply (Hd _ Hin). by left.
    + rewrite app_comm_cons, app_assoc in Heq. apply app_inj_tail in Heq as [-> ->].
      destruct IH as [_ IH]. by apply (IH (conj Hl Hn) l1 x l2').
Qed.

Lemma host_byte_plain x : host_byte x = true → x ≠ STAR ∧ x ≠ COLON6 ∧ u8 x < 128.
Proof.
  intros H. assert (implb (host_byte x) (negb (bool_decide (x = STAR)) && negb (bool_decide (x = COLON6))
    && (u8 x <? 128)) = true) as Ht by (clear H; octet_test x).
  rewrite H in Ht. cbn [implb] in Ht. rewrite !andb_true_iff, !negb_true_iff, !bool_decide_eq_false, Z.ltb_lt in Ht.
  naive_solver.
Qed.

Lemma validate_sni_ok i name : validate_expected_sni i name = Ok tt ↔ dns_name name.
Proof.
  unfold validate_expected_sni, dns_name. set (bare := root_relative name).
  rewrite !seq_ok, !bail_if_ok, !existsb_nowhere, orb_false_iff, !bool_decide_eq_false, Z.ltb_ge.
  unfold MAX_EXPECTED_SNI.
  assert (Forall (λ label, bool_decide (label = []) = false) (split DOT bare) ↔
          Forall (λ label, label ≠ []) (split DOT bare)) as ->.
  { apply Forall_iff. intros label. apply bool_decide_eq_false. }
  assert (Forall (λ x, negb (host_byte x) = false) bare ↔ Forall (λ x, host_byte x = true) bare) as ->.
  { apply Forall_iff. intros x. apply negb_false_iff. }
  assert (bare ≠ [] ↔ 1 ≤ blen bare) as ->.
  { unfold blen. destruct bare; cbn [length]; split; try done; lia. }
  split; [naive_solver|]. intros ([? ?] & Hh & Hl & H4). rewrite Forall_forall in Hh.
  split_and!; [done|done|done| |by apply Forall_forall|done|].
  - intros Hs. by destruct (host_byte_plain _ (Hh _ Hs)).
  - apply no_colon_no_ipv6. intros Hc. by destruct (host_byte_plain _ (Hh _ Hc)) as (_ & ? & _).
Qed.

Lemma validate_alpn_ok before id : validate_alpn_id before id = Ok tt ↔ 1 ≤ blen id ≤ 255.
Proof.
  unfold validate_alpn_id. rewrite seq_ok, !bail_if_ok, bool_decide_eq_false, Z.ltb_ge.
  unfold blen. destruct id; cbn [length].
  - split; [by intros []|lia].
  - split; [intros [_ ?]; lia|split; [done|lia]].
Qed.

Section Facts.
Context (filter_ok is_file : bytes → bool).
#[local] Abbreviation validate := (validate filter_ok is_file).

Definition valid_level (level : bytes) : Prop :=
  if existsb filter_syntax level then filter_ok level = true
  else ∃ l, l ∈ LOG_LEVELS ∧ eq_ignore_ascii_case level l = true.

Lemma validate_level_ok level : validate_log_level filter_ok level = Ok tt ↔ valid_level level.
Proof.
  unfold validate_log_level, valid_level. case_match; rewrite bail_if_ok, negb_false_iff; [done|].
  rewrite existsb_exists. by setoid_rewrite list_elem_of_In.
Qed.

Record valid_config (c : Config) : Prop := {
  valid_log : valid_level (level (log c));
  valid_alpn : alpn (server c) ≠ [] ∧ Forall (λ id, 1 ≤ blen id ≤ 255) (alpn (server c));
  valid_grace : shutdown_grace (server c) ≤ 3600;
  valid_ranges : valid_limits (limits c);
  valid_users : Forall valid_user (users c) ∧ NoDup (map username (users c));
  valid_ports : 0 ∉ denied_ports (security c);
  valid_sni : Forall dns_name (expected_sni (security c));
  valid_files : is_file (cert (server c)) = true ∧ is_file (key (server c)) = true;
}.

Lemma validate_ok c : typed c → validate c = Ok tt ↔ valid_config c.
Proof.
  intros Ht. unfold Config.validate.
  rewrite !seq_ok, validate_level_ok, (validate_limits_ok c Ht), validate_users_ok, !bail_if_ok,
    bool_decide_eq_false, Z.ltb_ge, !negb_false_iff.
  rewrite (check_each_forall _ _ _ validate_alpn_ok).
  rewrite (check_each_forall _ _ _ (λ before, validate_sni_ok (length before))).
  unfold MAX_SHUTDOWN_GRACE, MAX_IDLE_TIMEOUT_CEILING.
  assert (match position (λ port, port =? 0) (denied_ports (security c)) with
          | Some i => Err (DeniedPortZero i) | None => Ok tt end = Ok tt ↔
          0 ∉ denied_ports (security c)) as ->.
  { destruct (position _ _) eqn:E.
    - split; [done|]. intros Hn. exfalso. rewrite (proj2 (position_nowhere _ _)) in E; [done|].
      intros x Hx. apply Z.eqb_neq. by intros ->.
    - rewrite position_nowhere in E. split; [|done]. intros _ H0. by specialize (E 0 H0). }
  split; [by intros (? & ? & ? & ? & ? & ? & ? & ? & ? & ?)|].
  intros [? [] ? ? [] ? ? []]. split_and!; done.
Qed.

(** ** Users *)

Lemma same_name_same_user (l : list User) u u' :
  NoDup (map username l) → u ∈ l → u' ∈ l → username u = username u' → u = u'.
Proof.
  induction l as [|x l IH]; [set_solver|]. cbn [map]. rewrite NoDup_cons, !elem_of_cons.
  intros [Hx Hn] [->|Hu] [->|Hu'] Heq; [done| | |by apply IH].
  - destruct Hx. rewrite Heq. apply list_elem_of_fmap. eauto.
  - destruct Hx. rewrite <- Heq. apply list_elem_of_fmap. eauto.
Qed.

Lemma is_configured_user (l : list User) u : u ∈ l → is_configured (auth_new l) (username u) = true.
Proof.
  assert (∀ acc, foldl (λ configured user, configured || bool_decide (username user = username u)) acc l =
                 acc || existsb (λ user, bool_decide (username user = username u)) l) as H.
  { induction l as [|x l IH]; intros acc; cbn [foldl existsb]; [by rewrite orb_false_r|].
    by rewrite IH, orb_assoc. }
  intros Hu. unfold is_configured, auth_new. rewrite H. cbn [orb]. apply existsb_exists.
  exists u. split; [by apply list_elem_of_In|by apply bool_decide_eq_true].
Qed.

Lemma bounded_bytes_short name :
  valid_utf8 name = true → (length name ≤ MAX_TOKEN)%nat → bounded_bytes name = name.
Proof.
  intros Hv Hl. unfold bounded_bytes. rewrite (proj2 (Nat.leb_le _ _) Hl). by apply lossy_valid.
Qed.

Lemma verify_none (l : list User) n p : mkUser n p ∉ l → verify l n p = None.
Proof.
  intros Hn. destruct (verify l n p) as [u|] eqn:E; [|done].
  apply verify_spec in E as [_ Hin]. contradiction.
Qed.

Lemma check_presented (l : list User) v n p :
  presents v n p → check l v = ok_or (verify l n p) (Rejected (bounded_bytes n)).
Proof.
  intros (token & Hv & Ht & Hd & Hn). unfold check, to_str, from_utf8. rewrite Hv. cbn [ok_or result_bind].
  rewrite Ht. cbn [result_bind]. rewrite Hd. cbn [ok_or result_bind].
  by rewrite split_at_byte_app by done.
Qed.

(** ** Host names *)

Lemma split_final x a : ∃ init, init ≠ [] ∧ split x (a ++ [x]) = init ++ [[]].
Proof.
  induction a as [|y a (init & Hi & IH)]; cbn [app split].
  { exists [[]]. split; [done|]. by rewrite bool_decide_eq_true_2. }
  case_bool_decide.
  - exists ([] :: init). split; [done|]. by rewrite IH.
  - destruct init as [|p init]; [done|]. rewrite IH. cbn [app]. exists ((y :: p) :: init). done.
Qed.

Lemma root_relative_plain l : last l ≠ Some DOT → root_relative l = l.
Proof. unfold root_relative. change DOT with Byte.x2e. intros H. repeat case_match; congruence. Qed.

Lemma labels_no_final_dot l : Forall (λ label, label ≠ []) (split DOT l) → last l ≠ Some DOT.
Proof.
  intros Hl (l' & ->)%last_Some. destruct (split_final DOT l') as (init & _ & Heq).
  rewrite Heq in Hl. apply Forall_app in Hl as [_ Hl]. rewrite Forall_singleton in Hl. by apply Hl.
Qed.

Lemma lowercase_dot x : to_ascii_lowercase x = DOT → x = DOT.
Proof. by destruct x. Qed.

(** ** Properties *)

(** C19: validation accepts exactly the well-formed configurations: a log level or a
    filter; ALPN identifiers that fit their length byte; every timeout in its range
    and a keep-alive below half the idle timeout; MTUs QUIC can start at; users with
    distinct names free of colons that fit a log token; no port zero; and host names
    a ClientHello can carry. *)
Theorem validate_exact c : typed c → validate c = Ok tt ↔ valid_config c.
Proof. apply validate_ok. Qed.

(** The users of a validated configuration are told apart. Each has one password:
    a request that presents the name passes with it and is refused with any other; the
    refusal is counted under that very name, and authenticating as the user then
    leaves the counts as if the failure had not been. *)
Theorem validated_users c u v pass failures :
  typed c → validate c = Ok tt → u ∈ users c → presents v (username u) pass →
  check (auth_new (users c)) v =
    (if bool_decide (pass = password u) then Ok (username u) else Err (Rejected (username u))) ∧
  forgive (Some (username u)) (count_failure (auth_new (users c)) (Some (username u)) failures) =
    forgive (Some (username u)) failures.
Proof.
  intros Ht Hok Hu Hp. apply validate_ok in Hok as []; [|done].
  destruct valid_users0 as [Hall Hnd]. rewrite Forall_forall in Hall. destruct (Hall u Hu) as (_ & _ & Hlen & _).
  pose proof (typed_names c Ht) as Hutf. rewrite Forall_forall in Hutf. split.
  - unfold auth_new. rewrite (check_presented _ _ _ _ Hp).
    rewrite bounded_bytes_short by (by auto || (unfold MAX_TOKEN; lia)). case_bool_decide as Hpass.
    + subst. rewrite (proj2 (verify_spec _ _ _ (username u))); [done|]. by destruct u.
    + rewrite verify_none; [done|]. intros Hin.
      apply Hpass. change (password (mkUser (username u) pass) = password u). f_equal.
      by apply (same_name_same_user (users c)).
  - unfold count_failure. rewrite is_configured_user by done. unfold forgive. cbn [configured unconfigured].
    f_equal. apply delete_insert_eq.
Qed.

(** Every host name of a validated configuration can be asked for: written without
    its final dot it is ASCII, short enough for a ClientHello, carries no final dot
    of its own, and the gate set up with the configuration lets it through in any
    mix of cases. *)
Theorem validated_names_reachable c name asked :
  typed c → validate c = Ok tt → name ∈ expected_sni (security c) →
  eq_ignore_ascii_case asked (root_relative name) = true →
  accepts (names_new (expected_sni (security c))) asked = true ∧
  root_relative (root_relative name) = root_relative name ∧
  Forall (λ x, u8 x < 128) (root_relative name) ∧ 1 ≤ blen (root_relative name) ≤ 253.
Proof.
  intros Ht Hok Hin Heq. apply validate_ok in Hok as []; [|done].
  rewrite Forall_forall in valid_sni0. destruct (valid_sni0 name Hin) as (Hlen & Hbytes & Hlabels & _).
  apply labels_no_final_dot in Hlabels. apply bool_decide_eq_true in Heq. split_and!; [|by apply root_relative_plain| |lia|lia].
  - apply accepts_exact. exists name. split; [done|]. unfold normalise. rewrite (root_relative_plain asked); [done|].
    intros Hlast. apply Hlabels. apply (f_equal last) in Heq.
    assert (∀ l, last (map to_ascii_lowercase l) = to_ascii_lowercase <$> last l) as Hmap
      by (intros l; apply fmap_last).
    rewrite !Hmap, Hlast in Heq. cbn in Heq.
    destruct (last (root_relative name)) as [x|]; [|done]. injection Heq as Heq.
    f_equal. by apply lowercase_dot.
  - eapply Forall_impl; [exact Hbytes|]. intros x Hx. by apply host_byte_plain.
Qed.

(** ** A configuration without warnings *)

Lemma warn_if_nil b w : warn_if b w = [] ↔ b = false.
Proof. destruct b; cbn; naive_solver. Qed.

Lemma indices_from_nil {A} (p : A → bool) i l : indices_from p i l = [] ↔ ∀ x, x ∈ l → p x = false.
Proof.
  revert i. induction l as [|y l IH]; intros i; cbn [indices_from]; [set_solver|].
  destruct (p y) eqn:Ey; cbn [app].
  - split; [done|]. intros H. specialize (H y). rewrite Ey in H. discriminate H. by left.
  - rewrite IH. set_solver.
Qed.

Lemma app_nil_iff {A} (l1 l2 : list A) : l1 ++ l2 = [] ↔ l1 = [] ∧ l2 = [].
Proof. apply app_nil. Qed.

Section Quiet.
Context {Cert : Type} (load_certs : bytes → option (list Cert))
  (names_not_covered : Cert → list bytes → list bytes).

(** C7: a configuration that validates and draws no warning protects. Nobody passes
    without the password of a configured user, which is not the one published with
    the source; no address of a private or special-purpose network can be dialled,
    however it is spelled; and the bounds on guesses, on unanswered packets, on
    connections and on the time to reach a target are all in force. *)
Theorem quiet_config_protects c :
  typed c → validate c = Ok tt → warnings load_certs names_not_covered c = [] →
  let s := settings_of c in
  (∀ fields user, authenticate (auth_new (cfg_users s)) fields = Ok user →
     ∃ u v, user = Some (username u) ∧ u ∈ users c ∧ v ∈ credentials fields ∧
       presents v (username u) (password u) ∧ password u ≠ EXAMPLE_PLACEHOLDER_PASSWORD) ∧
  (∀ ip, allows_address (cfg_policy s) ip = true → registry_allows (mkPolicy false []) ip = true) ∧
  0 < cfg_max_auth_failures s ≤ u32_max ∧ 0 < cfg_unanswered_packet_budget s ≤ u32_max ∧
  0 < max_connections (limits c) ∧
  ∃ b, cfg_connect_timeout s = Some b ∧ 0 < b ≤ from_secs 3600.
Proof.
  intros Ht Hok Hw. apply validate_ok in Hok; [|done]. unfold warnings in Hw. cbv zeta in Hw.
  rewrite !app_nil_iff, !warn_if_nil, andb_false_iff, !negb_false_iff, !Z.eqb_neq, !bool_decide_eq_false,
    !bool_decide_eq_true, indices_from_nil in Hw.
  destruct Hw as (Husers & Hplace & _ & _ & _ & Hprivate & _ & Hconns & Hguess & _ & _ & _ & _ & Hbudget & Hconnect).
  destruct Ht. unfold is_uint, u32_max in *. cbv zeta. cbn [settings_of cfg_users cfg_policy
    cfg_max_auth_failures cfg_unanswered_packet_budget cfg_connect_timeout].
  split_and!; try lia; [| |destruct Hguess; [lia|done]|].
  - intros fields user. unfold authenticate, is_disabled, auth_new.
    rewrite bool_decide_eq_false_2 by done. pose proof (try_values_spec (users c) (credentials fields) None) as Hv.
    intros Heq. rewrite Heq in Hv. destruct user as [n|]; [|done].
    destruct Hv as (pre & v & post & Hcred & Hcheck & _). apply check_spec in Hcheck as (pass & Hp & Hin).
    exists (mkUser n pass), v. split_and!; [done|done|rewrite Hcred; set_solver|done|].
    specialize (Hplace _ Hin). by apply bool_decide_eq_false in Hplace.
  - intros ip. rewrite allows_registry. unfold registry_allows, policy_new. by rewrite Hprivate.
  - unfold connect_timeout_duration. rewrite (proj2 (Z.eqb_neq _ _) Hconnect). eexists. split; [done|].
    pose proof (valid_connect _ (valid_ranges _ Hok)). unfold from_secs. lia.
Qed.
End Quiet.
End Facts.

(** ** Witnesses *)

#[local] Definition example_config : Config :=
  {| server := {| listen := mkSocketAddr (V4 (mk4 (as_u8 0) (as_u8 0) (as_u8 0) (as_u8 0))) 443;
                  cert := lit "cert.pem"; key := lit "key.pem"; alpn := default_alpn;
                  shutdown_grace := default_shutdown_grace |};
     users := [mkUser (lit "user1") (lit "pa:ss"); mkUser (lit "user2") (lit "word")];
     limits := limits_default;
     security := mkSecurity false DEFAULT_DENIED_PORTS DEFAULT_UNANSWERED_PACKET_BUDGET
                   DEFAULT_MAX_AUTH_FAILURES [lit "Proxy.example.org."];
     log := log_default |}.

#[local] Lemma example_typed : typed example_config.
Proof.
  split; try (unfold is_uint; vm_compute; by split).
  repeat constructor.
Qed.

Lemma validate_exact_witness :
  validate (λ _, true) (λ _, true) example_config = Ok tt ∧
  valid_config (λ _, true) (λ _, true) example_config.
Proof.
  split; [vm_compute; reflexivity|].
  apply (validate_exact (λ _, true) (λ _, true) example_config example_typed).
  vm_compute. reflexivity.
Defined.

Lemma validated_users_witness :
  check (auth_new (users example_config)) (basic_header (lit "Basic") (lit "user1") (lit "no")) =
    Err (Rejected (lit "user1")).
Proof.
  apply (validated_users (λ _, true) (λ _, true) example_config (mkUser (lit "user1") (lit "pa:ss"))
    (basic_header (lit "Basic") (lit "user1") (lit "no")) (lit "no") auth_failures_default example_typed).
  - vm_compute. reflexivity.
  - by left.
  - apply basic_header_presents; [reflexivity|]. apply (bool_decide_unpack _). vm_compute. reflexivity.
Defined.

Lemma validated_names_reachable_witness :
  accepts (names_new (expected_sni (security example_config))) (lit "proxy.EXAMPLE.org") = true.
Proof.
  apply (validated_names_reachable (λ _, true) (λ _, true) example_config (lit "Proxy.example.org.")
    (lit "proxy.EXAMPLE.org") example_typed).
  - vm_compute. reflexivity.
  - by left.
  - vm_compute. reflexivity.
Defined.

Lemma quiet_config_protects_witness :
  0 < cfg_max_auth_failures (settings_of example_config) ≤ u32_max.
Proof.
  apply (quiet_config_protects (λ _, true) (λ _, true) (Cert := unit) (λ _, Some [tt]) (λ _ _, [])
    example_config example_typed).
  - vm_compute. reflexivity.
  - vm_compute. reflexivity.
Defined.
