(* ===== verification/Shutdown.v ===== *)
(** * The shutdown signal (src/src/shutdown.rs, quic/mod.rs)

    A one-way latch over a watch channel: any clone of the trigger fires it, any
    number of tasks wait on it.  [fired] is a loop of two suspension points; each
    task is where it is in that loop, and the steps of all tasks, of the triggers and
    of cancellation interleave as they like.  Then the drain the latch starts, and
    the time the whole shutdown may take; durations are nanoseconds. *)

From S2P Require Import Prelude Tokio Config.

#[local] Open Scope nat_scope.

(** ** The latch *)

(** A task in [Shutdown::fired]: before [borrow_and_update], suspended in
    [changed().await], suspended for good, or returned. *)
Inductive Waiter := Checks | Awaits | Pending | Returned.

Section Latch.
Context {W : Type} `{!Watch W}.

(** [shutdown::channel], [Trigger::fire] and [Shutdown::is_fired]. *)
Definition channel : W := watch_channel false.
Definition trigger_fire (w : W) : W := watch_send true w.
Definition is_fired (w : W) : bool := watch_value w.

(** Receiver [i] runs to its next suspension point, or to the top of the loop. *)
Definition poll_fired (i : nat) (t : Waiter) (w : W) : W * Waiter :=
  match t with
  | Checks => (watch_mark_seen i w, if watch_value w then Returned else Awaits)
  | Awaits =>
      if watch_unseen w i then (watch_mark_seen i w, Checks)
      else if watch_closed w then (w, Pending)
      else (w, Awaits)
  | Pending => (w, Pending)
  | Returned => (w, Returned)
  end.

(** The tasks, by the receiver each owns. A [select!] that another branch wins drops
    the future, and the next turn calls [fired] afresh. *)
Inductive latch_step : W * list Waiter → W * list Waiter → Prop :=
  | latch_fires w ts : watch_closed w = false → latch_step (w, ts) (trigger_fire w, ts)
  | latch_triggers_dropped w ts : latch_step (w, ts) (watch_drop_senders w, ts)
  | latch_polls w ts i t :
      ts !! i = Some t →
      latch_step (w, ts) ((poll_fired i t w).1, <[i := (poll_fired i t w).2]> ts)
  | latch_cancels w ts i t : ts !! i = Some t → latch_step (w, ts) (w, <[i := Checks]> ts)
  | latch_clones w ts i t :
      ts !! i = Some t → latch_step (w, ts) (watch_clone i (length ts) w, ts ++ [Checks]).

Definition latch_reachable : W * list Waiter → Prop := rtc latch_step (channel, [Checks]).

(** ** Its invariant *)

Definition waiter_ok (w : W) (i : nat) (t : Waiter) : Prop :=
  match t with
  | Checks => True
  | Awaits => watch_value w = true → watch_unseen w i = true
  | Pending => watch_closed w = true ∧ watch_value w = false
  | Returned => watch_value w = true
  end.

Definition latch_ok (s : W * list Waiter) : Prop :=
  ∀ i t, s.2 !! i = Some t → waiter_ok s.1 i t.

(** A step of one waiter keeps what the others rely on. *)
Lemma waiter_ok_mark w i j t : i ≠ j → waiter_ok w j t → waiter_ok (watch_mark_seen i w) j t.
Proof.
  intros Hij. destruct (mark_seen_law i w) as (Hv & Hc & Hu). unfold waiter_ok. rewrite Hv, Hc, Hu.
  destruct (Nat.eqb_spec j i); [congruence|]. by destruct t.
Qed.

Lemma poll_ok w i t :
  waiter_ok w i t → waiter_ok (poll_fired i t w).1 i (poll_fired i t w).2 ∧
  watch_value (poll_fired i t w).1 = watch_value w ∧
  ∀ j t', i ≠ j → waiter_ok w j t' → waiter_ok (poll_fired i t w).1 j t'.
Proof.
  intros Ht. destruct (mark_seen_law i w) as (Hv & Hc & Hu).
  destruct t; cbn [poll_fired].
  - split_and!; cbn [fst snd]; [|done|by intros; apply waiter_ok_mark].
    destruct (watch_value w) eqn:E; cbn; rewrite Hv, ?E; done.
  - destruct (watch_unseen w i) eqn:Eu.
    + split_and!; cbn [fst snd]; [done|done|by intros; apply waiter_ok_mark].
    + destruct (watch_closed w) eqn:Ec; cbn [fst snd]; split_and!; try done.
      cbn in Ht |- *. split; [done|]. destruct (watch_value w); [|done]. by rewrite Ht in Eu.
  - done.
  - done.
Qed.

Lemma latch_step_ok s s' : latch_ok s → latch_step s s' → latch_ok s'.
Proof.
  intros Hok Hstep. unfold latch_ok in *.
  destruct Hstep as [w ts Hopen|w ts|w ts i t Ht|w ts i t Ht|w ts i t Ht]; cbn [fst snd] in *; intros j t' Hj.
  - specialize (Hok j t' Hj). destruct (send_law true w) as (Hv & Hc & Hu).
    unfold trigger_fire, waiter_ok in *. rewrite Hv, Hc, Hu. destruct t'; try done. naive_solver congruence.
  - specialize (Hok j t' Hj). destruct (drop_senders_law w) as (Hv & Hc & Hu).
    unfold waiter_ok in *. rewrite Hv, Hc, Hu. destruct t'; try done. naive_solver.
  - destruct (poll_ok w i t (Hok i t Ht)) as (Hi & _ & Hrest).
    destruct (decide (i = j)) as [->|Hij].
    + rewrite list_lookup_insert_eq in Hj by (by eapply lookup_lt_Some). by injection Hj as <-.
    + rewrite list_lookup_insert_ne in Hj by done. auto.
  - destruct (decide (i = j)) as [->|Hij].
    + rewrite list_lookup_insert_eq in Hj by (by eapply lookup_lt_Some). by injection Hj as <-.
    + rewrite list_lookup_insert_ne in Hj by done. auto.
  - destruct (clone_law i (length ts) w) as (Hv & Hc & Hu).
    apply lookup_app_Some in Hj as [Hj|[Hge Hj]].
    + pose proof (lookup_lt_Some _ _ _ Hj). specialize (Hok j t' Hj). unfold waiter_ok in *.
      rewrite Hv, Hc, Hu. destruct (Nat.eqb_spec j (length ts)); [lia|]. done.
    + apply list_lookup_singleton_Some in Hj as [_ <-]. done.
Qed.

Lemma latch_invariant s : latch_reachable s → latch_ok s.
Proof.
  intros H. assert (latch_ok (channel, [Checks])) as H0.
  { intros i t Hi. apply list_lookup_singleton_Some in Hi as [_ <-]. done. }
  revert H0. unfold latch_reachable in H. induction H as [|s s' s'' Hs _ IH]; [done|].
  intros Hok. by eapply IH, latch_step_ok.
Qed.

Lemma latch_step_value s s' : latch_step s s' → watch_value s.1 = true → watch_value s'.1 = true.
Proof.
  intros [w ts|w ts|w ts i t|w ts i t|w ts i t]; cbn [fst]; intros Hv; try done.
  - by destruct (send_law true w).
  - by destruct (drop_senders_law w) as (-> & _).
  - destruct t; cbn; try done; [by destruct (mark_seen_law i w) as (-> & _)|].
    repeat case_match; cbn; try done. by destruct (mark_seen_law i w) as (-> & _).
  - by destruct (clone_law i (length ts) w) as (-> & _).
Qed.

Lemma latch_value_stays s s' :
  rtc latch_step s s' → watch_value s.1 = true → watch_value s'.1 = true.
Proof. induction 1 as [|s s' s'' Hs _ IH]; [done|]. intros Hv. by eapply IH, latch_step_value. Qed.

(** C18: the latch. However triggers, waiting tasks, cancelled waits and clones
    interleave: a wait returns only once the shutdown has been asked for; once it has,
    it stays so, every task waiting then or later returns within two polls, however it
    was suspended, and nothing waits forever; and a task waits forever only when
    every trigger is gone and none has fired. *)
Theorem shutdown_latch w ts i t :
  latch_reachable (w, ts) → ts !! i = Some t →
  (t = Returned → is_fired w = true) ∧
  (t = Pending → watch_closed w = true ∧ is_fired w = false) ∧
  (is_fired w = true →
     (∀ s', rtc latch_step (w, ts) s' → is_fired s'.1 = true) ∧
     let (w1, t1) := poll_fired i t w in (poll_fired i t1 w1).2 = Returned).
Proof.
  intros Hr Ht. pose proof (latch_invariant _ Hr i t Ht) as Hok. cbn [fst] in Hok. unfold is_fired.
  split_and!.
  - by intros ->.
  - by intros ->.
  - intros Hv. split.
    { intros s' Hs. by apply (latch_value_stays (w, ts)). }
    destruct (mark_seen_law i w) as (Hmv & _ & _).
    destruct t; cbn [poll_fired waiter_ok] in *; [by rewrite Hv| |destruct Hok; congruence|done].
    rewrite (Hok Hv). cbn. by rewrite Hmv, Hv.
Qed.
End Latch.

#[local] Instance flag_latch : Watch FlagWatch := flag_watch.

Lemma shutdown_latch_witness :
  is_fired (trigger_fire channel) = true ∧ (poll_fired 0 Checks (trigger_fire channel)).2 = Returned.
Proof.
  destruct (shutdown_latch (trigger_fire channel) [Checks] 0 Checks) as (_ & _ & H).
  - eapply rtc_l; [|apply rtc_refl]. constructor. reflexivity.
  - reflexivity.
  - split; [reflexivity|]. destruct (H eq_refl) as [_ H']. exact H'.
Defined.

(** ** The drain and the exit *)

#[local] Open Scope Z_scope.

Definition CLOSE_FLUSH_TIMEOUT : Z := from_secs 1.
Definition EXIT_SLACK : Z := from_secs 1.

(** [Duration::MAX] and [Duration::saturating_add]. *)
Definition DURATION_MAX : Z := (2 ^ 64 - 1) * 10 ^ 9 + 999999999.
Definition duration_saturating_add (a b : Z) : Z := Z.min (a + b) DURATION_MAX.

Definition blocking_grace (grace : Z) : Z :=
  duration_saturating_add (duration_saturating_add grace CLOSE_FLUSH_TIMEOUT) EXIT_SLACK.

(** [tokio::time::timeout(limit, future)] for a future that would take so long, or
    never ends: what it took, and whether the future finished. *)
Definition timeout (limit : Z) (ends : option Z) : Z * bool :=
  match ends with
  | Some t => if t <=? limit then (t, true) else (limit, false)
  | None => (limit, false)
  end.

(** [while connections.join_next().await.is_some() {}]: the last of them. *)
Fixpoint all_joined (ends : list (option Z)) : option Z :=
  match ends with
  | [] => Some 0
  | e :: ends => t ← e; t' ← all_joined ends; Some (Z.max t t')
  end.

Inductive DrainEffect := StopListening | CloseEndpoint (code : Z) (reason : string).

(** [Server::drain]: [ends] is how long each connection's task would still take,
    [flush] how long the endpoint needs to be idle after the close. *)
Definition drain (grace : Z) (ends : list (option Z)) (flush : option Z)
    : Z * bool * list DrainEffect :=
  let '(waited, drained) := timeout grace (all_joined ends) in
  let '(flushed, _) := timeout CLOSE_FLUSH_TIMEOUT flush in
  (waited + flushed, drained, [StopListening; CloseEndpoint 0 "server shutting down"]).

(** [stop_runtime]: [Runtime::shutdown_timeout] over the blocking tasks still running. *)
Definition stop_runtime (grace : Z) (blocking : list (option Z)) : Z :=
  (timeout (blocking_grace grace) (all_joined blocking)).1.

Lemma timeout_bound limit ends :
  0 ≤ limit → (∀ t, ends = Some t → 0 ≤ t) → 0 ≤ (timeout limit ends).1 ≤ limit.
Proof.
  intros Hl He. destruct ends as [t|]; cbn; [|lia]. specialize (He t eq_refl).
  destruct (Z.leb_spec t limit); cbn; lia.
Qed.

Lemma all_joined_nonneg ends t :
  Forall (λ e, ∀ t, e = Some t → 0 ≤ t) ends → all_joined ends = Some t → 0 ≤ t.
Proof.
  intros H. revert t. induction H as [|e ends He _ IH]; intros t; cbn; [intros [= <-]; lia|].
  destruct e as [x|]; [|done]. cbn. destruct (all_joined ends) as [y|]; [|done]. cbn. intros [= <-].
  specialize (He x eq_refl). lia.
Qed.

Lemma all_joined_within ends limit :
  0 ≤ limit →
  (timeout limit (all_joined ends)).2 = true ↔ Forall (λ e, ∃ t, e = Some t ∧ t ≤ limit) ends.
Proof.
  intros Hl. assert ((timeout limit (all_joined ends)).2 = true ↔
    ∃ t, all_joined ends = Some t ∧ t ≤ limit) as ->.
  { destruct (all_joined ends) as [t|]; cbn; [|naive_solver].
    destruct (Z.leb_spec t limit); cbn; naive_solver lia. }
  induction ends as [|e ends IH]; cbn [all_joined]; [split; [constructor|eauto]|].
  rewrite Forall_cons, <- IH. destruct e as [x|]; cbn; [|naive_solver].
  destruct (all_joined ends) as [y|]; cbn; [|naive_solver].
  split; [intros (t & [= <-] & ?); split; eexists; (split; [done|lia])|].
  intros [(? & [= <-] & ?) (? & [= <-] & ?)]. eexists. split; [done|lia].
Qed.

(** C33: a shutdown is bounded. Whatever the connections and the resolver threads do, the
    drain under a grace period that validation accepts stops the listener, closes the endpoint and is
    over within the grace period and a second; every connection is over by then exactly
    when the drain says so; the blocking tasks get the connections' whole allowance and a
    second on top, no sum saturates, and the process is gone after twice the grace
    period and three seconds. *)
Theorem shutdown_bounded grace ends flush blocking :
  0 ≤ grace ≤ MAX_SHUTDOWN_GRACE →
  Forall (λ e, ∀ t, e = Some t → 0 ≤ t) ends → (∀ t, flush = Some t → 0 ≤ t) →
  Forall (λ e, ∀ t, e = Some t → 0 ≤ t) blocking →
  let g := from_secs grace in
  ∃ t drained,
    drain g ends flush = (t, drained, [StopListening; CloseEndpoint 0 "server shutting down"]) ∧
    0 ≤ t ≤ g + from_secs 1 ∧
    (drained = true ↔ Forall (λ e, ∃ t, e = Some t ∧ t ≤ g) ends) ∧
    blocking_grace g = g + from_secs 2 ∧
    t + stop_runtime g blocking ≤ 2 * g + from_secs 3 ∧ 2 * g + from_secs 3 ≤ from_secs 7203.
Proof.
  intros Hg He Hf Hb. cbv zeta. set (g := from_secs grace).
  assert (0 ≤ g ≤ from_secs 3600) as Hgr.
  { unfold g, from_secs, MAX_SHUTDOWN_GRACE, MAX_IDLE_TIMEOUT_CEILING in *. lia. }
  assert (blocking_grace g = g + from_secs 2) as Hbg.
  { unfold blocking_grace, duration_saturating_add, CLOSE_FLUSH_TIMEOUT, EXIT_SLACK, DURATION_MAX, from_secs in *. lia. }
  pose proof (timeout_bound g (all_joined ends) ltac:(lia) (λ t, all_joined_nonneg ends t He)) as Hw.
  pose proof (timeout_bound CLOSE_FLUSH_TIMEOUT flush ltac:(unfold CLOSE_FLUSH_TIMEOUT, from_secs; lia) Hf) as Hfl.
  pose proof (all_joined_within ends g ltac:(lia)) as Hd. unfold drain.
  destruct (timeout g (all_joined ends)) as [waited drained] eqn:Ew.
  destruct (timeout CLOSE_FLUSH_TIMEOUT flush) as [flushed b] eqn:Ef. cbn [fst snd] in *.
  exists (waited + flushed), drained. unfold stop_runtime.
  pose proof (timeout_bound (blocking_grace g) (all_joined blocking)) as Hs. rewrite Hbg in Hs |- *.
  unfold CLOSE_FLUSH_TIMEOUT, from_secs in *.
  specialize (Hs ltac:(lia) (λ t, all_joined_nonneg blocking t Hb)). split_and!; try done; lia.
Qed.

Lemma shutdown_bounded_witness :
  ∃ t drained, drain (from_secs 5) [Some 1; None] None =
    (t, drained, [StopListening; CloseEndpoint 0 "server shutting down"]) ∧ t ≤ from_secs 6.
Proof.
  destruct (shutdown_bounded 5 [Some 1; None] None [None]) as (t & drained & H & Ht & _).
  - unfold MAX_SHUTDOWN_GRACE, MAX_IDLE_TIMEOUT_CEILING. lia.
  - repeat constructor; intros t [= <-]; lia.
  - intros t [=].
  - repeat constructor; intros t [=].
  - exists t, drained. split; [exact H|]. unfold from_secs in *. lia.
Defined.
