(* ===== verification/Tls.v ===== *)
(** * TLS settings (src/src/tls.rs)

    The decisions of the TLS set-up: which certificate resolver is installed, the
    second check of the server name it makes, and the names an operator is told the
    certificate does not cover.  Reading and parsing PEM files, building a certified
    key and verifying a name against a certificate are rustls's: parameters. *)

From S2P Require Import Prelude Policy Gate Config.

#[local] Open Scope Z_scope.

(** What the files hold, at one moment of the file system, and the name check of a
    client. *)
Class Pki := {
  Disk : Type;
  Certificate : Type;
  PrivateKey : Type;
  CertifiedKey : Type;
  ParsedCertificate : Type;
  ServerName : Type;
  read_certs : Disk → bytes → option (list Certificate);
  read_key : Disk → bytes → option PrivateKey;
  from_der : list Certificate → PrivateKey → option CertifiedKey;
  parse_certificate : Certificate → option ParsedCertificate;
  server_name_of : bytes → option ServerName;
  verify_server_name : ParsedCertificate → ServerName → bool;
}.

Section Tls.
Context `{!Pki}.

Inductive TlsError := CertUnreadable | CertEmpty | KeyUnreadable | UnusablePair.

Definition load_certs (disk : Disk) (path : bytes) : result (list Certificate) TlsError :=
  let? certs := ok_or (read_certs disk path) CertUnreadable in
  match certs with [] => Err CertEmpty | _ => Ok certs end.

Definition load_key (disk : Disk) (path : bytes) : result PrivateKey TlsError :=
  ok_or (read_key disk path) KeyUnreadable.

(** [with_single_cert], or [OneOfTheseNames]. *)
Inductive Resolver := SingleCert (key : CertifiedKey) | OneOfTheseNames (names : Names) (key : CertifiedKey).

Record ServerCrypto := mkServerCrypto {
  cert_resolver : Resolver;
  max_early_data_size : Z;
  alpn_protocols : list bytes;
  key_log : bool;
}.

(** [ResolvesServerCert::resolve]: the key to present, if any. *)
Definition resolve (r : Resolver) (server_name : option bytes) : option CertifiedKey :=
  match r with
  | SingleCert key => Some key
  | OneOfTheseNames names key =>
      name ← server_name;
      if accepts names name then Some key else None
  end.

Definition server_crypto (disk : Disk) (c : Config) : result ServerCrypto TlsError :=
  let? certs := load_certs disk (cert (server c)) in
  let? key := load_key disk (key (server c)) in
  let names := names_new (expected_sni (security c)) in
  let? certified := ok_or (from_der certs key) UnusablePair in
  let resolver := if names_is_empty names then SingleCert certified
                  else OneOfTheseNames names certified in
  Ok (mkServerCrypto resolver 0 (alpn_wire (server c)) (keylog (log c))).

Definition not_covered (parsed : ParsedCertificate) (name : bytes) : bool :=
  match server_name_of (root_relative name) with
  | Some server_name => negb (verify_server_name parsed server_name)
  | None => true
  end.

Definition names_not_covered (cert : Certificate) (names : list bytes) : list bytes :=
  match parse_certificate cert with
  | Some parsed => List.filter (not_covered parsed) names
  | None => []
  end.

(** The second name check agrees with the gate at the socket. Where a list is
    configured, the certificate is presented to a client exactly when it names a host
    that the gate set up with the same configuration accepts, so a handshake whose
    hello the gate could not read whole is stopped here and no other; where none
    is, to everybody. Early data is off either way. *)
Theorem resolver_agrees_with_gate disk c crypto name :
  server_crypto disk c = Ok crypto →
  max_early_data_size crypto = 0 ∧
  (is_Some (resolve (cert_resolver crypto) name) ↔
     (expected_any (expected_new (names_new (expected_sni (security c)))) = true →
        ∃ n, name = Some n ∧
          accepts (expected_current (expected_new (names_new (expected_sni (security c))))) n = true)).
Proof.
  unfold server_crypto. intros Hc.
  apply result_bind_ok in Hc as (certs & _ & Hc). apply result_bind_ok in Hc as (k & _ & Hc).
  cbv zeta in Hc. apply result_bind_ok in Hc as (certified & _ & Hc). injection Hc as <-.
  split; [done|]. cbn [cert_resolver]. unfold expected_any, expected_current, expected_new. cbn [held_any held_names].
  destruct (names_is_empty _) eqn:E; cbn [negb resolve].
  - split; [done|]. by eexists.
  - destruct name as [n|]; cbn [mbind option_bind].
    + destruct (accepts _ n) eqn:Ea; [split; by eauto|]. split; [intros [? [=]]|].
      intros Hn. destruct (Hn eq_refl) as (? & [= <-] & ?). congruence.
    + split; [by intros [? [=]]|]. intros Hn. by destruct (Hn eq_refl) as (? & ? & _).
Qed.
End Tls.

#[local] Instance example_pki : Pki :=
  {| Disk := unit; Certificate := unit; PrivateKey := unit; CertifiedKey := unit; ParsedCertificate := unit;
     ServerName := bytes; read_certs _ _ := Some [tt]; read_key _ _ := Some tt; from_der _ _ := Some tt;
     parse_certificate _ := Some tt; server_name_of := Some; verify_server_name _ _ := true |}.

#[local] Definition example_disk : Disk := tt.

#[local] Definition named_config : Config :=
  {| server := mkServer (mkSocketAddr (V4 (mk4 (as_u8 0) (as_u8 0) (as_u8 0) (as_u8 0))) 443)
                 (lit "cert.pem") (lit "key.pem") default_alpn default_shutdown_grace;
     users := []; limits := limits_default;
     security := mkSecurity false [] 64 5 [lit "a.example"]; log := log_default |}.

Lemma resolver_agrees_with_gate_witness :
  ∃ crypto, server_crypto example_disk named_config = Ok crypto ∧ max_early_data_size crypto = 0.
Proof.
  eexists. split; [reflexivity|].
  apply (resolver_agrees_with_gate example_disk named_config _ (Some (lit "A.example."))). reflexivity.
Defined.
