(* ===== verification/Endpoint.v ===== *)
(** * The QUIC endpoint's settings (src/src/quic/transport.rs, quic/socket.rs)

    The transport parameters a connection is accepted with, the controller it runs, the
    descriptors the limits ask for and the socket buffers requested of the kernel.
    quinn's conversion of a duration into an idle timeout and the kernel's answers are
    interfaces; a transport configuration is the record of what the setters were given. *)

From S2P Require Import Prelude Policy Auth Context Config ConfigFacts.

#[local] Open Scope Z_scope.

(** ** Transport parameters *)

Definition CONNECTION_RECEIVE_WINDOW : Z := 16 * 1024 * 1024.
Definition STREAM_RECEIVE_WINDOW : Z := 2 * 1024 * 1024.
Definition SEND_WINDOW : Z := 10000000.
Definition DATAGRAM_RECEIVE_BUFFER : Z := 1250000.
Definition CRYPTO_BUFFER_SIZE : Z := 16 * 1024.
Definition MAX_PEER_UNI_STREAMS : Z := 16.

(** The assertions the source makes at compile time. *)
Example window_assertions :
  (64 * 1024 <=? STREAM_RECEIVE_WINDOW) && (STREAM_RECEIVE_WINDOW <=? CONNECTION_RECEIVE_WINDOW / 8)
  && (STREAM_RECEIVE_WINDOW <? 4 * 1024 * 1024) && (STREAM_RECEIVE_WINDOW <=? SEND_WINDOW) = true.
Proof. reflexivity. Qed.

(** The factories of quinn and of [congestion.rs]. *)
Inductive ControllerFactory := BbrCappedConfig | QuinnBbr | QuinnCubic | QuinnNewReno.

Definition congestion_factory (cc : CongestionControl) : ControllerFactory :=
  match cc with
  | Bbr => BbrCappedConfig
  | BbrUncapped => QuinnBbr
  | Cubic => QuinnCubic
  | NewReno => QuinnNewReno
  end.

Record TransportConfig := mkTransport {
  max_concurrent_bidi_streams : Z;
  max_concurrent_uni_streams : Z;
  receive_window : Z;
  stream_receive_window : Z;
  send_window : Z;
  datagram_receive_buffer_size : option Z;
  crypto_buffer_size : Z;
  transport_idle_timeout : Z;
  transport_keep_alive : option Z;
  transport_initial_rtt : Z;
  transport_initial_mtu : Z;
  mtu_discovery_upper_bound : option Z;
  controller : ControllerFactory;
}.

(** [IdleTimeout::try_from]: whole milliseconds, if they fit a QUIC varint. *)
Class IdleTimeout := {
  idle_timeout_try_from : Z → option Z;
  idle_timeout_law d :
    0 ≤ d → idle_timeout_try_from d = if d / 10 ^ 6 <? 2 ^ 62 then Some (d / 10 ^ 6) else None;
}.

Section Transport.
Context `{!IdleTimeout}.

Definition transport_config (l : Limits) : option TransportConfig :=
  idle ← idle_timeout_try_from (max_idle_timeout_duration l);
  Some {| max_concurrent_bidi_streams := initial_bidi_streams (max_streams_bidi l);
          max_concurrent_uni_streams := MAX_PEER_UNI_STREAMS;
          receive_window := CONNECTION_RECEIVE_WINDOW;
          stream_receive_window := STREAM_RECEIVE_WINDOW;
          send_window := SEND_WINDOW;
          datagram_receive_buffer_size := Some DATAGRAM_RECEIVE_BUFFER;
          crypto_buffer_size := CRYPTO_BUFFER_SIZE;
          transport_idle_timeout := idle;
          transport_keep_alive := keep_alive_interval_duration l;
          transport_initial_rtt := initial_rtt l;
          transport_initial_mtu := initial_mtu l;
          mtu_discovery_upper_bound :=
            if mtu_discovery l then Some (mtu_upper_bound_in_effect l) else None;
          controller := congestion_factory (congestion_control l) |}.

(** What quinn requires of the parameters it is handed, and what the limits promise. *)
Record transport_ok (l : Limits) (t : TransportConfig) : Prop := {
  ok_bidi : 1 ≤ max_concurrent_bidi_streams t ≤ Z.min 16 (max_streams_bidi l);
  ok_idle : transport_idle_timeout t = 1000 * max_idle_timeout l ∧
            0 < transport_idle_timeout t ≤ 3600000;
  ok_keep k : transport_keep_alive t = Some k →
              0 < k ∧ 2 * k < transport_idle_timeout t * 10 ^ 6;
  ok_rtt : from_millis 10 ≤ transport_initial_rtt t ≤ from_millis 10000;
  ok_mtu : 1200 ≤ transport_initial_mtu t ≤ 1452;
  ok_bound b : mtu_discovery_upper_bound t = Some b → transport_initial_mtu t ≤ b ≤ 1472;
  ok_window : max_concurrent_bidi_streams t * stream_receive_window t ≤ 2 * receive_window t;
}.

Lemma transport_config_ok filter_ok is_file c :
  typed c → validate filter_ok is_file c = Ok tt →
  ∃ t, transport_config (limits c) = Some t ∧ transport_ok (limits c) t.
Proof.
  intros Ht Hok. apply validate_ok in Hok; [|done]. pose proof (valid_ranges _ _ _ Hok) as [].
  destruct Ht. set (l := limits c) in *. unfold is_uint in *.
  unfold transport_config, max_idle_timeout_duration, from_secs. rewrite idle_timeout_law by lia.
  assert (max_idle_timeout l * 10 ^ 9 / 10 ^ 6 = 1000 * max_idle_timeout l) as -> by div_lia.
  rewrite (proj2 (Z.ltb_lt _ _)) by lia. cbn [mbind option_bind]. eexists. split; [done|]. split;
    cbn [max_concurrent_bidi_streams transport_idle_timeout transport_keep_alive transport_initial_rtt
         transport_initial_mtu mtu_discovery_upper_bound receive_window stream_receive_window].
  - unfold initial_bidi_streams, INITIAL_BIDI_STREAMS. lia.
  - lia.
  - intros k. unfold keep_alive_interval_duration, from_secs. destruct (Z.eqb_spec (keep_alive_interval l) 0); [done|].
    intros [= <-]. lia.
  - unfold initial_rtt, from_millis. lia.
  - lia.
  - intros b. destruct (mtu_discovery l); [|done]. intros [= <-].
    unfold mtu_upper_bound_in_effect, DEFAULT_MTU_UPPER_BOUND.
    destruct (mtu_upper_bound l) as [x|] eqn:E; cbn [default]; [by apply valid_bound|lia].
  - unfold initial_bidi_streams, INITIAL_BIDI_STREAMS, STREAM_RECEIVE_WINDOW, CONNECTION_RECEIVE_WINDOW. lia.
Qed.

(** C35: the transport parameters of a validated configuration are well typed. They can
    always be built; a connection starts on at least one and at most sixteen streams,
    never more than configured; the idle timeout is the configured one and a keep-alive
    fits twice into it; the packet size starts where QUIC can and is never probed below
    its start or past what a link carries; and even with every stream of a connection
    that has proved nothing full, flow control admits at most the connection's window
    twice over. *)
Theorem transport_typed filter_ok is_file c :
  typed c → validate filter_ok is_file c = Ok tt →
  ∃ t, transport_config (limits c) = Some t ∧ transport_ok (limits c) t.
Proof. apply transport_config_ok. Qed.
End Transport.

#[local] Instance documented_idle_timeout : IdleTimeout :=
  {| idle_timeout_try_from d := if d / 10 ^ 6 <? 2 ^ 62 then Some (d / 10 ^ 6) else None;
     idle_timeout_law _ _ := eq_refl |}.

Lemma transport_typed_witness :
  ∃ t, transport_config (limits ConfigFacts.example_config) = Some t ∧
    transport_ok (limits ConfigFacts.example_config) t.
Proof.
  apply (transport_typed (λ _, true) (λ _, true) ConfigFacts.example_config ConfigFacts.example_typed).
  vm_compute. reflexivity.
Defined.

(** ** The descriptor budget (quic/socket.rs) *)

Definition FD_HEADROOM : Z := 64.

(** The sums are of 64 bits. *)
Definition fd_budget (max_connections max_targets_per_conn : Z) : Z :=
  wrap 64 (wrap 64 (Z.max max_connections 1 * max_targets_per_conn) + FD_HEADROOM).

Definition fd_budget_is_tight (limit max_connections max_targets_per_conn : Z) : bool :=
  limit <? fd_budget max_connections max_targets_per_conn.

(** The descriptor check is exact. Its arithmetic never wraps, whatever the two
    32-bit limits are; and it is silent exactly when the process may open a descriptor
    for every tunnel of every connection it admits, one connection's worth where their
    number is not limited, and 64 more. *)
Theorem fd_budget_exact limit max_connections max_targets_per_conn :
  is_uint 32 max_connections → is_uint 32 max_targets_per_conn →
  (fd_budget_is_tight limit max_connections max_targets_per_conn = false ↔
   ∀ connections tunnels : Z,
     0 ≤ connections → connections ≤ max_connections ∨ (max_connections = 0 ∧ connections = 1) →
     0 ≤ tunnels ≤ connections * max_targets_per_conn → tunnels + 64 ≤ limit).
Proof.
  unfold is_uint. intros Hc Ht.
  assert (fd_budget max_connections max_targets_per_conn =
          Z.max max_connections 1 * max_targets_per_conn + 64) as Hb.
  { unfold fd_budget, FD_HEADROOM.
    assert (0 ≤ Z.max max_connections 1 * max_targets_per_conn ≤ (2 ^ 32 - 1) * (2 ^ 32 - 1)) as Hp.
    { split; [nia|]. apply Z.mul_le_mono_nonneg; lia. }
    rewrite (wrap_id 64 (Z.max _ _ * _)) by (unfold is_uint; lia).
    apply wrap_id. unfold is_uint. lia. }
  unfold fd_budget_is_tight. rewrite Hb, Z.ltb_ge. split.
  - intros Hl connections tunnels H0 Hcap Htun.
    assert (connections * max_targets_per_conn ≤ Z.max max_connections 1 * max_targets_per_conn); [|lia].
    apply Z.mul_le_mono_nonneg_r; lia.
  - intros H. apply (H (Z.max max_connections 1)); [lia|lia|].
    split; [|lia]. apply Z.mul_nonneg_nonneg; lia.
Qed.

Lemma fd_budget_exact_witness :
  ∀ tunnels : Z, 0 ≤ tunnels ≤ 256 * 256 → tunnels + 64 ≤ 65600.
Proof.
  intros tunnels H. destruct (fd_budget_exact 65600 256 256) as [Hx _]; [unfold is_uint; lia..|].
  apply (Hx eq_refl 256 tunnels); lia.
Defined.

(** ** Socket buffers (quic/socket.rs) *)

Inductive SocketBuffer := Recv | Send.

Definition buffer_key (which : SocketBuffer) : string :=
  match which with Recv => "limits.socket_recv_buffer" | Send => "limits.socket_send_buffer" end.
Definition ceiling_sysctl (which : SocketBuffer) : string :=
  match which with Recv => "net.core.rmem_max" | Send => "net.core.wmem_max" end.

(** What is logged at warning level. *)
Inductive BufferWarning := BufferRefused (key : string) | BufferCapped (key : string) (granted : Z).

Definition socket_buffer_was_capped (requested granted : Z) : bool := granted <? requested.

Section Buffers.
(** [setsockopt], which may refuse and changes the socket when it does not, and
    [getsockopt]. *)
Context {Socket : Type} (set_buffer : SocketBuffer → Z → Socket → option Socket)
  (get_buffer : SocketBuffer → Socket → option Z).

Definition request_socket_buffer (which : SocketBuffer) (requested : Z) (s : Socket)
    : Socket * list BufferWarning * option Z :=
  let '(s, refused, said) :=
    if requested =? 0 then (s, false, [])
    else match set_buffer which requested s with
         | Some s => (s, false, [])
         | None => (s, true, [BufferRefused (buffer_key which)])
         end in
  match get_buffer which s with
  | None => (s, said, None)
  | Some granted =>
      (s, said ++ (if (0 <? requested) && negb refused && socket_buffer_was_capped requested granted
                   then [BufferCapped (buffer_key which) granted] else []), Some granted)
  end.

Record SocketBuffers := mkSocketBuffers { so_rcvbuf : option Z; so_sndbuf : option Z }.

Definition socket_buffers_request (l : Limits) (s : Socket)
    : Socket * list BufferWarning * SocketBuffers :=
  let '(s, w1, recv) := request_socket_buffer Recv (socket_recv_buffer l) s in
  let '(s, w2, send) := request_socket_buffer Send (socket_send_buffer l) s in
  (s, w1 ++ w2, mkSocketBuffers recv send).

(** Asking for buffers never says the same thing twice and never touches a socket it was
    not asked to: each direction draws at most one warning; a refusal leaves the socket
    as it was; zero asks for nothing; and the warning of a shortfall is drawn exactly when
    the request was taken and the kernel reports less. *)
Theorem request_socket_buffer_cases which requested s :
  0 ≤ requested →
  let '(s', said, granted) := request_socket_buffer which requested s in
  granted = get_buffer which s' ∧ (length said ≤ 1)%nat ∧
  (requested = 0 → s' = s ∧ said = []) ∧
  (requested ≠ 0 → match set_buffer which requested s with
    | None => s' = s ∧ said = [BufferRefused (buffer_key which)]
    | Some taken => s' = taken ∧
        (said = [] ↔ ∀ g, granted = Some g → requested ≤ g)
    end).
Proof.
  intros H0. unfold request_socket_buffer.
  destruct (Z.eqb_spec requested 0) as [->|Hr].
  { destruct (get_buffer which s) eqn:E; cbn; naive_solver. }
  rewrite (proj2 (Z.ltb_lt 0 requested)) by lia. cbn [andb].
  destruct (set_buffer which requested s) as [taken|] eqn:Eset; cbn [negb andb].
  - destruct (get_buffer which taken) as [g|] eqn:E.
    + unfold socket_buffer_was_capped. destruct (Z.ltb_spec g requested); cbn [app length];
        (split_and!; [done|cbn; lia|done|]); intros _; (split; [done|]).
      * split; [done|]. intros H'. specialize (H' g eq_refl). lia.
      * split; [|done]. intros _ g' [= <-]. lia.
    + cbn. split_and!; [done|lia|done|]. intros _. split; [done|]. split; [by intros _ g|done].
  - destruct (get_buffer which s) as [g|] eqn:E; cbn; split_and!; try done; lia.
Qed.
End Buffers.
