(* ===== verification/Diagnostics.v ===== *)
(** * The support bundle (src/src/main.rs, net.rs)

    [--diagnostics] prints the configuration as parsed, its warnings, and the limits
    and buffers of the host; [max_open_files] reads the limits of the running service
    out of a /proc file.  What is printed is a list of lines: the values shown, with the
    redaction of the source, and the fixed text only where it tells lines apart.
    What /proc, getrlimit and uname answer is the input. *)

From S2P Require Import Prelude Utf8 Auth Status Target Config.

#[local] Open Scope Z_scope.

(** ** Characters and lines *)

(** The characters of a [str], each as its bytes. *)
Fixpoint chars (l : bytes) : list bytes :=
  match l with
  | [] => []
  | x :: l =>
      match chars l with
      | [] => [[x]]
      | c :: cs => if at_byte continuation c then (x :: c) :: cs else [x] :: c :: cs
      end
  end.

(** [char::is_whitespace]: the White_Space property of Unicode, in UTF-8. *)
Definition is_whitespace (c : bytes) : bool :=
  match map u8 c with
  | [b] => ((9 <=? b) && (b <=? 13)) || (b =? 0x20)
  | [b; b'] => (b =? 0xc2) && ((b' =? 0x85) || (b' =? 0xa0))
  | [b; b'; b''] =>
      ((b =? 0xe1) && (b' =? 0x9a) && (b'' =? 0x80))
      || ((b =? 0xe2) && (b' =? 0x80) &&
          ((b'' <=? 0x8a) || (b'' =? 0xa8) || (b'' =? 0xa9) || (b'' =? 0xaf)))
      || ((b =? 0xe2) && (b' =? 0x81) && (b'' =? 0x9f))
      || ((b =? 0xe3) && (b' =? 0x80) && (b'' =? 0x80))
  | _ => false
  end.

Fixpoint drop_whitespace (cs : list bytes) : list bytes :=
  match cs with
  | c :: cs' => if is_whitespace c then drop_whitespace cs' else cs
  | [] => []
  end.

(** [str::trim]. *)
Definition trim (l : bytes) : bytes :=
  concat (reverse (drop_whitespace (reverse (drop_whitespace (chars l))))).

(** [str::split_whitespace], with the word under way. *)
Definition flush (word : bytes) : list bytes := if bool_decide (word = []) then [] else [word].

Fixpoint words (cs : list bytes) (word : bytes) : list bytes :=
  match cs with
  | [] => flush word
  | c :: cs => if is_whitespace c then flush word ++ words cs [] else words cs (word ++ c)
  end.

Definition split_whitespace (l : bytes) : list bytes := words (chars l) [].

Definition LF : byte := as_u8 0x0a.
Definition CR : byte := as_u8 0x0d.

(** [str::lines]: the last line may lack its newline, and only a line that has one
    loses a carriage return before it. *)
Fixpoint lines_from (l line : bytes) : list bytes :=
  match l with
  | [] => flush line
  | x :: l =>
      if bool_decide (x = LF) then default line (strip_suffix CR line) :: lines_from l []
      else lines_from l (line ++ [x])
  end.

Definition str_lines (l : bytes) : list bytes := lines_from l [].

(** ** The limits of a process (net.rs) *)

Definition ROW : bytes := lit "Max open files".

Definition limit_column (column : bytes) : option (option Z) :=
  if bool_decide (column = lit "unlimited") then Some None
  else match parse_uint 64 column with Some n => Some (Some n) | None => None end.

(** [Iterator::find_map]. *)
Fixpoint find_map {A B} (f : A → option B) (l : list A) : option B :=
  match l with
  | [] => None
  | x :: l => match f x with Some y => Some y | None => find_map f l end
  end.

Definition max_open_files (limits : bytes) : option (option Z * option Z) :=
  row ← find_map (strip_prefix ROW) (str_lines limits);
  if match chars row with c :: _ => is_whitespace c | [] => false end then
    let columns := split_whitespace row in
    soft ← columns !! 0%nat ≫= limit_column;
    hard ← columns !! 1%nat ≫= limit_column;
    Some (soft, hard)
  else None.

(** [u64]'s [Display]: twenty digits are enough. *)
Definition decimal_u64 (n : Z) : bytes := digits 10 20 n [].

Definition or_unlimited (limit : option Z) : bytes :=
  match limit with Some value => decimal_u64 value | None => lit "unlimited" end.

(** ** Reading a row back *)

Lemma chars_head y l : ∃ c cs, chars (y :: l) = (y :: c) :: cs.
Proof. cbn. destruct (chars l) as [|c cs]; [by eexists _, _|]. destruct (at_byte _ c); by eexists _, _. Qed.

Lemma chars_app a b : at_byte continuation b = false → chars (a ++ b) = chars a ++ chars b.
Proof.
  intros Hb. induction a as [|x a IH]; [done|]. cbn [app chars]. rewrite IH.
  destruct (chars a) as [|c cs] eqn:Ea; cbn [app]; [|by destruct (at_byte _ c)].
  destruct b as [|y b]; [done|]. destruct (chars_head y b) as (c & cs & ->). cbn in *. by rewrite Hb.
Qed.

Lemma chars_ascii a : Forall (λ x, continuation x = false) a → chars a = map (λ x, [x]) a.
Proof.
  induction 1 as [|x a Hx Ha IH]; [done|]. cbn. rewrite IH. destruct Ha as [|y a Hy _]; [done|].
  cbn. by rewrite Hy.
Qed.

Lemma flush_word word : word ≠ [] → flush word = [word].
Proof. intros Hne. unfold flush. by rewrite bool_decide_eq_false_2. Qed.

Lemma words_plain a cs word :
  Forall (λ x, is_whitespace [x] = false) a →
  words (map (λ x, [x]) a ++ cs) word = words cs (word ++ a).
Proof.
  intros Ha. revert word. induction Ha as [|x a Hx _ IH]; intros word; [by rewrite app_nil_r|].
  cbn [map app words]. rewrite Hx, IH, <- app_assoc. done.
Qed.

Lemma words_pad n cs word :
  words (map (λ x, [x]) (replicate (S n) SPACE) ++ cs) word = flush word ++ words cs [].
Proof.
  revert word. induction n as [|n IH]; intros word; [done|].
  cbn [replicate map app words]. f_equal. apply (IH []).
Qed.

Lemma lines_from_plain a l line :
  (LF ∉ a) → lines_from (a ++ l) line = lines_from l (line ++ a).
Proof.
  revert line. induction a as [|x a IH]; intros line; [by rewrite app_nil_r|].
  rewrite not_elem_of_cons. intros [Hx Ha]. cbn [app lines_from].
  rewrite bool_decide_eq_false_2 by done. rewrite IH by done. by rewrite <- app_assoc.
Qed.

(** A line of a /proc file: no line break in it. *)
Definition plain_line (l : bytes) : Prop := (LF ∉ l) ∧ (CR ∉ l).

#[export] Instance plain_line_dec l : Decision (plain_line l).
Proof. unfold plain_line. apply _. Defined.

Lemma plain_app a b : plain_line a → plain_line b → plain_line (a ++ b).
Proof. unfold plain_line. rewrite !not_elem_of_app. naive_solver. Qed.

Lemma plain_cons x l : plain_line [x] → plain_line l → plain_line (x :: l).
Proof. apply (plain_app [x]). Qed.

Lemma plain_pad n : plain_line (replicate n SPACE).
Proof.
  induction n as [|n IH]; [by vm_compute; split; intros ?%elem_of_nil|].
  apply plain_cons; [by apply (bool_decide_unpack _)|done].
Qed.

Lemma plain_row : plain_line ROW.
Proof. by apply (bool_decide_unpack _). Qed.

Lemma lines_cons a l : plain_line a → str_lines (a ++ LF :: l) = a :: str_lines l.
Proof.
  intros [Hlf Hcr]. unfold str_lines. rewrite lines_from_plain by done. cbn [lines_from app].
  rewrite bool_decide_eq_true_2 by done. f_equal. unfold strip_suffix.
  destruct (last a) as [y|] eqn:El; [|done]. rewrite bool_decide_eq_false_2; [done|]. intros ->.
  apply last_Some in El as [a' ->]. apply Hcr. set_solver.
Qed.

Lemma lines_last a : plain_line a → a ≠ [] → str_lines a = [a].
Proof.
  intros [Hlf _] Hne. pose proof (lines_from_plain a [] [] Hlf) as E. rewrite app_nil_r in E.
  unfold str_lines. rewrite E. by apply flush_word.
Qed.

(** A value column: visible ASCII. *)
Definition visible (x : byte) : bool := between 0x21 0x7e x.

Lemma visible_column c : Forall (λ x, visible x = true) c →
  Forall (λ x, continuation x = false) c ∧ Forall (λ x, is_whitespace [x] = false) c ∧ plain_line c.
Proof.
  intros Hc. split_and!.
  - eapply Forall_impl; [exact Hc|]. intros x. unfold visible, continuation, between. lia.
  - eapply Forall_impl; [exact Hc|]. intros x. unfold visible, between. cbn. lia.
  - rewrite Forall_forall in Hc. split; intros Hin; apply Hc in Hin; done.
Qed.

Lemma or_unlimited_column limit :
  (∀ n, limit = Some n → is_uint 64 n) →
  or_unlimited limit ≠ [] ∧ Forall (λ x, visible x = true) (or_unlimited limit) ∧
  limit_column (or_unlimited limit) = Some limit.
Proof.
  destruct limit as [n|]; cbn [or_unlimited]; [|intros _; split_and!; [done| |done]; repeat constructor].
  intros Hn. specialize (Hn n eq_refl). unfold is_uint in Hn.
  destruct (digits_decimal 19 n []) as (t & Ht & Hne & Hall & Hv); [cbn; lia|].
  unfold decimal_u64. rewrite Ht, app_nil_r. split; [done|]. split.
  - eapply Forall_impl; [exact Hall|]. intros x. rewrite is_ascii_digit_range.
    unfold visible, between. lia.
  - unfold limit_column. rewrite bool_decide_eq_false_2.
    + rewrite parse_uint_digits by done.
      assert (uint_digits 64 t 0 = Some n) as ->; [|done].
      apply uint_digits_exact; [done|lia|]. split; [exact Hv|lia].
    + intros ->. by apply Forall_cons in Hall as [? _].
Qed.

(** The row as the kernel writes it: the name, a padded column for each limit, and the
    unit. *)
Definition limits_row (pad pad' : nat) (soft hard : option Z) (unit_column : bytes) : bytes :=
  ROW ++ replicate (S pad) SPACE ++ or_unlimited soft ++ replicate (S pad') SPACE ++
  or_unlimited hard ++ SPACE :: unit_column.

Lemma find_map_app {A B} (f : A → option B) l x y l' :
  Forall (λ z, f z = None) l → f x = Some y → find_map f (l ++ x :: l') = Some y.
Proof. induction 1 as [|z l Hz _ IH]; intros Hx; cbn; [by rewrite Hx|]. rewrite Hz. by apply IH. Qed.

Definition file_of (ls : list bytes) : bytes := concat (map (λ l, l ++ [LF]) ls).

Lemma lines_file ls rest :
  Forall plain_line ls → str_lines (file_of ls ++ rest) = ls ++ str_lines rest.
Proof.
  induction 1 as [|l ls Hl _ IH]; [done|]. unfold file_of. cbn [map concat app].
  rewrite <- !app_assoc. cbn [app]. rewrite lines_cons by done. f_equal. apply IH.
Qed.

Lemma valid_starts l : valid_utf8 l = true → at_byte continuation l = false.
Proof.
  rewrite valid_unfold. destruct l as [|x l]; [done|]. cbn [at_byte].
  destruct (continuation x) eqn:E; [|done]. cbn [scan].
  assert (width x = 0%nat) as ->; [|done].
  unfold continuation, width, between in *. repeat case_match; done || lia.
Qed.

Lemma starts_column c l :
  c ≠ [] → Forall (λ x, continuation x = false) c → at_byte continuation (c ++ l) = false.
Proof. destruct c; [done|]. by intros _ [? _]%Forall_cons. Qed.

Lemma pad_ascii n : Forall (λ x, continuation x = false) (replicate n SPACE).
Proof. by apply Forall_replicate. Qed.

Lemma row_columns pad pad' soft hard unit_column :
  Forall (λ x, visible x = true) soft → Forall (λ x, visible x = true) hard →
  soft ≠ [] → hard ≠ [] → valid_utf8 unit_column = true →
  ∃ more, split_whitespace (replicate (S pad) SPACE ++ soft ++ replicate (S pad') SPACE ++
    hard ++ SPACE :: unit_column) = soft :: hard :: more.
Proof.
  intros (Hs & Hs' & _)%visible_column (Hh & Hh' & _)%visible_column Hne Hne' Hu%valid_starts.
  unfold split_whitespace.
  assert (chars (SPACE :: unit_column) = [SPACE] :: chars unit_column) as Hend
    by (change (SPACE :: unit_column) with ([SPACE] ++ unit_column); by rewrite chars_app).
  rewrite (chars_app (replicate _ _)) by (by apply starts_column).
  rewrite (chars_app soft) by done.
  rewrite (chars_app (replicate _ _)) by (by apply starts_column).
  rewrite (chars_app hard) by done. rewrite Hend, !chars_ascii by (done || apply pad_ascii).
  rewrite words_pad, words_plain, words_pad, words_plain by done.
  cbn [app words]. change (is_whitespace [SPACE]) with true. cbv iota.
  change (flush []) with (@nil bytes). rewrite !flush_word by done. by eexists.
Qed.

Lemma row_plain pad pad' soft hard unit_column :
  Forall (λ x, visible x = true) (or_unlimited soft) →
  Forall (λ x, visible x = true) (or_unlimited hard) → plain_line unit_column →
  plain_line (limits_row pad pad' soft hard unit_column).
Proof.
  intros (_ & _ & Hs)%visible_column (_ & _ & Hh)%visible_column Hu.
  repeat first [apply plain_app | apply plain_row | apply plain_pad | done].
  apply plain_cons; [by apply (bool_decide_unpack _)|done].
Qed.

(** The limits of the service are read back. In a file of lines, the first of which to
    begin with the row's name is the row as the kernel writes it, both limits are read as
    the numbers they are, up to 2^64 - 1, or as unlimited, however wide the columns
    are and whatever stands around the row. *)
Theorem max_open_files_reads before pad pad' soft hard unit_column rest :
  Forall (λ l, plain_line l ∧ strip_prefix ROW l = None) before →
  (∀ n, soft = Some n → is_uint 64 n) → (∀ n, hard = Some n → is_uint 64 n) →
  plain_line unit_column → valid_utf8 unit_column = true →
  max_open_files (file_of before ++ limits_row pad pad' soft hard unit_column ++ LF :: rest) =
    Some (soft, hard).
Proof.
  intros Hb (Hs1 & Hs2 & Hs3)%or_unlimited_column (Hh1 & Hh2 & Hh3)%or_unlimited_column Hu Hv.
  unfold max_open_files.
  rewrite lines_file by (eapply Forall_impl; [exact Hb|naive_solver]).
  rewrite lines_cons by (by apply row_plain).
  rewrite (find_map_app _ _ _ (replicate (S pad) SPACE ++ or_unlimited soft ++
    replicate (S pad') SPACE ++ or_unlimited hard ++ SPACE :: unit_column));
    [|eapply Forall_impl; [exact Hb|naive_solver]|by apply strip_prefix_exact].
  cbn [mbind option_bind].
  destruct (row_columns pad pad' (or_unlimited soft) (or_unlimited hard) unit_column)
    as [more Hm]; [done..|]. rewrite Hm.
  cbn [lookup list_lookup mbind option_bind]. rewrite Hs3, Hh3. cbn [mbind option_bind].
  rewrite chars_app; [|apply starts_column; [done|by apply visible_column]].
  by rewrite chars_ascii by apply pad_ascii.
Qed.

(** A row behind a longer name is not found. The row's name is looked for before what follows
    it is checked, so a line that begins with the name and goes on with anything but a blank
    hides every row after it, however well formed. *)
Theorem longer_name_shadows before x name rest :
  Forall (λ l, plain_line l ∧ strip_prefix ROW l = None) before →
  plain_line (x :: name) → visible x = true → valid_utf8 name = true →
  max_open_files (file_of before ++ (ROW ++ x :: name) ++ LF :: rest) = None.
Proof.
  intros Hb Hn Hx Hv. unfold max_open_files.
  rewrite lines_file by (eapply Forall_impl; [exact Hb|naive_solver]).
  rewrite lines_cons by (apply plain_app; [apply plain_row|done]).
  rewrite (find_map_app _ _ _ (x :: name));
    [|eapply Forall_impl; [exact Hb|naive_solver]|by apply strip_prefix_exact].
  cbn [mbind option_bind]. change (x :: name) with ([x] ++ name).
  rewrite chars_app by (by apply valid_starts). cbn [chars app].
  destruct (visible_column [x]) as (_ & Hw & _); [by constructor|].
  by rewrite (proj1 (proj1 (Forall_cons _ _ _) Hw)).
Qed.

Lemma max_open_files_reads_witness :
  max_open_files (file_of [lit "Limit      Soft Limit"] ++
    limits_row 11 14 (Some 131072) None (lit "files") ++ LF :: lit "Max locked memory") =
  Some (Some 131072, None).
Proof.
  apply max_open_files_reads; [|intros n [= <-]; split; vm_compute; done|done| |done].
  - repeat constructor; by apply (bool_decide_unpack _).
  - by apply (bool_decide_unpack _).
Defined.

Lemma longer_name_shadows_witness :
  max_open_files (file_of [] ++ (ROW ++ lit "ystems 1 1") ++
    LF :: limits_row 11 14 (Some 131072) None (lit "files")) = None.
Proof. apply longer_name_shadows; [constructor|by apply (bool_decide_unpack _)|done|done]. Defined.

(** ** The running service (main.rs) *)

(** [Path]'s equality: by components, without empty ones and without the dots behind
    the first. *)
Definition path_components (path : bytes) : bool * list bytes :=
  let kept := λ c, negb (bool_decide (c = []) || bool_decide (c = lit ".")) in
  let rooted := match path with x :: _ => bool_decide (x = SLASH) | [] => false end in
  (rooted, match Target.split SLASH path with
           | first :: rest =>
               (if bool_decide (first = lit ".") then [first] else List.filter kept [first])
               ++ List.filter kept rest
           | [] => []
           end).

Definition path_eq (a b : bytes) : bool := bool_decide (path_components a = path_components b).

(** What /proc answers: the names under it ([None]: not UTF-8), if it can be listed, and
    the files of a process. *)
Record ProcFs := mkProc {
  entries : option (list (option bytes));
  comm : Z → option bytes;
  exe : Z → option bytes;
  limits_of : Z → option bytes;
}.

Inductive ServiceLine :=
  | ProcUnreadable
  | NoService
  | ServiceLimits (pid : Z) (soft hard : bytes)
  | ServiceNoRow (pid : Z)
  | ServiceUnreadable (pid : Z).

Definition is_service (own_exe : option bytes) (p : ProcFs) (pid : Z) : bool :=
  match comm p pid with Some c => bool_decide (trim c = lit "volto") | None => false end
  || match exe p pid, own_exe with Some e, Some own => path_eq own e | _, _ => false end.

Fixpoint service_pids (own_pid : Z) (own_exe : option bytes) (p : ProcFs) (names : list (option bytes))
    : list Z :=
  match names with
  | [] => []
  | name :: names =>
      match name ≫= parse_uint 32 with
      | None => service_pids own_pid own_exe p names
      | Some pid =>
          if pid =? own_pid then service_pids own_pid own_exe p names
          else if is_service own_exe p pid then pid :: service_pids own_pid own_exe p names
          else service_pids own_pid own_exe p names
      end
  end.

Definition service_line (p : ProcFs) (pid : Z) : ServiceLine :=
  match limits_of p pid with
  | Some text =>
      match max_open_files text with
      | Some (soft, hard) => ServiceLimits pid (or_unlimited soft) (or_unlimited hard)
      | None => ServiceNoRow pid
      end
  | None => ServiceUnreadable pid
  end.

Definition print_service_fd_limits (own_pid : Z) (own_exe : option bytes) (p : ProcFs) : list ServiceLine :=
  match entries p with
  | None => [ProcUnreadable]
  | Some names =>
      match sort_by_key (λ pid, pid) (service_pids own_pid own_exe p names) with
      | [] => [NoService]
      | pids => map (service_line p) pids
      end
  end.

(** ** The bundle (main.rs) *)

(** The four sysctls of the socket buffers. *)
Definition SYSCTLS : list string := ["rmem_default"; "rmem_max"; "wmem_default"; "wmem_max"].

Inductive Line :=
  | ShowPath (path : bytes)
  | ShowServer (s : Server)
  | ShowAuth (users : list (bytes * bytes))
  | ShowLimits (l : Limits)
  | ShowSecurity (s : Security)
  | ShowLog (l : Log)
  | ShowWarning (w : Warning)
  | NoWarnings
  | ShowFdLimits (soft hard : bytes)
  | ShowService (l : ServiceLine)
  | ShowSysctl (key : string) (value : option bytes)
  | ShowUname (text : bytes).

(** [Debug for config::User]. *)
Definition user_debug (u : User) : bytes * bytes := (username u, lit "<redacted>").

(** What the host answers. *)
Record HostFacts := mkHostFacts {
  fd_limits : option Z * option Z;
  own_pid : Z;
  own_exe : option bytes;
  proc : ProcFs;
  sysctl : string → option bytes;
  uname : bytes;
}.

(** [warnings] is what [Config::warnings] said. *)
Definition report_diagnostics (path : bytes) (c : Config) (ws : list Warning) (h : HostFacts) : list Line :=
  [ShowPath path; ShowServer (server c); ShowAuth (map user_debug (users c)); ShowLimits (limits c);
   ShowSecurity (security c); ShowLog (log c)]
  ++ match ws with [] => [NoWarnings] | _ => map ShowWarning ws end
  ++ [ShowFdLimits (or_unlimited (fd_limits h).1) (or_unlimited (fd_limits h).2)]
  ++ map ShowService (print_service_fd_limits (own_pid h) (own_exe h) (proc h))
  ++ map (λ key, ShowSysctl key (option_map trim (sysctl h key))) SYSCTLS
  ++ [ShowUname (uname h)].

(** ** What the bundle shows *)

(** Two configurations that differ in nothing but passwords, with the placeholder of the
    example file in the same places. *)
Definition same_but_passwords (c c' : Config) : Prop :=
  server c = server c' ∧ limits c = limits c' ∧ security c = security c' ∧ log c = log c' ∧
  Forall2 (λ u u', username u = username u' ∧
    (password u = EXAMPLE_PLACEHOLDER_PASSWORD ↔ password u' = EXAMPLE_PLACEHOLDER_PASSWORD))
    (users c) (users c').

Lemma indices_from_same {A} (p : A → bool) i l l' :
  Forall2 (λ x y, p x = p y) l l' → indices_from p i l = indices_from p i l'.
Proof. intros Hl. revert i. induction Hl as [|x y l l' Hx _ IH]; intros i; cbn; [done|]. by rewrite Hx, IH. Qed.

Lemma warnings_same {Cert} (load : bytes → option (list Cert)) uncovered c c' :
  same_but_passwords c c' → warnings load uncovered c = warnings load uncovered c'.
Proof.
  intros (Hs & Hl & Hsec & Hlog & Hu). unfold warnings, sni_warnings. rewrite Hs, Hl, Hsec, Hlog.
  assert (bool_decide (users c = []) = bool_decide (users c' = [])) as ->
    by (apply bool_decide_ext; destruct Hu; done).
  rewrite (indices_from_same _ 0 (users c) (users c')); [done|].
  eapply Forall2_impl; [exact Hu|]. intros u u' [_ Hp]. by apply bool_decide_ext.
Qed.

(** The support bundle holds no password. It is the same for two configurations that differ
    in their passwords only, whatever the passwords are, as long as both or neither are
    the placeholder of the example file, which a warning names by its position. *)
Theorem diagnostics_hide_passwords {Cert} (load : bytes → option (list Cert)) uncovered path c c' h :
  same_but_passwords c c' →
  report_diagnostics path c (warnings load uncovered c) h =
  report_diagnostics path c' (warnings load uncovered c') h.
Proof.
  intros Hc. rewrite (warnings_same _ _ c c') by done. destruct Hc as (Hs & Hl & Hsec & Hlog & Hu).
  unfold report_diagnostics. rewrite Hs, Hl, Hsec, Hlog.
  assert (map user_debug (users c) = map user_debug (users c')) as ->; [|done].
  induction Hu as [|u u' us us' [Hn _] _ IH]; [done|]. cbn. unfold user_debug at 1 3. by rewrite Hn, IH.
Qed.

Lemma service_pids_exact own_pid own_exe p names pid :
  pid ∈ service_pids own_pid own_exe p names ↔
  pid ≠ own_pid ∧ is_service own_exe p pid = true ∧
  ∃ name, Some name ∈ names ∧ parse_uint 32 name = Some pid.
Proof.
  induction names as [|n names IH]; cbn [service_pids].
  { split; [by intros ?%elem_of_nil|]. by intros (_ & _ & ? & ?%elem_of_nil & _). }
  setoid_rewrite elem_of_cons. destruct n as [n|]; cbn [mbind option_bind]; [|rewrite IH; naive_solver].
  destruct (parse_uint 32 n) as [q|] eqn:En; [|rewrite IH; naive_solver].
  destruct (Z.eqb_spec q own_pid) as [->|Hq]; [rewrite IH; naive_solver|].
  destruct (is_service own_exe p q) eqn:Es; [rewrite elem_of_cons|]; rewrite IH; split.
  - intros [->|(Hp & Hs & name & Hin & Hn)]; eauto 10.
  - intros (Hp & Hs & name & [[= ->]|Hin] & Hn); [left; congruence|right; eauto 10].
  - intros (Hp & Hs & name & Hin & Hn); eauto 10.
  - intros (Hp & Hs & name & [[= ->]|Hin] & Hn); [congruence|eauto 10].
Qed.

(** The services are found and their limits shown. Where /proc can be listed, there is a line
    about each process besides this one that is named after the service or runs this
    binary, and about no other, in the order of their numbers; a file that cannot be read
    or has no row costs its own line only. *)
Theorem services_shown own_pid own_exe p names :
  entries p = Some names →
  ∃ pids, (print_service_fd_limits own_pid own_exe p =
             if decide (pids = []) then [NoService] else map (service_line p) pids) ∧
    StronglySorted Z.le pids ∧
    ∀ pid, pid ∈ pids ↔ pid ≠ own_pid ∧ is_service own_exe p pid = true ∧
      ∃ name, Some name ∈ names ∧ parse_uint 32 name = Some pid.
Proof.
  intros E. exists (sort_by_key (λ pid, pid) (service_pids own_pid own_exe p names)). split_and!.
  - unfold print_service_fd_limits. rewrite E. by destruct (sort_by_key _ _).
  - apply (sort_by_key_sorted (λ pid : Z, pid)).
  - intros pid. rewrite sort_by_key_perm. apply service_pids_exact.
Qed.

#[local] Definition example_proc : ProcFs :=
  mkProc (Some [Some (lit "sys"); Some (lit "812"); None; Some (lit "77"); Some (lit "5")])
    (λ pid, if pid =? 77 then Some (lit "volto" ++ [LF]) else Some (lit "sh"))
    (λ pid, if pid =? 812 then Some (lit "/usr/bin/volto") else None) (λ _, None).

Lemma services_shown_witness :
  ∃ pids, print_service_fd_limits 5 (Some (lit "/usr/bin/volto")) example_proc =
    (if decide (pids = []) then [NoService] else map (service_line example_proc) pids) ∧
    StronglySorted Z.le pids.
Proof.
  destruct (services_shown 5 (Some (lit "/usr/bin/volto")) example_proc
    (default [] (entries example_proc)) eq_refl) as (pids & H & Hs & _).
  exists pids. by split.
Defined.

Example services_of_example :
  print_service_fd_limits 5 (Some (lit "/usr/bin/volto")) example_proc =
  [ServiceUnreadable 77; ServiceUnreadable 812].
Proof. vm_compute. reflexivity. Qed.
