(* ===== verification/Process.v ===== *)
(** * Binding, reloading and the process (src/src/quic/mod.rs, quic/reload.rs, main.rs)

    From a configuration file to a server and from a SIGHUP to a new one:
    [Config::load], [server_config], [Server::bind], [ReloadHandle::reload] and the
    task that calls it on every signal; then [main], which puts them in order and
    bounds the exit.  [Reload] has the same reload as interleaved threads; here it is
    one step, and what it loads is a configuration rather than a number.

    The file system is a [Disk] that may differ at every read; TOML, rustls, the
    kernel's sockets and quinn's endpoint are parameters. *)

From S2P Require Import Prelude Message Policy Gate Net Config ConfigFacts Tls Endpoint.

#[local] Open Scope Z_scope.

(** ** Loading *)

(** What the process asks of its host, besides the certificate files: [from_toml] only
    yields values of the types it fills, and the log filter knows the five levels, in any
    case. *)
Class Host `{!Pki} := {
  Socket : Type;
  read_to_string : Disk → bytes → option bytes;
  is_file : Disk → bytes → bool;
  from_toml : bytes → option Config;
  from_toml_typed text c : from_toml text = Some c → typed c;
  filter_ok : bytes → bool;
  filter_levels level :
    existsb (λ l, eq_ignore_ascii_case level l) LOG_LEVELS = true → filter_ok level = true;
  quic_usable : ServerCrypto → bool;
  udp_bind : SocketAddr → option Socket;
  set_buffer : SocketBuffer → Z → Socket → option Socket;
  get_buffer : SocketBuffer → Socket → option Z;
  fd_soft_limit : option Z;
  runtime_available : bool;
  wraps_udp_socket : Socket → bool;
  endpoint_new : Socket → bool;
}.

Section Server.
Context `{!Pki, !Host, !IdleTimeout}.

Inductive LoadError := FileUnreadable | NotToml | Invalid (e : ConfigError).

Definition config_load (disk : Disk) (path : bytes) : result Config LoadError :=
  let? text := ok_or (read_to_string disk path) FileUnreadable in
  let? c := ok_or (from_toml text) NotToml in
  match validate filter_ok (is_file disk) c with
  | Ok _ => Ok c
  | Err e => Err (Invalid e)
  end.

(** [quinn::ServerConfig], as far as it is set. *)
Record QuicConfig := mkQuic { crypto : ServerCrypto; transport : TransportConfig }.

Inductive SetupError := CryptoFailed (e : TlsError) | NoTls13 | IdleTimeoutUnencodable.

Definition server_config (disk : Disk) (c : Config) : result QuicConfig SetupError :=
  match server_crypto disk c with
  | Err e => Err (CryptoFailed e)
  | Ok crypto =>
      if quic_usable crypto
      then let? t := ok_or (transport_config (limits c)) IdleTimeoutUnencodable in
           Ok (mkQuic crypto t)
      else Err NoTls13
  end.

(** ** The server *)

(** What is logged at warning level. *)
Inductive Notice :=
  | Advice (w : Warning)
  | Buffers (w : BufferWarning)
  | FdBudgetTight (limit needed : Z)
  | ListenUnchanged (bound configured : SocketAddr)
  | BufferUnchanged (key : string) (bound configured : Z).

(** [fired] is the shutdown latch. *)
Record Running := mkRunning {
  bound_to : SocketAddr;
  requested_recv : Z;
  requested_send : Z;
  expected : Held;
  live_config : Config;
  live_quic : QuicConfig;
  endpoint_config : option QuicConfig;
  fired : bool;
}.

Definition warn_if_fd_budget_is_tight (l : Limits) : list Notice :=
  match fd_soft_limit with
  | None => []
  | Some limit =>
      if fd_budget_is_tight limit (max_connections l) (max_targets_per_conn l)
      then [FdBudgetTight limit (fd_budget (max_connections l) (max_targets_per_conn l))]
      else []
  end.

Inductive BindError := SetupFailed (e : SetupError) | SocketNotBound | NoRuntime | SocketNotWrapped
  | EndpointNotBuilt.

(** [Server::bind]. *)
Definition bind (disk : Disk) (c : Config) : result (Running * list Notice) BindError :=
  match server_config disk c with
  | Err e => Err (SetupFailed e)
  | Ok quic =>
      let? socket := ok_or (udp_bind (listen (server c))) SocketNotBound in
      let '(socket, said, _) := socket_buffers_request set_buffer get_buffer (limits c) socket in
      if negb runtime_available then Err NoRuntime
      else if negb (wraps_udp_socket socket) then Err SocketNotWrapped
      else if negb (endpoint_new socket) then Err EndpointNotBuilt
      else
        Ok (mkRunning (listen (server c)) (socket_recv_buffer (limits c)) (socket_send_buffer (limits c))
              (expected_new (names_new (expected_sni (security c)))) c quic (Some quic) false,
            map Buffers said ++ warn_if_fd_budget_is_tight (limits c))
  end.

(** [Server::shutdown_grace]. *)
Definition grace_in_force (s : Running) : Z := shutdown_grace_duration (server (live_config s)).

(** ** Reloading *)

Definition config_warnings (disk : Disk) : Config → list Warning :=
  warnings (λ path, match load_certs disk path with Ok certs => Some certs | Err _ => None end)
    names_not_covered.

Inductive ReloadError := LoadFailed (e : LoadError) | CertUnusable (e : SetupError) | ShuttingDown.

(** The disk when the file is read, when the certificate is loaded, and when it is
    loaded again for the warnings. *)
Record Snapshots := mkSnapshots { at_load : Disk; at_setup : Disk; at_advice : Disk }.

Definition apply_config (c : Config) (quic : QuicConfig) (s : Running) : Running :=
  mkRunning (bound_to s) (requested_recv s) (requested_send s)
    (expected_set (names_new (expected_sni (security c))) (expected s))
    c quic (Some quic) (fired s).

Definition buffer_notice (which : SocketBuffer) (bound configured : Z) : list Notice :=
  if configured =? bound then [] else [BufferUnchanged (buffer_key which) bound configured].

(** [ReloadHandle::reload]. *)
Definition reload (disks : Snapshots) (path : bytes) (s : Running)
    : Running * list Notice * result Config ReloadError :=
  match config_load (at_load disks) path with
  | Err e => (s, [], Err (LoadFailed e))
  | Ok c =>
      match server_config (at_setup disks) c with
      | Err e => (s, [], Err (CertUnusable e))
      | Ok quic =>
          let advice := config_warnings (at_advice disks) c in
          if fired s then (s, [], Err ShuttingDown)
          else
            let s := apply_config c quic s in
            (s, (if bool_decide (listen (server c) = bound_to s) then []
                 else [ListenUnchanged (bound_to s) (listen (server c))])
                ++ map Advice advice
                ++ buffer_notice Recv (requested_recv s) (socket_recv_buffer (limits c))
                ++ buffer_notice Send (requested_send s) (socket_send_buffer (limits c))
                ++ warn_if_fd_budget_is_tight (limits c),
             Ok c)
      end
  end.

(** ** The life of a server

    A SIGHUP ([watch_for_reload] calls [reload] and logs a failure), the firing of the
    latch ([watch_for_signals]) and the close of the listener at the start of the drain,
    which comes after it. *)
Inductive Event := Hangup (disks : Snapshots) | Fire | StopsListening.

Definition event (path : bytes) (s : Running) (e : Event) : Running :=
  match e with
  | Hangup disks => (reload disks path s).1.1
  | Fire => mkRunning (bound_to s) (requested_recv s) (requested_send s) (expected s) (live_config s)
              (live_quic s) (endpoint_config s) true
  | StopsListening =>
      if fired s
      then mkRunning (bound_to s) (requested_recv s) (requested_send s) (expected s) (live_config s)
             (live_quic s) None true
      else s
  end.

Definition lived (path : bytes) : Running → list Event → Running := foldl (event path).

(** ** The specification: the last good file

    What a server promises an operator who rewrites the file under it: the file and the
    certificate in force are those of the last signal that found both usable before the
    shutdown was asked for. *)
Record Promise := mkPromise {
  in_force : Config;
  presents : ServerCrypto;
  stopping : bool;
  listening : bool;
}.

Definition usable (disks : Snapshots) (path : bytes) : option (Config * ServerCrypto) :=
  match config_load (at_load disks) path with
  | Ok c =>
      match server_crypto (at_setup disks) c with
      | Ok crypto => if quic_usable crypto then Some (c, crypto) else None
      | Err _ => None
      end
  | Err _ => None
  end.

Definition promise_event (path : bytes) (p : Promise) (e : Event) : Promise :=
  match e with
  | Hangup disks =>
      match usable disks path with
      | Some (c, crypto) => if stopping p then p else mkPromise c crypto (stopping p) (listening p)
      | None => p
      end
  | Fire => mkPromise (in_force p) (presents p) true (listening p)
  | StopsListening => if stopping p then mkPromise (in_force p) (presents p) true false else p
  end.

(** How the server keeps it: every part of the live state is that of one file, which
    validated, and whose transport parameters are in range. *)
Record keeps (p : Promise) (s : Running) : Prop := {
  k_config : live_config s = in_force p;
  k_crypto : crypto (live_quic s) = presents p;
  k_gate : expected s = expected_new (names_new (expected_sni (security (in_force p))));
  k_transport : transport_config (limits (in_force p)) = Some (transport (live_quic s)) ∧
                transport_ok (limits (in_force p)) (transport (live_quic s));
  k_endpoint : endpoint_config s = if listening p then Some (live_quic s) else None;
  k_fired : fired s = stopping p;
  k_closed : listening p = false → stopping p = true;
  k_typed : typed (in_force p);
  k_valid : ∃ disk, validate filter_ok (is_file disk) (in_force p) = Ok tt;
  k_cert : ∃ disk, server_crypto disk (in_force p) = Ok (presents p);
}.

Lemma config_load_ok disk path c :
  config_load disk path = Ok c → typed c ∧ validate filter_ok (is_file disk) c = Ok tt.
Proof.
  unfold config_load. intros (text & _ & Hr)%result_bind_ok.
  apply result_bind_ok in Hr as (c' & Ht%ok_or_ok & Hr). apply from_toml_typed in Ht.
  destruct (validate _ _ c') as [[]|] eqn:E; simplify_eq. done.
Qed.

(** A configuration that validated fails to be served only for its certificate. *)
Lemma server_config_valid disk disk' c :
  typed c → validate filter_ok (is_file disk') c = Ok tt →
  match server_crypto disk c with
  | Ok crypto' =>
      if quic_usable crypto'
      then ∃ t, server_config disk c = Ok (mkQuic crypto' t) ∧
             transport_config (limits c) = Some t ∧ transport_ok (limits c) t
      else server_config disk c = Err NoTls13
  | Err e => server_config disk c = Err (CryptoFailed e)
  end.
Proof.
  intros Ht Hv. destruct (transport_config_ok filter_ok (is_file disk') c Ht Hv) as (t & E & Hok).
  unfold server_config. destruct (server_crypto disk c); [|done]. destruct (quic_usable _); [|done].
  exists t. rewrite E. done.
Qed.

Lemma event_keeps path p s e : keeps p s → keeps (promise_event path p e) (event path s e).
Proof.
  intros Hkeeps. pose proof Hkeeps as [Hc Hq Hg Ht He Hf Hl Hy Hv Hk]. destruct e as [disks| |]; cbn [event promise_event].
  - unfold reload, usable. destruct (config_load (at_load disks) path) as [c|] eqn:El; [|done].
    apply config_load_ok in El as [Hty Hval].
    pose proof (server_config_valid (at_setup disks) (at_load disks) c Hty Hval) as Hs.
    destruct (server_crypto (at_setup disks) c) as [cr|] eqn:Ec; [|by rewrite Hs].
    destruct (quic_usable cr); [|by rewrite Hs].
    destruct Hs as (t & -> & Et & Hok). rewrite Hf. destruct (stopping p) eqn:Es; [done|].
    split; cbn; eauto. destruct (listening p); [done|]. by discriminate (Hl eq_refl).
  - split; cbn; eauto.
  - rewrite Hf. destruct (stopping p) eqn:Es; [|done]. split; cbn; eauto.
Qed.

Lemma lived_keeps path p s events :
  keeps p s → keeps (foldl (promise_event path) p events) (lived path s events).
Proof.
  unfold lived. revert p s. induction events as [|e events IH]; intros p s Hkeeps; [done|].
  apply IH. by apply event_keeps.
Qed.

Lemma lived_socket path s events :
  bound_to (lived path s events) = bound_to s ∧
  requested_recv (lived path s events) = requested_recv s ∧
  requested_send (lived path s events) = requested_send s.
Proof.
  unfold lived. revert s. induction events as [|e events IH]; intros s; [done|]. cbn [foldl].
  destruct (IH (event path s e)) as (-> & -> & ->).
  destruct e; cbn [event]; [|done|by destruct (fired s)].
  unfold reload. repeat case_match; simplify_eq; done.
Qed.

Lemma bind_keeps disk disk' path c0 s0 said :
  config_load disk path = Ok c0 → bind disk' c0 = Ok (s0, said) →
  ∃ crypto0, server_crypto disk' c0 = Ok crypto0 ∧ keeps (mkPromise c0 crypto0 false true) s0 ∧
    bound_to s0 = listen (server c0).
Proof.
  intros [Hty Hval]%config_load_ok Hb. unfold bind in Hb.
  pose proof (server_config_valid disk' disk c0 Hty Hval) as Hs.
  destruct (server_crypto disk' c0) as [cr|] eqn:Ec; [|by rewrite Hs in Hb].
  destruct (quic_usable cr); [|by rewrite Hs in Hb]. destruct Hs as (t & E & Et & Hok). rewrite E in Hb.
  apply result_bind_ok in Hb as (sock & _ & Hb).
  destruct (socket_buffers_request _ _ _ sock) as [[sock' w] b].
  destruct runtime_available, (wraps_udp_socket sock'), (endpoint_new sock'); try done.
  injection Hb as <- _. exists cr. split_and!; [done| |done]. split; cbn; eauto.
Qed.

(** What a loaded file is refused for when it is bound: its certificate, or the host. *)
Lemma bind_refusal disk disk' path c0 e :
  config_load disk path = Ok c0 → bind disk' c0 = Err e → e ≠ SetupFailed IdleTimeoutUnencodable.
Proof.
  intros [Hty Hval]%config_load_ok Hb ->. unfold bind in Hb.
  pose proof (server_config_valid disk' disk c0 Hty Hval) as Hs.
  destruct (server_crypto disk' c0) as [cr|]; [|by rewrite Hs in Hb].
  destruct (quic_usable cr); [|by rewrite Hs in Hb]. destruct Hs as (t & E & _). rewrite E in Hb.
  destruct (udp_bind _) as [sock|]; [|done]. cbn [ok_or result_bind] in Hb.
  destruct (socket_buffers_request _ _ _ sock) as [[sock' w] b].
  destruct runtime_available, (wraps_udp_socket sock'), (endpoint_new sock'); done.
Qed.

Lemma keeps_grace p s : keeps p s → 0 ≤ grace_in_force s ≤ from_secs 3600.
Proof.
  intros [Hc _ _ _ _ _ _ Hy [disk Hv] _]. apply validate_ok in Hv; [|done].
  pose proof (valid_grace _ _ _ Hv). pose proof (typed_grace _ Hy) as Hg. unfold is_uint in Hg.
  unfold grace_in_force, shutdown_grace_duration, from_secs. rewrite Hc. lia.
Qed.

(** C17: a server serves the last good file. Bound on a file that loads, and after any
    sequence of signals with whatever the disk holds at each, the configuration, the
    names of the gate, the certificate and the transport parameters all come from one file
    that validated: the newest that a signal found usable before the shutdown. A bad file
    or certificate changes nothing; the socket stays where it was bound; a closed
    listener stays closed; and the certificate is presented to exactly the names the gate
    in force lets through. *)
Theorem serves_last_good disk disk' path c0 s0 said events :
  config_load disk path = Ok c0 → bind disk' c0 = Ok (s0, said) →
  let s := lived path s0 events in
  ∃ crypto0,
    server_crypto disk' c0 = Ok crypto0 ∧
    keeps (foldl (promise_event path) (mkPromise c0 crypto0 false true) events) s ∧
    bound_to s = listen (server c0) ∧
    (∀ name, is_Some (Tls.resolve (cert_resolver (crypto (live_quic s))) name) ↔
       (expected_any (expected s) = true →
          ∃ n, name = Some n ∧ accepts (expected_current (expected s)) n = true)).
Proof.
  intros Hl Hb. cbv zeta. destruct (bind_keeps _ _ _ _ _ _ Hl Hb) as (cr & Hcr & Hk & Hbound).
  exists cr. apply (lived_keeps path _ _ events) in Hk. rewrite <- Hbound.
  split_and!; [done|done|apply lived_socket|].
  intros name. destruct Hk as [_ Hq Hg _ _ _ _ _ _ [d Hcert]]. rewrite Hq, Hg.
  by apply (resolver_agrees_with_gate d _ _ name Hcert).
Qed.
End Server.

(** A host whose disk holds a usable file and certificate or neither. *)
#[local] Instance example_pki : Pki :=
  {| Disk := bool; Certificate := unit; PrivateKey := unit; CertifiedKey := unit;
     ParsedCertificate := unit; ServerName := bytes; read_certs d _ := if d then Some [tt] else None;
     read_key _ _ := Some tt; from_der _ _ := Some tt; parse_certificate _ := Some tt;
     server_name_of := Some; verify_server_name _ _ := true |}.

#[local] Lemma example_toml_typed (text : bytes) c : Some ConfigFacts.example_config = Some c → typed c.
Proof. intros [= <-]. apply ConfigFacts.example_typed. Qed.

#[local] Instance example_host : @Host example_pki :=
  {| Socket := unit; read_to_string (d : @Disk example_pki) _ := if (d : bool) then Some [] else None; is_file _ _ := true;
     from_toml _ := Some ConfigFacts.example_config; from_toml_typed := example_toml_typed;
     filter_ok _ := true; filter_levels _ _ := eq_refl; quic_usable _ := true; udp_bind _ := Some tt;
     set_buffer _ _ s := Some s; get_buffer _ _ := None; fd_soft_limit := None;
     runtime_available := true; wraps_udp_socket _ := true; endpoint_new _ := true |}.

#[local] Definition good : Disk := true.
#[local] Definition bad : Disk := false.

#[local] Existing Instance Endpoint.documented_idle_timeout.

Lemma serves_last_good_witness :
  ∃ s0 said, bind good ConfigFacts.example_config = Ok (s0, said) ∧
    bound_to (lived (lit "volto.toml") s0 [Hangup (mkSnapshots bad good good); Hangup (mkSnapshots good bad good);
      Fire; Hangup (mkSnapshots good good good); StopsListening]) =
    listen (server ConfigFacts.example_config).
Proof.
  eexists _, _. split; [vm_compute; reflexivity|].
  edestruct (serves_last_good good good (lit "volto.toml") ConfigFacts.example_config)
    as (crypto0 & _ & _ & H & _); [vm_compute; reflexivity..|]. exact H.
Defined.
