(* ===== verification/Main.v ===== *)
(** * The command (src/src/main.rs)

    [main] and what it calls, in the order of the source: the command line, the file,
    the two flags that only report, the runtime, tracing, the server's life and the
    bound on the exit.  What the operating system, the environment and the signals
    deliver is a [Life]; what the process does is a list of actions. *)

From S2P Require Import Prelude Message Policy Net Config ConfigFacts Tls Endpoint Diagnostics Shutdown Process.

#[local] Open Scope Z_scope.

(** ** The log's prefix *)

Inductive Level := ERROR | WARN | INFO | DEBUG | TRACE.

Definition syslog_prefix (level : Level) : bytes :=
  match level with
  | ERROR => lit "<3>"
  | WARN => lit "<4>"
  | INFO => lit "<6>"
  | _ => lit "<7>"
  end.

Definition logs_to_journal (journal_stream : option bytes) : bool :=
  match journal_stream with Some value => negb (bool_decide (value = [])) | None => false end.

(** [JournalPriority::format_event] around a formatter's line; without it the line is
    the formatter's own. *)
Definition format_event (level : Level) (line : bytes) : bytes := syslog_prefix level ++ line.

(** ** The process *)

Section Main.
Context `{!Pki, !Host, !IdleTimeout}.

Record Cli := mkCli { cli_config : bytes; check_config : bool; diagnostics : bool }.

(** Everything a run of the command meets: the disk when the file is read, when the
    certificate is read for the warnings and when it is read to serve; whether RUST_LOG is
    a filter; JOURNAL_STREAM; whether the runtime can be built; the host for the support
    bundle; and what happens to the server until it has stopped. *)
Record Life := mkLife {
  disk_load : Disk;
  disk_advice : Disk;
  disk_bind : Disk;
  rust_log : bool;
  journal_stream : option bytes;
  runtime_built : bool;
  host : HostFacts;
  events : list Event;
}.

Inductive MainError :=
  | UsageError
  | MainLoad (e : LoadError)
  | RuntimeNotBuilt
  | FilterInvalid
  | MainBind (e : BindError).

Inductive Action :=
  | EprintWarning (w : Warning)
  | PrintLoads (path : bytes)
  | PrintDiagnostics (ls : list Line)
  | BuildRuntime (max_blocking_threads : Z)
  | InstallSubscriber (prefixed : bool)
  | LogWarning (w : Warning)
  | LogNotice (n : Notice)
  | Serves (s : Running)
  | StopRuntime (grace : Z).

Definition report_config_check (path : bytes) (ws : list Warning) : list Action :=
  map EprintWarning ws ++ [PrintLoads path].

(** [None]: neither RUST_LOG nor the configured level is a filter. *)
Definition init_tracing (life : Life) (level : bytes) : option Action :=
  if rust_log life || filter_ok level
  then Some (InstallSubscriber (logs_to_journal (journal_stream life))) else None.

(** [run]: the server serves from its binding to the end of its life. *)
Definition run_server (cli : Cli) (life : Life) (c : Config) : list Action * result Z MainError :=
  match init_tracing life (level (log c)) with
  | None => ([], Err FilterInvalid)
  | Some installed =>
      let said := installed :: map LogWarning (config_warnings (disk_advice life) c) in
      match bind (disk_bind life) c with
      | Err e => (said, Err (MainBind e))
      | Ok (s, notices) =>
          (said ++ map LogNotice notices ++ [Serves s],
           Ok (grace_in_force (lived (cli_config cli) s (events life))))
      end
  end.

Definition main (cli : Cli) (life : Life) : list Action * result unit MainError :=
  if check_config cli && diagnostics cli then ([], Err UsageError)
  else
    match config_load (disk_load life) (cli_config cli) with
    | Err e => ([], Err (MainLoad e))
    | Ok c =>
        let ws := config_warnings (disk_advice life) c in
        if check_config cli then (report_config_check (cli_config cli) ws, Ok tt)
        else if diagnostics cli
        then ([PrintDiagnostics (report_diagnostics (cli_config cli) c ws (host life))], Ok tt)
        else
          let building := BuildRuntime (blocking_pool_size (max_connections (limits c))) in
          if runtime_built life then
            let startup_grace := shutdown_grace_duration (server c) in
            let '(said, served) := run_server cli life c in
            let grace := match served with Ok grace => grace | Err _ => startup_grace end in
            ([building] ++ said ++ [StopRuntime grace],
             match served with Ok _ => Ok tt | Err e => Err e end)
          else ([building], Err RuntimeNotBuilt)
    end.

(** ** What the flags and the exit promise *)

(** The subscriber of a loaded file can always be installed. *)
Lemma init_tracing_loaded life disk path c :
  config_load disk path = Ok c →
  init_tracing life (level (log c)) = Some (InstallSubscriber (logs_to_journal (journal_stream life))).
Proof.
  intros [Ht Hv]%config_load_ok. apply validate_ok in Hv; [|done].
  pose proof (valid_log _ _ _ Hv) as Hl. unfold init_tracing.
  assert (filter_ok (level (log c)) = true) as ->; [|by rewrite orb_true_r].
  unfold valid_level in Hl. destruct (existsb filter_syntax _); [done|].
  apply filter_levels. apply existsb_exists. setoid_rewrite <- list_elem_of_In. done.
Qed.

Lemma stop_runtime_bound grace blocking :
  0 ≤ grace ≤ from_secs 3600 → Forall (λ e, ∀ t, e = Some t → 0 ≤ t) blocking →
  stop_runtime grace blocking ≤ grace + from_secs 2.
Proof.
  intros Hg Hb. unfold stop_runtime.
  assert (blocking_grace grace = grace + from_secs 2) as ->.
  { unfold blocking_grace, duration_saturating_add, CLOSE_FLUSH_TIMEOUT, EXIT_SLACK, DURATION_MAX,
      from_secs in *. lia. }
  apply timeout_bound; [unfold from_secs in *; lia|]. intros t. by apply all_joined_nonneg.
Qed.

(** C34: the check of a file predicts the service. [--check-config] refuses a file exactly as
    the service would, with the same error and before anything else; and where it accepts,
    the service on the same file logs the warnings the check printed, never fails for
    the file or its log level or its timeouts but only for the host and the certificate,
    and ends by stopping the runtime within the grace period in force when the server stopped,
    at most an hour, and two seconds, whatever is left on the blocking threads. *)
Theorem check_predicts_start path life :
  let check := main (mkCli path true false) life in
  let start := main (mkCli path false false) life in
  (∀ e, check.2 = Err e → check = ([], Err e) ∧ start = ([], Err e)) ∧
  (check.2 = Ok tt →
   ∃ c ws, config_load (disk_load life) path = Ok c ∧
     check.1 = map EprintWarning ws ++ [PrintLoads path] ∧
     let n := blocking_pool_size (max_connections (limits c)) in
     (start = ([BuildRuntime n], Err RuntimeNotBuilt) ∨
      ∃ prefixed rest grace,
        start.1 = [BuildRuntime n; InstallSubscriber prefixed] ++ map LogWarning ws ++ rest ++
                  [StopRuntime grace] ∧
        (∀ blocking, Forall (λ e, ∀ t, e = Some t → 0 ≤ t) blocking →
           stop_runtime grace blocking ≤ grace + from_secs 2 ≤ from_secs 3602) ∧
        match start.2 with
        | Ok _ => ∃ s notices, rest = map LogNotice notices ++ [Serves s] ∧ bound_to s = listen (server c) ∧
                    grace = grace_in_force (lived path s (events life))
        | Err e => rest = [] ∧ ∃ e', e = MainBind e' ∧ e' ≠ SetupFailed IdleTimeoutUnencodable
        end)).
Proof.
  cbv zeta. unfold main. cbn [check_config diagnostics andb cli_config].
  destruct (config_load (disk_load life) path) as [c|e] eqn:El; [|by split; [intros e' [= <-]|]].
  split; [done|]. intros _. exists c, (config_warnings (disk_advice life) c). split_and!; [done..|].
  destruct (runtime_built life); [right|by left]. unfold run_server.
  rewrite (init_tracing_loaded life _ _ _ El). set (prefixed := logs_to_journal _).
  assert (∀ g, 0 ≤ g ≤ from_secs 3600 → ∀ blocking, Forall (λ e, ∀ t, e = Some t → 0 ≤ t) blocking →
    stop_runtime g blocking ≤ g + from_secs 2 ≤ from_secs 3602) as Hstop.
  { intros g Hg blocking Hbl. split; [by apply stop_runtime_bound|]. unfold from_secs in *. lia. }
  destruct (bind (disk_bind life) c) as [[s notices]|e] eqn:Eb; cbn [cli_config fst snd].
  - destruct (bind_keeps _ _ _ _ _ _ El Eb) as (cr & _ & Hk & Hbound).
    exists prefixed, (map LogNotice notices ++ [Serves s]), (grace_in_force (lived path s (events life))).
    split_and!; [|apply Hstop; by eapply keeps_grace, lived_keeps|by eauto].
    cbn [app]. by rewrite <- !app_assoc.
  - exists prefixed, [], (shutdown_grace_duration (server c)). split_and!; [done| |done|].
    + apply Hstop. apply config_load_ok in El as [Ht Hv]. apply validate_ok in Hv; [|done].
      pose proof (valid_grace _ _ _ Hv). pose proof (typed_grace _ Ht) as Hg. unfold is_uint in Hg.
      unfold shutdown_grace_duration, from_secs. lia.
    + exists e. split; [done|]. by eapply bind_refusal.
Qed.

(** The reporting flags serve nothing. Whatever the file, the disk and the host, a command line
    with either flag, or both, binds no socket, builds no runtime and installs no subscriber: all it
    does is print. *)
Theorem reports_only_print cli life :
  check_config cli || diagnostics cli = true →
  Forall (λ a, match a with EprintWarning _ | PrintLoads _ | PrintDiagnostics _ => True | _ => False end)
    (main cli life).1.
Proof.
  intros Hf. unfold main. destruct (check_config cli), (diagnostics cli); cbn in *; try done;
    destruct (config_load _ _); cbn; try done; [|by repeat constructor].
  unfold report_config_check. apply Forall_app. split; [|by repeat constructor].
  apply Forall_forall. intros action (w & -> & _)%list_elem_of_fmap. done.
Qed.
End Main.

#[local] Existing Instance Process.example_pki.
#[local] Existing Instance Process.example_host.
#[local] Existing Instance Endpoint.documented_idle_timeout.

#[local] Definition example_life (at_bind : Disk) : Life :=
  mkLife Process.good Process.good at_bind true (Some (lit "8:1")) true
    (mkHostFacts (None, None) 1 None (mkProc None (λ _, None) (λ _, None) (λ _, None)) (λ _, None) []) [Fire].

Example check_example :
  main (mkCli (lit "volto.toml") true false) (example_life Process.good) =
  ([PrintLoads (lit "volto.toml")], Ok tt).
Proof. vm_compute. reflexivity. Qed.

Example start_fails_example :
  (main (mkCli (lit "volto.toml") false false) (example_life Process.bad)).2 =
  Err (MainBind (SetupFailed (CryptoFailed CertUnreadable))).
Proof. vm_compute. reflexivity. Qed.

Lemma reports_only_print_witness :
  Forall (λ a, match a with EprintWarning _ | PrintLoads _ | PrintDiagnostics _ => True | _ => False end)
    (main (mkCli (lit "volto.toml") false true) (example_life Process.good)).1.
Proof. apply reports_only_print. reflexivity. Defined.
