(* ===== verification/FuzzAuth.v ===== *)
(** * The fuzz target of authentication (src/fuzz/fuzz_targets/auth.rs)

    Arbitrary credential fields against arbitrary users, the credentials of a user it was
    cut from, and the bound on what of either reaches a log. The target brings a base64
    encoder of its own, so the decoder of auth.rs is judged by code that is not its own. *)

From S2P Require Import Prelude Target Utf8 Message RequestStream Logfmt Auth Fuzz.

#[local] Open Scope Z_scope.

Definition MAX_SECRET : nat := 32.
Definition MAX_VALUES : nat := 8.
Definition MAX_BOUNDED : nat := 256.

(** ** The encoder of the target *)

(** [chunks(3)]. *)
Fixpoint chunks3 (l : bytes) : list bytes :=
  match l with
  | [] => []
  | a :: b :: c :: rest => [a; b; c] :: chunks3 rest
  | short => [short]
  end.

Definition quantum_bits (quantum : bytes) : Z :=
  foldl (λ bits index, Z.lor (shl 32 bits 8) (from_option u8 0 (quantum !! index))) 0 (seq 0 3).

Definition encode_quantum (quantum : bytes) : bytes :=
  let bits := quantum_bits quantum in
  let significant := (length quantum + 1)%nat in
  map (λ index, digit (Z.land (Z.shiftr bits (18 - 6 * Z.of_nat index)) 0x3f)) (seq 0 significant) ++
  replicate (4 - significant) PAD.

Definition target_encode_base64 (input : bytes) : bytes := concat (map encode_quantum (chunks3 input)).

(** ** Cutting users and fields *)

Definition cut_secret (input : bytes) : option (bytes * bytes) :=
  match input with
  | [] => None
  | length_ :: rest =>
      let length_ := Z.to_nat (u8 length_ mod Z.of_nat (MAX_SECRET + 1)) in
      secret ← get_to length_ rest;
      secret ← from_utf8 secret;
      Some (secret, drop length_ rest)
  end.

Fixpoint cut_users (input : bytes) (count : nat) : list User * bytes :=
  match count with
  | O => ([], input)
  | S count =>
      match cut_secret input with
      | None => ([], input)
      | Some (username, rest) =>
          match cut_secret rest with
          | None => ([], input)
          | Some (password, rest) =>
              let '(users, rest) := cut_users rest count in (mkUser username password :: users, rest)
          end
      end
  end.

(** [Fields::append] of a debug build. *)
Definition debug_append (fields : Fields) (name : bytes) (value : FieldValue) : option Fields :=
  assert_that (match field_name name with Some _ => true | None => false end) ;;
  Some (append fields name value).

(** The [while] that fills the fields. *)
Definition cut_credentials_step (st : bytes * Fields) : (bytes * Fields) + option Fields :=
  let '(input, fields) := st in
  if decide (length fields < MAX_VALUES)%nat then
    match input with
    | selector :: length_ :: tail =>
        let length_ := Z.to_nat (u8 length_ mod 64) in
        match get_to length_ tail with
        | None => inr (Some fields)
        | Some value =>
            let input := drop length_ tail in
            match value_parse value with
            | None => inl (input, fields)
            | Some value =>
                match CREDENTIAL_FIELDS !! Z.to_nat (u8 selector mod 2) with
                | None => inr None
                | Some name =>
                    match debug_append fields name value with
                    | None => inr None
                    | Some fields => inl (input, fields)
                    end
                end
            end
        end
    | _ => inr (Some fields)
    end
  else inr (Some fields).

#[export] Program Instance cut_credentials_loop : Loop cut_credentials_step :=
  {| loop_measure st := length st.1 |}.
Next Obligation.
  intros [input fields] st'. unfold cut_credentials_step. case_decide; [|done].
  destruct input as [|s [|n tail]]; [done..|]. repeat (case_match; try done);
    intros [= <-]; cbn [fst length]; rewrite length_drop; lia.
Qed.

(** ** The target *)

#[export] Instance Denied_eq_dec : EqDecision Denied.
Proof. solve_decision. Defined.
#[export] Instance Denials_eq_dec : EqDecision Denials.
Proof. solve_decision. Defined.

Definition round_trip (input : bytes) : option unit :=
  match (cut_users input 1).1 with
  | [] => Some ()
  | (user :: _) as users =>
      if contains_byte (username user) COLON then Some ()
      else
        let token := target_encode_base64 (username user ++ [COLON] ++ password user) in
        value ← value_parse (lit "Basic " ++ token);
        fields ← (name ← CREDENTIAL_FIELDS !! 0%nat; debug_append fields_new name value);
        assert_that (bool_decide (authenticate (auth_new users) fields = Ok (Some (username user))))
  end.

(** What is asserted of a verdict. *)
Definition check_verdict (users : list User) (fields : Fields) : option unit :=
  let verdict := authenticate (auth_new users) fields in
  match verdict with
  | Ok (Some name) => assert_that (existsb (λ user, bool_decide (username user = name)) users)
  | _ => Some ()
  end ;;
  (if bool_decide (users = []) then assert_that (bool_decide (verdict = Ok None)) else Some ()) ;;
  match verdict with
  | Err denials =>
      assert_that (charged denials <=? Nat.max (length fields) 1)%nat ;;
      assert_that ((MAX_CREDENTIAL_VALUES <? length fields) || (charged denials <=? MAX_CREDENTIAL_VALUES))%nat ;;
      assert_that (forallb (λ claim, match claim with
        | Some name => (length name <? MAX_BOUNDED)%nat | None => true end) (claims denials))
  | Ok _ => Some ()
  end ;;
  assert_that (bool_decide (authenticate (auth_new users) fields = verdict)).

Definition fuzz_auth (data : bytes) : option unit :=
  match data with
  | [] => Some ()
  | mode :: rest =>
      assert_that (length (bounded_bytes rest) <? MAX_BOUNDED)%nat ;;
      match from_utf8 rest with
      | Some text => assert_that (length (bounded text) <? MAX_BOUNDED)%nat
      | None => Some ()
      end ;;
      if Z.land (u8 mode) 1 =? 1 then round_trip rest
      else
        let '(users, rest) := cut_users rest (Z.to_nat (Z.shiftr (u8 mode) 1) mod 4) in
        fields ← run cut_credentials_step (rest, fields_new);
        check_verdict users fields
  end.

(** ** The two encoders are one *)

Lemma shifted x y : 0 ≤ x < 2 ^ 24 → 0 ≤ y < 256 → Z.lor (shl 32 x 8) y = x * 256 + y.
Proof.
  intros Hx Hy. unfold shl. rewrite wrap_id; [by rewrite lor_add_low by lia|].
  unfold is_uint. rewrite Z.shiftl_mul_pow2 by lia. lia.
Qed.

Lemma sextet_of bits k : 0 ≤ k → Z.land (Z.shiftr bits k) 0x3f = bits / 2 ^ k mod 64.
Proof.
  intros Hk. change 0x3f with (Z.ones 6). rewrite Z.land_ones, Z.shiftr_div_pow2 by lia. done.
Qed.

Lemma quantum_value a b c :
  0 ≤ a < 256 → 0 ≤ b < 256 → 0 ≤ c < 256 →
  Z.lor (shl 32 (Z.lor (shl 32 (Z.lor (shl 32 0 8) a) 8) b) 8) c = (a * 256 + b) * 256 + c.
Proof. intros. rewrite (shifted 0 a), (shifted _ b), shifted by lia. lia. Qed.

Lemma encoders_agree l : target_encode_base64 l = encode_base64 l.
Proof.
  unfold target_encode_base64.
  induction l as [l IH] using (induction_ltof1 _ length).
  destruct l as [|a [|b [|c l]]]; [done|..]; cbn [chunks3 map concat encode_base64];
    [..|rewrite IH by (unfold ltof; cbn; lia)]; unfold encode_quantum, quantum_bits;
    cbn [seq foldl lookup list_lookup from_option length Nat.add map Nat.sub replicate app];
    rewrite !sextet_of by lia; pose proof (u8_range a); try pose proof (u8_range b);
    try pose proof (u8_range c); rewrite quantum_value by lia; cbn [app];
    repeat (apply (f_equal2 cons); [try apply (f_equal digit)|]); try done; cbn; div_lia.
Qed.

(** ** What the loop cuts *)

Lemma credential_names k : ∃ name,
  CREDENTIAL_FIELDS !! Z.to_nat (k mod 2) = Some name ∧ is_Some (field_name name).
Proof.
  assert (k mod 2 = 0 ∨ k mod 2 = 1) as [->| ->] by (pose proof (Z.mod_pos_bound k 2); lia);
    eexists; (split; [reflexivity|by eexists]).
Qed.

(** The loop does not panic, and every value it keeps is shorter than 64 bytes. *)
Lemma cut_credentials_ok rest :
  ∃ fields, run cut_credentials_step (rest, fields_new) = Some fields ∧
    Forall (λ field, (length field.2 < 64)%nat) fields.
Proof.
  apply (run_invariant cut_credentials_step (λ st, Forall (λ field, (length field.2 < 64)%nat) st.2)
    (λ o, ∃ fields, o = Some fields ∧ Forall (λ field, (length field.2 < 64)%nat) fields)); [|constructor].
  intros [input fields] Hf. cbn [snd] in Hf. unfold cut_credentials_step.
  case_decide; [|by eauto]. destruct input as [|s [|n tail]]; [by eauto..|]. cbv zeta.
  destruct (get_to _ tail) as [value|] eqn:Eg; [|by eauto]. apply get_to_some in Eg as [_ ->].
  unfold value_parse. destruct (is_field_value _); [|done].
  destruct (credential_names (u8 s)) as (name & -> & [x Hx]). unfold debug_append. rewrite Hx.
  cbn [assert_that mbind option_bind snd]. unfold append. apply Forall_app. split; [done|].
  constructor; [|done]. cbn [snd]. rewrite length_take. pose proof (Z.mod_pos_bound (u8 n) 64). lia.
Qed.

(** A value tried is one of the request's. *)
Lemma get_all_values fields name v : v ∈ get_all fields name → ∃ n, (n, v) ∈ fields.
Proof.
  unfold get_all. intros ([n w] & -> & Hin)%list_elem_of_fmap.
  apply list_elem_of_In, filter_In in Hin as [Hin _]. exists n. by apply list_elem_of_In.
Qed.

Lemma credentials_values fields v : v ∈ credentials fields → ∃ n, (n, v) ∈ fields.
Proof.
  unfold credentials, CREDENTIAL_FIELDS. cbn [map concat]. rewrite app_nil_r.
  intros [H|H]%elem_of_app; by apply get_all_values in H.
Qed.

(** Each field is at most one credential value. *)
Lemma credential_values_le fields : (credential_values fields ≤ length fields)%nat.
Proof.
  unfold credential_values, credentials, CREDENTIAL_FIELDS. cbn [map concat]. rewrite app_nil_r, length_app.
  unfold get_all. rewrite !length_map. induction fields as [|[n v] fields IH]; [cbn; lia|].
  cbn [List.filter length fst]. destruct (eq_ignore_ascii_case n (lit "proxy-authorization")) eqn:E1.
  - assert (eq_ignore_ascii_case n (lit "authorization") = false) as E2; [|rewrite E2; cbn [length]; lia].
    apply bool_decide_eq_true in E1. apply bool_decide_eq_false. intros E2. by rewrite E1 in E2.
  - destruct (eq_ignore_ascii_case n (lit "authorization")); cbn [length]; lia.
Qed.

(** ** What a refusal holds *)

(** A property of every refusal of a value, and of having none, holds of all that is kept. *)
Lemma try_values_denied a (P : Denied → Prop) values d0 d :
  P Missing → (∀ v e, v ∈ values → check a v = Err e → P e) →
  from_option (λ d, Forall P (reported d :: others d)) True d0 →
  try_values a values d0 = Err d → Forall P (reported d :: others d).
Proof.
  intros Hm. revert d0. induction values as [|v values IH]; intros d0 Hv H0; cbn [try_values].
  - intros [= <-]. destruct d0; [done|]. by repeat constructor.
  - destruct (check a v) as [u|e] eqn:E; [done|]. apply IH; [intros ????; eapply Hv; [by right|done]|].
    pose proof (Hv v e ltac:(by left) E) as He.
    destruct d0 as [d0|]; cbn in *; [|by repeat constructor].
    apply Forall_cons in H0 as [H1 H2]. constructor; [done|]. apply Forall_app. by split; [|repeat constructor].
Qed.

Lemma trim_spaces_length l : (length (trim_spaces l) ≤ length l)%nat.
Proof. induction l as [|x l IH]; cbn [trim_spaces]; [done|]. case_bool_decide; cbn [length]; lia. Qed.

(** The name in a refusal is no longer than the value it came from. *)
Lemma check_rejected a v name :
  check a v = Err (Rejected name) →
  ∃ raw, name = bounded_bytes raw ∧ (length raw ≤ length v)%nat.
Proof.
  unfold check. intros [H|(v' & Hv & H)]%result_bind_err; [by apply ok_or_err in H as [_ [=]]|].
  apply ok_or_ok in Hv. unfold to_str, from_utf8 in Hv. destruct (valid_utf8 v); [|done]. injection Hv as <-.
  apply result_bind_err in H as [H|(token & Ht & H)].
  { unfold basic_token in H. by destruct (split_at_byte SPACE v) as [? [t|]]; [case_match|]. }
  apply result_bind_err in H as [H|(decoded & Hd & H)]; [by apply ok_or_err in H as [_ [=]]|].
  assert (length token ≤ length v)%nat as Hlen.
  { unfold basic_token in Ht. pose proof (split_at_byte_spec SPACE v) as Hs.
    destruct (split_at_byte SPACE v) as [scheme [t|]]; [|done]. destruct Hs as [-> _].
    destruct (negb _); [done|]. injection Ht as <-. rewrite length_app. cbn [length].
    pose proof (trim_spaces_length t). lia. }
  apply ok_or_ok in Hd. unfold decode_base64 in Hd.
  destruct (bool_decide (token = [])); [done|]. cbn [orb] in Hd.
  destruct (Nat.eqb_spec (length token mod 4) 0) as [Hmod|]; [|done]. cbn [negb] in Hd.
  destruct (decode_quanta_shape _ _ Hmod Hd) as (k & body & _ & _ & _ & Hout & _).
  pose proof (split_at_byte_spec COLON decoded) as Hs.
  destruct (split_at_byte COLON decoded) as [raw [pass|]]; [|done]. destruct Hs as [-> _].
  apply ok_or_err in H as [_ [= <-]]. exists raw. split; [done|].
  rewrite length_app in Hout. cbn [length] in Hout.
  pose proof (Nat.Div0.mul_div_le (length token) 4). lia.
Qed.

(** ** Properties *)


Lemma check_verdict_passes users fields :
  Forall (λ field, (length field.2 < 64)%nat) fields → check_verdict users fields = Some ().
Proof.
  intros Hf. unfold check_verdict, auth_new. cbv zeta.
  rewrite (bool_decide_eq_true_2 (authenticate users fields = _)) by done.
  assert (∀ v n, (n, v) ∈ fields → (length v < 64)%nat) as Hlen.
  { intros v n Hin. rewrite Forall_forall in Hf. exact (Hf _ Hin). }
  unfold authenticate, is_disabled. case_bool_decide as Hu.
  { subst users. by rewrite bool_decide_eq_true_2 by done. }
  rewrite (bool_decide_eq_false_2 (users = [])) by done.
  pose proof (try_values_spec users (credentials fields) None) as Hspec.
  destruct (try_values users (credentials fields) None) as [[u|]|d] eqn:Et; [|done|].
  - destruct Hspec as (pre & v & post & _ & Hc & _). apply check_spec in Hc as (pass & _ & Hin).
    asserting; [done|]. apply existsb_exists. exists (mkUser u pass). split; [by apply list_elem_of_In|].
    by apply bool_decide_eq_true.
  - destruct Hspec as [_ Hcharged]. pose proof (credential_values_le fields) as Hle.
    unfold credential_values in Hle. cbn [from_option Nat.add] in Hcharged. cbn [mbind option_bind].
    asserting; cbn [assert_that].
    + done.
    + apply forallb_forall. intros claim Hin%list_elem_of_In.
      assert (Forall (λ e, ∀ name, e = Rejected name → (length name ≤ 143)%nat) (reported d :: others d)) as Hall.
      { eapply (try_values_denied users _ _ None); [done| |done|exact Et].
        intros v e Hv He name ->. apply check_rejected in He as (raw & -> & Hraw).
        apply bounded_bytes_length. apply credentials_values in Hv as (n & Hin').
        specialize (Hlen v n Hin'). unfold blen. lia. }
      change (claims d) with (map denied_username (reported d :: others d)) in Hin.
      apply list_elem_of_fmap in Hin as (e & -> & Hin). rewrite Forall_forall in Hall.
      destruct e as [|r|name]; [done..|]. cbn [denied_username]. apply Nat.ltb_lt. specialize (Hall _ Hin name eq_refl).
      unfold MAX_BOUNDED. lia.
    + apply orb_true_iff. rewrite Nat.ltb_lt, Nat.leb_le. change MAX_CREDENTIAL_VALUES with 2%nat.
      unfold Fields, FieldValue in *. lia.
    + apply Nat.leb_le. lia.
Qed.

Lemma round_trip_passes input : round_trip input = Some ().
Proof.
  unfold round_trip. destruct (cut_users input 1).1 as [|u users] eqn:Eu; [done|].
  destruct (contains_byte (username u) COLON) eqn:Ec; [done|]. cbv zeta.
  rewrite encoders_agree.
  change (lit "Basic " ++ encode_base64 (username u ++ [COLON] ++ password u))
    with (basic_header (lit "Basic") (username u) (password u)).
  destruct (basic_header_field (username u) (password u)) as [_ Hfield].
  unfold value_parse. rewrite Hfield. cbn [mbind option_bind]. unfold debug_append.
  cbn [CREDENTIAL_FIELDS lookup list_lookup mbind option_bind]. asserting.
  - apply bool_decide_eq_true. unfold auth_new.
    assert (check (u :: users) (basic_header (lit "Basic") (username u) (password u)) = Ok (username u)) as Hok.
    { apply check_spec. exists (password u). split; [|by destruct u; left].
      apply basic_header_presents; [done|]. intros Hin. apply contains_byte_spec in Hin. congruence. }
    unfold authenticate, credentials, append, fields_new. cbn [CREDENTIAL_FIELDS map concat app].
    set (v := basic_header _ _ _) in *.
    change (get_all [(lit "proxy-authorization", v)] (lit "proxy-authorization")) with [v].
    change (is_disabled (u :: users)) with false. cbn [app try_values]. by rewrite Hok.
  - done.
Qed.

(** Authentication on every input. What is bounded for a log is bounded, whatever the bytes; a
    verdict names a configured user or none, passes everyone exactly when no user is
    configured, charges at most one failure for each field offered and keeps no name
    longer than its bound; and the credentials of a user, written by an encoder that
    shares nothing with the decoder, let that user in. *)
Theorem auth_target_passes data : blen data < 2 ^ 64 → fuzz_auth data = Some ().
Proof.
  intros Hlen. destruct data as [|mode rest]; [done|]. unfold fuzz_auth.
  assert (blen rest < 2 ^ 64) as Hr by (unfold blen in *; cbn [length] in Hlen; lia).
  pose proof (bounded_bytes_length rest Hr). pose proof (bounded_length rest Hr).
  asserting; [|apply Nat.ltb_lt; unfold MAX_BOUNDED; lia].
  assert (match from_utf8 rest with
    | Some text => assert_that (length (bounded text) <? MAX_BOUNDED)%nat
    | None => Some () end = Some ()) as ->.
  { unfold from_utf8. destruct (valid_utf8 rest); [|done]. apply assert_pass, Nat.ltb_lt. unfold MAX_BOUNDED. lia. }
  cbn [mbind option_bind]. destruct (_ =? 1); [apply round_trip_passes|].
  destruct (cut_users rest _) as [users rest'].
  destruct (cut_credentials_ok rest') as (fields & -> & Hf). by apply check_verdict_passes.
Qed.

Lemma auth_target_passes_witness :
  fuzz_auth (map as_u8 [0x01; 1; 0x75; 2; 0x3a; 0x70]) = Some ().
Proof. apply auth_target_passes. reflexivity. Defined.

(** ** The targets of the codecs and of authentication *)

(** C23: the decoders on every input. For inputs of at most 64 KiB, no assertion fails and nothing
    panics in six of the fuzz targets, the debug assertions of the frame decoder included:
    HTTP datagrams and capsules mean the same after an encoding, whatever the spelling and the
    cut; frames are decoded whole from any chunks with the account of buffered octets
    exact; field sections come back from their encoding; an accepted authority or template
    names a host with no bracket in it and a port, the host cut from what the client sent; and
    a verdict on credentials names a configured user, charges no more than was offered and lets a
    user's own credentials in. *)
Theorem decoding_targets_pass `{!PercentDecode} data :
  blen data ≤ 65536 →
  fuzz_datagram data = Some () ∧ fuzz_capsule data = Some () ∧ fuzz_frame data = Some () ∧
  fuzz_qpack data = Some () ∧ fuzz_authority data = Some () ∧ fuzz_auth data = Some ().
Proof.
  intros Hlen. split_and!.
  - apply datagram_target_passes.
  - by apply capsule_target_passes.
  - apply frame_target_passes.
  - apply qpack_target_passes.
  - apply authority_target_passes.
  - apply auth_target_passes. lia.
Qed.

Lemma decoding_targets_pass_witness :
  fuzz_capsule (map as_u8 [0x01; 1; 0; 0; 0; 0; 0; 0; 0; 0x61]) = Some ().
Proof.
  apply (@decoding_targets_pass documented_percent_decode). by vm_compute.
Defined.
