(* ===== verification/FuzzRequest.v ===== *)
(** * The fuzz target of the request validator (src/fuzz/fuzz_targets/request.rs)

    Field sections, decoded from arbitrary bytes or put together from a dictionary and
    arbitrary bytes, through [build_request], and what the target asserts of every request
    that is accepted: the promises the tunnels rely on without checking them again. *)

From S2P Require Import Prelude Utf8 Datagram H3Error Qpack Frame Message RequestStream RequestFacts Target Fuzz.

#[local] Open Scope string_scope.
#[local] Open Scope list_scope.
#[local] Open Scope Z_scope.

Definition NAMES : list bytes := map lit
  [":method"; ":scheme"; ":authority"; ":path"; ":protocol"; ":status"; "host"; "te"; "connection";
   "content-length"; "content-type"; "proxy-authorization"].

Definition VALUES : list bytes := map lit
  ["CONNECT"; "GET"; "https"; "connect-udp"; "example.com:443"; "[2001:db8::1]:443";
   "/.well-known/masque/udp/example.com/53/"; "/"; "trailers"; ""].

Definition MAX_FIELDS : nat := 64.

(** One name or value: a dictionary entry, or a length-prefixed run of bytes. *)
Definition cut_token (input : bytes) (choice : Z) (dictionary : list bytes) : option (bytes * bytes) :=
  match dictionary !! Z.to_nat choice with
  | Some entry => Some (entry, input)
  | None =>
      match input with
      | [] => None
      | length_ :: rest =>
          let length_ := Z.to_nat (u8 length_ mod 40) in
          token ← get_to length_ rest;
          Some (token, drop length_ rest)
      end
  end.

Definition cut_section_step (st : bytes * list Field) : (bytes * list Field) + list Field :=
  let '(input, section) := st in
  if decide (length section < MAX_FIELDS)%nat then
    match input with
    | [] => inr section
    | selector :: input =>
        match cut_token input (Z.land (u8 selector) 0x0f) NAMES with
        | None => inr section
        | Some (name, input) =>
            match cut_token input (Z.shiftr (u8 selector) 4) VALUES with
            | None => inr section
            | Some (value, input) => inl (input, section ++ [mkField name value])
            end
        end
    end
  else inr section.

Lemma cut_token_length input choice dictionary x rest :
  cut_token input choice dictionary = Some (x, rest) → (length rest ≤ length input)%nat.
Proof.
  unfold cut_token. destruct (dictionary !! _); [by intros [= <- <-]|].
  destruct input as [|n input]; [done|]. cbv zeta. destruct (get_to _ input); [|done].
  intros [= <- <-]. rewrite length_drop. cbn [length]. lia.
Qed.

#[export] Program Instance cut_section_loop : Loop cut_section_step :=
  {| loop_measure st := length st.1 |}.
Next Obligation.
  intros [input section] st'. unfold cut_section_step. case_decide; [|done].
  destruct input as [|s input]; [done|].
  destruct (cut_token input _ NAMES) as [[n i1]|] eqn:E1; [|done].
  destruct (cut_token i1 _ VALUES) as [[v i2]|] eqn:E2; [|done]. intros [= <-].
  apply cut_token_length in E1, E2. cbn [fst length]. lia.
Qed.

Definition cut_section (input : bytes) : list Field := run cut_section_step (input, []).

Definition check_te (name value : bytes) : option unit :=
  if bool_decide (name = lit "te") then assert_that (bool_decide (value = lit "trailers")) else Some ().

(** What is asserted of one field of an accepted request. *)
Definition check_field (name value : bytes) : option unit :=
  assert_that (negb (is_pseudo name)) ;;
  assert_that (is_some (field_name name)) ;;
  assert_that (is_some (value_parse value)) ;;
  assert_that (negb (bool_decide (name = lit "connection"))) ;;
  check_te name value ;;
  assert_that (negb (at_byte is_ows value)) ;;
  assert_that (negb (match last value with Some x => is_ows x | None => false end)).

(** The [for] over the fields, with the Host fields seen. *)
Fixpoint check_fields (fields : Fields) (hosts : nat) : option nat :=
  match fields with
  | [] => Some hosts
  | (name, value) :: fields =>
      check_field name value ;;
      check_fields fields (hosts + if bool_decide (name = lit "host") then 1 else 0)%nat
  end.

(** The shape: a CONNECT without :protocol, or everything else. *)
Definition check_shape (r : Request) : option unit :=
  if bool_decide (method r = Connect) && negb (is_some (protocol r)) then
    assert_that (negb (is_some (scheme r))) ;;
    assert_that (negb (is_some (path r))) ;;
    assert_that (negb (is_some (query r))) ;;
    assert_that (is_some (authority r))
  else
    assert_that (is_some (scheme r)) ;;
    assert_that (is_some (authority r)) ;;
    assert_that (is_some (path r)) ;;
    match get (fields r) (lit "host") with
    | Some host => assert_that (bool_decide (Some host = authority r))
    | None => Some ()
    end.

(** The octets of each part. *)
Definition check_parts (r : Request) : option unit :=
  match scheme r with
  | Some scheme => assert_that (at_byte is_ascii_alphabetic scheme)
  | None => Some ()
  end ;;
  match protocol r with
  | Some protocol => assert_that (is_some (token protocol))
  | None => Some ()
  end ;;
  match authority r with
  | Some authority =>
      assert_that (negb (bool_decide (authority = []))) ;;
      assert_that (forallb (λ x, u8 x <? 128) authority)
  | None => Some ()
  end ;;
  match path r with
  | Some path =>
      assert_that (bool_decide (path = lit "*") || at_byte (λ x, bool_decide (x = SLASH)) path) ;;
      assert_that (negb (contains_byte path QUESTION))
  | None => Some ()
  end.

(** The two judgements called first may not panic; in the model they have no way to. *)
Definition check_request (r : Request) : option unit :=
  let _ := connection_specific_field r in
  let _ := validate r in
  assert_that (bool_decide (method_parse (method_as_str (method r)) = Some (method r))) ;;
  hosts ← check_fields (fields r) 0;
  assert_that (hosts <=? 1)%nat ;;
  check_shape r ;;
  check_parts r.

Definition fuzz_request (data : bytes) : option unit :=
  match data with
  | [] => Some ()
  | mode :: rest =>
      if is_even mode then
        match Qpack.decode rest MAX_FIELD_SECTION_SIZE with
        | Err _ => Some ()
        | Ok section =>
            match build_request section with
            | Ok request => check_request request
            | Err _ => Some ()
            end
        end
      else
        match build_request (cut_section rest) with
        | Ok request => check_request request
        | Err _ => Some ()
        end
  end.

(** ** What a request that was accepted promises *)

Lemma trim_start_front l : at_byte is_ows (trim_start l) = false.
Proof. induction l as [|x l IH]; [done|]. cbn [trim_start]. destruct (is_ows x) eqn:E; [done|]. cbn. by rewrite E. Qed.

Lemma trim_start_suffix l : ∃ pre, l = pre ++ trim_start l.
Proof.
  induction l as [|x l [pre IH]]; [by exists []|]. cbn [trim_start].
  destruct (is_ows x); [exists (x :: pre); by rewrite IH at 1|by exists []].
Qed.

(** Neither end of a trimmed value is white space. *)
Lemma trimmed_front l : at_byte is_ows (trim_optional_whitespace l) = false.
Proof.
  unfold trim_optional_whitespace. set (m := trim_start l).
  destruct (trim_start_suffix (rev m)) as [pre Hp]. apply (f_equal (@rev byte)) in Hp.
  rewrite rev_involutive, rev_app_distr in Hp.
  pose proof (trim_start_front l) as Hf. fold m in Hf. rewrite Hp in Hf.
  destruct (rev (trim_start (rev m))) as [|x t]; [done|]. exact Hf.
Qed.

Lemma trimmed_back l :
  match last (trim_optional_whitespace l) with Some x => is_ows x | None => false end = false.
Proof.
  unfold trim_optional_whitespace. pose proof (trim_start_front (rev (trim_start l))) as Hf.
  destruct (trim_start (rev (trim_start l))) as [|x t]; [done|]. cbn [rev]. by rewrite last_snoc.
Qed.

(** Every field of an accepted request passes, and the Host fields are counted. *)
Lemma check_fields_ok regular fields n :
  Forall (λ f, is_pseudo (Qpack.name f) = false) regular → Forall2 line_ok regular fields →
  check_fields fields n = Some (n + length (hosts (map fst fields)))%nat.
Proof.
  intros Hr Hl. revert n. induction Hl as [|f [name value] regular fields Hf Hl IH]; intros n.
  { cbn. f_equal. lia. }
  apply Forall_cons in Hr as [Hp Hr]. destruct Hf as [Hn Ht Hv Ho Hc Hte]. cbn [fst snd] in *. subst name.
  cbn [check_fields]. assert (check_field (Qpack.name f) value = Some ()) as ->.
  - unfold check_field.
    assert (check_te (Qpack.name f) value = Some ()) as ->.
    { unfold check_te. case_bool_decide; [|done]. by apply assert_pass, bool_decide_eq_true, Hte. }
    asserting; cbn [mbind option_bind]; asserting.
    + rewrite Hv. apply negb_true_iff, trimmed_back.
    + rewrite Hv. apply negb_true_iff, trimmed_front.
    + apply negb_true_iff. by apply bool_decide_eq_false.
    + unfold value_parse. by rewrite Ho.
    + by rewrite Ht.
    + by rewrite Hp.
  - cbn [mbind option_bind]. rewrite (IH Hr). f_equal. unfold hosts. cbn [map List.filter fst].
    destruct (bool_decide _); cbn [length]; lia.
Qed.

Lemma authority_octets_ascii a : authority_octets a → forallb (λ x, u8 x <? 128) a = true.
Proof.
  intros [_ Ha]. rewrite forallb_forall in *. intros x Hx. specialize (Ha x Hx).
  assert (implb (is_ascii_alphanumeric x || contains_byte AUTHORITY_PUNCTUATION x) (u8 x <? 128) = true) as H
    by octet_test x.
  by rewrite Ha in H.
Qed.

Lemma target_parts_path t p q :
  target_parts t p q →
  at_byte (λ x, bool_decide (x = SLASH)) p = true ∧ contains_byte p QUESTION = false.
Proof.
  intros H. assert (at_byte (λ x, bool_decide (x = SLASH)) p = true ∧
    forallb (λ x, is_pchar x || bool_decide (x = SLASH)) p = true) as [Hs Hp] by (by destruct H).
  split; [done|]. apply contains_byte_false. by apply path_no_question.
Qed.

(** The parts of an accepted request, by its shape. *)
Lemma accepted_shape section r :
  request_ok section r → check_shape r = Some () ∧ check_parts r = Some ().
Proof.
  intros [(pseudo & regular & _ & _ & _ & Hprot & Hshape)]. unfold check_shape, check_parts.
  assert (match protocol r with Some p => assert_that (is_some (token p)) | None => Some () end = Some ()) as ->.
  { destruct (protocol r) as [t|]; [|done]. by destruct (Hprot t eq_refl) as [_ ->]. }
  destruct (decide (method r = Connect ∧ protocol r = None)) as [[Hm Hp]|Hne].
  - destruct Hshape as [[_ Hs] (_ & Hpath & Hq) (a & _ & Ha & Hauth)].
    rewrite bool_decide_eq_true_2, Hp, Hs, Hpath, Hq, Hauth by done. split; [done|].
    cbn [mbind option_bind]. asserting; [done|by apply authority_octets_ascii|].
    apply negb_true_iff. by apply bool_decide_eq_false, Ha.
  - destruct Hshape as [(s & _ & Hsch & Hs) (t & p & _ & Hpath & Ht) (a & Hauth & Ha & Hhost & _)].
    assert (bool_decide (method r = Connect) && negb (is_some (protocol r)) = false) as ->.
    { apply not_true_is_false. intros [Hm%bool_decide_eq_true Hp]%andb_prop.
      apply Hne. split; [done|]. by destruct (protocol r). }
    rewrite Hs, Hpath, Hauth. cbn [is_some assert_that mbind option_bind]. split.
    + destruct (get (fields r) (lit "host")) as [h|]; [|done].
      apply assert_pass, bool_decide_eq_true. by rewrite (Hhost h).
    + destruct Hsch as [-> _]. cbn [assert_that mbind option_bind].
      rewrite (authority_octets_ascii _ Ha), (bool_decide_eq_false_2 (a = [])) by apply Ha. cbn [negb assert_that mbind option_bind].
      destruct Ht as [(_ & _ & -> & _)|Ht]; [done|]. apply target_parts_path in Ht as [-> ->].
      by rewrite orb_true_r.
Qed.

Lemma check_request_passes section r : build_request section = Ok r → check_request r = Some ().
Proof.
  intros Hr%build_request_ok. destruct (accepted_shape _ _ Hr) as [Hshape Hparts].
  destruct Hr as [(pseudo & regular & [_ _ _ Hreg Hlines Hhosts] & (m & _ & Hm) & _)].
  unfold check_request. rewrite (check_fields_ok regular) by done. asserting.
  - cbn [mbind option_bind]. rewrite Hshape, Hparts.
    by rewrite (proj2 (Nat.leb_le _ _)) by (cbn; lia).
  - apply bool_decide_eq_true. unfold method_parse in *. pose proof (token_spec m) as Htok.
    destruct (token m) as [t|] eqn:Et; [|done]. destruct (proj1 (Htok t) eq_refl) as (-> & _).
    injection Hm as <-. case_bool_decide as Hc; [done|]. cbn [method_as_str]. rewrite Et.
    by rewrite bool_decide_eq_false_2.
Qed.

(** C22: requests on every input. Whatever a field section holds, and whether it was decoded or
    put together from a dictionary, a request that is accepted has a method that parses as
    itself, regular fields that are lowercase tokens with legal, trimmed values, no Connection
    field, no TE but trailers and one Host at most; it is a CONNECT with an authority and nothing
    else or has a scheme, an authority Host does not contradict and a path; and its parts are
    of the octets the tunnels take for granted. *)
Theorem request_target_passes data : fuzz_request data = Some ().
Proof.
  destruct data as [|mode rest]; [done|]. unfold fuzz_request. destruct (is_even mode).
  - destruct (Qpack.decode rest MAX_FIELD_SECTION_SIZE) as [section|]; [|done].
    destruct (build_request section) as [r|] eqn:E; [|done]. by eapply check_request_passes.
  - destruct (build_request (cut_section rest)) as [r|] eqn:E; [|done]. by eapply check_request_passes.
Qed.
