(* ===== verification/DebugText.v ===== *)
(** * How a log line shows a peer's text (std's Debug of a string)

    [logfmt::escaped_bytes] bounds a token and prints it with [{:?}]: between quotation
    marks, character by character, a character that is not printable as an escape.  Which
    characters are printable is a table of the standard library; what is relied on is how
    long an escape can be ([DebugChar]), and what follows is how long a log token can be. *)

From S2P Require Import Prelude Utf8 Message Logfmt.

#[local] Open Scope Z_scope.

Definition QUOTE : byte := as_u8 0x22.
Definition BACKSLASH : byte := as_u8 0x5c.

(** The printable ASCII characters that stand for themselves. *)
Definition plain (x : byte) : bool :=
  between 0x20 0x7e x && negb (bool_decide (x = QUOTE)) && negb (bool_decide (x = BACKSLASH)).

(** A byte that is no ASCII control character. *)
Definition shown (x : byte) : bool := (0x20 <=? u8 x) && negb (u8 x =? 0x7f).

(** [char::escape_debug_ext] on the UTF-8 of a character: itself, a backslash and a letter,
    or a backslash, the letter u and the hexadecimal scalar value in braces, which is at most six
    digits long and at most two for ASCII. Control characters are never themselves, and U+FFFD
    is printable. *)
Class DebugChar := {
  debug_char : bytes → bytes;
  debug_plain x : plain x = true → debug_char [x] = [x];
  debug_ascii x : u8 x < 128 → (length (debug_char [x]) ≤ 6)%nat;
  debug_wide c : (2 ≤ length c ≤ 4)%nat → (length (debug_char c) ≤ 10)%nat;
  debug_replacement : debug_char REPLACEMENT = REPLACEMENT;
  debug_shown c : scan c = Char (length c) → Forall (λ x, shown x = true) (debug_char c);
  debug_text c : scan c = Char (length c) → valid_utf8 (debug_char c) = true;
}.

Section DebugStr.
Context `{HD : DebugChar}.

Definition debug_step (x : bytes * bytes) : (bytes * bytes) + bytes :=
  let '(out, l) := x in
  match l with
  | [] => inr out
  | _ => let n := scanned (scan l) in inl (out ++ debug_char (take n l), drop n l)
  end.

#[export] Program Instance debug_loop : Loop debug_step := {| loop_measure x := length x.2 |}.
Next Obligation.
  intros [out l] s'. unfold debug_step. destruct l as [|x l]; [done|].
  pose proof (scan_positive (x :: l)). intros [= <-]. cbn [snd]. rewrite length_drop. cbn in *. lia.
Qed.

Definition debug_body (l : bytes) : bytes := run debug_step ([], l).

(** [format!("{:?}", text)]. *)
Definition debug_str (text : bytes) : bytes := [QUOTE] ++ debug_body text ++ [QUOTE].

Lemma debug_acc out l : run debug_step (out, l) = out ++ debug_body l.
Proof.
  unfold debug_body. revert out. induction l as [l IH] using (induction_ltof1 _ length).
  intros out. rewrite (run_unfold _ (out, l)), (run_unfold _ ([], l)).
  destruct l as [|x l]; cbn [debug_step]; [by rewrite app_nil_r|].
  pose proof (scan_positive (x :: l)). cbv zeta.
  assert (ltof _ length (drop (scanned (scan (x :: l))) (x :: l)) (x :: l)) as Hlt.
  { unfold ltof. rewrite length_drop. cbn in *. lia. }
  rewrite (IH _ Hlt (out ++ _)), (IH _ Hlt ([] ++ _)). by rewrite <- app_assoc.
Qed.

(** One character, then the rest. *)
Lemma debug_char_app c rest :
  scan c = Char (length c) → debug_body (c ++ rest) = debug_char c ++ debug_body rest.
Proof.
  intros Hc. pose proof (scan_char_app c rest _ Hc) as Hs. unfold debug_body at 1. rewrite run_unfold.
  destruct c as [|x c]; [done|]. cbn [app debug_step]. change (x :: c ++ rest) with ((x :: c) ++ rest).
  rewrite Hs. cbn [scanned app]. rewrite debug_acc. change (x :: c ++ rest) with ((x :: c) ++ rest).
  by rewrite take_app_length, drop_app_length.
Qed.

Lemma scan_char_self l n : scan l = Char n → scan (take n l) = Char (length (take n l)).
Proof.
  intros H. pose proof (scan_char_le _ _ H). rewrite length_take_le by done. by apply scan_char_take.
Qed.

(** A character of the text takes at most six bytes for each of its own. *)
Lemma debug_char_length l n :
  scan l = Char n → (length (debug_char (take n l)) ≤ 6 * n)%nat.
Proof.
  intros H. pose proof (scan_char_le _ _ H). pose proof (scan_char_bound _ _ H).
  destruct (decide (n = 1%nat)) as [->|Hn].
  - destruct l as [|x l]; [done|]. apply debug_ascii. cbn [scan] in H. unfold width in H.
    destruct (between 0x00 0x7f x) eqn:E; [unfold between in E; lia|]. by repeat (case_match; try done).
  - etrans; [apply debug_wide; rewrite length_take_le by done; lia|]. lia.
Qed.

(** What [from_utf8_lossy] makes of arbitrary bytes. *)
Lemma debug_lossy_length t rest :
  (length (debug_body (from_utf8_lossy t ++ rest)) ≤ 6 * length t + length (debug_body rest))%nat.
Proof.
  induction t as [t IH] using (induction_ltof1 _ length).
  rewrite lossy_unfold. destruct t as [|x t]; [cbn [app length]; lia|]. set (l := x :: t) in *.
  pose proof (scan_positive l) as Hpos.
  assert (ltof _ length (drop (scanned (scan l)) l) l) as Hlt.
  { unfold ltof. rewrite length_drop. unfold l in *. cbn [length] in *. lia. }
  specialize (IH _ Hlt). rewrite length_drop in IH.
  destruct (scan l) as [n|n] eqn:Es; cbn [scanned] in *; rewrite <- app_assoc.
  - rewrite debug_char_app by (by apply scan_char_self). rewrite length_app.
    pose proof (debug_char_length l n Es). pose proof (scan_char_le l n Es). lia.
  - rewrite debug_char_app by reflexivity. rewrite debug_replacement, length_app.
    change (length REPLACEMENT) with 3%nat. assert (1 ≤ length l)%nat by (unfold l; cbn; lia). lia.
Qed.

(** Debugged text is text, and has no control character in it. *)
Lemma debug_body_shown l :
  valid_utf8 l = true → Forall (λ x, shown x = true) (debug_body l) ∧ valid_utf8 (debug_body l) = true.
Proof.
  induction l as [l IH] using (induction_ltof1 _ length). rewrite valid_unfold.
  destruct l as [|x l]; [done|]. pose proof (scan_positive (x :: l)) as Hpos.
  destruct (scan (x :: l)) as [n|n] eqn:Es; [|done]. intros Hv. cbn [scanned] in Hpos.
  pose proof (scan_char_self _ _ Es) as Hc.
  destruct (IH (drop n (x :: l))) as [H1 H2]; [unfold ltof; rewrite length_drop; cbn [length]; lia|done|].
  rewrite <- (take_drop n (x :: l)), debug_char_app by done. split.
  - apply Forall_app. split; [by apply debug_shown|done].
  - by rewrite valid_app by (by apply debug_text).
Qed.

(** Plain text is shown as it is. *)
Lemma debug_plain_text l : Forall (λ x, plain x = true) l → debug_body l = l.
Proof.
  induction 1 as [|x l Hx _ IH]; [done|]. change (x :: l) with ([x] ++ l).
  rewrite debug_char_app, IH; [by rewrite debug_plain|].
  cbn [scan]. unfold width. unfold plain, between in *.
  assert ((0x00 <=? u8 x) && (u8 x <=? 0x7f) = true) as -> by lia. done.
Qed.
End DebugStr.

(** The notice of a cut is plain. *)
Lemma pretty_go_plain x s :
  Forall (λ x, plain x = true) (lit s) → Forall (λ x, plain x = true) (lit (pretty_N_go x s)).
Proof.
  revert s. induction (N.lt_wf_0 x) as [x _ IH]. intros s Hs.
  destruct (N.eq_0_gt_0_cases x) as [->|Hx]; [by rewrite pretty_N_go_0|].
  rewrite pretty_N_go_step by done. apply IH; [apply N.div_lt; lia|].
  change (lit (String _ s)) with (Ascii.byte_of_ascii (pretty_N_char (x `mod` 10)) :: lit s).
  constructor; [|done]. pose proof (N.mod_upper_bound x 10).
  destruct (x `mod` 10)%N as [|p]; [done|].
  do 4 (destruct p as [p|p|]; try reflexivity; try lia).
Qed.

Lemma truncated_plain whole :
  0 ≤ whole → Forall (λ x, plain x = true) (truncated [] whole).
Proof.
  intros Hw. unfold truncated. cbn [app]. repeat apply Forall_app_2; try by repeat constructor.
  destruct whole as [|p|p]; [by repeat constructor| |lia].
  unfold pretty, pretty_Z, pretty_positive, pretty, pretty_N. rewrite decide_False by done.
  apply pretty_go_plain. constructor.
Qed.

Section Escaped.
Context `{HD : DebugChar}.

(** However long and whatever it is made of, a token escaped for a log line prints as at
    most 241 bytes. *)
Lemma escaped_bytes_length token :
  blen token < 2 ^ 64 → (length (escaped_bytes debug_str token) ≤ 241)%nat.
Proof.
  intros Ht. unfold escaped_bytes, debug_str, bounded_bytes. rewrite !length_app. cbn [length].
  destruct (Nat.leb_spec (length token) MAX_TOKEN) as [Hle|Hgt].
  - pose proof (debug_lossy_length token []) as H. rewrite app_nil_r in H. change (debug_body []) with (@nil byte) in H.
    cbn [length] in H. unfold MAX_TOKEN in Hle. lia.
  - pose proof (debug_lossy_length (take MAX_TOKEN token) (truncated [] (blen token))) as H.
    assert (0 ≤ blen token < 2 ^ 64) as Hb by (split; [auto with volto|done]).
    rewrite (debug_plain_text (truncated [] _)) in H by (apply truncated_plain, Hb).
    pose proof (truncated_length [] (blen token) Hb) as Hlen. cbn [length] in Hlen.
    change (truncated (from_utf8_lossy (take MAX_TOKEN token)) (blen token))
      with (from_utf8_lossy (take MAX_TOKEN token) ++ truncated [] (blen token)).
    rewrite length_take in H. unfold MAX_TOKEN in *. lia.
Qed.

(** It is text with no control character, so it stays on its line and is shown as it is. *)
Lemma bounded_bytes_valid token : valid_utf8 (bounded_bytes token) = true.
Proof.
  unfold bounded_bytes. destruct (_ <=? _)%nat; [apply lossy_is_valid|].
  unfold truncated. rewrite valid_app by apply lossy_is_valid. apply valid_ascii.
  eapply Forall_impl; [apply (truncated_plain (blen token)); auto with volto|].
  intros x Hx. unfold plain, between in Hx. lia.
Qed.

Lemma escaped_bytes_shown token :
  Forall (λ x, shown x = true) (escaped_bytes debug_str token) ∧
  from_utf8_lossy (escaped_bytes debug_str token) = escaped_bytes debug_str token.
Proof.
  unfold escaped_bytes, debug_str. destruct (debug_body_shown _ (bounded_bytes_valid token)) as [Hs Hv]. split.
  - apply Forall_app. split; [by repeat constructor|]. apply Forall_app. split; [done|by repeat constructor].
  - apply lossy_valid. rewrite valid_app by done. by rewrite valid_app.
Qed.
End Escaped.

(** ** An escaping

    Characters that are not plain ASCII in the longest escape of their kind, wide ones as
    they are: the interface can be implemented. *)
Definition escape_char (c : bytes) : bytes :=
  match c with
  | [x] => if plain x then [x]
           else [BACKSLASH] ++ lit "u{" ++ map as_u8 [48 + u8 x / 16; 48 + u8 x mod 16] ++ lit "}"
  | _ => c
  end.

Lemma escape_char_ascii x : (length (escape_char [x]) ≤ 6)%nat.
Proof. unfold escape_char. destruct (plain x); cbn; lia. Qed.

Lemma escape_char_wide c : (2 ≤ length c ≤ 4)%nat → (length (escape_char c) ≤ 10)%nat.
Proof. destruct c as [|x [|y c]]; cbn [escape_char length]; lia. Qed.

Lemma continuation_shown x : continuation x = true → shown x = true.
Proof. unfold continuation, shown, between. lia. Qed.

(** Every octet of a character of more than one octet is past ASCII. *)
Lemma wide_char_shown x y c :
  scan (x :: y :: c) = Char (length (x :: y :: c)) → Forall (λ z, shown z = true) (x :: y :: c).
Proof.
  intros Hc. apply Forall_cons. split.
  - cbn [scan] in Hc. destruct (width x) as [|[|n]] eqn:E; [done|done|].
    unfold width, shown, between in *. repeat case_match; try done; lia.
  - apply Forall_lookup. intros i z Hz. apply continuation_shown.
    pose proof (lookup_lt_Some _ _ _ Hz).
    by apply (char_continuation (x :: y :: c) _ (S i) z Hc); [cbn in *; lia|].
Qed.

Lemma escape_char_shown c : scan c = Char (length c) → Forall (λ x, shown x = true) (escape_char c).
Proof.
  intros Hc. destruct c as [|x [|y c]]; [constructor| |].
  - unfold escape_char. destruct (plain x) eqn:E; [|by repeat constructor; octet_test x].
    constructor; [|done]. unfold plain, shown, between in *. lia.
  - by apply wide_char_shown.
Qed.

Lemma escape_char_text c : scan c = Char (length c) → valid_utf8 (escape_char c) = true.
Proof.
  intros Hc. assert (valid_utf8 c = true) as Hv.
  { pose proof (valid_char _ _ Hc) as Hv. by rewrite firstn_all in Hv. }
  destruct c as [|x [|y c]]; [done| |done]. unfold escape_char. destruct (plain x); [done|].
  apply valid_ascii. by repeat constructor; apply Z.ltb_lt; octet_test x.
Qed.

Definition escaping : DebugChar := {|
  debug_char := escape_char;
  debug_plain x H := f_equal (λ b : bool, if b then [x] else _) H;
  debug_ascii x _ := escape_char_ascii x;
  debug_wide := escape_char_wide;
  debug_replacement := eq_refl;
  debug_shown := escape_char_shown;
  debug_text := escape_char_text;
|}.
