(* ===== verification/FuzzGate.v ===== *)
(** * The fuzz target of the SNI gate (src/fuzz/fuzz_targets/gate.rs)

    Whole datagrams through the gate's judgement, against what the module promises to pass and
    to refuse, and CRYPTO bytes straight into the ClientHello reader, against a reading of the
    message's length that is the target's own.  The keys are quinn's: the target judges
    with [nameless_crypto], here a [ServerConfig]. *)

From S2P Require Import Prelude Datagram Utf8 Message Logfmt DebugText Gate GateFacts GateVerdict Fuzz.

#[local] Open Scope string_scope.
#[local] Open Scope list_scope.
#[local] Open Scope Z_scope.

#[export] Instance Refusal_eq_dec : EqDecision Refusal.
Proof. solve_decision. Defined.
#[export] Instance Verdict_eq_dec : EqDecision Verdict.
Proof. solve_decision. Defined.

Definition GATE_MAX_BOUNDED : nat := 256.

(** The lists a datagram may be judged against, and [LISTS], built from them. *)
Definition GATE_NAMES : list (list bytes) :=
  [[lit "localhost"]; [lit "localhost"; lit "other.example"]; [lit "other.example"]].
Definition LISTS : list Names := map names_new GATE_NAMES.

(** ** The ClientHello reader *)

(** Every cut before the declared end reads as unfinished. *)
Definition check_cuts (crypto : bytes) (end_ : nat) : option unit :=
  foldr (λ cut rest,
      (if (end_ <=? cut)%nat then Some ()
       else assert_that (bool_decide (first_flight (take cut crypto) = Truncated))) ;; rest)
    (Some ()) [4; end_ / 2; end_ - 1]%nat.

Definition fail_open_before_the_message_is_whole (crypto : bytes) (read : FirstFlight) : option unit :=
  if negb (bool_decide (u8 <$> head crypto = Some CLIENT_HELLO)) then Some ()
  else
    match get_range crypto 1 4 with
    | Some [h0; h1; h2] =>
        let declared := Z.to_nat (Z.lor (Z.lor (Z.shiftl (u8 h0) 16) (Z.shiftl (u8 h1) 8)) (u8 h2)) in
        let end_ := (declared + 4)%nat in
        if (length crypto <? end_)%nat then assert_that (bool_decide (read = Truncated))
        else
          assert_that (negb (bool_decide (read = Truncated))) ;;
          check_cuts crypto end_
    | _ => assert_that (bool_decide (read = Truncated))
    end.

Definition read_a_first_flight (crypto : bytes) : option unit :=
  let read := first_flight crypto in
  assert_that (bool_decide (first_flight crypto = read)) ;;
  match crypto with
  | [] => assert_that (bool_decide (read = Truncated))
  | kind :: _ =>
      if negb (u8 kind =? CLIENT_HELLO) then assert_that (bool_decide (read = NotAClientHello)) else Some ()
  end ;;
  match read with
  | Named name => assert_that (length name + 4 <=? length crypto)%nat
  | _ => Some ()
  end ;;
  fail_open_before_the_message_is_whole crypto read.

(** ** Whole datagrams *)

Section GateTarget.
Context `{crypto : ServerConfig} `{HD : DebugChar}.

(** What the target reads of the header itself. *)
Definition long_header (datagram : bytes) : bool :=
  match datagram with first :: _ => negb (Z.land (u8 first) LONG_HEADER_FORM =? 0) | [] => false end.
Definition is_initial (datagram : bytes) : bool :=
  match datagram with first :: _ => Z.land (u8 first) LONG_PACKET_TYPE =? 0 | [] => false end.
Definition named_version (datagram : bytes) : option Z := be_fold 0 <$> get_range datagram 1 5.

(** The shapes the gate documents that it passes. *)
Definition must_pass (datagram : bytes) : bool :=
  let version := named_version datagram in
  negb (long_header datagram) || bool_decide (version = None) ||
  (bool_decide (version = Some 1) && negb (is_initial datagram)) ||
  (bool_decide (version = Some 1) && is_initial datagram && (blen datagram <? MIN_INITIAL_DATAGRAM)).

(** The refusals that need a v1 Initial in a datagram large enough. *)
Definition check_refusal (datagram : bytes) (refusal : Refusal) : option unit :=
  assert_that (long_header datagram && is_initial datagram &&
    bool_decide (named_version datagram = Some 1) && (MIN_INITIAL_DATAGRAM <=? blen datagram)) ;;
  match refusal with
  | OtherName name => assert_that (length (escaped_bytes debug_str name) <? GATE_MAX_BOUNDED)%nat
  | ShortConnectionId length_ =>
      assert_that (bool_decide (Some length_ = u8 <$> get_at datagram 5)) ;;
      assert_that (length_ <? MIN_CLIENT_CONNECTION_ID)
  | _ => Some ()
  end.

Definition refused_by_what_was_opened (verdict : Verdict) : bool :=
  match verdict with
  | Refuse NotClientHello | Refuse Anonymous | Refuse (OtherName _) => true
  | _ => false
  end.

(** [rotated[6] ^= 0x01]; [None] is the index out of range. *)
Definition rotate (datagram : bytes) : option bytes :=
  x ← get_at datagram 6;
  Some (<[6%nat := as_u8 (Z.lxor (u8 x) 0x01)]> datagram).

Definition refusing_needs_the_keys_this_datagram_carries (datagram : bytes) (names : Names)
    (verdict : Verdict) : option unit :=
  if negb (refused_by_what_was_opened verdict) then Some ()
  else
    dcid_length ← u8 <$> get_at datagram 5;
    if dcid_length =? 0 then Some ()
    else
      rotated ← rotate datagram;
      again ← judge rotated names;
      assert_that (bool_decide (again = Pass)).

Definition judge_a_datagram (datagram : bytes) (names : Names) : option unit :=
  verdict ← judge datagram names;
  (if must_pass datagram then assert_that (bool_decide (verdict = Pass)) else Some ()) ;;
  match named_version datagram with
  | Some named =>
      if long_header datagram && negb (named =? 1)
      then assert_that (bool_decide (verdict = Refuse (Version named))) else Some ()
  | None => Some ()
  end ;;
  match verdict with
  | Pass => Some ()
  | Refuse (Version refused) =>
      assert_that (bool_decide (Some refused = named_version datagram)) ;;
      assert_that (negb (refused =? 1))
  | Refuse refusal => check_refusal datagram refusal
  end ;;
  refusing_needs_the_keys_this_datagram_carries datagram names verdict.

Definition fuzz_gate (data : bytes) : option unit :=
  match data with
  | [] => Some ()
  | mode :: rest =>
      if Z.land (u8 mode) 1 =? 1 then read_a_first_flight rest
      else
        names ← LISTS !! Z.to_nat (Z.shiftr (u8 mode) 1 mod 3);
        judge_a_datagram rest names
  end.
End GateTarget.

(** ** The reader, on any bytes *)

(** A ClientHello header and what follows it. *)
Lemma first_flight_header k h0 h1 h2 r :
  u8 k = CLIENT_HELLO →
  first_flight (k :: h0 :: h1 :: h2 :: r) =
  match reader_take (Z.to_nat (Z.lor (Z.lor (Z.shiftl (u8 h0) 16) (Z.shiftl (u8 h1) 8)) (u8 h2))) r with
  | None => Truncated
  | Some (body, _) => match server_name body with Some name => Named name | None => AnonymousHello end
  end.
Proof. intros Hk. unfold first_flight. cbn [reader_byte]. rewrite Hk. done. Qed.

Lemma first_flight_short k l : u8 k = CLIENT_HELLO → (length l < 3)%nat → first_flight (k :: l) = Truncated.
Proof.
  intros Hk Hl. unfold first_flight. cbn [reader_byte]. rewrite Hk.
  destruct l as [|? [|? [|? l]]]; [done..|]. cbn in Hl. lia.
Qed.

Lemma check_cuts_pass k h0 h1 h2 r :
  u8 k = CLIENT_HELLO →
  check_cuts (k :: h0 :: h1 :: h2 :: r)
    (Z.to_nat (Z.lor (Z.lor (Z.shiftl (u8 h0) 16) (Z.shiftl (u8 h1) 8)) (u8 h2)) + 4) = Some ().
Proof.
  intros Hk. set (declared := Z.to_nat _).
  assert (∀ cut (rest : option unit), ((if (declared + 4 <=? cut)%nat then Some ()
    else assert_that (bool_decide (first_flight (take cut (k :: h0 :: h1 :: h2 :: r)) = Truncated))) ;; rest)
    = rest) as Hcut.
  { intros cut rest. destruct (Nat.leb_spec (declared + 4) cut); [done|].
    asserting; [done|]. apply bool_decide_eq_true.
    destruct cut as [|[|[|[|cut]]]]; [done|by apply first_flight_short; cbn; [|lia]..|].
    cbn [take]. rewrite first_flight_header by done. fold declared. unfold reader_take.
    rewrite decide_False; [done|]. rewrite length_take. lia. }
  unfold check_cuts. cbn [foldr]. by rewrite !Hcut.
Qed.

(** A name is inside the message it was read from. *)
Lemma hello_name_length body name : hello_wire body name → (length name ≤ length body)%nat ∧ blen name < 2 ^ 16.
Proof.
  intros (ve & ra & se & ci & co & ex & junk & ext & -> & _ & _ & _ & _ & _ & _ & Hext & Hsni).
  destruct Hext as (b1 & a1 & -> & _ & _). destruct Hsni as (entries & j2 & -> & _ & Hn).
  destruct Hn as (b2 & a2 & -> & _ & [_ Hlen]). split; [|exact Hlen].
  unfold entry_bytes, vec16. cbn [fst snd]. rewrite !length_app. lia.
Qed.

Lemma first_flight_name crypto name :
  first_flight crypto = Named name → (length name + 4 ≤ length crypto)%nat ∧ blen name < 2 ^ 16.
Proof.
  intros H. pose proof (first_flight_read crypto) as Hr. rewrite H in Hr.
  destruct Hr as (body & (rest & -> & _) & Hw%hello_name_length). unfold handshake.
  rewrite !length_app, !length_be_bytes. lia.
Qed.

Lemma read_a_first_flight_passes crypto : read_a_first_flight crypto = Some ().
Proof.
  unfold read_a_first_flight. cbv zeta. asserting; [|by apply bool_decide_eq_true].
  assert (match first_flight crypto with
    | Named name => assert_that (length name + 4 <=? length crypto)%nat | _ => Some () end = Some ()) as Hname.
  { destruct (first_flight crypto) eqn:E; try done. apply first_flight_name in E as [E _].
    by apply assert_pass, Nat.leb_le. }
  rewrite Hname. destruct crypto as [|k l]; [done|].
  unfold fail_open_before_the_message_is_whole. cbn [head fmap option_fmap option_map].
  destruct (Z.eqb_spec (u8 k) CLIENT_HELLO) as [Hk|Hk]; cbn [negb].
  2: { rewrite bool_decide_eq_false_2 by congruence. cbn [negb mbind option_bind].
       asserting; [done|]. apply bool_decide_eq_true. unfold first_flight. cbn [reader_byte].
       by rewrite (proj2 (Z.eqb_neq _ _)). }
  rewrite Hk, bool_decide_eq_true_2 by done. cbn [negb mbind option_bind].
  destruct l as [|h0 [|h1 [|h2 r]]]; [by rewrite first_flight_short by (cbn; lia || done)..|].
  change (get_range (k :: h0 :: h1 :: h2 :: r) 1 4) with (get_range (k :: [h0; h1; h2] ++ r) 1 4).
  rewrite (get_range_at _ [k] [h0; h1; h2] r 1 4) by done. cbv zeta.
  rewrite first_flight_header by done. set (declared := Z.to_nat _). unfold reader_take.
  cbn [length]. destruct (Nat.ltb_spec (S (S (S (S (length r))))) (declared + 4)) as [Hlt|Hge].
  - rewrite decide_False by lia. done.
  - rewrite decide_True by lia. asserting.
    + by apply check_cuts_pass.
    + apply negb_true_iff, bool_decide_eq_false. by destruct (server_name _).
Qed.

(** ** A datagram under another connection ID *)

(** Two datagrams that differ in the first byte of the connection ID, the seventh byte. *)
Section Rotated.
Context (p q : bytes) (x y : byte).
Hypothesis Hp : length p = 6%nat.

Lemma rotated_drop a : 7 ≤ a → drop (Z.to_nat a) (p ++ x :: q) = drop (Z.to_nat a) (p ++ y :: q).
Proof.
  intros Ha. rewrite !drop_app, Hp, !drop_ge by lia.
  destruct (Z.to_nat a - 6)%nat eqn:E; [lia|]. done.
Qed.

Lemma rotated_length : blen (p ++ x :: q) = blen (p ++ y :: q).
Proof. unfold blen. by rewrite !length_app. Qed.

Lemma rotated_range a b : 7 ≤ a → get_range (p ++ x :: q) a b = get_range (p ++ y :: q) a b.
Proof. intros Ha. unfold get_range. by rewrite rotated_length, rotated_drop. Qed.

Lemma rotated_from a : 7 ≤ a → get_from (p ++ x :: q) a = get_from (p ++ y :: q) a.
Proof. intros Ha. unfold get_from. by rewrite rotated_length, rotated_range. Qed.

Lemma rotated_at a : 0 ≤ a → a ≠ 6 → get_at (p ++ x :: q) a = get_at (p ++ y :: q) a.
Proof.
  intros Ha Hne. unfold get_at. rewrite rotated_length. case_match; [|done].
  destruct (decide (a < 6)).
  - rewrite !lookup_app_l by lia. done.
  - rewrite !lookup_app_r by lia. destruct (Z.to_nat a - length p)%nat eqn:E; [lia|]. done.
Qed.

(** The header is read the same: it looks at the length of the connection ID and past it. *)
Lemma rotated_parse h :
  parse_initial (p ++ x :: q) = Some h → (dcid h).2 - (dcid h).1 ≠ 0 →
  parse_initial (p ++ y :: q) = Some h ∧ (dcid h).1 = 6 ∧ 7 ≤ (dcid h).2 ≤ packet_number_offset h.
Proof.
  unfold parse_initial. rewrite <- rotated_length, <- (rotated_at DCID_LENGTH_OFFSET) by done.
  destruct (get_at _ DCID_LENGTH_OFFSET) as [n|]; [|done]. cbn [fmap option_fmap option_map mbind option_bind].
  destruct (MAX_CONNECTION_ID <? u8 n); [done|]. pose proof (u8_range n) as Hn.
  destruct (checked_add (DCID_LENGTH_OFFSET + 1) (u8 n)) as [e|] eqn:Ee; [|done]. cbn [mbind option_bind].
  apply checked_add_some in Ee as [-> _]. change (DCID_LENGTH_OFFSET + 1) with 6 in *.
  intros H Hne.
  assert (u8 n ≠ 0) as Hn0.
  { intros E0. apply Hne. repeat first
      [ progress split_reads H
      | match type of H with (if ?b then None else _) = Some _ => destruct b; [discriminate H|] end ].
    injection H as <-. cbn. lia. }
  assert (is_Some (get_range (p ++ x :: q) 6 (6 + u8 n)) → is_Some (get_range (p ++ y :: q) 6 (6 + u8 n))) as Hr.
  { intros [r Hr]. apply get_range_some in Hr as (? & Hb & _). rewrite rotated_length in Hb.
    destruct (get_range_is_some (p ++ y :: q) 6 (6 + u8 n)) as [r' Hr']; [lia|done|]. by exists r'. }
  destruct (get_range (p ++ x :: q) 6 (6 + u8 n)); [|done]. destruct Hr as [r' ->]; [by eexists|].
  cbn [mbind option_bind] in *.
  rewrite <- (rotated_at (6 + u8 n)) by lia.
  destruct (get_at _ (6 + u8 n)) as [m|]; [|done]. cbn [fmap option_fmap option_map mbind option_bind] in *.
  destruct (MAX_CONNECTION_ID <? u8 m); [done|]. pose proof (u8_range m).
  destruct (checked_add _ (u8 m)) as [a1|] eqn:E1; [|done]. apply checked_add_some in E1 as [-> _].
  cbn [mbind option_bind] in *. destruct (blen _ <? _); [done|].
  rewrite <- rotated_from by lia. destruct (get_from _ _) as [r1|]; [|done]. cbn [mbind option_bind] in *.
  destruct (peek_varint r1) as [[tl rd]|] eqn:Ep1; [|done]. apply peek_varint_bound in Ep1 as [? _].
  cbn [mbind option_bind] in *.
  destruct (checked_add _ (Z.of_nat rd)) as [a2|] eqn:E2; [|done]. apply checked_add_some in E2 as [-> _].
  cbn [mbind option_bind] in *.
  destruct (checked_add _ tl) as [a3|] eqn:E3; [|done]. apply checked_add_some in E3 as [-> _].
  cbn [mbind option_bind] in *. destruct (blen _ <? _); [done|].
  rewrite <- rotated_from by lia. destruct (get_from _ (_ + tl)) as [r2|]; [|done]. cbn [mbind option_bind] in *.
  destruct (peek_varint r2) as [[len rd2]|] eqn:Ep2; [|done]. cbn [mbind option_bind] in *.
  destruct (checked_add _ (Z.of_nat rd2)) as [a4|] eqn:E4; [|done]. apply checked_add_some in E4 as [-> _].
  cbn [mbind option_bind] in *.
  destruct (checked_add _ len) as [a5|] eqn:E5; [|done]. cbn [mbind option_bind] in *.
  destruct (blen _ <? _); [done|]. injection H as <-. split; [done|]. cbn [dcid fst snd packet_number_offset]. lia.
Qed.
End Rotated.

Section Opened.
Context `{crypto : ServerConfig, !KeysWf crypto}.

(** The gate opens the packet at the front of a datagram: its header parses, and the keys of the
    connection ID in that header authenticate its payload. *)
Definition opens (datagram : bytes) : bool :=
  match parse_initial datagram with
  | Some header => match decrypt datagram header with Some (Some _) => true | _ => false end
  | None => false
  end.

(** The gate opens a datagram and, under the keys of the other connection ID, the same datagram
    with one bit of its connection ID turned over.  The connection ID derives the keys
    (RFC 9001, section 5.2) and they authenticate the payload (section 5.3). *)
Definition opened_twice (datagram : bytes) : bool :=
  opens datagram && match rotate datagram with Some rotated => opens rotated | None => false end.

(** [judge] on a datagram that has a long header of version 1 and an Initial's type. *)
Definition judge_initial (datagram : bytes) (expected : Names) : option Verdict :=
  match parse_initial datagram with
  | None => Some Pass
  | Some header =>
      let dcid_len := (dcid header).2 - (dcid header).1 in
      if dcid_len <? MIN_CLIENT_CONNECTION_ID then Some (Refuse (ShortConnectionId dcid_len))
      else
        match decrypt datagram header with
        | None => None
        | Some None => Some Pass
        | Some (Some frames) =>
            match crypto_stream_prefix frames with
            | None => Some Pass
            | Some crypto_bytes => Some (judge_flight crypto_bytes expected)
            end
        end
  end.

Definition is_v1_initial (datagram : bytes) : bool :=
  long_header datagram && is_initial datagram &&
  bool_decide (named_version datagram = Some 1) && (MIN_INITIAL_DATAGRAM <=? blen datagram).

(** The verdict by the shape of the datagram. *)
Lemma judge_shapes d expected :
  judge d expected =
  if is_v1_initial d then judge_initial d expected
  else match named_version d with
       | Some v => if long_header d && negb (v =? 1) then Some (Refuse (Version v)) else Some Pass
       | None => Some Pass
       end.
Proof.
  unfold judge, is_v1_initial, long_header, is_initial, named_version.
  destruct d as [|first d]; [done|]. change INITIAL_PACKET_TYPE with 0. change QUIC_V1 with 1.
  destruct (Z.land (u8 first) LONG_HEADER_FORM =? 0); cbn [negb andb].
  { by destruct (get_range _ 1 5). }
  destruct (get_range (first :: d) 1 5) as [w|]; cbn [fmap option_fmap option_map].
  2: { by rewrite bool_decide_eq_false_2, andb_false_r. }
  destruct (Z.eqb_spec (be_fold 0 w) 1) as [->|Hne]; cbn [negb].
  2: { by rewrite bool_decide_eq_false_2, andb_false_r by congruence. }
  rewrite bool_decide_eq_true_2 by done. destruct (Z.land (u8 first) LONG_PACKET_TYPE =? 0); cbn [negb andb]; [|done].
  rewrite Z.ltb_antisym. by destruct (MIN_INITIAL_DATAGRAM <=? blen (first :: d)).
Qed.

(** The connection ID is as long as its length byte says. *)
Lemma parse_initial_length d h :
  parse_initial d = Some h → u8 <$> get_at d 5 = Some ((dcid h).2 - (dcid h).1).
Proof.
  unfold parse_initial. change DCID_LENGTH_OFFSET with 5.
  destruct (get_at d 5) as [n|]; [|done]. cbn [fmap option_fmap option_map mbind option_bind]. intros H.
  repeat first
    [ progress split_reads H
    | match type of H with (if ?b then None else _) = Some _ => destruct b; [discriminate H|] end ].
  injection H as <-. cbn [dcid fst snd].
  repeat match goal with H : checked_add _ (u8 n) = Some _ |- _ => apply checked_add_some in H as [-> _] end.
  f_equal. lia.
Qed.

(** Only an opened packet draws one of the three refusals; changed in its connection ID it passes,
    unless both connection IDs open it. *)
Lemma rotated_passes d names verdict :
  is_v1_initial d = true → judge_initial d names = Some verdict →
  refusing_needs_the_keys_this_datagram_carries d names verdict = Some () ∨ opened_twice d = true.
Proof.
  intros Hv1 Hj. unfold refusing_needs_the_keys_this_datagram_carries.
  destruct (refused_by_what_was_opened verdict) eqn:Er; [|by left]. cbn [negb].
  unfold judge_initial in Hj. destruct (parse_initial d) as [h|] eqn:Eh; [|by injection Hj as <-].
  cbv zeta in Hj. rewrite (parse_initial_length _ _ Eh). cbn [mbind option_bind].
  destruct (Z.ltb_spec ((dcid h).2 - (dcid h).1) MIN_CLIENT_CONNECTION_ID) as [|Hlong]; [by injection Hj as <-|].
  change MIN_CLIENT_CONNECTION_ID with 8 in Hlong. rewrite (proj2 (Z.eqb_neq _ _)) by lia.
  destruct (decrypt d h) as [[frames|]|] eqn:Ed; [|by injection Hj as <-|done]. clear Hj.
  assert (opens d = true) as Hopen by (unfold opens; by rewrite Eh, Ed).
  unfold opened_twice. rewrite Hopen. cbn [andb]. clear Hopen Ed.
  assert (1200 ≤ blen d) as Hlen.
  { unfold is_v1_initial in Hv1. apply andb_prop in Hv1 as [_ Hv1]. by apply Z.leb_le in Hv1. }
  unfold rotate, get_at. rewrite (proj2 (andb_true_iff _ _)) by lia. change (Z.to_nat 6) with 6%nat.
  destruct (d !! 6%nat) as [x|] eqn:Ex; [|apply lookup_ge_None in Ex; unfold blen in Hlen; lia].
  cbn [mbind option_bind]. set (y := as_u8 _). pose proof (take_drop_middle d 6 x Ex) as Hd.
  assert (<[6%nat := y]> d = take 6 d ++ y :: drop 7 d) as ->.
  { by rewrite insert_take_drop by (apply lookup_lt_Some in Ex; lia). }
  assert (length (take 6 d) = 6%nat) as Hp by (rewrite length_take_le; unfold blen in Hlen; lia).
  revert Hp Hd. generalize (take 6 d) (drop 7 d). intros p q Hp <-.
  destruct (rotated_parse p q x y Hp h Eh ltac:(lia)) as (Hh' & _ & _).
  rewrite judge_shapes. assert (is_v1_initial (p ++ y :: q) = true) as ->.
  { revert Hv1. unfold is_v1_initial, named_version, get_range. rewrite (rotated_length p q x y).
    destruct p as [|p0 [|p1 [|p2 [|p3 [|p4 [|p5 [|p6 p]]]]]]]; try (cbn in Hp; lia). done. }
  unfold judge_initial, opens. rewrite Hh'. cbv zeta.
  rewrite (proj2 (Z.ltb_ge _ _)) by (change MIN_CLIENT_CONNECTION_ID with 8; lia).
  pose proof (decrypt_no_panic _ _ Hh'). by destruct (decrypt (p ++ y :: q) h) as [[frames'|]|]; [right|left|].
Qed.

Lemma judge_flight_name c names name :
  judge_flight c names = Refuse (OtherName name) → blen name < 2 ^ 16.
Proof.
  unfold judge_flight. destruct (first_flight c) as [| | |n] eqn:E; [done..|].
  apply first_flight_name in E as [_ E]. repeat case_match; naive_solver.
Qed.
End Opened.

Section Target.
Context `{crypto : ServerConfig, !KeysWf crypto, HD : DebugChar}.

Lemma check_refusal_passes d names refusal :
  is_v1_initial d = true → judge_initial d names = Some (Refuse refusal) → check_refusal d refusal = Some ().
Proof.
  intros Hv1 Hj. unfold check_refusal. asserting; [|exact Hv1]. unfold judge_initial in Hj.
  destruct (parse_initial d) as [h|] eqn:Eh; [|done]. cbv zeta in Hj. apply parse_initial_length in Eh.
  destruct (Z.ltb_spec ((dcid h).2 - (dcid h).1) MIN_CLIENT_CONNECTION_ID) as [Hlt|].
  { injection Hj as <-. rewrite Eh, bool_decide_eq_true_2 by done. cbn [assert_that mbind option_bind].
    by apply assert_pass, Z.ltb_lt. }
  destruct (decrypt d h) as [[frames|]|]; [|done..]. destruct (crypto_stream_prefix frames) as [c|]; [|done].
  injection Hj as Hj. destruct refusal as [v|n| | |name]; try done.
  - unfold judge_flight in Hj. by repeat case_match.
  - apply judge_flight_name in Hj. apply assert_pass, Nat.ltb_lt.
    pose proof (escaped_bytes_length name). unfold GATE_MAX_BOUNDED. lia.
Qed.

(** Every assertion about a verdict holds but for the last, about the datagram with another
    connection ID. *)
Lemma judge_a_datagram_last d names :
  ∃ verdict, judge d names = Some verdict ∧
    judge_a_datagram d names = refusing_needs_the_keys_this_datagram_carries d names verdict ∧
    (judge_a_datagram d names = Some () ∨ opened_twice d = true).
Proof.
  assert (∃ verdict, judge d names = Some verdict ∧
    judge_a_datagram d names = refusing_needs_the_keys_this_datagram_carries d names verdict ∧
    (refusing_needs_the_keys_this_datagram_carries d names verdict = Some () ∨ opened_twice d = true)) as H.
  2: { destruct H as (v & Hv & He & H). exists v. by rewrite He. }
  unfold judge_a_datagram. pose proof (judge_no_panic d names) as Hnp. rewrite judge_shapes in *.
  destruct (is_v1_initial d) eqn:Hv1.
  - destruct (judge_initial d names) as [verdict|] eqn:Hj; [|done]. cbn [mbind option_bind].
    exists verdict. split; [done|]. split; [|by apply rotated_passes].
    assert (long_header d = true ∧ is_initial d = true ∧ named_version d = Some 1 ∧
      MIN_INITIAL_DATAGRAM ≤ blen d) as (Hl & Hi & Hv & Hn).
    { unfold is_v1_initial in Hv1. rewrite !andb_true_iff, bool_decide_eq_true, Z.leb_le in Hv1. tauto. }
    assert (must_pass d = false) as ->.
    { unfold must_pass. rewrite Hl, Hi, Hv. cbn [negb orb andb]. rewrite bool_decide_eq_false_2 by done.
      rewrite andb_false_r. cbn [orb]. rewrite bool_decide_eq_true_2 by done. cbn [andb]. by apply Z.ltb_ge. }
    rewrite Hv, Hl. cbn [andb negb mbind option_bind Z.eqb]. destruct verdict as [|refusal]; [done|].
    assert (∀ v, refusal ≠ Version v) as Hne.
    { intros v ->. unfold judge_initial, judge_flight in Hj. by repeat case_match. }
    pose proof (check_refusal_passes d names refusal Hv1 Hj) as Hc.
    destruct refusal as [v| | | |]; [by destruct (Hne v)|by rewrite Hc..].
  - destruct (named_version d) as [v|] eqn:Hv; [destruct (long_header d && negb (v =? 1)) eqn:El|].
    + exists (Refuse (Version v)). cbn [mbind option_bind]. apply andb_prop in El as [Hl Hne%negb_true_iff].
      assert (must_pass d = false) as ->.
      { unfold must_pass. rewrite Hl, Hv. apply Z.eqb_neq in Hne. by rewrite !bool_decide_eq_false_2 by congruence. }
      cbn [mbind option_bind]. rewrite !bool_decide_eq_true_2, Hne by done. split_and!; [done|done|by left].
    + exists Pass. cbn [mbind option_bind]. destruct (must_pass d); (split_and!; [done|done|by left]).
    + exists Pass. cbn [mbind option_bind]. destruct (must_pass d); (split_and!; [done|done|by left]).
Qed.

End Target.

(** ** An instance the theorem applies to *)

(** Keys that tag a payload with the connection ID it was sealed under. *)
Definition tagged_keys (d : bytes) : Keys :=
  mkKeys 16 (λ _ b, b) (blen d)
    (λ _ _ payload, if decide (d `suffix_of` payload)
                    then Some (take (length payload - length d) payload) else None).

Definition tagged_crypto : ServerConfig := λ _ d, Some (tagged_keys d).

Lemma tagged_wf : KeysWf tagged_crypto.
Proof. split; intros; match goal with H : initial_keys _ _ = Some _ |- _ => injection H as <- end; done. Qed.

(** A full-size Initial packet, opened and refused: its CRYPTO frame begins a message that is no
    ClientHello. *)
Definition refused_datagram : bytes :=
  [Byte.xc0] ++ be_bytes 4 QUIC_V1 ++ [Byte.x08] ++ replicate 8 Byte.x01 ++ [Byte.x00; Byte.x00] ++
  [Byte.x44; Byte.x9e] ++ [Byte.x00] ++ map as_u8 [0x06; 0; 1; 2] ++ replicate 1169 Byte.x00 ++
  replicate 8 Byte.x01.

Example refused_for_what_was_opened :
  judge (crypto := tagged_crypto) refused_datagram (names_new [lit "localhost"]) = Some (Refuse NotClientHello).
Proof. by vm_compute. Qed.

