(* ===== verification/CloseLog.v ===== *)
(** * What a connection's task writes to the log (src/src/h3/error.rs, src/src/quic/mod.rs)

    The [Display] of the endings a connection or a stream can have and what each names as its
    source, what the handshake tells about a peer ([peer_info]), the handshake future, and the
    lines of [Server::serve]: at most one about a handshake that failed, and for a connection
    one that says it was established and one that says how it ended ([log_connection_closed]).

    A line is its level, its message and its fields in order.  A field is recorded the way
    tracing's sigils say: [%] prints the value's [Display] as it is, a plain string is printed
    quoted and escaped, a number in digits.  Only the first kind can carry a peer's newline
    into the journal, and the theorems are that none does.  quinn's own [Display] is the
    interface [QuinnDisplay]. *)

From Stdlib Require Import HexString.
From S2P Require Import Prelude Utf8 H3Error Message Logfmt Policy Connection Exchange Status StatusFacts Roster Conn Server.
From S2P Require Import DebugText.

#[local] Open Scope string_scope.
#[local] Open Scope list_scope.
#[local] Open Scope Z_scope.

(** ** quinn's errors as text

    A close by the peer is printed as words of quinn's own that depend on its code alone,
    and after them, when there is one, the reason phrase decoded lossily; the two endings
    without a payload are words of quinn's own.  Nothing is said of the variants the crate
    does not take apart. *)

Class QuinnDisplay (QuinnError : Type) := {
  quinn_display : @quinn_ConnectionError QuinnError → bytes;
  transport_head : Z → bytes;
  application_head : Z → bytes;
  display_closed c r :
    quinn_display (ConnectionClosed c r) =
    transport_head c ++ (if bool_decide (r = []) then [] else lit ": " ++ from_utf8_lossy r);
  display_application c r :
    quinn_display (ApplicationClosed c r) =
    application_head c ++ (if bool_decide (r = []) then [] else lit ": " ++ from_utf8_lossy r);
  display_heads c :
    Forall (λ x, shown x = true) (transport_head c) ∧
    Forall (λ x, shown x = true) (application_head c);
  display_timed_out : Forall (λ x, shown x = true) (quinn_display TimedOut);
  display_locally_closed : Forall (λ x, shown x = true) (quinn_display LocallyClosed);
}.

Section Lines.
Context {QuinnError : Type} `{HQ : !QuinnDisplay QuinnError} `{HD : DebugChar}.
#[local] Abbreviation QuinnErr := (@quinn_ConnectionError QuinnError).
#[local] Abbreviation ConnErr := (@ConnectionError QuinnError).
#[local] Abbreviation StreamErr := (@StreamError QuinnError).

(** ** The endings of h3/error.rs as text, and their sources *)

Definition connection_error_display (e : ConnErr) : bytes :=
  match e with
  | ApplicationClose code => lit "ApplicationClose: " ++ lit (code_display code)
  | Timeout => lit "Timeout"
  | ConnLocal violation => lit "closed by this server: " ++ lit (violation_display violation)
  | Transport error => quinn_display error
  end.

Definition connection_error_source (e : ConnErr) : option QuinnErr :=
  match e with Transport error => Some error | _ => None end.

Definition stream_error_from_connection (error : ConnErr) : StreamErr := H3Error.Connection error.

Definition stream_error_from_violation (violation : Violation) : StreamErr := StreamLocal violation.

(** The text is the [Display] of [quinn::ClosedStream]. *)
Definition stream_error_from_closed (text : string) : StreamErr := internal text.

Definition stream_error_display (e : StreamErr) : bytes :=
  match e with
  | RemoteTerminate code => lit "peer terminated the stream: " ++ lit (code_display code)
  | H3Error.Connection error => lit "connection error: " ++ connection_error_display error
  | StreamLocal violation => lit "stream reset by this server: " ++ lit (violation_display violation)
  end.

Definition stream_error_source (e : StreamErr) : option ConnErr :=
  match e with H3Error.Connection error => Some error | _ => None end.

(** [RespondError] of h3/stream.rs. *)
Definition respond_error_display (e : @RespondError QuinnError) : bytes :=
  match e with
  | RespondFailed error => stream_error_display error
  | Expired => lit "the peer did not take the response within one idle timeout"
  end.

Definition respond_error_source (e : @RespondError QuinnError) : option StreamErr :=
  match e with RespondFailed error => Some error | Expired => None end.

(** ** What the handshake tells about a peer *)

(** quinn's [HandshakeData]. *)
Record HandshakeData := mkHandshakeData {
  protocol : option bytes;
  server_name : option bytes;
}.

(** What a connection reports of itself at one instant; the round trip in nanoseconds. *)
Record QuicView := mkQuicView {
  remote_address : SocketAddr;
  rtt : Z;
  current_mtu : Z;
  black_holes_detected : Z;
  udp_tx_bytes : Z;
  udp_rx_bytes : Z;
  sent_packets : Z;
  lost_packets : Z;
}.

Record PeerInfo := mkPeerInfo {
  remote : SocketAddr;
  alpn : option bytes;
  peer_server_name : option bytes;
}.

(** [handshake_data] is what quinn holds after the downcast, if anything. *)
Definition peer_info (conn : QuicView) (handshake_data : option HandshakeData) : PeerInfo :=
  let '(alpn, server_name) :=
    match handshake_data with
    | Some data => (from_utf8_lossy <$> protocol data, server_name data)
    | None => (None, None)
    end in
  {| remote := remote_address conn; alpn := alpn; peer_server_name := server_name |}.

(** [Handshake]'s [poll]: quinn's own future, or the error the accept met; [None] is
    [Poll::Pending]. *)
Definition handshake_poll {Connecting Conn_ : Type}
    (connecting_poll : Connecting → option (result Conn_ QuinnErr))
    (h : result Connecting QuinnErr) : option (result Conn_ QuinnErr) :=
  match h with
  | Ok connecting => connecting_poll connecting
  | Err error => Some (Err error)
  end.

(** ** Lines *)

Inductive Level := Debug | Info | Warn.

(** [%value], a string field, and a number field. *)
Inductive Recorded := Displayed (text : bytes) | Str (text : bytes) | Number (n : Z).

Record Line := mkLine {
  level : Level;
  message : string;
  fields : list (string * Recorded);
}.

Definition as_millis (nanos : Z) : Z := nanos / 10 ^ 6.
Definition as_secs (nanos : Z) : Z := nanos / 10 ^ 9.

(** [log_connection_closed]; [quic] is the one snapshot it takes. *)
Definition log_connection_closed (remote : SocketAddr) (quic : QuicView)
    (closed : result string ConnErr) (tunnels dropped_datagrams : Z) : Line :=
  match closed with
  | Ok reason =>
      {| level := Info;
         message := "connection closed";
         fields := [
           ("log_id", Str (lit "8ro19wv6"));
           ("remote", Displayed (socket_display remote));
           ("remote_now", Displayed (socket_display (remote_address quic)));
           ("reason", Str (lit reason));
           ("rtt_ms", Number (as_millis (rtt quic)));
           ("mtu", Number (current_mtu quic));
           ("mtu_black_holes", Number (black_holes_detected quic));
           ("tunnels", Number tunnels);
           ("dropped_datagrams", Number dropped_datagrams);
           ("tx_bytes", Number (udp_tx_bytes quic));
           ("rx_bytes", Number (udp_rx_bytes quic));
           ("sent_packets", Number (sent_packets quic));
           ("lost_packets", Number (lost_packets quic))] |}
  | Err error =>
      {| level := Warn;
         message := "connection closed with error";
         fields := [
           ("log_id", Str (lit "9pds6tk6"));
           ("remote", Displayed (socket_display remote));
           ("remote_now", Displayed (socket_display (remote_address quic)));
           ("error", Displayed (connection_error_display error));
           ("rtt_ms", Number (as_millis (rtt quic)));
           ("mtu", Number (current_mtu quic));
           ("mtu_black_holes", Number (black_holes_detected quic));
           ("tunnels", Number tunnels);
           ("dropped_datagrams", Number dropped_datagrams);
           ("tx_bytes", Number (udp_tx_bytes quic));
           ("rx_bytes", Number (udp_rx_bytes quic));
           ("sent_packets", Number (sent_packets quic));
           ("lost_packets", Number (lost_packets quic))] |}
  end.

Definition established_line (quic : QuicView) (peer : PeerInfo) : Line :=
  {| level := Info;
     message := "connection established";
     fields := [
       ("log_id", Str (lit "7l4svyo3"));
       ("remote", Displayed (socket_display (remote peer)));
       ("alpn", Displayed (or_dash (alpn peer)));
       ("server_name", Displayed (or_dash (peer_server_name peer)));
       ("rtt_ms", Number (as_millis (rtt quic)))] |}.

(** [peer_error] with the standard library's escaping. *)
#[local] Abbreviation scrub := (peer_error (QuinnError := QuinnError) debug_str).

(** A connection that completed its handshake: what it reported then and at its end, what the
    handshake revealed, and the two counters read once it is over. *)
Record Served := mkServed {
  opened : QuicView;
  handshake_data : option HandshakeData;
  service : @ServiceRace QuinnError;
  ended : QuicView;
  tunnels : Z;
  dropped_datagrams : Z;
}.

(** What [select!] over the eviction and the timed handshake yields. *)
Inductive HandshakeEnd :=
  | EvictedBefore
  | Finished_ (outcome : result Served QuinnErr)
  | Elapsed.

(** The lines of [Server::serve] for the peer at [from]. *)
Definition serve_lines (from : SocketAddr) (handshake_deadline : Z) (handshake : HandshakeEnd) : list Line :=
  match handshake with
  | EvictedBefore =>
      [{| level := Debug;
          message := "evicted before its QUIC handshake completed: the server is full";
          fields := [("remote", Displayed (socket_display from))] |}]
  | Finished_ (Err error) =>
      [{| level := Debug;
          message := "QUIC handshake failed";
          fields := [("remote", Displayed (socket_display from));
                     ("error", Displayed (quinn_display (scrub error)))] |}]
  | Elapsed =>
      [{| level := Debug;
          message := "QUIC handshake did not complete in time";
          fields := [("remote", Displayed (socket_display from));
                     ("timeout_secs", Number (as_secs handshake_deadline))] |}]
  | Finished_ (Ok quic) =>
      let peer := peer_info (opened quic) (handshake_data quic) in
      [established_line (opened quic) peer;
       log_connection_closed (remote peer) (ended quic) (grade_ending (service quic))
         (tunnels quic) (dropped_datagrams quic)]
  end.
End Lines.

(** ** Text that stays on its line *)

(** No octet is an ASCII control character, a newline in particular. *)
Definition on_one_line (l : bytes) : Prop := Forall (λ x, shown x = true) l.

Lemma on_one_line_app a b : on_one_line a → on_one_line b → on_one_line (a ++ b).
Proof. intros. by apply Forall_app. Qed.

Lemma on_one_line_lit s : forallb shown (lit s) = true → on_one_line (lit s).
Proof. intros H. apply Forall_forall. intros x Hx. rewrite forallb_forall in H. by apply H, list_elem_of_In. Qed.

Lemma lit_app a b : lit (a +:+ b) = lit a ++ lit b.
Proof.
  induction a as [|c a IH]; [done|]. change (String c a +:+ b) with (String c (a +:+ b)).
  unfold lit in *. cbn. by f_equal.
Qed.

Lemma raw_hex_line p : ∀ rest, on_one_line (lit rest) → on_one_line (lit (HexString.Raw.of_pos p rest)).
Proof.
  induction p as [p IH] using (well_founded_induction (well_founded_ltof _ Pos.to_nat)). intros rest Hr.
  assert (∀ c q, (Pos.to_nat q < Pos.to_nat p)%nat → shown (Ascii.byte_of_ascii c) = true →
    on_one_line (lit (HexString.Raw.of_pos q (String c rest)))) as Hstep.
  { intros c q Hq Hc. apply IH; [exact Hq|]. by constructor. }
  do 4 try destruct p as [p|p|]; cbn [HexString.Raw.of_pos];
    first [apply Hstep; [lia|done] | by constructor].
Qed.

Lemma hex_line v : on_one_line (lit (hex v)).
Proof.
  unfold hex, HexString.of_Z, HexString.of_pos. destruct v as [|p|p]; [by repeat constructor| |].
  - do 2 (constructor; [done|]). apply raw_hex_line. constructor.
  - do 3 (constructor; [done|]). apply raw_hex_line. constructor.
Qed.

Lemma code_display_line c : on_one_line (lit (code_display c)).
Proof.
  unfold code_display. destruct (list_find _ registered) as [[i [c' n]]|] eqn:E; [|apply hex_line].
  apply list_find_Some in E as (Hl & _ & _). apply on_one_line_lit.
  assert (Forall (λ p, forallb shown (lit p.2) = true) registered) as Hall.
  { repeat (constructor; [reflexivity|]). constructor. }
  exact (Forall_lookup_1 _ _ _ _ Hall Hl).
Qed.

Lemma socket_display_line a : on_one_line (socket_display a).
Proof.
  destruct (shown_socket a) as [_ H]. apply Forall_forall. intros x Hx.
  rewrite forallb_forall in H. specialize (H x (proj1 (list_elem_of_In _ _) Hx)).
  unfold StatusFacts.plain, shown, between in *. lia.
Qed.

Section Facts.
Context {QuinnError : Type} `{HQ : !QuinnDisplay QuinnError} `{HD : DebugChar}.
#[local] Abbreviation QuinnErr := (@quinn_ConnectionError QuinnError).
#[local] Abbreviation scrub := (peer_error (QuinnError := QuinnError) debug_str).

(** The variants the crate takes apart; the others are quinn's own account. *)
Definition taken_apart (e : QuinnErr) : bool :=
  match e with OtherConnectionError _ => false | _ => true end.

Lemma phrase_line r :
  on_one_line (if bool_decide (escaped_bytes debug_str r = []) then []
               else lit ": " ++ from_utf8_lossy (escaped_bytes debug_str r)).
Proof.
  case_bool_decide; [constructor|]. apply on_one_line_app; [by apply on_one_line_lit|].
  destruct (escaped_bytes_shown r) as [Hs ->]. exact Hs.
Qed.

Lemma scrubbed_line e : taken_apart e = true → on_one_line (quinn_display (scrub e)).
Proof.
  destruct e as [c r|c r| | |]; cbn [taken_apart peer_error]; try done; intros _.
  - rewrite display_closed. apply on_one_line_app; [apply display_heads|apply phrase_line].
  - rewrite display_application. apply on_one_line_app; [apply display_heads|apply phrase_line].
  - apply display_timed_out.
  - apply display_locally_closed.
Qed.

(** A close by the peer: its phrase, and the length of the longest words it is reported in
    without it. *)
Definition close_phrase (e : QuinnErr) : option bytes :=
  match e with ConnectionClosed _ r | ApplicationClosed _ r => Some r | _ => None end.

Definition close_words (e : QuinnErr) : nat :=
  match e with
  | ConnectionClosed c _ => length (transport_head c)
  | ApplicationClosed c _ =>
      length (application_head c) `max` length (lit "ApplicationClose: " ++ lit (code_display (mkCode c)))
  | _ => 0
  end.

Lemma phrase_length r :
  blen r < 2 ^ 64 →
  (length (if bool_decide (escaped_bytes debug_str r = []) then []
           else lit ": " ++ from_utf8_lossy (escaped_bytes debug_str r)) ≤ 243)%nat.
Proof.
  intros Hr. case_bool_decide; cbn [length]; [lia|].
  rewrite length_app, (proj2 (escaped_bytes_shown r)).
  pose proof (escaped_bytes_length r Hr). change (length (lit ": ")) with 2%nat. lia.
Qed.

(** However long the phrase a peer closes with, it adds at most 243 octets, whether the error is
    quinn's own or what the HTTP/3 layer makes of it. *)
Lemma scrubbed_length e r :
  close_phrase e = Some r → blen r < 2 ^ 64 →
  (length (quinn_display (scrub e)) ≤ close_words e + 243)%nat.
Proof.
  destruct e as [c r'|c r'| | |]; try done; intros [= ->] Hr; cbn [peer_error close_words];
    [rewrite display_closed|rewrite display_application]; rewrite length_app;
    pose proof (phrase_length r Hr); lia.
Qed.

Lemma interpreted_length s e r :
  close_phrase e = Some r → blen r < 2 ^ 64 →
  (length (connection_error_display (interpret scrub s e)) ≤ close_words e + 243)%nat.
Proof.
  intros He Hr. pose proof (scrubbed_length e r He Hr) as H.
  destruct e as [c r'|c r'| | |]; [exact H| |done..].
  cbn [interpret connection_error_from connection_error_display close_words]. lia.
Qed.

Lemma violation_line v : on_one_line (lit (detail v)) → on_one_line (lit (violation_display v)).
Proof.
  intros Hd. unfold violation_display. rewrite !lit_app.
  apply on_one_line_app; [apply code_display_line|]. apply on_one_line_app; [by apply on_one_line_lit|done].
Qed.

Lemma interpret_line s e :
  taken_apart e = true → (∀ v, local_error s = Some v → on_one_line (lit (detail v))) →
  on_one_line (connection_error_display (interpret scrub s e)).
Proof.
  intros He Hs. assert (on_one_line (connection_error_display (connection_error_from scrub e))) as Hf.
  { pose proof (scrubbed_line e He) as Hq. destruct e; cbn [connection_error_from connection_error_display]; try done.
    - apply on_one_line_app; [by apply on_one_line_lit|apply code_display_line].
    - by apply on_one_line_lit. }
  unfold interpret. destruct e; try done. destruct (local_error s) as [v|]; [|done].
  cbn [connection_error_display]. apply on_one_line_app; [by apply on_one_line_lit|]. by apply violation_line, Hs.
Qed.

(** Walking an error's sources loses nothing: its text ends with the text of each of them. *)
Lemma text_ends_on_source (e : @RespondError QuinnError) s c q :
  respond_error_source e = Some s → stream_error_source s = Some c → connection_error_source c = Some q →
  quinn_display q `suffix_of` respond_error_display e.
Proof.
  destruct e as [s'|]; [|done]. intros [= ->]. destruct s as [|c'|]; [done| |done]. intros [= ->].
  destruct c; try done. intros [= ->]. by eexists.
Qed.

(** What a field prints without escaping stays on its line. *)
Definition unforged (l : Line) : Prop :=
  Forall (λ f, match f.2 with Displayed text => on_one_line text | _ => True end) (fields l).

(** What is known of the inputs: a handshake that failed, or an ending of the connection as
    the HTTP/3 layer reports it, is one of the variants the crate takes apart; the details of
    this server's own violations are its own words; and the two names of the handshake are
    the protocol it chose from its own list and a name rustls accepted. *)
Definition known_inputs (h : HandshakeEnd) : Prop :=
  match h with
  | Finished_ (Err e) => taken_apart e = true
  | Finished_ (Ok q) =>
      (∀ d, handshake_data q = Some d →
         on_one_line (from_utf8_lossy (default [] (protocol d))) ∧ on_one_line (default [] (server_name d))) ∧
      (∀ error, service q = Handled_ (Err error) →
         ∃ s e, error = interpret scrub s e ∧ taken_apart e = true ∧
           ∀ v, local_error s = Some v → on_one_line (lit (detail v)))
  | EvictedBefore | Elapsed => True
  end.

Lemma or_dash_line x : on_one_line (default [] x) → on_one_line (or_dash x).
Proof. destruct x as [x|]; [done|]. intros _. by apply on_one_line_lit. Qed.

Lemma established_unforged q :
  (∀ d, handshake_data q = Some d →
     on_one_line (from_utf8_lossy (default [] (protocol d))) ∧ on_one_line (default [] (server_name d))) →
  unforged (established_line (opened q) (peer_info (opened q) (handshake_data (QuinnError := QuinnError) q))).
Proof.
  intros Hd. unfold unforged, established_line, peer_info.
  destruct (handshake_data q) as [d|]; cbn [fields remote alpn peer_server_name].
  - destruct (Hd d eq_refl) as [Hp Hn].
    repeat constructor; try apply socket_display_line; apply or_dash_line; [|done].
    destruct (protocol d); [done|constructor].
  - repeat constructor; try apply socket_display_line; by apply or_dash_line; constructor.
Qed.

Lemma closed_unforged remote q closed tunnels dropped :
  (∀ error, closed = Err error → on_one_line (connection_error_display error)) →
  unforged (log_connection_closed remote q closed tunnels dropped).
Proof.
  intros He. unfold unforged, log_connection_closed. destruct closed as [reason|error]; cbn [fields];
    repeat constructor; first [apply socket_display_line|by apply He].
Qed.

Lemma closing_error remote q closed tunnels dropped text :
  ("error"%string, Displayed text) ∈
    fields (log_connection_closed (QuinnError := QuinnError) remote q closed tunnels dropped) →
  ∃ error, closed = Err error ∧ text = connection_error_display error.
Proof.
  unfold log_connection_closed. destruct closed as [reason|error]; cbn [fields];
    rewrite !elem_of_cons, elem_of_nil; [naive_solver|].
  intros H. exists error. split; [done|]. repeat (destruct H as [H|H]; [try done; by injection H|]). done.
Qed.

(** The error a task's lines report, when it is a close by the peer: of a handshake that failed, or
    of the connection as the HTTP/3 layer reports it. *)
Definition closed_by_peer (h : HandshakeEnd) (e : QuinnErr) : Prop :=
  h = Finished_ (Err e) ∨ ∃ q s, h = Finished_ (Ok q) ∧ service q = Handled_ (Err (interpret scrub s e)).

(** C24: a peer that closes with prose of its own writes no log line of its own: whatever a
    connection's task logs, about a handshake that failed or a connection that ended, what is
    printed as it is holds no control character; and whether the transport or the application
    closed it, before or after the handshake, every error on its lines is at most 243 octets
    longer than words the peer's phrase has no part in, however long the phrase. *)
Theorem log_not_forged from deadline h :
  known_inputs h →
  Forall unforged (serve_lines from deadline h) ∧
  (∀ e r l text, closed_by_peer h e → close_phrase e = Some r → blen r < 2 ^ 64 →
     l ∈ serve_lines from deadline h → ("error"%string, Displayed text) ∈ fields l →
     (length text ≤ close_words e + 243)%nat).
Proof.
  intros Hk. split.
  - destruct h as [|[q|e]|]; cbn [serve_lines]; try by repeat constructor; apply socket_display_line.
    + destruct Hk as [Hd Hs]. apply Forall_cons. split; [by apply established_unforged|]. apply Forall_singleton.
      apply closed_unforged. intros error He%ending_is_error.
      destruct He as [He _]. destruct (Hs error He) as (s & e & -> & Ha & Hv). by apply interpret_line.
    + repeat constructor; [apply socket_display_line|]. by apply scrubbed_line.
  - intros e r l text [->|(q & s & -> & Hs)] Hp Hr Hl Hf; cbn [serve_lines] in Hl.
    + apply list_elem_of_singleton in Hl as ->. cbn [fields] in Hf.
      rewrite !elem_of_cons, elem_of_nil in Hf. destruct Hf as [|[[= ->]|[]]]; [done|].
      by apply (scrubbed_length e r).
    + apply elem_of_cons in Hl as [->|Hl].
      { exfalso. revert Hf. unfold established_line. cbn [fields].
        rewrite !elem_of_cons, elem_of_nil. naive_solver. }
      apply list_elem_of_singleton in Hl as ->. apply closing_error in Hf as (error & He & ->).
      apply ending_is_error in He as [He _]. rewrite Hs in He. injection He as <-.
      by apply (interpreted_length s e r).
Qed.

(** ** One line per ending *)

Definition visible (l : Line) : bool := match level l with Debug => false | _ => true end.

(** The line without what tells the two endings apart. *)
Definition common_fields (l : Line) : list (string * Recorded) :=
  filter (λ f, f.1 ∉ ["log_id"; "reason"; "error"]%string) (fields l).

(** The log above DEBUG has two lines for a connection whose handshake completed, that it was
    established and then how it ended, and none for any other. The last is a warning exactly
    when the connection's task graded the ending as an error, and the eleven fields besides
    its id and its reason or error are the same either way. *)
Theorem one_closing_line from deadline h :
  match filter (λ l, visible l = true) (serve_lines from deadline h), h with
  | [opening; closing], Finished_ (Ok q) =>
      message opening = "connection established"%string ∧
      (level closing = Warn ↔ ∃ e, grade_ending (service q) = Err e) ∧
      (∀ closed, common_fields closing =
         common_fields (log_connection_closed (remote_address (opened q)) (ended q) closed
           (tunnels q) (dropped_datagrams q))) ∧
      length (common_fields closing) = 11%nat
  | [], (EvictedBefore | Elapsed | Finished_ (Err _)) => True
  | _, _ => False
  end.
Proof.
  assert (∀ r q a b c t d, common_fields (log_connection_closed r q a t d) =
    common_fields (log_connection_closed (QuinnError := QuinnError) r q b t d) ∧
    length (common_fields (log_connection_closed r q c t d)) = 11%nat) as Hc.
  { by intros r q [?|?] [?|?] [?|?] t d. }
  destruct h as [|[q|e]|]; try done. cbn [serve_lines]. unfold peer_info.
  set (r := grade_ending (service q)).
  assert (level (log_connection_closed (remote_address (opened q)) (ended q) r (tunnels q)
    (dropped_datagrams q)) = Warn ↔ ∃ e, r = Err e) as Hw by (destruct r; naive_solver).
  assert (visible (log_connection_closed (remote_address (opened q)) (ended q) r (tunnels q)
    (dropped_datagrams q)) = true) as Hv by (by destruct r).
  destruct (handshake_data q); cbn [remote]; rewrite filter_cons_True, filter_cons_True, filter_nil by done;
    (split; [done|split; [exact Hw|split; [intros closed; by apply Hc|by apply (Hc _ _ r r r)]]]).
Qed.
End Facts.

(** ** Witness: an implementation of the interface, and a hostile close *)

Definition quinn_words : QuinnDisplay unit.
Proof.
  refine {|
    quinn_display e :=
      match e with
      | ConnectionClosed c r =>
          (lit "aborted by peer: " ++ lit (hex c)) ++
          (if bool_decide (r = []) then [] else lit ": " ++ from_utf8_lossy r)
      | ApplicationClosed c r =>
          (lit "closed by peer: " ++ lit (hex c)) ++
          (if bool_decide (r = []) then [] else lit ": " ++ from_utf8_lossy r)
      | TimedOut => lit "timed out"
      | LocallyClosed => lit "closed"
      | OtherConnectionError _ => lit "reset by peer"
      end;
    transport_head c := lit "aborted by peer: " ++ lit (hex c);
    application_head c := lit "closed by peer: " ++ lit (hex c);
  |}; try done.
  - intros c. split; (apply on_one_line_app; [by apply on_one_line_lit|apply hex_line]).
  - by apply on_one_line_lit.
  - by apply on_one_line_lit.
Defined.

Definition hostile_close : @quinn_ConnectionError unit :=
  ConnectionClosed 0x0a (map as_u8 [0x61; 0x0a; 0x62]).

Definition hostile_service : Served :=
  let view := mkQuicView (mkSocketAddr (V4 (mk4 (as_u8 10) (as_u8 0) (as_u8 0) (as_u8 1))) 443)
    (25 * 10 ^ 6) 1452 0 9000 7000 30 1 in
  mkServed view (Some (mkHandshakeData (Some (lit "h3")) (Some (lit "proxy.example"))))
    (Handled_ (Err (connection_error_from (peer_error (@debug_str escaping)) hostile_close))) view 1 0.

Lemma log_not_forged_witness :
  let from := remote_address (opened hostile_service) in
  let lines := serve_lines (HQ := quinn_words) (HD := escaping) from (30 * 10 ^ 9) (Finished_ (Ok hostile_service)) in
  Forall unforged lines ∧
  ∃ l text, l ∈ lines ∧ ("error"%string, Displayed text) ∈ fields l ∧ (length text ≤ 20 + 243)%nat.
Proof.
  intros from lines.
  assert (@known_inputs unit escaping (Finished_ (Ok hostile_service))) as Hk.
  { split.
    - intros d [= <-]. split; by repeat constructor.
    - intros error [= <-]. exists (shared_default 0), hostile_close. split_and!; done. }
  destruct (@log_not_forged unit quinn_words escaping from (30 * 10 ^ 9) _ Hk) as [Hu Hb].
  split; [exact Hu|]. eexists _, _. split; [right; left|]. split; [do 3 right; left|].
  eapply (Hb hostile_close (map as_u8 [0x61; 0x0a; 0x62])).
  - right. exists hostile_service, (shared_default 0). by split.
  - reflexivity.
  - reflexivity.
  - right. left.
  - do 3 right. left.
Defined.
