(* ===== verification/Sockets.v ===== *)
(** * Sockets of the host (src/src/net.rs)

    What net.rs asks of the kernel: the address probe [holds_address], the descriptor limits,
    the "don't fragment" option of a target's socket, and [resolve], the lookup outside the
    budget.  The kernel is the interface [Kernel]; the
    components that dial (UdpSession, Conn) take these as parameters, and the theorems here
    are about those parameters filled in with this code. *)

From S2P Require Import Prelude Policy Status Net Context UdpSession.

#[local] Open Scope Z_scope.

Definition is_ipv4 (a : SocketAddr) : bool := match ip a with V4 _ => true | V6 _ => false end.

(** Linux, on UDP sockets: [bind], [getsockname], the option that sets "don't fragment" and path
    MTU discovery in either family's spelling, [connect] and [getrlimit].  A call that changes
    a socket yields the socket after it.  A bound socket knows its address, which is of the
    family it was bound in. *)
Class Kernel (Socket : Type) := {
  sys_bind : SocketAddr → result Socket IoError;
  sys_local_addr : Socket → result SocketAddr IoError;
  set_ip_mtu_discover : Socket → Socket * option IoError;
  set_ipv6_mtu_discover : Socket → Socket * option IoError;
  sys_connect : Socket → SocketAddr → result Socket IoError;
  getrlimit_nofile : option Z * option Z;
  bound_family a s :
    sys_bind a = Ok s → ∃ l, sys_local_addr s = Ok l ∧ is_ipv4 l = is_ipv4 a;
}.

Section Sockets.
Context {Socket : Type} `{HK : !Kernel Socket}.

(** [set_dont_fragment] on Linux: a failure is logged, the socket is used as it is. *)
Definition set_dont_fragment (socket : Socket) : Socket * option IoError :=
  let v4 := match sys_local_addr socket with Ok address => is_ipv4 address | Err _ => true end in
  if v4 then set_ip_mtu_discover socket else set_ipv6_mtu_discover socket.

Definition holds_address (ip : IpAddr) : bool :=
  match sys_bind (mkSocketAddr ip 0) with Ok _ => true | Err _ => false end.

Definition fd_limits : option Z * option Z := getrlimit_nofile.

Definition fd_soft_limit : option Z := fd_limits.1.

(** [resolve]; [answer] is what the resolver's thread would come back with. *)
Definition resolve (host : bytes) (port : Z) (answer : PoolAnswer) : result (list SocketAddr) IoError :=
  match literal host port with
  | Some address => Ok [address]
  | None => on_the_blocking_pool answer
  end.

(** ** Properties *)

(** The option that sets "don't fragment" for an address's family. *)
Definition discovery (a : SocketAddr) : Socket → Socket * option IoError :=
  if is_ipv4 a then set_ip_mtu_discover else set_ipv6_mtu_discover.

Lemma unspecified_family a : is_ipv4 (unspecified (ip a)) = is_ipv4 a.
Proof. unfold is_ipv4, unspecified. by destruct (ip a). Qed.

Lemma bound_discovery a s :
  sys_bind (unspecified (ip a)) = Ok s → set_dont_fragment s = discovery a s.
Proof.
  intros Hb. destruct (bound_family _ _ Hb) as (l & Hl & Hf).
  unfold set_dont_fragment, discovery. rewrite Hl, Hf, unspecified_family. by destruct (is_ipv4 a).
Qed.

(** What a session's socket is opened with. *)
#[local] Abbreviation connected :=
  (connected_udp_socket sys_bind sys_connect (λ s, (set_dont_fragment s).1)).

(** A target's socket is a wildcard one of its family, asked not to fragment in that family's
    spelling, and then connected to it. *)
Definition dialled (a : SocketAddr) (s : Socket) : Prop :=
  ∃ bound, sys_bind (unspecified (ip a)) = Ok bound ∧ sys_connect (discovery a bound).1 a = Ok s.

(** No socket comes of an address only when the kernel will not bind or will not connect. *)
Definition undialled (a : SocketAddr) : Prop :=
  (∃ e, sys_bind (unspecified (ip a)) = Err e) ∨
  (∃ bound e, sys_bind (unspecified (ip a)) = Ok bound ∧ sys_connect (discovery a bound).1 a = Err e).

Lemma connected_cases a :
  (∃ s, connected a = Ok s ∧ dialled a s) ∨ (∃ e, connected a = Err e ∧ undialled a).
Proof.
  unfold connected_udp_socket. destruct (sys_bind (unspecified (ip a))) as [bound|e] eqn:Eb; cbn [result_bind].
  - rewrite (bound_discovery a bound Eb). destruct (sys_connect (discovery a bound).1 a) as [s|e] eqn:Ec.
    + left. exists s. split; [done|]. by exists bound.
    + right. exists e. split; [done|]. right. by exists bound, e.
  - right. exists e. split; [done|]. left. by exists e.
Qed.

Lemma bind_from_cases last addrs :
  match bind_from sys_bind sys_connect (λ s, (set_dont_fragment s).1) last addrs with
  | Ok s => ∃ failed a later, addrs = failed ++ a :: later ∧ Forall undialled failed ∧ dialled a s
  | Err _ => Forall undialled addrs
  end.
Proof.
  revert last. induction addrs as [|a addrs IH]; intros last; cbn [bind_from]; [constructor|].
  destruct (connected_cases a) as [(s & -> & Hs)|(e & -> & He)].
  - by exists [], a, addrs.
  - specialize (IH (Some (mkUnreachable (Some a) e))). destruct (bind_from _ _ _ _ _) as [s|u].
    + destruct IH as (failed & b & later & -> & Hf & Hb). exists (a :: failed), b, later.
      split_and!; [done|by constructor|done].
    + by constructor.
Qed.

(** A tunnel's socket. The socket a session is given for the addresses of its target
    belongs to the first of them the kernel binds and connects a socket for. It was bound to
    the wildcard address of that address's own family, "don't fragment" was asked for
    in that family's option before the socket was connected, so no packet of the tunnel leaves
    it earlier, and a kernel that refuses the option costs nothing but the option: there is no
    socket only if binding or connecting failed for every address. *)
Theorem session_socket addrs :
  match bind_any sys_bind sys_connect (λ s, (set_dont_fragment s).1) addrs with
  | Ok s => ∃ failed a later, addrs = failed ++ a :: later ∧ Forall undialled failed ∧ dialled a s
  | Err _ => Forall undialled addrs
  end.
Proof. apply bind_from_cases. Qed.

(** The probe asks about the address itself, so an address of the host is refused as
    a target and one it cannot bind is not: with [holds_address] in the place of admission's
    parameter, an address is the proxy's own exactly when its canonical form is no
    loopback and the kernel binds a socket to it. *)
Lemma own_address_is_bound ip :
  is_the_proxys_own holds_address ip = true ↔
  is_loopback (canonical ip) = false ∧ ∃ s, sys_bind (mkSocketAddr (canonical ip) 0) = Ok s.
Proof.
  unfold is_the_proxys_own, holds_address. rewrite andb_true_iff, negb_true_iff.
  destruct (sys_bind _) as [s|e]; naive_solver.
Qed.

(** The lookup outside the budget answers what the budgeted one does, once that has its slot. *)
Lemma resolve_is_lookup host port waited took answer :
  literal host port = None →
  net_lookup host port (Some waited) (Some (took, answer)) = Answers (waited + took) (resolve host port answer).
Proof. unfold net_lookup, resolve. by intros ->. Qed.
End Sockets.

(** ** Witness: a host without IPv6 connectivity, whose kernel refuses the option *)

Record HostSocket := mkHostSocket { bound_to : SocketAddr; fragments : bool; connected_to : option SocketAddr }.

Definition unsupported : IoError := mkIoError (Some 92) KindOther.

Definition host_kernel : Kernel HostSocket.
Proof.
  refine {|
    sys_bind a := Ok (mkHostSocket a true None);
    sys_local_addr s := Ok (bound_to s);
    set_ip_mtu_discover s := (s, Some unsupported);
    set_ipv6_mtu_discover s := (mkHostSocket (bound_to s) false (connected_to s), None);
    sys_connect s a :=
      if is_ipv4 a then Ok (mkHostSocket (bound_to s) (fragments s) (Some a)) else Err unsupported;
    getrlimit_nofile := (Some 1024, None);
  |}.
  intros a s [= <-]. by exists a.
Defined.

Lemma session_socket_witness :
  let v4 := mkSocketAddr (V4 (mk4 (as_u8 203) (as_u8 0) (as_u8 113) (as_u8 7))) 53 in
  let v6 := (let z := as_u8 0 in mkSocketAddr (V6 (mk6 z z z z z z z z z z z z z z z (as_u8 1))) 53) in
  ∃ s failed a later, [v6; v4] = failed ++ a :: later ∧
    Forall (@undialled _ host_kernel) failed ∧ @dialled _ host_kernel a s.
Proof.
  intros v4 v6. pose proof (@session_socket _ host_kernel [v6; v4]) as H.
  eexists. exact H.
Defined.
